(* ===== verification/_CoqProject ===== *)
-Q . S2P
Prelude.v
Text.v
Messages.v
Codec.v
Common.v
Exclude.v
Coalesce.v
Locks.v
EventHub.v
Inode.v
ReadAhead.v
AutoCache.v
Sync.v
KernelAbi.v
Fs.v
Agent.v
AgentFacts.v
Confine.v
Transport.v
ServerConn.v
Overlay.v
Disk.v
Symlink.v
RemoteFs.v
RemoteFacts.v
Walker.v
EndToEnd.v
Fuse.v
WinFsp.v
WinFacts.v
SyncEngine.v
SyncFacts.v
SyncPull.v
Tasks.v
Pump.v
Fanout.v
Coherence.v
SyncQueue.v
Http.v
Cli.v
Listen.v
Serve.v
Service.v
Supervisor.v
Commands.v
KernelServer.v
KernelFacts.v
KernelDev.v
