(* ===== verification/Prelude.v ===== *)
(** * AlloyFS: a verification development

    AlloyFS mounts a directory of one machine (the agent's export) on another.
    Its Rust crates, under src/crates/, and the files that model them:

    - alloyfs-proto: the wire protocol.  [Messages] has the error codes, the
      path type with [validate], [join] and [split], and every message;
      [Codec] has [FrameCodec] (length prefix, optional lz4).  postcard and
      lz4_flex are class parameters with their documented laws.
    - alloyfs-common: helpers of both sides.  [Common] has size parsing, token
      comparison, error mapping, attributes and the positional read and write
      loops; [Exclude] has exclude sets over a class of globs (the globset
      crate); [Coalesce] has the coalescer of watcher events.
    - alloyfs-agent: the server.  [Locks] has the lock manager (locks.rs) and
      its concurrent callers; [EventHub] the event log, its fan-out and the
      version clock (watch.rs, ops.rs); [Fs] a Unix file system with hard and
      symbolic links, as much of [std::fs] as the program calls, with [Disk]
      for whole files and trees; [Agent] the registry, the sessions and one
      definition per request handler (ops.rs, fsutil.rs, config.rs);
      [AgentFacts] and [Confine] their theorems.
    - alloyfs-http: [Http] has the token gate and every route, over the agent's
      state.
    - alloyfs-transport: [Transport] has the handshake, the client's
      multiplexed connection (mux.rs) and the server's dispatch of one frame;
      [ServerConn] the whole server side of a connection (server.rs) and the
      accept loop (tcp.rs, stdio.rs).
    - alloyfs-client: [Inode] has the inode table, [ReadAhead] the prefetching
      blocks, [AutoCache] the cache of whole files and the walker's fetch,
      [Overlay] the directory of local-only files, [Symlink] the rewriting of
      targets; [RemoteFs] puts them together: one definition per method of
      [RemoteFs] (remote_fs.rs), the event pump (events.rs), the attachment and
      the reconnection, over any network ([Net]).  [RemoteFacts] has its
      theorems against every server, [EndToEnd] those against the agent;
      [Walker] is the task that fills the cache (walker.rs).
    - alloyfs-client/src/sync: [Sync] has the plan, its baseline and the
      chunked transfers, [SyncEngine] the engine over a local disk and a
      network (engine.rs, transfer.rs, the walks of reconcile.rs); [SyncFacts]
      and [SyncPull] its theorems, [SyncQueue] the queue of its operations and
      when it is done.  [Pump] has the event pump of both clients with the
      reconnect supervisor and the heartbeats, [Tasks] the other background
      tasks: the waits, the sync's watcher loop and its baseline on disk
      (manifest.rs).
    - [Fanout] is the way of an event through all of them: the hub's broadcast
      channel, the forwarder of a subscription, the connection, the client's
      channel and the pump; [Coherence] is what a mount's caches may still hold
      at the end of it.
    - alloyfs-mount-fuse: [Fuse] has every callback and the invalidations.
    - alloyfs-mount-winfsp: [WinFsp] has every callback over file contexts, the
      conversions (UTF-16 names with [Text], NTSTATUS, FILETIME, reparse
      buffers) and the notifications; [WinFacts] its theorems.
    - alloyfs-mount-kernel: [KernelAbi] has the byte layouts shared with the
      kernel module (abi.rs), [KernelServer] the daemon's request handlers with
      their handle and listing caches and the notifications (server.rs,
      notify.rs), [KernelFacts] their theorems, [KernelDev] the daemon itself:
      the loop on the device, its tasks and the notify thread (dev.rs).
    - alloyfs-cli: [Cli] has urls, the names made of them, the home layout and
      its migration, the choice of a configuration, mount options and the
      clearing of the cache; [Listen] the listeners of [serve] and the way a
      client connects to them; [Serve] the configuration, the start of the
      agent and its lease reaper; [Service] the instances that start on their own
      and the commands that manage them (commands/service: instance.rs, scm.rs,
      mod.rs); [Supervisor] the command line and launch of such an instance and
      the loop that keeps it running (spawn.rs, runtime.rs); [Commands] the
      rest: service add, init, update, drivers, sync set-up, measurements and
      the tail of events.

    The interfaces: a network is the class [Net] (one request, one answer, a
    change of state), of which the agent behind a connection is the instance of
    [EndToEnd], and [NetSafe] what [RemoteFacts] asks of it; globs are the class
    [Globs]; postcard and lz4 the classes of [Codec].  What the transport asks
    of the agent is [RequestHandler], with a session as its instance; Windows'
    service manager is the class [Scm], YAML and JSON are [Yaml] and [Json].
    tokio's broadcast channel is the class [Broadcast], with a ring buffer as
    its instance; WinFsp's directory buffer is the class [DirBuffer].  [KernelServer], [Fuse] and [WinFsp] are
    clients of [RemoteFs] and rest on what [RemoteFacts] proves of it.  [Text]
    has the standard library's UTF-8 and UTF-16 conversions.

    ** How the model relates to the code

    A struct is a [Record], an enum an [Inductive], a method a [Definition] of
    the same name; where two components use one name the file tells them
    apart.  Rust's [Result] is [result] with [let?] for the question mark;
    handlers that change state are functions in the monad [M], which keeps the
    state reached when it fails.  Integers are [Z] with their width written
    out ([is_u64], [as_u32], [u64_add]); bytes are lists of [Z]; text is
    [string], byte by byte; maps are stdpp's [gmap], with the iteration order
    a parameter where it matters.  Instants and the operating system's choices
    (how a read is cut, which call fails) are arguments.  What several tasks
    do to shared state is a transition system whose steps are the atomic
    operations of the code: lock callers ([Locks]), publishers and subscribers
    ([EventHub]), requests, pings and the reader ([Transport]), reader, tasks
    and writer of the server ([ServerConn]), the cache walk and its fetches
    ([Walker]), pump, supervisor and heartbeats ([Pump]), the tasks an event
    passes ([Fanout]), the tasks of a sync ([SyncQueue]), the threads of the
    kernel mount ([KernelDev]), the turns of a supervised instance
    ([Supervisor]).  An agent
    request handler is one step; [Confine] and [AgentFacts] speak of one
    handler at a time, from any state.

    ** What the theorems show

    - The boundary of an export ([AgentFacts], [Confine]): nothing is served
      before the token; a read-only export never changes; requests by path
      change and open only files inside the export, whatever links it holds;
      an excluded path is answered alike whatever is on disk; writes are exact
      or refused, listings complete, and a disconnected session holds nothing.
      The same model proves where this fails: [create] follows a link at the
      end of its path, so a client can leave the export
      ([create_escapes_export]) and read excluded files
      ([create_opens_excluded]); [unlink] and [rmdir] act on what a link points
      to ([unlink_follows_link], [rmdir_removes_root]).
    - Locks: mutual exclusion and no stranded waiter in every interleaving; a
      session released while it waits may still be granted the lock.
    - Events: coalescing preserves the net effect per path and reports a
      rename once; sequence numbers have no gap, and neither has the hand-over
      from catch-up to live stream; versions are fresh.  From the hub to a
      client's pump no change goes unnoticed, though both channels may
      overflow: it is handed over, in order and once, or the consumer is told to
      start afresh; and the way comes to rest ([Fanout]).  Then a mount asks
      the server about every file that changed; but where it was only told that
      events are missing, open handles go on reading cached copies
      ([Coherence]).
    - Wire: frames and streams round-trip, decoding is bounded; both ends of a
      handshake agree; responses match requests and a closing connection
      orphans none of them -- but it can orphan a ping, and pings do not renew
      the lease they are meant to keep.  On the server a request is answered
      once, under its number, and nothing is lost while the writer lives; every
      connection has a session of its own, but the first that cannot be
      accepted ends the agent ([failed_accept_ends_agent]), and a lock waited
      for outlives its connection ([lock_outlives_connection]).
    - HTTP: every route is behind the token; a read-only export does not
      change; what a request changes is inside the export, unless a POST ends
      in a link ([http_post_escapes_export]); what was posted is what GET
      returns; a resuming event stream misses nothing silently.
    - Client: no method, event or reconnection panics, whatever the server
      answers; no request ever names an overlay path; a write lands exactly and
      a read returns the server's bytes; a lock that could not be taken again
      after a reconnection poisons its handle -- but a reconnection can
      truncate an open file and let two handles name one file.  Reads through
      the prefetcher equal reads of the file; inode numbers survive renames;
      the cache keeps within its budget where it can and stores exact copies
      (below 4 GiB); its walk ends, and has then looked at every file, unless
      four files of 4 GiB stop it ([big_files_stall_walker]).
    - Sync: a plan never discards an edit and converges; a pull leaves the
      local file equal to the server's and both sides in step; a local change
      is never pushed over a remote edit that the baseline does not show, and a
      remote delete keeps a local edit.  Renames do not keep these promises, nor
      does the removal of a directory: [SyncFacts] has a run for each.  The
      baseline on disk is replaced atomically; steady changes keep the watcher
      from ever pushing ([steady_changes_starve_sync]).  Its queue is worked off
      in bounded time, a quiescent sync has nothing left to do, and no remote
      change is overlooked; a one-shot run ends, but reports success when its
      reconciliation failed ([one_shot_hides_failure]).
    - Reconnecting ([Tasks], [Pump]): waits are bounded and a call that waits
      ends with its peer's life; a pump that took its epoch in time follows a
      reconnection, unless a heartbeat is stuck on the old connection
      ([heartbeat_silences_pump]); it may take its epoch too late
      ([pump_left_behind]), and without a supervisor it never ends
      ([pump_outlives_connection]).
    - The agent ([Serve]): it serves what its configuration and its command line
      say and nothing else; the reaper frees exactly the silent sessions, within
      the lease and five seconds.
    - Mounts: every FUSE and WinFsp callback and every well-formed kernel
      request is answered; listings by pages are complete if the directory stands still.
      No parser of the kernel ABI panics on any bytes, requests round-trip, and
      a READDIR reply is read back by the kernel's own walk.  The kernel's
      daemon loses no request and answers none twice, in any order of its
      threads; a task that outlasts the mount can leak a handle
      ([late_task_leaks_handle]).  On Windows, link
      targets, notified names and times round-trip; but an append goes to the
      size of up to five seconds ago ([winfsp_append_overwrites]) and so does
      the check that a file may be replaced by a link.
    - Command line: names made of urls are plain path components, urls parse to
      their parts, and clearing the cache reaches nothing outside it; keys are
      not injective ([export_keys_collide], [sync_keys_collide]).  From any
      configuration, a client from the network is served only with the token
      ([network_clients_need_token]); the empty string is one.  init names the
      directory it was run for, service add drops no argument, bench reads
      every byte.
    - Services: ids are plain names; without elevation nothing changes; what
      was added is stored, registered and launched as it was given, as one
      process at a time, none after a stop, and a launch leaks no handle.  The
      runs show an id that can be neither added nor removed
      ([half_added_id_is_stuck]), a store open to everybody, a service without
      a definition, merged arguments and a doubled child.

    ** Bounds and fuel

    Loops are recursive on their data wherever the code's are.  Schedules of
    the operating system are lists: theorems state how many answers suffice.
    [Fs.walk] recurses on the number of links it may still follow, the
    kernel's own limit of 40.  [AgentFacts.fetch_all] and
    [KernelAbi.emit_dirents] take fuel, with the amount proved sufficient.
    [Transport] considers connections of fewer than 2^64 requests.  The loops
    of [RemoteFs] that wait for a server (paging, reconnection) take fuel and
    end in [Waits] without it; the theorems of [EndToEnd], [Fuse] and
    [KernelFacts] give the amount that is enough.  [Fanout], [Pump] and
    [SyncQueue] bound the steps of their tasks by measures of the state.  The walks of [SyncEngine]
    and [Disk.remove_tree] take the depth of the tree; [pull_exact] gives the
    number of chunks, [clear_spares_data] holds for every depth.

    ** What is not modelled

    The system calls behind sockets, pipes, devices, processes and timers: what
    they answer is an argument.  TOML, YAML and JSON; the Windows branches of
    the other crates; starting WinFsp and building its security descriptor;
    installing the OS watcher; Windows' service dispatcher and status reports;
    argument parsing (clap) and process start-up of the command line; a request
    future that is dropped; logging.  Of the C module only its READDIR walk.

    This file holds what all others share: results and the handler monad with
    their notations, machine integers, the string operations of the standard
    library with their lemmas, little-endian bytes and ordered maps. *)

From stdpp Require Export prelude ssreflect gmap strings list sorting.
From Stdlib Require Export ZArith Lia Ascii.

#[global] Open Scope Z_scope.

(** ** Results, as Rust's [Result<A, E>] *)

Inductive result (A E : Type) : Type :=
| Ok (a : A)
| Err (e : E).
Arguments Ok {A E} a.
Arguments Err {A E} e.
#[global] Instance result_eq_dec {A E} `{EqDecision A, EqDecision E} : EqDecision (result A E).
Proof. solve_decision. Defined.

Definition result_bind {A B E} (r : result A E) (f : A → result B E) : result B E :=
  match r with Ok a => f a | Err e => Err e end.

Definition is_ok {A E} (r : result A E) : bool :=
  match r with Ok _ => true | Err _ => false end.

(** [Option::ok_or]. *)
Definition ok_or {A E} (o : option A) (e : E) : result A E :=
  match o with Some a => Ok a | None => Err e end.

(** [Result::map_err]. *)
Definition map_err {A E F} (f : E → F) (r : result A E) : result A F :=
  match r with Ok a => Ok a | Err e => Err (f e) end.

Declare Scope rust_scope.
Delimit Scope rust_scope with rust.
#[global] Open Scope rust_scope.

(** The [?] operator on results. *)
Notation "'let?' x := r 'in' k" :=
  (result_bind r (λ x, k))
  (at level 10, x name, r at level 100, k at level 200,
   format "'let?'  x  :=  r  'in' '//' k") : rust_scope.
Notation "'let?' ' p := r 'in' k" :=
  (result_bind r (λ x, match x with p => k end))
  (at level 10, p pattern, r at level 100, k at level 200,
   format "'let?'  ' p  :=  r  'in' '//' k") : rust_scope.

(** Stateful code that may fail: the state reached is kept on both outcomes,
    because a Rust method that returns [Err] keeps what it already mutated. *)
Definition M (S E A : Type) : Type := S → result A E * S.
Definition sret {S E A} (a : A) : M S E A := λ s, (Ok a, s).
Definition sfail {S E A} (e : E) : M S E A := λ s, (Err e, s).
Definition sbind {S E A B} (m : M S E A) (f : A → M S E B) : M S E B :=
  λ s, match m s with
       | (Ok a, s') => f a s'
       | (Err e, s') => (Err e, s')
       end.
Definition sget {S E} : M S E S := λ s, (Ok s, s).
Definition smod {S E} (f : S → S) : M S E unit := λ s, (Ok tt, f s).
Definition slift {S E A} (r : result A E) : M S E A := λ s, (r, s).
(** Run [m] and turn its outcome into a value: the code that matches on a
    [Result] instead of using [?]. *)
Definition stry {S E F A} (m : M S E A) : M S F (result A E) :=
  λ s, let '(r, s') := m s in (Ok r, s').

Notation "'let!' x := m 'in' k" :=
  (sbind m (λ x, k))
  (at level 10, x name, m at level 100, k at level 200,
   format "'let!'  x  :=  m  'in' '//' k") : rust_scope.
Notation "'let!' ' p := m 'in' k" :=
  (sbind m (λ x, match x with p => k end))
  (at level 10, p pattern, m at level 100, k at level 200,
   format "'let!'  ' p  :=  m  'in' '//' k") : rust_scope.
Notation "'run!' m 'in' k" :=
  (sbind m (λ _, k))
  (at level 10, m at level 100, k at level 200,
   format "'run!'  m  'in' '//' k") : rust_scope.

(** ** Machine integers *)

Definition U8_MAX : Z := 2^8 - 1.
Definition U16_MAX : Z := 2^16 - 1.
Definition U32_MAX : Z := 2^32 - 1.
Definition U64_MAX : Z := 2^64 - 1.
Definition is_u8 (z : Z) : Prop := 0 ≤ z ≤ U8_MAX.
Definition is_u16 (z : Z) : Prop := 0 ≤ z ≤ U16_MAX.
Definition is_u32 (z : Z) : Prop := 0 ≤ z ≤ U32_MAX.
Definition is_u64 (z : Z) : Prop := 0 ≤ z ≤ U64_MAX.

(** [x as u32] from a wider unsigned integer. *)
Definition as_u32 (z : Z) : Z := z mod 2^32.
Definition as_u16 (z : Z) : Z := z mod 2^16.
(** Release-mode [+] on [u64] ([fetch_add] wraps in every build). *)
Definition u64_add (a b : Z) : Z := (a + b) mod 2^64.
Definition u64_saturating_add (a b : Z) : Z := Z.min (a + b) U64_MAX.
Definition u32_saturating_add (a b : Z) : Z := Z.min (a + b) U32_MAX.
Definition saturating_sub (a b : Z) : Z := Z.max (a - b) 0.

Create HintDb ints.
#[global] Hint Unfold U8_MAX U16_MAX U32_MAX U64_MAX is_u8 is_u16 is_u32 is_u64
  as_u32 as_u16 u64_add u64_saturating_add u32_saturating_add saturating_sub : ints.

Ltac ints := autounfold with ints in *; try lia.

Lemma as_u32_small z : is_u32 z → as_u32 z = z.
Proof. intros. ints. apply Z.mod_small. lia. Qed.

Lemma u64_add_small a b : 0 ≤ a → 0 ≤ b → a + b ≤ U64_MAX → u64_add a b = a + b.
Proof. intros. ints. apply Z.mod_small. lia. Qed.

(** ** Strings

    A Rust [String] is its UTF-8 bytes; a Rocq [string] is a list of bytes.
    The separators the code splits on are ASCII, so byte-level splitting is
    what [str::split] does, and byte order is [str]'s [Ord]. *)

Definition slash : ascii := "/"%char.
Definition backslash : ascii := "\"%char.

(** [str::split(c)]: always at least one piece. *)
Fixpoint split_on (c : ascii) (s : string) : list string :=
  match s with
  | EmptyString => [""]
  | String a s' =>
      if decide (a = c) then "" :: split_on c s'
      else match split_on c s' with
           | h :: t => String a h :: t
           | [] => [String a ""]
           end
  end.

(** [str::contains(c)] for a character. *)
Fixpoint contains_char (c : ascii) (s : string) : bool :=
  match s with
  | EmptyString => false
  | String a s' => bool_decide (a = c) || contains_char c s'
  end.

(** [slice::join(sep)] for a one-character separator. *)
Fixpoint join_with (c : ascii) (l : list string) : string :=
  match l with
  | [] => ""
  | [s] => s
  | s :: l' => s +:+ String c (join_with c l')
  end.

(** [str::rsplit_once(c)]. *)
Fixpoint rsplit_once (c : ascii) (s : string) : option (string * string) :=
  match s with
  | EmptyString => None
  | String a s' =>
      match rsplit_once c s' with
      | Some (p, n) => Some (String a p, n)
      | None => if decide (a = c) then Some ("", s') else None
      end
  end.

(** [str::strip_prefix]. *)
Fixpoint strip_prefix (p s : string) : option string :=
  match p, s with
  | EmptyString, _ => Some s
  | String a p', String b s' => if decide (a = b) then strip_prefix p' s' else None
  | String _ _, EmptyString => None
  end.

(** [str::starts_with] for a string pattern. *)
Definition starts_with (p s : string) : bool :=
  match strip_prefix p s with Some _ => true | None => false end.

(** [str::replace(c, d)] for single characters. *)
Fixpoint replace_char (c d : ascii) (s : string) : string :=
  match s with
  | EmptyString => ""
  | String a s' => String (if decide (a = c) then d else a) (replace_char c d s')
  end.

(** [str::is_empty]. *)
Definition str_is_empty (s : string) : bool := bool_decide (s = "").

(** [str::len], in bytes. *)
Definition str_len (s : string) : Z := Z.of_nat (String.length s).

(** [&s[n..]]: drop the first [n] bytes. *)
Fixpoint str_drop (n : nat) (s : string) : string :=
  match n, s with
  | O, _ => s
  | S n', String _ s' => str_drop n' s'
  | S _, EmptyString => ""
  end.

(** A byte between [lo] and [hi]. *)
Definition in_range (lo hi : Z) (a : ascii) : bool :=
  let b := Z.of_N (N_of_ascii a) in (lo <=? b) && (b <=? hi).

(** [OsStr::to_str] succeeds on valid UTF-8 (Unicode table 3-7). *)
Fixpoint utf8_valid (s : string) : bool :=
  match s with
  | EmptyString => true
  | String a s1 =>
      if in_range 0 127 a then utf8_valid s1
      else match s1 with
      | EmptyString => false
      | String b s2 =>
          if in_range 194 223 a then in_range 128 191 b && utf8_valid s2
          else match s2 with
          | EmptyString => false
          | String c s3 =>
              if (in_range 224 224 a && in_range 160 191 b)
                 || (in_range 225 236 a && in_range 128 191 b)
                 || (in_range 237 237 a && in_range 128 159 b)
                 || (in_range 238 239 a && in_range 128 191 b)
              then in_range 128 191 c && utf8_valid s3
              else match s3 with
              | EmptyString => false
              | String d s4 =>
                  ((in_range 240 240 a && in_range 144 191 b)
                   || (in_range 241 243 a && in_range 128 191 b)
                   || (in_range 244 244 a && in_range 128 143 b))
                  && in_range 128 191 c && in_range 128 191 d && utf8_valid s4
              end
          end
      end
  end.

(** *** Lemmas on the string operations *)

Lemma app_nil_r_str s : s +:+ "" = s.
Proof. induction s as [|a s IH]; [done|]. by rw /= /String.append -/String.append IH. Qed.

Lemma app_assoc_str s1 s2 s3 : s1 +:+ (s2 +:+ s3) = (s1 +:+ s2) +:+ s3.
Proof. induction s1 as [|a s IH]; [done|]. rw /= /String.append -/String.append. by rw IH. Qed.

Lemma app_cons_str a s1 s2 : String a s1 +:+ s2 = String a (s1 +:+ s2).
Proof. done. Qed.

Lemma split_on_nonempty c s : split_on c s ≠ [].
Proof. destruct s; simpl; [done|]. case_decide; [done|]. by destruct (split_on c s). Qed.

Lemma split_on_sep c s : split_on c (String c s) = "" :: split_on c s.
Proof. simpl. by rw decide_True. Qed.

Lemma split_on_other c a s h t :
  a ≠ c → split_on c s = h :: t → split_on c (String a s) = String a h :: t.
Proof. intros Hne Hs. simpl. by rw decide_False // Hs. Qed.

Lemma join_cons c s l : l ≠ [] → join_with c (s :: l) = s +:+ String c (join_with c l).
Proof. by destruct l. Qed.

(** Joining the pieces gives the text back. *)
Lemma join_split c s : join_with c (split_on c s) = s.
Proof.
  induction s as [|a s IH]; simpl; [done|].
  pose proof (split_on_nonempty c s). case_decide as Ha.
  - subst. rw join_cons // IH //.
  - destruct (split_on c s) as [|h [|h' t]] eqn:E; [done| |]; simpl in *; by rw app_cons_str IH || by rw IH.
Qed.

Lemma split_app_no_sep c s1 s2 h t :
  contains_char c s1 = false → split_on c s2 = h :: t →
  split_on c (s1 +:+ s2) = (s1 +:+ h) :: t.
Proof.
  intros H1 H2. induction s1 as [|a s1 IH]; [done|].
  simpl in H1. apply orb_false_iff in H1 as [?%bool_decide_eq_false Hc].
  rw app_cons_str. by apply split_on_other, IH.
Qed.

Lemma split_no_sep c s : contains_char c s = false → split_on c s = [s].
Proof.
  intros H. pose proof (split_app_no_sep c s "" "" [] H eq_refl) as E.
  by rw app_nil_r_str in E.
Qed.

(** Splitting a join of separator-free pieces gives the pieces back. *)
Lemma split_join c l :
  l ≠ [] → Forall (λ s, contains_char c s = false) l → split_on c (join_with c l) = l.
Proof.
  induction l as [|s l IH]; [done|]. intros _ [Hs Hl]%Forall_cons.
  destruct (decide (l = [])) as [->|Hne]; [by apply split_no_sep|].
  rw join_cons //. pose proof (split_app_no_sep c s (String c (join_with c l)) "" l Hs) as E.
  rw split_on_sep (IH Hne Hl) app_nil_r_str in E. by apply E.
Qed.

Lemma split_on_no_sep c s : Forall (λ p, contains_char c p = false) (split_on c s).
Proof.
  induction s as [|a s IH]; simpl; [by repeat constructor|].
  case_decide; [by constructor|].
  destruct (split_on c s) as [|h t]; [|apply Forall_cons in IH as [Hh Ht]];
    (constructor; [|done]); simpl; by rw bool_decide_false.
Qed.

Lemma contains_char_app c s1 s2 :
  contains_char c (s1 +:+ s2) = contains_char c s1 || contains_char c s2.
Proof. induction s1 as [|a s IH]; [done|]. rw app_cons_str /= IH orb_assoc //. Qed.

Lemma split_on_app_sep c s1 s2 :
  split_on c (s1 +:+ String c s2) = split_on c s1 ++ split_on c s2.
Proof.
  induction s1 as [|a s1 IH]; [apply split_on_sep|].
  rw app_cons_str. simpl. rw IH. case_decide; [done|].
  by destruct (split_on c s1) eqn:E; [destruct (split_on_nonempty c s1)|].
Qed.

Lemma rsplit_once_Some c s p n :
  rsplit_once c s = Some (p, n) → s = p +:+ String c n ∧ contains_char c n = false.
Proof.
  revert p. induction s as [|a s IH]; [done|]. intros p. simpl.
  destruct (rsplit_once c s) as [[p' n']|] eqn:E.
  - intros ?; simplify_eq. destruct (IH _ eq_refl) as [-> ?]. done.
  - case_decide; intros; simplify_eq. split; [done|]. clear IH.
    induction n as [|b n IHn]; [done|]. simpl in *.
    destruct (rsplit_once c n) as [[]|]; [done|]. case_decide; [done|].
    rw bool_decide_false //=. by apply IHn.
Qed.

Lemma rsplit_once_None c s : rsplit_once c s = None ↔ contains_char c s = false.
Proof.
  induction s as [|a s IH]; [done|]. simpl.
  destruct (rsplit_once c s) as [[]|].
  - split; [done|]. intros [_ H]%orb_false_iff. by apply IH in H.
  - rw (proj1 IH eq_refl) orb_false_r bool_decide_eq_false. by case_decide.
Qed.

Lemma rsplit_once_app c p n :
  contains_char c n = false → rsplit_once c (p +:+ String c n) = Some (p, n).
Proof.
  intros Hn. induction p as [|a p IH].
  - rw /String.append /=. apply rsplit_once_None in Hn. by rw Hn decide_True.
  - rw app_cons_str /= IH //.
Qed.

Lemma strip_prefix_Some p s r : strip_prefix p s = Some r ↔ s = p +:+ r.
Proof.
  revert s. induction p as [|a p IH]; intros s; simpl.
  - split; intros; by simplify_eq.
  - destruct s as [|b s]; [done|]. rw app_cons_str. case_decide; [subst|].
    + rw IH. split; intros; by simplify_eq.
    + split; intros; by simplify_eq.
Qed.

Lemma starts_with_true p s : starts_with p s = true ↔ ∃ r, s = p +:+ r.
Proof.
  unfold starts_with. destruct (strip_prefix p s) as [r|] eqn:E.
  - apply strip_prefix_Some in E. split; [eauto|done].
  - split; [done|]. intros [r ->]. by rw (proj2 (strip_prefix_Some p _ r) eq_refl) in E.
Qed.

Lemma starts_with_app p r : starts_with p (p +:+ r) = true.
Proof. apply starts_with_true. eauto. Qed.

Lemma str_length_app s1 s2 : String.length (s1 +:+ s2) = (String.length s1 + String.length s2)%nat.
Proof. induction s1 as [|a s IH]; [done|]. by rw app_cons_str /= IH. Qed.

Lemma str_drop_app s1 s2 : str_drop (String.length s1) (s1 +:+ s2) = s2.
Proof. by induction s1. Qed.

Lemma app_inj_r_str s1 s2 s : s1 +:+ s = s2 +:+ s → s1 = s2.
Proof.
  revert s2. induction s1 as [|a s1 IH]; intros [|b s2] H; [done| | |].
  - apply (f_equal String.length) in H. rw !str_length_app /= in H. lia.
  - apply (f_equal String.length) in H. rw !str_length_app /= in H. lia.
  - rw !app_cons_str in H. simplify_eq. f_equal. by apply IH.
Qed.

Lemma replace_char_gone c d s : c ≠ d → contains_char c (replace_char c d s) = false.
Proof.
  intros Hne. induction s as [|a s IH]; [done|]. simpl.
  apply orb_false_iff; split; [|done]. by case_decide; apply bool_decide_eq_false.
Qed.

Lemma replace_char_id c d s : contains_char c s = false → replace_char c d s = s.
Proof.
  induction s as [|a s IH]; [done|]. simpl. intros [?%bool_decide_eq_false ?]%orb_false_iff.
  rw decide_False // IH //.
Qed.

(** ** Bytes

    A byte is a [Z] in [0, 255]; fixed-width integers are laid out
    little-endian ([to_le_bytes], and [to_ne_bytes] on the little-endian
    hosts the program targets). *)

Definition is_bytes (bs : list Z) : Prop := Forall is_u8 bs.

Fixpoint le_bytes (n : nat) (v : Z) : list Z :=
  match n with
  | O => []
  | S n' => v mod 256 :: le_bytes n' (v / 256)
  end.

Fixpoint le_value (bs : list Z) : Z :=
  match bs with
  | [] => 0
  | b :: t => b + 256 * le_value t
  end.

(** [str::as_bytes]. *)
Fixpoint as_bytes (s : string) : list Z :=
  match s with
  | EmptyString => []
  | String a s' => Z.of_N (N_of_ascii a) :: as_bytes s'
  end.

Definition blen (bs : list Z) : Z := Z.of_nat (length bs).

Lemma le_bytes_length n v : length (le_bytes n v) = n.
Proof. revert v. induction n; intros; simpl; auto. Qed.

Lemma le_bytes_is_bytes n v : is_bytes (le_bytes n v).
Proof.
  revert v. induction n as [|n IH]; intros v; [constructor|].
  constructor; [|apply IH]. pose proof (Z.mod_pos_bound v 256). ints.
Qed.

Lemma le_value_le_bytes n v : 0 ≤ v < 256 ^ Z.of_nat n → le_value (le_bytes n v) = v.
Proof.
  revert v. induction n as [|n IH]; intros v Hv.
  - simpl in *. lia.
  - rw Nat2Z.inj_succ Z.pow_succ_r in Hv; last lia. cbn [le_bytes le_value].
    rw IH; last (split; [apply Z.div_pos; lia|apply Z.div_lt_upper_bound; lia]).
    pose proof (Z.div_mod v 256). lia.
Qed.

Lemma le_value_bound bs : is_bytes bs → 0 ≤ le_value bs < 256 ^ blen bs.
Proof.
  induction 1 as [|b bs Hb _ IH]; [done|]. unfold blen in *. simpl length.
  rw Nat2Z.inj_succ Z.pow_succ_r; last lia. cbn [le_value]. ints.
Qed.

Lemma le_bytes_le_value bs : is_bytes bs → le_bytes (length bs) (le_value bs) = bs.
Proof.
  induction 1 as [|b bs Hb _ IH]; [done|]. cbn [length le_bytes le_value].
  rw (Z.mul_comm 256) Z_mod_plus_full Z.div_add //.
  rw Z.mod_small; last ints. rw Z.div_small; last ints. by rw Z.add_0_l IH.
Qed.

Lemma le_value_4 v : is_u32 v → le_value (le_bytes 4 v) = v.
Proof. intros. apply le_value_le_bytes. ints. Qed.

Lemma as_bytes_is_bytes s : is_bytes (as_bytes s).
Proof.
  induction s as [|a s IH]; simpl; constructor; [|done].
  pose proof (N_ascii_bounded a). ints.
Qed.

Lemma as_bytes_length s : length (as_bytes s) = String.length s.
Proof. induction s; simpl; auto. Qed.

Lemma as_bytes_inj s1 s2 : as_bytes s1 = as_bytes s2 → s1 = s2.
Proof.
  revert s2. induction s1 as [|a s1 IH]; intros [|b s2] H; simplify_eq/=; [done|].
  f_equal; [|by apply IH]. rw -(ascii_N_embedding a) -(ascii_N_embedding b). f_equal. lia.
Qed.

#[global] Arguments le_bytes : simpl never.
#[global] Arguments le_value : simpl never.

(** ** Ordered maps

    A [BTreeMap<String, V>] is a finite map iterated in byte order of its
    keys; so is a drained [HashMap] that is then sorted by key. *)

Definition key_le {V : Type} (x y : string * V) : Prop := String.le x.1 y.1.
#[global] Instance key_le_dec {V} : RelDecision (@key_le V) := λ x y, String.le_dec x.1 y.1.
#[global] Instance key_le_trans {V} : Transitive (@key_le V).
Proof. intros x y z. unfold key_le. apply transitivity. Qed.
#[global] Instance key_le_total {V} : Total (@key_le V).
Proof. intros x y. apply (total String.le). Qed.

Definition sorted_entries {V : Type} (m : gmap string V) : list (string * V) :=
  merge_sort key_le (map_to_list m).

Lemma sorted_entries_perm {V} (m : gmap string V) : sorted_entries m ≡ₚ map_to_list m.
Proof. apply merge_sort_Permutation. Qed.

Lemma elem_of_sorted_entries {V} (m : gmap string V) k v :
  (k, v) ∈ sorted_entries m ↔ m !! k = Some v.
Proof. rw sorted_entries_perm. apply elem_of_map_to_list. Qed.

Lemma sorted_entries_nodup {V} (m : gmap string V) : NoDup (sorted_entries m).*1.
Proof. rw sorted_entries_perm. apply NoDup_fst_map_to_list. Qed.

Lemma sorted_entries_sorted {V} (m : gmap string V) : StronglySorted key_le (sorted_entries m).
Proof. apply (StronglySorted_merge_sort _). Qed.
