(* ===== verification/Text.v ===== *)
(** * Text: characters, UTF-8 and UTF-16

    The conversions of Rust's [str] that the adapters use: a [str] is its
    characters (Unicode scalar values) in UTF-8; [encode_utf16] and
    [String::from_utf16] go to the 16-bit units of Windows and back.  Each
    decoder inverts its encoder on every sequence of characters, and what a
    decoder accepts is the encoding of what it gives. *)

From S2P Require Import Prelude.

(** ** Definitions *)

(** A Unicode scalar value: what a [char] can be. *)
Definition scalar (c : Z) : Prop := 0 ≤ c < 55296 ∨ 57344 ≤ c < 1114112.

Definition utf8_char (c : Z) : list Z :=
  if c <? 128 then [c]
  else if c <? 2048 then [192 + c / 64; 128 + c mod 64]
  else if c <? 65536 then [224 + c / 4096; 128 + c / 64 mod 64; 128 + c mod 64]
  else [240 + c / 262144; 128 + c / 4096 mod 64; 128 + c / 64 mod 64; 128 + c mod 64].

Definition utf8_encode (cs : list Z) : list Z := flat_map utf8_char cs.

Definition in_span (lo hi b : Z) : bool := (lo <=? b) && (b <=? hi).

(** The decoder, with the ranges of Unicode table 3-7. *)
Fixpoint utf8_decode (bs : list Z) : option (list Z) :=
  match bs with
  | [] => Some []
  | a :: s1 =>
      if in_span 0 127 a then cons a <$> utf8_decode s1
      else match s1 with
      | [] => None
      | b :: s2 =>
          if in_span 194 223 a then
            if in_span 128 191 b then cons ((a - 192) * 64 + (b - 128)) <$> utf8_decode s2 else None
          else match s2 with
          | [] => None
          | c :: s3 =>
              if in_span 224 239 a then
                let v := (a - 224) * 4096 + (b - 128) * 64 + (c - 128) in
                if in_span 128 191 b && in_span 128 191 c && (2048 <=? v) && negb (in_span 55296 57343 v)
                then cons v <$> utf8_decode s3 else None
              else match s3 with
              | [] => None
              | d :: s4 =>
                  let v := (a - 240) * 262144 + (b - 128) * 4096 + (c - 128) * 64 + (d - 128) in
                  if in_span 240 244 a && in_span 128 191 b && in_span 128 191 c && in_span 128 191 d
                     && (65536 <=? v) && (v <=? 1114111)
                  then cons v <$> utf8_decode s4 else None
              end
          end
      end
  end.

(** The text of UTF-8 bytes. *)
Definition text_of (bs : list Z) : string :=
  foldr (λ b s, String (ascii_of_N (Z.to_N b)) s) "" bs.

(** [str::chars], and [String::from_iter]. *)
Definition chars (s : string) : list Z := default [] (utf8_decode (as_bytes s)).
Definition from_chars (cs : list Z) : string := text_of (utf8_encode cs).

Definition utf16_char (c : Z) : list Z :=
  if c <? 65536 then [c] else [55296 + (c - 65536) / 1024; 56320 + (c - 65536) mod 1024].

Definition utf16_encode (cs : list Z) : list Z := flat_map utf16_char cs.

(** [String::from_utf16]: a surrogate alone is refused. *)
Fixpoint utf16_decode (us : list Z) : option (list Z) :=
  match us with
  | [] => Some []
  | u :: us1 =>
      if negb (in_span 55296 57343 u) then cons u <$> utf16_decode us1
      else if 56320 <=? u then None
      else match us1 with
      | [] => None
      | v :: us2 =>
          if in_span 56320 57343 v then cons (65536 + (u - 55296) * 1024 + (v - 56320)) <$> utf16_decode us2 else None
      end
  end.

(** ** Round trips *)

Lemma in_span_true lo hi b : in_span lo hi b = true ↔ lo ≤ b ≤ hi.
Proof. unfold in_span. rw andb_true_iff !Z.leb_le. tauto. Qed.
Lemma in_span_false lo hi b : in_span lo hi b = false ↔ b < lo ∨ hi < b.
Proof. unfold in_span. rw andb_false_iff !Z.leb_gt. tauto. Qed.

(** Decide every comparison by arithmetic. *)
Ltac ranges :=
  repeat match goal with
  | |- context [in_span ?lo ?hi ?b] =>
      first [rewrite (proj2 (in_span_true lo hi b) ltac:(lia)) | rewrite (proj2 (in_span_false lo hi b) ltac:(lia))]
  | |- context [?a <=? ?b] => first [rewrite (proj2 (Z.leb_le a b) ltac:(lia)) | rewrite (proj2 (Z.leb_gt a b) ltac:(lia))]
  | |- context [?a <? ?b] => first [rewrite (proj2 (Z.ltb_lt a b) ltac:(lia)) | rewrite (proj2 (Z.ltb_ge a b) ltac:(lia))]
  end; cbn [andb orb negb].

(** Spell out what the tests found. *)
Ltac conds :=
  repeat match goal with
  | H : _ && _ = true |- _ => apply andb_prop in H; destruct H
  | H : in_span _ _ _ = true |- _ => apply in_span_true in H
  | H : in_span _ _ _ = false |- _ => apply in_span_false in H
  | H : (_ <=? _) = true |- _ => apply Z.leb_le in H
  | H : negb _ = true |- _ => apply negb_true_iff in H
  end.

(** The quotients of an encoding. *)
Ltac digits c :=
  pose proof (Z.div_mod c 64 ltac:(lia)); pose proof (Z.mod_pos_bound c 64 ltac:(lia));
  pose proof (Z.div_mod (c / 64) 64 ltac:(lia)); pose proof (Z.mod_pos_bound (c / 64) 64 ltac:(lia));
  pose proof (Z.div_mod (c / 4096) 64 ltac:(lia)); pose proof (Z.mod_pos_bound (c / 4096) 64 ltac:(lia));
  assert (c / 4096 = c / 64 / 64) by (rewrite Z.div_div; [reflexivity|lia|lia]);
  assert (c / 262144 = c / 4096 / 64) by (rewrite Z.div_div; [reflexivity|lia|lia]).

Lemma utf8_decode_char c rest : scalar c → utf8_decode (utf8_char c ++ rest) = cons c <$> utf8_decode rest.
Proof.
  intros Hc. unfold scalar in Hc. unfold utf8_char. digits c.
  destruct (c <? 128) eqn:E1; [apply Z.ltb_lt in E1|apply Z.ltb_ge in E1].
  { cbn [app utf8_decode]. ranges. done. }
  destruct (c <? 2048) eqn:E2; [apply Z.ltb_lt in E2|apply Z.ltb_ge in E2].
  { cbn [app utf8_decode]. ranges. do 2 f_equal. lia. }
  destruct (c <? 65536) eqn:E3; [apply Z.ltb_lt in E3|apply Z.ltb_ge in E3].
  { cbn [app utf8_decode]. cbv zeta.
    replace ((224 + c / 4096 - 224) * 4096 + (128 + (c / 64) mod 64 - 128) * 64 + (128 + c mod 64 - 128)) with c by lia.
    ranges. done. }
  cbn [app utf8_decode]. cbv zeta.
  replace ((240 + c / 262144 - 240) * 262144 + (128 + (c / 4096) mod 64 - 128) * 4096 + (128 + (c / 64) mod 64 - 128) * 64
           + (128 + c mod 64 - 128)) with c by lia.
  ranges. done.
Qed.

Lemma utf8_decode_encode cs : Forall scalar cs → utf8_decode (utf8_encode cs) = Some cs.
Proof.
  induction 1 as [|c cs Hc _ IH]; [done|]. unfold utf8_encode in *. cbn [flat_map]. rw utf8_decode_char // IH. done.
Qed.

Lemma utf16_decode_encode cs : Forall scalar cs → utf16_decode (utf16_encode cs) = Some cs.
Proof.
  induction 1 as [|c cs Hc _ IH]; [done|]. unfold utf16_encode in *. cbn [flat_map]. unfold scalar in Hc. unfold utf16_char.
  destruct (c <? 65536) eqn:E; [apply Z.ltb_lt in E|apply Z.ltb_ge in E]; cbn [app utf16_decode].
  - ranges. rw IH. done.
  - pose proof (Z.div_mod (c - 65536) 1024 ltac:(lia)). pose proof (Z.mod_pos_bound (c - 65536) 1024 ltac:(lia)).
    ranges. rw IH. cbn. do 2 f_equal. lia.
Qed.

(** Encoding a value put together from its digits. *)
Lemma utf8_char_2 a b : 194 ≤ a ≤ 223 → 128 ≤ b ≤ 191 →
  let v := (a - 192) * 64 + (b - 128) in utf8_char v = [a; b] ∧ scalar v.
Proof.
  intros Ha Hb v. unfold v. split; [|unfold scalar; lia]. unfold utf8_char.
  replace (((a - 192) * 64 + (b - 128)) / 64) with (a - 192) by (apply (Z.div_unique _ _ _ (b - 128)); lia).
  replace (((a - 192) * 64 + (b - 128)) mod 64) with (b - 128) by (apply (Z.mod_unique _ _ (a - 192)); lia).
  ranges. repeat (f_equal; try lia).
Qed.

Lemma utf8_char_3 a b c : 224 ≤ a ≤ 239 → 128 ≤ b ≤ 191 → 128 ≤ c ≤ 191 →
  let v := (a - 224) * 4096 + (b - 128) * 64 + (c - 128) in 2048 ≤ v → (v < 55296 ∨ 57343 < v) →
  utf8_char v = [a; b; c] ∧ scalar v.
Proof.
  intros Ha Hb Hc v H1 H2. split; [|unfold scalar, v in *; lia]. unfold utf8_char.
  replace (v / 64) with ((a - 224) * 64 + (b - 128)) by (unfold v; apply (Z.div_unique _ _ _ (c - 128)); lia).
  replace (v mod 64) with (c - 128) by (unfold v; apply (Z.mod_unique _ _ ((a - 224) * 64 + (b - 128))); lia).
  replace (v / 4096) with (a - 224) by (unfold v; apply (Z.div_unique _ _ _ ((b - 128) * 64 + (c - 128))); lia).
  replace (((a - 224) * 64 + (b - 128)) mod 64) with (b - 128) by (apply (Z.mod_unique _ _ (a - 224)); lia).
  assert (v < 65536) by (unfold v; lia). ranges. repeat (f_equal; try lia).
Qed.

Lemma utf8_char_4 a b c d : 240 ≤ a ≤ 244 → 128 ≤ b ≤ 191 → 128 ≤ c ≤ 191 → 128 ≤ d ≤ 191 →
  let v := (a - 240) * 262144 + (b - 128) * 4096 + (c - 128) * 64 + (d - 128) in 65536 ≤ v ≤ 1114111 →
  utf8_char v = [a; b; c; d] ∧ scalar v.
Proof.
  intros Ha Hb Hc Hd v H1. split; [|unfold scalar; lia]. unfold utf8_char.
  replace (v / 64) with ((a - 240) * 4096 + (b - 128) * 64 + (c - 128)) by (unfold v; apply (Z.div_unique _ _ _ (d - 128)); lia).
  replace (v mod 64) with (d - 128) by (unfold v; apply (Z.mod_unique _ _ ((a - 240) * 4096 + (b - 128) * 64 + (c - 128))); lia).
  replace (v / 4096) with ((a - 240) * 64 + (b - 128)) by (unfold v; apply (Z.div_unique _ _ _ ((c - 128) * 64 + (d - 128))); lia).
  replace (v / 262144) with (a - 240) by (unfold v; apply (Z.div_unique _ _ _ ((b - 128) * 4096 + (c - 128) * 64 + (d - 128))); lia).
  replace (((a - 240) * 64 + (b - 128)) mod 64) with (b - 128) by (apply (Z.mod_unique _ _ (a - 240)); lia).
  replace (((a - 240) * 4096 + (b - 128) * 64 + (c - 128)) mod 64) with (c - 128)
    by (apply (Z.mod_unique _ _ ((a - 240) * 64 + (b - 128))); lia).
  ranges. repeat (f_equal; try lia).
Qed.

(** One character of what the decoder accepts. *)
Lemma utf8_decode_step bs cs : bs ≠ [] → utf8_decode bs = Some cs →
  ∃ c rest cs', bs = utf8_char c ++ rest ∧ scalar c ∧ utf8_decode rest = Some cs' ∧ cs = c :: cs'.
Proof.
  intros Hne. destruct bs as [|a s1]; [done|]. cbn [utf8_decode].
  destruct (in_span 0 127 a) eqn:E1.
  { apply in_span_true in E1. intros H. destruct (utf8_decode s1) as [cs'|] eqn:E; [|done]. injection H as <-.
    exists a, s1, cs'. split_and!; try done; [|unfold scalar; lia]. unfold utf8_char. ranges. done. }
  destruct s1 as [|b s2]; [done|]. destruct (in_span 194 223 a) eqn:E2.
  { apply in_span_true in E2. destruct (in_span 128 191 b) eqn:Eb; [|done]. apply in_span_true in Eb.
    intros H. destruct (utf8_decode s2) as [cs'|] eqn:E; [|done]. injection H as <-.
    destruct (utf8_char_2 a b E2 Eb) as [H1 H2]. eexists _, s2, cs'. split; [|split; [exact H2|by split]]. by rewrite H1. }
  destruct s2 as [|c s3]; [done|]. destruct (in_span 224 239 a) eqn:E3.
  { apply in_span_true in E3. cbv zeta. destruct (_ && _ && _ && _) eqn:Ec; [|done].
    intros Hd. conds. destruct (utf8_decode s3) as [cs'|] eqn:E; [|done]. injection Hd as <-.
    destruct (utf8_char_3 a b c) as [Hu Hs]; try done. eexists _, s3, cs'. split; [|split; [exact Hs|by split]]. by rewrite Hu. }
  destruct s3 as [|d s4]; [done|]. cbv zeta. destruct (_ && _ && _ && _ && _ && _) eqn:Ec; [|done].
  intros Hd. conds. destruct (utf8_decode s4) as [cs'|] eqn:E; [|done]. injection Hd as <-.
  destruct (utf8_char_4 a b c d) as [Hu Hs]; try done. eexists _, s4, cs'. split; [|split; [exact Hs|by split]]. by rewrite Hu.
Qed.

Lemma utf8_char_nonempty c : utf8_char c ≠ [].
Proof. unfold utf8_char. by repeat case_match. Qed.

Lemma utf8_encode_decode bs cs : utf8_decode bs = Some cs → utf8_encode cs = bs ∧ Forall scalar cs.
Proof.
  remember (length bs) as n eqn:Hn. revert bs cs Hn.
  induction n as [n IH] using lt_wf_ind. intros bs cs -> H.
  destruct (decide (bs = [])) as [->|Hne]; [by injection H as <-|].
  destruct (utf8_decode_step bs cs Hne H) as (c & rest & cs' & -> & Hc & Hr & ->).
  destruct (IH (length rest)) with (bs := rest) (cs := cs') as [H1 H2]; try done.
  - rewrite length_app. pose proof (utf8_char_nonempty c). destruct (utf8_char c); [done|]. simpl. lia.
  - split; [|by constructor]. unfold utf8_encode in *. cbn [flat_map]. by rewrite H1.
Qed.

(** ** Strings and their bytes *)

Lemma text_of_as_bytes s : text_of (as_bytes s) = s.
Proof. induction s as [|a s IH]; [done|]. cbn [as_bytes text_of foldr]. unfold text_of in IH. by rw IH N2Z.id ascii_N_embedding. Qed.

Lemma as_bytes_text_of bs : is_bytes bs → as_bytes (text_of bs) = bs.
Proof.
  induction 1 as [|b bs Hb _ IH]; [done|]. cbn [text_of foldr as_bytes]. unfold text_of in IH. rw IH N_ascii_embedding; [|ints].
  f_equal. ints.
Qed.

Lemma utf8_bytes c : scalar c → is_bytes (utf8_char c).
Proof.
  intros Hc. unfold scalar in Hc. unfold utf8_char, is_bytes. digits c.
  destruct (Z.ltb_spec c 128); [|destruct (Z.ltb_spec c 2048); [|destruct (Z.ltb_spec c 65536)]];
    repeat (apply Forall_cons; split); try apply Forall_nil_2; ints.
Qed.

Lemma utf8_encode_bytes cs : Forall scalar cs → is_bytes (utf8_encode cs).
Proof. induction 1 as [|c cs Hc _ IH]; [constructor|]. apply Forall_app_2; [by apply utf8_bytes|done]. Qed.

(** A valid string is its characters. *)
Lemma chars_from_chars cs : Forall scalar cs → chars (from_chars cs) = cs.
Proof. intros H. unfold chars, from_chars. by rw as_bytes_text_of ?utf8_decode_encode //; apply utf8_encode_bytes. Qed.

Lemma from_chars_chars s cs : utf8_decode (as_bytes s) = Some cs → chars s = cs ∧ from_chars cs = s ∧ Forall scalar cs.
Proof.
  intros H. destruct (utf8_encode_decode _ _ H) as [H1 H2]. unfold chars, from_chars. rw H H1 text_of_as_bytes. done.
Qed.

Lemma from_chars_app cs ds : Forall scalar cs → from_chars (cs ++ ds) = from_chars cs +:+ from_chars ds.
Proof.
  intros _. unfold from_chars, utf8_encode. rw flat_map_app. generalize (flat_map utf8_char cs) as l. intros l.
  induction l as [|b l IH]; [done|]. cbn [app text_of foldr]. unfold text_of in IH. by rw IH.
Qed.

(** What [OsStr::to_str] accepts is decoded. *)
Lemma valid_decodes s : utf8_valid s = true → is_Some (utf8_decode (as_bytes s)).
Proof.
  remember (String.length s) as n eqn:Hn. revert s Hn. induction n as [n IH] using lt_wf_ind. intros s ->.
  assert (∀ x r, (String.length r < String.length s)%nat → utf8_valid r = true → is_Some (cons x <$> utf8_decode (as_bytes r))) as Hrec.
  { intros x r Hl Hr. destruct (IH _ Hl r eq_refl Hr) as [cs ->]. by eexists. }
  clear IH. destruct s as [|a s1]; [by eexists|]. cbn [utf8_valid as_bytes utf8_decode].
  change (in_range ?lo ?hi a) with (in_span lo hi (Z.of_N (N_of_ascii a))). generalize (Z.of_N (N_of_ascii a)) as A. intros A.
  destruct (in_span 0 127 A) eqn:E1; [intros H; apply Hrec; [simpl; lia|done]|].
  destruct s1 as [|b s2]; [done|]. cbn [as_bytes].
  change (in_range ?lo ?hi b) with (in_span lo hi (Z.of_N (N_of_ascii b))). generalize (Z.of_N (N_of_ascii b)) as B. intros B.
  destruct (in_span 194 223 A) eqn:E2.
  { intros [-> H]%andb_prop. apply Hrec; [simpl; lia|done]. }
  destruct s2 as [|c s3]; [done|]. cbn [as_bytes].
  change (in_range ?lo ?hi c) with (in_span lo hi (Z.of_N (N_of_ascii c))). generalize (Z.of_N (N_of_ascii c)) as Cc. intros Cc.
  destruct (in_span 224 224 A && _ || _ || _ || _) eqn:E3.
  { intros [Hc H]%andb_prop. pose proof Hc as Hc'. conds.
    repeat match goal with H : _ || _ = true |- _ => apply orb_prop in H as [H|H] end; conds; ranges; (apply Hrec; [simpl; lia|done]). }
  destruct s3 as [|d s4]; [done|]. cbn [as_bytes].
  change (in_range ?lo ?hi d) with (in_span lo hi (Z.of_N (N_of_ascii d))). generalize (Z.of_N (N_of_ascii d)) as D. intros D.
  intros H. conds. repeat match goal with H : _ || _ = true |- _ => apply orb_prop in H as [H|H] end; conds; ranges; (apply Hrec; [simpl; lia|done]).
Qed.
