(* ===== verification/Messages.v ===== *)
(** * Messages: the wire protocol's data

    [ErrorCode] (alloyfs-proto/src/error.rs), the path type [RelPath] and the
    messages of alloyfs-proto/src/messages.rs.  A [RelPath] is its text (the
    newtype is erased), a [SystemTime] is its signed distance in nanoseconds
    from the Unix epoch, [Bytes] are byte lists, and the integers are [Z]
    carrying their Rust width as a side condition where a theorem needs it.
    The theorems characterise [validate] and the algebra of [join] and
    [split]. *)

From S2P Require Import Prelude.

(** ** Errors *)

Inductive ErrorCode : Type :=
| NotFound | PermissionDenied | AlreadyExists | NotADirectory | IsADirectory
| NotEmpty | InvalidPath | BadHandle | ReadOnly | NoSuchExport | WouldBlock
| Conflict | VersionMismatch | NotAttached | TooOld | Io | CrossDevice
| AuthRequired.
#[global] Instance ErrorCode_eq_dec : EqDecision ErrorCode.
Proof. solve_decision. Defined.

(** ** Protocol constants *)

Definition PROTO_VERSION_MIN : Z := 1.
Definition PROTO_VERSION_MAX : Z := 4.
Definition DATA_CHUNK : Z := 128 * 1024.

(** ** Paths *)

Abbreviation RelPath := string (only parsing).
Abbreviation SystemTime := Z (only parsing).

Module RelPath.

(** The component test of the closure in [RelPath::validate]. *)
Definition bad_component (s c : string) : bool :=
  (str_is_empty c && negb (str_is_empty s))
  || bool_decide (c = ".") || bool_decide (c = "..").

Definition validate (s : RelPath) : result unit ErrorCode :=
  if starts_with "/" s || contains_char backslash s then Err InvalidPath
  else if existsb (bad_component s) (split_on slash s) then Err InvalidPath
  else Ok tt.

Definition is_root (s : RelPath) : bool := str_is_empty s.

Definition join (s : RelPath) (name : string) : RelPath :=
  if str_is_empty s then name else s +:+ "/" +:+ name.

Definition split (s : RelPath) : option (RelPath * string) :=
  if is_root s then None
  else match rsplit_once slash s with
       | Some (parent, name) => Some (parent, name)
       | None => Some ("", s)
       end.

End RelPath.

(** ** File metadata and message types *)

Inductive FileKind : Type := KFile | KDir | KSymlink.
#[global] Instance FileKind_eq_dec : EqDecision FileKind.
Proof. solve_decision. Defined.

Record Attr : Type := mkAttr {
  a_kind : FileKind;
  a_size : Z;
  a_mtime : SystemTime;
  a_ctime : SystemTime;
  a_mode : Z;
  a_version : Z
}.
#[global] Instance Attr_eq_dec : EqDecision Attr.
Proof. solve_decision. Defined.

Record DirEntry : Type := mkDirEntry { de_name : string; de_attr : Attr }.
#[global] Instance DirEntry_eq_dec : EqDecision DirEntry.
Proof. solve_decision. Defined.

Record OpenFlags : Type := mkOpenFlags {
  of_read : bool; of_write : bool; of_truncate : bool; of_append : bool; of_excl : bool
}.
#[global] Instance OpenFlags_eq_dec : EqDecision OpenFlags.
Proof. solve_decision. Defined.

Inductive LockKind : Type := Shared | Exclusive.
#[global] Instance LockKind_eq_dec : EqDecision LockKind.
Proof. solve_decision. Defined.

Inductive EventKind : Type :=
| Created | Modified | AttrChanged | Removed
| RenamedFrom (to : RelPath)
| ResyncRequired.
#[global] Instance EventKind_eq_dec : EqDecision EventKind.
Proof. solve_decision. Defined.

Record FsEvent : Type := mkFsEvent {
  ev_seq : Z;
  ev_kind : EventKind;
  ev_path : RelPath;
  ev_new_version : option Z;
  ev_origin : option Z
}.
#[global] Instance FsEvent_eq_dec : EqDecision FsEvent.
Proof. solve_decision. Defined.

Inductive Request : Type :=
| RqAttach (export : string)
| RqGetattr (path : RelPath)
| RqReaddir (path : RelPath) (cursor : Z)
| RqOpen (path : RelPath) (flags : OpenFlags)
| RqCreate (path : RelPath) (flags : OpenFlags) (mode : Z)
| RqRead (fh offset len : Z)
| RqWrite (fh offset : Z) (data : list Z) (expect_version : option Z)
| RqFlush (fh : Z)
| RqRelease (fh : Z)
| RqSetattr (path : RelPath) (size : option Z) (mtime : option SystemTime) (mode : option Z)
| RqMkdir (path : RelPath) (mode : Z)
| RqUnlink (path : RelPath)
| RqRmdir (path : RelPath)
| RqRename (from to : RelPath) (replace : bool)
| RqLock (fh : Z) (kind : LockKind) (wait : bool)
| RqUnlock (fh : Z)
| RqSubscribe (since_seq : option Z)
| RqStatfs
| RqLink (target link : RelPath)
| RqMountDefaults
| RqAuth (token : string)
| RqSymlink (target : string) (link : RelPath)
| RqReadLink (path : RelPath).

Inductive Response : Type :=
| RsAttachOk (export_id : Z) (root_attr : Attr)
| RsAttr (attr : Attr)
| RsDir (entries : list DirEntry) (next_cursor : option Z)
| RsOpened (fh : Z) (attr : Attr)
| RsData (data : list Z)
| RsWritten (n new_version : Z) (conflict : bool)
| RsStatfs (block_size blocks blocks_free : Z)
| RsSubscribed (last_seq : Z)
| RsOk
| RsMountDefaults (exclude pin : list string) (auto_cache_max auto_cache_budget : option Z)
| RsTarget (target : string).

Inductive Frame : Type :=
| FHello (proto_min proto_max : Z) (client : string)
| FHelloAck (proto : Z) (server : string)
| FRequest (id : Z) (body : Request)
| FResponse (id : Z) (body : result Response ErrorCode)
| FEvents (batch : list FsEvent)
| FPing (nonce : Z)
| FPong (nonce : Z)
| FCompressed (data : list Z).

(** ** What a valid path is *)

(** A name that may appear between two slashes. *)
Definition good_component (c : string) : Prop :=
  c ≠ "" ∧ c ≠ "." ∧ c ≠ ".." ∧ contains_char slash c = false ∧ contains_char backslash c = false.
#[global] Instance good_component_dec c : Decision (good_component c).
Proof. unfold good_component. apply _. Defined.

(** A list of components stands for the path they spell. *)
Definition path_of_components (cs : list string) : RelPath := join_with slash cs.

Lemma contains_backslash_join l :
  contains_char backslash (join_with slash l) = existsb (contains_char backslash) l.
Proof.
  induction l as [|s l IH]; [done|]. destruct (decide (l = [])) as [->|Hne].
  - by rw /= orb_false_r.
  - rw join_cons // contains_char_app. simpl. by rw IH.
Qed.

Lemma starts_with_slash_split s :
  starts_with "/" s = true ↔ ∃ r, split_on slash s = "" :: r ∧ s ≠ "".
Proof.
  destruct s as [|a s].
  - split; [done|]. by intros (r & _ & ?).
  - destruct (decide (a = slash)) as [->|Ha].
    + rw split_on_sep. split; [eauto|]. done.
    + split.
      * intros [r Hr]%starts_with_true. change (String a s = String slash r) in Hr. congruence.
      * intros (r & Hr & _). pose proof (split_on_nonempty slash s).
        destruct (split_on slash s) eqn:E; [done|].
        by rw (split_on_other _ _ _ _ _ Ha E) in Hr.
Qed.

Lemma bad_component_false s c :
  s ≠ "" → RelPath.bad_component s c = false ↔ c ≠ "" ∧ c ≠ "." ∧ c ≠ "..".
Proof.
  intros Hs. unfold RelPath.bad_component, str_is_empty.
  rw (bool_decide_false (s = "")) // andb_true_r !orb_false_iff !bool_decide_eq_false. tauto.
Qed.

Lemma existsb_false_Forall {A} (f : A → bool) l : existsb f l = false ↔ Forall (λ x, f x = false) l.
Proof.
  induction l as [|x l IH]; simpl; [split; [constructor|done]|].
  by rw orb_false_iff Forall_cons IH.
Qed.

(** The components of a text split at [/]: what [validate] inspects. *)
Lemma validate_nonroot s :
  s ≠ "" →
  RelPath.validate s = Ok tt ↔ Forall good_component (split_on slash s).
Proof.
  intros Hs. unfold RelPath.validate.
  assert (contains_char backslash s = existsb (contains_char backslash) (split_on slash s)) as ->.
  { rw -contains_backslash_join join_split //. }
  pose proof (split_on_no_sep slash s) as Hsep.
  split.
  - destruct (starts_with "/" s || _) eqn:E1; [done|].
    destruct (existsb (RelPath.bad_component s) _) eqn:E2; [done|]. intros _.
    apply orb_false_iff in E1 as [_ E1]. apply existsb_false_Forall in E1, E2.
    rw Forall_forall in E1. rw Forall_forall in E2. rw Forall_forall in Hsep. apply Forall_forall. intros c Hin.
    pose proof (E2 c Hin) as (?&?&?)%bad_component_false; [|done].
    repeat split; auto.
  - intros Hg. rw (proj2 (existsb_false_Forall (contains_char backslash) _)); [|eapply Forall_impl; [done|]; by intros c (?&?&?&?&?)].
    rw (proj2 (existsb_false_Forall (RelPath.bad_component s) _)); [|eapply Forall_impl; [done|]; intros c (?&?&?&?&?); by apply bad_component_false].
    destruct (starts_with "/" s) eqn:E; [|done].
    apply starts_with_slash_split in E as (r & Hr & _). rw Hr in Hg.
    apply Forall_cons in Hg as [[? _] _]. done.
Qed.

Lemma validate_root : RelPath.validate "" = Ok tt.
Proof. done. Qed.

Lemma validate_cases s :
  RelPath.validate s = Ok tt ↔ s = "" ∨ Forall good_component (split_on slash s).
Proof.
  destruct (decide (s = "")) as [->|Hs].
  - split; [by left|done].
  - rw validate_nonroot //. tauto.
Qed.

Lemma validate_error s e : RelPath.validate s = Err e → e = InvalidPath.
Proof. unfold RelPath.validate. repeat case_match; intros; by simplify_eq. Qed.

Lemma good_components_split cs :
  cs ≠ [] → Forall good_component cs → split_on slash (path_of_components cs) = cs.
Proof.
  intros Hne Hg. apply split_join; [done|].
  eapply Forall_impl; [done|]. by intros c (?&?&?&?&?).
Qed.

Lemma join_nonempty l : l ≠ [] → Forall (λ c, c ≠ "") l → join_with slash l ≠ "".
Proof.
  intros Hne Hl. destruct l as [|s l]; [done|]. apply Forall_cons in Hl as [Hs _].
  destruct (decide (l = [])) as [->|Hl]; [done|]. rw join_cons //. by destruct s.
Qed.

(** [RelPath::validate] accepts exactly the texts that spell a list of
    components -- none empty, none [.] or [..], none containing a slash or a
    backslash -- joined with single slashes, the empty text (the root)
    standing for no component. *)
Theorem validate_spec (s : RelPath) :
  RelPath.validate s = Ok tt
  ↔ ∃ cs : list string, Forall good_component cs ∧ s = path_of_components cs.
Proof.
  rw validate_cases. split.
  - intros [->|Hg]; [by exists []|]. exists (split_on slash s).
    by rw /path_of_components join_split.
  - intros (cs & Hg & ->). destruct (decide (cs = [])) as [->|Hne]; [by left|].
    right. by rw good_components_split.
Qed.

Lemma validate_join_lemma (p : RelPath) (name : string) :
  RelPath.validate p = Ok tt → good_component name → RelPath.validate (RelPath.join p name) = Ok tt.
Proof.
  intros Hp Hn. rw validate_cases. right. unfold RelPath.join, str_is_empty.
  assert (contains_char slash name = false) by apply Hn.
  case_bool_decide as Hs; [rw split_no_sep //; by apply Forall_singleton|].
  apply validate_nonroot in Hp; [|done].
  change ("/" +:+ name) with (String slash name). rw split_on_app_sep (split_no_sep _ name) //.
  by apply Forall_app_2; [|apply Forall_singleton].
Qed.

Lemma join_nonroot (p : RelPath) (name : string) :
  p ≠ "" → RelPath.join p name = p +:+ String slash name.
Proof. intros. unfold RelPath.join, str_is_empty. by rw bool_decide_false. Qed.

Lemma split_join_path (p : RelPath) (name : string) :
  name ≠ "" → contains_char slash name = false → RelPath.split (RelPath.join p name) = Some (p, name).
Proof.
  intros Hn Hs. unfold RelPath.split, RelPath.is_root, str_is_empty.
  destruct (decide (p = "")) as [->|Hp].
  - change (RelPath.join "" name) with name. rw bool_decide_false //.
    apply rsplit_once_None in Hs. by rw Hs.
  - rw join_nonroot // bool_decide_false; last by destruct p. by rw rsplit_once_app.
Qed.

Lemma split_valid (s p : RelPath) (name : string) :
  RelPath.validate s = Ok tt → RelPath.split s = Some (p, name) →
  RelPath.validate p = Ok tt ∧ good_component name ∧ RelPath.join p name = s.
Proof.
  unfold RelPath.split, RelPath.is_root, str_is_empty. case_bool_decide as Hs; [done|].
  intros Hv. apply validate_nonroot in Hv; [|done].
  destruct (rsplit_once slash s) as [[p' n']|] eqn:E; intros; simplify_eq.
  - apply rsplit_once_Some in E as [-> Hn]. rw split_on_app_sep (split_no_sep _ name) // in Hv.
    apply Forall_app in Hv as [Hp Hname]. apply Forall_cons in Hname as [Hname _].
    split; [rw validate_cases; by right|]. split; [done|].
    unfold RelPath.join, str_is_empty. rw bool_decide_false //.
    intros ->. apply Forall_cons in Hp as [[? _] _]. done.
  - apply rsplit_once_None in E. rw split_no_sep // in Hv.
    apply Forall_cons in Hv as [Hname _]. split; [done|]. split; [done|].
    unfold RelPath.join, str_is_empty. by rw bool_decide_true.
Qed.

(** [split] and [join] are inverse on valid paths, and stay inside them:
    a non-root valid path splits into a valid parent and a good name whose
    join is the path, and joining a good name to a valid path is valid and
    splits back into the two. *)
Theorem split_join_roundtrip (s p : RelPath) (name : string) :
  (RelPath.validate s = Ok tt → RelPath.split s = Some (p, name) →
     RelPath.validate p = Ok tt ∧ good_component name ∧ RelPath.join p name = s) ∧
  (RelPath.validate p = Ok tt → good_component name →
     RelPath.validate (RelPath.join p name) = Ok tt ∧
     RelPath.split (RelPath.join p name) = Some (p, name)).
Proof.
  split; [apply split_valid|]. intros Hp Hn. split; [by apply validate_join_lemma|].
  apply split_join_path; apply Hn.
Qed.

Lemma split_join_roundtrip_witness :
  RelPath.validate "a/b.txt" = Ok tt ∧ RelPath.split "a/b.txt" = Some ("a", "b.txt") ∧
  RelPath.split (RelPath.join "a" "b.txt") = Some ("a", "b.txt").
Proof.
  destruct (split_join_roundtrip "a/b.txt" "a" "b.txt") as [H1 H2].
  destruct (H1 eq_refl eq_refl) as (Ha & Hb & Hc).
  split; [reflexivity|]. split; [reflexivity|]. apply (H2 Ha Hb).
Defined.
