(* ===== verification/Codec.v ===== *)
(** * Codec: length-prefixed frames

    [FrameCodec] of alloyfs-proto/src/frame.rs.  The serialisation of one
    [Frame] (the [postcard] crate) and block compression (the [lz4_flex]
    crate) are other packages: they are the operations of the classes
    [Postcard] and [Lz4], whose laws are the crates' documented round trips.
    The codec itself -- buffering, bounds, the compression wrapper, the
    decompression-bomb guard -- is modelled in full.  A decoder call maps the
    receive buffer to an outcome and the buffer left behind; an encoder call
    appends to its output buffer. *)

From S2P Require Import Prelude Messages.

Definition MAX_FRAME_LEN : Z := 1024 * 1024.
Definition COMPRESS_MIN : Z := 512.
Definition LEN_PREFIX : Z := 4.

(** What the codec asks of [postcard]. *)
Class Postcard : Type := {
  pc_error : Type;
  to_stdvec : Frame → result (list Z) pc_error;
  from_bytes : list Z → result Frame pc_error
}.

(** [postcard] documents that a value it serialised deserialises to itself. *)
Class PostcardLaws `{Postcard} : Prop := {
  postcard_bytes : ∀ f p, to_stdvec f = Ok p → is_bytes p;
  postcard_roundtrip : ∀ f p, to_stdvec f = Ok p → from_bytes p = Ok f
}.

(** What the codec asks of [lz4_flex]: the size-prepended block API. *)
Class Lz4 : Type := {
  compress_prepend_size : list Z → list Z;
  decompress_size_prepended : list Z → result (list Z) string
}.

(** [lz4_flex] documents the four-byte little-endian size prefix and that
    decompression inverts compression. *)
Class Lz4Laws `{Lz4} : Prop := {
  lz4_bytes : ∀ p, is_bytes p → is_bytes (compress_prepend_size p);
  lz4_size_prefix : ∀ p, blen p ≤ U32_MAX →
    take 4 (compress_prepend_size p) = le_bytes 4 (blen p);
  lz4_roundtrip : ∀ p, is_bytes p → blen p ≤ U32_MAX →
    decompress_size_prepended (compress_prepend_size p) = Ok p
}.

Inductive ProtoError (E : Type) : Type :=
| FrameTooLarge (len : Z)
| Malformed (e : E)
| Compression (msg : string)
| ProtoIo (msg : string).
Arguments FrameTooLarge {E} len.
Arguments Malformed {E} e.
Arguments Compression {E} msg.
Arguments ProtoIo {E} msg.

Section codec.
Context {pc : Postcard} {lz : Lz4}.

(** The [Frame::Compressed] arm of [decode]: bound the claimed size before
    inflating, and refuse a nested wrapper. *)
Definition decode_compressed (data : list Z) : result Frame (ProtoError pc_error) :=
  let claimed := le_value (take 4 data) in
  if bool_decide (4 ≤ blen data) && bool_decide (MAX_FRAME_LEN < claimed)
  then Err (FrameTooLarge claimed)
  else let? inner := map_err Compression (decompress_size_prepended data) in
       let? frame := map_err Malformed (from_bytes inner) in
       match frame with
       | FCompressed _ => Err (Compression "nested Compressed frame")
       | frame => Ok frame
       end.

(** [Decoder::decode] on the buffer [src]: the outcome ([Ok None] asks for
    more bytes) and the buffer afterwards. *)
Definition decode (src : list Z) : result (option Frame) (ProtoError pc_error) * list Z :=
  if bool_decide (blen src < LEN_PREFIX) then (Ok None, src)
  else let len := le_value (take 4 src) in
       if bool_decide (MAX_FRAME_LEN < len) then (Err (FrameTooLarge len), src)
       else if bool_decide (blen src < LEN_PREFIX + len) then (Ok None, src)
       else let src := drop 4 src in
            let payload := take (Z.to_nat len) src in
            let src := drop (Z.to_nat len) src in
            (match from_bytes payload with
             | Err e => Err (Malformed e)
             | Ok (FCompressed data) => let? f := decode_compressed data in Ok (Some f)
             | Ok f => Ok (Some f)
             end, src).

(** [matches!(frame, Frame::Compressed(_))]. *)
Definition is_compressed (f : Frame) : bool :=
  match f with FCompressed _ => true | _ => false end.

(** The payload [encode] puts on the wire: the plain serialisation, or the
    compression wrapper when it is enabled and smaller. *)
Definition wire_payload (compress : bool) (frame : Frame) : result (list Z) (ProtoError pc_error) :=
  let? payload := map_err Malformed (to_stdvec frame) in
  if compress && bool_decide (COMPRESS_MIN ≤ blen payload) && negb (is_compressed frame)
  then let squeezed := compress_prepend_size payload in
       if bool_decide (blen squeezed < blen payload)
       then map_err Malformed (to_stdvec (FCompressed squeezed))
       else Ok payload
  else Ok payload.

(** [Encoder::encode]: the outcome and the output buffer afterwards. *)
Definition encode (compress : bool) (frame : Frame) (dst : list Z)
  : result unit (ProtoError pc_error) * list Z :=
  match wire_payload compress frame with
  | Err e => (Err e, dst)
  | Ok payload =>
      if bool_decide (MAX_FRAME_LEN < blen payload) then (Err (FrameTooLarge (blen payload)), dst)
      else (Ok tt, dst ++ le_bytes 4 (as_u32 (blen payload)) ++ payload)
  end.

(** Encode frames one after another into one buffer; stops at the first
    failure. *)
Fixpoint encode_all (compress : bool) (frames : list Frame) (dst : list Z)
  : result unit (ProtoError pc_error) * list Z :=
  match frames with
  | [] => (Ok tt, dst)
  | f :: fs =>
      match encode compress f dst with
      | (Ok _, dst) => encode_all compress fs dst
      | (Err e, dst) => (Err e, dst)
      end
  end.

(** Call [decode] until it asks for more bytes or fails, at most [n] times. *)
Fixpoint decode_all (n : nat) (src : list Z) : list Frame * list Z :=
  match n with
  | O => ([], src)
  | S n' =>
      match decode src with
      | (Ok (Some f), src) => let '(fs, src) := decode_all n' src in (f :: fs, src)
      | (_, src) => ([], src)
      end
  end.

End codec.

(** ** Facts about one decoder call *)

Section codec_facts.
Context {pc : Postcard} {lz : Lz4}.

Lemma blen_app (a b : list Z) : blen (a ++ b) = blen a + blen b.
Proof. unfold blen. rw length_app. lia. Qed.

Lemma blen_nonneg (a : list Z) : 0 ≤ blen a.
Proof. unfold blen. lia. Qed.

Lemma blen_le_bytes n v : blen (le_bytes n v) = Z.of_nat n.
Proof. unfold blen. by rw le_bytes_length. Qed.

Lemma take_le_bytes_app v bs : take 4 (le_bytes 4 v ++ bs) = le_bytes 4 v.
Proof. by rw take_app_le ?le_bytes_length // take_ge // le_bytes_length. Qed.

(** One framed payload at the front of the buffer: what the decoder does. *)
Lemma decode_framed payload rest :
  blen payload ≤ MAX_FRAME_LEN →
  decode (le_bytes 4 (blen payload) ++ payload ++ rest)
  = (match from_bytes payload with
     | Err e => Err (Malformed e)
     | Ok (FCompressed data) => let? f := decode_compressed data in Ok (Some f)
     | Ok f => Ok (Some f)
     end, rest).
Proof.
  intros Hlen. pose proof (blen_nonneg payload). pose proof (blen_nonneg rest).
  unfold decode. rw bool_decide_false; last (rw !blen_app blen_le_bytes /LEN_PREFIX; lia).
  rw take_le_bytes_app le_value_4; last (unfold MAX_FRAME_LEN in *; ints).
  rw bool_decide_false; last lia.
  rw bool_decide_false; last (rw !blen_app blen_le_bytes /LEN_PREFIX; lia).
  rw (drop_app_length' (le_bytes 4 _)) ?le_bytes_length //.
  unfold blen. by rw Nat2Z.id take_app_length drop_app_length.
Qed.

(** A proper prefix of one framed payload only asks for more bytes. *)
Lemma decode_prefix payload k :
  blen payload ≤ MAX_FRAME_LEN →
  (k < length (le_bytes 4 (blen payload) ++ payload))%nat →
  let src := take k (le_bytes 4 (blen payload) ++ payload) in
  decode src = (Ok None, src).
Proof.
  intros Hlen Hk src. pose proof (blen_nonneg payload).
  assert (length src = k) as Hs by (subst src; rw length_take; lia).
  rw length_app le_bytes_length in Hk.
  unfold decode. destruct (decide (k < 4)%nat).
  { by rw bool_decide_true; last (unfold blen, LEN_PREFIX; lia). }
  rw bool_decide_false; last (unfold blen, LEN_PREFIX; lia).
  assert (take 4 src = le_bytes 4 (blen payload)) as ->.
  { subst src. rw take_take Nat.min_l; last lia. apply take_le_bytes_app. }
  rw le_value_4; last (unfold MAX_FRAME_LEN in *; ints).
  rw bool_decide_false; last lia.
  rw bool_decide_true //. unfold LEN_PREFIX. unfold blen in *. lia.
Qed.

Lemma decode_compressed_plain data f : decode_compressed data = Ok f → is_compressed f = false.
Proof.
  unfold decode_compressed. case_match; [done|].
  destruct (decompress_size_prepended data); [|done]. simpl.
  destruct (from_bytes _) as [fr|]; [|done]. destruct fr; simpl; intros; by simplify_eq.
Qed.

End codec_facts.

(** ** A concrete instance

    A small serialiser and a run-length compressor that satisfy the two sets
    of laws: the witnesses below run the codec with them. *)

Module Sample.

Definition all_bytes (p : list Z) : bool := forallb (λ b, (0 <=? b) && (b <=? 255)) p.

Lemma all_bytes_true p : all_bytes p = true → is_bytes p.
Proof.
  intros Hp. unfold is_bytes. apply Forall_forall. intros b Hb. unfold all_bytes in Hp.
  rw forallb_forall in Hp. apply list_elem_of_In in Hb. specialize (Hp b Hb). ints.
Qed.

(** Serialises pings, pongs (in unary, to have large payloads at hand) and
    the compression wrapper; refuses the rest. *)
Definition sample_to_stdvec (f : Frame) : result (list Z) unit :=
  match f with
  | FPing n => if (0 <=? n) && (n <=? U64_MAX) then Ok (0 :: le_bytes 8 n) else Err tt
  | FPong n => if 0 <=? n then Ok (1 :: replicate (Z.to_nat n) 1) else Err tt
  | FCompressed d => if all_bytes d then Ok (2 :: d) else Err tt
  | _ => Err tt
  end.

Definition sample_from_bytes (p : list Z) : result Frame unit :=
  match p with
  | 0 :: q => Ok (FPing (le_value q))
  | 1 :: q => Ok (FPong (blen q))
  | 2 :: q => Ok (FCompressed q)
  | _ => Err tt
  end.

Definition sample_compress (p : list Z) : list Z :=
  le_bytes 4 (blen p) ++
  match p with
  | [] => [0]
  | b :: _ => if forallb (Z.eqb b) p then [1; b] else 0 :: p
  end.

Definition sample_decompress (d : list Z) : result (list Z) string :=
  match drop 4 d with
  | [1; b] => Ok (replicate (Z.to_nat (le_value (take 4 d))) b)
  | 0 :: p => Ok p
  | _ => Err "corrupt block"
  end.

End Sample.

#[local] Instance sample_postcard : Postcard :=
  {| pc_error := unit;
     to_stdvec := Sample.sample_to_stdvec;
     from_bytes := Sample.sample_from_bytes |}.
#[local] Instance sample_lz4 : Lz4 :=
  {| compress_prepend_size := Sample.sample_compress;
     decompress_size_prepended := Sample.sample_decompress |}.

#[local] Instance sample_postcard_laws : PostcardLaws.
Proof.
  split; intros [] p; simpl; try done; case_match eqn:E; try done; intros; simplify_eq.
  - constructor; [ints|apply le_bytes_is_bytes].
  - constructor; [ints|]. apply Forall_replicate. ints.
  - constructor; [ints|]. by apply Sample.all_bytes_true.
  - change (Ok (E := unit) (FPing (le_value (le_bytes 8 nonce))) = Ok (FPing nonce)).
    rw le_value_le_bytes //. ints.
  - simpl. unfold blen. rw length_replicate. do 2 f_equal. lia.
  - done.
Qed.

Lemma forallb_eqb_replicate b p : forallb (Z.eqb b) p = true → p = replicate (length p) b.
Proof.
  induction p as [|c p IH]; [done|]. simpl. intros [?%Z.eqb_eq ?]%andb_true_iff. subst.
  f_equal. by apply IH.
Qed.

#[local] Instance sample_lz4_laws : Lz4Laws.
Proof.
  split; simpl; intros p; unfold Sample.sample_compress.
  - intros Hp. apply Forall_app_2; [apply le_bytes_is_bytes|].
    destruct p as [|b p]; [constructor; [ints|constructor]|].
    case_match; [|constructor; [ints|exact Hp]].
    apply Forall_cons in Hp as [? _]. apply Forall_cons; split; [ints|]. by apply Forall_singleton.
  - intros _. apply take_le_bytes_app.
  - intros Hp Hlen. unfold Sample.sample_decompress.
    rw take_le_bytes_app drop_app_length' ?le_bytes_length //.
    destruct p as [|b p]; [done|]. destruct (forallb (Z.eqb b) (b :: p)) eqn:E; [|done].
    rw le_value_4; last (pose proof (blen_nonneg (b :: p)); ints).
    unfold blen. rw Nat2Z.id. f_equal. by rw -forallb_eqb_replicate.
Qed.

(** ** The round trip *)

Section codec_theorems.
Context {pc : Postcard} {pcl : PostcardLaws} {lz : Lz4} {lzl : Lz4Laws}.

Lemma encode_inv compress f dst dst' :
  encode compress f dst = (Ok tt, dst') →
  ∃ payload, wire_payload compress f = Ok payload ∧ blen payload ≤ MAX_FRAME_LEN ∧
             dst' = dst ++ le_bytes 4 (blen payload) ++ payload.
Proof.
  unfold encode. destruct (wire_payload compress f) as [payload|]; [|done].
  case_bool_decide; intros; simplify_eq. exists payload. split; [done|]. split; [lia|].
  rw as_u32_small //. pose proof (blen_nonneg payload). unfold MAX_FRAME_LEN in *. ints.
Qed.

(** The payload on the wire is the serialised frame or a wrapper around its
    compression. *)
Lemma wire_payload_inv compress f plain payload :
  to_stdvec f = Ok plain → wire_payload compress f = Ok payload →
  payload = plain ∨
  (compress = true ∧ to_stdvec (FCompressed (compress_prepend_size plain)) = Ok payload).
Proof.
  intros Hp. unfold wire_payload. rw Hp /=.
  destruct (compress && _ && _) eqn:E; [|intros; simplify_eq; by left].
  destruct (bool_decide (blen (compress_prepend_size _) < _)); [|intros; simplify_eq; by left].
  destruct (to_stdvec (FCompressed _)) eqn:E2; [|done]. intros; simplify_eq/=. right.
  destruct compress; [|discriminate E]. done.
Qed.

(** The guard that runs before decompression, on a well-formed block. *)
Lemma decode_compressed_block f plain :
  to_stdvec f = Ok plain → is_compressed f = false → blen plain ≤ U32_MAX →
  decode_compressed (compress_prepend_size plain)
  = if bool_decide (MAX_FRAME_LEN < blen plain) then Err (FrameTooLarge (blen plain)) else Ok f.
Proof.
  intros Hp Hc Hlen. unfold decode_compressed.
  pose proof (lz4_size_prefix plain Hlen) as Hpre. rw Hpre.
  assert (4 ≤ blen (compress_prepend_size plain)) as H4.
  { apply (f_equal length) in Hpre. rw length_take le_bytes_length in Hpre. unfold blen. lia. }
  rw le_value_4; last (pose proof (blen_nonneg plain); ints).
  rw (bool_decide_true _ H4). case_bool_decide; simpl; [done|].
  rw lz4_roundtrip //; last by eapply postcard_bytes. simpl.
  rw (postcard_roundtrip _ _ Hp). simpl. by destruct f.
Qed.

Lemma decode_encoded compress f plain dst dst' rest :
  is_compressed f = false → to_stdvec f = Ok plain → blen plain ≤ U32_MAX →
  encode compress f dst = (Ok tt, dst') →
  ∃ payload, blen payload ≤ MAX_FRAME_LEN ∧
    dst' = dst ++ le_bytes 4 (blen payload) ++ payload ∧
    decode ((le_bytes 4 (blen payload) ++ payload) ++ rest)
    = (if bool_decide (MAX_FRAME_LEN < blen plain)
       then Err (FrameTooLarge (blen plain)) else Ok (Some f), rest).
Proof.
  intros Hc Hp Hlen (payload & Hw & Hmax & ->)%encode_inv. exists payload.
  split; [done|]. split; [done|]. rw -app_assoc decode_framed //. f_equal.
  destruct (wire_payload_inv _ _ _ _ Hp Hw) as [->|[_ Hz]].
  - rw (postcard_roundtrip _ _ Hp) bool_decide_false; last lia. by destruct f.
  - rw (postcard_roundtrip _ _ Hz) (decode_compressed_block f) //. by case_bool_decide.
Qed.

Lemma encode_decodable compress f plain dst dst' :
  is_compressed f = false → to_stdvec f = Ok plain → blen plain ≤ MAX_FRAME_LEN →
  encode compress f dst = (Ok tt, dst') →
  ∃ payload, blen payload ≤ MAX_FRAME_LEN ∧
    dst' = dst ++ le_bytes 4 (blen payload) ++ payload ∧
    ∀ rest, decode ((le_bytes 4 (blen payload) ++ payload) ++ rest) = (Ok (Some f), rest).
Proof.
  intros Hc Hp Hlen He.
  assert (blen plain ≤ U32_MAX) as Hu by (unfold MAX_FRAME_LEN in *; ints).
  destruct (decode_encoded _ _ _ _ _ [] Hc Hp Hu He) as (payload & Hmax & -> & _).
  exists payload. split; [done|]. split; [done|]. intros rest.
  destruct (decode_encoded _ _ _ _ _ rest Hc Hp Hu He) as (p' & _ & Hd & Hdec).
  apply (inj (app dst)) in Hd. rw Hd Hdec bool_decide_false //. lia.
Qed.

(** C20.  Codec round trip.  A frame other than the wrapper whose serialised
    form is within the frame limit, once encoded (with compression on or
    off), is decoded back exactly, whatever bytes follow it in the receive
    buffer; and every proper prefix of its bytes makes the decoder ask for
    more without consuming anything. *)
Theorem codec_roundtrip compress f plain dst dst' :
  is_compressed f = false → to_stdvec f = Ok plain → blen plain ≤ MAX_FRAME_LEN →
  encode compress f dst = (Ok tt, dst') →
  ∃ bytes, dst' = dst ++ bytes ∧
    (∀ rest, decode (bytes ++ rest) = (Ok (Some f), rest)) ∧
    (∀ k, (k < length bytes)%nat → decode (take k bytes) = (Ok None, take k bytes)).
Proof.
  intros Hc Hp Hlen He.
  destruct (encode_decodable _ _ _ _ _ Hc Hp Hlen He) as (payload & Hmax & -> & Hd).
  exists (le_bytes 4 (blen payload) ++ payload). split; [done|]. split; [done|].
  intros k Hk. by apply decode_prefix.
Qed.

(** A frame the codec carries: not the wrapper, serialisable within the
    limit. *)
Definition carried (f : Frame) : Prop :=
  is_compressed f = false ∧ ∃ plain, to_stdvec f = Ok plain ∧ blen plain ≤ MAX_FRAME_LEN.

(** Frames encoded one after another into one buffer come out of
    repeated decoder calls in the same order, each exactly once, and leave
    exactly the bytes that followed them. *)
Theorem stream_roundtrip compress fs dst dst' :
  Forall carried fs → encode_all compress fs dst = (Ok tt, dst') →
  ∃ bytes, dst' = dst ++ bytes ∧ ∀ rest, decode_all (length fs) (bytes ++ rest) = (fs, rest).
Proof.
  intros Hfs. revert dst. induction Hfs as [|f fs (Hc & plain & Hp & Hlen) _ IH]; intros dst.
  - intros [= <-]. exists []. by rw app_nil_r.
  - simpl. destruct (encode compress f dst) as [[[]|] d1] eqn:He; [|done].
    intros Hall. destruct (encode_decodable _ _ _ _ _ Hc Hp Hlen He) as (payload & _ & -> & Hd).
    destruct (IH _ Hall) as (bytes & -> & Hrest).
    exists ((le_bytes 4 (blen payload) ++ payload) ++ bytes). rw -!app_assoc. split; [done|].
    intros rest. specialize (Hd (bytes ++ rest)). rw -!app_assoc in Hd. by rw -!app_assoc Hd Hrest.
Qed.

(** The sender's limit is checked after compression, the receiver's
    before decompression: a frame whose serialised form exceeds the limit but
    compresses below it is accepted by [encode] and refused by [decode] with
    [FrameTooLarge], which ends the connection. *)
Theorem oversized_frame_escapes_encoder compress f plain dst dst' rest :
  is_compressed f = false → to_stdvec f = Ok plain →
  MAX_FRAME_LEN < blen plain ≤ U32_MAX →
  encode compress f dst = (Ok tt, dst') →
  ∃ bytes, dst' = dst ++ bytes ∧
    decode (bytes ++ rest) = (Err (FrameTooLarge (blen plain)), rest).
Proof.
  intros Hc Hp [Hlo Hhi] He.
  destruct (decode_encoded _ _ _ _ _ rest Hc Hp Hhi He) as (payload & _ & -> & Hd).
  exists (le_bytes 4 (blen payload) ++ payload). split; [done|]. by rw Hd bool_decide_true.
Qed.

End codec_theorems.

(** C39.  Decoding hostile input is bounded.  On any receive buffer of bytes,
    one decoder call either leaves the buffer as it was -- asking for more, or
    refusing a length prefix above the limit -- or consumes one frame of at
    most [LEN_PREFIX + MAX_FRAME_LEN] bytes; and a frame it delivers is never
    the compression wrapper. *)
Theorem decode_bounded {pc : Postcard} {lz : Lz4} (src src' : list Z) r :
  is_bytes src → decode src = (r, src') →
  (src' = src ∧ (r = Ok None ∨ ∃ n, r = Err (FrameTooLarge n) ∧ MAX_FRAME_LEN < n)) ∨
  (∃ k, LEN_PREFIX ≤ k ≤ LEN_PREFIX + MAX_FRAME_LEN ∧ k ≤ blen src ∧
        src' = drop (Z.to_nat k) src ∧ r ≠ Ok None ∧
        ∀ f, r = Ok (Some f) → is_compressed f = false).
Proof.
  intros Hb. unfold decode. case_bool_decide; [intros; simplify_eq; by eauto|].
  case_bool_decide; [intros; simplify_eq; left; eauto|].
  case_bool_decide; [intros; simplify_eq; by eauto|]. intros [= <- <-]. right.
  assert (0 ≤ le_value (take 4 src)) as Hpos.
  { apply le_value_bound. by apply Forall_take. }
  exists (LEN_PREFIX + le_value (take 4 src)). unfold LEN_PREFIX in *.
  split; [lia|]. split; [lia|]. split; [rw drop_drop; f_equal; lia|].
  destruct (from_bytes _) as [[]|e]; try (split; [done|intros; by simplify_eq]).
  destruct (decode_compressed data) as [f|e] eqn:E; [|done]. simpl. split; [done|].
  intros; simplify_eq. by eapply decode_compressed_plain.
Qed.

(** ** Witnesses *)

Lemma codec_roundtrip_witness :
  encode true (FPong 600) [9] = (Ok tt, [9; 7; 0; 0; 0; 2; 89; 2; 0; 0; 1; 1]) ∧
  decode [7; 0; 0; 0; 2; 89; 2; 0; 0; 1; 1; 7] = (Ok (Some (FPong 600)), [7]).
Proof.
  assert (encode true (FPong 600) [9] = (Ok tt, [9; 7; 0; 0; 0; 2; 89; 2; 0; 0; 1; 1])) as He
    by (vm_compute; reflexivity).
  split; [exact He|].
  assert (to_stdvec (FPong 600) = Ok (1 :: replicate (Z.to_nat 600) 1)) as Hp by reflexivity.
  destruct (codec_roundtrip (pc := sample_postcard) (lz := sample_lz4) true (FPong 600) _ [9] _
              eq_refl Hp ltac:(vm_compute; discriminate) He) as (bytes & Hd & Hr & _).
  injection Hd as <-. exact (Hr [7]).
Defined.

Lemma sample_pong n : 0 ≤ n → to_stdvec (FPong n) = Ok (1 :: replicate (Z.to_nat n) 1).
Proof. intros. simpl. by rw (proj2 (Z.leb_le 0 n)). Qed.

Lemma sample_pong_len n : 0 ≤ n → blen (1 :: replicate (Z.to_nat n) 1) = n + 1.
Proof. intros. unfold blen. simpl length. rw length_replicate. lia. Qed.

Lemma sample_encode_pong n :
  600 ≤ n < U32_MAX →
  encode true (FPong n) [] = (Ok tt, le_bytes 4 7 ++ 2 :: le_bytes 4 (n + 1) ++ [1; 1]).
Proof.
  intros Hn. unfold encode, wire_payload. rw sample_pong; last lia. cbn [map_err result_bind].
  rw sample_pong_len; last lia.
  assert (compress_prepend_size (1 :: replicate (Z.to_nat n) 1) = le_bytes 4 (n + 1) ++ [1; 1]) as ->.
  { simpl. unfold Sample.sample_compress. rw sample_pong_len; last lia. f_equal.
    rw (_ : forallb (Z.eqb 1) (1 :: replicate (Z.to_nat n) 1) = true) //.
    apply forallb_forall. intros x [<-|Hx]; [done|].
    apply list_elem_of_In, elem_of_replicate in Hx as [-> _]. done. }
  rw bool_decide_true; last (unfold COMPRESS_MIN; lia).
  rw bool_decide_true; last (rw blen_app blen_le_bytes /blen /=; lia).
  assert (to_stdvec (FCompressed (le_bytes 4 (n + 1) ++ [1; 1]))
          = Ok (2 :: le_bytes 4 (n + 1) ++ [1; 1])) as ->.
  { cbn [to_stdvec sample_postcard Sample.sample_to_stdvec].
    rw (_ : Sample.all_bytes _ = true) //. apply forallb_forall. intros x Hx.
    assert (is_bytes (le_bytes 4 (n + 1) ++ [1; 1])) as Hb.
    { apply Forall_app_2; [apply le_bytes_is_bytes|].
      repeat (apply Forall_cons; split; [ints|]). apply Forall_nil_2. }
    unfold is_bytes in Hb. rw Forall_forall in Hb. apply list_elem_of_In in Hx.
    specialize (Hb x Hx). ints. }
  done.
Qed.

Lemma oversized_frame_escapes_encoder_witness :
  decode (le_bytes 4 7 ++ 2 :: le_bytes 4 2000001 ++ [1; 1]) = (Err (FrameTooLarge 2000001), []).
Proof.
  assert (0 ≤ 2000000) as H0 by lia.
  assert (600 ≤ 2000000 < U32_MAX) as H1 by ints.
  pose proof (sample_pong_len _ H0) as Hlen.
  assert (MAX_FRAME_LEN < 2000000 + 1 ≤ U32_MAX) as H2 by (unfold MAX_FRAME_LEN; ints).
  rw -Hlen in H2.
  destruct (oversized_frame_escapes_encoder (pc := sample_postcard) (lz := sample_lz4) true
              (FPong 2000000) _ [] _ [] eq_refl (sample_pong _ H0) H2 (sample_encode_pong _ H1))
    as (bytes & Hb & Hd).
  rw Hlen app_nil_r in Hd. change ([] ++ bytes) with bytes in Hb. rw -Hb in Hd. exact Hd.
Defined.

Lemma stream_roundtrip_witness :
  encode_all true [FPing 1; FPong 2] [] = (Ok tt, [9; 0; 0; 0; 0; 1; 0; 0; 0; 0; 0; 0; 0; 3; 0; 0; 0; 1; 1; 1]) ∧
  decode_all 2 [9; 0; 0; 0; 0; 1; 0; 0; 0; 0; 0; 0; 0; 3; 0; 0; 0; 1; 1; 1; 5] = ([FPing 1; FPong 2], [5]).
Proof.
  assert (encode_all true [FPing 1; FPong 2] []
          = (Ok tt, [9; 0; 0; 0; 0; 1; 0; 0; 0; 0; 0; 0; 0; 3; 0; 0; 0; 1; 1; 1])) as He
    by (vm_compute; reflexivity).
  assert (Forall carried [FPing 1; FPong 2]) as Hc.
  { repeat (apply Forall_cons; split); [..|apply Forall_nil_2];
      (split; [reflexivity|eexists; split; [reflexivity|vm_compute; discriminate]]). }
  split; [exact He|].
  destruct (stream_roundtrip (pc := sample_postcard) (lz := sample_lz4) true _ [] _ Hc He)
    as (bytes & Hd & Hr).
  simpl in Hd. subst bytes. exact (Hr [5]).
Defined.

Lemma decode_bounded_witness :
  is_bytes [5; 0; 0; 0; 1] ∧ snd (decode [5; 0; 0; 0; 1]) = [5; 0; 0; 0; 1].
Proof.
  assert (is_bytes [5; 0; 0; 0; 1]) as Hb by (repeat (apply Forall_cons; split; [ints|]); apply Forall_nil_2).
  split; [exact Hb|].
  destruct (decode_bounded (pc := sample_postcard) (lz := sample_lz4) [5; 0; 0; 0; 1] _ _ Hb eq_refl) as [[H _]|(k & Hk & Hk' & _)]; [exact H|].
  reflexivity.
Defined.
