(* ===== verification/Common.v ===== *)
(** * Common: the helpers both ends share

    alloyfs-common/src/lib.rs ([parse_size], [SizeField], [token_eq],
    [io_to_code]) and fs.rs ([attr_from_metadata], [read_fully],
    [write_fully]).  A file's content is its byte list; one [read_at] or
    [write_at] call of the operating system is one answer of a schedule, which
    may be short, interrupted or an error, so the two loops are recursions on
    the schedule and the theorems say how long a schedule is enough. *)

From S2P Require Import Prelude Messages.

(** ** Sizes *)

(** The UTF-8 encodings of Unicode's White_Space characters. *)
Definition ws_chars : list (list Z) :=
  [[9]; [10]; [11]; [12]; [13]; [32]; [194; 133]; [194; 160]; [225; 154; 128]]
  ++ ((λ b, [226; 128; b]) <$> [128; 129; 130; 131; 132; 133; 134; 135; 136; 137; 138; 168; 169; 175])
  ++ [[226; 129; 159]; [227; 128; 128]].

Fixpoint strip_bytes (p s : list Z) : option (list Z) :=
  match p, s with
  | [], _ => Some s
  | a :: p', b :: s' => if decide (a = b) then strip_bytes p' s' else None
  | _ :: _, [] => None
  end.

(** Drop leading occurrences of [pats]; the fuel is the text's length, since
    every turn drops at least one byte. *)
Fixpoint trim_front (pats : list (list Z)) (fuel : nat) (s : list Z) : list Z :=
  match fuel with
  | O => s
  | S fuel' =>
      match list_find is_Some ((λ p, strip_bytes p s) <$> pats) with
      | Some (_, Some s') => trim_front pats fuel' s'
      | _ => s
      end
  end.

(** [str::trim], on UTF-8 bytes. *)
Definition trim (s : list Z) : list Z :=
  let s := trim_front ws_chars (length s) s in
  reverse (trim_front (@reverse Z <$> ws_chars) (length s) (reverse s)).

Definition is_ascii_digit (b : Z) : bool := (48 <=? b) && (b <=? 57).

Definition to_ascii_uppercase (b : Z) : Z :=
  if (97 <=? b) && (b <=? 122) then b - 32 else b.

(** The value of a run of digits, most significant first. *)
Definition digits_value (ds : list Z) : Z := foldl (λ acc d, acc * 10 + (d - 48)) 0 ds.

(** [str::parse::<u64>]: one optional [+], at least one digit, no overflow. *)
Definition parse_u64 (s : list Z) : option Z :=
  let ds := match s with 43 :: t => t | _ => s end in
  if forallb is_ascii_digit ds && negb (bool_decide (ds = []))
  then if digits_value ds <=? U64_MAX then Some (digits_value ds) else None
  else None.

(** The errors of [parse_size], which the code renders as text. *)
Inductive SizeError : Type :=
| EmptySize
| UnknownSuffix (c : Z)
| BadSize
| Overflows.
#[global] Instance SizeError_eq_dec : EqDecision SizeError.
Proof. solve_decision. Defined.

(** [u64::checked_mul]. *)
Definition checked_mul (a b : Z) : option Z := if a * b <=? U64_MAX then Some (a * b) else None.

Definition parse_size (s : string) : result Z SizeError :=
  let s := trim (as_bytes s) in
  match last s with
  | None => Err EmptySize
  | Some c =>
      let body := take (length s - 1) s in
      let? '(digits, mult) :=
        (let u := to_ascii_uppercase c in
         if decide (u = 75) then Ok (body, 1024)
         else if decide (u = 77) then Ok (body, 1024 * 1024)
         else if decide (u = 71) then Ok (body, 1024 * 1024 * 1024)
         else if is_ascii_digit u then Ok (s, 1)
         else Err (UnknownSuffix u)) in
      let? n := ok_or (parse_u64 digits) BadSize in
      ok_or (checked_mul n mult) Overflows
  end.

Inductive SizeField : Type :=
| SizeBytes (n : Z)
| SizeHuman (s : string).

Definition to_bytes (f : SizeField) : result Z SizeError :=
  match f with SizeBytes n => Ok n | SizeHuman s => parse_size s end.

(** ** Tokens and I/O errors *)

(** The [fold] of [token_eq], on two byte strings of the same length. *)
Fixpoint xor_fold (acc : Z) (a b : list Z) : Z :=
  match a, b with
  | x :: a', y :: b' => xor_fold (Z.lor acc (Z.lxor x y)) a' b'
  | _, _ => acc
  end.

Definition token_eq (a b : string) : bool :=
  let a := as_bytes a in
  let b := as_bytes b in
  if negb (bool_decide (length a = length b)) then false
  else bool_decide (xor_fold 0 a b = 0).

(** [std::io::ErrorKind], the kinds the code tells apart. *)
Inductive IoErrorKind : Type :=
| IoNotFound | IoPermissionDenied | IoAlreadyExists | IoNotADirectory
| IoIsADirectory | IoDirectoryNotEmpty | IoInterrupted | IoWriteZero
| IoCrossesDevices | IoUnsupported | IoInvalidInput | IoOther.
#[global] Instance IoErrorKind_eq_dec : EqDecision IoErrorKind.
Proof. solve_decision. Defined.

Definition io_to_code (e : IoErrorKind) : ErrorCode :=
  match e with
  | IoNotFound => NotFound
  | IoPermissionDenied => PermissionDenied
  | IoAlreadyExists => AlreadyExists
  | IoNotADirectory => NotADirectory
  | IoIsADirectory => IsADirectory
  | IoDirectoryNotEmpty => NotEmpty
  | _ => Io
  end.

(** [OrCode::or_code]. *)
Definition or_code {A} (r : result A IoErrorKind) : result A ErrorCode := map_err io_to_code r.

(** ** Metadata *)

(** What the code reads of [std::fs::Metadata]; a time may be unavailable. *)
Record Metadata : Type := mkMetadata {
  md_is_dir : bool; md_is_symlink : bool; md_len : Z;
  md_modified : option SystemTime; md_created : option SystemTime; md_mode : Z
}.

(** [mode_of], Unix. *)
Definition mode_of (md : Metadata) : Z := Z.land (md_mode md) 4095.

Definition attr_from_metadata (md : Metadata) (version : Z) : Attr :=
  let kind := if md_is_dir md then KDir else if md_is_symlink md then KSymlink else KFile in
  let mtime := default 0 (md_modified md) in
  let ctime := default mtime (md_created md) in
  mkAttr kind (md_len md) mtime ctime (mode_of md) version.

(** ** Positional reads and writes *)

(** The bytes [off, off + len) of a content, cut at its end. *)
Definition slice (content : list Z) (off len : nat) : list Z := take len (drop off content).

(** A content after [data] is written at [off]: the file grows, with zeros in
    any gap before [off]; writing nothing changes nothing. *)
Definition splice (content : list Z) (off : nat) (data : list Z) : list Z :=
  match data with
  | [] => content
  | _ => take off content ++ replicate (off - length content) 0 ++ data
         ++ drop (off + length data) content
  end.

(** One answer of the operating system: at most [n] bytes (a short answer
    when fewer than asked), an interruption, or an error. *)
Inductive OsAnswer : Type :=
| Give (n : nat)
| Fails (e : IoErrorKind).

Definition read_at (content : list Z) (len off : nat) (ans : OsAnswer) : result (list Z) IoErrorKind :=
  match ans with
  | Give n => Ok (slice content off (Nat.min n len))
  | Fails e => Err e
  end.

(** [write_at]: how many bytes were taken, and the file's new content. *)
Definition write_at (content data : list Z) (off : nat) (ans : OsAnswer)
    : result (nat * list Z) IoErrorKind :=
  match ans with
  | Give n => Ok (Nat.min n (length data), splice content off (take n data))
  | Fails e => Err e
  end.

(** [read_fully]: [None] when the schedule ends before the loop does; else
    the bytes read ([done] of them). *)
Fixpoint read_fully (answers : list OsAnswer) (content : list Z) (len off : nat) (buf : list Z)
    : option (result (list Z) IoErrorKind) :=
  if bool_decide (len ≤ length buf)%nat then Some (Ok buf)
  else match answers with
  | [] => None
  | ans :: answers' =>
      match read_at content (len - length buf) (off + length buf) ans with
      | Ok [] => Some (Ok buf)
      | Ok bs => read_fully answers' content len off (buf ++ bs)
      | Err e => if bool_decide (e = IoInterrupted)
                 then read_fully answers' content len off buf
                 else Some (Err e)
      end
  end.

(** [write_fully]: the content reached is kept on both outcomes. *)
Fixpoint write_fully (answers : list OsAnswer) (content buf : list Z) (off done : nat)
    : option (result unit IoErrorKind * list Z) :=
  if bool_decide (length buf ≤ done)%nat then Some (Ok tt, content)
  else match answers with
  | [] => None
  | ans :: answers' =>
      match write_at content (drop done buf) (off + done) ans with
      | Ok (O, content') => Some (Err IoWriteZero, content')
      | Ok (n, content') => write_fully answers' content' buf off (done + n)
      | Err e => if bool_decide (e = IoInterrupted)
                 then write_fully answers' content buf off done
                 else Some (Err e, content)
      end
  end.

Example parse_size_2M : parse_size "2M" = Ok 2097152.
Proof. reflexivity. Qed.
Example parse_size_ws : parse_size "  512k
" = Ok 524288.
Proof. reflexivity. Qed.
Example parse_size_plus : parse_size "+1G" = Ok 1073741824.
Proof. reflexivity. Qed.
Example parse_size_X : parse_size "2X" = Err (UnknownSuffix 88).
Proof. reflexivity. Qed.
Example parse_size_M : parse_size "M" = Err BadSize.
Proof. reflexivity. Qed.

(** ** Lemmas *)

Lemma xor_fold_zero acc a b :
  0 ≤ acc → is_bytes a → is_bytes b → length a = length b →
  xor_fold acc a b = 0 ↔ acc = 0 ∧ a = b.
Proof.
  revert acc b. induction a as [|x a IH]; intros acc [|y b] Hacc Ha Hb Hlen; try done.
  - simpl. naive_solver.
  - apply Forall_cons in Ha as [Hx Ha]. apply Forall_cons in Hb as [Hy Hb]. ints. simpl in *.
    rw IH; [|apply Z.lor_nonneg; split; [done|apply Z.lxor_nonneg; lia]|done|done|lia].
    rw Z.lor_eq_0_iff Z.lxor_eq_0_iff. naive_solver.
Qed.

(** *** Trimming *)

(** A byte that neither starts nor ends a white-space character. *)
Definition solid (b : Z) : Prop := 33 ≤ b ≤ 127.

Lemma trim_front_solid pats fuel b s :
  Forall (λ p, match p with [] => False | a :: _ => ¬ solid a end) pats → solid b →
  trim_front pats fuel (b :: s) = b :: s.
Proof.
  intros Hp Hb. destruct fuel as [|fuel]; [done|]. simpl.
  destruct (list_find _ _) as [[i o]|] eqn:E; [|done].
  apply list_find_Some in E as (Hi & [s' ->] & _). exfalso.
  rw list_lookup_fmap in Hi. destruct (pats !! i) as [p|] eqn:Ep; simplify_eq/=.
  rw Forall_lookup in Hp. specialize (Hp _ _ Ep). destruct p as [|a p]; [done|]. simpl in *.
  by destruct (decide (a = b)); simplify_eq.
Qed.

Lemma ws_heads : Forall (λ p, match p with [] => False | a :: _ => ¬ solid a end) ws_chars.
Proof. repeat (constructor; [unfold solid; lia|]). constructor. Qed.

Lemma ws_tails : Forall (λ p, match p with [] => False | a :: _ => ¬ solid a end) (@reverse Z <$> ws_chars).
Proof. vm_compute. repeat (constructor; [intros []; congruence|]). constructor. Qed.

(** Text that starts and ends with a solid byte is its own trimming. *)
Lemma trim_solid b1 s1 s2 b2 s :
  s = b1 :: s1 → s = s2 ++ [b2] → solid b1 → solid b2 → trim s = s.
Proof.
  intros H1 H2 Hb1 Hb2. unfold trim.
  assert (trim_front ws_chars (length s) s = s) as ->.
  { rw H1. apply trim_front_solid; [apply ws_heads|done]. }
  assert (reverse s = b2 :: reverse s2) as Hr by (by rw H2 reverse_app).
  rw Hr. rw (trim_front_solid _ _ _ _ ws_tails Hb2) -Hr. apply reverse_involutive.
Qed.

Lemma digit_solid b : is_ascii_digit b = true → solid b.
Proof. unfold is_ascii_digit, solid. intros [?%Z.leb_le ?%Z.leb_le]%andb_true_iff. lia. Qed.

Lemma digits_value_nonneg ds : Forall (λ b, is_ascii_digit b = true) ds → 0 ≤ digits_value ds.
Proof.
  assert (∀ acc, 0 ≤ acc → Forall (λ b, is_ascii_digit b = true) ds →
            0 ≤ foldl (λ acc d, acc * 10 + (d - 48)) acc ds) as H; [|by apply H].
  induction ds as [|d ds IH]; intros acc Hacc Hds; [done|]. apply Forall_cons in Hds as [Hd Hds].
  simpl. apply IH; [|done]. apply andb_true_iff in Hd as [Hd _]. apply Z.leb_le in Hd. lia.
Qed.

Lemma parse_u64_digits ds :
  ds ≠ [] → Forall (λ b, is_ascii_digit b = true) ds →
  parse_u64 ds = if digits_value ds <=? U64_MAX then Some (digits_value ds) else None.
Proof.
  intros Hne Hds. unfold parse_u64.
  assert (match ds with 43 :: t => t | _ => ds end = ds) as ->.
  { destruct ds as [|d ds']; [done|]. apply Forall_cons in Hds as [Hd _].
    repeat (case_match; try done). }
  assert (forallb is_ascii_digit ds = true) as ->.
  { apply forallb_forall. intros b Hb. rw Forall_forall in Hds. by apply Hds, list_elem_of_In. }
  by rw bool_decide_false.
Qed.

(** *** Slices *)

Lemma slice_length content off len :
  length (slice content off len) = Nat.min len (length content - off).
Proof. unfold slice. by rw length_take length_drop. Qed.

(** A longer slice is a slice and the slice after it. *)
Lemma slice_app content off a b :
  slice content off (a + b) = slice content off a ++ slice content (off + a) b.
Proof.
  unfold slice. rw -(take_drop a (take (a + b) (drop off content))).
  rw take_take skipn_firstn_comm drop_drop. f_equal; f_equal; lia.
Qed.

Lemma slice_all content off len : (length content ≤ off)%nat → slice content off len = [].
Proof. intros. unfold slice. rw drop_ge; [apply take_nil|done]. Qed.

(** ** Theorems *)

(** [token_eq] is equality of the two tokens: the fold over the xor of their
    bytes neither accepts a wrong token nor rejects the right one. *)
Lemma token_eq_iff a b : token_eq a b = true ↔ a = b.
Proof.
  unfold token_eq. case_bool_decide as Hlen; simpl.
  - rw bool_decide_eq_true xor_fold_zero; try apply as_bytes_is_bytes; try done.
    split; [|by intros ->]. intros [_ H]. by apply as_bytes_inj.
  - split; [done|]. by intros ->.
Qed.

(** The multiplier a unit letter stands for. *)
Definition unit_mult (suffix : list Z) : option Z :=
  match suffix with
  | [] => Some 1
  | [c] => if bool_decide (c = 75 ∨ c = 107) then Some 1024
           else if bool_decide (c = 77 ∨ c = 109) then Some (1024 * 1024)
           else if bool_decide (c = 71 ∨ c = 103) then Some (1024 * 1024 * 1024) else None
  | _ => None
  end.

Lemma unit_mult_letter c mult :
  unit_mult [c] = Some mult → 1 ≤ mult ∧ solid c ∧
  ((to_ascii_uppercase c = 75 ∧ mult = 1024) ∨ (to_ascii_uppercase c = 77 ∧ mult = 1024 * 1024)
   ∨ (to_ascii_uppercase c = 71 ∧ mult = 1024 * 1024 * 1024)).
Proof.
  unfold unit_mult, to_ascii_uppercase, solid. intros H.
  case_bool_decide as H1; [destruct H1; simplify_eq; simpl; lia|].
  case_bool_decide as H2; [destruct H2; simplify_eq; simpl; lia|].
  case_bool_decide as H3; [destruct H3; simplify_eq; simpl; lia|done].
Qed.

(** [parse_size] on decimal digits with an optional unit (K, M or G in either
    case) is the exact product when it fits a [u64], and an error otherwise:
    no value wraps around. *)
Theorem parse_size_exact s ds suffix mult :
  as_bytes s = ds ++ suffix → ds ≠ [] → Forall (λ b, is_ascii_digit b = true) ds →
  unit_mult suffix = Some mult →
  if digits_value ds * mult <=? U64_MAX
  then parse_size s = Ok (digits_value ds * mult)
  else parse_size s = Err Overflows ∨ parse_size s = Err BadSize.
Proof.
  intros Hs Hne Hds Hm. unfold parse_size. rw Hs.
  pose proof (digits_value_nonneg _ Hds) as Hv. pose proof (parse_u64_digits _ Hne Hds) as Hp.
  destruct ds as [|d1 ds1] eqn:Eds; [done|]. rw -Eds in Hs Hds Hne Hv Hp |- *.
  assert (solid d1) as Hd1. { apply digit_solid. rw Eds in Hds. by apply Forall_cons in Hds as [? _]. }
  assert (∃ ds2 d2, ds = ds2 ++ [d2] ∧ is_ascii_digit d2 = true) as (ds2 & d2 & Hlast & Hd2).
  { destruct (exists_last Hne) as (ds2 & d2 & ->). exists ds2, d2. split; [done|].
    apply Forall_app in Hds as [_ Hd]. apply Forall_cons in Hd as [Hd _]. exact Hd. }
  assert (Hfin : 1 ≤ mult →
    if digits_value ds * mult <=? U64_MAX
    then (let? n := ok_or (parse_u64 ds) BadSize in ok_or (checked_mul n mult) Overflows)
         = Ok (digits_value ds * mult)
    else (let? n := ok_or (parse_u64 ds) BadSize in ok_or (checked_mul n mult) Overflows)
         = Err Overflows ∨
         (let? n := ok_or (parse_u64 ds) BadSize in ok_or (checked_mul n mult) Overflows)
         = Err BadSize).
  { intros Hm1. rw Hp. unfold checked_mul.
    destruct (digits_value ds * mult <=? U64_MAX) eqn:E1; destruct (digits_value ds <=? U64_MAX) eqn:E2;
      simpl; rw ?E1 //; [|by left|by right].
    apply Z.leb_le in E1. apply Z.leb_gt in E2. exfalso. nia. }
  destruct suffix as [|c [|]]; [| |done].
  - simpl in Hm. apply Some_inj in Hm. subst mult. rw app_nil_r.
    rw (trim_solid d1 ds1 ds2 d2 _ Eds Hlast Hd1 (digit_solid _ Hd2)). assert (last ds = Some d2) as -> by (by rw Hlast last_snoc).
    assert (to_ascii_uppercase d2 = d2) as ->.
    { unfold to_ascii_uppercase. apply digit_solid in Hd2 as ?. unfold is_ascii_digit in Hd2.
      apply andb_true_iff in Hd2 as [_ Hd2%Z.leb_le]. replace (97 <=? d2) with false; [done|]. symmetry. apply Z.leb_gt. lia. }
    rw !decide_False; last (by intros ->); last (by intros ->); last (by intros ->). rw Hd2 /=. apply Hfin. lia.
  - destruct (unit_mult_letter _ _ Hm) as (Hm1 & Hc & Hcase).
    rw (trim_solid d1 (ds1 ++ [c]) ds c (ds ++ [c]) ltac:(by rw Eds) eq_refl Hd1 Hc) last_snoc.
    assert (take (length (ds ++ [c]) - 1) (ds ++ [c]) = ds) as ->.
    { rw length_app /= Nat.add_sub take_app_length //. }
    destruct Hcase as [[-> ->]|[[-> ->]|[-> ->]]]; by apply Hfin.
Qed.

Lemma parse_size_exact_witness : parse_size "16g" = Ok 17179869184.
Proof.
  exact (parse_size_exact "16g" [49; 54] [103] (1024 * 1024 * 1024) eq_refl ltac:(done)
    ltac:(repeat constructor) eq_refl).
Defined.

(** A schedule without errors: every answer makes progress or is an
    interruption. *)
Definition progresses (a : OsAnswer) : Prop :=
  match a with Give n => (1 ≤ n)%nat | Fails e => e = IoInterrupted end.

Definition is_give (a : OsAnswer) : bool := match a with Give _ => true | Fails _ => false end.
Definition gives (answers : list OsAnswer) : nat := length (base.filter (λ a, is_give a = true) answers).

Lemma gives_cons a answers : gives (a :: answers) = ((if is_give a then 1 else 0) + gives answers)%nat.
Proof. unfold gives. rw filter_cons. destruct (is_give a); by simpl. Qed.

Lemma read_fully_from answers content len off :
  Forall progresses answers → ∀ done, (done ≤ len)%nat → (len - done + 1 ≤ gives answers)%nat →
  length (slice content off done) = done →
  read_fully answers content len off (slice content off done) = Some (Ok (slice content off len)).
Proof.
  induction 1 as [|a answers Ha _ IH]; intros done Hle Hg Hdone.
  { unfold gives in Hg. simpl in Hg. lia. }
  cbn [read_fully]. rw Hdone. case_bool_decide as Hfull; [by replace len with done by lia|].
  rw gives_cons in Hg. destruct a as [n|e]; simpl in Ha, Hg |- *.
  - destruct (slice content (off + done) (Nat.min n (len - done))) as [|b bs] eqn:Es.
    + f_equal. f_equal. apply (f_equal length) in Es. rw slice_length /= in Es.
      rw slice_length in Hdone. replace len with (done + (len - done))%nat by lia.
      rw slice_app (slice_all _ (off + done)) ?app_nil_r //. lia.
    + assert (length (b :: bs) ≤ Nat.min n (len - done))%nat as Hl by (rw -Es slice_length; lia).
      set (k := length (b :: bs)) in *. assert (1 ≤ k)%nat by (subst k; simpl; lia).
      assert (b :: bs = slice content (off + done) k) as Hk.
      { rw -Es. unfold slice. rw -(take_ge (take (Nat.min n (len - done)) _) k).
        - rw take_take. f_equal. lia.
        - unfold slice in Es. rw Es. subst k. lia. }
      rw Hk -slice_app. apply IH; [lia|lia|]. rw slice_app length_app Hdone -Hk. by subst k.
  - subst e. rw bool_decide_true //. apply IH; [done|lia|done].
Qed.

(** [read_fully] over any error-free schedule of short reads and
    interruptions returns exactly the bytes of the file at [offset], as many
    as the buffer holds or the file has; [len + 1] productive answers are
    always enough for the loop to end. *)
Theorem read_fully_exact answers content len off :
  Forall progresses answers → (len + 1 ≤ gives answers)%nat →
  read_fully answers content len off [] = Some (Ok (slice content off len)).
Proof.
  intros Ha Hg. assert (slice content off 0 = []) as E by (unfold slice; apply take_0).
  rw -E. apply read_fully_from; [done|lia|lia|by rw E].
Qed.

Lemma read_fully_exact_witness :
  read_fully [Give 1; Fails IoInterrupted; Give 7; Give 2; Give 1] [10; 11; 12; 13; 14] 3 2 []
  = Some (Ok [12; 13; 14]).
Proof.
  exact (read_fully_exact [Give 1; Fails IoInterrupted; Give 7; Give 2; Give 1] [10; 11; 12; 13; 14] 3 2
    ltac:(repeat constructor) ltac:(vm_compute; lia)).
Defined.

Lemma splice_app content off d1 d2 :
  splice (splice content off d1) (off + length d1) d2 = splice content off (d1 ++ d2).
Proof.
  destruct d1 as [|x d1]; [simpl; by rw Nat.add_0_r|]. destruct d2 as [|y d2]; [by rw app_nil_r|].
  set (a := x :: d1). set (b := y :: d2).
  assert (splice content off a = take off content ++ replicate (off - length content) 0 ++ a
     ++ drop (off + length a) content) as -> by done.
  assert (splice content off (a ++ b) = take off content ++ replicate (off - length content) 0 ++ (a ++ b)
     ++ drop (off + length (a ++ b)) content) as -> by done.
  set (pre := take off content ++ replicate (off - length content) 0).
  assert (length pre = off) as Hpre.
  { subst pre. rw length_app length_take length_replicate. lia. }
  assert (length (pre ++ a) = off + length a)%nat as Hpa by (by rw length_app Hpre).
  set (T := drop (off + length a) content).
  assert (take off content ++ replicate (off - length content) 0 ++ a ++ T = (pre ++ a) ++ T) as ->.
  { subst pre. by rw -!app_assoc. }
  assert (splice ((pre ++ a) ++ T) (off + length a) b = take (off + length a) ((pre ++ a) ++ T) ++
      replicate (off + length a - length ((pre ++ a) ++ T)) 0 ++ b ++
      drop (off + length a + length b) ((pre ++ a) ++ T)) as -> by done.
  rw take_app_length' //. rw (length_app (pre ++ a)) Hpa Nat.sub_add_distr Nat.sub_diag. cbn [replicate app Nat.sub].
  rw (drop_app_ge (pre ++ a)); last (rw Hpa /=; lia). rw Hpa. subst T. rw drop_drop length_app.
  replace (off + length a + (off + length a + length b - (off + length a)))%nat
    with (off + (length a + length b))%nat by lia.
  subst pre. by rw -!app_assoc.
Qed.

Lemma write_fully_from answers buf off content :
  Forall progresses answers → ∀ done, (done ≤ length buf)%nat → (length buf - done ≤ gives answers)%nat →
  write_fully answers (splice content off (take done buf)) buf off done
  = Some (Ok tt, splice content off buf).
Proof.
  induction 1 as [|a answers Ha _ IH]; intros done Hle Hg; cbn [write_fully];
    (case_bool_decide as Hfull; [by rw take_ge|]).
  { unfold gives in Hg. simpl in Hg. lia. }
  rw gives_cons in Hg. destruct a as [n|e]; simpl in Ha, Hg |- *.
  - rw length_drop. destruct (Nat.min n (length buf - done)) as [|k] eqn:Ek; [lia|].
    assert (splice (splice content off (take done buf)) (off + done) (take n (drop done buf))
            = splice content off (take (done + S k) buf)) as ->.
    { pose proof (splice_app content off (take done buf) (take n (drop done buf))) as Hsp.
      rw length_take Nat.min_l in Hsp; last lia. rw Hsp. f_equal.
      rw -(take_drop done (take (done + S k) buf)) take_take skipn_firstn_comm.
      f_equal; [f_equal; lia|]. replace (done + S k - done)%nat with (S k) by lia.
      rw -Ek. destruct (decide (n ≤ length buf - done)%nat).
      - by rw Nat.min_l.
      - rw Nat.min_r; last lia. by rw !take_ge ?length_drop; try lia. }
    apply IH; lia.
  - subst e. rw bool_decide_true //. apply IH; [done|lia].
Qed.

(** [write_fully] over any error-free schedule of short writes and
    interruptions leaves exactly the file with [buf] at [offset] (zeros fill a
    gap past the old end), and as many productive answers as there are bytes
    are always enough for the loop to end. *)
Theorem write_fully_exact answers content buf off :
  Forall progresses answers → (length buf ≤ gives answers)%nat →
  write_fully answers content buf off 0 = Some (Ok tt, splice content off buf).
Proof.
  intros Ha Hg. pose proof (write_fully_from answers buf off content Ha 0) as H.
  rw take_0 in H. apply H; lia.
Qed.

Lemma write_fully_exact_witness :
  write_fully [Give 1; Fails IoInterrupted; Give 7; Give 2] [10; 11] [1; 2; 3] 3 0
  = Some (Ok tt, [10; 11; 0; 1; 2; 3]).
Proof.
  exact (write_fully_exact [Give 1; Fails IoInterrupted; Give 7; Give 2] [10; 11] [1; 2; 3] 3
    ltac:(repeat constructor) ltac:(vm_compute; lia)).
Defined.
