(* ===== verification/Exclude.v ===== *)
(** * Exclude: gitignore-flavoured exclude sets

    [ExcludeSet] of alloyfs-common/src/exclude.rs.  The globset crate is a
    parameter: [Globs] are the operations the code calls, [GlobLaws] its
    documented meaning on the globs the code builds from a pattern without
    metacharacters.  The theorems say what a set compiled from such patterns
    excludes, and that excluding a directory excludes everything below it. *)

From S2P Require Import Prelude Messages.

Class Globs (Glob GlobSet : Type) := {
  (** [GlobBuilder::new(v).literal_separator(true).case_insensitive(ci).build()] *)
  glob_build : string → bool → option Glob;
  (** [Glob]'s matcher *)
  glob_match : Glob → string → bool;
  (** [GlobSetBuilder::build] of the globs added *)
  globset_build : list Glob → option GlobSet;
  (** [GlobSet::is_match] *)
  globset_is_match : GlobSet → string → bool
}.

Definition LOCAL_ARTIFACTS : list string :=
  ["System Volume Information"; "$RECYCLE.BIN"; "RECYCLER"; "Thumbs.db"; "ehthumbs.db";
   "desktop.ini"; ".DS_Store"; ".Spotlight-V100"; ".Trashes"; ".fseventsd";
   ".TemporaryItems"; ".DocumentRevisions-V100"; ".AppleDouble"; "lost+found"; ".Trash-*"].

(** [str::trim_end_matches('/')]: drop every trailing slash. *)
Fixpoint trim_end_slashes (s : string) : string :=
  match s with
  | EmptyString => ""
  | String a s' =>
      match trim_end_slashes s' with
      | EmptyString => if decide (a = slash) then "" else String a ""
      | t => String a t
      end
  end.

Section ExcludeSet.
Context {Glob GlobSet : Type} `{G : Globs Glob GlobSet}.

Record ExcludeSet : Type := mkExcludeSet {
  ex_set : GlobSet; ex_empty : bool; ex_artifacts : option GlobSet
}.

(** Why a compilation fails. *)
Inductive ExcludeError : Type :=
| EmptyPattern
| BadPattern (p : string)
| SetTooBig.

(** The [variants] of one trimmed pattern. *)
Definition variants (p : string) : list string :=
  [p; p +:+ "/**"]
  ++ (if contains_char slash p then [] else ["**/" +:+ p; "**/" +:+ p +:+ "/**"]).

Fixpoint build_all (p : string) (vs : list string) (ci : bool) : result (list Glob) ExcludeError :=
  match vs with
  | [] => Ok []
  | v :: vs' =>
      let? g := ok_or (glob_build v ci) (BadPattern p) in
      let? gs := build_all p vs' ci in
      Ok (g :: gs)
  end.

(** The [for p in patterns] loop: the globs added to the builder. *)
Fixpoint compile_loop (patterns : list string) (ci : bool) : result (list Glob) ExcludeError :=
  match patterns with
  | [] => Ok []
  | p :: rest =>
      let p := trim_end_slashes p in
      if str_is_empty p then Err EmptyPattern
      else let? gs := build_all p (variants p) ci in
           let? gs' := compile_loop rest ci in
           Ok (gs ++ gs')
  end.

Definition compile (patterns : list string) (ci : bool) : result ExcludeSet ExcludeError :=
  let? globs := compile_loop patterns ci in
  let? set := ok_or (globset_build globs) SetTooBig in
  Ok (mkExcludeSet set (match patterns with [] => true | _ => false end) None).

Definition compile_with_defaults (patterns : list string) (ci : bool) : result ExcludeSet ExcludeError :=
  let? set := compile patterns ci in
  let? defaults := compile LOCAL_ARTIFACTS true in
  Ok (mkExcludeSet (ex_set set) (ex_empty set) (Some (ex_set defaults))).

Definition is_excluded (x : ExcludeSet) (path : RelPath) : bool :=
  if RelPath.is_root path then false
  else match ex_artifacts x with
  | Some artifacts =>
      if globset_is_match artifacts path then true
      else if ex_empty x then false else globset_is_match (ex_set x) path
  | None => if ex_empty x then false else globset_is_match (ex_set x) path
  end.

Definition is_empty (x : ExcludeSet) : bool := ex_empty x.
End ExcludeSet.
Arguments ExcludeSet _ : clear implicits.

(** ** What a glob means *)

Definition ascii_lower (a : ascii) : ascii :=
  let n := N_of_ascii a in
  if (65 <=? Z.of_N n) && (Z.of_N n <=? 90) then ascii_of_N (n + 32) else a.

Fixpoint str_lower (s : string) : string :=
  match s with EmptyString => "" | String a s' => String (ascii_lower a) (str_lower s') end.

(** Equality of path components under the case flag. *)
Definition same_name (ci : bool) (a b : string) : Prop :=
  if ci then str_lower a = str_lower b else a = b.

Definition same_names (ci : bool) : list string → list string → Prop := Forall2 (same_name ci).

(** No globset metacharacter. *)
Definition meta_chars : list ascii :=
  ["*"%char; "?"%char; "["%char; "]"%char; "{"%char; "}"%char; "\"%char].
Definition literal (p : string) : Prop := Forall (λ c, contains_char c p = false) meta_chars.

(** Components of a path the set is asked about. *)
Definition names (cs : list string) : Prop :=
  cs ≠ [] ∧ Forall (λ c, c ≠ "" ∧ contains_char slash c = false) cs.

(** globset's documented semantics with [literal_separator]: a literal glob
    matches itself, a [/**] suffix everything below, a [**/] prefix at any
    depth; a set matches when one of its globs does. *)
Class GlobLaws (Glob GlobSet : Type) `{G : Globs Glob GlobSet} : Prop := {
  law_set gs set s : globset_build gs = Some set → globset_is_match set s = existsb (λ g, glob_match g s) gs;
  law_lit p ci g cs : literal p → p ≠ "" → names cs → glob_build p ci = Some g →
    glob_match g (join_with slash cs) = true ↔ same_names ci (split_on slash p) cs;
  law_under p ci g cs : literal p → p ≠ "" → names cs → glob_build (p +:+ "/**") ci = Some g →
    glob_match g (join_with slash cs) = true ↔
    ∃ top below, cs = top ++ below ∧ below ≠ [] ∧ same_names ci (split_on slash p) top;
  law_deep p ci g cs : literal p → p ≠ "" → contains_char slash p = false → names cs →
    glob_build ("**/" +:+ p) ci = Some g →
    glob_match g (join_with slash cs) = true ↔ ∃ above c, cs = above ++ [c] ∧ same_name ci p c;
  law_deep_under p ci g cs : literal p → p ≠ "" → contains_char slash p = false → names cs →
    glob_build ("**/" +:+ p +:+ "/**") ci = Some g →
    glob_match g (join_with slash cs) = true ↔
    ∃ above c below, cs = above ++ c :: below ∧ below ≠ [] ∧ same_name ci p c
}.

(** What a literal pattern is meant to exclude: a bare name, that name at any
    depth and everything below it; a pathed pattern, that path and everything
    below it. *)
Definition pattern_hits (ci : bool) (p : string) (cs : list string) : Prop :=
  let p := trim_end_slashes p in
  if contains_char slash p
  then ∃ top below, cs = top ++ below ∧ same_names ci (split_on slash p) top
  else ∃ c, c ∈ cs ∧ same_name ci p c.

(** ** Lemmas *)

Lemma trim_end_contains c p : contains_char c p = false → contains_char c (trim_end_slashes p) = false.
Proof.
  induction p as [|a p IH]; [done|]. cbn [contains_char trim_end_slashes].
  intros [Ha Hp]%orb_false_iff. specialize (IH Hp).
  destruct (trim_end_slashes p); [destruct (decide (a = slash)); [done|]|]; cbn [contains_char];
    rw Ha; done.
Qed.

Lemma literal_trim p : literal p → literal (trim_end_slashes p).
Proof. unfold literal. intros H. eapply Forall_impl; [exact H|]. intros c. apply trim_end_contains. Qed.

Section Laws.
Context {Glob GlobSet : Type} `{GL : GlobLaws Glob GlobSet}.

Lemma build_all_spec p vs ci gs :
  build_all p vs ci = Ok gs → Forall2 (λ v g, glob_build v ci = Some g) vs gs.
Proof using.
  revert gs. induction vs as [|v vs IH]; intros gs; simpl; [intros [= <-]; constructor|].
  destruct (glob_build v ci) as [g|] eqn:Eg; [|done]. simpl.
  destruct (build_all p vs ci) as [gs'|] eqn:Eb; [|done]. simpl. intros [= <-].
  constructor; [done|]. by apply IH.
Qed.

Lemma existsb_true {A} (f : A → bool) l : existsb f l = true ↔ ∃ x, x ∈ l ∧ f x = true.
Proof using. rw existsb_exists. setoid_rewrite list_elem_of_In. done. Qed.

Lemma variants_match p ci gs cs :
  literal p → p ≠ "" → names cs → build_all p (variants p) ci = Ok gs →
  existsb (λ g, glob_match g (join_with slash cs)) gs = true ↔
  if contains_char slash p
  then ∃ top below, cs = top ++ below ∧ same_names ci (split_on slash p) top
  else ∃ c, c ∈ cs ∧ same_name ci p c.
Proof using GL.
  intros Hl Hne Hcs Hb%build_all_spec. unfold variants in Hb.
  apply Forall2_cons_inv_l in Hb as (g1 & gs1 & H1 & Hb & ->).
  apply Forall2_cons_inv_l in Hb as (g2 & gs2 & H2 & Hb & ->).
  cbn [existsb]. pose proof (law_lit p ci g1 cs Hl Hne Hcs H1) as L1.
  pose proof (law_under p ci g2 cs Hl Hne Hcs H2) as L2.
  destruct (contains_char slash p) eqn:Es.
  - apply Forall2_nil_inv_l in Hb as ->. cbn [existsb]. rw orb_false_r orb_true_iff L1 L2. split.
    + intros [H|(top & below & -> & _ & H)]; [exists cs, []; by rw app_nil_r|eauto].
    + intros (top & below & -> & H). destruct below; [left; by rw app_nil_r|right; eauto].
  - apply Forall2_cons_inv_l in Hb as (g3 & gs3 & H3 & Hb & ->).
    apply Forall2_cons_inv_l in Hb as (g4 & gs4 & H4 & Hb & ->). apply Forall2_nil_inv_l in Hb as ->.
    pose proof (law_deep p ci g3 cs Hl Hne Es Hcs H3) as L3.
    pose proof (law_deep_under p ci g4 cs Hl Hne Es Hcs H4) as L4.
    cbn [existsb]. rw orb_false_r !orb_true_iff L1 L2 L3 L4. rw (split_no_sep _ _ Es).
    assert (Hone : ∀ top, same_names ci [p] top ↔ ∃ c, top = [c] ∧ same_name ci p c).
    { intros top. split.
      - intros (c & ? & ? & ?%Forall2_nil_inv_l & ->)%Forall2_cons_inv_l. simplify_eq. eauto.
      - intros (c & -> & ?). by constructor. }
    setoid_rewrite Hone. split.
    + intros [(c & -> & ?)|[(top & below & -> & _ & c & -> & ?)|
        [(above & c & -> & ?)|(above & c & below & -> & _ & ?)]]]; exists c;
        (split; [|done]); rw ?elem_of_app ?list_elem_of_singleton ?elem_of_cons; tauto.
    + intros (c & (above & below & ->)%list_elem_of_split & ?). right. right.
      destruct below as [|b below]; [left; eauto|right]. exists above, c, (b :: below). done.
Qed.

Lemma compile_loop_match patterns ci gs cs :
  Forall literal patterns → names cs → compile_loop patterns ci = Ok gs →
  existsb (λ g, glob_match g (join_with slash cs)) gs = true ↔
  ∃ p, p ∈ patterns ∧ pattern_hits ci p cs.
Proof using GL.
  intros Hl Hcs. revert gs. induction Hl as [|p patterns Hp _ IH]; intros gs; cbn [compile_loop].
  - intros [= <-]. split; [done|]. intros (? & ? & _). set_solver.
  - destruct (str_is_empty _) eqn:Ee; [done|]. unfold str_is_empty in Ee.
    apply bool_decide_eq_false in Ee.
    destruct (build_all _ _ ci) as [g1|] eqn:Eb; [|done]. simpl.
    destruct (compile_loop patterns ci) as [g2|] eqn:Ec; [|done]. simpl. intros [= <-].
    rw existsb_app orb_true_iff (IH _ eq_refl) (variants_match _ _ _ _ (literal_trim _ Hp) Ee Hcs Eb).
    fold (pattern_hits ci p cs). setoid_rewrite elem_of_cons. naive_solver.
Qed.

Lemma compile_artifacts patterns ci x : compile patterns ci = Ok x → ex_artifacts x = None.
Proof using.
  unfold compile. destruct (compile_loop patterns ci); [|done]. simpl.
  destruct (globset_build _); [|done]. simpl. by intros [= <-].
Qed.

Lemma compile_match patterns ci x cs :
  Forall literal patterns → names cs → compile patterns ci = Ok x →
  is_excluded x (join_with slash cs) = true ↔ ∃ p, p ∈ patterns ∧ pattern_hits ci p cs.
Proof using GL.
  intros Hl Hcs. unfold compile, is_excluded.
  destruct (compile_loop patterns ci) as [gs|] eqn:Ec; [|done]. simpl.
  destruct (globset_build gs) as [set|] eqn:Es; [|done]. simpl. intros [= <-]. simpl.
  rw -(compile_loop_match _ _ _ _ Hl Hcs Ec) (law_set _ _ _ Es).
  assert (RelPath.is_root (join_with slash cs) = false) as ->.
  { apply bool_decide_eq_false, join_nonempty; [apply Hcs|].
    eapply Forall_impl; [apply Hcs|]. naive_solver. }
  destruct patterns; [|done]. simpl in Ec. simplify_eq. done.
Qed.
End Laws.

Lemma pattern_hits_below ci p cs more : pattern_hits ci p cs → pattern_hits ci p (cs ++ more).
Proof.
  unfold pattern_hits. cbn zeta. destruct (contains_char slash _).
  - intros (top & below & -> & ?). exists top, (below ++ more). by rw app_assoc.
  - intros (c & ? & ?). exists c. rw elem_of_app. eauto.
Qed.

(** ** Theorems *)

(** A set compiled from literal patterns excludes exactly what the module
    documents: a bare name at any depth with everything below it, a pathed
    pattern at its place with everything below it, case folded when asked;
    and so it is hereditary: below an excluded path everything is excluded. *)
Theorem exclude_literal_spec {Glob GlobSet} `{GL : GlobLaws Glob GlobSet} patterns ci x cs :
  Forall literal patterns → names cs → compile patterns ci = Ok x →
  (is_excluded x (join_with slash cs) = true ↔ ∃ p, p ∈ patterns ∧ pattern_hits ci p cs) ∧
  (is_excluded x (join_with slash cs) = true →
   ∀ more, names (cs ++ more) → is_excluded x (join_with slash (cs ++ more)) = true).
Proof.
  intros Hl Hcs Hx. split; [by apply compile_match|].
  rw (compile_match _ _ _ _ Hl Hcs Hx). intros (p & Hp & Hh) more Hmore.
  apply (compile_match _ _ _ _ Hl Hmore Hx). exists p. split; [done|]. by apply pattern_hits_below.
Qed.

(** ** A concrete globset for literal patterns

    A glob is its text and case flag; matching works component by
    component. *)
Module Sample.

Fixpoint suffixes {A} (l : list A) : list (list A) :=
  l :: match l with [] => [] | _ :: t => suffixes t end.

Definition same_nameb (ci : bool) (a b : string) : bool :=
  if ci then bool_decide (str_lower a = str_lower b) else bool_decide (a = b).

Fixpoint gm (ci : bool) (ps cs : list string) : bool :=
  match ps with
  | [] => match cs with [] => true | _ => false end
  | p :: ps' =>
      if bool_decide (p = "**") then
        match ps' with
        | [] => match cs with [] => false | _ => true end
        | _ => existsb (gm ci ps') (suffixes cs)
        end
      else match cs with
           | [] => false
           | c :: cs' => same_nameb ci p c && gm ci ps' cs'
           end
  end.

#[global] Instance sample_globs : Globs (string * bool) (list (string * bool)) := {
  glob_build v ci := Some (v, ci);
  glob_match g s := gm g.2 (split_on slash g.1) (split_on slash s);
  globset_build gs := Some gs;
  globset_is_match gs s := existsb (λ g, gm g.2 (split_on slash g.1) (split_on slash s)) gs
}.

Lemma elem_of_suffixes {A} (l s : list A) : s ∈ suffixes l ↔ ∃ a, l = a ++ s.
Proof.
  induction l as [|x l IH]; simpl.
  - rw list_elem_of_singleton. split; [intros ->; by exists []|]. by intros [a [_ ?]%(eq_sym) %app_nil].
  - rw elem_of_cons IH. split.
    + intros [->|[a ->]]; [by exists []|by exists (x :: a)].
    + intros [[|y a] Ha]; simplify_eq/=; eauto.
Qed.

Lemma same_nameb_spec ci a b : same_nameb ci a b = true ↔ same_name ci a b.
Proof. unfold same_nameb, same_name. destruct ci; by rw bool_decide_eq_true. Qed.

Definition plain (ps : list string) : Prop := Forall (λ p, p ≠ "**") ps.

Lemma gm_plain ci ps cs : plain ps → gm ci ps cs = true ↔ same_names ci ps cs.
Proof.
  intros Hp. revert cs. induction Hp as [|p ps Hp _ IH]; intros cs; simpl.
  - destruct cs; [by split; [constructor|]|]. split; [done|]. by intros ?%Forall2_nil_inv_l.
  - rw bool_decide_false //. destruct cs as [|c cs].
    + split; [done|]. by intros ?%Forall2_nil_inv_r.
    + rw andb_true_iff same_nameb_spec IH. unfold same_names. by rw Forall2_cons.
Qed.

Lemma gm_plain_under ci ps cs : plain ps →
  gm ci (ps ++ ["**"]) cs = true ↔ ∃ top below, cs = top ++ below ∧ below ≠ [] ∧ same_names ci ps top.
Proof.
  intros Hp. revert cs. induction Hp as [|p ps Hp _ IH]; intros cs; cbn [gm app].
  - rw bool_decide_true //. destruct cs as [|c cs].
    + split; [done|]. intros (top & below & Ht & Hb & _). symmetry in Ht. by apply app_nil in Ht as [_ ->].
    + split; [|done]. intros _. exists [], (c :: cs). split; [done|]. split; [done|constructor].
  - rw bool_decide_false //. destruct cs as [|c cs].
    + split; [done|]. intros (top & below & Ht & Hb & _). symmetry in Ht. by apply app_nil in Ht as [_ ->].
    + rw andb_true_iff same_nameb_spec IH. split.
      * intros (Hc & top & below & -> & Hb & Ht). exists (c :: top), below. split; [done|]. split; [done|].
        by constructor.
      * intros (top & below & Heq & Hb & Ht). apply Forall2_cons_inv_l in Ht as (c' & top' & Hc & Ht & ->).
        simplify_eq/=. eauto 6.
Qed.

Lemma literal_plain p : literal p → plain (split_on slash p).
Proof.
  intros [Hs _]%Forall_cons. apply Forall_forall. intros q Hq ->.
  apply list_elem_of_split in Hq as (a & b & Hq). pose proof (join_split slash p) as Hj. rw Hq in Hj.
  assert (contains_char "*" (join_with slash (a ++ "**" :: b)) = true) as Hc; [|by rw Hj Hs in Hc].
  clear. induction a as [|x a IH]; simpl app.
  - destruct b; [done|]. rw join_cons // contains_char_app //.
  - rw join_cons; [|by destruct a]. rw contains_char_app. apply orb_true_iff. right. cbn [contains_char].
    rw IH. by destruct (bool_decide _).
Qed.

Lemma names_split cs : names cs → split_on slash (join_with slash cs) = cs.
Proof. intros [Hne H]. apply split_join; [done|]. eapply Forall_impl; [exact H|]. naive_solver. Qed.

#[global] Instance sample_laws : GlobLaws (string * bool) (list (string * bool)).
Proof.
  split.
  - intros gs set s [= <-]. done.
  - intros p ci g cs Hl _ Hcs [= <-]. simpl. rw names_split //. by apply gm_plain, literal_plain.
  - intros p ci g cs Hl _ Hcs [= <-]. cbn [glob_match sample_globs fst snd]. rw names_split //.
    change (p +:+ "/**") with (p +:+ String slash "**"). rw split_on_app_sep.
    by apply gm_plain_under, literal_plain.
  - intros p ci g cs Hl _ Hs Hcs [= <-]. cbn [glob_match sample_globs fst snd]. rw names_split //.
    change ("**/" +:+ p) with ("**" +:+ String slash p). rw split_on_app_sep (split_no_sep _ _ Hs).
    change (split_on slash "**") with ["**"]. cbn [app]. pose proof (literal_plain _ Hl) as Hp.
    rw (split_no_sep _ _ Hs) in Hp.
    assert (gm ci ["**"; p] cs = existsb (gm ci [p]) (suffixes cs)) as -> by done.
    rw existsb_true. split.
    + intros (s & [a ->]%elem_of_suffixes & Hm). apply (gm_plain ci [p]) in Hm; [|done].
      apply Forall2_cons_inv_l in Hm as (c & ? & ? & ?%Forall2_nil_inv_l & ->). subst. eauto.
    + intros (a & c & -> & Hc). exists [c]. split; [apply elem_of_suffixes; eauto|].
      apply (gm_plain ci [p]); [done|]. by constructor.
  - intros p ci g cs Hl _ Hs Hcs [= <-]. cbn [glob_match sample_globs fst snd]. rw names_split //.
    change ("**/" +:+ p +:+ "/**") with ("**" +:+ String slash (p +:+ String slash "**")).
    rw !split_on_app_sep (split_no_sep _ _ Hs).
    change (split_on slash "**") with ["**"]. cbn [app]. pose proof (literal_plain _ Hl) as Hp.
    rw (split_no_sep _ _ Hs) in Hp.
    assert (gm ci ["**"; p; "**"] cs = existsb (gm ci ([p] ++ ["**"])) (suffixes cs)) as -> by done.
    rw existsb_true. split.
    + intros (s & [a ->]%elem_of_suffixes & Hm).
      apply gm_plain_under in Hm as (top & below & -> & Hb & Ht); [|done].
      apply Forall2_cons_inv_l in Ht as (c & ? & ? & ?%Forall2_nil_inv_l & ->). subst.
      exists a, c, below. done.
    + intros (a & c & below & -> & Hb & Hc). exists (c :: below). split; [apply elem_of_suffixes; eauto|].
      apply gm_plain_under; [done|]. exists [c], below. split; [done|]. split; [done|]. by constructor.
Qed.

End Sample.

Lemma exclude_literal_spec_witness :
  (is_excluded (mkExcludeSet [("node_modules", false); ("node_modules/**", false);
     ("**/node_modules", false); ("**/node_modules/**", false)] false None)
     "app/node_modules" = true ↔
   ∃ p, p ∈ ["node_modules/"] ∧ pattern_hits false p ["app"; "node_modules"]) ∧
  (is_excluded (mkExcludeSet [("node_modules", false); ("node_modules/**", false);
     ("**/node_modules", false); ("**/node_modules/**", false)] false None)
     "app/node_modules" = true →
   ∀ more, names (["app"; "node_modules"] ++ more) →
   is_excluded (mkExcludeSet [("node_modules", false); ("node_modules/**", false);
     ("**/node_modules", false); ("**/node_modules/**", false)] false None)
     (join_with slash (["app"; "node_modules"] ++ more)) = true).
Proof.
  apply (exclude_literal_spec (G := Sample.sample_globs) (GL := Sample.sample_laws)
    ["node_modules/"] false
    (mkExcludeSet [("node_modules", false); ("node_modules/**", false);
     ("**/node_modules", false); ("**/node_modules/**", false)] false None)
    ["app"; "node_modules"]).
  - repeat constructor.
  - split; [done|]. repeat (constructor; [done|]). constructor.
  - vm_compute. reflexivity.
Defined.
