(* ===== verification/Coalesce.v ===== *)
(** * Coalesce: collapsing filesystem event storms

    [Coalescer] of alloyfs-common/src/coalesce.rs, shared by the agent's
    watcher and the sync engine's.  The notify crate's events are the
    inductive types below (the kinds the code tells apart); an absolute path
    is the list of its components, an [Instant] a number of nanoseconds passed
    in by the caller.  The theorems: per path, a batch reports the net effect
    of the raw events; a rename reported once, twice or three times is
    published once; nothing excluded is ever published; a batch is complete
    and ordered. *)

From S2P Require Import Prelude Messages.

(** ** Raw events *)

Inductive RenameMode : Type := RmAny | RmTo | RmFrom | RmBoth | RmOther.

Inductive NotifyKind : Type :=
| NkAny | NkAccess | NkCreate
| NkName (mode : RenameMode)    (* Modify(ModifyKind::Name(mode)) *)
| NkMetadata                    (* Modify(ModifyKind::Metadata(_)) *)
| NkModify                      (* Modify of any other kind *)
| NkRemove | NkOther.

Abbreviation AbsPath := (list string) (only parsing).

Record NotifyEvent : Type := mkNotify { nk : NotifyKind; nk_paths : list AbsPath }.

(** ** Paths *)

(** [Path::strip_prefix], component-wise. *)
Fixpoint strip_components (root abs : AbsPath) : option AbsPath :=
  match root, abs with
  | [], _ => Some abs
  | r :: root', a :: abs' => if decide (r = a) then strip_components root' abs' else None
  | _ :: _, [] => None
  end.

Definition rel_of (root abs : AbsPath) : option RelPath :=
  match strip_components root abs with
  | None => None
  | Some rel =>
      let s := join_with slash rel in
      if negb (utf8_valid s) then None
      else if str_is_empty s then None
      else Some (replace_char backslash slash s)
  end.

(** ** The coalescer *)

Record Pending : Type := mkPending { p_kind : EventKind; first_seen : Z }.
#[global] Instance Pending_eq_dec : EqDecision Pending.
Proof. solve_decision. Defined.

(** [exclude] is [ExcludeSet::is_excluded] of the coalescer's set. *)
Record Coalescer : Type := mkCoalescer {
  co_root : AbsPath;
  co_exclude : RelPath → bool;
  pending : gmap string Pending;
  renames : list (RelPath * RelPath);
  renamed_from : gset string;
  renamed_to : gset string
}.

Definition co_new (root : AbsPath) (exclude : RelPath → bool) : Coalescer :=
  mkCoalescer root exclude ∅ [] ∅ ∅.

Definition co_is_empty (c : Coalescer) : bool :=
  bool_decide (pending c = ∅) && match renames c with [] => true | _ => false end.

Definition co_len (c : Coalescer) : Z := Z.of_nat (size (pending c)) + Z.of_nat (length (renames c)).

(** [first_seen.elapsed()] at time [now]. *)
Definition elapsed (now : Z) (t : Z) : Z := Z.max 0 (now - t).

Definition oldest_age (c : Coalescer) (now : Z) : option Z :=
  map_fold (λ _ p acc, Some (match acc with
                             | None => elapsed now (first_seen p)
                             | Some a => Z.min a (elapsed now (first_seen p))
                             end)) None (pending c).

Definition merge (old : option EventKind) (new : EventKind) : option EventKind :=
  match old, new with
  | Some Created, (Modified | AttrChanged) => Some Created
  | Some Created, Removed => None
  | Some _, Removed => Some Removed
  | Some Removed, Created => Some Modified
  | Some AttrChanged, Modified => Some Modified
  | Some Modified, AttrChanged => Some Modified
  | _, (RenamedFrom _ | ResyncRequired) => Some new
  | Some old, _ => Some old
  | None, _ => Some new
  end.

Definition set_pending (c : Coalescer) (m : gmap string Pending) : Coalescer :=
  mkCoalescer (co_root c) (co_exclude c) m (renames c) (renamed_from c) (renamed_to c).

Definition push (now : Z) (c : Coalescer) (path : RelPath) (kind : EventKind) : Coalescer :=
  if co_exclude c path then c
  else match merge (p_kind <$> pending c !! path) kind with
  | Some kind =>
      let first := default now (first_seen <$> pending c !! path) in
      set_pending c (<[path := mkPending kind first]> (pending c))
  | None => set_pending c (delete path (pending c))
  end.

(** The loop [for p in &event.paths] of the one-kind arms. *)
Definition push_all (now : Z) (c : Coalescer) (paths : list AbsPath) (kind : EventKind) : Coalescer :=
  foldl (λ c p, match rel_of (co_root c) p with
                | Some rel => push now c rel kind
                | None => c
                end) c paths.

(** Remove [path]'s pending entry if it is exactly [kind]: the purge of a
    rename's halves. *)
Definition purge (m : gmap string Pending) (path : RelPath) (kind : EventKind) : gmap string Pending :=
  match m !! path with
  | Some p => if bool_decide (p_kind p = kind) then delete path m else m
  | None => m
  end.

Definition pair_rename (c : Coalescer) (f t : RelPath) : Coalescer :=
  let m := purge (purge (pending c) f Removed) t Created in
  mkCoalescer (co_root c) (co_exclude c) m (renames c ++ [(f, t)])
              ({[f]} ∪ renamed_from c) ({[t]} ∪ renamed_to c).

Definition ingest (now : Z) (c : Coalescer) (event : NotifyEvent) : Coalescer :=
  match nk event with
  | NkCreate => push_all now c (nk_paths event) Created
  | NkName mode =>
      match mode, nk_paths event with
      | RmBoth, [from; to] =>
          match rel_of (co_root c) from, rel_of (co_root c) to with
          | Some f, Some t =>
              match co_exclude c f, co_exclude c t with
              | true, true => c
              | true, false => push now c t Created
              | false, true => push now c f Removed
              | false, false => pair_rename c f t
              end
          | _, _ => c
          end
      | RmFrom, [from] =>
          match rel_of (co_root c) from with
          | Some f => if bool_decide (f ∈ renamed_from c) then c else push now c f Removed
          | None => c
          end
      | RmTo, [to] =>
          match rel_of (co_root c) to with
          | Some t => if bool_decide (t ∈ renamed_to c) then c else push now c t Created
          | None => c
          end
      | _, paths => push_all now c paths Modified
      end
  | NkMetadata => push_all now c (nk_paths event) AttrChanged
  | NkModify => push_all now c (nk_paths event) Modified
  | NkRemove => push_all now c (nk_paths event) Removed
  | NkAny | NkAccess | NkOther => c
  end.

(** [take_batch]: the batch, and the drained coalescer. *)
Definition purge_halves (m : gmap string Pending) (rn : list (RelPath * RelPath)) : gmap string Pending :=
  foldl (λ m ft, purge (purge m ft.1 Removed) ft.2 Created) m rn.

Definition take_batch (c : Coalescer) : list (RelPath * EventKind) * Coalescer :=
  let m := purge_halves (pending c) (renames c) in
  (((λ ft, (ft.1, RenamedFrom ft.2)) <$> renames c)
   ++ ((λ kp, (kp.1, p_kind kp.2)) <$> sorted_entries m),
   co_new (co_root c) (co_exclude c)).

(** ** Net effect of the events on one path *)

(** Whether the path exists after an event, if it may occur at all. *)
Definition alive_after (alive : bool) (k : EventKind) : option bool :=
  match k, alive with
  | Created, false => Some true
  | Removed, true => Some false
  | (Modified | AttrChanged), true => Some true
  | _, _ => None
  end.

(** A possible history of one path that starts with it existing or not. *)
Fixpoint history (alive : bool) (ks : list EventKind) : option bool :=
  match ks with
  | [] => Some alive
  | k :: ks' => match alive_after alive k with Some a => history a ks' | None => None end
  end.

(** What an observer of the two ends of the history should be told. *)
Definition net (before after : bool) (ks : list EventKind) : option EventKind :=
  match before, after with
  | false, true => Some Created
  | true, false => Some Removed
  | false, false => None
  | true, true => match ks with
                  | [] => None
                  | _ => if forallb (λ k, bool_decide (k = AttrChanged)) ks
                         then Some AttrChanged else Some Modified
                  end
  end.

Lemma history_snoc a ks k :
  history a (ks ++ [k]) = match history a ks with Some a' => alive_after a' k | None => None end.
Proof.
  revert a. induction ks as [|k' ks IH]; intros a; simpl; [by destruct (alive_after a k)|].
  by destruct (alive_after a k').
Qed.

Lemma merge_net a0 ks a1 : history a0 ks = Some a1 → foldl merge None ks = net a0 a1 ks.
Proof.
  revert a1. induction ks as [|k ks IH] using rev_ind; intros a1.
  { simpl. intros [= <-]. by destruct a0. }
  rw history_snoc. destruct (history a0 ks) as [a|]; [|done]. specialize (IH _ eq_refl).
  rw foldl_app IH. cbn [foldl]. unfold net.
  assert (∀ x, match ks ++ [k] with [] => None | _ => x end = (x : option EventKind)) as -> by (by destruct ks).
  rw forallb_app. cbn [forallb]. rw andb_true_r.
  destruct a0, a, k; simpl; intros; simplify_eq; try done.
  all: destruct ks as [|k' ks']; [done|]; by destruct (forallb _ (k' :: ks')).
Qed.

(** ** What one ingest does to one path *)

Definition kind_at (c : Coalescer) (q : RelPath) : option EventKind := p_kind <$> pending c !! q.

Lemma push_kind_at now c p k q :
  kind_at (push now c p k) q =
  if decide (q = p) then (if co_exclude c p then kind_at c q else merge (kind_at c q) k)
  else kind_at c q.
Proof.
  unfold push, kind_at. destruct (co_exclude c p); [by destruct (decide _)|].
  destruct (merge _ _) as [k'|] eqn:Em; simpl; destruct (decide (q = p)) as [->|Hne].
  - by rw lookup_insert_eq Em.
  - by rw lookup_insert_ne.
  - by rw lookup_delete_eq Em.
  - by rw lookup_delete_ne.
Qed.

Lemma push_frame now c p k :
  co_root (push now c p k) = co_root c ∧ co_exclude (push now c p k) = co_exclude c ∧
  renames (push now c p k) = renames c ∧
  renamed_from (push now c p k) = renamed_from c ∧ renamed_to (push now c p k) = renamed_to c.
Proof. unfold push. destruct (co_exclude c p); [done|]. by destruct (merge _ _). Qed.

(** The pushes of a path loop: the wire paths of the event, in order. *)
Definition rel_paths (root : AbsPath) (paths : list AbsPath) : list RelPath := omap (rel_of root) paths.

Lemma push_all_eq now c paths k :
  push_all now c paths k = foldl (λ c p, push now c p k) c (rel_paths (co_root c) paths).
Proof.
  unfold push_all, rel_paths. revert c. induction paths as [|p paths IH]; intros c; simpl; [done|].
  destruct (rel_of (co_root c) p) as [rel|] eqn:E; simpl; rw IH //.
  by destruct (push_frame now c rel k) as (-> & _).
Qed.

Lemma push_run_frame now k ps c :
  let c' := foldl (λ c p, push now c p k) c ps in
  co_root c' = co_root c ∧ co_exclude c' = co_exclude c ∧ renames c' = renames c ∧
  renamed_from c' = renamed_from c ∧ renamed_to c' = renamed_to c.
Proof.
  revert c. induction ps as [|p ps IH]; intros c; simpl; [done|].
  destruct (IH (push now c p k)) as (-> & -> & -> & -> & ->). apply push_frame.
Qed.

(** The events other than renames, with the pushes they make. *)
Definition plain_kind (n : NotifyKind) : option EventKind :=
  match n with
  | NkCreate => Some Created
  | NkMetadata => Some AttrChanged
  | NkModify => Some Modified
  | NkRemove => Some Removed
  | _ => None
  end.

Definition plain_event (ev : NotifyEvent) : Prop := is_Some (plain_kind (nk ev)).

(** The kinds an event pushes at [q]. *)
Definition kinds_at (root : AbsPath) (q : RelPath) (ev : NotifyEvent) : list EventKind :=
  match plain_kind (nk ev) with
  | Some k => (λ _, k) <$> base.filter (λ p, p = q) (rel_paths root (nk_paths ev))
  | None => []
  end.

Lemma push_run_kind_at now k ps c q :
  co_exclude c q = false →
  kind_at (foldl (λ c p, push now c p k) c ps) q =
  foldl merge (kind_at c q) ((λ _, k) <$> base.filter (λ p, p = q) ps).
Proof.
  revert c. induction ps as [|p ps IH]; intros c Hx; [done|]. cbn [foldl].
  destruct (push_frame now c p k) as (_ & He & _). rw IH; last by rw He.
  rw push_kind_at filter_cons. destruct (decide (q = p)) as [<-|Hne].
  - rw decide_True // fmap_cons /= Hx //.
  - by rw decide_False.
Qed.

Lemma ingest_plain now c ev k :
  plain_kind (nk ev) = Some k → ingest now c ev = foldl (λ c p, push now c p k) c (rel_paths (co_root c) (nk_paths ev)).
Proof. unfold ingest. rw -push_all_eq. destruct (nk ev); intros; by simplify_eq/=. Qed.

Definition ingest_all (c : Coalescer) (evs : list (Z * NotifyEvent)) : Coalescer :=
  foldl (λ c te, ingest te.1 c te.2) c evs.

Lemma ingest_all_plain root ex evs q :
  Forall (λ te, plain_event te.2) evs → ex q = false →
  let c := ingest_all (co_new root ex) evs in
  kind_at c q = foldl merge None (concat (kinds_at root q ∘ snd <$> evs)) ∧
  co_root c = root ∧ co_exclude c = ex ∧ renames c = [].
Proof.
  intros Hp Hx. cbn zeta. unfold ingest_all. induction evs as [|[now ev] evs IH] using rev_ind; [done|].
  apply Forall_app in Hp as [Hp [[k Hk] _]%Forall_cons]. specialize (IH Hp) as (IHk & IHr & IHe & IHn).
  rw foldl_app. cbn [foldl fst snd]. rw (ingest_plain _ _ _ _ Hk). simpl in Hk.
  set (c := foldl _ _ evs) in *. cbn [snd].
  destruct (push_run_frame now k (rel_paths (co_root c) (nk_paths ev)) c) as (-> & -> & -> & _).
  split; [|done]. rw push_run_kind_at; last by rw IHe. rw fmap_app concat_app foldl_app IHk.
  simpl. by rw app_nil_r /kinds_at Hk IHr.
Qed.

(** ** Batches *)

Lemma elem_of_batch c q k :
  (q, k) ∈ (take_batch c).1 ↔
  (∃ t, k = RenamedFrom t ∧ (q, t) ∈ renames c) ∨
  p_kind <$> purge_halves (pending c) (renames c) !! q = Some k.
Proof.
  unfold take_batch. cbn [fst]. rw elem_of_app !list_elem_of_fmap. split.
  - intros [([f t] & ? & ?)|([q' p] & ? & Hin)]; simplify_eq/=; [eauto|].
    right. apply elem_of_sorted_entries in Hin. by rw Hin.
  - intros [(t & -> & ?)|Hk]; [left; exists (q, t); eauto|right].
    destruct (purge_halves _ _ !! q) as [p|] eqn:E; simplify_eq/=. exists (q, p). split; [done|].
    by apply elem_of_sorted_entries.
Qed.

(** C33.  Per path, a batch of non-rename events reports the net effect of what
    happened to it: created, removed, modified or attributes only as an
    observer of the two ends would see it, and nothing when a path appeared
    and vanished within the batch.  [a0] and [a1] say whether the path existed
    before and after its events. *)
Theorem batch_reports_net_effect root ex evs q a0 a1 :
  Forall (λ te, plain_event te.2) evs → ex q = false →
  let ks := concat (kinds_at root q ∘ snd <$> evs) in
  history a0 ks = Some a1 →
  ∀ k, (q, k) ∈ (take_batch (ingest_all (co_new root ex) evs)).1 ↔ net a0 a1 ks = Some k.
Proof.
  intros Hp Hx. cbn zeta. intros Hh k. rw elem_of_batch.
  destruct (ingest_all_plain root ex evs q Hp Hx) as (Hk & _ & _ & Hn). rw Hn. simpl.
  fold (kind_at (ingest_all (co_new root ex) evs) q). rw Hk (merge_net _ _ _ Hh).
  split; [|by right]. intros [(t & _ & Hin)|]; [set_solver|done].
Qed.

Lemma batch_reports_net_effect_witness :
  ("a", Modified) ∈ (take_batch (ingest_all (co_new ["srv"] (λ _, false))
     [(1, mkNotify NkRemove [["srv"; "a"]]); (2, mkNotify NkCreate [["srv"; "a"]; ["srv"; "b"]])])).1.
Proof.
  apply (batch_reports_net_effect ["srv"] (λ _, false)
    [(1, mkNotify NkRemove [["srv"; "a"]]); (2, mkNotify NkCreate [["srv"; "a"]; ["srv"; "b"]])]
    "a" true true ltac:(repeat constructor; by eexists) eq_refl eq_refl Modified).
  reflexivity.
Defined.

(** ** Renames *)

Lemma purge_lookup m p k q :
  purge m p k !! q = if decide (q = p ∧ p_kind <$> m !! p = Some k) then None else m !! q.
Proof.
  unfold purge. destruct (m !! p) as [pe|] eqn:E; simpl.
  - case_bool_decide as Hk.
    + destruct (decide (q = p)) as [->|Hne].
      * rw decide_True; [apply lookup_delete_eq|]. split; congruence.
      * rw decide_False; [by apply lookup_delete_ne|]. naive_solver.
    + rw decide_False //. intros [-> ?]. naive_solver.
  - rw decide_False //. naive_solver.
Qed.

Lemma purge_sub m p k q pe : purge m p k !! q = Some pe → m !! q = Some pe.
Proof. rw purge_lookup. by destruct (decide _). Qed.

Lemma purge_gone m p k q pe : m !! q = Some pe → purge m p k !! q = None → q = p ∧ p_kind pe = k.
Proof. intros Hm. rw purge_lookup. destruct (decide _) as [[-> Hk]|]; [|congruence]. rw Hm in Hk. by simplify_eq/=. Qed.

(** The three reports of one rename. *)
Definition rename_reports (from to : AbsPath) : list NotifyEvent :=
  [mkNotify (NkName RmFrom) [from]; mkNotify (NkName RmTo) [to]; mkNotify (NkName RmBoth) [from; to]].

Lemma purge_none (m : gmap string Pending) p k : m !! p = None → purge m p k = m.
Proof. unfold purge. by intros ->. Qed.

Lemma purge_insert (m : gmap string Pending) p k now :
  m !! p = None → purge (<[p := mkPending k now]> m) p k = m.
Proof. intros Hn. unfold purge. rw lookup_insert_eq /= bool_decide_true //. by apply delete_insert_id. Qed.

Section OneRename.
Context (c : Coalescer) (from to : AbsPath) (f t : RelPath).
Context (Hf : rel_of (co_root c) from = Some f) (Ht : rel_of (co_root c) to = Some t).
Context (Hxf : co_exclude c f = false) (Hxt : co_exclude c t = false) (Hft : f ≠ t).

(** [c] with other pending entries. *)
Local Abbreviation at_ m := (set_pending c m).

Lemma ingest_from now m : f ∉ renamed_from c → m !! f = None →
  ingest now (at_ m) (mkNotify (NkName RmFrom) [from]) = at_ (<[f := mkPending Removed now]> m).
Proof using Hf Hxf. intros Hn Hm. unfold ingest. simpl. rw Hf bool_decide_false // /push /= Hxf Hm //. Qed.

Lemma ingest_to now m : t ∉ renamed_to c → m !! t = None →
  ingest now (at_ m) (mkNotify (NkName RmTo) [to]) = at_ (<[t := mkPending Created now]> m).
Proof using Ht Hxt. intros Hn Hm. unfold ingest. simpl. rw Ht bool_decide_false // /push /= Hxt Hm //. Qed.

Lemma ingest_both now m :
  ingest now (at_ m) (mkNotify (NkName RmBoth) [from; to]) = pair_rename (at_ m) f t.
Proof using Hf Ht Hxf Hxt. unfold ingest. simpl. by rw Hf Ht Hxf Hxt. Qed.

Lemma paired_from now m :
  ingest now (pair_rename (at_ m) f t) (mkNotify (NkName RmFrom) [from]) = pair_rename (at_ m) f t.
Proof using Hf. unfold ingest. simpl. rw Hf bool_decide_true //. apply elem_of_union. left. by apply elem_of_singleton. Qed.

Lemma paired_to now m :
  ingest now (pair_rename (at_ m) f t) (mkNotify (NkName RmTo) [to]) = pair_rename (at_ m) f t.
Proof using Ht. unfold ingest. simpl. rw Ht bool_decide_true //. apply elem_of_union. left. by apply elem_of_singleton. Qed.

(** Pairing forgets the halves that arrived before it. *)
Lemma pair_forgets_halves m X :
  m !! f = None → m !! t = None →
  (∀ q, q ≠ f → q ≠ t → X !! q = m !! q) →
  (X !! f = None ∨ p_kind <$> X !! f = Some Removed) →
  (X !! t = None ∨ p_kind <$> X !! t = Some Created) →
  pair_rename (at_ X) f t = pair_rename (at_ m) f t.
Proof using Hft.
  intros Hmf Hmt Hq HXf HXt. unfold pair_rename. simpl. f_equal.
  rw (purge_none m) // (purge_none m) //. apply map_eq. intros q.
  rw !purge_lookup. rw (decide_False (P := t = f ∧ _)); last naive_solver.
  destruct (decide (q = t)) as [->|Hqt].
  - rw Hmt. destruct HXt as [->|HXt]; [|by rw decide_True].
    by destruct (decide _); [|rw decide_False; naive_solver].
  - rw decide_False; last naive_solver. destruct (decide (q = f)) as [->|Hqf].
    + rw Hmf. destruct HXf as [HXf|HXf]; [rw HXf; by destruct (decide _)|by rw decide_True].
    + rw decide_False; last naive_solver. by apply Hq.
Qed.
End OneRename.

(** inotify reports one rename three times (From, To and Both), in an order
    that depends on the queue.  In every order of the three the coalescer ends
    in the same state: one paired rename, and no Removed or Created half of it
    left over. *)
Theorem rename_reported_once c from to f t evs n1 n2 n3 :
  rel_of (co_root c) from = Some f → rel_of (co_root c) to = Some t → f ≠ t →
  co_exclude c f = false → co_exclude c t = false →
  f ∉ renamed_from c → t ∉ renamed_to c → pending c !! f = None → pending c !! t = None →
  evs ∈ permutations (rename_reports from to) →
  ingest_all c (zip [n1; n2; n3] evs) = pair_rename c f t ∧
  renames (pair_rename c f t) = renames c ++ [(f, t)] ∧
  pending (pair_rename c f t) = pending c.
Proof.
  intros Hf Ht Hft Hxf Hxt Hnf Hnt Hpf Hpt Hevs. split; last first.
  { split; [done|]. unfold pair_rename. simpl. by rw !purge_none. }
  assert (c = set_pending c (pending c)) as Ec by (by destruct c). rw {1}Ec.
  assert (pair_rename c f t = pair_rename (set_pending c (pending c)) f t) as -> by (by rw -Ec).
  set (m := pending c) in *.
  assert (∀ X, (∀ q, q ≠ f → q ≠ t → X !! q = m !! q) →
    (X !! f = None ∨ p_kind <$> X !! f = Some Removed) →
    (X !! t = None ∨ p_kind <$> X !! t = Some Created) →
    pair_rename (set_pending c X) f t = pair_rename (set_pending c m) f t) as Hforget.
  { intros X. by apply pair_forgets_halves. }
  unfold rename_reports, permutations, interleave in Hevs. simpl in Hevs.
  rw !elem_of_cons elem_of_nil in Hevs.
  assert (Hif : ∀ now, <[t := mkPending Created now]> m !! f = None) by (intros; by rw lookup_insert_ne).
  assert (Hit : ∀ now, <[f := mkPending Removed now]> m !! t = None) by (intros; by rw lookup_insert_ne).
  destruct Hevs as [->|[->|[->|[->|[->|[->|[]]]]]]]; unfold ingest_all; cbn [zip zip_with foldl fst snd].
  all: repeat first
    [ rw (paired_from c from f t Hf) | rw (paired_to c to f t Ht)
    | rw (ingest_both c from to f t Hf Ht Hxf Hxt)
    | rw (ingest_from c from f Hf Hxf); [|done|by rw ?Hif]
    | rw (ingest_to c to t Ht Hxt); [|done|by rw ?Hit] ].
  all: first [done | apply Hforget;
    [ intros q Hqf Hqt; by repeat (rw lookup_insert_ne; [|congruence])
    | repeat (rw lookup_insert_ne; [|congruence]); rw ?lookup_insert_eq; by auto
    | repeat (rw lookup_insert_ne; [|congruence]); rw ?lookup_insert_eq; by auto ] ].
Qed.

Lemma rename_reported_once_witness :
  ingest_all (co_new ["srv"] (λ _, false)) (zip [1; 2; 3] (rename_reports ["srv"; "a"] ["srv"; "b"]))
  = pair_rename (co_new ["srv"] (λ _, false)) "a" "b" ∧
  renames (pair_rename (co_new ["srv"] (λ _, false)) "a" "b") = [("a", "b")] ∧
  pending (pair_rename (co_new ["srv"] (λ _, false)) "a" "b") = ∅.
Proof.
  apply (rename_reported_once (co_new ["srv"] (λ _, false)) ["srv"; "a"] ["srv"; "b"] "a" "b"
    (rename_reports ["srv"; "a"] ["srv"; "b"]) 1 2 3); try reflexivity; try done.
  simpl. set_solver.
Defined.

(** ** What never leaves the coalescer *)

Definition simple_kind (k : EventKind) : Prop :=
  k = Created ∨ k = Modified ∨ k = AttrChanged ∨ k = Removed.

(** Nothing excluded is pending or paired; pending kinds are not renames. *)
Record hidden_inv (ex : RelPath → bool) (c : Coalescer) : Prop := {
  hi_ex : co_exclude c = ex;
  hi_pending : ∀ q k, kind_at c q = Some k → ex q = false ∧ simple_kind k;
  hi_renames : ∀ f t, (f, t) ∈ renames c → ex f = false ∧ ex t = false
}.

Lemma merge_simple o k k' :
  (∀ k0, o = Some k0 → simple_kind k0) → simple_kind k → merge o k = Some k' → simple_kind k'.
Proof.
  intros Ho Hk Hm. unfold simple_kind in *. destruct o as [k0|]; [specialize (Ho _ eq_refl)|];
    naive_solver.
Qed.

Lemma push_hidden ex now c p k : simple_kind k → hidden_inv ex c → hidden_inv ex (push now c p k).
Proof.
  intros Hk [He Hp Hr]. destruct (push_frame now c p k) as (_ & E1 & E2 & _). split.
  - by rw E1.
  - intros q k'. rw push_kind_at. destruct (decide (q = p)) as [->|]; [|apply Hp].
    rw He. destruct (ex p) eqn:E; [intros Hm; exfalso; apply Hp in Hm as [? _]; congruence|]. intros Hm. split; [done|].
    eapply merge_simple; [|exact Hk|exact Hm]. intros k0 Hk0. by apply Hp in Hk0 as [_ ?].
  - rw E2. apply Hr.
Qed.

Lemma push_all_hidden ex now c paths k : simple_kind k → hidden_inv ex c → hidden_inv ex (push_all now c paths k).
Proof.
  intros Hk. rw push_all_eq. generalize (rel_paths (co_root c) paths). intros ps. revert c.
  induction ps as [|p ps IH]; intros c Hc; [done|]. by apply IH, push_hidden.
Qed.

Lemma pair_hidden ex c f t : ex f = false → ex t = false → hidden_inv ex c → hidden_inv ex (pair_rename c f t).
Proof.
  intros Hf Ht [He Hp Hr]. split; [done| |].
  - intros q k. unfold kind_at, pair_rename. simpl. destruct (purge _ t _ !! q) as [pe|] eqn:E; [|done].
    apply purge_sub, purge_sub in E. intros Hk. apply Hp. unfold kind_at. by rw E.
  - intros f' t' [?|[= -> ->]%list_elem_of_singleton]%elem_of_app; [by apply Hr|done].
Qed.

Create HintDb coalesce.
#[global] Hint Resolve push_hidden push_all_hidden : coalesce.
#[global] Hint Extern 1 (simple_kind _) => unfold simple_kind; tauto : coalesce.

Lemma ingest_hidden ex now c ev : hidden_inv ex c → hidden_inv ex (ingest now c ev).
Proof.
  intros Hc. pose proof (hi_ex _ _ Hc) as He. unfold ingest.
  destruct (nk ev) as [| | |mode| | | |]; eauto with coalesce.
  destruct mode, (nk_paths ev) as [|p1 [|p2 [|]]]; eauto with coalesce.
  - destruct (rel_of _ p1); [|done]. case_bool_decide; eauto with coalesce.
  - destruct (rel_of _ p1); [|done]. case_bool_decide; eauto with coalesce.
  - destruct (rel_of _ p1) as [f|]; [|done]. destruct (rel_of _ p2) as [t|]; [|done].
    destruct (co_exclude c f) eqn:Ef; destruct (co_exclude c t) eqn:Et; eauto with coalesce.
    rw He in Ef. rw He in Et. by apply pair_hidden.
Qed.

Lemma ingest_all_hidden root ex evs : hidden_inv ex (ingest_all (co_new root ex) evs).
Proof.
  unfold ingest_all. assert (hidden_inv ex (co_new root ex)) as H0.
  { split; [done|done|]. intros f t. simpl. set_solver. }
  revert H0. generalize (co_new root ex). induction evs as [|te evs IH]; intros c Hc; [done|].
  by apply IH, ingest_hidden.
Qed.

Lemma purge_halves_lookup m rn q p : purge_halves m rn !! q = Some p → m !! q = Some p.
Proof.
  revert m. induction rn as [|[f t] rn IH]; intros m; [done|]. simpl. intros H%IH.
  by apply purge_sub, purge_sub in H.
Qed.

(** Nothing the exclude set hides ever leaves the coalescer, whatever raw
    events came in: no published path is excluded, and neither end of a
    published rename is. *)
Theorem batch_never_excluded root ex evs q k :
  (q, k) ∈ (take_batch (ingest_all (co_new root ex) evs)).1 →
  ex q = false ∧ (∀ t, k = RenamedFrom t → ex t = false).
Proof.
  pose proof (ingest_all_hidden root ex evs) as [He Hp Hr]. rw elem_of_batch.
  intros [(t & -> & Hin)|Hk].
  - apply Hr in Hin as [? ?]. split; [done|]. by intros t' [= <-].
  - destruct (purge_halves _ _ !! q) as [p|] eqn:E; [|done]. simpl in Hk. apply purge_halves_lookup in E.
    destruct (Hp q k) as [Hq Hs]. { unfold kind_at. by rw E. }
    split; [done|]. intros t ->. unfold simple_kind in Hs. naive_solver.
Qed.

Lemma batch_never_excluded_witness : bool_decide ("a" = "b") = false ∧ (∀ t, Removed = RenamedFrom t → bool_decide (t = "b") = false).
Proof.
  apply (batch_never_excluded ["srv"] (λ p, bool_decide (p = "b"))
    [(1, mkNotify (NkName RmBoth) [["srv"; "a"]; ["srv"; "b"]])] "a" Removed).
  vm_compute. constructor.
Defined.

(** ** Batches are complete and ordered *)

(** A batch holds the paired renames in the order they happened, then every
    other pending path exactly once in ascending byte order (a directory
    before what is below it), and leaves the coalescer empty. *)
Theorem take_batch_complete c :
  let '(batch, c') := take_batch c in
  ∃ rest, batch = ((λ ft, (ft.1, RenamedFrom ft.2)) <$> renames c) ++ rest ∧
    StronglySorted key_le rest ∧ NoDup rest.*1 ∧
    (∀ q k, kind_at c q = Some k →
       (q, k) ∈ rest ∨
       (∃ t, (q, t) ∈ renames c ∧ k = Removed) ∨ (∃ f, (f, q) ∈ renames c ∧ k = Created)) ∧
    co_is_empty c' = true ∧ renamed_from c' = ∅ ∧ renamed_to c' = ∅.
Proof.
  unfold take_batch. set (m := purge_halves (pending c) (renames c)).
  eexists. split; [done|]. split; [|split; [|split; [|done]]].
  - assert (∀ l : list (string * Pending), StronglySorted key_le l →
      StronglySorted key_le ((λ kp, (kp.1, p_kind kp.2)) <$> l)) as H; [|apply H, sorted_entries_sorted].
    intros l. induction 1 as [|x l _ IH Hx]; [constructor|]. simpl. constructor; [done|].
    apply Forall_fmap. eapply Forall_impl; [exact Hx|]. done.
  - rw -list_fmap_compose. apply (sorted_entries_nodup m).
  - intros q k Hk. unfold kind_at in Hk. destruct (pending c !! q) as [p|] eqn:E; simplify_eq/=.
    assert (m !! q = Some p ∨ (∃ t, (q, t) ∈ renames c ∧ p_kind p = Removed)
            ∨ (∃ f, (f, q) ∈ renames c ∧ p_kind p = Created)) as [Hm|]; [|left|by right].
    { subst m. generalize dependent (pending c). generalize (renames c). clear.
      induction l as [|[f t] rn IH]; intros m E; [by left|]. simpl.
      destruct (purge (purge m f Removed) t Created !! q) as [p'|] eqn:E'.
      - assert (p' = p) as ->. { apply purge_sub, purge_sub in E'. congruence. }
        destruct (IH (purge (purge m f Removed) t Created) E') as [?|[(t' & ? & ?)|(f' & ? & ?)]].
        + by left.
        + right; left. exists t'. set_solver.
        + right; right. exists f'. set_solver.
      - destruct (purge m f Removed !! q) as [p'|] eqn:E2.
        + apply purge_sub in E2 as ?. simplify_eq. destruct (purge_gone _ _ _ _ _ E2 E') as [-> ->].
          right; right. exists f. set_solver.
        + destruct (purge_gone _ _ _ _ _ E E2) as [-> ->]. right; left. exists t. set_solver. }
    apply list_elem_of_fmap. exists (q, p). split; [done|]. by apply elem_of_sorted_entries.
Qed.

(** ** Pacing *)

(** [oldest_age] answers the age of the pending change that arrived last, not
    first: it is the minimum of the ages.  As long as new paths keep arriving
    it stays near zero, however long the first change has waited. *)
Theorem oldest_age_is_youngest c now :
  match oldest_age c now with
  | None => pending c = ∅
  | Some age =>
      (∃ q p, pending c !! q = Some p ∧ age = elapsed now (first_seen p)) ∧
      (∀ q p, pending c !! q = Some p → age ≤ elapsed now (first_seen p))
  end.
Proof.
  unfold oldest_age. apply (map_fold_weak_ind (λ r m, match r with
    | None => m = ∅
    | Some age => (∃ q p, m !! q = Some p ∧ age = elapsed now (first_seen p)) ∧
                  (∀ q p, m !! q = Some p → age ≤ elapsed now (first_seen p)) end)); [done|].
  intros q p m [age|] Hm IH; simpl.
  - destruct IH as [(q0 & p0 & Hq0 & Ha) Hmin]. split.
    + destruct (Z.min_spec age (elapsed now (first_seen p))) as [[_ ->]|[_ ->]].
      * exists q0, p0. rw lookup_insert_ne //. congruence.
      * exists q, p. by rw lookup_insert_eq.
    + intros q' p' [[<- <-]|[Hne Hl]]%lookup_insert_Some; [lia|]. specialize (Hmin _ _ Hl). lia.
  - subst m. split; [exists q, p; by rw lookup_insert_eq|].
    intros q' p' [[<- <-]|[_ Hl]]%lookup_insert_Some; [lia|by rw lookup_empty in Hl].
Qed.
