(* ===== verification/Locks.v ===== *)
(** * Locks: whole-file advisory locks

    [LockManager] of alloyfs-agent/src/locks.rs.  Every public method runs
    under one mutex, so it is a function on the map of entries; the part of
    [lock] between two awaits -- one turn of its loop -- is [lock_turn].  A
    [oneshot] channel is its number: sending on it or dropping its sender both
    make the parked caller run another turn ([let _ = rx.await]).  The second
    half of the file is the transition system of many callers interleaving on
    one manager, with the invariants that hold in every reachable state. *)

From S2P Require Import Prelude Messages.

Record Holder : Type := mkHolder { h_session : Z; h_fh : Z; h_kind : LockKind }.
#[global] Instance Holder_eq_dec : EqDecision Holder.
Proof. solve_decision. Defined.

Record Waiter : Type := mkWaiter { w_session : Z; w_kind : LockKind; w_wake : Z }.
#[global] Instance Waiter_eq_dec : EqDecision Waiter.
Proof. solve_decision. Defined.

Record Entry : Type := mkEntry { holders : list Holder; waiters : list Waiter }.
#[global] Instance Entry_eq_dec : EqDecision Entry.
Proof. solve_decision. Defined.

(** [Entry::default()]. *)
Definition entry_default : Entry := mkEntry [] [].

(** [LockManager]: its map of entries (the mutex is implicit in each method
    being one step). *)
Abbreviation LockManager := (gmap string Entry).

Definition is_shared (h : Holder) : bool := bool_decide (h_kind h = Shared).

Definition compatible (e : Entry) (kind : LockKind) : bool :=
  match kind with
  | Shared => forallb is_shared (holders e)
  | Exclusive => match holders e with [] => true | _ => false end
  end.

(** The closure of [entry.holders.retain]: keep what is not ours. *)
Definition not_ours (session fh : Z) (h : Holder) : bool :=
  negb (bool_decide (h_session h = session) && bool_decide (h_fh h = fh)).

Definition retain {A} (f : A → bool) (l : list A) : list A := base.filter (λ x, f x = true) l.

(** The outcome of one turn of [lock]'s loop: return, or park on the channel
    just queued. *)
Inductive Turn : Type :=
| Done (r : result unit ErrorCode)
| Park (channel : Z).
#[global] Instance Turn_eq_dec : EqDecision Turn.
Proof. solve_decision. Defined.

(** One turn of [LockManager::lock]; [channel] is the fresh oneshot channel. *)
Definition lock_turn (lm : LockManager) (path : RelPath) (session fh : Z)
    (kind : LockKind) (wait : bool) (channel : Z) : Turn * LockManager :=
  let entry := default entry_default (lm !! path) in
  let entry := mkEntry (retain (not_ours session fh) (holders entry)) (waiters entry) in
  if compatible entry kind then
    (Done (Ok tt),
     <[path := mkEntry (holders entry ++ [mkHolder session fh kind]) (waiters entry)]> lm)
  else if negb wait then (Done (Err WouldBlock), <[path := entry]> lm)
  else (Park channel,
        <[path := mkEntry (holders entry) (waiters entry ++ [mkWaiter session kind channel])]> lm).

(** [wake_waiters]: the queue left over and the channels signalled, in order.
    Recursion on the queue is the [while let] loop: every turn pops. *)
Fixpoint wake_loop (hs : list Holder) (ws : list Waiter) : list Waiter * list Z :=
  match ws with
  | [] => ([], [])
  | front :: rest =>
      if compatible (mkEntry hs ws) (w_kind front) then
        if bool_decide (w_kind front = Exclusive) then (rest, [w_wake front])
        else let '(ws', woken) := wake_loop hs rest in (ws', w_wake front :: woken)
      else (ws, [])
  end.

Definition wake_waiters (e : Entry) : Entry * list Z :=
  let '(ws, woken) := wake_loop (holders e) (waiters e) in (mkEntry (holders e) ws, woken).

(** [holders.is_empty() && waiters.is_empty()]. *)
Definition entry_is_empty (e : Entry) : bool :=
  match holders e, waiters e with [], [] => true | _, _ => false end.

(** [LockManager::unlock]: the manager and the channels signalled. *)
Definition unlock (lm : LockManager) (path : RelPath) (session fh : Z) : LockManager * list Z :=
  match lm !! path with
  | None => (lm, [])
  | Some entry =>
      let entry := mkEntry (retain (not_ours session fh) (holders entry)) (waiters entry) in
      let '(entry, woken) := wake_waiters entry in
      (if entry_is_empty entry then delete path lm else <[path := entry]> lm, woken)
  end.

(** The closure [release_session] runs on each entry: the entry kept or
    dropped, the locks released, the channels signalled, and the channels
    whose sender the removal drops. *)
Record Released : Type := mkReleased {
  rl_entry : option Entry; rl_count : Z; rl_woken : list Z; rl_dropped : list Z
}.

Definition release_entry (session : Z) (entry : Entry) : Released :=
  let before := length (holders entry) in
  let hs := retain (λ h, negb (bool_decide (h_session h = session))) (holders entry) in
  let ws := retain (λ w, negb (bool_decide (w_session w = session))) (waiters entry) in
  let gone := retain (λ w, bool_decide (w_session w = session)) (waiters entry) in
  let '(entry', woken) := wake_waiters (mkEntry hs ws) in
  mkReleased (if entry_is_empty entry' then None else Some entry')
             (Z.of_nat before - Z.of_nat (length hs)) woken (w_wake <$> gone).

(** [LockManager::release_session]: how many locks were released, the
    manager, and the channels that resolve (signalled or dropped). *)
Definition release_session (lm : LockManager) (session : Z) : Z * LockManager * list Z :=
  let rs := release_entry session <$> lm in
  (map_fold (λ _ r acc, rl_count r + acc) 0 rs,
   omap rl_entry rs,
   map_fold (λ _ r acc, (rl_woken r ++ rl_dropped r) ++ acc) [] rs).

(** ** Many callers on one manager *)

(** A caller parked in [lock] (always with [wait: true]). *)
Record Call : Type := mkCall { c_path : RelPath; c_session : Z; c_fh : Z; c_kind : LockKind }.

(** [parked] callers await their channel; [ready] ones have it resolved and
    will run another turn of the loop. *)
Record Sys : Type := mkSys {
  mgr : LockManager; parked : gmap Z Call; ready : gmap Z Call; next_channel : Z
}.

Definition sys_init : Sys := mkSys ∅ ∅ ∅ 0.

(** One turn of [lock] by a caller, and its outcome if it returned. *)
Definition sys_turn (sys : Sys) (c : Call) (wait : bool) : option (result unit ErrorCode) * Sys :=
  let ch := next_channel sys in
  match lock_turn (mgr sys) (c_path c) (c_session c) (c_fh c) (c_kind c) wait ch with
  | (Done r, lm) => (Some r, mkSys lm (parked sys) (ready sys) (ch + 1))
  | (Park ch', lm) => (None, mkSys lm (<[ch' := c]> (parked sys)) (ready sys) (ch + 1))
  end.

(** A parked caller whose channel resolved runs its next turn. *)
Definition sys_retry (sys : Sys) (ch : Z) : option (option (result unit ErrorCode) * Sys) :=
  match ready sys !! ch with
  | None => None
  | Some c => Some (sys_turn (mkSys (mgr sys) (parked sys) (delete ch (ready sys)) (next_channel sys)) c true)
  end.

(** The channels in [chs] resolve: their callers become ready. *)
Definition resolve (sys : Sys) (chs : list Z) : Sys :=
  mkSys (mgr sys)
        (base.filter (λ kc, kc.1 ∉ chs) (parked sys))
        (base.filter (λ kc, kc.1 ∈ chs) (parked sys) ∪ ready sys)
        (next_channel sys).

Definition sys_unlock (sys : Sys) (path : RelPath) (session fh : Z) : Sys :=
  let '(lm, woken) := unlock (mgr sys) path session fh in
  resolve (mkSys lm (parked sys) (ready sys) (next_channel sys)) woken.

Definition sys_release (sys : Sys) (session : Z) : Sys :=
  let '(_, lm, resolved) := release_session (mgr sys) session in
  resolve (mkSys lm (parked sys) (ready sys) (next_channel sys)) resolved.

Inductive step : Sys → Sys → Prop :=
| step_lock sys c wait : step sys (sys_turn sys c wait).2
| step_retry sys ch r sys' : sys_retry sys ch = Some (r, sys') → step sys sys'
| step_unlock sys path session fh : step sys (sys_unlock sys path session fh)
| step_release sys session : step sys (sys_release sys session).

Definition reachable (sys : Sys) : Prop := rtc step sys_init sys.

(** ** Facts about one entry *)

(** At most one exclusive holder, and then nobody else. *)
Definition excl_ok (hs : list Holder) : Prop :=
  Forall (λ h, h_kind h = Shared) hs ∨ ∃ h, hs = [h].

Definition keys (hs : list Holder) : list (Z * Z) := (λ h, (h_session h, h_fh h)) <$> hs.

Lemma retain_Forall {A} (P : A → Prop) f l : Forall P l → Forall P (retain f l).
Proof. intros Hl. apply Forall_forall. intros x Hx. unfold retain in Hx. apply list_elem_of_filter in Hx as [_ Hx]. by eapply Forall_forall. Qed.

Lemma retain_sublist {A} f (l : list A) : sublist (retain f l) l.
Proof. apply sublist_filter. Qed.

Lemma elem_of_retain {A} f (l : list A) x : x ∈ retain f l ↔ f x = true ∧ x ∈ l.
Proof. unfold retain. by rw list_elem_of_filter. Qed.

Lemma excl_ok_sublist hs hs' : sublist hs' hs → excl_ok hs → excl_ok hs'.
Proof.
  intros Hsub [Hall|[h ->]].
  - left. apply Forall_forall. intros h Hh. eapply Forall_forall in Hall; [done|].
    eapply sublist_subseteq in Hsub. by apply Hsub.
  - apply sublist_cons_r in Hsub as [Hs|(hs'' & -> & Hs)].
    + apply sublist_nil_r in Hs as ->. left. constructor.
    + apply sublist_nil_r in Hs as ->. right. by exists h.
Qed.

Lemma keys_sublist hs hs' : sublist hs' hs → NoDup (keys hs) → NoDup (keys hs').
Proof. intros Hsub Hn. eapply sublist_NoDup; [done|]. by apply fmap_sublist. Qed.

Lemma compatible_excl_ok e s fh k :
  compatible e k = true → excl_ok (holders e ++ [mkHolder s fh k]).
Proof.
  destruct k; simpl.
  - intros Hall. left. apply Forall_app_2; [|by apply Forall_singleton].
    apply Forall_forall. intros h Hh. rw forallb_forall in Hall.
    by apply (bool_decide_eq_true _), Hall, list_elem_of_In.
  - destruct (holders e); [|done]. intros _. right. by eexists.
Qed.

Lemma not_ours_keys s fh hs : (s, fh) ∉ keys (retain (not_ours s fh) hs).
Proof.
  intros (h & Heq & Hh)%list_elem_of_fmap. apply elem_of_retain in Hh as [Hn _].
  unfold not_ours in Hn. simplify_eq. by rw !bool_decide_true in Hn.
Qed.

Lemma incompatible_nonempty e k : compatible e k = false → holders e ≠ [].
Proof. destruct k; simpl; by destruct (holders e). Qed.

(** [wake_loop] pops a prefix of the queue, and never nothing when the lock is
    free. *)
Lemma wake_loop_spec hs ws ws' woken :
  wake_loop hs ws = (ws', woken) →
  ∃ popped, ws = popped ++ ws' ∧ woken = w_wake <$> popped ∧ (hs = [] → ws' ≠ [] → popped ≠ []).
Proof.
  revert ws' woken. induction ws as [|w ws IH]; intros ws' woken; simpl.
  - intros [= <- <-]. by exists [].
  - destruct (compatible _ _) eqn:Ec.
    + case_bool_decide; [intros [= <- <-]; by exists [w]|].
      destruct (wake_loop hs ws) as [ws1 wk] eqn:Ew. intros [= <- <-].
      destruct (IH _ _ eq_refl) as (popped & -> & -> & _). by exists (w :: popped).
    + intros [= <- <-]. exists []. split; [done|]. split; [done|]. intros ->.
      by destruct (w_kind w).
Qed.

(** ** The invariant *)

(** A waiter of the entry at [p] stands for the parked caller on its
    channel. *)
Definition waiter_ok (sys : Sys) (p : RelPath) (w : Waiter) : Prop :=
  ∃ c, parked sys !! w_wake w = Some c ∧
       c_path c = p ∧ c_session c = w_session w ∧ c_kind c = w_kind w.

Record entry_inv (sys : Sys) (p : RelPath) (e : Entry) : Prop := {
  ei_excl : excl_ok (holders e);
  ei_keys : NoDup (keys (holders e));
  ei_waiters : ∀ w, w ∈ waiters e → waiter_ok sys p w;
  ei_channels : NoDup (w_wake <$> waiters e);
  ei_nonempty : entry_is_empty e = false
}.

(** A queue is never stranded: somebody holds the lock (and will wake it), or
    a woken caller of that path is about to run. *)
Definition live (sys : Sys) (p : RelPath) (e : Entry) : Prop :=
  waiters e ≠ [] → holders e ≠ [] ∨ ∃ ch c, ready sys !! ch = Some c ∧ c_path c = p.

(** [but] excuses one path from liveness: the path of a woken caller between
    leaving [ready] and the end of its turn. *)
Record lock_inv_but (but : option RelPath) (sys : Sys) : Prop := {
  li_entries : ∀ p e, mgr sys !! p = Some e → entry_inv sys p e;
  li_live : ∀ p e, mgr sys !! p = Some e → but ≠ Some p → live sys p e;
  li_parked : ∀ ch c, parked sys !! ch = Some c →
    ∃ e w, mgr sys !! c_path c = Some e ∧ w ∈ waiters e ∧ w_wake w = ch;
  li_fresh : ∀ ch, is_Some (parked sys !! ch) ∨ is_Some (ready sys !! ch) → ch < next_channel sys;
  li_apart : ∀ ch c, parked sys !! ch = Some c → ready sys !! ch = None
}.
Abbreviation lock_inv := (lock_inv_but None).

Lemma entry_nonempty e : holders e ≠ [] → entry_is_empty e = false.
Proof. unfold entry_is_empty. by destruct (holders e). Qed.

(** An entry only looks at the parked callers its waiters name. *)
Lemma entry_inv_callers sys sys' p e :
  entry_inv sys p e →
  (∀ w, w ∈ waiters e → parked sys' !! w_wake w = parked sys !! w_wake w) →
  entry_inv sys' p e.
Proof.
  intros [H1 H2 H3 H4 H6] Hpk. split; try done.
  intros w Hw. destruct (H3 w Hw) as (c & Hc & ?). exists c. by rw Hpk.
Qed.

(** *** A turn of [lock] *)

(** The entry a turn leaves at the path it is about. *)
Definition turn_entry (lm : LockManager) (c : Call) (wait : bool) (ch : Z) : Entry :=
  let e0 := default entry_default (lm !! c_path c) in
  let e := mkEntry (retain (not_ours (c_session c) (c_fh c)) (holders e0)) (waiters e0) in
  if compatible e (c_kind c)
  then mkEntry (holders e ++ [mkHolder (c_session c) (c_fh c) (c_kind c)]) (waiters e)
  else if negb wait then e
  else mkEntry (holders e) (waiters e ++ [mkWaiter (c_session c) (c_kind c) ch]).

Lemma lock_turn_mgr lm c wait ch :
  (lock_turn lm (c_path c) (c_session c) (c_fh c) (c_kind c) wait ch).2
  = <[c_path c := turn_entry lm c wait ch]> lm.
Proof. unfold lock_turn, turn_entry. by repeat case_match. Qed.

Lemma turn_entry_holders lm c wait ch :
  (∀ e, lm !! c_path c = Some e → excl_ok (holders e) ∧ NoDup (keys (holders e))) →
  let e := turn_entry lm c wait ch in
  excl_ok (holders e) ∧ NoDup (keys (holders e)) ∧ holders e ≠ [].
Proof.
  intros Hlm. set (e0 := default entry_default (lm !! c_path c)).
  assert (excl_ok (holders e0) ∧ NoDup (keys (holders e0))) as [Hex Hnd].
  { unfold e0. destruct (lm !! c_path c) as [e|] eqn:E; [by apply Hlm|].
    split; [by left|constructor]. }
  set (hs := retain (not_ours (c_session c) (c_fh c)) (holders e0)).
  assert (excl_ok hs) by (eapply excl_ok_sublist; [apply retain_sublist|done]).
  assert (NoDup (keys hs)) by (eapply keys_sublist; [apply retain_sublist|done]).
  unfold turn_entry. fold e0. fold hs. destruct (compatible _ _) eqn:Ec.
  - simpl. split; [by eapply (compatible_excl_ok (mkEntry hs (waiters e0)))|].
    split; [|by destruct hs]. unfold keys. rw fmap_app NoDup_app. split; [done|].
    split; [|apply NoDup_singleton]. simpl. intros k Hk Hk'.
    apply list_elem_of_singleton in Hk'. subst k. by apply not_ours_keys in Hk.
  - apply incompatible_nonempty in Ec. by case_match.
Qed.

Lemma turn_entry_waiters lm c wait ch :
  waiters (turn_entry lm c wait ch) =
  waiters (default entry_default (lm !! c_path c)) ++
  match (lock_turn lm (c_path c) (c_session c) (c_fh c) (c_kind c) wait ch).1 with
  | Done _ => []
  | Park _ => [mkWaiter (c_session c) (c_kind c) ch]
  end.
Proof. unfold turn_entry, lock_turn. repeat case_match; simpl; by rw ?app_nil_r. Qed.

Lemma lock_turn_park lm p s fh k wait ch ch' lm' :
  lock_turn lm p s fh k wait ch = (Park ch', lm') → ch' = ch.
Proof. unfold lock_turn. repeat case_match; intros; by simplify_eq. Qed.

(** The state after a turn, with the outcome folded into the parked map. *)
Lemma sys_turn_eq sys c wait :
  (sys_turn sys c wait).2 =
  mkSys (<[c_path c := turn_entry (mgr sys) c wait (next_channel sys)]> (mgr sys))
        (match (lock_turn (mgr sys) (c_path c) (c_session c) (c_fh c) (c_kind c) wait (next_channel sys)).1 with
         | Done _ => parked sys
         | Park _ => <[next_channel sys := c]> (parked sys)
         end)
        (ready sys) (next_channel sys + 1).
Proof.
  unfold sys_turn. pose proof (lock_turn_mgr (mgr sys) c wait (next_channel sys)) as Hm.
  destruct (lock_turn _ _ _ _ _ _ _) as [[r|ch'] lm] eqn:E; simpl in *; subst; [done|].
  apply lock_turn_park in E as ->. done.
Qed.

Section Turn.
Context (but : option RelPath) (sys : Sys) (c : Call) (wait : bool).
Context (Hinv : lock_inv_but but sys).
#[local] Abbreviation ch := (next_channel sys).
#[local] Abbreviation tu :=
  (lock_turn (mgr sys) (c_path c) (c_session c) (c_fh c) (c_kind c) wait ch).1 (only parsing).
Definition turn_parked : gmap Z Call := match tu with Done _ => parked sys | Park _ => <[ch := c]> (parked sys) end.

Lemma turn_fresh : parked sys !! ch = None.
Proof using Hinv.
  apply eq_None_not_Some. intros Hs. pose proof (li_fresh _ _ Hinv ch (or_introl Hs)). lia.
Qed.

Lemma turn_parked_old x d : parked sys !! x = Some d → turn_parked !! x = Some d.
Proof using Hinv.
  intros Hx. pose proof turn_fresh. unfold turn_parked. destruct tu; [done|]. rw lookup_insert_ne //. congruence.
Qed.

Lemma turn_parked_inv x d : turn_parked !! x = Some d →
  parked sys !! x = Some d ∨ (∃ y, tu = Park y) ∧ x = ch ∧ d = c.
Proof using.
  unfold turn_parked. intros Hx. destruct tu; [by left|]. apply lookup_insert_Some in Hx.
  destruct Hx as [[<- <-]|[_ ?]]; [right; eauto|by left].
Qed.

(** The entry the turn leaves is in order. *)
Lemma turn_entry_inv : entry_inv (sys_turn sys c wait).2 (c_path c) (turn_entry (mgr sys) c wait ch).
Proof using Hinv.
  pose proof (turn_entry_holders (mgr sys) c wait ch) as Hte. cbn zeta in Hte.
  destruct Hte as (Hex & Hnd & Hne). { intros e He. by destruct (li_entries _ _ Hinv _ _ He). }
  pose proof (turn_entry_waiters (mgr sys) c wait ch) as Hws.
  assert (∀ w, w ∈ waiters (default entry_default (mgr sys !! c_path c)) → waiter_ok sys (c_path c) w) as Hold.
  { destruct (mgr sys !! c_path c) as [e|] eqn:E; simpl; [|set_solver].
    intros w. apply (ei_waiters _ _ _ (li_entries _ _ Hinv _ _ E)). }
  rw sys_turn_eq. fold turn_parked. split; simpl; [done|done| | |by apply entry_nonempty].
  - intros w. rw Hws elem_of_app. intros [Hw|Hw].
    + destruct (Hold _ Hw) as (d & Hd & ?). exists d. split; [by apply turn_parked_old|done].
    + unfold turn_parked. destruct tu; [set_solver|]. apply list_elem_of_singleton in Hw as ->.
      exists c. simpl. by rw lookup_insert_eq.
  - rw Hws fmap_app NoDup_app. split; [|split].
    + destruct (mgr sys !! c_path c) as [e|] eqn:E; simpl; [|constructor].
      apply (ei_channels _ _ _ (li_entries _ _ Hinv _ _ E)).
    + intros x (w & -> & Hw)%list_elem_of_fmap. pose proof turn_fresh. destruct tu; [set_solver|]. simpl.
      intros Heq%list_elem_of_singleton. destruct (Hold _ Hw) as (d & Hd & _). congruence.
    + destruct tu; [constructor|apply NoDup_singleton].
Qed.

(** Every parked caller is still queued. *)
Lemma turn_queued x d : turn_parked !! x = Some d →
  ∃ e w, <[c_path c := turn_entry (mgr sys) c wait ch]> (mgr sys) !! c_path d = Some e ∧ w ∈ waiters e ∧ w_wake w = x.
Proof using Hinv.
  intros [Hx|((y & Htu) & -> & ->)]%turn_parked_inv.
  - destruct (li_parked _ _ Hinv _ _ Hx) as (e & w & He & Hw & Hwx).
    destruct (decide (c_path d = c_path c)) as [Heq|]; [|rw lookup_insert_ne //; eauto].
    rw Heq lookup_insert_eq. eexists _, w. split; [done|]. split; [|done].
    rw turn_entry_waiters -Heq He /=. apply elem_of_app. by left.
  - rw lookup_insert_eq. eexists _, (mkWaiter (c_session c) (c_kind c) ch). split; [done|].
    split; [|done]. rw turn_entry_waiters Htu. apply elem_of_app. right. by apply list_elem_of_singleton.
Qed.

Context (Hbut : but = None ∨ but = Some (c_path c)).

(** A turn by a new caller, or by a woken one just taken out of [ready]. *)
Lemma turn_preserves : lock_inv (sys_turn sys c wait).2.
Proof using Hinv Hbut.
  pose proof turn_entry_inv as Hte. rw sys_turn_eq. rw sys_turn_eq in Hte. fold turn_parked in Hte |- *. split; simpl.
  - intros p e. destruct (decide (p = c_path c)) as [->|Hp]; [rw lookup_insert_eq; by intros [= <-]|].
    rw lookup_insert_ne //. intros He. pose proof (li_entries _ _ Hinv _ _ He) as Hi. eapply entry_inv_callers; [done|].
    intros w Hw. simpl. destruct (ei_waiters _ _ _ Hi w Hw) as (d & Hd & _). rw Hd. by apply turn_parked_old.
  - intros p e. destruct (decide (p = c_path c)) as [->|Hp].
    + rw lookup_insert_eq. intros [= <-] _ _. left.
      apply turn_entry_holders. intros e He. by destruct (li_entries _ _ Hinv _ _ He).
    + rw lookup_insert_ne //. intros He _. apply (li_live _ _ Hinv _ _ He). by destruct Hbut as [->| ->]; congruence.
  - apply turn_queued.
  - intros x [[d [Hx|(_ & -> & _)]%turn_parked_inv]|Hx]; [|lia|].
    + pose proof (li_fresh _ _ Hinv x (or_introl (ex_intro _ d Hx))). lia.
    + pose proof (li_fresh _ _ Hinv x (or_intror Hx)). lia.
  - intros x d [Hx|(_ & -> & _)]%turn_parked_inv; [by eapply (li_apart _ _ Hinv)|].
    apply eq_None_not_Some. intros Hs. pose proof (li_fresh _ _ Hinv _ (or_intror Hs)). lia.
Qed.
End Turn.

Lemma ready_taken sys ch c :
  ready sys !! ch = Some c → lock_inv sys →
  lock_inv_but (Some (c_path c)) (mkSys (mgr sys) (parked sys) (delete ch (ready sys)) (next_channel sys)).
Proof.
  intros Hc [Hen Hlv Hpk Hfr Hap]. split; simpl; [| |done| |].
  - intros p e He. eapply entry_inv_callers; [by apply Hen|done].
  - intros p e He Hp Hw. destruct (Hlv p e He ltac:(done) Hw) as [?|(x & d & Hx & Hd)]; [by left|].
    right. exists x, d. simpl. rw lookup_delete_ne //. congruence.
  - intros x [?|Hx]; apply Hfr; [by left|right]. rw lookup_delete_is_Some in Hx. tauto.
  - intros x d Hx. rw lookup_delete_None. right. by eapply Hap.
Qed.

(** *** Taking holders and waiters away *)

(** What [unlock] and [release_session] do to one entry: [e'] is what is left
    ([None] for an entry dropped), [R] the channels that resolve. *)
Record shrinks (e : Entry) (e' : option Entry) (R : list Z) : Prop := {
  sh_holders : sublist (holders (default entry_default e')) (holders e);
  sh_waiters : sublist (waiters (default entry_default e')) (waiters e);
  sh_gone : ∀ w, w ∈ waiters e → w ∈ waiters (default entry_default e') ∨ w_wake w ∈ R;
  sh_kept : ∀ w, w ∈ waiters (default entry_default e') → w_wake w ∉ R;
  sh_ours : ∀ ch, ch ∈ R → ∃ w, w ∈ waiters e ∧ w_wake w = ch;
  sh_wakes : waiters (default entry_default e') ≠ [] →
             holders (default entry_default e') = [] → holders e = [] ∨ ∃ ch, ch ∈ R;
  sh_nonempty : ∀ e1, e' = Some e1 → entry_is_empty e1 = false
}.

Section Shrink.
Context (sys : Sys) (lm' : LockManager) (R : list Z) (part : RelPath → Entry → list Z).
Context (Hinv : lock_inv sys).
Context (Hlm' : ∀ p e, mgr sys !! p = Some e → shrinks e (lm' !! p) (part p e)).
Context (Hnone : ∀ p, mgr sys !! p = None → lm' !! p = None).
Context (HR : ∀ ch, ch ∈ R ↔ ∃ p e, mgr sys !! p = Some e ∧ ch ∈ part p e).

Local Abbreviation after := (resolve (mkSys lm' (parked sys) (ready sys) (next_channel sys)) R).

Lemma shrunk_from p e' : lm' !! p = Some e' →
  ∃ e, mgr sys !! p = Some e ∧ shrinks e (Some e') (part p e) ∧ entry_inv sys p e.
Proof using Hinv Hlm' Hnone.
  intros He'. destruct (mgr sys !! p) as [e|] eqn:E; [|by rw (Hnone _ E) in He'].
  exists e. split; [done|]. split; [rw -He'; by apply Hlm'|]. by apply (li_entries _ _ Hinv).
Qed.

(** A channel of a waiter that stays is not among the resolved ones. *)
Lemma kept_not_resolved p e' w : lm' !! p = Some e' → w ∈ waiters e' → w_wake w ∉ R.
Proof using All.
  intros He' Hw HinR. destruct (shrunk_from _ _ He') as (e & He & Hsh & Hei).
  apply HR in HinR as (p2 & e2 & He2 & Hin2).
  destruct (sh_ours _ _ _ (Hlm' _ _ He2) _ Hin2) as (w2 & Hw2 & Heq).
  destruct (ei_waiters _ _ _ (li_entries _ _ Hinv _ _ He2) _ Hw2) as (c2 & Hc2 & Hp2 & _).
  assert (w ∈ waiters e) as Hwe.
  { eapply sublist_subseteq; [apply (sh_waiters _ _ _ Hsh)|done]. }
  destruct (ei_waiters _ _ _ Hei _ Hwe) as (c1 & Hc1 & Hp1 & _).
  assert (p2 = p) as -> by (rw Heq in Hc2; congruence). simplify_eq.
  by apply (sh_kept _ _ _ Hsh w Hw).
Qed.

Lemma shrink_preserves : lock_inv after.
Proof using All.
  split; simpl.
  - intros p e' He'. destruct (shrunk_from _ _ He') as (e & He & Hsh & [H1 H2 H3 H4 H5]). split.
    + eapply excl_ok_sublist; [apply (sh_holders _ _ _ Hsh)|done].
    + eapply keys_sublist; [apply (sh_holders _ _ _ Hsh)|done].
    + intros w Hw. destruct (H3 w) as (c & Hc & ?).
      { eapply sublist_subseteq; [apply (sh_waiters _ _ _ Hsh)|done]. }
      exists c. split; [|done]. simpl. apply map_lookup_filter_Some. split; [done|]. simpl.
      by eapply kept_not_resolved.
    + eapply sublist_NoDup; [done|]. apply fmap_sublist, (sh_waiters _ _ _ Hsh).
    + by eapply (sh_nonempty _ _ _ Hsh).
  - intros p e' He' _ Hw. destruct (shrunk_from _ _ He') as (e & He & Hsh & Hei).
    destruct (decide (holders e' = [])) as [Hnil|]; [|by left]. right.
    destruct (sh_wakes _ _ _ Hsh Hw Hnil) as [Hold|(ch & Hch)].
    { destruct (li_live _ _ Hinv p e He ltac:(done)) as [?|(ch & c & Hc & Hp)]; [|done|].
      - intros Hn. pose proof (sh_waiters _ _ _ Hsh) as Hs. rw Hn in Hs.
        by apply sublist_nil_r in Hs.
      - exists ch, c. split; [|done]. simpl. apply lookup_union_Some_raw. right. split; [|done].
        apply map_lookup_filter_None. left. apply eq_None_not_Some. intros [d Hd].
        by rw (li_apart _ _ Hinv _ _ Hd) in Hc. }
    destruct (sh_ours _ _ _ Hsh _ Hch) as (w & Hwe & <-).
    destruct (ei_waiters _ _ _ Hei _ Hwe) as (c & Hc & Hp & _).
    exists (w_wake w), c. split; [|done]. simpl. apply lookup_union_Some_l, map_lookup_filter_Some.
    split; [done|]. simpl. apply HR. eauto.
  - intros ch c. rw map_lookup_filter_Some. intros [Hc HnR]. simpl in HnR.
    destruct (li_parked _ _ Hinv _ _ Hc) as (e & w & He & Hw & <-).
    pose proof (Hlm' _ _ He) as Hsh.
    destruct (sh_gone _ _ _ Hsh _ Hw) as [Hw'|Hin]; [|exfalso; apply HnR, HR; eauto].
    destruct (lm' !! c_path c) as [e'|] eqn:E; [eauto|]. simpl in Hw'. set_solver.
  - intros ch Hch. apply (li_fresh _ _ Hinv). destruct Hch as [Hp|Hr].
    + left. destruct Hp as [d [? _]%map_lookup_filter_Some]. eauto.
    + rw lookup_union_is_Some in Hr. destruct Hr as [Hr|]; [left|by right].
      destruct Hr as [d [? _]%map_lookup_filter_Some]. eauto.
  - intros ch c [Hc HnR]%map_lookup_filter_Some. apply lookup_union_None. split.
    + apply map_lookup_filter_None. right. intros ? _. by simpl.
    + by apply (li_apart _ _ Hinv _ _ Hc).
Qed.
End Shrink.

(** Waking after a removal that keeps [hs] and [ws], having dropped the
    channels [dropped]. *)
Lemma wake_shrinks e hs ws dropped :
  NoDup (w_wake <$> waiters e) →
  sublist hs (holders e) → sublist ws (waiters e) →
  (∀ w, w ∈ waiters e → w ∈ ws ∨ w_wake w ∈ dropped) →
  (∀ ch, ch ∈ dropped → ∃ w, w ∈ waiters e ∧ w_wake w = ch ∧ w ∉ ws) →
  let r := wake_waiters (mkEntry hs ws) in
  shrinks e (if entry_is_empty r.1 then None else Some r.1) (r.2 ++ dropped).
Proof.
  intros Hnd Hhs Hws Hgone Hdrop. unfold wake_waiters. simpl.
  destruct (wake_loop hs ws) as [ws' woken] eqn:Ew. simpl.
  destruct (wake_loop_spec _ _ _ _ Ew) as (popped & -> & -> & Hfree).
  assert (Hin : ∀ w, w ∈ popped ++ ws' → w ∈ waiters e).
  { intros w Hw. by eapply sublist_subseteq. }
  assert (Hinj : ∀ w1 w2, w1 ∈ waiters e → w2 ∈ waiters e → w_wake w1 = w_wake w2 → w1 = w2).
  { intros w1 w2 H1 H2 Heq. apply list_elem_of_lookup in H1 as [i Hi].
    apply list_elem_of_lookup in H2 as [j Hj].
    assert (i = j) as ->; [|congruence].
    eapply NoDup_lookup; [exact Hnd| |]; rw list_lookup_fmap ?Hi ?Hj /= //. by rw Heq. }
  assert (Hdis : ∀ w, w ∈ ws' → w ∉ popped).
  { assert (NoDup (w_wake <$> (popped ++ ws'))) as Hnd2.
    { eapply sublist_NoDup; [exact Hnd|by apply fmap_sublist]. }
    rw fmap_app NoDup_app in Hnd2. destruct Hnd2 as (_ & Hd & _). intros w H1 H2.
    apply (Hd (w_wake w)); by apply list_elem_of_fmap_2. }
  assert (Hdef : ∀ e1, default entry_default (if entry_is_empty e1 then None else Some e1) = e1).
  { intros [[|] [|]]; done. }
  assert (sublist ws' (waiters e)) by (etransitivity; [by apply sublist_inserts_l|exact Hws]).
  split; rw ?Hdef /=; [done|done| | | | |].
  - intros w Hw. destruct (Hgone w Hw) as [H1|H1]; [|set_solver].
    apply elem_of_app in H1 as [H1|]; [|by left]. right. apply elem_of_app. left.
    by apply list_elem_of_fmap_2.
  - intros w Hw [(w2 & Heq & Hw2)%list_elem_of_fmap|Hd]%elem_of_app.
    + assert (w = w2) as -> by (apply Hinj; [apply Hin|apply Hin|done]; set_solver). by eapply Hdis.
    + destruct (Hdrop _ Hd) as (w2 & Hw2 & Heq & Hn).
      assert (w2 = w) as -> by (apply Hinj; [done|apply Hin|done]; set_solver). set_solver.
  - intros ch [(w2 & -> & Hw2)%list_elem_of_fmap|Hd]%elem_of_app.
    + exists w2. split; [apply Hin; set_solver|done].
    + destruct (Hdrop _ Hd) as (w2 & Hw2 & Heq & _). eauto.
  - intros Hne Hnil. right. specialize (Hfree Hnil Hne). destruct popped as [|w ?]; [done|].
    exists (w_wake w). set_solver.
  - intros e1 He1. by destruct (entry_is_empty _) eqn:E; simplify_eq.
Qed.

Lemma shrinks_id e : entry_is_empty e = false → shrinks e (Some e) [].
Proof. intros He. split; simpl; try done; [by left|set_solver|set_solver|by left|congruence]. Qed.

(** *** [unlock] and [release_session] preserve the invariant *)

Lemma unlock_lookup lm path s fh p :
  (unlock lm path s fh).1 !! p =
  if decide (p = path) then
    e ← lm !! path;
    let r := wake_waiters (mkEntry (retain (not_ours s fh) (holders e)) (waiters e)) in
    (if entry_is_empty r.1 then None else Some r.1)
  else lm !! p.
Proof.
  unfold unlock. destruct (lm !! path) as [e|] eqn:E; simpl.
  - destruct (wake_waiters _) as [e' woken]. simpl.
    destruct (decide (p = path)) as [->|Hp]; destruct (entry_is_empty e').
    + apply lookup_delete_eq.
    + apply lookup_insert_eq.
    + by apply lookup_delete_ne.
    + by apply lookup_insert_ne.
  - by destruct (decide (p = path)) as [->|].
Qed.

Lemma unlock_preserves sys path s fh : lock_inv sys → lock_inv (sys_unlock sys path s fh).
Proof.
  intros Hinv. unfold sys_unlock.
  rw (surjective_pairing (unlock (mgr sys) path s fh)).
  set (part := λ p (_ : Entry), if decide (p = path) then (unlock (mgr sys) path s fh).2 else []).
  apply (shrink_preserves sys _ _ part Hinv).
  - intros p e He. pose proof (li_entries _ _ Hinv _ _ He) as Hei. unfold part. rw unlock_lookup.
    destruct (decide (p = path)) as [->|Hp].
    + unfold unlock. rw He /=. set (e1 := mkEntry _ _).
      pose proof (wake_shrinks e (holders e1) (waiters e1) [] (ei_channels _ _ _ Hei)
        (retain_sublist _ _) (reflexivity _)) as Hsh.
      cbn zeta in Hsh. rw app_nil_r in Hsh. unfold e1 in *. simpl in Hsh.
      destruct (wake_waiters _) as [e' woken] eqn:Ew. simpl in *.
      apply Hsh; [by left|set_solver].
    + rw He. apply shrinks_id, (ei_nonempty _ _ _ Hei).
  - intros p Hp. rw unlock_lookup. by destruct (decide _) as [->|]; [rw Hp|].
  - intros ch. unfold part. split.
    + intros Hch. destruct (mgr sys !! path) as [e|] eqn:E.
      * exists path, e. by rw decide_True.
      * unfold unlock in Hch. rw E in Hch. set_solver.
    + intros (p & e & He & Hin). destruct (decide (p = path)); [done|set_solver].
Qed.

Lemma elem_of_map_fold_app {A B} (f : A → list B) (m : gmap string A) x :
  x ∈ map_fold (λ _ a acc, f a ++ acc) [] m ↔ ∃ p a, m !! p = Some a ∧ x ∈ f a.
Proof.
  apply (map_fold_weak_ind (λ r m, x ∈ r ↔ ∃ p a, m !! p = Some a ∧ x ∈ f a)).
  - split; [set_solver|]. by intros (p & a & Hp & _).
  - intros p a m' r Hp IH. rw elem_of_app IH. split.
    + intros [Hx|(q & b & Hq & Hx)]; [exists p, a; by rw lookup_insert_eq|].
      exists q, b. rw lookup_insert_ne //. congruence.
    + intros (q & b & [[<- <-]|[? ?]]%lookup_insert_Some & Hx); [by left|right; eauto].
Qed.

Lemma released_lookup lm s p :
  (release_session lm s).1.2 !! p = e ← lm !! p; rl_entry (release_entry s e).
Proof. unfold release_session. simpl. rw lookup_omap lookup_fmap. by destruct (lm !! p). Qed.

Lemma release_entry_shrinks s e :
  NoDup (w_wake <$> waiters e) →
  shrinks e (rl_entry (release_entry s e)) (rl_woken (release_entry s e) ++ rl_dropped (release_entry s e)).
Proof.
  intros Hnd. unfold release_entry.
  set (ws := retain (λ w, negb (bool_decide (w_session w = s))) (waiters e)).
  set (hs := retain (λ h, negb (bool_decide (h_session h = s))) (holders e)).
  set (gone := retain (λ w, bool_decide (w_session w = s)) (waiters e)).
  pose proof (wake_shrinks e hs ws (w_wake <$> gone) Hnd (retain_sublist _ _) (retain_sublist _ _)) as Hsh.
  destruct (wake_waiters (mkEntry hs ws)) as [e' woken] eqn:Ew. simpl in *.
  apply Hsh.
  - intros w Hw. destruct (decide (w_session w = s)) as [Heq|Hne].
    + right. apply list_elem_of_fmap_2, elem_of_retain. by rw bool_decide_true.
    + left. apply elem_of_retain. by rw bool_decide_false.
  - intros ch (w & -> & [Hd Hw]%elem_of_retain)%list_elem_of_fmap. exists w. split; [done|].
    split; [done|]. intros [Hn _]%elem_of_retain. by rw Hd in Hn.
Qed.

Lemma release_preserves sys s : lock_inv sys → lock_inv (sys_release sys s).
Proof.
  intros Hinv. unfold sys_release.
  pose proof (released_lookup (mgr sys) s) as Hlk. unfold release_session in *. simpl in Hlk.
  set (f := λ r : Released, rl_woken r ++ rl_dropped r).
  apply (shrink_preserves sys _ _ (λ _ e, f (release_entry s e)) Hinv).
  - intros p e He. rw Hlk He /=.
    apply release_entry_shrinks, (ei_channels _ _ _ (li_entries _ _ Hinv _ _ He)).
  - intros p Hp. by rw Hlk Hp.
  - intros ch. pose proof (elem_of_map_fold_app f (release_entry s <$> mgr sys) ch) as Hm.
    rw Hm. split.
    + intros (p & r & Hp & Hx). rw lookup_fmap_Some in Hp. destruct Hp as (e & <- & He). eauto.
    + intros (p & e & He & Hx). exists p, (release_entry s e). by rw lookup_fmap He.
Qed.

Lemma step_preserves sys sys' : step sys sys' → lock_inv sys → lock_inv sys'.
Proof.
  intros [sys1 c wait|sys1 ch r sys2 Hr|sys1 path s fh|sys1 s] Hinv.
  - eapply turn_preserves; [done|by left].
  - unfold sys_retry in Hr. destruct (ready sys1 !! ch) as [c|] eqn:Hc; [|done].
    apply Some_inj in Hr. apply (f_equal snd) in Hr. simpl in Hr. subst sys2.
    eapply turn_preserves; [by apply ready_taken|by right].
  - by apply unlock_preserves.
  - by apply release_preserves.
Qed.

Lemma reachable_inv sys : reachable sys → lock_inv sys.
Proof.
  intros Hr. unfold reachable in Hr.
  assert (lock_inv sys_init) as H0.
  { split; simpl; [by intros ? ? ?%lookup_empty_Some..| |by intros ? ? ?%lookup_empty_Some].
    intros ch [[c ?%lookup_empty_Some]|[c ?%lookup_empty_Some]]; done. }
  revert H0. induction Hr as [|x y z Hs _ IH]; [done|]. intros H0. by eapply IH, step_preserves.
Qed.

(** ** What the lock manager promises *)

(** C15.  Two holders of one path at different positions of its list are both
    shared, and belong to different (session, handle) pairs: N shared holders
    XOR one exclusive holder, in every interleaving of callers, unlocks and
    session releases. *)
Theorem lock_mutual_exclusion sys p e i j h1 h2 :
  reachable sys → mgr sys !! p = Some e →
  holders e !! i = Some h1 → holders e !! j = Some h2 → i ≠ j →
  h_kind h1 = Shared ∧ h_kind h2 = Shared ∧
  (h_session h1, h_fh h1) ≠ (h_session h2, h_fh h2).
Proof.
  intros Hr He H1 H2 Hij. destruct (li_entries _ _ (reachable_inv _ Hr) _ _ He) as [Hex Hnd _ _ _].
  destruct Hex as [Hall|[h Hh]].
  - rw Forall_lookup in Hall. split; [by eapply Hall|]. split; [by eapply Hall|].
    intros Heq. apply Hij. eapply NoDup_lookup; [exact Hnd| |]; unfold keys;
      rw list_lookup_fmap ?H1 ?H2 /= //. by rw Heq.
  - rw Hh in H1. rw Hh in H2. destruct i, j; simplify_eq/=.
Qed.

Definition two_readers : Sys :=
  (sys_turn (sys_turn sys_init (mkCall "a" 1 1 Shared) false).2 (mkCall "a" 2 1 Shared) true).2.

Lemma two_readers_reachable : reachable two_readers.
Proof. eapply rtc_l; [apply step_lock|]. eapply rtc_l; [apply step_lock|]. apply rtc_refl. Defined.

Lemma lock_mutual_exclusion_witness :
  h_kind (mkHolder 1 1 Shared) = Shared ∧ h_kind (mkHolder 2 1 Shared) = Shared ∧
  (1, 1) ≠ (2, 1).
Proof.
  exact (lock_mutual_exclusion two_readers "a" (mkEntry [mkHolder 1 1 Shared; mkHolder 2 1 Shared] [])
    0%nat 1%nat (mkHolder 1 1 Shared) (mkHolder 2 1 Shared)
    two_readers_reachable eq_refl eq_refl eq_refl ltac:(done)).
Defined.

(** C31.  A caller parked in [lock] is queued at its path, and somebody will wake
    that queue: the path has a holder (whose unlock or disconnect wakes it) or
    a woken caller of the same path that has yet to run its turn.  No
    interleaving strands a waiter behind a free lock. *)
Theorem lock_no_stranded_waiter sys ch c :
  reachable sys → parked sys !! ch = Some c →
  ∃ e, mgr sys !! c_path c = Some e ∧ mkWaiter (c_session c) (c_kind c) ch ∈ waiters e ∧
       (holders e ≠ [] ∨ ∃ ch' c', ready sys !! ch' = Some c' ∧ c_path c' = c_path c).
Proof.
  intros Hr Hc. pose proof (reachable_inv _ Hr) as Hinv.
  destruct (li_parked _ _ Hinv _ _ Hc) as (e & w & He & Hw & Hch). exists e. split; [done|].
  destruct (ei_waiters _ _ _ (li_entries _ _ Hinv _ _ He) _ Hw) as (c' & Hc' & _ & Hs & Hk).
  assert (c' = c) as -> by congruence. split.
  - rw Hs Hk -Hch. by destruct w.
  - apply (li_live _ _ Hinv _ _ He); [done|]. intros Hnil. rw Hnil in Hw. set_solver.
Qed.

Definition queued_writer : Sys :=
  (sys_turn (sys_turn sys_init (mkCall "a" 1 1 Exclusive) true).2 (mkCall "a" 2 1 Exclusive) true).2.

Lemma queued_writer_reachable : reachable queued_writer.
Proof. eapply rtc_l; [apply step_lock|]. eapply rtc_l; [apply step_lock|]. apply rtc_refl. Defined.

Lemma lock_no_stranded_waiter_witness :
  ∃ e, mgr queued_writer !! "a" = Some e ∧ mkWaiter 2 Exclusive 1 ∈ waiters e ∧
       (holders e ≠ [] ∨ ∃ ch' c', ready queued_writer !! ch' = Some c' ∧ c_path c' = "a").
Proof.
  exact (lock_no_stranded_waiter queued_writer 1 (mkCall "a" 2 1 Exclusive)
    queued_writer_reachable eq_refl).
Defined.

(** The locks of [session] at one path. *)
Definition held_by (session : Z) (e : Entry) : list Holder :=
  retain (λ h, bool_decide (h_session h = session)) (holders e).

Lemma retain_length_split {A} f (l : list A) :
  Z.of_nat (length l) - Z.of_nat (length (retain (λ x, negb (f x)) l)) = Z.of_nat (length (retain f l)).
Proof.
  unfold retain. induction l as [|x l IH]; [done|]. rw !filter_cons. simpl.
  destruct (f x); simpl; lia.
Qed.

Lemma release_entry_wake s e :
  let hs := retain (λ h, negb (bool_decide (h_session h = s))) (holders e) in
  ∃ ws, sublist ws (retain (λ w, negb (bool_decide (w_session w = s))) (waiters e)) ∧
    rl_entry (release_entry s e) =
      (if entry_is_empty (mkEntry hs ws) then None else Some (mkEntry hs ws)) ∧
    rl_count (release_entry s e) = Z.of_nat (length (held_by s e)).
Proof.
  intros hs. unfold release_entry, wake_waiters. fold hs. simpl.
  destruct (wake_loop _ _) as [ws woken] eqn:Ew. apply wake_loop_spec in Ew as (popped & Hp & _).
  exists ws. simpl. split; [rw Hp; by apply sublist_inserts_l|]. split; [done|].
  apply retain_length_split.
Qed.

(** [release_session] returns exactly the number of locks the session held,
    leaves no holder and no waiter of that session at any path, and keeps
    every other session's locks, in order. *)
Theorem release_session_spec lm s :
  let '(released, lm', _) := release_session lm s in
  released = map_fold (λ _ e acc, Z.of_nat (length (held_by s e)) + acc) 0 lm ∧
  (∀ p e', lm' !! p = Some e' →
     Forall (λ h, h_session h ≠ s) (holders e') ∧ Forall (λ w, w_session w ≠ s) (waiters e')) ∧
  (∀ p, holders (default entry_default (lm' !! p)) =
        retain (λ h, negb (bool_decide (h_session h = s))) (holders (default entry_default (lm !! p)))).
Proof.
  pose proof (released_lookup lm s) as Hlk. unfold release_session in *. simpl in Hlk. split; [|split].
  - rw map_fold_fmap !map_fold_foldr. apply foldr_ext; [|done|done]. intros [p e] acc. simpl.
    by destruct (release_entry_wake s e) as (ws & _ & _ & ->).
  - intros p e'. rw Hlk. destruct (lm !! p) as [e|]; [|done]. simpl.
    destruct (release_entry_wake s e) as (ws & Hws & -> & _). destruct (entry_is_empty _); [done|].
    intros [= <-]. simpl. split; apply Forall_forall.
    + intros h [Hh _]%elem_of_retain. by case_bool_decide.
    + intros w Hw. eapply sublist_subseteq in Hws. apply Hws, elem_of_retain in Hw as [Hw _].
      by case_bool_decide.
  - intros p. rw Hlk. destruct (lm !! p) as [e|]; [|done]. simpl.
    destruct (release_entry_wake s e) as (ws & _ & -> & _).
    destruct (entry_is_empty _) eqn:E; [|done]. simpl. unfold entry_is_empty in E. simpl in E.
    by destruct (retain _ (holders e)).
Qed.

(** A session that is released while it waits can still obtain the lock
    afterwards: releasing session 2 drops the sender of its waiter, its parked
    call runs another turn, queues again, and is granted the lock when session
    1 unlocks -- with no further lock request of session 2, and nobody left to
    release it. *)
Theorem reaped_waiter_is_granted :
  let sys1 := sys_release queued_writer 2 in
  ∃ sys2 sys4,
    sys_retry sys1 1 = Some (None, sys2) ∧
    sys_retry (sys_unlock sys2 "a" 1 1) 2 = Some (Some (Ok tt), sys4) ∧
    reachable sys4 ∧
    mgr sys4 !! "a" = Some (mkEntry [mkHolder 2 1 Exclusive] []).
Proof.
  eexists _, _. split; [vm_compute; reflexivity|]. split; [vm_compute; reflexivity|].
  split; [|vm_compute; reflexivity].
  unfold reachable. etrans; [apply queued_writer_reachable|].
  eapply rtc_l; [apply (step_release _ 2)|]. eapply rtc_l; [by eapply (step_retry _ 1); vm_compute|].
  eapply rtc_l; [apply (step_unlock _ "a" 1 1)|]. eapply rtc_l; [by eapply (step_retry _ 2); vm_compute|].
  apply rtc_refl.
Qed.

Lemma compatible_iff e k :
  compatible e k = true ↔ ∀ h, h ∈ holders e → k = Shared ∧ h_kind h = Shared.
Proof.
  destruct k; simpl.
  - rw forallb_forall. unfold is_shared. split.
    + intros H h Hh. split; [done|]. by apply (bool_decide_eq_true _), H, list_elem_of_In.
    + intros H h Hh. apply bool_decide_eq_true, H. by apply list_elem_of_In.
  - destruct (holders e) as [|h t]; [split; [set_solver|done]|].
    split; [done|]. intros H. by destruct (H h) as [? _]; [apply list_elem_of_here|].
Qed.

(** One turn of [lock] grants the lock exactly when every other handle's hold
    on the path is compatible with the request (a handle's own earlier hold
    never blocks it), refuses with [WouldBlock] exactly when it is not and the
    caller does not wait, and parks otherwise; a refused or parked request
    leaves the other holders as they were. *)
Theorem lock_turn_outcome lm path s fh k wait ch :
  let others := retain (not_ours s fh) (holders (default entry_default (lm !! path))) in
  let ok := ∀ h, h ∈ others → k = Shared ∧ h_kind h = Shared in
  let '(turn, lm') := lock_turn lm path s fh k wait ch in
  (turn = Done (Ok tt) ↔ ok) ∧
  (turn = Done (Err WouldBlock) ↔ ¬ ok ∧ wait = false) ∧
  (turn = Park ch ↔ ¬ ok ∧ wait = true) ∧
  (∀ p, holders (default entry_default (lm' !! p)) =
        if decide (p = path)
        then if bool_decide (turn = Done (Ok tt)) then others ++ [mkHolder s fh k] else others
        else holders (default entry_default (lm !! p))).
Proof.
  intros others ok. unfold lock_turn. fold others.
  pose proof (compatible_iff (mkEntry others (waiters (default entry_default (lm !! path)))) k) as Hok.
  fold ok in Hok. cbn [holders] in Hok. fold ok in Hok.
  destruct (compatible _ k) eqn:Ec; [|destruct wait]; cbn [holders waiters negb].
  1: assert ok by (by apply Hok).
  2,3: assert (¬ ok) by (by intros ?%Hok).
  all: clearbody ok; split; [by naive_solver|]; split; [by naive_solver|].
  all: split; [by naive_solver|]; intros p; destruct (decide (p = path)) as [->|];
    [rw lookup_insert_eq|by rw lookup_insert_ne].
  all: done.
Qed.
