(* ===== verification/EventHub.v ===== *)
(** * EventHub: the sequenced event log and its fan-out

    [EventHub], [coalesce_loop] and [publish_batch] of
    alloyfs-agent/src/watch.rs, and the per-file version clock of [Export]
    (alloyfs-agent/src/ops.rs) they drive.  [publish] holds the log's mutex
    while it assigns sequence numbers and sends to the broadcast channel after
    releasing it, and [subscribe] takes its receiver before it reads the log:
    each of those is two steps of the transition system at the end, whose
    theorem says no event falls between the catch-up and the live stream. *)

From S2P Require Import Prelude Messages Coalesce.

Definition EVENT_LOG_CAP : Z := 8192.
Definition BATCH_MAX : Z := 512.
(** Durations in nanoseconds. *)
Definition MAX_LATENCY : Z := 1000000000.
Definition ORIGIN_TTL : Z := 2000000000.

(** ** Versions *)

(** [Export]'s version table and clock. *)
Record Versions : Type := mkVersions { versions : gmap string Z; vclock : Z }.

Definition version_of (v : Versions) (path : RelPath) : Z := default 0 (versions v !! path).

(** [bump]: the new version and the table. *)
Definition bump (v : Versions) (path : RelPath) : Z * Versions :=
  let n := u64_add (vclock v) 1 in
  (n, mkVersions (<[path := n]> (versions v)) n).

Definition rename_version (v : Versions) (from to : RelPath) : Z * Versions :=
  bump (mkVersions (delete from (versions v)) (vclock v)) to.

(** ** The hub *)

(** [sent] is what the broadcast channel [tx] has been given, oldest first: a
    receiver is a position in it. *)
Record EventHub : Type := mkHub {
  hub_seq : Z;
  hub_log : list FsEvent;
  log_cap : nat;
  sent : list (list FsEvent);
  recent_local : gmap string (Z * Z)
}.

Definition with_capacity (cap : nat) : EventHub := mkHub 0 [] cap [] ∅.

Definition note_local_write (now : Z) (h : EventHub) (path : RelPath) (session : Z) : EventHub :=
  mkHub (hub_seq h) (hub_log h) (log_cap h) (sent h) (<[path := (session, now)]> (recent_local h)).

Definition last_seq (h : EventHub) : Z := hub_seq h.

(** The part of [subscribe] after the receiver is taken: the catch-up read
    from the ring under its mutex. *)
Definition catchup (h : EventHub) (since : option Z) : result (list FsEvent) ErrorCode :=
  match since with
  | None => Ok []
  | Some since =>
      let newer := base.filter (λ e, since < ev_seq e) (hub_log h) in
      match hub_log h with
      | head :: _ => if bool_decide (u64_add since 1 < ev_seq head) then Err TooOld else Ok newer
      | [] => Ok newer
      end
  end.

(** [subscribe] with nobody in between: the catch-up and the receiver. *)
Definition subscribe (h : EventHub) (since : option Z) : result (list FsEvent * nat) ErrorCode :=
  let rx := length (sent h) in
  let? c := catchup h since in
  Ok (c, rx).

(** The session that touched [path] recently. *)
Definition origin_of (now : Z) (h : EventHub) (path : RelPath) : option Z :=
  match recent_local h !! path with
  | Some (session, when) => if bool_decide (elapsed now when < ORIGIN_TTL) then Some session else None
  | None => None
  end.

(** The ring's [pop_front] when full, then [push_back]. *)
Definition log_push (cap : nat) (log : list FsEvent) (e : FsEvent) : list FsEvent :=
  (if bool_decide (length log = cap) then tail log else log) ++ [e].

(** One turn of [publish]'s loop: the event is given the next number. *)
Definition publish_one (now : Z) (h : EventHub) (pk : RelPath * EventKind) : FsEvent * EventHub :=
  let seq := u64_add (hub_seq h) 1 in
  let e := mkFsEvent seq pk.2 pk.1 None (origin_of now h pk.1) in
  (e, mkHub seq (log_push (log_cap h) (hub_log h) e) (log_cap h) (sent h) (recent_local h)).

(** The loop of [publish], under the log's mutex: the batch to send. *)
Fixpoint publish_log (now : Z) (h : EventHub) (raw : list (RelPath * EventKind)) : list FsEvent * EventHub :=
  match raw with
  | [] => ([], h)
  | pk :: raw' =>
      let '(e, h1) := publish_one now h pk in
      let '(es, h2) := publish_log now h1 raw' in
      (e :: es, h2)
  end.

Definition publish_send (h : EventHub) (batch : list FsEvent) : EventHub :=
  mkHub (hub_seq h) (hub_log h) (log_cap h) (sent h ++ [batch]) (recent_local h).

Definition publish (now : Z) (h : EventHub) (raw : list (RelPath * EventKind)) : EventHub :=
  match raw with
  | [] => h
  | _ => let '(batch, h') := publish_log now h raw in publish_send h' batch
  end.

(** ** The watcher's loop *)

(** The version bookkeeping of one batch. *)
Definition bump_one (v : Versions) (pk : RelPath * EventKind) : Versions :=
  match pk.2 with
  | RenamedFrom to => (rename_version v pk.1 to).2
  | Removed => v
  | _ => (bump v pk.1).2
  end.

Definition publish_batch (now : Z) (v : Versions) (h : EventHub) (batch : list (RelPath * EventKind))
    : Versions * EventHub :=
  match batch with
  | [] => (v, h)
  | _ => (foldl bump_one v batch, publish now h batch)
  end.

(** What wakes the [select!] of [coalesce_loop]. *)
Inductive Wake : Type :=
| RawEvent (ev : NotifyEvent)
| SleptTimeout
| WatcherDropped.

Record Watching : Type := mkWatching { w_co : Coalescer; w_versions : Versions; w_hub : EventHub }.

Definition flush (now : Z) (w : Watching) : Watching :=
  let '(batch, co) := take_batch (w_co w) in
  let '(v, h) := publish_batch now (w_versions w) (w_hub w) batch in
  mkWatching co v h.

(** One turn of [coalesce_loop], and whether it goes on. *)
Definition coalesce_turn (now : Z) (w : Watching) (wake : Wake) : bool * Watching :=
  match wake with
  | RawEvent ev =>
      let co := ingest now (w_co w) ev in
      let w := mkWatching co (w_versions w) (w_hub w) in
      if (BATCH_MAX <=? co_len co)
         || (match oldest_age co now with Some age => MAX_LATENCY <=? age | None => false end)
      then (true, flush now w)
      else (true, w)
  | SleptTimeout => (true, flush now w)
  | WatcherDropped => (false, flush now w)
  end.

(** How long the loop sleeps when no raw event arrives. *)
Definition coalesce_timeout (co : Coalescer) (debounce : Z) : Z :=
  if co_is_empty co then 3600 * 1000000000 else debounce.

(** ** Publishing and subscribing, interleaved *)

(** [unsent] is the batch [publish] has logged and not yet sent. *)
Record Net : Type := mkNet { n_hub : EventHub; unsent : option (list FsEvent) }.

(** Everything published so far, oldest first. *)
Definition published (n : Net) : list FsEvent := concat (sent (n_hub n)) ++ default [] (unsent n).

(** One publisher (the coalesce loop) and any number of request handlers; the
    sequence space of 2^64 events is not exhausted. *)
Inductive net_step : Net → Net → Prop :=
| net_log now h raw batch h' :
    raw ≠ [] → hub_seq h + Z.of_nat (length raw) < U64_MAX →
    publish_log now h raw = (batch, h') → net_step (mkNet h None) (mkNet h' (Some batch))
| net_send h batch : net_step (mkNet h (Some batch)) (mkNet (publish_send h batch) None)
| net_note now h u path session :
    net_step (mkNet h u) (mkNet (note_local_write now h path session) u).

Definition net_reachable (cap : nat) (n : Net) : Prop :=
  rtc net_step (mkNet (with_capacity cap) None) n.

(** The ring holds the newest [cap] events, and event number [i] of the
    history has sequence number [i]. *)
Record hub_inv (cap : nat) (h : EventHub) (hist : list FsEvent) : Prop := {
  hub_cap : log_cap h = cap;
  hub_count : hub_seq h = Z.of_nat (length hist);
  hub_seqs : ev_seq <$> hist = seqZ 1 (Z.of_nat (length hist));
  hub_ring : hub_log h = drop (length hist - cap) hist
}.

Lemma tail_drop {A} k (l : list A) : tail (drop k l) = drop (S k) l.
Proof. revert l. induction k as [|k IH]; intros [|x l]; try done. simpl. apply IH. Qed.

Lemma log_push_ring cap hist e :
  (1 ≤ cap)%nat →
  log_push cap (drop (length hist - cap) hist) e = drop (length (hist ++ [e]) - cap) (hist ++ [e]).
Proof.
  intros Hcap. unfold log_push. rw length_drop length_app. simpl length.
  case_bool_decide as Hfull.
  - rw drop_app_le; last lia. replace (length hist + 1 - cap)%nat with (S (length hist - cap)) by lia.
    f_equal. apply tail_drop.
  - rw drop_app_le; last lia. f_equal. f_equal. lia.
Qed.

Lemma publish_one_inv cap now h hist pk :
  (1 ≤ cap)%nat → hub_seq h < U64_MAX → hub_inv cap h hist →
  let '(e, h') := publish_one now h pk in
  hub_inv cap h' (hist ++ [e]) ∧ sent h' = sent h ∧ ev_path e = pk.1 ∧ ev_kind e = pk.2.
Proof.
  intros Hcap Hmax [H1 H2 H3 H4]. unfold publish_one. split; [|done].
  assert (u64_add (hub_seq h) 1 = hub_seq h + 1) as Hadd by (apply u64_add_small; ints).
  split; simpl; [done| | |].
  - rw Hadd length_app /= H2. lia.
  - rw fmap_app H3 length_app Hadd H2. simpl. rw Nat2Z.inj_add seqZ_app; [|lia..].
    f_equal. rw (seqZ_cons (1 + _) 1); [|lia]. simpl. f_equal. lia.
  - rw H1 H4. by apply log_push_ring.
Qed.

Lemma publish_log_inv cap now raw h hist :
  (1 ≤ cap)%nat → hub_seq h + Z.of_nat (length raw) ≤ U64_MAX → hub_inv cap h hist →
  let '(es, h') := publish_log now h raw in
  hub_inv cap h' (hist ++ es) ∧ sent h' = sent h ∧
  ((λ e, (ev_path e, ev_kind e)) <$> es) = raw.
Proof.
  intros Hcap. revert h hist. induction raw as [|pk raw IH]; intros h hist Hmax Hinv; cbn [publish_log].
  { rw app_nil_r. done. }
  simpl in Hmax. pose proof (publish_one_inv cap now h hist pk Hcap ltac:(lia) Hinv) as H1.
  destruct (publish_one now h pk) as [e h1] eqn:E1. destruct H1 as (H1 & Hs1 & Hp & Hk).
  assert (hub_seq h1 = hub_seq h + 1) as Hseq.
  { rw (hub_count _ _ _ H1) length_app /= (hub_count _ _ _ Hinv). lia. }
  specialize (IH h1 (hist ++ [e]) ltac:(lia) H1). destruct (publish_log now h1 raw) as [es h2].
  destruct IH as (H2 & Hs2 & Hraw).
  rw -app_assoc in H2. cbn [fmap list_fmap]. split; [done|]. split; [congruence|]. rw Hraw Hp Hk. by destruct pk.
Qed.

Lemma net_step_inv cap n n' :
  (1 ≤ cap)%nat → net_step n n' → hub_inv cap (n_hub n) (published n) →
  hub_inv cap (n_hub n') (published n') ∧
  (∃ more, published n' = published n ++ more) ∧ (∃ more, sent (n_hub n') = sent (n_hub n) ++ more).
Proof.
  intros Hcap [now h raw batch h' Hne Hmax Hlog|h batch|now h u path session] Hinv;
    unfold published in *; simpl in *.
  - rw app_nil_r in Hinv. pose proof (publish_log_inv cap now raw h _ Hcap ltac:(lia) Hinv) as H.
    rw Hlog in H. destruct H as (H & Hs & _). rw Hs. split; [done|]. split; [exists batch; by rw app_nil_r|exists []; by rw app_nil_r].
  - rw concat_app /= !app_nil_r. split; [by destruct Hinv|]. split; [by exists []; rw app_nil_r|]. by eexists.
  - split; [by destruct Hinv|]. split; exists []; by rw app_nil_r.
Qed.

Lemma net_rtc_inv cap n n' :
  (1 ≤ cap)%nat → rtc net_step n n' → hub_inv cap (n_hub n) (published n) →
  hub_inv cap (n_hub n') (published n') ∧
  (∃ more, published n' = published n ++ more) ∧ (∃ more, sent (n_hub n') = sent (n_hub n) ++ more).
Proof.
  intros Hcap Hr. induction Hr as [n|n n1 n' Hs _ IH]; intros Hinv.
  { split; [done|]. split; exists []; by rw app_nil_r. }
  destruct (net_step_inv _ _ _ Hcap Hs Hinv) as (H1 & (m1 & E1) & (s1 & F1)).
  destruct (IH H1) as (H2 & (m2 & E2) & (s2 & F2)). split; [done|].
  split; [exists (m1 ++ m2); by rw E2 E1 app_assoc|exists (s1 ++ s2); by rw F2 F1 app_assoc].
Qed.

Lemma net_reachable_inv cap n : (1 ≤ cap)%nat → net_reachable cap n → hub_inv cap (n_hub n) (published n).
Proof.
  intros Hcap Hr. eapply net_rtc_inv; [done|exact Hr|]. by split.
Qed.

(** ** Theorems *)

(** Sequence numbers are gap-free and the ring is the newest part of the
    history: in every reachable state the i-th event ever published carries
    sequence number i, and the catch-up ring holds exactly the last [cap] of
    them in order. *)
Theorem hub_log_is_recent_history cap n :
  (1 ≤ cap)%nat → net_reachable cap n →
  ev_seq <$> published n = seqZ 1 (last_seq (n_hub n)) ∧
  hub_log (n_hub n) = drop (length (published n) - cap) (published n).
Proof. intros Hcap Hr. destruct (net_reachable_inv _ _ Hcap Hr) as [_ H2 H3 H4]. unfold last_seq. by rw H2. Qed.

Definition sample_net : Net :=
  mkNet (publish_log 5 (with_capacity 2) [("a", Created); ("b", Modified); ("c", Removed)]).2
        (Some (publish_log 5 (with_capacity 2) [("a", Created); ("b", Modified); ("c", Removed)]).1).

Lemma sample_net_reachable : net_reachable 2 sample_net.
Proof.
  eapply rtc_l; [|apply rtc_refl].
  apply (net_log 5 (with_capacity 2) [("a", Created); ("b", Modified); ("c", Removed)]);
    [done|vm_compute; reflexivity|reflexivity].
Defined.

Lemma hub_log_is_recent_history_witness :
  ev_seq <$> published sample_net = [1; 2; 3] ∧ ev_path <$> hub_log (n_hub sample_net) = ["b"; "c"].
Proof.
  pose proof (hub_log_is_recent_history 2 sample_net ltac:(lia) sample_net_reachable) as [H1 H2].
  split; [rw H1; reflexivity|rw H2; reflexivity].
Defined.

Lemma seqZ_lookup_ev hist i e :
  ev_seq <$> hist = seqZ 1 (Z.of_nat (length hist)) → hist !! i = Some e → ev_seq e = 1 + Z.of_nat i.
Proof.
  intros Hs Hi. assert ((ev_seq <$> hist) !! i = Some (ev_seq e)) as H by (by rw list_lookup_fmap Hi).
  rw Hs in H. apply lookup_seqZ in H. lia.
Qed.

(** A catch-up that is not refused holds every event after [since]. *)
Lemma catchup_complete cap h hist since c e :
  (1 ≤ cap)%nat → hub_inv cap h hist → 0 ≤ since < U64_MAX → catchup h (Some since) = Ok c →
  e ∈ hist → since < ev_seq e → e ∈ c.
Proof.
  intros Hcap [_ _ Hs Hr] Hsince Hc He Hlt. unfold catchup in Hc.
  assert (e ∈ hub_log h → e ∈ c) as Hin.
  { intros Hl. destruct (hub_log h) as [|hd tl] eqn:El; [set_solver|].
    case_bool_decide; [done|]. injection Hc as <-. apply list_elem_of_filter. done. }
  apply Hin. rw Hr. apply list_elem_of_lookup in He as [i Hi].
  apply list_elem_of_lookup. destruct (decide (length hist - cap ≤ i)%nat) as [Hge|Hlow].
  { exists (i - (length hist - cap))%nat. rw lookup_drop. rw -Hi. f_equal. lia. }
  exfalso. assert (is_Some (hist !! (length hist - cap)%nat)) as [hd Hhd].
  { apply lookup_lt_is_Some. apply lookup_lt_Some in Hi. destruct cap; [exfalso; simpl in *|]; lia. }
  pose proof (seqZ_lookup_ev _ _ _ Hs Hi) as E1. pose proof (seqZ_lookup_ev _ _ _ Hs Hhd) as E2.
  assert (hub_log h !! 0%nat = Some hd) as Hfirst by (rw Hr lookup_drop Nat.add_0_r //).
  destruct (hub_log h) as [|hd' tl]; [done|]. simplify_eq/=.
  assert (u64_add since 1 = since + 1) as Hadd by (apply u64_add_small; ints).
  rw bool_decide_true // in Hc. rw Hadd. lia.
Qed.

(** Nothing falls between the ring's snapshot and the receiver's batches. *)
Lemma no_gap cap n1 n2 n3 since c e :
  (1 ≤ cap)%nat → net_reachable cap n1 → rtc net_step n1 n2 → rtc net_step n2 n3 →
  0 ≤ since < U64_MAX → catchup (n_hub n2) (Some since) = Ok c →
  e ∈ published n3 → since < ev_seq e →
  e ∈ c ∨ e ∈ concat (drop (length (sent (n_hub n1))) (sent (n_hub n3))) ∨ e ∈ default [] (unsent n3).
Proof.
  intros Hcap R1 R12 R23 Hsince Hc He Hlt.
  destruct (net_rtc_inv _ _ _ Hcap R12 (net_reachable_inv _ _ Hcap R1)) as (I2 & (m12 & E12) & (s12 & F12)).
  destruct (net_rtc_inv _ _ _ Hcap R23 I2) as (I3 & (m23 & E23) & (s23 & F23)).
  rw F23 F12 -app_assoc drop_app_length. rw E23 in He. apply elem_of_app in He as [He|He].
  - left. exact (catchup_complete cap _ _ since c e Hcap I2 Hsince Hc He Hlt).
  - right. destruct (decide (e ∈ concat (s12 ++ s23))) as [|Hno]; [by left|right].
    (* e is after [published n2], which is at least [concat (sent n1)] long *)
    assert (Hpos : published n3 = concat (sent (n_hub n1)) ++ concat (s12 ++ s23) ++ default [] (unsent n3)).
    { unfold published. rw F23 F12 !concat_app -!app_assoc //. }
    assert (∃ m, published n2 = concat (sent (n_hub n1)) ++ m) as [m Hm].
    { unfold published in *. rw F12 concat_app -app_assoc. by eexists. }
    rw E23 Hm -app_assoc in Hpos. apply app_inv_head in Hpos.
    assert (e ∈ m ++ m23) as Hem by set_solver. rw Hpos in Hem. set_solver.
Qed.

(** No event falls between catch-up and live stream.  A subscriber takes its
    receiver in state [n1], the ring is read in a later state [n2] (with
    anything published in between), and the subscription was not refused with
    [TooOld]: then in every later state [n3] each published event after
    [since] is in the catch-up, in the batches its receiver was sent, or in
    the batch about to be sent. *)
Theorem subscribe_no_gap cap n1 n2 n3 since c e :
  (1 ≤ cap)%nat → net_reachable cap n1 → rtc net_step n1 n2 → rtc net_step n2 n3 →
  0 ≤ since < U64_MAX → catchup (n_hub n2) (Some since) = Ok c →
  e ∈ published n3 → since < ev_seq e →
  e ∈ c ∨ e ∈ concat (drop (length (sent (n_hub n1))) (sent (n_hub n3))) ∨ e ∈ default [] (unsent n3).
Proof. apply no_gap. Qed.

Lemma subscribe_no_gap_witness :
  let n1 := mkNet (with_capacity 2) None in
  let e := mkFsEvent 3 Removed "c" None None in
  e ∈ [mkFsEvent 2 Modified "b" None None; e] ∨
  e ∈ concat (drop (length (sent (n_hub n1))) (sent (n_hub sample_net))) ∨ e ∈ default [] (unsent sample_net).
Proof.
  apply (subscribe_no_gap 2 (mkNet (with_capacity 2) None) sample_net sample_net 1
    [mkFsEvent 2 Modified "b" None None; mkFsEvent 3 Removed "c" None None]
    (mkFsEvent 3 Removed "c" None None)).
  - lia.
  - apply rtc_refl.
  - apply sample_net_reachable.
  - apply rtc_refl.
  - vm_compute. split; [discriminate|reflexivity].
  - reflexivity.
  - right. right. left.
  - reflexivity.
Defined.

(** A cursor at or past the hub's last number is answered with an empty
    catch-up, never with [TooOld]: after the agent restarts (its hub starts at
    0 again) a client that resumes from its old cursor is told it missed
    nothing, whatever was published before the restart or since. *)
Theorem stale_cursor_looks_current cap n since :
  (1 ≤ cap)%nat → net_reachable cap n → last_seq (n_hub n) ≤ since < U64_MAX →
  catchup (n_hub n) (Some since) = Ok [].
Proof.
  intros Hcap Hr Hs. destruct (net_reachable_inv _ _ Hcap Hr) as [_ H2 H3 H4].
  unfold last_seq in Hs. assert (Hle : ∀ e, e ∈ hub_log (n_hub n) → ev_seq e ≤ since).
  { intros e He. rw H4 in He. apply list_elem_of_lookup in He as [i Hi]. rw lookup_drop in Hi.
    pose proof (seqZ_lookup_ev _ _ _ H3 Hi). apply lookup_lt_Some in Hi. lia. }
  assert (base.filter (λ e, since < ev_seq e) (hub_log (n_hub n)) = []) as Hf.
  { destruct (base.filter _ _) as [|e l] eqn:E; [done|].
    assert (e ∈ base.filter (λ e, since < ev_seq e) (hub_log (n_hub n))) as He by (rw E; left).
    apply list_elem_of_filter in He as [? He]. specialize (Hle _ He). lia. }
  unfold catchup. rw Hf. destruct (hub_log (n_hub n)) as [|hd tl]; [done|].
  specialize (Hle hd ltac:(left)).
  assert (u64_add since 1 = since + 1) as Hadd by (apply u64_add_small; ints).
  rw bool_decide_false // Hadd. lia.
Qed.

Lemma stale_cursor_looks_current_witness : catchup (n_hub sample_net) (Some 5000) = Ok [].
Proof.
  apply (stale_cursor_looks_current 2 sample_net 5000 ltac:(lia) sample_net_reachable).
  vm_compute. split; [discriminate|reflexivity].
Defined.

(** ** Versions *)

(** No file's version is past the clock. *)
Definition versions_inv (v : Versions) : Prop :=
  0 ≤ vclock v ∧ ∀ p n, versions v !! p = Some n → 0 < n ≤ vclock v.

Lemma bump_inv v p :
  vclock v < U64_MAX → versions_inv v →
  versions_inv (bump v p).2 ∧ vclock (bump v p).2 = vclock v + 1 ∧ version_of (bump v p).2 p = vclock v + 1.
Proof.
  intros Hmax [H0 Hv]. unfold bump, version_of. simpl.
  assert (u64_add (vclock v) 1 = vclock v + 1) as -> by (apply u64_add_small; ints).
  rw lookup_insert_eq. split; [|done]. split; simpl; [lia|].
  intros q n [[<- <-]|[_ Hq]]%lookup_insert_Some; [lia|]. specialize (Hv _ _ Hq). lia.
Qed.

Lemma bump_one_inv v pk :
  vclock v < U64_MAX → versions_inv v →
  versions_inv (bump_one v pk) ∧ vclock v ≤ vclock (bump_one v pk) ≤ vclock v + 1.
Proof.
  intros Hmax Hv. unfold bump_one. destruct (pk.2) as [| | | |to|]; try (split; [done|lia]).
  1,2,3,5: destruct (bump_inv v pk.1 Hmax Hv) as (? & -> & _); split; [done|lia].
  unfold rename_version. destruct (bump_inv (mkVersions (delete pk.1 (versions v)) (vclock v)) to Hmax)
    as (? & -> & _); [|split; [done|simpl; lia]].
  destruct Hv as [H0 Hv]. split; [done|]. simpl. intros q n. rw lookup_delete_Some. intros [_ Hq]. by apply (Hv q).
Qed.

(** The path whose version an event advances. *)
Definition bumped (pk : RelPath * EventKind) : RelPath :=
  match pk.2 with RenamedFrom to => to | _ => pk.1 end.

Definition renames_away (target : RelPath) (pk : RelPath * EventKind) : Prop :=
  match pk.2 with RenamedFrom _ => pk.1 = target | _ => False end.

Lemma bump_one_version v pk target :
  0 ≤ vclock v < U64_MAX → ¬ renames_away target pk →
  version_of (bump_one v pk) target =
  if decide (pk.2 ≠ Removed ∧ bumped pk = target) then vclock v + 1 else version_of v target.
Proof.
  intros Hmax Haway. assert (u64_add (vclock v) 1 = vclock v + 1) as Hadd by (apply u64_add_small; ints).
  assert (∀ (m : gmap string Z) p, default 0 (<[p := vclock v + 1]> m !! target)
          = if decide (p = target) then vclock v + 1 else default 0 (m !! target)) as Hins.
  { intros m p. destruct (decide (p = target)) as [->|]; [by rw lookup_insert_eq|by rw lookup_insert_ne]. }
  assert (Hif : ∀ (P : Prop) `{Decision P} (x y : Z), (if decide (pk.2 ≠ Removed ∧ P) then x else y)
    = if decide (pk.2 = Removed) then y else if decide P then x else y).
  { intros P HP x y. destruct (decide (pk.2 = Removed)), (decide P), (decide (_ ∧ _)); naive_solver. }
  rw Hif. unfold bump_one, rename_version, bump, version_of, bumped, renames_away in *.
  destruct pk as [p [| | | |to|]]; cbn [fst snd versions vclock] in *; rw ?Hadd ?Hins //.
  destruct (decide (to = target)); [done|]. by rw lookup_delete_ne.
Qed.

Lemma fold_bump_fresh batch v0 c target :
  versions_inv v0 → vclock v0 + Z.of_nat (length batch) ≤ U64_MAX →
  Forall (λ pk, ¬ renames_away target pk) batch → c ≤ vclock v0 →
  c < version_of v0 target ∨ (∃ pk, pk ∈ batch ∧ pk.2 ≠ Removed ∧ bumped pk = target) →
  c < version_of (foldl bump_one v0 batch) target.
Proof.
  revert v0. induction batch as [|pk batch IH]; intros v0 Hv0 Hmax Hkeep Hle Hor.
  { destruct Hor as [|(pk & Hin & _)]; [done|set_solver]. }
  apply Forall_cons in Hkeep as [Hpk Hkeep]. simpl in Hmax |- *.
  destruct (bump_one_inv v0 pk ltac:(lia) Hv0) as [Hv1 Hc1]. apply IH; [done|lia|done|lia|].
  rw bump_one_version //; [|destruct Hv0; lia].
  destruct (decide _) as [|Hn]; [left; lia|].
  destruct Hor as [?|(pk' & [->|Hin]%elem_of_cons & Hk)]; [by left|done|right; eauto].
Qed.

(** Versions only move forward: after a batch is published, the version of
    every path the batch created, modified or renamed to (and did not rename
    away) is larger than every version any path had before, so no client can
    mistake the new content for one it has cached. *)
Theorem published_version_is_fresh now v h batch pk q n :
  versions_inv v → vclock v + Z.of_nat (length batch) ≤ U64_MAX →
  pk ∈ batch → pk.2 ≠ Removed → Forall (λ pk', ¬ renames_away (bumped pk) pk') batch →
  versions v !! q = Some n →
  n < version_of (publish_batch now v h batch).1 (bumped pk).
Proof.
  intros Hv Hmax Hin Hk Hkeep Hq. destruct (proj2 Hv _ _ Hq).
  enough (vclock v < version_of (publish_batch now v h batch).1 (bumped pk)) by lia.
  destruct batch as [|pk0 batch]; [set_solver|]. apply fold_bump_fresh; [done..|].
  right. eauto.
Qed.

Lemma published_version_is_fresh_witness :
  7 < version_of (publish_batch 0 (mkVersions {["a" := 7]} 7) (with_capacity 2)
        [("a", RenamedFrom "b"); ("c", Modified)]).1 "b".
Proof.
  apply (published_version_is_fresh 0 (mkVersions {["a" := 7]} 7) (with_capacity 2)
    [("a", RenamedFrom "b"); ("c", Modified)] ("a", RenamedFrom "b") "a" 7).
  - split; [done|]. intros p n. simpl. intros [<- <-]%lookup_singleton_Some. lia.
  - vm_compute. discriminate.
  - left.
  - discriminate.
  - repeat constructor; vm_compute; by intros.
  - reflexivity.
Defined.
