(* ===== verification/Inode.v ===== *)
(** * Inode: inode numbers and paths

    [InodeTable] of alloyfs-client/src/inode.rs.  The two concurrent maps are
    two finite maps; [get_or_alloc] is split where another thread may run, and
    [rename] takes the order in which the map happens to be iterated.  The
    theorems: every operation keeps [by_path] a section of [by_ino]; a rename
    moves a subtree without changing any inode number, in every iteration
    order; and what happens when a rename replaces an existing file. *)

From S2P Require Import Prelude Messages.

Definition ROOT_INO : Z := 1.

Record InodeTable : Type := mkTable {
  by_ino : gmap Z string; by_path : gmap string Z; next_ino : Z
}.

Definition table_new : InodeTable := mkTable {[ROOT_INO := ""]} {["" := ROOT_INO]} (ROOT_INO + 1).

(** [get_or_alloc] after its first lookup missed and it took number [ino]:
    another caller may have entered the path meanwhile. *)
Definition alloc_enter (t : InodeTable) (path : RelPath) (ino : Z) : Z * InodeTable :=
  match by_path t !! path with
  | Some winner => (winner, if bool_decide (winner = ino)
                            then mkTable (<[ino := path]> (by_ino t)) (by_path t) (next_ino t) else t)
  | None => (ino, mkTable (<[ino := path]> (by_ino t)) (<[path := ino]> (by_path t)) (next_ino t))
  end.

(** Its first half: found, or a number taken. *)
Definition alloc_number (t : InodeTable) (path : RelPath) : option Z * Z * InodeTable :=
  match by_path t !! path with
  | Some ino => (Some ino, 0, t)
  | None => (None, next_ino t, mkTable (by_ino t) (by_path t) (u64_add (next_ino t) 1))
  end.

Definition get_or_alloc (t : InodeTable) (path : RelPath) : Z * InodeTable :=
  match alloc_number t path with
  | (Some ino, _, t') => (ino, t')
  | (None, ino, t') => alloc_enter t' path ino
  end.

Definition path_of (t : InodeTable) (ino : Z) : option RelPath := by_ino t !! ino.
Definition ino_of (t : InodeTable) (path : RelPath) : option Z := by_path t !! path.

(** The new path of an entry affected by a rename. *)
Definition retarget (from to path : RelPath) : option RelPath :=
  if bool_decide (path = from) then Some to
  else if starts_with (from +:+ "/") path
       then Some (to +:+ str_drop (String.length from) path)
  else None.

(** [affected], for one order of iterating [by_ino]. *)
Definition affected (from to : RelPath) (entries : list (Z * RelPath)) : list (Z * RelPath) :=
  omap (λ ip, match retarget from to ip.2 with Some p => Some (ip.1, p) | None => None end) entries.

Definition rename_one (t : InodeTable) (ip : Z * RelPath) : InodeTable :=
  let '(ino, new_path) := ip in
  let bp := match by_ino t !! ino with
            | Some old_path => delete old_path (by_path t)
            | None => by_path t
            end in
  mkTable (<[ino := new_path]> (delete ino (by_ino t))) (<[new_path := ino]> bp) (next_ino t).

Definition rename_in_order (entries : list (Z * RelPath)) (t : InodeTable) (from to : RelPath) : InodeTable :=
  foldl rename_one t (affected from to entries).

Definition rename (t : InodeTable) (from to : RelPath) : InodeTable :=
  rename_in_order (map_to_list (by_ino t)) t from to.

Definition forget (t : InodeTable) (ino : Z) : InodeTable :=
  if bool_decide (ino = ROOT_INO) then t
  else match by_ino t !! ino with
  | Some path => mkTable (delete ino (by_ino t)) (delete path (by_path t)) (next_ino t)
  | None => t
  end.

(** ** The invariant *)

(** Looking a path up and back gives the path; numbers in use are below the
    counter. *)
Record table_inv (t : InodeTable) : Prop := {
  ti_section : ∀ p i, by_path t !! p = Some i → by_ino t !! i = Some p;
  ti_fresh : ∀ i p, by_ino t !! i = Some p → ROOT_INO ≤ i < next_ino t;
  ti_next : ROOT_INO < next_ino t
}.

(** The two maps are inverse of each other. *)
Definition bijective (t : InodeTable) : Prop :=
  ∀ p i, by_path t !! p = Some i ↔ by_ino t !! i = Some p.

Lemma rename_one_inv t ip : is_Some (by_ino t !! ip.1) → table_inv t → table_inv (rename_one t ip).
Proof.
  intros [old Hold] [Hs Hf Hn]. destruct ip as [ino new]. simpl in Hold. unfold rename_one. rw Hold.
  split; simpl; [| |done].
  - intros p i [[<- <-]|[Hne [Hpo Hp]%lookup_delete_Some]]%lookup_insert_Some; [by rw lookup_insert_eq|].
    specialize (Hs _ _ Hp). destruct (decide (i = ino)) as [->|]; [congruence|].
    by rw lookup_insert_ne // lookup_delete_ne.
  - intros i p [[<- <-]|[Hne [_ Hi]%lookup_delete_Some]]%lookup_insert_Some; by eapply Hf.
Qed.

Lemma rename_one_domain t ip i :
  is_Some (by_ino t !! ip.1) → is_Some (by_ino (rename_one t ip) !! i) ↔ is_Some (by_ino t !! i).
Proof.
  destruct ip as [ino new]. intros Hin. unfold rename_one. simpl in *. rw insert_delete_eq.
  destruct (decide (i = ino)) as [->|]; [by rw lookup_insert_eq|by rw lookup_insert_ne].
Qed.

Lemma rename_one_next t ip : next_ino (rename_one t ip) = next_ino t.
Proof. by destruct ip. Qed.

Lemma rename_fold_inv l t :
  Forall (λ ip, is_Some (by_ino t !! ip.1)) l → table_inv t → table_inv (foldl rename_one t l).
Proof.
  revert t. induction l as [|ip l IH]; intros t Hl Ht; [done|].
  apply Forall_cons in Hl as [Hip Hl]. simpl. apply IH; [|by apply rename_one_inv].
  eapply Forall_impl; [exact Hl|]. intros x. by rw rename_one_domain.
Qed.

Lemma elem_of_affected from to entries i p :
  (i, p) ∈ affected from to entries ↔ ∃ q, (i, q) ∈ entries ∧ retarget from to q = Some p.
Proof.
  unfold affected. rw list_elem_of_omap. split.
  - intros ([i' q] & Hin & Hr). simpl in Hr. destruct (retarget from to q) eqn:E; simplify_eq. eauto.
  - intros (q & Hin & Hr). exists (i, q). split; [done|]. simpl. by rw Hr.
Qed.

Lemma rename_inv entries t from to :
  (∀ i p, (i, p) ∈ entries → by_ino t !! i = Some p) → table_inv t →
  table_inv (rename_in_order entries t from to).
Proof.
  intros Hent Ht. apply rename_fold_inv; [|done]. apply Forall_forall. intros [i p] Hin.
  apply elem_of_affected in Hin as (q & Hq & _). simpl. rw (Hent _ _ Hq). eauto.
Qed.

(** Another caller's entering of the same path between the two halves of
    [get_or_alloc] is covered: [ino] is any number taken and not used. *)
Lemma alloc_enter_inv t path ino :
  table_inv t → by_ino t !! ino = None → ROOT_INO ≤ ino < next_ino t →
  let '(r, t') := alloc_enter t path ino in
  table_inv t' ∧ by_path t' !! path = Some r ∧ by_ino t' !! r = Some path.
Proof.
  intros [Hs Hf Hn] Hino Hlt. unfold alloc_enter. destruct (by_path t !! path) as [w|] eqn:Ew.
  - pose proof (Hs _ _ Ew) as Hw. rw bool_decide_false; [|congruence]. done.
  - split; [|by rw /= lookup_insert_eq lookup_insert_eq]. split; simpl; [| |done].
    + intros p i [[<- <-]|[Hne Hp]]%lookup_insert_Some; [by rw lookup_insert_eq|].
      specialize (Hs _ _ Hp). rw lookup_insert_ne //. congruence.
    + intros i p [[<- <-]|[Hne Hi]]%lookup_insert_Some; [done|by eapply Hf].
Qed.

Lemma alloc_number_inv t path found ino t' :
  next_ino t < U64_MAX → table_inv t → alloc_number t path = (found, ino, t') →
  table_inv t' ∧ (found = None → by_ino t' !! ino = None ∧ ROOT_INO ≤ ino < next_ino t').
Proof.
  intros Hmax [Hs Hf Hn]. unfold alloc_number. destruct (by_path t !! path); intros [= <- <- <-].
  - split; [by split|done].
  - assert (u64_add (next_ino t) 1 = next_ino t + 1) as -> by (apply u64_add_small; unfold ROOT_INO in *; ints).
    split.
    + split; simpl; [done| |lia]. intros i p Hi. specialize (Hf _ _ Hi). lia.
    + intros _. simpl. split; [|lia]. apply eq_None_not_Some. intros [p Hp]. specialize (Hf _ _ Hp). lia.
Qed.

Lemma get_or_alloc_inv t path :
  next_ino t < U64_MAX → table_inv t →
  let '(r, t') := get_or_alloc t path in
  table_inv t' ∧ by_path t' !! path = Some r ∧ by_ino t' !! r = Some path.
Proof.
  intros Hmax Ht. unfold get_or_alloc.
  destruct (alloc_number t path) as [[[r|] ino] t'] eqn:E.
  - unfold alloc_number in E. destruct (by_path t !! path) as [i|] eqn:Ep; simplify_eq.
    split; [done|]. split; [done|]. by apply Ht.
  - destruct (alloc_number_inv _ _ _ _ _ Hmax Ht E) as [Ht' Hn]. destruct (Hn eq_refl).
    by apply alloc_enter_inv.
Qed.

Lemma forget_inv t ino : table_inv t → table_inv (forget t ino).
Proof.
  intros [Hs Hf Hn]. unfold forget. case_bool_decide; [by split|].
  destruct (by_ino t !! ino) as [path|] eqn:E; [|by split]. split; simpl; [| |done].
  - intros p i [Hne Hp]%lookup_delete_Some. specialize (Hs _ _ Hp). rw lookup_delete_ne //. congruence.
  - intros i p [_ Hi]%lookup_delete_Some. by eapply Hf.
Qed.

(** ** Every operation, in any order *)

Inductive InodeOp : Type :=
| OpGet (path : RelPath)
| OpRename (from to : RelPath)
| OpForget (ino : Z).

Definition run_op (t : InodeTable) (op : InodeOp) : InodeTable :=
  match op with
  | OpGet path => (get_or_alloc t path).2
  | OpRename from to => rename t from to
  | OpForget ino => forget t ino
  end.

Lemma next_get t path : 0 ≤ next_ino t < U64_MAX → next_ino t ≤ next_ino (get_or_alloc t path).2 ≤ next_ino t + 1.
Proof.
  intros Hn. unfold get_or_alloc, alloc_number, alloc_enter.
  destruct (by_path t !! path) eqn:E; simpl; [lia|]. rw E /=.
  rw u64_add_small; [lia|lia|lia|ints].
Qed.

Lemma next_rename_fold l t : next_ino (foldl rename_one t l) = next_ino t.
Proof. revert t. induction l as [|ip l IH]; intros t; [done|]. simpl. by rw IH rename_one_next. Qed.

Lemma run_op_inv t op :
  next_ino t < U64_MAX → table_inv t → table_inv (run_op t op) ∧ next_ino (run_op t op) ≤ next_ino t + 1.
Proof.
  intros Hmax Ht. destruct op as [path|from to|ino]; simpl.
  - pose proof (get_or_alloc_inv t path Hmax Ht) as H. pose proof (next_get t path) as Hn.
    destruct (get_or_alloc t path) as [r t']. simpl in *. destruct H as [H _]. split; [done|].
    destruct Ht as [_ _ Hr]. unfold ROOT_INO in Hr. lia.
  - split.
    + apply rename_inv; [|done]. intros i p. by rw elem_of_map_to_list.
    + unfold rename, rename_in_order. rw next_rename_fold. lia.
  - split; [by apply forget_inv|]. unfold forget. case_bool_decide; [lia|].
    destruct (by_ino t !! ino); simpl; lia.
Qed.

Lemma table_new_inv : table_inv table_new.
Proof.
  split; simpl; [| |done].
  - intros p i [<- <-]%lookup_singleton_Some. by rw lookup_singleton_eq.
  - intros i p [<- <-]%lookup_singleton_Some. done.
Qed.



(** ** Renames *)

(** At or below [dir]. *)
Definition at_or_below (dir p : RelPath) : Prop := p = dir ∨ starts_with (dir +:+ "/") p = true.

Lemma retarget_Some from to p n :
  retarget from to p = Some n ↔
  (p = from ∧ n = to) ∨ ∃ r, p = from +:+ "/" +:+ r ∧ n = to +:+ "/" +:+ r.
Proof.
  unfold retarget. case_bool_decide as Hp.
  - subst p. split; [intros [= <-]; by left|]. intros [[_ ->]|(r & Hr & _)]; [done|].
    apply (f_equal String.length) in Hr. rw !str_length_app /= in Hr. lia.
  - destruct (starts_with _ _) eqn:E.
    + apply starts_with_true in E as [r ->]. rw -app_assoc_str in Hp. rw -app_assoc_str str_drop_app. split.
      * intros [= <-]. right. by exists r.
      * intros [[? _]|(r' & Hr & ->)]; [done|]. f_equal. f_equal. f_equal.
        apply (f_equal (str_drop (String.length from))) in Hr. rw !str_drop_app in Hr.
        apply (f_equal (str_drop 1)) in Hr. by rw !(str_drop_app "/") in Hr.
    + split; [done|]. intros [[? _]|(r & -> & _)]; [done|].
      by rw app_assoc_str starts_with_app in E.
Qed.

Lemma retarget_below from to p n : retarget from to p = Some n → at_or_below to n.
Proof.
  intros [[_ ->]|(r & _ & ->)]%retarget_Some; [by left|right].
  by rw app_assoc_str starts_with_app.
Qed.

Lemma app_inj_l_str s s1 s2 : s +:+ s1 = s +:+ s2 → s1 = s2.
Proof. intros H. apply (f_equal (str_drop (String.length s))) in H. by rw !str_drop_app in H. Qed.

Lemma retarget_inj from to p q n : retarget from to p = Some n → retarget from to q = Some n → p = q.
Proof.
  intros [[-> ->]|(r & -> & ->)]%retarget_Some [[-> Hn]|(r' & -> & Hn)]%retarget_Some; try done.
  - apply (f_equal String.length) in Hn. rw !str_length_app /= in Hn. lia.
  - apply (f_equal String.length) in Hn. rw !str_length_app /= in Hn. lia.
  - apply app_inj_l_str, app_inj_l_str in Hn. by subst.
Qed.

(** Retargeting known inodes to distinct unknown paths keeps the maps inverse
    and changes exactly those inodes' paths. *)
Lemma rename_fold_spec l t :
  bijective t → NoDup l.*1 → NoDup l.*2 →
  (∀ i n, (i, n) ∈ l → is_Some (by_ino t !! i) ∧ by_path t !! n = None) →
  let t' := foldl rename_one t l in
  bijective t' ∧
  (∀ i n, (i, n) ∈ l → by_ino t' !! i = Some n) ∧
  (∀ i, i ∉ l.*1 → by_ino t' !! i = by_ino t !! i).
Proof.
  revert t. induction l as [|[i n] l IH]; intros t Hb Hd1 Hd2 Hl; cbn zeta.
  { split; [done|]. split; [set_solver|done]. }
  simpl in Hd1, Hd2. apply NoDup_cons in Hd1 as [Hi Hd1]. apply NoDup_cons in Hd2 as [Hn Hd2].
  destruct (Hl i n) as [[old Hold] Hnone]; [left|]. simpl.
  assert (Ho : by_path t !! old = Some i) by (by apply Hb).
  set (t1 := rename_one t (i, n)).
  assert (E1 : by_ino t1 = <[i := n]> (by_ino t)) by (subst t1; simpl; by rw insert_delete_eq).
  assert (E2 : by_path t1 = <[n := i]> (delete old (by_path t))) by (subst t1; simpl; by rw Hold).
  assert (Hb1 : bijective t1).
  { intros p j. rw E1 E2. split.
    - intros [[<- <-]|[Hne [Hpo Hp]%lookup_delete_Some]]%lookup_insert_Some; [by rw lookup_insert_eq|].
      apply Hb in Hp as Hj. rw lookup_insert_ne //. congruence.
    - intros [[<- <-]|[Hne Hj]]%lookup_insert_Some; [by rw lookup_insert_eq|].
      apply Hb in Hj as Hp. rw lookup_insert_ne; [|congruence]. rw lookup_delete_ne //. congruence. }
  destruct (IH t1 Hb1 Hd1 Hd2) as (B & C & D).
  { intros j m Hjm. destruct (Hl j m) as [Hj Hm]; [by right|]. rw E1 E2. split.
    - destruct (decide (j = i)) as [->|]; [by rw lookup_insert_eq|by rw lookup_insert_ne].
    - rw lookup_insert_ne; [|intros ->; apply Hn; by apply (list_elem_of_fmap_2 snd l (j, m))].
      destruct (decide (m = old)) as [->|]; [by rw lookup_delete_eq|by rw lookup_delete_ne]. }
  split; [done|]. split.
  - intros j m [[= -> ->]|Hjm]%elem_of_cons; [|by apply C]. rw D // E1 lookup_insert_eq //.
  - intros j [Hj1 Hj2]%not_elem_of_cons. rw D // E1 lookup_insert_ne //.
Qed.

(** A rename to a path the table knows nothing at or below moves the whole
    subtree: every inode keeps its number, those at or below [from] get their
    path retargeted, the others keep it, and the two maps stay inverse of each
    other -- in whatever order the concurrent map is iterated. *)
Theorem rename_moves_subtree t from to entries :
  bijective t → entries ≡ₚ map_to_list (by_ino t) →
  (∀ p, at_or_below to p → by_path t !! p = None) →
  let t' := rename_in_order entries t from to in
  bijective t' ∧
  ∀ i p, path_of t i = Some p → path_of t' i = Some (default p (retarget from to p)).
Proof.
  intros Hb Hperm Hfree. cbn zeta. unfold rename_in_order. set (l := affected from to entries).
  assert (Hent : ∀ i p, (i, p) ∈ entries ↔ by_ino t !! i = Some p).
  { intros i p. rw Hperm. apply elem_of_map_to_list. }
  assert (Hnd : NoDup entries.*1) by (rw Hperm; apply NoDup_fst_map_to_list).
  assert (Hsub : sublist l.*1 entries.*1).
  { subst l. unfold affected. clear. induction entries as [|[i p] es IH]; [done|]. simpl.
    destruct (retarget from to p); simpl; [by apply sublist_skip|by apply sublist_cons]. }
  assert (Hd2 : NoDup l.*2).
  { apply NoDup_fmap_2_strong; [|subst l; apply (NoDup_fmap_1 fst); by eapply sublist_NoDup].
    intros [i n] [j m] Hi Hj Hnm. simpl in Hnm. subst m.
    apply elem_of_affected in Hi as (p & Hp & Hrp). apply elem_of_affected in Hj as (q & Hq & Hrq).
    rw Hent in Hp. rw Hent in Hq. assert (p = q) as -> by (by eapply retarget_inj).
    apply Hb in Hp. apply Hb in Hq. congruence. }
  destruct (rename_fold_spec l t Hb) as (B & C & D); [by eapply sublist_NoDup|done| |].
  { intros i n (p & Hp & Hr)%elem_of_affected. split; [rw Hent in Hp; by rw Hp|].
    by eapply Hfree, retarget_below. }
  split; [done|]. intros i p Hip. unfold path_of in *.
  destruct (retarget from to p) as [n|] eqn:Er; simpl.
  - apply C, elem_of_affected. exists p. by rw Hent.
  - rw D //. intros ([j n] & Hj & Hin)%list_elem_of_fmap. simpl in Hj. subst j.
    apply elem_of_affected in Hin as (q & Hq & Hr). rw Hent in Hq. congruence.
Qed.

Definition small_table : InodeTable := run_op (run_op table_new (OpGet "d")) (OpGet "d/x").

Lemma get_bijective t path : table_inv t → bijective t → bijective (run_op t (OpGet path)).
Proof.
  unfold run_op.
  intros [_ Hf _] Hb. unfold get_or_alloc, alloc_number, alloc_enter.
  destruct (by_path t !! path) as [i|] eqn:E; simpl; [done|]. rw E. intros p j. simpl.
  assert (Hn : by_ino t !! next_ino t = None).
  { apply eq_None_not_Some. intros [q Hq]. specialize (Hf _ _ Hq). lia. }
  rw !lookup_insert_Some. rw (Hb p j). split.
  - intros [[<- <-]|[Hne Hj]]; [by left|right]. split; [congruence|done].
  - intros [[<- <-]|[Hne Hj]]; [by left|right]. split; [|done]. intros <-. apply Hb in Hj. congruence.
Qed.

Lemma table_new_bijective : bijective table_new.
Proof. intros p i. simpl. rw !lookup_singleton_Some. naive_solver. Qed.

Lemma small_table_bijective : bijective small_table.
Proof.
  apply get_bijective.
  - apply run_op_inv; [vm_compute; reflexivity|apply table_new_inv].
  - apply get_bijective; [apply table_new_inv|apply table_new_bijective].
Qed.

Lemma rename_moves_subtree_witness :
  let t' := rename_in_order (reverse (map_to_list (by_ino small_table))) small_table "d" "f" in
  bijective t' ∧ path_of t' 3 = Some "f/x".
Proof.
  pose proof (rename_moves_subtree small_table "d" "f" (reverse (map_to_list (by_ino small_table)))
    small_table_bijective (reverse_Permutation _)) as [H1 H2].
  - intros p Hp. destruct (by_path small_table !! p) as [i|] eqn:E; [|done]. exfalso.
    apply elem_of_map_to_list in E. vm_compute in E.
    repeat (apply elem_of_cons in E as [[= -> ->]|E]; [by destruct Hp|]). by apply elem_of_nil in E.
  - split; [exact H1|]. exact (H2 3 "d/x" eq_refl).
Defined.

(** When a rename replaces a file whose inode the table knows, forgetting the
    replaced inode later takes the path away from the inode that lives there:
    the table no longer finds "b", and the next lookup of "b" hands out a
    second number for the file inode 2 still stands for. *)
Theorem forget_after_replace_unlinks_live_inode :
  let t := foldl run_op table_new [OpGet "a"; OpGet "b"; OpRename "a" "b"; OpForget 3] in
  path_of t 2 = Some "b" ∧ ino_of t "b" = None ∧ (get_or_alloc t "b").1 = 4.
Proof. vm_compute. done. Qed.
