(* ===== verification/ReadAhead.v ===== *)
(** * ReadAhead: prefetching and the block-assembling read

    [ReadAhead] of alloyfs-client/src/readahead.rs and the network part of
    [RemoteFs::read] (alloyfs-client/src/remote_fs.rs).  A spawned fetch is
    the answer it will complete with; the hit counters are not modelled.  The
    theorem: whatever the window and the retained ring hold, as long as they
    hold blocks of the file, a read that succeeds returns exactly the file's
    bytes, and the state it leaves is again of that kind. *)

From S2P Require Import Prelude Messages Common.

Definition WINDOW_BLOCKS : Z := 32.
Definition MIN_STREAK : Z := 2.
Definition RETAIN_BLOCKS : nat := 4.

Record SeqState : Type := mkSeq { expected_next : Z; streak : Z }.

(** [window]: block to the answer of its in-flight fetch ([None] = failed). *)
Record ReadAhead : Type := mkReadAhead {
  window : gmap Z (option (list Z));
  recent : list (Z * list Z);
  seq : SeqState
}.

Definition ra_new : ReadAhead := mkReadAhead ∅ [] (mkSeq 0 0).

Definition block_of (offset : Z) : Z := offset / DATA_CHUNK.

Definition clear (ra : ReadAhead) : ReadAhead := mkReadAhead ∅ [] (seq ra).

Definition observe (ra : ReadAhead) (offset size : Z) : bool * ReadAhead :=
  let s := seq ra in
  if bool_decide (offset = expected_next s) then
    let s' := mkSeq (u64_add offset size) (u32_saturating_add (streak s) 1) in
    (MIN_STREAK <=? streak s', mkReadAhead (window ra) (recent ra) s')
  else
    let block := block_of offset in
    let expected_block := block_of (expected_next s) in
    let near := (saturating_sub expected_block WINDOW_BLOCKS <=? block)
                && (block <=? u64_saturating_add expected_block WINDOW_BLOCKS) in
    if near then
      let s' := mkSeq (Z.max (expected_next s) (u64_add offset size)) (u32_saturating_add (streak s) 1) in
      (MIN_STREAK <=? streak s', mkReadAhead (window ra) (recent ra) s')
    else
      let s' := mkSeq (u64_add offset size) (if bool_decide (offset = 0) then 1 else 0) in
      (false, clear (mkReadAhead (window ra) (recent ra) s')).

(** [take]: the in-flight fetch, consumed. *)
Definition ra_take (ra : ReadAhead) (block : Z) : option (option (list Z)) * ReadAhead :=
  (window ra !! block, mkReadAhead (delete block (window ra)) (recent ra) (seq ra)).

Definition retained (ra : ReadAhead) (block : Z) : option (list Z) :=
  match list_find (λ bd : Z * list Z, bd.1 = block) (recent ra) with
  | Some (_, (_, d)) => Some d
  | None => None
  end.

Definition ra_retain (ra : ReadAhead) (block : Z) (data : list Z) : ReadAhead :=
  match list_find (λ bd : Z * list Z, bd.1 = block) (recent ra) with
  | Some (i, _) => mkReadAhead (window ra) (<[i := (block, data)]> (recent ra)) (seq ra)
  | None =>
      let r := if bool_decide (length (recent ra) = RETAIN_BLOCKS) then tail (recent ra) else recent ra in
      mkReadAhead (window ra) (r ++ [(block, data)]) (seq ra)
  end.

Definition missing (ra : ReadAhead) (from_block max_block_exclusive : Z) : list Z :=
  base.filter (λ b, window ra !! b = None)
    (seqZ from_block (Z.min (u64_saturating_add from_block WINDOW_BLOCKS) max_block_exclusive - from_block)).

Definition put (ra : ReadAhead) (block : Z) (task : option (list Z)) : ReadAhead :=
  mkReadAhead (<[block := task]> (window ra)) (recent ra) (seq ra).

(** ** The read *)

Section Read.
Context (fetch : Z → option (list Z)).   (* [fetch_block] on the current connection *)

(** The top-up of the window. *)
Definition top_up (ra : ReadAhead) (last_block : Z) : ReadAhead :=
  foldl (λ ra b, put ra b (fetch b)) ra (missing ra (u64_add last_block 1) U64_MAX).

(** The loop that collects [ready] and [need]. *)
Fixpoint collect (ra : ReadAhead) (ready : gmap Z (list Z)) (need : list Z) (blocks : list Z)
    : ReadAhead * gmap Z (list Z) * list Z :=
  match blocks with
  | [] => (ra, ready, need)
  | b :: rest =>
      match retained ra b with
      | Some data => collect ra (<[b := data]> ready) need rest
      | None =>
          let '(task, ra') := ra_take ra b in
          match task with
          | Some (Some data) => collect ra' (<[b := data]> ready) need rest
          | _ => collect ra' ready (need ++ [b]) rest
          end
      end
  end.

(** The synchronous fetches; one failure fails the read. *)
Fixpoint fetch_need (ready : gmap Z (list Z)) (need : list Z) : result (gmap Z (list Z)) ErrorCode :=
  match need with
  | [] => Ok ready
  | b :: rest => match fetch b with
                 | Some d => fetch_need (<[b := d]> ready) rest
                 | None => Err Io
                 end
  end.

(** The assembly loop: a short block ends the file. *)
Fixpoint assemble (ready : gmap Z (list Z)) (blocks : list Z) : result (list Z) ErrorCode :=
  match blocks with
  | [] => Ok []
  | b :: rest =>
      match ready !! b with
      | None => Err Io
      | Some data =>
          if blen data <? DATA_CHUNK then Ok data
          else let? more := assemble ready rest in Ok (data ++ more)
      end
  end.

(** [assembled[skip..(skip + size).min(len)]], or nothing past the end. *)
Definition cut (assembled : list Z) (skip size : Z) : list Z :=
  if blen assembled <=? skip then []
  else take (Z.to_nat (Z.min (skip + size) (blen assembled) - skip)) (drop (Z.to_nat skip) assembled).

Definition read_network (ra : ReadAhead) (offset size : Z) : result (list Z) ErrorCode * ReadAhead :=
  let '(prefetch, ra) := observe ra offset size in
  let first_block := block_of offset in
  let last_block := block_of (u64_add offset (Z.max size 1) - 1) in
  let blocks := seqZ first_block (last_block - first_block + 1) in
  let ra := if prefetch then top_up ra last_block else ra in
  let '(ra, ready, need) := collect ra ∅ [] blocks in
  match fetch_need ready need with
  | Err e => (Err e, ra)
  | Ok ready =>
      match assemble ready blocks with
      | Err e => (Err e, ra)
      | Ok assembled =>
          let out := cut assembled (offset - first_block * DATA_CHUNK) size in
          (Ok out, foldl (λ ra bd, ra_retain ra bd.1 bd.2) ra (map_to_list ready))
      end
  end.
End Read.

Lemma DATA_CHUNK_pos : 0 < DATA_CHUNK.
Proof. done. Qed.
#[local] Opaque DATA_CHUNK.

(** ** Coherence with a file *)

(** Block [b] of a content. *)
Definition block (content : list Z) (b : Z) : list Z :=
  slice content (Z.to_nat (b * DATA_CHUNK)) (Z.to_nat DATA_CHUNK).

(** Everything held is a block of the file; the ring is bounded. *)
Record coherent (content : list Z) (ra : ReadAhead) : Prop := {
  co_window : ∀ b d, window ra !! b = Some (Some d) → d = block content b;
  co_recent : ∀ b d, (b, d) ∈ recent ra → d = block content b;
  co_bounded : (length (recent ra) ≤ RETAIN_BLOCKS)%nat
}.

Lemma clear_coherent content ra : coherent content (clear ra).
Proof. split; simpl; [done|set_solver|unfold RETAIN_BLOCKS; lia]. Qed.

Lemma observe_coherent content ra offset size :
  coherent content ra → coherent content (observe ra offset size).2.
Proof.
  intros [H1 H2 H3]. unfold observe. case_bool_decide; [done|].
  destruct (_ && _); [done|apply clear_coherent].
Qed.

Lemma retained_spec ra b d : retained ra b = Some d → (b, d) ∈ recent ra.
Proof.
  unfold retained. destruct (list_find _ _) as [[i [b' d']]|] eqn:E; [|done]. intros [= <-].
  apply list_find_Some in E as (Hi & Hb & _). simpl in Hb. subst b'. by eapply list_elem_of_lookup_2.
Qed.

Lemma retain_coherent content ra b :
  coherent content ra → coherent content (ra_retain ra b (block content b)).
Proof.
  intros [H1 H2 H3]. unfold ra_retain. destruct (list_find _ _) as [[i bd]|] eqn:E.
  - split; simpl; [done| |by rw length_insert].
    intros b' d' [j Hj]%list_elem_of_lookup. apply list_lookup_insert_Some in Hj.
    destruct Hj as [(_ & Heq & _)|[_ Hj]]; [by simplify_eq|]. by eapply H2, list_elem_of_lookup_2.
  - split; simpl; [done| |].
    + intros b' d' [Hin|Heq]%elem_of_app.
      * apply H2. case_bool_decide; [|done]. destruct (recent ra); [done|]. by right.
      * apply list_elem_of_singleton in Heq. by simplify_eq.
    + rw length_app. unfold RETAIN_BLOCKS in *. simpl. case_bool_decide as Hf; [destruct (recent ra); simpl in *|]; lia.
Qed.

Section Correct.
Context (content : list Z) (fetch : Z → option (list Z)).
Context (Hfetch : ∀ b d, fetch b = Some d → d = block content b).

Lemma put_coherent ra b : coherent content ra → coherent content (put ra b (fetch b)).
Proof using Hfetch.
  intros [H1 H2 H3]. split; simpl; [|done|done].
  intros b' d' [[<- Hf]|[_ ?]]%lookup_insert_Some; [by apply Hfetch|by apply H1].
Qed.

Lemma top_up_coherent ra last : coherent content ra → coherent content (top_up fetch ra last).
Proof using Hfetch.
  unfold top_up. generalize (missing ra (u64_add last 1) U64_MAX). intros l. revert ra.
  induction l as [|b l IH]; intros ra Hra; [done|]. simpl. by apply IH, put_coherent.
Qed.

Lemma collect_spec blocks ra ready need ra' ready' need' :
  coherent content ra → (∀ b d, ready !! b = Some d → d = block content b) →
  collect ra ready need blocks = (ra', ready', need') →
  coherent content ra' ∧ (∀ b d, ready' !! b = Some d → d = block content b) ∧
  (∀ b, is_Some (ready !! b) ∨ b ∈ need ∨ b ∈ blocks → is_Some (ready' !! b) ∨ b ∈ need').
Proof using.
  clear Hfetch fetch. revert ra ready need. induction blocks as [|b rest IH]; intros ra ready need Hra Hready; simpl.
  - intros [= <- <- <-]. split; [done|]. split; [done|]. set_solver.
  - destruct (retained ra b) as [data|] eqn:Er.
    + intros Hc. apply IH in Hc as (A & B & C); [|done|].
      * split; [done|]. split; [done|]. intros b' Hb'. apply C. destruct (decide (b' = b)) as [->|Hne].
        -- left. by rw lookup_insert_eq.
        -- rw lookup_insert_ne //. set_solver.
      * intros b' d' [[<- <-]|[_ ?]]%lookup_insert_Some; [|by apply Hready].
        apply retained_spec in Er. by apply (co_recent _ _ Hra).
    + assert (Hra1 : coherent content (mkReadAhead (delete b (window ra)) (recent ra) (seq ra))).
      { destruct Hra as [H1 H2 H3]. split; simpl; [|done|done]. intros b' d' [_ ?]%lookup_delete_Some. by apply H1. }
      assert (Hneed : collect (mkReadAhead (delete b (window ra)) (recent ra) (seq ra)) ready (need ++ [b]) rest
                      = (ra', ready', need') →
        coherent content ra' ∧ (∀ b d, ready' !! b = Some d → d = block content b) ∧
        (∀ b0, is_Some (ready !! b0) ∨ b0 ∈ need ∨ b0 ∈ b :: rest → is_Some (ready' !! b0) ∨ b0 ∈ need')).
      { intros Hc. apply IH in Hc as (A & B & C); [|done|done]. split; [done|]. split; [done|].
        intros b' Hb'. apply C. set_solver. }
      destruct (window ra !! b) as [[data|]|] eqn:Ew; [|done|done].
      intros Hc. apply IH in Hc as (A & B & C); [|done|].
      * split; [done|]. split; [done|]. intros b' Hb'. apply C. destruct (decide (b' = b)) as [->|Hne].
        -- left. by rw lookup_insert_eq.
        -- rw lookup_insert_ne //. set_solver.
      * intros b' d' [[<- <-]|[_ ?]]%lookup_insert_Some; [|by apply Hready]. by apply (co_window _ _ Hra).
Qed.

Lemma fetch_need_spec need ready ready' :
  (∀ b d, ready !! b = Some d → d = block content b) →
  fetch_need fetch ready need = Ok ready' →
  (∀ b d, ready' !! b = Some d → d = block content b) ∧
  (∀ b, is_Some (ready !! b) ∨ b ∈ need → is_Some (ready' !! b)).
Proof using Hfetch.
  revert ready. induction need as [|b rest IH]; intros ready Hr; simpl.
  - intros [= <-]. split; [done|]. set_solver.
  - destruct (fetch b) as [d|] eqn:Ef; [|done]. intros H. apply IH in H as [A B].
    + split; [done|]. intros b' Hb'. apply B. destruct (decide (b' = b)) as [->|Hne].
      * left. by rw lookup_insert_eq.
      * rw lookup_insert_ne //. set_solver.
    + intros b' d' [[<- <-]|[_ ?]]%lookup_insert_Some; [by apply Hfetch|by apply Hr].
Qed.

Lemma fetch_need_err need ready e :
  fetch_need fetch ready need = Err e → e = Io ∧ ∃ b, fetch b = None.
Proof using.
  revert ready. induction need as [|b rest IH]; intros ready; simpl; [done|].
  destruct (fetch b) eqn:Ef; [apply IH|]. intros [= <-]. eauto.
Qed.

(** The blocks from [first] on, assembled, are the file from there on. *)
Lemma assemble_spec ready n : ∀ first,
  0 ≤ first → (∀ b d, ready !! b = Some d → d = block content b) →
  (∀ b, b ∈ seqZ first (Z.of_nat n) → is_Some (ready !! b)) →
  assemble ready (seqZ first (Z.of_nat n)) =
  Ok (slice content (Z.to_nat (first * DATA_CHUNK)) (n * Z.to_nat DATA_CHUNK)).
Proof using.
  induction n as [|n IH]; intros first Hf Hr Hall.
  { cbn [assemble Z.of_nat seqZ]. by rw Nat.mul_0_l /slice take_0. }
  pose proof DATA_CHUNK_pos as HD. rw seqZ_cons in Hall |- *; [|lia].
  replace (Z.pred (Z.of_nat (S n))) with (Z.of_nat n) in Hall |- * by lia.
  destruct (Hall first) as [d Hd]; [left|]. cbn [assemble]. rw Hd. apply Hr in Hd.
  assert (Z.to_nat (Z.succ first * DATA_CHUNK) = Z.to_nat (first * DATA_CHUNK) + Z.to_nat DATA_CHUNK)%nat as Hnext by lia.
  rw Nat.mul_succ_l Nat.add_comm slice_app -Hnext.
  unfold blen. destruct (Z.ltb_spec (Z.of_nat (length d)) DATA_CHUNK) as [Hshort|Hfull].
  - subst d. f_equal. unfold block in *. rw slice_length in Hshort. symmetry.
    rw (slice_all _ (Z.to_nat (Z.succ first * DATA_CHUNK))); [apply app_nil_r|lia].
  - rw (IH (Z.succ first)); [|lia|done|intros b Hb; apply Hall; by right]. by subst d.
Qed.
End Correct.

(** Cutting the bytes asked for out of the assembled blocks. *)
Lemma cut_spec content off0 n skip size :
  0 ≤ skip → 0 ≤ size → 0 ≤ off0 → skip < n → skip + size ≤ n →
  cut (slice content (Z.to_nat off0) (Z.to_nat n)) skip size
  = slice content (Z.to_nat (off0 + skip)) (Z.to_nat size).
Proof.
  intros Hs Hz H0 Hn Hle. unfold cut, blen. set (a := slice content _ _).
  assert (Ha : length a = Nat.min (Z.to_nat n) (length content - Z.to_nat off0)) by apply slice_length.
  assert (Hoff : Z.to_nat (off0 + skip) = (Z.to_nat off0 + Z.to_nat skip)%nat) by lia.
  destruct (Z.leb_spec (Z.of_nat (length a)) skip) as [Hpast|Hin].
  - symmetry. apply slice_all. lia.
  - assert (drop (Z.to_nat skip) a = take (Z.to_nat n - Z.to_nat skip) (drop (Z.to_nat (off0 + skip)) content)) as Hd.
    { subst a. unfold slice. rw skipn_firstn_comm drop_drop Hoff //. }
    rw Hd take_take. unfold slice. set (l := drop _ content).
    assert (length l = length content - Z.to_nat (off0 + skip))%nat as Hl by apply length_drop.
    destruct (decide (skip + size ≤ Z.of_nat (length a))) as [Hfits|Hcut].
    + f_equal. lia.
    + rw !take_ge //; lia.
Qed.

Lemma blocks_cover offset size :
  0 ≤ offset → 0 ≤ size →
  let first := block_of offset in
  let last := block_of (offset + Z.max size 1 - 1) in
  0 ≤ first ≤ last ∧ first * DATA_CHUNK ≤ offset < first * DATA_CHUNK + DATA_CHUNK ∧
  offset + size ≤ (last + 1) * DATA_CHUNK.
Proof.
  intros Ho Hs. unfold block_of. pose proof DATA_CHUNK_pos as HD.
  pose proof (Z.div_mod offset DATA_CHUNK ltac:(lia)) as E1.
  pose proof (Z.mod_pos_bound offset DATA_CHUNK HD) as B1.
  pose proof (Z.div_mod (offset + Z.max size 1 - 1) DATA_CHUNK ltac:(lia)) as E2.
  pose proof (Z.mod_pos_bound (offset + Z.max size 1 - 1) DATA_CHUNK HD) as B2.
  split; [split; [by apply Z.div_pos|apply Z.div_le_mono; lia]|]. lia.
Qed.

(** A read through the prefetch window and the retained ring is a read of the
    file: if everything they hold is a block of [content] and the server
    answers with blocks of [content], then the read returns exactly the bytes
    [offset, offset + size) cut at the end of the file, or fails with [Io]
    because a fetch failed; and either way what is held afterwards is again
    blocks of [content], at most four of them retained. *)
Theorem read_network_exact content fetch ra offset size :
  (∀ b d, fetch b = Some d → d = block content b) → coherent content ra →
  0 ≤ offset → 0 ≤ size → offset + Z.max size 1 ≤ U64_MAX →
  let '(r, ra') := read_network fetch ra offset size in
  coherent content ra' ∧
  match r with
  | Ok out => out = slice content (Z.to_nat offset) (Z.to_nat size)
  | Err e => e = Io ∧ ∃ b, fetch b = None
  end.
Proof.
  intros Hf Hra Ho Hs Hmax. unfold read_network.
  assert (u64_add offset (Z.max size 1) = offset + Z.max size 1) as Hadd by (apply u64_add_small; lia).
  rw Hadd. destruct (blocks_cover offset size Ho Hs) as ((H1 & H2) & H3 & H4).
  set (first := block_of offset) in *. set (last := block_of (offset + Z.max size 1 - 1)) in *.
  pose proof (observe_coherent content ra offset size Hra) as Hobs.
  destruct (observe ra offset size) as [pre ra1]. simpl in Hobs.
  assert (Hra2 : coherent content (if pre then top_up fetch ra1 last else ra1)).
  { destruct pre; [by apply top_up_coherent|done]. }
  set (ra2 := if pre then top_up fetch ra1 last else ra1) in *.
  set (blocks := seqZ first (last - first + 1)).
  destruct (collect ra2 ∅ [] blocks) as [[ra3 ready] need] eqn:Ec.
  destruct (collect_spec content blocks ra2 ∅ [] ra3 ready need Hra2) as (A & B & C); [|done|].
  { intros b d. by rw lookup_empty. }
  destruct (fetch_need fetch ready need) as [ready'|e] eqn:En; cbn iota; [|split; [done|by eapply fetch_need_err]].
  destruct (fetch_need_spec content fetch Hf _ _ _ B En) as [B' C'].
  assert (Hn : last - first + 1 = Z.of_nat (Z.to_nat (last - first + 1))) by lia.
  unfold blocks in *. rw Hn in C |- *. rw (assemble_spec content ready' _ first H1 B'); cbn iota.
  - split; last first.
    + pose proof DATA_CHUNK_pos as HD.
      replace (Z.to_nat (last - first + 1) * Z.to_nat DATA_CHUNK)%nat
        with (Z.to_nat ((last - first + 1) * DATA_CHUNK)) by lia.
      rw cut_spec; [f_equal; f_equal; lia|lia|lia|nia|nia|nia].
    + assert (∀ l ra0, (∀ b d, (b, d) ∈ l → d = block content b) → coherent content ra0 →
        coherent content (foldl (λ ra bd, ra_retain ra bd.1 bd.2) ra0 l)) as Hfold.
      { intros l. induction l as [|[b d] l IH]; intros ra0 Hl H0; [done|]. simpl. apply IH.
        - intros b' d' Hin. apply Hl. by right.
        - rw (Hl b d ltac:(left)). by apply retain_coherent. }
      apply Hfold; [|done]. intros b d. rw elem_of_map_to_list. apply B'.
  - intros b Hb. apply C'. apply C. by right; right.
Qed.

Lemma read_network_exact_witness :
  let '(r, ra') := read_network (λ b, Some (block [5; 6; 7; 8] b)) ra_new 1 2 in
  coherent [5; 6; 7; 8] ra' ∧
  match r with
  | Ok out => out = slice [5; 6; 7; 8] 1 2
  | Err e => e = Io ∧ ∃ b : Z, Some (block [5; 6; 7; 8] b) = None
  end.
Proof.
  apply (read_network_exact [5; 6; 7; 8] (λ b, Some (block [5; 6; 7; 8] b)) ra_new 1 2).
  - intros b d. by intros [= <-].
  - split; simpl; [done|set_solver|unfold RETAIN_BLOCKS; lia].
  - lia.
  - lia.
  - vm_compute. discriminate.
Defined.
