(* ===== verification/AutoCache.v ===== *)
(** * AutoCache: local copies of remote files

    [AutoCache] of alloyfs-client/src/autocache.rs and the fetch loop of
    walker.rs.  The state behind the mutex and the blob files it owns are one
    record; a file is named by its path components below the cache root.
    [rename]'s system call may fail, so its outcome is a parameter.  The sums
    are exact integers: a theorem shows that no [-=] on [total_bytes] can go
    below zero. *)

From S2P Require Import Prelude Messages Common Inode.

Record CacheEntry : Type := mkCacheEntry {
  e_version : Z; e_size : Z; e_mtime_ns : Z; e_pinned : bool; e_last_used : Z; e_verified : bool
}.
#[global] Instance CacheEntry_eq_dec : EqDecision CacheEntry.
Proof. solve_decision. Defined.

(** [AutoCache]: its configuration ([pin_match] is the compiled pin globs'
    [is_excluded]), its state, and the files under its root. *)
Record AutoCache : Type := mkAutoCache {
  max_file_size : Z;
  budget : Z;
  pin_match : RelPath → bool;
  cache_root : list string;
  entries : gmap string CacheEntry;
  total_bytes : Z;
  tick : Z;
  dirty : bool;
  disk : gmap (list string) (list Z)
}.

Definition with_state (c : AutoCache) (es : gmap string CacheEntry) (total tk : Z) (d : bool)
    (dk : gmap (list string) (list Z)) : AutoCache :=
  mkAutoCache (max_file_size c) (budget c) (pin_match c) (cache_root c) es total tk d dk.

(** [mtime_ns]: nanoseconds since the epoch, 0 before it. *)
Definition mtime_ns (t : SystemTime) : Z := if 0 <=? t then t else 0.

Definition blob_path (root : list string) (rel : RelPath) : list string :=
  root ++ base.filter (λ c, c ≠ "") (split_on slash rel).

(** [blob_stage_path]: the blob's path with [.part] after its file name
    ([blob.part] when there is none). *)
Definition blob_stage_path (c : AutoCache) (path : RelPath) : list string :=
  let p := blob_path (cache_root c) path in
  match last p with
  | Some name => take (length p - 1) p ++ [name +:+ ".part"]
  | None => ["blob.part"]
  end.

Definition blob_final_path (c : AutoCache) (path : RelPath) : list string := blob_path (cache_root c) path.

(** ** Eviction *)

Record Victim : Type := mkVictim { v_path : RelPath; v_used : Z; v_size : Z; v_pinned : bool }.

(** A stable sort by [last_used] of a list in path order. *)
Definition victim_le (x y : Victim) : Prop :=
  v_used x < v_used y ∨ (v_used x = v_used y ∧ String.le (v_path x) (v_path y)).
#[global] Instance victim_le_dec : RelDecision victim_le.
Proof. intros x y. unfold victim_le. apply _. Defined.

Definition victims_of (es : gmap string CacheEntry) : list Victim :=
  merge_sort victim_le ((λ pe, mkVictim pe.1 (e_last_used pe.2) (e_size pe.2) (e_pinned pe.2))
                          <$> sorted_entries es).

(** The eviction loop: drop victims in order while [over] the budget; pinned
    ones are skipped. *)
Fixpoint evict (root : list string) (limit : Z) (vs : list Victim)
    (es : gmap string CacheEntry) (total : Z) (dk : gmap (list string) (list Z))
    : gmap string CacheEntry * Z * gmap (list string) (list Z) :=
  match vs with
  | [] => (es, total, dk)
  | v :: rest =>
      if total <=? limit then (es, total, dk)
      else if v_pinned v then evict root limit rest es total dk
      else evict root limit rest (delete (v_path v) es) (total - v_size v)
                 (delete (blob_path root (v_path v)) dk)
  end.

(** ** Loading *)

(** The crash check: entries whose blob exists with the recorded size. *)
Definition load_one (root : list string) (acc : gmap string CacheEntry * Z * gmap (list string) (list Z))
    (pe : string * CacheEntry) : gmap string CacheEntry * Z * gmap (list string) (list Z) :=
  let '(es, total, dk) := acc in
  let blob := blob_path root pe.1 in
  match dk !! blob with
  | Some data => if bool_decide (blen data = e_size pe.2)
                 then (<[pe.1 := pe.2]> es, total + e_size pe.2, dk)
                 else (es, total, delete blob dk)
  | None => (es, total, dk)
  end.

Definition max_used (es : gmap string CacheEntry) : Z :=
  map_fold (λ _ e acc, Z.max (e_last_used e) acc) 0 es.

(** [AutoCache::load], from a parsed manifest if there is one; [verified] is
    not serialised and starts as [true]. *)
Definition load (max_size bud : Z) (pin : RelPath → bool) (root : list string)
    (manifest : option (gmap string CacheEntry)) (dk : gmap (list string) (list Z)) : AutoCache :=
  let '(es, total, dk) :=
    match manifest with
    | Some m => foldl (load_one root) (∅, 0, dk)
        ((λ pe, (pe.1, mkCacheEntry (e_version pe.2) (e_size pe.2) (e_mtime_ns pe.2)
                         (e_pinned pe.2) (e_last_used pe.2) true)) <$> sorted_entries m)
    | None => (∅, 0, dk)
    end in
  let '(es, total, dk) :=
    if bud <? total then evict root bud (victims_of es) es total dk else (es, total, dk) in
  mkAutoCache max_size bud pin root es total (max_used es + 1) false dk.

(** ** Operations *)

Definition wants (c : AutoCache) (path : RelPath) (size : Z) : bool :=
  pin_match c path || ((0 <? max_file_size c) && (size <=? max_file_size c)).

(** Does [attr] describe the blob of [e]? *)
Definition matches (a : Attr) (e : CacheEntry) : bool :=
  bool_decide (a_size a = e_size e) && bool_decide (mtime_ns (a_mtime a) = e_mtime_ns e)
  && (bool_decide (a_version a = e_version e) || bool_decide (a_version a = 0)
      || bool_decide (e_version e = 0)).

Definition fresh_for (c : AutoCache) (path : RelPath) (a : Attr) : bool * AutoCache :=
  let tk := tick c + 1 in
  match entries c !! path with
  | None => (false, with_state c (entries c) (total_bytes c) tk (dirty c) (disk c))
  | Some e =>
      if matches a e
      then (true, with_state c (<[path := mkCacheEntry (e_version e) (e_size e) (e_mtime_ns e)
                                            (e_pinned e) tk true]> (entries c))
                             (total_bytes c) tk true (disk c))
      else (false, with_state c (entries c) (total_bytes c) tk (dirty c) (disk c))
  end.

(** [AutoCache::read]: the blob's bytes, or a miss. *)
Definition cache_read (c : AutoCache) (path : RelPath) (offset len : nat) : option (list Z) :=
  (λ data, slice data offset len) <$> disk c !! blob_path (cache_root c) path.

Definition commit (c : AutoCache) (path : RelPath) (a : Attr) (pinned : bool) : AutoCache :=
  let tk := tick c + 1 in
  let total := total_bytes c - match entries c !! path with Some old => e_size old | None => 0 end in
  let es := delete path (entries c) in
  let over := budget c <? total + a_size a in
  let '(es, total, dk) :=
    if over
    then evict (cache_root c) (budget c - a_size a)
               (base.filter (λ v, v_pinned v = false) (victims_of es)) es total (disk c)
    else (es, total, disk c) in
  if over && negb (pinned && (budget c <? total + a_size a))
     && (budget c <? total + a_size a) && (budget c <? a_size a)
  then with_state c es total tk (dirty c) (delete (blob_path (cache_root c) path) dk)
  else with_state c
         (<[path := mkCacheEntry (a_version a) (a_size a) (mtime_ns (a_mtime a)) pinned tk true]> es)
         (total + a_size a) tk true dk.

Definition needs_fetch (c : AutoCache) (path : RelPath) (a : Attr) : bool :=
  match entries c !! path with Some e => negb (matches a e) | None => true end.

Definition known (c : AutoCache) (path : RelPath) : bool :=
  match entries c !! path with Some _ => true | None => false end.

Definition invalidate (c : AutoCache) (path : RelPath) : AutoCache :=
  match entries c !! path with
  | Some e => with_state c (delete path (entries c)) (total_bytes c - e_size e) (tick c) true
                (delete (blob_path (cache_root c) path) (disk c))
  | None => c
  end.

Definition remove (c : AutoCache) (path : RelPath) : AutoCache := invalidate c path.

(** One turn of [rename]'s loop; [renames_ok] is whether [std::fs::rename] of
    the blob succeeds. *)
Definition cache_rename_one (renames_ok : list string → list string → bool) (from to : RelPath)
    (c : AutoCache) (old : RelPath) : AutoCache :=
  match retarget from to old, entries c !! old with
  | Some new, Some e =>
      let es := delete old (entries c) in
      let old_blob := blob_path (cache_root c) old in
      let new_blob := blob_path (cache_root c) new in
      match disk c !! old_blob with
      | Some data =>
          if renames_ok old_blob new_blob
          then with_state c (<[new := e]> es) (total_bytes c) (tick c) true
                 (<[new_blob := data]> (delete old_blob (disk c)))
          else with_state c es (total_bytes c - e_size e) (tick c) true (delete old_blob (disk c))
      | None => with_state c es (total_bytes c - e_size e) (tick c) true (disk c)
      end
  | _, _ => c
  end.

Definition cache_rename (renames_ok : list string → list string → bool) (c : AutoCache)
    (from to : RelPath) : AutoCache :=
  foldl (cache_rename_one renames_ok from to) c
    (base.filter (λ p, is_Some (retarget from to p)) (sorted_entries (entries c)).*1).

Definition unverify (e : CacheEntry) : CacheEntry :=
  mkCacheEntry (e_version e) (e_size e) (e_mtime_ns e) (e_pinned e) (e_last_used e) false.

Definition mark_all_unverified (c : AutoCache) : AutoCache :=
  with_state c (unverify <$> entries c) (total_bytes c) (tick c) (dirty c) (disk c).

Definition stats (c : AutoCache) : Z * Z := (Z.of_nat (size (entries c)), total_bytes c).

(** [flush_manifest]: the manifest to write, if any. *)
Definition flush_manifest (c : AutoCache) : option (gmap string CacheEntry) * AutoCache :=
  if dirty c
  then (Some (entries c), with_state c (entries c) (total_bytes c) (tick c) false (disk c))
  else (None, c).

(** The events the cache follows (events.rs, [apply_events_to_cache]): the
    cache and the paths queued for a re-fetch. *)
Definition apply_cache_event (renames_ok : list string → list string → bool)
    (acc : AutoCache * list RelPath) (ev : FsEvent) : AutoCache * list RelPath :=
  let '(c, q) := acc in
  let path := ev_path ev in
  match ev_kind ev with
  | Modified | AttrChanged | Created =>
      (invalidate c path,
       if known c path || pin_match c path || bool_decide (ev_kind ev = Modified) then q ++ [path] else q)
  | Removed => (remove c path, q)
  | RenamedFrom to => (cache_rename renames_ok c path to, q)
  | ResyncRequired => (mark_all_unverified c, q)
  end.

(** ** The walker's fetch (walker.rs, [fetch_one]) *)

Definition CHUNK_CONCURRENCY : nat := 8.

(** One window of read requests: [(offset, len)] pairs and the position
    reached.  [as u32] keeps the low 32 bits of what remains. *)
Fixpoint fetch_window (n : nat) (size pos : Z) : list (Z * Z) * Z :=
  match n with
  | O => ([], pos)
  | S n' =>
      if size <=? pos then ([], pos)
      else let want := Z.min (as_u32 (size - pos)) DATA_CHUNK in
           let '(batch, pos') := fetch_window n' size (pos + want) in
           ((pos, want) :: batch, pos')
  end.

(** The [while pos < attr.size] loop; [None] when the fuel runs out first. *)
Fixpoint fetch_windows (fuel : nat) (size pos : Z) : option (list (list (Z * Z))) :=
  if size <=? pos then Some []
  else match fuel with
  | O => None
  | S fuel' =>
      let '(batch, pos') := fetch_window CHUNK_CONCURRENCY size pos in
      match fetch_windows fuel' size pos' with
      | Some rest => Some (batch :: rest)
      | None => None
      end
  end.

(** [fetch_one] after the open: [read] answers one read request. *)
Definition fetch_one (fuel : nat) (read : Z → Z → option (list Z)) (c : AutoCache) (path : RelPath) (a : Attr)
    : option (bool * AutoCache) :=
  if negb (bool_decide (a_kind a = KFile)) || negb (wants c path (a_size a)) || negb (needs_fetch c path a)
  then Some (false, c)
  else match fetch_windows fuel (a_size a) 0 with
  | None => None
  | Some windows =>
      match mapM (λ ol : Z * Z, read ol.1 ol.2) (concat windows) with
      | None => Some (false, c)
      | Some chunks =>
          let data := concat chunks in
          if negb (bool_decide (blen data = a_size a)) then Some (false, c)
          else
            let stage := blob_stage_path c path in
            let final := blob_final_path c path in
            let dk := <[final := data]> (delete stage (<[stage := data]> (disk c))) in
            let c := with_state c (entries c) (total_bytes c) (tick c) (dirty c) dk in
            Some (true, commit c path a (pin_match c path))
      end
  end.

(** ** Accounting *)

Definition cache_sum (es : gmap string CacheEntry) : Z := map_fold (λ _ e acc, e_size e + acc) 0 es.

Lemma cache_sum_insert es p e : es !! p = None → cache_sum (<[p := e]> es) = e_size e + cache_sum es.
Proof. intros Hn. unfold cache_sum. rw map_fold_insert_L //. intros. lia. Qed.

Lemma cache_sum_delete es p e : es !! p = Some e → cache_sum (delete p es) = cache_sum es - e_size e.
Proof.
  intros Hp. rw -{2}(insert_delete_id es p e) // cache_sum_insert; [lia|]. apply lookup_delete_eq.
Qed.

Lemma cache_sum_delete_opt es p :
  cache_sum (delete p es) = cache_sum es - match es !! p with Some e => e_size e | None => 0 end.
Proof.
  destruct (es !! p) as [e|] eqn:E; [by apply cache_sum_delete|].
  rw delete_id //. lia.
Qed.

(** Replacing an entry by one of the same size. *)
Lemma cache_sum_replace es p e e' :
  es !! p = Some e → e_size e' = e_size e → cache_sum (<[p := e']> es) = cache_sum es.
Proof.
  intros Hp Hs. rw -(insert_delete_eq es) cache_sum_insert; [|apply lookup_delete_eq].
  rw (cache_sum_delete _ _ _ Hp). lia.
Qed.

Lemma cache_sum_unverify es : cache_sum (unverify <$> es) = cache_sum es.
Proof. unfold cache_sum. by rw map_fold_fmap. Qed.

(** What an eviction loop does: of the unpinned victims, in order, a first part
    goes, and the loop only stops early when the total fits. *)
Definition without (es : gmap string CacheEntry) (gone : list Victim) : gmap string CacheEntry :=
  foldl (λ es v, delete (v_path v) es) es gone.

Definition vsum (vs : list Victim) : Z := foldr (λ v acc, v_size v + acc) 0 vs.

Definition unpinned (vs : list Victim) : list Victim := base.filter (λ v, v_pinned v = false) vs.

Lemma evict_spec root limit vs es total dk es' total' dk' :
  evict root limit vs es total dk = (es', total', dk') →
  ∃ gone kept, unpinned vs = gone ++ kept ∧ es' = without es gone ∧
    total' = total - vsum gone ∧ (total' ≤ limit ∨ kept = []).
Proof.
  revert es total dk. induction vs as [|v vs IH]; intros es total dk; simpl.
  - intros [= <- <- <-]. exists [], []. simpl. split; [done|]. split; [done|]. split; [lia|by right].
  - destruct (Z.leb_spec total limit) as [Hle|Hgt].
    + intros [= <- <- <-]. exists [], (unpinned (v :: vs)). simpl. split; [done|]. split; [done|].
      split; [lia|by left].
    + unfold unpinned. rw filter_cons. destruct (v_pinned v) eqn:Ep; [apply IH|]. intros H.
      apply IH in H as (gone & kept & Hu & -> & -> & Hor). exists (v :: gone), kept.
      unfold unpinned in Hu. rw Hu. simpl. split; [done|]. split; [done|]. split; [lia|done].
Qed.

(** A victim stands for an entry. *)
Definition stands_for (es : gmap string CacheEntry) (v : Victim) : Prop :=
  ∃ e, es !! v_path v = Some e ∧ v_used v = e_last_used e ∧ v_size v = e_size e ∧ v_pinned v = e_pinned e.

#[global] Instance victim_le_trans : Transitive victim_le.
Proof.
  intros x y z [?|[? ?]] [?|[? ?]]; unfold victim_le; [left; lia..|]. right. split; [lia|]. by etrans.
Qed.
#[global] Instance victim_le_total : Total victim_le.
Proof.
  intros x y. unfold victim_le. destruct (Z.lt_trichotomy (v_used x) (v_used y)) as [?|[?|?]]; [tauto| |tauto].
  destruct (total String.le (v_path x) (v_path y)); naive_solver lia.
Qed.

Lemma victims_of_spec es :
  (∀ v, v ∈ victims_of es ↔ stands_for es v) ∧ NoDup (v_path <$> victims_of es) ∧
  StronglySorted victim_le (victims_of es).
Proof.
  unfold victims_of. set (l := _ <$> sorted_entries es). split; [|split].
  - intros v. rw merge_sort_Permutation. subst l. rw list_elem_of_fmap. split.
    + intros ([p e] & -> & Hp%elem_of_sorted_entries). exists e. done.
    + intros (e & He & Hu & Hs & Hp). exists (v_path v, e). split; [destruct v; simpl in *; congruence|].
      by apply elem_of_sorted_entries.
  - rw merge_sort_Permutation. subst l. rw -list_fmap_compose. apply sorted_entries_nodup.
  - apply (StronglySorted_merge_sort _).
Qed.

Lemma without_lookup es gone p :
  without es gone !! p = if decide (p ∈ v_path <$> gone) then None else es !! p.
Proof.
  unfold without. revert es. induction gone as [|v gone IH]; intros es.
  - done.
  - cbn [foldl]. rw IH fmap_cons. destruct (decide (p = v_path v)) as [->|Hne].
    + rw lookup_delete_eq. rw (decide_True (P := v_path v ∈ v_path v :: _)); [|left]. by destruct (decide _).
    + rw lookup_delete_ne //. destruct (decide (p ∈ v_path <$> gone)); [rw decide_True //; by right|].
      rw decide_False //. intros [?|?]%elem_of_cons; done.
Qed.

Lemma without_sum es gone :
  NoDup (v_path <$> gone) → Forall (stands_for es) gone →
  cache_sum (without es gone) = cache_sum es - vsum gone.
Proof.
  revert es. induction gone as [|v gone IH]; intros es Hnd Hall; simpl; [lia|].
  simpl in Hnd. apply NoDup_cons in Hnd as [Hv Hnd]. apply Forall_cons in Hall as [(e & He & _ & Hs & _) Hall].
  unfold without. simpl. fold (without (delete (v_path v) es) gone). rw IH //.
  - rw (cache_sum_delete _ _ _ He). lia.
  - rw Forall_forall in Hall. apply Forall_forall. intros w Hw.
    destruct (Hall w Hw) as (e' & He' & ?). exists e'. split; [|done]. rw lookup_delete_ne //.
    intros Heq. apply Hv. rw Heq. by apply list_elem_of_fmap_2.
Qed.

(** The victims that go, for a loop over (the unpinned part of) all entries. *)
Lemma evict_all root limit vs es total dk es' total' dk' :
  unpinned vs = unpinned (victims_of es) →
  evict root limit vs es total dk = (es', total', dk') →
  ∃ gone kept, unpinned (victims_of es) = gone ++ kept ∧ es' = without es gone ∧
    NoDup (v_path <$> gone) ∧ Forall (stands_for es) gone ∧
    Forall (λ v, v_pinned v = false) (gone ++ kept) ∧
    total' - cache_sum es' = total - cache_sum es ∧ (total' ≤ limit ∨ kept = []).
Proof.
  intros Hvs H%evict_spec. destruct H as (gone & kept & Hu & -> & -> & Hor). rw Hvs in Hu.
  destruct (victims_of_spec es) as (Hel & Hnd & _). exists gone, kept.
  assert (Hsub : sublist (gone ++ kept) (victims_of es)) by (rw -Hu; apply sublist_filter).
  assert (Hg : NoDup (v_path <$> gone)).
  { eapply sublist_NoDup; [exact Hnd|]. apply fmap_sublist. etrans; [|exact Hsub]. by apply sublist_inserts_r. }
  assert (Hs : Forall (stands_for es) gone).
  { apply Forall_forall. intros v Hv. apply Hel. eapply sublist_subseteq; [exact Hsub|]. set_solver. }
  split; [done|]. split; [done|]. split; [done|]. split; [done|]. split.
  - rw -Hu. unfold unpinned. apply Forall_forall. intros v Hv. by apply list_elem_of_filter in Hv as [? _].
  - rw without_sum //. split; [lia|done].
Qed.

Definition slack (c : AutoCache) : Z := total_bytes c - cache_sum (entries c).

Definition sizes_ok (es : gmap string CacheEntry) : Prop := ∀ p e, es !! p = Some e → 0 ≤ e_size e.

Lemma cache_sum_nonneg es : sizes_ok es → 0 ≤ cache_sum es.
Proof.
  unfold cache_sum, sizes_ok. apply (map_fold_weak_ind (λ r m, (∀ p e, m !! p = Some e → 0 ≤ e_size e) → 0 ≤ r)); [done|].
  intros p e m r Hp IH Hall. pose proof (Hall p e ltac:(by rw lookup_insert_eq)).
  enough (0 ≤ r) by lia. apply IH. intros q e' Hq. apply (Hall q). rw lookup_insert_ne //. congruence.
Qed.

(** The operations on a loaded cache. *)
Inductive CacheOp : Type :=
| CoFresh (path : RelPath) (a : Attr)
| CoCommit (path : RelPath) (a : Attr) (pinned : bool)
| CoInvalidate (path : RelPath)
| CoRename (from to : RelPath)
| CoUnverify
| CoFlush.

Definition run_cache (ok : list string → list string → bool) (c : AutoCache) (op : CacheOp) : AutoCache :=
  match op with
  | CoFresh path a => (fresh_for c path a).2
  | CoCommit path a pinned => commit c path a pinned
  | CoInvalidate path => invalidate c path
  | CoRename from to => cache_rename ok c from to
  | CoUnverify => mark_all_unverified c
  | CoFlush => (flush_manifest c).2
  end.

Definition op_ok (op : CacheOp) : Prop :=
  match op with CoCommit _ a _ => 0 ≤ a_size a | _ => True end.

Definition is_rename (op : CacheOp) : Prop := match op with CoRename _ _ => True | _ => False end.

Lemma sizes_ok_delete es p : sizes_ok es → sizes_ok (delete p es).
Proof. intros H q e [_ Hq]%lookup_delete_Some. by eapply H. Qed.

Lemma sizes_ok_insert es p e : 0 ≤ e_size e → sizes_ok es → sizes_ok (<[p := e]> es).
Proof. intros He H q e' [[_ <-]|[_ Hq]]%lookup_insert_Some; [done|by eapply H]. Qed.

Lemma sizes_ok_without es gone : sizes_ok es → sizes_ok (without es gone).
Proof. intros H p e. rw without_lookup. destruct (decide _); [done|]. apply H. Qed.

(** The middle of [commit]: what is left after making room. *)
Lemma commit_room c path a es total dk :
  let es0 := delete path (entries c) in
  let total0 := total_bytes c - match entries c !! path with Some old => e_size old | None => 0 end in
  (if budget c <? total0 + a_size a
   then evict (cache_root c) (budget c - a_size a) (unpinned (victims_of es0)) es0 total0 (disk c)
   else (es0, total0, disk c)) = (es, total, dk) →
  ∃ gone kept, unpinned (victims_of es0) = gone ++ kept ∧ es = without es0 gone ∧
    Forall (stands_for es0) gone ∧ Forall (λ v, v_pinned v = false) (gone ++ kept) ∧
    total - cache_sum es = slack c ∧ (total + a_size a ≤ budget c ∨ kept = []).
Proof.
  intros es0 total0. assert (Hslack : total0 - cache_sum es0 = slack c).
  { subst es0 total0. rw cache_sum_delete_opt. unfold slack. lia. }
  destruct (Z.ltb_spec (budget c) (total0 + a_size a)) as [Hover|Hfit].
  - intros H. eapply evict_all in H as (gone & kept & H1 & H2 & _ & H3 & H4 & H5 & H6).
    + exists gone, kept. repeat (split; [done|]). split; [lia|]. destruct H6; [left; lia|by right].
    + unfold unpinned. rw list_filter_filter. apply list_filter_iff. naive_solver.
  - intros [= <- <- <-]. exists [], (unpinned (victims_of es0)). split; [done|]. split; [done|].
    split; [constructor|]. split; [|split; [done|left; lia]].
    apply Forall_forall. intros v Hv. by apply list_elem_of_filter in Hv as [? _].
Qed.

(** Both outcomes of [commit]: the entry is recorded, or refused as larger
    than the whole budget. *)
Lemma commit_cases c path a pinned :
  ∃ gone kept,
    let es0 := delete path (entries c) in
    unpinned (victims_of es0) = gone ++ kept ∧ Forall (stands_for es0) gone ∧
    Forall (λ v, v_pinned v = false) (gone ++ kept) ∧
    let e := mkCacheEntry (a_version a) (a_size a) (mtime_ns (a_mtime a)) pinned (tick c + 1) true in
    budget (commit c path a pinned) = budget c ∧
    ((entries (commit c path a pinned) = <[path := e]> (without es0 gone) ∧
      total_bytes (commit c path a pinned) = slack c + cache_sum (without es0 gone) + a_size a ∧
      (total_bytes (commit c path a pinned) ≤ budget c ∨ kept = []))
     ∨
     (pinned = false ∧ budget c < a_size a ∧ entries (commit c path a pinned) = without es0 gone ∧
      total_bytes (commit c path a pinned) = slack c + cache_sum (without es0 gone))).
Proof.
  unfold commit. set (es0 := delete path (entries c)).
  set (total0 := total_bytes c - _).
  destruct (if budget c <? total0 + a_size a then _ else _) as [[es total] dk] eqn:E.
  destruct (commit_room c path a es total dk E) as (gone & kept & H1 & -> & H3 & H4 & H5 & H6).
  exists gone, kept. cbn zeta. fold es0. fold es0 in H1, H3, H5. split; [done|]. split; [done|]. split; [done|].
  destruct (_ && _ && _ && _) eqn:Ec; (split; [done|]); [right|left]; simpl.
  - apply andb_true_iff in Ec as [Ec Hbig%Z.ltb_lt]. apply andb_true_iff in Ec as [Ec Hov].
    apply andb_true_iff in Ec as [_ Hp]. rw Hov andb_true_r in Hp. apply negb_true_iff in Hp.
    split; [done|]. split; [done|]. split; [done|lia].
  - split; [done|]. split; [lia|]. destruct H6; [left; lia|by right].
Qed.

Lemma commit_slack c path a pinned :
  slack (commit c path a pinned) = slack c.
Proof.
  destruct (commit_cases c path a pinned) as (gone & kept & H1 & H2 & _ & _ & [(E & T & _)|(_ & _ & E & T)]);
    unfold slack at 1; rw E T; [|lia].
  rw cache_sum_insert /=; [|rw without_lookup lookup_delete_eq; by destruct (decide _)]. lia.
Qed.

Lemma commit_sizes c path a pinned :
  0 ≤ a_size a → sizes_ok (entries c) → sizes_ok (entries (commit c path a pinned)).
Proof.
  intros Ha Hs. destruct (commit_cases c path a pinned) as (gone & kept & _ & _ & _ & _ & [(-> & _)|(_ & _ & -> & _)]).
  - apply sizes_ok_insert; [done|]. by apply sizes_ok_without, sizes_ok_delete.
  - by apply sizes_ok_without, sizes_ok_delete.
Qed.

Lemma cache_rename_one_slack ok from to c old :
  sizes_ok (entries c) →
  sizes_ok (entries (cache_rename_one ok from to c old)) ∧ slack c ≤ slack (cache_rename_one ok from to c old).
Proof.
  intros Hs. unfold cache_rename_one. destruct (retarget from to old) as [new|]; [|done].
  destruct (entries c !! old) as [e|] eqn:Ee; [|done]. pose proof (Hs _ _ Ee) as He.
  assert (Hd : sizes_ok (delete old (entries c))) by (by apply sizes_ok_delete).
  pose proof (cache_sum_delete _ _ _ Ee) as Hsum.
  destruct (disk c !! _); [destruct (ok _ _)|]; simpl.
  - split; [by apply sizes_ok_insert|]. unfold slack. simpl.
    rw -(insert_delete_eq (delete old (entries c))) cache_sum_insert; [|apply lookup_delete_eq].
    rw cache_sum_delete_opt. destruct (delete old (entries c) !! new) as [e2|] eqn:E2; [|lia].
    specialize (Hd _ _ E2). lia.
  - split; [done|]. unfold slack. simpl. lia.
  - split; [done|]. unfold slack. simpl. lia.
Qed.

Lemma run_cache_slack ok c op :
  op_ok op → sizes_ok (entries c) →
  sizes_ok (entries (run_cache ok c op)) ∧ slack c ≤ slack (run_cache ok c op) ∧
  (¬ is_rename op → slack (run_cache ok c op) = slack c).
Proof.
  intros Hop Hs. destruct op as [path a|path a pinned|path|from to| |]; simpl in *.
  - unfold fresh_for. destruct (entries c !! path) as [e|] eqn:E; [|done].
    destruct (matches a e); [|done]. simpl. split; [apply sizes_ok_insert; [exact (Hs _ _ E)|done]|].
    assert (Hr : ∀ tk, cache_sum (<[path := mkCacheEntry (e_version e) (e_size e) (e_mtime_ns e) (e_pinned e) tk true]>
      (entries c)) = cache_sum (entries c)) by (intros; by eapply cache_sum_replace).
    unfold slack. simpl. rw Hr. split; [lia|done].
  - rw commit_slack. split; [by apply commit_sizes|]. split; [lia|done].
  - unfold invalidate. destruct (entries c !! path) as [e|] eqn:E; [|done]. simpl.
    split; [by apply sizes_ok_delete|]. unfold slack. simpl. rw (cache_sum_delete _ _ _ E). lia.
  - unfold cache_rename. split; [|split; [|done]].
    all: generalize (base.filter (λ p, is_Some (retarget from to p)) (sorted_entries (entries c)).*1); intros l.
    all: revert c Hs; induction l as [|old l IH]; intros c Hs; simpl; [done|].
    all: destruct (cache_rename_one_slack ok from to c old Hs) as [H1 H2].
    + by apply IH.
    + etrans; [exact H2|]. by apply IH.
  - unfold slack. simpl. rw cache_sum_unverify. split; [|split; [lia|done]].
    intros p e. rw lookup_fmap_Some. intros (e' & <- & He'). simpl. by eapply Hs.
  - unfold flush_manifest. by destruct (dirty c).
Qed.

(** The byte count never falls below the sizes of the cached entries, so no
    subtraction from it goes below zero, whatever operations run; and without
    renames it stays exactly their sum. *)
Theorem cache_accounting ok c ops :
  sizes_ok (entries c) → total_bytes c = cache_sum (entries c) → Forall op_ok ops →
  let c' := foldl (run_cache ok) c ops in
  0 ≤ cache_sum (entries c') ≤ total_bytes c' ∧
  (Forall (λ op, ¬ is_rename op) ops → total_bytes c' = cache_sum (entries c')).
Proof.
  intros Hs Ht Hops. cbn zeta.
  assert (∀ c, sizes_ok (entries c) → sizes_ok (entries (foldl (run_cache ok) c ops)) ∧
    slack c ≤ slack (foldl (run_cache ok) c ops) ∧
    (Forall (λ op, ¬ is_rename op) ops → slack (foldl (run_cache ok) c ops) = slack c)) as H.
  { clear c Hs Ht. induction Hops as [|op ops Hop _ IH]; intros c Hs; simpl; [done|].
    destruct (run_cache_slack ok c op Hop Hs) as (A & B & C). destruct (IH _ A) as (D & E & F).
    split; [done|]. split; [lia|]. intros [Hn Hall]%Forall_cons. rw F //. by apply C. }
  destruct (H c Hs) as (A & B & C). assert (slack c = 0) as H0 by (unfold slack; lia).
  pose proof (cache_sum_nonneg _ A). split.
  - unfold slack at 2 in B. lia.
  - intros Hall. specialize (C Hall). unfold slack at 1 in C. lia.
Qed.

Definition sample_cache : AutoCache :=
  mkAutoCache 100 100 (λ _, false) ["c"]
    {["a" := mkCacheEntry 1 30 5 false 1 true; "b" := mkCacheEntry 2 40 6 false 2 true]} 70 3 false
    {[["c"; "a"] := replicate 30 7; ["c"; "b"] := replicate 40 8]}.

Lemma cache_accounting_witness :
  let c' := foldl (run_cache (λ _ _, true)) sample_cache
    [CoCommit "d" (mkAttr KFile 50 9 9 0 4) false; CoInvalidate "b"] in
  0 ≤ cache_sum (entries c') ≤ total_bytes c' ∧ total_bytes c' = cache_sum (entries c').
Proof.
  pose proof (cache_accounting (λ _ _, true) sample_cache
    [CoCommit "d" (mkAttr KFile 50 9 9 0 4) false; CoInvalidate "b"]) as [H1 H2].
  - intros p e Hp. apply elem_of_map_to_list in Hp. vm_compute in Hp.
    repeat (apply elem_of_cons in Hp as [[= -> ->]|Hp]; [by vm_compute|]). by apply elem_of_nil in Hp.
  - reflexivity.
  - repeat constructor; by vm_compute.
  - split; [exact H1|]. apply H2. repeat constructor; tauto.
Defined.

(** A rename onto a path that is cached too replaces its entry without taking
    its size off the count: the count stays above the sum of the entries for
    good, and the budget shrinks by the difference. *)
Theorem rename_over_entry_leaks_bytes :
  let c' := cache_rename (λ _ _, true) sample_cache "a" "b" in
  cache_sum (entries c') = 30 ∧ total_bytes c' = 70.
Proof. vm_compute. done. Qed.

(** ** Eviction *)

Lemma sorted_split {A} (R : A → A → Prop) (l1 l2 : list A) x y :
  StronglySorted R (l1 ++ l2) → x ∈ l1 → y ∈ l2 → R x y.
Proof.
  induction l1 as [|z l1 IH]; simpl; intros Hs Hx Hy; [set_solver|].
  apply StronglySorted_inv in Hs as [Hs Hz]. apply elem_of_cons in Hx as [->|Hx]; [|by apply IH].
  rw Forall_forall in Hz. apply Hz. set_solver.
Qed.

Lemma sorted_filter {A} (R : A → A → Prop) `{!∀ x, Decision (P x)} (l : list A) :
  StronglySorted R l → StronglySorted R (base.filter P l).
Proof.
  induction 1 as [|x l _ IH Hx]; [constructor|]. rw filter_cons. destruct (decide (P x)); [|done].
  constructor; [done|]. rw Forall_forall in Hx. apply Forall_forall. intros y [_ Hy]%list_elem_of_filter.
  by apply Hx.
Qed.

(** Committing a file evicts the right entries: a pinned entry is never
    evicted; the count ends within the budget unless everything left but the
    new file is pinned; and what was evicted was used no more recently than
    any unpinned entry that stays. *)
Theorem commit_evicts_lru c path a pinned :
  let c' := commit c path a pinned in
  (∀ p e, p ≠ path → entries c !! p = Some e → e_pinned e = true → entries c' !! p = Some e) ∧
  (∀ p e, p ≠ path → entries c' !! p = Some e → entries c !! p = Some e) ∧
  (entries c' !! path ≠ None →
   total_bytes c' ≤ budget c ∨ ∀ p e, p ≠ path → entries c' !! p = Some e → e_pinned e = true) ∧
  (∀ p e q e', p ≠ path → q ≠ path →
     entries c !! p = Some e → entries c' !! p = None →
     entries c' !! q = Some e' → e_pinned e' = false → e_last_used e ≤ e_last_used e').
Proof.
  cbn zeta. destruct (commit_cases c path a pinned) as (gone & kept & Hu & Hst & Hpin & _ & Hcase).
  cbn zeta in *. set (es0 := delete path (entries c)) in *.
  destruct (victims_of_spec es0) as (Hel & Hnd & Hsort).
  assert (Hlk : ∀ p, p ≠ path → entries (commit c path a pinned) !! p
            = if decide (p ∈ v_path <$> gone) then None else entries c !! p).
  { intros p Hp. assert (without es0 gone !! p = if decide (p ∈ v_path <$> gone) then None else entries c !! p) as Hw.
    { rw without_lookup. subst es0. by rw lookup_delete_ne. }
    destruct Hcase as [(-> & _)|(_ & _ & -> & _)]; [rw lookup_insert_ne //|done]. }
  assert (Hunp : ∀ v, v ∈ gone ++ kept ↔ stands_for es0 v ∧ v_pinned v = false).
  { intros v. rw -Hu. unfold unpinned. rw list_elem_of_filter Hel. tauto. }
  assert (Hstand : ∀ p e, p ≠ path → entries c !! p = Some e →
    stands_for es0 (mkVictim p (e_last_used e) (e_size e) (e_pinned e))).
  { intros p e Hp He. exists e. subst es0. rw lookup_delete_ne //. }
  assert (Hgone : ∀ p e, p ≠ path → entries c !! p = Some e → p ∈ v_path <$> gone →
    mkVictim p (e_last_used e) (e_size e) (e_pinned e) ∈ gone).
  { intros p e Hp He (v & -> & Hv)%list_elem_of_fmap. rw Forall_forall in Hst.
    destruct (Hst v Hv) as (e2 & He2 & H1 & H2 & H3). subst es0. rw lookup_delete_ne // in He2.
    destruct v; simpl in *. simplify_eq. done. }
  split; [|split; [|split]].
  - intros p e Hp He Hpe. rw Hlk // decide_False //. intros Hin. specialize (Hgone p e Hp He Hin).
    assert (mkVictim p (e_last_used e) (e_size e) (e_pinned e) ∈ gone ++ kept) as Hgk by set_solver.
    apply Hunp in Hgk as [_ Hf]. simpl in Hf. congruence.
  - intros p e Hp. rw Hlk //. by destruct (decide _).
  - intros Hsome. destruct Hcase as [(_ & _ & [Hfit| ->])|(_ & _ & Hes & _)]; [by left|right|].
    + intros p e Hp. rw Hlk //. destruct (decide _) as [|Hnot]; [done|]. intros He.
      destruct (e_pinned e) eqn:Epin; [done|]. exfalso. apply Hnot.
      apply (list_elem_of_fmap_2 v_path _ (mkVictim p (e_last_used e) (e_size e) (e_pinned e))).
      assert (mkVictim p (e_last_used e) (e_size e) (e_pinned e) ∈ gone ++ []) as Hg; [|by rw app_nil_r in Hg].
      apply Hunp. split; [by apply Hstand|done].
    + exfalso. apply Hsome. rw Hes without_lookup. subst es0. rw lookup_delete_eq. by destruct (decide _).
  - intros p e q e' Hp Hq He. rw !Hlk //. destruct (decide (p ∈ _)) as [Hin|]; [|congruence]. intros _.
    destruct (decide (q ∈ _)) as [|Hout]; [done|]. intros He' Hpin'.
    specialize (Hgone p e Hp He Hin).
    assert (mkVictim q (e_last_used e') (e_size e') (e_pinned e') ∈ kept) as Hk.
    { assert (mkVictim q (e_last_used e') (e_size e') (e_pinned e') ∈ gone ++ kept) as Hgk
        by (apply Hunp; split; [by apply Hstand|done]).
      apply elem_of_app in Hgk as [Hg|]; [|done]. exfalso. apply Hout.
      by apply (list_elem_of_fmap_2 v_path _ _ Hg). }
    assert (StronglySorted victim_le (gone ++ kept)) as Hs by (rw -Hu; by apply sorted_filter).
    pose proof (sorted_split _ _ _ _ _ Hs Hgone Hk) as [Hlt|[Heq _]]; simpl in *; lia.
Qed.

Lemma blob_path_join root dir name :
  name ≠ "" → contains_char slash name = false →
  blob_path root (RelPath.join dir name) = blob_path root dir ++ [name].
Proof.
  intros Hne Hs. unfold blob_path, RelPath.join, str_is_empty. case_bool_decide as Hd.
  - subst dir. rw (split_no_sep _ _ Hs) filter_cons decide_True //. simpl.
    by rw app_nil_r.
  - change ("/" +:+ name) with (String slash name). rw split_on_app_sep filter_app (split_no_sep _ _ Hs).
    rw filter_cons decide_True // filter_nil app_assoc //.
Qed.

(** The staging file of one path is the blob of another: fetching [name]
    writes to, and then takes away, the cached copy of [name.part] in the same
    directory. *)
Theorem stage_path_is_another_blob c dir name :
  good_component name →
  blob_stage_path c (RelPath.join dir name) = blob_final_path c (RelPath.join dir (name +:+ ".part")).
Proof.
  intros (Hne & _ & _ & Hs & _). unfold blob_stage_path, blob_final_path.
  rw (blob_path_join _ _ _ Hne Hs) last_snoc length_app /= Nat.add_sub take_app_length.
  rw blob_path_join //.
  - by destruct name.
  - by rw contains_char_app Hs.
Qed.

Lemma stage_path_is_another_blob_witness :
  blob_stage_path sample_cache "d/x" = blob_final_path sample_cache "d/x.part".
Proof. exact (stage_path_is_another_blob sample_cache "d" "x" ltac:(vm_compute; repeat split; congruence)). Defined.

(** ** The fetch *)

(** Consecutive non-empty reads of at most a chunk, from [pos] to [stop]. *)
Fixpoint tiles (pos : Z) (reads : list (Z * Z)) (stop : Z) : Prop :=
  match reads with
  | [] => pos = stop
  | (off, len) :: rest => off = pos ∧ 1 ≤ len ≤ DATA_CHUNK ∧ tiles (pos + len) rest stop
  end.

Lemma tiles_app pos l1 mid l2 stop : tiles pos l1 mid → tiles mid l2 stop → tiles pos (l1 ++ l2) stop.
Proof.
  revert pos. induction l1 as [|[off len] l1 IH]; intros pos; simpl; [by intros ->|].
  intros (-> & Hl & Ht) H2. split; [done|]. split; [done|]. by apply IH.
Qed.

Lemma fetch_window_tiles n size pos batch pos' :
  0 ≤ pos ≤ size → size < 2^32 → fetch_window n size pos = (batch, pos') →
  tiles pos batch pos' ∧ pos ≤ pos' ≤ size ∧ (pos < size → (0 < n)%nat → pos < pos').
Proof.
  assert (1 ≤ DATA_CHUNK) as HD by done.
  revert pos batch pos'. induction n as [|n IH]; intros pos batch pos' Hp Hs; simpl.
  { intros [= <- <-]. simpl. lia. }
  destruct (Z.leb_spec size pos) as [Hge|Hlt]; [intros [= <- <-]; simpl; lia|].
  rw as_u32_small; [|ints]. set (want := Z.min (size - pos) DATA_CHUNK).
  destruct (fetch_window n size (pos + want)) as [b p'] eqn:E. intros [= <- <-].
  destruct (IH (pos + want) b p' ltac:(lia) Hs E) as (T & B & _). simpl. split; [|lia].
  split; [done|]. split; [lia|done].
Qed.

Lemma fetch_windows_tiles fuel size pos :
  0 ≤ pos ≤ size → size < 2^32 → size - pos ≤ Z.of_nat fuel →
  ∃ ws, fetch_windows fuel size pos = Some ws ∧ tiles pos (concat ws) size.
Proof.
  revert pos. induction fuel as [|fuel IH]; intros pos Hp Hs Hf; cbn [fetch_windows].
  - destruct (Z.leb_spec size pos); [|lia]. exists []. simpl. split; [done|lia].
  - destruct (Z.leb_spec size pos) as [|Hlt]; [exists []; simpl; split; [done|lia]|].
    destruct (fetch_window CHUNK_CONCURRENCY size pos) as [batch pos'] eqn:E.
    destruct (fetch_window_tiles _ _ _ _ _ Hp Hs E) as (T & B & Hprog).
    specialize (Hprog Hlt ltac:(unfold CHUNK_CONCURRENCY; lia)).
    destruct (IH pos' ltac:(lia) Hs ltac:(lia)) as (ws & -> & T'). exists (batch :: ws).
    split; [done|]. simpl. by eapply tiles_app.
Qed.

Lemma tiles_read content pos l stop :
  0 ≤ pos → stop ≤ blen content → tiles pos l stop →
  mapM (λ ol : Z * Z, Some (slice content (Z.to_nat ol.1) (Z.to_nat ol.2))) l
    = Some ((λ ol : Z * Z, slice content (Z.to_nat ol.1) (Z.to_nat ol.2)) <$> l) ∧
  concat ((λ ol : Z * Z, slice content (Z.to_nat ol.1) (Z.to_nat ol.2)) <$> l)
    = slice content (Z.to_nat pos) (Z.to_nat (stop - pos)) ∧ pos ≤ stop.
Proof.
  intros Hp Hb. revert pos Hp. induction l as [|[off len] l IH]; intros pos Hp; simpl.
  - intros ->. rw Z.sub_diag. split; [done|]. split; [|lia]. unfold slice. by rw take_0.
  - intros (-> & Hl & Ht). destruct (IH (pos + len) ltac:(lia) Ht) as (E1 & E2 & E3). rw E1.
    split; [done|]. split; [|lia]. simpl. rw E2.
    replace (Z.to_nat (stop - pos)) with (Z.to_nat len + Z.to_nat (stop - (pos + len)))%nat by lia.
    rw slice_app. do 2 f_equal. lia.
Qed.

(** Below 4 GiB a fetch ends and stores exactly the file: when the server
    answers each read with the bytes asked for, the loop needs at most [size]
    windows, the staged blob is the file's content, and the entry is
    committed. *)
Theorem fetch_one_exact c path a content :
  a_kind a = KFile → wants c path (a_size a) = true → needs_fetch c path a = true →
  a_size a = blen content → a_size a < 2^32 →
  let read off len := Some (slice content (Z.to_nat off) (Z.to_nat len)) in
  ∃ c1, fetch_one (Z.to_nat (a_size a)) read c path a = Some (true, commit c1 path a (pin_match c path)) ∧
    disk c1 !! blob_final_path c path = Some content ∧ entries c1 = entries c.
Proof.
  intros Hk Hw Hn Hsz Hlt. cbn zeta. unfold fetch_one. rw bool_decide_true // Hw Hn. cbn [negb orb].
  assert (0 ≤ a_size a) as H0 by (rw Hsz; unfold blen; lia).
  destruct (fetch_windows_tiles (Z.to_nat (a_size a)) (a_size a) 0) as (ws & -> & Ht); [lia..|].
  destruct (tiles_read content 0 (concat ws) (a_size a) ltac:(lia) ltac:(lia) Ht) as (-> & -> & _).
  assert (slice content (Z.to_nat 0) (Z.to_nat (a_size a - 0)) = content) as ->.
  { unfold slice. rw drop_0 take_ge //. unfold blen in Hsz. lia. }
  rw (bool_decide_true (blen content = a_size a)) //. cbn [negb]. eexists. split; [done|].
  simpl. split; [apply lookup_insert_eq|done].
Qed.

Lemma fetch_one_exact_witness :
  ∃ c1, fetch_one 3 (λ off len, Some (slice [1; 2; 3] (Z.to_nat off) (Z.to_nat len))) sample_cache "f"
          (mkAttr KFile 3 9 9 0 4) = Some (true, commit c1 "f" (mkAttr KFile 3 9 9 0 4) false) ∧
    disk c1 !! ["c"; "f"] = Some [1; 2; 3] ∧ entries c1 = entries sample_cache.
Proof.
  exact (fetch_one_exact sample_cache "f" (mkAttr KFile 3 9 9 0 4) [1; 2; 3]
    eq_refl eq_refl eq_refl eq_refl eq_refl).
Defined.

Lemma fetch_window_stuck n size pos :
  2^32 ≤ size - pos → 2^32 ≤ size - (fetch_window n size pos).2.
Proof.
  assert (1 ≤ DATA_CHUNK) as HD by done.
  revert pos. induction n as [|n IH]; intros pos Hp; cbn [fetch_window]; [done|].
  destruct (Z.leb_spec size pos); [done|]. set (want := Z.min (as_u32 (size - pos)) DATA_CHUNK).
  assert (2^32 ≤ size - (pos + want)) as Hw.
  { unfold as_u32 in want. pose proof (Z.div_mod (size - pos) (2^32) ltac:(lia)).
    pose proof (Z.mod_pos_bound (size - pos) (2^32) ltac:(lia)).
    assert (1 ≤ (size - pos) / 2^32) by (apply Z.div_le_lower_bound; lia). lia. }
  specialize (IH _ Hw). by destruct (fetch_window n size (pos + want)).
Qed.

(** From 4 GiB on a fetch never ends: [(attr.size - pos) as u32] is 0 once a
    multiple of 2^32 bytes remains, so for every file of at least 2^32 bytes
    the loop issues empty reads forever, however long it runs. *)
Theorem fetch_of_large_file_never_ends fuel size :
  2^32 ≤ size → fetch_windows fuel size 0 = None.
Proof.
  intros Hs. assert (∀ pos, 2^32 ≤ size - pos → fetch_windows fuel size pos = None) as H; [|apply H; lia].
  induction fuel as [|fuel IH]; intros pos Hp; cbn [fetch_windows]; destruct (Z.leb_spec size pos); try lia; [done|].
  pose proof (fetch_window_stuck CHUNK_CONCURRENCY size pos Hp) as Hw.
  destruct (fetch_window _ size pos) as [batch pos']. simpl in Hw. by rw (IH _ Hw).
Qed.

Lemma fetch_of_large_file_never_ends_witness : fetch_windows 5 4294967297 0 = None.
Proof. exact (fetch_of_large_file_never_ends 5 4294967297 ltac:(lia)). Defined.
