(* ===== verification/Sync.v ===== *)
(** * Sync: baseline, three-way plan and transfers

    alloyfs-client/src/sync: manifest.rs (the baseline), reconcile.rs (the
    decision table [plan] and the walk of the remote tree), transfer.rs
    (downloads and uploads), [is_internal] and [ConflictPolicy] of mod.rs.  A
    [BTreeMap<String, _>] is a finite map iterated in key order.  The theorems:
    [plan] decides each path once, in order, by the three-way comparison; a
    tree that agrees everywhere needs nothing, and carrying a plan out leaves
    nothing to do; transfers move exactly the bytes. *)

From S2P Require Import Prelude Messages Common Inode AutoCache.

(** ** The baseline *)

Inductive EntryKind : Type := EkFile | EkDir.
#[global] Instance EntryKind_eq_dec : EqDecision EntryKind.
Proof. solve_decision. Defined.

Record SyncEntry : Type := mkSyncEntry {
  se_kind : EntryKind; remote_version : Z; se_size : Z; se_mtime_ns : Z
}.
#[global] Instance SyncEntry_eq_dec : EqDecision SyncEntry.
Proof. solve_decision. Defined.

Record SyncManifest : Type := mkManifest { m_last_seq : Z; m_entries : gmap string SyncEntry }.

(** The new key of an entry under [from], as [rename_prefix] computes it. *)
Definition move_key (from to path : string) : option string :=
  if bool_decide (path = from) then Some to
  else match strip_prefix (from +:+ "/") path with
       | Some suffix => Some (to +:+ "/" +:+ suffix)
       | None => None
       end.

(** [rename_prefix]: what is left of the map by [retain], and the [moved] list
    in key order, inserted after it. *)
Definition rename_prefix (m : SyncManifest) (from to : string) : bool * SyncManifest :=
  let moved := omap (λ pe, match move_key from to pe.1 with
                           | Some p => Some (p, pe.2) | None => None end) (sorted_entries (m_entries m)) in
  let kept := base.filter (λ pe, move_key from to pe.1 = None) (m_entries m) in
  (match moved with [] => false | _ => true end,
   mkManifest (m_last_seq m) (foldl (λ es pe, <[pe.1 := pe.2]> es) kept moved)).

(** ** The decision table *)

Record Stat : Type := mkStat { st_kind : EntryKind; st_size : Z; st_mtime_ns : Z; st_version : Z }.
#[global] Instance Stat_eq_dec : EqDecision Stat.
Proof. solve_decision. Defined.

Abbreviation Snapshot := (gmap string Stat) (only parsing).

Inductive Action : Type :=
| Pull (path : string)
| Push (path : string)
| DeleteLocal (path : string) (kind : EntryKind)
| DeleteRemote (path : string) (kind : EntryKind)
| Adopt (path : string) (stat : Stat)
| ConflictAct (path : string) (local remote : Stat)
| ForgetAct (path : string).
#[global] Instance Action_eq_dec : EqDecision Action.
Proof. solve_decision. Defined.

Definition same_stat (kind : EntryKind) (size mtime : Z) (s : Stat) : bool :=
  bool_decide (st_kind s = kind)
  && (bool_decide (kind = EkDir) || (bool_decide (st_size s = size) && bool_decide (st_mtime_ns s = mtime))).

Definition local_changed (base : option SyncEntry) (l : option Stat) : bool :=
  match base, l with
  | Some b, Some l => negb (same_stat (se_kind b) (se_size b) (se_mtime_ns b) l)
  | Some _, None => true
  | None, Some _ => true
  | None, None => false
  end.

Definition remote_changed (base : option SyncEntry) (r : option Stat) : bool :=
  match base, r with
  | Some b, Some r =>
      if negb (bool_decide (remote_version b = 0)) && bool_decide (remote_version b = st_version r)
      then false
      else negb (same_stat (se_kind b) (se_size b) (se_mtime_ns b) r)
  | Some _, None => true
  | None, Some _ => true
  | None, None => false
  end.

(** The body of [plan]'s loop: at most one action for [path]. *)
Definition plan_path (path : string) (base : option SyncEntry) (l r : option Stat) : option Action :=
  let l_changed := local_changed base l in
  let r_changed := remote_changed base r in
  match l, r with
  | Some l, Some r =>
      if bool_decide (st_kind l = EkDir) && bool_decide (st_kind r = EkDir)
      then match base with None => Some (Adopt path r) | Some _ => None end
      else match l_changed, r_changed with
           | false, false => None
           | true, false => Some (Push path)
           | false, true => Some (Pull path)
           | true, true =>
               if bool_decide (st_kind l = st_kind r) && bool_decide (st_size l = st_size r)
                  && bool_decide (st_mtime_ns l = st_mtime_ns r)
               then Some (Adopt path r) else Some (ConflictAct path l r)
           end
  | Some l, None =>
      match base with
      | None => Some (Push path)
      | Some _ => if l_changed then Some (Push path) else Some (DeleteLocal path (st_kind l))
      end
  | None, Some r =>
      match base with
      | None => Some (Pull path)
      | Some _ => if r_changed then Some (Pull path) else Some (DeleteRemote path (st_kind r))
      end
  | None, None => Some (ForgetAct path)
  end.

(** The keys of the three maps, in order. *)
Definition plan_paths (m : SyncManifest) (local remote : Snapshot) : list string :=
  (sorted_entries (((λ _, tt) <$> m_entries m) ∪ ((λ _, tt) <$> local) ∪ ((λ _, tt) <$> remote))).*1.

Definition plan (m : SyncManifest) (local remote : Snapshot) : list Action :=
  omap (λ p, plan_path p (m_entries m !! p) (local !! p) (remote !! p)) (plan_paths m local remote).

(** ** Snapshots *)

(** [is_internal]: a staging file of the engine. *)
Definition is_internal (path : string) : bool :=
  starts_with ".ds-tmp-" (match rsplit_once slash path with Some (_, name) => name | None => path end).

(** One entry of a remote listing: the snapshot and the directories to walk. *)
Definition snapshot_entry (excluded : RelPath → bool) (dir : string) (acc : gmap string Stat * list string)
    (e : DirEntry) : gmap string Stat * list string :=
  let '(snap, dirs) := acc in
  let path := if str_is_empty dir then de_name e else dir +:+ "/" +:+ de_name e in
  if excluded path || is_internal path then (snap, dirs)
  else match a_kind (de_attr e) with
  | KDir => (<[path := mkStat EkDir 0 0 (a_version (de_attr e))]> snap, path :: dirs)
  | KFile => (<[path := mkStat EkFile (a_size (de_attr e)) (mtime_ns (a_mtime (de_attr e)))
                               (a_version (de_attr e))]> snap, dirs)
  | KSymlink => (snap, dirs)
  end.

(** [snapshot_remote]: [listing dir cursor] is the server's answer to
    [Readdir]; the fuel bounds the number of pages read. *)
Fixpoint snapshot_remote (fuel : nat) (excluded : RelPath → bool)
    (listing : string → Z → result (list DirEntry * option Z) ErrorCode)
    (dirs : list string) (cursor : Z) (snap : gmap string Stat) : option (result (gmap string Stat) ErrorCode) :=
  match dirs with
  | [] => Some (Ok snap)
  | dir :: rest =>
      match fuel with
      | O => None
      | S fuel' =>
          match listing dir cursor with
          | Err e => Some (Err e)
          | Ok (es, next) =>
              let '(snap, rest) := foldl (snapshot_entry excluded dir) (snap, rest) es in
              match next with
              | Some c => snapshot_remote fuel' excluded listing (dir :: rest) c snap
              | None => snapshot_remote fuel' excluded listing rest 0 snap
              end
          end
      end
  end.

(** ** Transfers *)

(** The chunk list of [fetch_body]: offsets stepping by a chunk. *)
Definition body_chunks (size : Z) : list (Z * Z) :=
  let n := (Z.max size 1 + DATA_CHUNK - 1) / DATA_CHUNK in
  base.filter (λ ol : Z * Z, 0 < ol.2)
    ((λ i, let off := i * DATA_CHUNK in (off, as_u32 (Z.min (size - Z.min off size) DATA_CHUNK))) <$> seqZ 0 n).

(** [fetch_body]: the staged bytes; [read] answers one read request. *)
Definition fetch_body (read : Z → Z → result (list Z) ErrorCode) (size : Z) : result (list Z) ErrorCode :=
  foldl (λ acc ol, let? out := acc in let? data := read ol.1 ol.2 in Ok (out ++ data)) (Ok []) (body_chunks size).

(** [slice::chunks(size)], numbered by offset; the fuel is the data's length. *)
Fixpoint chunks_from (size : Z) (fuel : nat) (i : Z) (data : list Z) : list (Z * list Z) :=
  match fuel, data with
  | S fuel', _ :: _ =>
      (i * size, take (Z.to_nat size) data)
        :: chunks_from size fuel' (i + 1) (drop (Z.to_nat size) data)
  | _, _ => []
  end.

Definition upload_chunks (data : list Z) : list (Z * list Z) := chunks_from DATA_CHUNK (length data) 0 data.

(** The write loop of [upload]: [write] is the server's [Write] handler on its
    state; the first refusal ends it. *)
Fixpoint upload_writes {S : Type} (write : Z → list Z → S → result unit ErrorCode * S)
    (chunks : list (Z * list Z)) (s : S) : result unit ErrorCode * S :=
  match chunks with
  | [] => (Ok tt, s)
  | (off, chunk) :: rest =>
      match write off chunk s with
      | (Ok _, s') => upload_writes write rest s'
      | (Err _, s') => (Err Io, s')
      end
  end.

(** ** Conflicts *)

Inductive ConflictPolicy : Type := Newer | RemoteWins | LocalWins.

Definition policy_of_str (s : string) : option ConflictPolicy :=
  if bool_decide (s = "newer") then Some Newer
  else if bool_decide (s = "remote") then Some RemoteWins
  else if bool_decide (s = "local") then Some LocalWins else None.

(** Who wins, as [resolve_conflict] decides it. *)
Definition local_wins (policy : ConflictPolicy) (local remote : Stat) : bool :=
  match policy with
  | LocalWins => true
  | RemoteWins => false
  | Newer => st_mtime_ns remote <? st_mtime_ns local
  end.

(** ** What a plan means *)

Definition action_path (a : Action) : string :=
  match a with
  | Pull p | Push p | DeleteLocal p _ | DeleteRemote p _ | Adopt p _ | ConflictAct p _ _ | ForgetAct p => p
  end.

Lemma plan_path_path p base l r a : plan_path p base l r = Some a → action_path a = p.
Proof.
  unfold plan_path. destruct l as [l|], r as [r|], base as [b|]; intros H; simplify_eq/=; try done.
  all: repeat (case_match; simplify_eq/=; try done).
Qed.

Lemma elem_of_plan_paths m local remote p :
  p ∈ plan_paths m local remote ↔
  is_Some (m_entries m !! p) ∨ is_Some (local !! p) ∨ is_Some (remote !! p).
Proof.
  unfold plan_paths. rw list_elem_of_fmap. split.
  - intros ([q []] & -> & Hq%elem_of_sorted_entries). simpl. revert Hq.
    rw !lookup_union_Some_raw !lookup_fmap.
    destruct (m_entries m !! q), (local !! q), (remote !! q); simpl; naive_solver.
  - intros H. exists (p, tt). split; [done|]. apply elem_of_sorted_entries.
    rw !lookup_union_Some_raw !lookup_union_None !lookup_fmap.
    destruct (m_entries m !! p), (local !! p), (remote !! p); simpl; naive_solver.
Qed.

Lemma elem_of_plan m local remote a :
  a ∈ plan m local remote ↔
  plan_path (action_path a) (m_entries m !! action_path a) (local !! action_path a) (remote !! action_path a) = Some a
  ∧ action_path a ∈ plan_paths m local remote.
Proof.
  unfold plan. rw list_elem_of_omap. split.
  - intros (p & Hp & Ha). pose proof (plan_path_path _ _ _ _ _ Ha) as <-. done.
  - intros [Ha Hp]. eauto.
Qed.

(** Does one side still match the baseline? *)
Definition unchanged_local (m : SyncManifest) (local : Snapshot) (p : string) : Prop :=
  ∃ b l, m_entries m !! p = Some b ∧ local !! p = Some l ∧ same_stat (se_kind b) (se_size b) (se_mtime_ns b) l = true.
Definition unchanged_remote (m : SyncManifest) (remote : Snapshot) (p : string) : Prop :=
  ∃ b r, m_entries m !! p = Some b ∧ remote !! p = Some r ∧
    ((remote_version b ≠ 0 ∧ remote_version b = st_version r)
     ∨ same_stat (se_kind b) (se_size b) (se_mtime_ns b) r = true).

Lemma local_unchanged_iff m local p l :
  local !! p = Some l → local_changed (m_entries m !! p) (Some l) = false → unchanged_local m local p.
Proof.
  intros Hl. unfold local_changed. destruct (m_entries m !! p) as [b|] eqn:E; [|done].
  intros ?%negb_false_iff. by exists b, l.
Qed.

Lemma remote_unchanged_iff m remote p r :
  remote !! p = Some r → remote_changed (m_entries m !! p) (Some r) = false → unchanged_remote m remote p.
Proof.
  intros Hr. unfold remote_changed. destruct (m_entries m !! p) as [b|] eqn:E; [|done].
  destruct (negb _ && _) eqn:Ev.
  - intros _. apply andb_true_iff in Ev as [Hn%negb_true_iff%bool_decide_eq_false He%bool_decide_eq_true].
    exists b, r. split; [done|]. split; [done|]. by left.
  - intros ?%negb_false_iff. exists b, r. split; [done|]. split; [done|]. by right.
Qed.

(** C22.  No edit is lost to a plan: a side is deleted or overwritten only when it
    still matches the baseline (the remote side: or carries the baseline's
    nonzero version); when both sides changed and differ, the action is a
    conflict.  Directories are never overwritten by their own kind. *)
Theorem plan_preserves_edits m local remote a :
  a ∈ plan m local remote →
  match a with
  | DeleteLocal p _ => remote !! p = None ∧ unchanged_local m local p
  | DeleteRemote p _ => local !! p = None ∧ unchanged_remote m remote p
  | Pull p => is_Some (remote !! p) ∧ (local !! p = None ∨ unchanged_local m local p)
  | Push p => is_Some (local !! p) ∧ (remote !! p = None ∨ unchanged_remote m remote p)
  | Adopt p s => remote !! p = Some s ∧ ∃ l, local !! p = Some l ∧ st_kind l = st_kind s ∧
      (st_kind s = EkDir ∨ (st_size l = st_size s ∧ st_mtime_ns l = st_mtime_ns s))
  | ConflictAct p l r => local !! p = Some l ∧ remote !! p = Some r
  | ForgetAct p => local !! p = None ∧ remote !! p = None
  end.
Proof.
  rw elem_of_plan. intros [Ha _]. remember (action_path a) as p eqn:Hp. unfold plan_path in Ha.
  pose proof (local_unchanged_iff m local p) as HL. pose proof (remote_unchanged_iff m remote p) as HR.
  destruct (local !! p) as [l|] eqn:El, (remote !! p) as [r|] eqn:Er.
  - destruct (bool_decide (st_kind l = EkDir) && _) eqn:Ed.
    + apply andb_true_iff in Ed as [Hl%bool_decide_eq_true Hr%bool_decide_eq_true].
      destruct (m_entries m !! p); [done|]. injection Ha as <-. clear Hp. split; [done|].
      exists l. split; [done|]. split; [congruence|by left].
    + specialize (HL l eq_refl). specialize (HR r eq_refl).
      destruct (local_changed _ _), (remote_changed _ _); try done.
      * destruct (bool_decide (st_kind l = st_kind r) && bool_decide (st_size l = st_size r)
                  && bool_decide (st_mtime_ns l = st_mtime_ns r)) eqn:Eq; injection Ha as <-; clear Hp; [|done].
        apply andb_true_iff in Eq as [Eq H3%bool_decide_eq_true].
        apply andb_true_iff in Eq as [H1%bool_decide_eq_true H2%bool_decide_eq_true].
        split; [done|]. exists l. split; [done|]. split; [done|by right].
      * injection Ha as <-. clear Hp. split; [by rw El|]. right. by apply HR.
      * injection Ha as <-. clear Hp. split; [by rw Er|]. right. by apply HL.
  - specialize (HL l eq_refl). destruct (m_entries m !! p) as [b|] eqn:Eb; [destruct (local_changed _ _)|];
      injection Ha as <-; clear Hp.
    + split; [by rw El|by left].
    + split; [done|]. by apply HL.
    + split; [by rw El|by left].
  - specialize (HR r eq_refl). destruct (m_entries m !! p) as [b|] eqn:Eb; [destruct (remote_changed _ _)|];
      injection Ha as <-; clear Hp.
    + split; [by rw Er|by left].
    + split; [done|]. by apply HR.
    + split; [by rw Er|by left].
  - injection Ha as <-. done.
Qed.

Definition sample_manifest : SyncManifest :=
  mkManifest 0 {["a" := mkSyncEntry EkFile 3 1 1; "b" := mkSyncEntry EkFile 4 2 2]}.

Lemma plan_preserves_edits_witness :
  ({["b" := mkStat EkFile 2 2 9]} : gmap string Stat) !! "a" = None ∧
  unchanged_local sample_manifest {["a" := mkStat EkFile 1 1 0; "b" := mkStat EkFile 2 2 0]} "a".
Proof.
  apply (plan_preserves_edits sample_manifest
    {["a" := mkStat EkFile 1 1 0; "b" := mkStat EkFile 2 2 0]} {["b" := mkStat EkFile 2 2 9]}
    (DeleteLocal "a" EkFile)).
  vm_compute. left.
Defined.

(** *** Carrying a plan out *)

Definition entry_of (s : Stat) (version : Z) : SyncEntry :=
  mkSyncEntry (st_kind s) version (st_size s) (st_mtime_ns s).
Definition with_version (s : Stat) (v : Z) : Stat := mkStat (st_kind s) (st_size s) (st_mtime_ns s) v.

(** The three maps. *)
Record Tree : Type := mkTree { t_base : gmap string SyncEntry; t_local : gmap string Stat; t_remote : gmap string Stat }.

(** What carrying out one action does to its path: the winner's size and mtime
    end up on both sides and in the baseline ([v] is the version the server
    assigns). *)
Definition settle (policy : ConflictPolicy) (v : Z) (t : Tree) (a : Action) : Tree :=
  let take_remote p := match t_remote t !! p with
    | Some r => mkTree (<[p := entry_of r (st_version r)]> (t_base t)) (<[p := with_version r 0]> (t_local t)) (t_remote t)
    | None => t end in
  let take_local p := match t_local t !! p with
    | Some l => mkTree (<[p := entry_of l v]> (t_base t)) (t_local t) (<[p := with_version l v]> (t_remote t))
    | None => t end in
  match a with
  | Pull p => take_remote p
  | Push p => take_local p
  | DeleteLocal p _ => mkTree (delete p (t_base t)) (delete p (t_local t)) (t_remote t)
  | DeleteRemote p _ => mkTree (delete p (t_base t)) (t_local t) (delete p (t_remote t))
  | Adopt p s => mkTree (<[p := entry_of s (st_version s)]> (t_base t)) (t_local t) (t_remote t)
  | ConflictAct p l r => if local_wins policy l r then take_local p else take_remote p
  | ForgetAct p => mkTree (delete p (t_base t)) (t_local t) (t_remote t)
  end.

Definition tree_plan (t : Tree) : list Action := plan (mkManifest 0 (t_base t)) (t_local t) (t_remote t).

(** The three entries at one path. *)
Definition at_path (t : Tree) (p : string) : option SyncEntry * option Stat * option Stat :=
  (t_base t !! p, t_local t !! p, t_remote t !! p).

Definition path_done (t : Tree) (p : string) : Prop :=
  plan_path p (t_base t !! p) (t_local t !! p) (t_remote t !! p) = None ∨ at_path t p = (None, None, None).

Lemma settle_other policy v t a p : p ≠ action_path a → at_path (settle policy v t a) p = at_path t p.
Proof.
  intros Hp. unfold at_path. destruct a as [q|q|q k|q k|q s|q l r|q]; simpl in *.
  all: repeat case_match; simpl; rw ?lookup_insert_ne ?lookup_delete_ne //.
Qed.

Lemma same_stat_iff b s :
  same_stat (se_kind b) (se_size b) (se_mtime_ns b) s = true ↔
  st_kind s = se_kind b ∧ (se_kind b = EkDir ∨ (st_size s = se_size b ∧ st_mtime_ns s = se_mtime_ns b)).
Proof. unfold same_stat. by rw andb_true_iff orb_true_iff andb_true_iff !bool_decide_eq_true. Qed.

(** Both sides agree with the baseline. *)
Lemma agreed_done p b l r :
  same_stat (se_kind b) (se_size b) (se_mtime_ns b) l = true →
  same_stat (se_kind b) (se_size b) (se_mtime_ns b) r = true →
  plan_path p (Some b) (Some l) (Some r) = None.
Proof.
  intros Hl Hr. unfold plan_path. destruct (_ && _); [done|]. unfold local_changed, remote_changed.
  rw Hl Hr. simpl. by destruct (_ && _).
Qed.

Lemma settle_done policy v t a :
  plan_path (action_path a) (t_base t !! action_path a) (t_local t !! action_path a) (t_remote t !! action_path a) = Some a →
  path_done (settle policy v t a) (action_path a).
Proof.
  intros Ha. unfold path_done, at_path.
  assert (Hremote : ∀ p r, t_remote t !! p = Some r →
    plan_path p (<[p := entry_of r (st_version r)]> (t_base t) !! p) (<[p := with_version r 0]> (t_local t) !! p) (t_remote t !! p) = None).
  { intros p r Hr. rw !lookup_insert_eq Hr. apply agreed_done; apply same_stat_iff; simpl; tauto. }
  assert (Hlocal : ∀ p l, t_local t !! p = Some l →
    plan_path p (<[p := entry_of l v]> (t_base t) !! p) (t_local t !! p) (<[p := with_version l v]> (t_remote t) !! p) = None).
  { intros p l Hl. rw !lookup_insert_eq Hl. apply agreed_done; apply same_stat_iff; simpl; tauto. }
  pose proof (plan_preserves_edits (mkManifest 0 (t_base t)) (t_local t) (t_remote t) a) as Hsafe.
  rw elem_of_plan elem_of_plan_paths in Hsafe. simpl in Hsafe.
  assert (is_Some (t_base t !! action_path a) ∨ is_Some (t_local t !! action_path a) ∨ is_Some (t_remote t !! action_path a)
          ∨ a = ForgetAct (action_path a)) as Hcase.
  { destruct (t_base t !! action_path a), (t_local t !! action_path a), (t_remote t !! action_path a); eauto.
    simpl in Ha. injection Ha as <-. by right; right; right. }
  destruct a as [p|p|p k|p k|p s|p l r|p]; simpl in *.
  1-6: destruct Hsafe as [H1 H2]; [split; [done|naive_solver]|].
  - destruct H1 as [r Hr]. rw Hr. left. simpl. by apply Hremote.
  - destruct H1 as [l Hl]. rw Hl. left. simpl. by apply Hlocal.
  - right. by rw !lookup_delete_eq H1.
  - right. by rw !lookup_delete_eq H1.
  - destruct H2 as (l & Hl & Hk & Hor). left. rw lookup_insert_eq Hl H1.
    apply agreed_done; apply same_stat_iff; simpl; tauto.
  - destruct (local_wins policy l r); [rw H1|rw H2]; left; simpl; [by apply Hlocal|by apply Hremote].
  - unfold plan_path in Ha. right. rw lookup_delete_eq.
    destruct (t_local t !! p), (t_remote t !! p), (t_base t !! p); try done; simpl in Ha;
      repeat (case_match; try done).
Qed.

Lemma plan_paths_nodup m l r : NoDup (plan_paths m l r).
Proof. apply sorted_entries_nodup. Qed.

Lemma plan_nodup m l r : NoDup (action_path <$> plan m l r).
Proof.
  unfold plan. pose proof (plan_paths_nodup m l r) as Hnd. induction (plan_paths m l r) as [|p ps IH]; [constructor|].
  apply NoDup_cons in Hnd as [Hp Hnd]. simpl.
  destruct (plan_path p _ _ _) as [a|] eqn:Ea; simpl; [|by apply IH].
  constructor; [|by apply IH]. rw (plan_path_path _ _ _ _ _ Ea).
  intros (b & Hb & (q & Hq & Hqb)%list_elem_of_omap)%list_elem_of_fmap.
  apply plan_path_path in Hqb. congruence.
Qed.

Lemma path_done_eq t t' p : at_path t p = at_path t' p → path_done t p → path_done t' p.
Proof. unfold path_done, at_path. by intros [= <- <- <-]. Qed.

(** Settling a list of actions planned for distinct paths. *)
Lemma settle_all_done policy v actions t :
  NoDup (action_path <$> actions) →
  Forall (λ a, plan_path (action_path a) (t_base t !! action_path a) (t_local t !! action_path a)
                 (t_remote t !! action_path a) = Some a) actions →
  let t' := foldl (settle policy v) t actions in
  (∀ p, p ∈ action_path <$> actions → path_done t' p) ∧
  (∀ p, p ∉ action_path <$> actions → at_path t' p = at_path t p).
Proof.
  revert t. induction actions as [|a actions IH]; intros t Hnd Hall; simpl; [split; set_solver|].
  simpl in Hnd. apply NoDup_cons in Hnd as [Ha Hnd]. apply Forall_cons in Hall as [Hpa Hall].
  destruct (IH (settle policy v t a) Hnd) as [H1 H2].
  { rw Forall_forall in Hall. apply Forall_forall. intros b Hb.
    assert (action_path b ≠ action_path a) as Hne.
    { intros Heq. apply Ha. rw -Heq. by apply list_elem_of_fmap_2. }
    pose proof (settle_other policy v t a (action_path b) Hne) as Heq. unfold at_path in Heq.
    injection Heq as -> -> ->. by apply Hall. }
  split.
  - intros p [->|Hp]%elem_of_cons; [|by apply H1].
    eapply path_done_eq; [symmetry; by apply H2|]. by apply settle_done.
  - intros p [Hp1 Hp2]%not_elem_of_cons. rw H2 //. by apply settle_other.
Qed.

(** Carrying a plan out converges: after every action of a plan has taken
    effect on its path (conflicts by the policy), the next plan is empty, for
    every policy and whatever version the server assigns. *)
Theorem plan_converges policy v t :
  tree_plan (foldl (settle policy v) t (tree_plan t)) = [].
Proof.
  pose proof (plan_nodup (mkManifest 0 (t_base t)) (t_local t) (t_remote t)) as Hnd.
  destruct (settle_all_done policy v (tree_plan t) t Hnd) as [Hdone Hsame].
  { apply Forall_forall. intros a Ha. by apply elem_of_plan in Ha as [Ha _]. }
  set (t' := foldl _ _ _) in *. destruct (tree_plan t') as [|b bs] eqn:E; [done|exfalso].
  assert (b ∈ tree_plan t') as Hb by (rw E; left). apply elem_of_plan in Hb as [Hb Hin].
  rw elem_of_plan_paths in Hin. simpl in *. set (q := action_path b) in *.
  assert (path_done t' q) as Hq.
  { destruct (decide (q ∈ action_path <$> tree_plan t)) as [Hq|Hq]; [by apply Hdone|].
    pose proof (Hsame q Hq) as Heq. eapply path_done_eq; [symmetry; exact Heq|]. left.
    unfold at_path in Heq. injection Heq as E1 E2 E3. rw E1 E2 E3 in Hin.
    destruct (plan_path q (t_base t !! q) (t_local t !! q) (t_remote t !! q)) as [a|] eqn:Ea; [|done].
    exfalso. apply Hq. pose proof (plan_path_path _ _ _ _ _ Ea) as <-. apply list_elem_of_fmap_2.
    apply elem_of_plan. split; [done|]. by apply elem_of_plan_paths. }
  destruct Hq as [Hq|Hq]; [congruence|]. unfold at_path in Hq. injection Hq as E1 E2 E3.
  rw E1 E2 E3 in Hin. destruct Hin as [[? ?]|[[? ?]|[? ?]]]; done.
Qed.

(** The agent's versions start at 0 again when it restarts, so a remote edit
    can come back with the baseline's version: [plan] then takes the remote
    side for unchanged although its size and mtime differ, and overwrites it
    with the local edit instead of reporting a conflict. *)
Theorem version_reuse_hides_remote_edit :
  let local : gmap string Stat := {["a" := mkStat EkFile 5 50 0]} in
  let remote : gmap string Stat := {["a" := mkStat EkFile 9 90 3]} in
  plan (mkManifest 0 {["a" := mkSyncEntry EkFile 3 1 1]}) local remote = [Push "a"] ∧
  plan (mkManifest 0 {["a" := mkSyncEntry EkFile 0 1 1]}) local remote
    = [ConflictAct "a" (mkStat EkFile 5 50 0) (mkStat EkFile 9 90 3)].
Proof. vm_compute. done. Qed.

(** ** Transfers *)

Lemma DATA_CHUNK_bounds : 1 ≤ DATA_CHUNK ≤ U32_MAX.
Proof. vm_compute. split; discriminate. Qed.
#[local] Opaque DATA_CHUNK.

(** The chunk [i] of a body of [size] bytes. *)
Definition body_chunk (size i : Z) : Z * Z :=
  (i * DATA_CHUNK, as_u32 (Z.min (size - Z.min (i * DATA_CHUNK) size) DATA_CHUNK)).

Lemma body_chunks_from size n : ∀ i,
  0 ≤ i → i * DATA_CHUNK ≤ size → size ≤ (i + Z.of_nat n) * DATA_CHUNK →
  ((0 < n)%nat → (i + Z.of_nat n - 1) * DATA_CHUNK < Z.max size 1) →
  tiles (i * DATA_CHUNK) (base.filter (λ ol : Z * Z, 0 < ol.2) (body_chunk size <$> seqZ i (Z.of_nat n))) size.
Proof.
  pose proof DATA_CHUNK_bounds as HD. induction n as [|n IH]; intros i Hi Hle Hcov Htight.
  { simpl. nia. }
  specialize (Htight ltac:(lia)). rw seqZ_cons; [|lia].
  replace (Z.pred (Z.of_nat (S n))) with (Z.of_nat n) by lia. rw fmap_cons filter_cons.
  assert (Hlen : (body_chunk size i).2 = Z.min (size - i * DATA_CHUNK) DATA_CHUNK).
  { unfold body_chunk. simpl. rw as_u32_small; [lia|ints]. }
  assert (Hrest : size - i * DATA_CHUNK < DATA_CHUNK → n = 0%nat).
  { intros Hs. destruct n as [|n]; [done|]. exfalso. nia. }
  rw Hlen. destruct (decide (0 < Z.min (size - i * DATA_CHUNK) DATA_CHUNK)) as [Hpos|Hzero].
  - cbn [tiles]. unfold body_chunk at 1. simpl in Hlen. rw Hlen. split; [done|]. split; [lia|].
    destruct (decide (size - i * DATA_CHUNK < DATA_CHUNK)) as [Hlast|Hfull].
    + rw (Hrest Hlast). simpl. lia.
    + replace (i * DATA_CHUNK + Z.min (size - i * DATA_CHUNK) DATA_CHUNK) with (Z.succ i * DATA_CHUNK) by lia.
      apply IH; [lia|lia|lia|]. intros _. lia.
  - rw (Hrest ltac:(lia)). simpl. lia.
Qed.

Lemma body_chunks_tiles size : 0 ≤ size → tiles 0 (body_chunks size) size.
Proof.
  intros Hs. pose proof DATA_CHUNK_bounds as HD. unfold body_chunks.
  set (n := (Z.max size 1 + DATA_CHUNK - 1) / DATA_CHUNK).
  pose proof (Z.div_mod (Z.max size 1 + DATA_CHUNK - 1) DATA_CHUNK ltac:(lia)) as E. fold n in E.
  pose proof (Z.mod_pos_bound (Z.max size 1 + DATA_CHUNK - 1) DATA_CHUNK ltac:(lia)) as B.
  assert (0 < n) as Hn by nia.
  pose proof (body_chunks_from size (Z.to_nat n) 0) as H. rw Z2Nat.id in H; [|lia].
  apply H; [lia|lia|nia|]. intros _. nia.
Qed.

Lemma fetch_body_foldl content l out :
  foldl (λ acc ol, let? out := acc in
                   let? data := (Ok (slice content (Z.to_nat ol.1) (Z.to_nat ol.2)) : result (list Z) ErrorCode) in
                   Ok (out ++ data)) (Ok out) l
  = Ok (out ++ concat ((λ ol : Z * Z, slice content (Z.to_nat ol.1) (Z.to_nat ol.2)) <$> l)).
Proof.
  revert out. induction l as [|ol l IH]; intros out; simpl; [by rw app_nil_r|]. by rw IH -app_assoc.
Qed.

(** A download is exact: when the server answers each read with the bytes
    asked for of a file of [size] bytes, what is staged is the file, for every
    size. *)
Theorem download_exact content :
  fetch_body (λ off len, Ok (slice content (Z.to_nat off) (Z.to_nat len))) (blen content) = Ok content.
Proof.
  unfold fetch_body. rw fetch_body_foldl. f_equal. simpl.
  assert (0 ≤ blen content) as H0 by (unfold blen; lia).
  destruct (tiles_read content 0 (body_chunks (blen content)) (blen content) ltac:(lia) ltac:(lia)
    (body_chunks_tiles _ H0)) as (_ & -> & _).
  unfold slice. rw drop_0 take_ge //. unfold blen. lia.
Qed.

Lemma splice_end pre d : splice pre (length pre) d = pre ++ d.
Proof.
  destruct d as [|x d]; [by rw app_nil_r|]. unfold splice.
  rw take_ge // Nat.sub_diag drop_ge; [|lia]. by rw app_nil_r.
Qed.

Lemma upload_from size fuel i pre rest :
  1 ≤ size → 0 ≤ i → Z.of_nat (length pre) = i * size → (length rest ≤ fuel)%nat →
  upload_writes (λ off d c, (Ok tt, splice c (Z.to_nat off) d)) (chunks_from size fuel i rest) pre
  = (Ok tt, pre ++ rest).
Proof.
  intros Hsize. revert i pre rest. induction fuel as [|fuel IH]; intros i pre rest Hi Hpre Hf.
  { destruct rest; [|simpl in Hf; lia]. simpl. by rw app_nil_r. }
  destruct rest as [|x rest]; [simpl; by rw app_nil_r|]. cbn [chunks_from upload_writes].
  set (r := x :: rest) in *. replace (Z.to_nat (i * size)) with (length pre) by lia. rw splice_end.
  destruct (decide (length r ≤ Z.to_nat size)%nat) as [Hlast|Hmore].
  - rw take_ge // drop_ge //. by destruct fuel.
  - rw IH; [by rw -app_assoc take_drop|lia| |].
    + rw length_app length_take. lia.
    + rw length_drop. subst r. simpl in *. lia.
Qed.

(** An upload is exact: the chunk writes, applied in order to the truncated
    file, leave exactly the local file's bytes on the server. *)
Theorem upload_exact data :
  upload_writes (λ off d content, (Ok tt, splice content (Z.to_nat off) d)) (upload_chunks data) []
  = (Ok tt, data).
Proof. apply (upload_from DATA_CHUNK _ 0 []); [apply DATA_CHUNK_bounds|done|done|lia]. Qed.

(** A download whose reads come back short (the file shrank after it was
    opened) still succeeds, with fewer bytes than the size it is recorded
    under. *)
Theorem short_download_succeeds :
  fetch_body (λ off len, Ok (slice [1; 2] (Z.to_nat off) (Z.to_nat len))) 5 = Ok [1; 2].
Proof. vm_compute. reflexivity. Qed.
