(* ===== verification/KernelAbi.v ===== *)
(** * KernelAbi: the byte layout between the kernel module and the daemon

    alloyfs-mount-kernel/src/abi.rs.  Bytes are [Z]s in [0, 255] and native
    byte order is little-endian.  Slicing or indexing past the end of a slice
    panics in Rust: here it is [None], so a parser's type is [option (option A)]
    -- the outer [None] is a panic (which would take the mount with it), the
    inner one a refusal.  The theorems: no parser panics on any bytes; each
    parser inverts the layout the C header defines; directory entries stay
    aligned, within their limit, and can be read back. *)

From S2P Require Import Prelude Messages.

(** ** Constants *)

Definition ABI_VERSION : Z := 1.
Definition ROOT_NODEID : Z := 1.
Definition MAX_PAYLOAD : Z := 128 * 1024.
Definition MAX_NAME : Z := 255.
Definition IN_HEADER_LEN : nat := 40.
Definition OUT_HEADER_LEN : nat := 16.
Definition ATTR_LEN : nat := 32.
Definition CREATE_IN_LEN : nat := 8.
Definition RENAME_IN_LEN : nat := 16.
Definition SETATTR_IN_LEN : nat := 24.
Definition WRITE_OUT_LEN : nat := 8.
Definition NOTIFY_ENTRY_LEN : nat := 32.
Definition DIRENT_LEN : nat := 24.
Definition READ_BUF_LEN : Z := Z.of_nat IN_HEADER_LEN + MAX_PAYLOAD.

Definition OP_LOOKUP : Z := 1.
Definition OP_GETATTR : Z := 2.
Definition OP_READDIR : Z := 3.
Definition OP_READ : Z := 4.
Definition OP_CREATE : Z := 5.
Definition OP_MKDIR : Z := 6.
Definition OP_UNLINK : Z := 7.
Definition OP_RMDIR : Z := 8.
Definition OP_RENAME : Z := 9.
Definition OP_WRITE : Z := 10.
Definition OP_SETATTR : Z := 11.
Definition OP_LOCK : Z := 12.
Definition OP_UNLOCK : Z := 13.
Definition OP_SYMLINK : Z := 14.
Definition OP_READLINK : Z := 15.
Definition OP_LINK : Z := 16.
Definition OP_STATFS : Z := 17.

Definition SYMLINK_IN_LEN : nat := 8.
Definition LINK_IN_LEN : nat := 8.
Definition STATFS_OUT_LEN : nat := 24.
Definition LOCK_SHARED : Z := 1.
Definition LOCK_EXCLUSIVE : Z := 2.
Definition LOCK_IN_LEN : nat := 8.

Definition SETATTR_MODE : Z := Z.shiftl 1 0.
Definition SETATTR_SIZE : Z := Z.shiftl 1 1.
Definition SETATTR_MTIME : Z := Z.shiftl 1 2.

Definition NOTIFY_CREATE : Z := 1.
Definition NOTIFY_DELETE : Z := 2.
Definition NOTIFY_MODIFY : Z := 3.
Definition NOTIFY_ATTRIB : Z := 4.
Definition NOTIFY_RENAME : Z := 5.
Definition NOTIFY_F_ISDIR : Z := Z.shiftl 1 0.

Definition S_IFMT : Z := 61440.   (* 0o170000 *)
Definition S_IFDIR : Z := 16384.  (* 0o040000 *)
Definition S_IFREG : Z := 32768.  (* 0o100000 *)
Definition S_IFLNK : Z := 40960.  (* 0o120000 *)
Definition DT_DIR : Z := 4.
Definition DT_REG : Z := 8.

(** Linux errno values. *)
Definition EPERM : Z := 1.
Definition ENOENT : Z := 2.
Definition EIO : Z := 5.
Definition EBADF : Z := 9.
Definition EAGAIN : Z := 11.
Definition EACCES : Z := 13.
Definition EEXIST : Z := 17.
Definition EXDEV : Z := 18.
Definition ENODEV : Z := 19.
Definition ENOTDIR : Z := 20.
Definition EISDIR : Z := 21.
Definition EINVAL : Z := 22.
Definition EFBIG : Z := 27.
Definition EROFS : Z := 30.
Definition ENAMETOOLONG : Z := 36.
Definition ENOSYS : Z := 38.
Definition ENOTEMPTY : Z := 39.
Definition EOPNOTSUPP : Z := 95.

(** ** Decoding *)

(** [&b[off..off + n]], panicking past the end. *)
Definition bytes_at (b : list Z) (off n : nat) : option (list Z) :=
  if bool_decide (off + n ≤ length b)%nat then Some (take n (drop off b)) else None.

(** [&b[off..]]. *)
Definition bytes_from (b : list Z) (off : nat) : option (list Z) :=
  if bool_decide (off ≤ length b)%nat then Some (drop off b) else None.

Definition u16_at (b : list Z) (off : nat) : option Z := le_value <$> bytes_at b off 2.
Definition u32_at (b : list Z) (off : nat) : option Z := le_value <$> bytes_at b off 4.
Definition u64_at (b : list Z) (off : nat) : option Z := le_value <$> bytes_at b off 8.

Record InHeader : Type := mkInHeader {
  ih_len : Z; ih_opcode : Z; ih_unique : Z; ih_nodeid : Z; ih_offset : Z; ih_size : Z
}.

Definition parse_in_header (buf : list Z) : option (option InHeader) :=
  if bool_decide (length buf < IN_HEADER_LEN)%nat then Some None
  else
    len ← u32_at buf 0; opcode ← u32_at buf 4; unique ← u64_at buf 8;
    nodeid ← u64_at buf 16; offset ← u64_at buf 24; size ← u32_at buf 32;
    if (len <? Z.of_nat IN_HEADER_LEN) || (blen buf <? len) || (READ_BUF_LEN <? len)
    then Some None
    else Some (Some (mkInHeader len opcode unique nodeid offset size)).

Definition payload_len (h : InHeader) : Z := ih_len h - Z.of_nat IN_HEADER_LEN.

Definition parse_create_in (payload : list Z) : option (option (Z * list Z)) :=
  if bool_decide (length payload < CREATE_IN_LEN)%nat then Some None
  else mode ← u32_at payload 0; name ← bytes_from payload CREATE_IN_LEN; Some (Some (mode, name)).

Definition parse_rename_in (payload : list Z) : option (option (Z * list Z * list Z)) :=
  if bool_decide (length payload < RENAME_IN_LEN)%nat then Some None
  else
    newparent ← u64_at payload 0;
    namelen ← u16_at payload 8;
    newnamelen ← u16_at payload 10;
    names ← bytes_from payload RENAME_IN_LEN;
    if blen names <? namelen + newnamelen then Some None
    else
      name ← bytes_at names 0 (Z.to_nat namelen);
      newname ← bytes_at names (Z.to_nat namelen) (Z.to_nat newnamelen);
      Some (Some (newparent, name, newname)).

Record SetattrIn : Type := mkSetattrIn { sa_valid : Z; sa_mode : Z; sa_size : Z; sa_mtime_ns : Z }.

Definition parse_setattr_in (payload : list Z) : option (option SetattrIn) :=
  if bool_decide (length payload < SETATTR_IN_LEN)%nat then Some None
  else
    valid ← u32_at payload 0; mode ← u32_at payload 4;
    size ← u64_at payload 8; mtime ← u64_at payload 16;
    Some (Some (mkSetattrIn valid mode size mtime)).

Record LockIn : Type := mkLockIn { li_kind : LockKind; li_wait : bool }.

Definition parse_lock_in (payload : list Z) : option (option LockIn) :=
  if bool_decide (length payload < LOCK_IN_LEN)%nat then Some None
  else
    k ← u32_at payload 0;
    if bool_decide (k = LOCK_SHARED) then
      w ← u32_at payload 4; Some (Some (mkLockIn Shared (negb (bool_decide (w = 0)))))
    else if bool_decide (k = LOCK_EXCLUSIVE) then
      w ← u32_at payload 4; Some (Some (mkLockIn Exclusive (negb (bool_decide (w = 0)))))
    else Some None.

Definition parse_symlink_in (payload : list Z) : option (option (list Z * list Z)) :=
  if bool_decide (length payload < SYMLINK_IN_LEN)%nat then Some None
  else
    namelen ← u16_at payload 0;
    targetlen ← u16_at payload 2;
    rest ← bytes_from payload SYMLINK_IN_LEN;
    if blen rest <? namelen + targetlen then Some None
    else
      name ← bytes_at rest 0 (Z.to_nat namelen);
      target ← bytes_at rest (Z.to_nat namelen) (Z.to_nat targetlen);
      Some (Some (name, target)).

Definition parse_link_in (payload : list Z) : option (option (Z * list Z)) :=
  if bool_decide (length payload < LINK_IN_LEN)%nat then Some None
  else target ← u64_at payload 0; name ← bytes_from payload LINK_IN_LEN; Some (Some (target, name)).

(** ** Encoding *)

Definition statfs_out (blocks blocks_free block_size : Z) : list Z :=
  le_bytes 8 blocks ++ le_bytes 8 blocks_free ++ le_bytes 4 block_size ++ le_bytes 4 0.

Record KernelAttr : Type := mkKernelAttr {
  ka_nodeid : Z; ka_size : Z; ka_mtime_ns : Z; ka_mode : Z; ka_nlink : Z
}.

Definition attr_to_bytes (a : KernelAttr) : list Z :=
  le_bytes 8 (ka_nodeid a) ++ le_bytes 8 (ka_size a) ++ le_bytes 8 (ka_mtime_ns a)
  ++ le_bytes 4 (ka_mode a) ++ le_bytes 4 (ka_nlink a).

Definition attr_is_dir (a : KernelAttr) : bool := bool_decide (Z.land (ka_mode a) S_IFMT = S_IFDIR).

Definition write_out (written : Z) : list Z := le_bytes 4 written ++ le_bytes 4 0.

(** [error] is an [i32] in two's complement. *)
Definition response (unique error : Z) (payload : list Z) : list Z :=
  le_bytes 4 (as_u32 (Z.of_nat (OUT_HEADER_LEN + length payload)))
  ++ le_bytes 4 (error mod 2^32) ++ le_bytes 8 unique ++ payload.

(** [(size + 7) & !7]. *)
Definition dirent_align (size : Z) : Z := Z.land (size + 7) (Z.lnot 7).
Definition dirent_size (namelen : Z) : Z := dirent_align (Z.of_nat DIRENT_LEN + namelen).

(** [push_dirent]: the buffer, unchanged when the entry is refused. *)
Definition push_dirent (out : list Z) (limit nodeid off ty : Z) (name : string) : bool * list Z :=
  let entry := dirent_size (str_len name) in
  if str_is_empty name || (MAX_NAME <? str_len name) || (limit <? blen out + entry) then (false, out)
  else (true, out ++ le_bytes 8 nodeid ++ le_bytes 8 off ++ le_bytes 4 (as_u32 (str_len name))
              ++ le_bytes 4 ty ++ as_bytes name
              ++ replicate (Z.to_nat (entry - Z.of_nat DIRENT_LEN - str_len name)) 0).

Record Notification : Type := mkNotification {
  nt_code : Z; nt_parent : Z; nt_parent2 : Z; nt_size : Z; nt_isdir : bool; nt_name : string; nt_name2 : string
}.

Definition encode_notification (n : Notification) : option (list Z) :=
  if str_is_empty (nt_name n) || (MAX_NAME <? str_len (nt_name n)) || (MAX_NAME <? str_len (nt_name2 n))
  then None
  else Some (response 0 (nt_code n)
    (le_bytes 8 (nt_parent n) ++ le_bytes 8 (nt_parent2 n) ++ le_bytes 8 (nt_size n)
     ++ le_bytes 4 (if nt_isdir n then NOTIFY_F_ISDIR else 0)
     ++ le_bytes 2 (as_u16 (str_len (nt_name n))) ++ le_bytes 2 (as_u16 (str_len (nt_name2 n)))
     ++ as_bytes (nt_name n) ++ as_bytes (nt_name2 n))).

(** ** Lemmas on layouts *)

Lemma bytes_at_Some b off n : (off + n ≤ length b)%nat → bytes_at b off n = Some (take n (drop off b)).
Proof. intros. unfold bytes_at. by rw bool_decide_true. Qed.

Lemma bytes_from_Some b off : (off ≤ length b)%nat → bytes_from b off = Some (drop off b).
Proof. intros. unfold bytes_from. by rw bool_decide_true. Qed.

(** A field behind a first part of known length. *)
Lemma bytes_at_skip a b off n : (length a ≤ off)%nat → bytes_at (a ++ b) off n = bytes_at b (off - length a) n.
Proof.
  intros Hle. unfold bytes_at. rw length_app drop_app_ge //.
  repeat case_bool_decide; try done; lia.
Qed.

Lemma bytes_at_hit a b n : length a = n → bytes_at (a ++ b) 0 n = Some a.
Proof. intros <-. rw bytes_at_Some; [|rw length_app; lia]. by rw drop_0 take_app_length. Qed.

Lemma bytes_at_all a n : length a = n → bytes_at a 0 n = Some a.
Proof. intros <-. rw bytes_at_Some //. by rw drop_0 take_ge. Qed.

Lemma bytes_from_skip a b off : (length a ≤ off)%nat → bytes_from (a ++ b) off = bytes_from b (off - length a).
Proof.
  intros Hle. unfold bytes_from. rw length_app drop_app_ge //. repeat case_bool_decide; try done; lia.
Qed.

Lemma bytes_from_0 b : bytes_from b 0 = Some b.
Proof. rw bytes_from_Some; [|lia]. by rw drop_0. Qed.

(** Walk to a field: skip the parts before it, then read it. *)
Ltac field :=
  repeat (rw bytes_at_skip; [|rw ?le_bytes_length; lia]);
  rw ?le_bytes_length;
  first [rw bytes_at_hit; [|rw ?le_bytes_length; done]
        |rw bytes_at_all; [|rw ?le_bytes_length; done]].

Lemma le_value_8 v : is_u64 v → le_value (le_bytes 8 v) = v.
Proof. intros. apply le_value_le_bytes. ints. Qed.
Lemma le_value_2 v : is_u16 v → le_value (le_bytes 2 v) = v.
Proof. intros. apply le_value_le_bytes. ints. Qed.

(** ** No parser panics *)

Definition no_panic {A} (o : option (option A)) : Prop := is_Some o.

Lemma u16_at_bytes b off : is_bytes b → (off + 2 ≤ length b)%nat → ∃ v, u16_at b off = Some v ∧ 0 ≤ v.
Proof.
  intros Hb Hl. unfold u16_at. rw bytes_at_Some // /=. eexists. split; [done|].
  apply le_value_bound, Forall_take, Forall_drop, Hb.
Qed.

Lemma u32_at_Some b off : (off + 4 ≤ length b)%nat → ∃ v, u32_at b off = Some v.
Proof. intros. unfold u32_at. rw bytes_at_Some //. by eexists. Qed.
Lemma u64_at_Some b off : (off + 8 ≤ length b)%nat → ∃ v, u64_at b off = Some v.
Proof. intros. unfold u64_at. rw bytes_at_Some //. by eexists. Qed.

(** Two names of checked lengths can be cut out. *)
Lemma two_names_no_panic names n1 n2 {A} (k : list Z → list Z → option (option A)) :
  0 ≤ n1 → 0 ≤ n2 → (∀ x y, no_panic (k x y)) →
  no_panic (if blen names <? n1 + n2 then Some None
            else name ← bytes_at names 0 (Z.to_nat n1);
                 name2 ← bytes_at names (Z.to_nat n1) (Z.to_nat n2); k name name2).
Proof.
  intros H1 H2 Hk. destruct (Z.ltb_spec (blen names) (n1 + n2)) as [|Hle]; [by eexists|].
  unfold blen in Hle. rw !bytes_at_Some /=; [apply Hk|lia|lia].
Qed.

(** Whatever bytes the kernel hands over, no parser of the ABI indexes past
    the end of its slice: every one of them returns. *)
Theorem parsers_never_panic buf :
  is_bytes buf →
  no_panic (parse_in_header buf) ∧ no_panic (parse_create_in buf) ∧ no_panic (parse_rename_in buf) ∧
  no_panic (parse_setattr_in buf) ∧ no_panic (parse_lock_in buf) ∧ no_panic (parse_symlink_in buf) ∧
  no_panic (parse_link_in buf).
Proof.
  intros Hb.
  unfold parse_in_header, parse_create_in, parse_rename_in, parse_setattr_in, parse_lock_in,
    parse_symlink_in, parse_link_in, IN_HEADER_LEN, CREATE_IN_LEN, RENAME_IN_LEN, SETATTR_IN_LEN,
    LOCK_IN_LEN, SYMLINK_IN_LEN, LINK_IN_LEN.
  repeat split; case_bool_decide as Hlen; try (by eexists).
  - destruct (u32_at_Some buf 0 ltac:(lia)) as [? ->]. destruct (u32_at_Some buf 4 ltac:(lia)) as [? ->]. destruct (u64_at_Some buf 8 ltac:(lia)) as [? ->]. destruct (u64_at_Some buf 16 ltac:(lia)) as [? ->]. destruct (u64_at_Some buf 24 ltac:(lia)) as [? ->]. destruct (u32_at_Some buf 32 ltac:(lia)) as [? ->].
    simpl. destruct (_ || _); by eexists.
  - destruct (u32_at_Some buf 0 ltac:(lia)) as [? ->]. rw bytes_from_Some; [|lia]. by eexists.
  - destruct (u64_at_Some buf 0 ltac:(lia)) as [? ->].
    destruct (u16_at_bytes buf 8 Hb) as (n1 & -> & H1); [lia|].
    destruct (u16_at_bytes buf 10 Hb) as (n2 & -> & H2); [lia|]. rw bytes_from_Some; [|lia]. simpl.
    apply two_names_no_panic; [done|done|by eexists].
  - destruct (u32_at_Some buf 0 ltac:(lia)) as [? ->]. destruct (u32_at_Some buf 4 ltac:(lia)) as [? ->]. destruct (u64_at_Some buf 8 ltac:(lia)) as [? ->]. destruct (u64_at_Some buf 16 ltac:(lia)) as [? ->]. by eexists.
  - destruct (u32_at_Some buf 0 ltac:(lia)) as [? ->]. destruct (u32_at_Some buf 4 ltac:(lia)) as [? ->]. simpl.
    repeat case_bool_decide; by eexists.
  - destruct (u16_at_bytes buf 0 Hb) as (n1 & -> & H1); [lia|].
    destruct (u16_at_bytes buf 2 Hb) as (n2 & -> & H2); [lia|]. rw bytes_from_Some; [|lia]. simpl.
    apply two_names_no_panic; [done|done|by eexists].
  - destruct (u64_at_Some buf 0 ltac:(lia)) as [? ->]. rw bytes_from_Some; [|lia]. by eexists.
Qed.

Lemma parsers_never_panic_witness :
  no_panic (parse_in_header [1; 2; 255]) ∧ no_panic (parse_create_in [1; 2; 255]) ∧
  no_panic (parse_rename_in [1; 2; 255]) ∧ no_panic (parse_setattr_in [1; 2; 255]) ∧
  no_panic (parse_lock_in [1; 2; 255]) ∧ no_panic (parse_symlink_in [1; 2; 255]) ∧
  no_panic (parse_link_in [1; 2; 255]).
Proof. apply (parsers_never_panic [1; 2; 255]). repeat (constructor; [vm_compute; split; discriminate|]). constructor. Defined.

(** ** Round trips

    The kernel's side of each layout, field by field as
    kernel/alloyfs/uapi/alloyfs.h declares it. *)

Definition in_header_bytes (h : InHeader) : list Z :=
  le_bytes 4 (ih_len h) ++ le_bytes 4 (ih_opcode h) ++ le_bytes 8 (ih_unique h)
  ++ le_bytes 8 (ih_nodeid h) ++ le_bytes 8 (ih_offset h) ++ le_bytes 4 (ih_size h) ++ le_bytes 4 0.

Definition in_header_ok (h : InHeader) (payload : list Z) : Prop :=
  ih_len h = Z.of_nat IN_HEADER_LEN + blen payload ∧ blen payload ≤ MAX_PAYLOAD ∧
  is_u32 (ih_opcode h) ∧ is_u64 (ih_unique h) ∧ is_u64 (ih_nodeid h) ∧ is_u64 (ih_offset h) ∧ is_u32 (ih_size h).

Definition rename_in_bytes (newparent : Z) (name newname : list Z) : list Z :=
  le_bytes 8 newparent ++ le_bytes 2 (blen name) ++ le_bytes 2 (blen newname) ++ le_bytes 4 0 ++ name ++ newname.

Definition symlink_in_bytes (name target : list Z) : list Z :=
  le_bytes 2 (blen name) ++ le_bytes 2 (blen target) ++ le_bytes 4 0 ++ name ++ target.

Definition setattr_in_bytes (s : SetattrIn) : list Z :=
  le_bytes 4 (sa_valid s) ++ le_bytes 4 (sa_mode s) ++ le_bytes 8 (sa_size s) ++ le_bytes 8 (sa_mtime_ns s).

Lemma le_app_length n v l : length (le_bytes n v ++ l) = (n + length l)%nat.
Proof. by rw length_app le_bytes_length. Qed.

Lemma parse_in_header_bytes h payload rest :
  in_header_ok h payload → parse_in_header (in_header_bytes h ++ payload ++ rest) = Some (Some h).
Proof.
  intros (Hlen & Hpay & H1 & H2 & H3 & H4 & H5). unfold in_header_bytes. rw -!app_assoc.
  unfold parse_in_header, u32_at, u64_at, IN_HEADER_LEN in *.
  rw bool_decide_false; last (rw !le_app_length; lia).
  field. cbn [mbind option_bind fmap option_fmap option_map]. field. cbn [mbind option_bind fmap option_fmap option_map].
  field. cbn [mbind option_bind fmap option_fmap option_map]. field. cbn [mbind option_bind fmap option_fmap option_map].
  field. cbn [mbind option_bind fmap option_fmap option_map]. field. cbn [mbind option_bind fmap option_fmap option_map].
  assert (is_u32 (ih_len h)) as H0. { unfold MAX_PAYLOAD, blen in *. ints. }
  rw !le_value_4 // !le_value_8 //. unfold blen. rw !le_app_length length_app.
  rw (proj2 (Z.ltb_ge (ih_len h) _)); [|unfold blen in *; lia].
  rw (proj2 (Z.ltb_ge _ (ih_len h))); [|unfold blen in *; lia].
  rw (proj2 (Z.ltb_ge READ_BUF_LEN (ih_len h))); [|unfold READ_BUF_LEN, IN_HEADER_LEN, blen in *; lia].
  by destruct h.
Qed.

Lemma parse_rename_bytes newparent name newname rest :
  is_u64 newparent → blen name ≤ U16_MAX → blen newname ≤ U16_MAX →
  parse_rename_in (rename_in_bytes newparent name newname ++ rest) = Some (Some (newparent, name, newname)).
Proof.
  intros Hp Hn Hn2. unfold rename_in_bytes. rw -!app_assoc.
  unfold parse_rename_in, u64_at, u16_at, RENAME_IN_LEN.
  rw bool_decide_false; last (rw !le_app_length; lia).
  field. cbn [mbind option_bind fmap option_fmap option_map]. field. cbn [mbind option_bind fmap option_fmap option_map].
  field. cbn [mbind option_bind fmap option_fmap option_map].
  do 4 (rw bytes_from_skip; [|rw !le_bytes_length; lia]).
  rw !le_bytes_length. cbn [Nat.sub]. rw bytes_from_0. cbn [mbind option_bind].
  rw !le_value_2 ?le_value_8 //; try (unfold blen in *; ints).
  rw (proj2 (Z.ltb_ge _ _)); [|unfold blen; rw !length_app; lia].
  unfold blen. rw !Nat2Z.id bytes_at_hit //. cbn [mbind option_bind].
  rw bytes_at_skip; [|done]. rw Nat.sub_diag bytes_at_hit //.
Qed.

Lemma parse_symlink_bytes name target rest :
  blen name ≤ U16_MAX → blen target ≤ U16_MAX →
  parse_symlink_in (symlink_in_bytes name target ++ rest) = Some (Some (name, target)).
Proof.
  intros Hn Hn2. unfold symlink_in_bytes. rw -!app_assoc. unfold parse_symlink_in, u16_at, SYMLINK_IN_LEN.
  rw bool_decide_false; last (rw !le_app_length; lia).
  field. cbn [mbind option_bind fmap option_fmap option_map]. field. cbn [mbind option_bind fmap option_fmap option_map].
  do 3 (rw bytes_from_skip; [|rw !le_bytes_length; lia]).
  rw !le_bytes_length. cbn [Nat.sub]. rw bytes_from_0. cbn [mbind option_bind].
  rw !le_value_2; try (unfold blen in *; ints).
  rw (proj2 (Z.ltb_ge _ _)); [|unfold blen; rw !length_app; lia].
  unfold blen. rw !Nat2Z.id bytes_at_hit //. cbn [mbind option_bind].
  rw bytes_at_skip; [|done]. rw Nat.sub_diag bytes_at_hit //.
Qed.

Lemma parse_setattr_bytes s :
  is_u32 (sa_valid s) → is_u32 (sa_mode s) → is_u64 (sa_size s) → is_u64 (sa_mtime_ns s) →
  parse_setattr_in (setattr_in_bytes s) = Some (Some s).
Proof.
  intros H1 H2 H3 H4. unfold setattr_in_bytes, parse_setattr_in, u32_at, u64_at, SETATTR_IN_LEN.
  rw bool_decide_false; last (rw !le_app_length le_bytes_length; lia).
  field. cbn [mbind option_bind fmap option_fmap option_map]. field. cbn [mbind option_bind fmap option_fmap option_map].
  field. cbn [mbind option_bind fmap option_fmap option_map]. field. cbn [mbind option_bind fmap option_fmap option_map].
  rw !le_value_4 // !le_value_8 //. by destruct s.
Qed.

(** Every request the kernel lays out by its header is read back as it was
    meant: the request header, and the payloads of rename, symlink and
    setattr, whatever bytes follow in the buffer. *)
Theorem requests_roundtrip h payload rest newparent name newname s :
  in_header_ok h payload → is_u64 newparent → blen name ≤ U16_MAX → blen newname ≤ U16_MAX →
  is_u32 (sa_valid s) → is_u32 (sa_mode s) → is_u64 (sa_size s) → is_u64 (sa_mtime_ns s) →
  parse_in_header (in_header_bytes h ++ payload ++ rest) = Some (Some h) ∧
  payload_len h = blen payload ∧
  parse_rename_in (rename_in_bytes newparent name newname ++ rest) = Some (Some (newparent, name, newname)) ∧
  parse_symlink_in (symlink_in_bytes name newname ++ rest) = Some (Some (name, newname)) ∧
  parse_setattr_in (setattr_in_bytes s) = Some (Some s).
Proof.
  intros Hh Hp Hn1 Hn2 Hs1 Hs2 Hs3 Hs4. split; [by apply parse_in_header_bytes|].
  split; [destruct Hh as (Hl & _); unfold payload_len; rw Hl; lia|].
  split; [by apply parse_rename_bytes|]. split; [by apply parse_symlink_bytes|]. by apply parse_setattr_bytes.
Qed.

Lemma requests_roundtrip_witness :
  parse_in_header (in_header_bytes (mkInHeader 42 9 7 1 0 0) ++ [1; 2] ++ [9]) = Some (Some (mkInHeader 42 9 7 1 0 0)) ∧
  payload_len (mkInHeader 42 9 7 1 0 0) = blen [1; 2] ∧
  parse_rename_in (rename_in_bytes 5 [97] [98; 99] ++ [9]) = Some (Some (5, [97], [98; 99])) ∧
  parse_symlink_in (symlink_in_bytes [97] [98; 99] ++ [9]) = Some (Some ([97], [98; 99])) ∧
  parse_setattr_in (setattr_in_bytes (mkSetattrIn 3 420 10 99)) = Some (Some (mkSetattrIn 3 420 10 99)).
Proof.
  apply (requests_roundtrip (mkInHeader 42 9 7 1 0 0) [1; 2] [9] 5 [97] [98; 99] (mkSetattrIn 3 420 10 99));
    vm_compute; repeat split; discriminate.
Defined.

(** ** Directory entries

    The kernel's walk over one READDIR reply (alloyfs_readdir_remote in
    kernel/alloyfs/alloyfs_main.c), with a [dir_emit] that takes every entry:
    the entries emitted as (nodeid, off, type, name), or [None] for -EIO.
    Every turn consumes at least [DIRENT_LEN] bytes, so the length of the
    buffer is fuel enough. *)
Fixpoint emit_dirents (fuel : nat) (buf : list Z) : option (list (Z * Z * Z * list Z)) :=
  match fuel with
  | O => Some []
  | S fuel =>
      if bool_decide (DIRENT_LEN ≤ length buf)%nat then
        nodeid ← u64_at buf 0; off ← u64_at buf 8; namelen ← u32_at buf 16; ty ← u32_at buf 20;
        if bool_decide (namelen = 0) || (MAX_NAME <? namelen) || (blen buf <? dirent_size namelen) then None
        else
          name ← bytes_at buf DIRENT_LEN (Z.to_nat namelen);
          rest ← bytes_from buf (Z.to_nat (dirent_size namelen));
          es ← emit_dirents fuel rest;
          Some ((nodeid, off, ty, name) :: es)
      else Some []
  end.

Definition emit_reply (buf : list Z) := emit_dirents (length buf) buf.

Lemma dirent_align_eq x : dirent_align x = 8 * ((x + 7) / 8).
Proof.
  unfold dirent_align. change 7 with (Z.ones 3) at 2. rw -Z.ldiff_land. rw Z.ldiff_ones_r; [|lia].
  rw Z.shiftl_mul_pow2; [|lia]. rw Z.shiftr_div_pow2; [|lia]. change (2 ^ 3) with 8. lia.
Qed.

(** The size of an entry: a multiple of 8 that holds header and name. *)
Lemma dirent_size_bounds n : 0 ≤ n →
  24 + n ≤ dirent_size n < 32 + n ∧ dirent_size n `mod` 8 = 0.
Proof.
  intros Hn. unfold dirent_size. rw dirent_align_eq. unfold DIRENT_LEN.
  pose proof (Z.div_mod (Z.of_nat 24 + n + 7) 8 ltac:(lia)). pose proof (Z.mod_pos_bound (Z.of_nat 24 + n + 7) 8 ltac:(lia)).
  split; [lia|]. by rw Z.mul_comm Z.mod_mul.
Qed.

(** One entry as it lies in the buffer. *)
Definition dirent_bytes (nodeid off ty : Z) (name : string) : list Z :=
  le_bytes 8 nodeid ++ le_bytes 8 off ++ le_bytes 4 (as_u32 (str_len name)) ++ le_bytes 4 ty ++ as_bytes name
  ++ replicate (Z.to_nat (dirent_size (str_len name) - Z.of_nat DIRENT_LEN - str_len name)) 0.

Lemma dirent_bytes_length nodeid off ty name :
  blen (dirent_bytes nodeid off ty name) = dirent_size (str_len name).
Proof.
  pose proof (dirent_size_bounds (str_len name)) as Hs. unfold dirent_bytes, blen.
  rw !length_app !le_bytes_length as_bytes_length length_replicate. unfold str_len, DIRENT_LEN in *. lia.
Qed.

Lemma emit_dirents_cons fuel nodeid off ty name rest :
  is_u64 nodeid → is_u64 off → is_u32 ty → name ≠ "" → str_len name ≤ MAX_NAME →
  emit_dirents (S fuel) (dirent_bytes nodeid off ty name ++ rest)
  = es ← emit_dirents fuel rest; Some ((nodeid, off, ty, as_bytes name) :: es).
Proof.
  intros Hn Ho Ht Hne Hl. pose proof (dirent_bytes_length nodeid off ty name) as Hlen.
  pose proof (dirent_size_bounds (str_len name)) as Hs.
  assert (0 < str_len name) as Hpos by (destruct name; [done|unfold str_len; simpl; lia]).
  assert (as_u32 (str_len name) = str_len name) as Hu by (apply as_u32_small; unfold MAX_NAME in *; ints).
  cbn [emit_dirents]. unfold u64_at, u32_at.
  rw bool_decide_true; last (rw length_app; unfold blen, DIRENT_LEN in *; lia).
  assert (bytes_from (dirent_bytes nodeid off ty name ++ rest) (Z.to_nat (dirent_size (str_len name))) = Some rest) as Hrest.
  { rw bytes_from_skip; [|unfold blen in *; lia].
    replace (_ - _)%nat with 0%nat by (unfold blen in *; lia). apply bytes_from_0. }
  assert (blen (dirent_bytes nodeid off ty name ++ rest) <? dirent_size (str_len name) = false) as Hfit.
  { apply Z.ltb_ge. unfold blen in *. rw length_app. lia. }
  unfold dirent_bytes in *. rw Hu in Hrest, Hfit |- *. rw -!app_assoc in Hrest, Hfit |- *.
  match goal with |- context [bytes_at ?b 0 8] => set (buf := b) in * end.
  assert (bytes_at buf 0 8 = Some (le_bytes 8 nodeid)) as -> by (unfold buf; by field).
  assert (bytes_at buf 8 8 = Some (le_bytes 8 off)) as -> by (unfold buf; by field).
  assert (bytes_at buf 16 4 = Some (le_bytes 4 (str_len name))) as -> by (unfold buf; by field).
  assert (bytes_at buf 20 4 = Some (le_bytes 4 ty)) as -> by (unfold buf; by field).
  cbn [mbind option_bind fmap option_fmap option_map].
  rw !le_value_8; [|done|done]. rw !le_value_4; [|done|unfold MAX_NAME in *; ints].
  rw Hfit bool_decide_false; last lia. rw (proj2 (Z.ltb_ge MAX_NAME _) Hl). cbn [orb].
  assert (bytes_at buf DIRENT_LEN (Z.to_nat (str_len name)) = Some (as_bytes name)) as ->.
  { unfold buf, DIRENT_LEN. do 4 (rw bytes_at_skip; [|rw !le_bytes_length; lia]).
    rw !le_bytes_length bytes_at_hit //. rw as_bytes_length. unfold str_len. lia. }
  cbn [mbind option_bind]. by rw Hrest.
Qed.

(** The walk over whole entries ends at the end of the buffer. *)
Definition dirent_ok (e : Z * Z * Z * string) : Prop :=
  let '(nodeid, off, ty, name) := e in
  is_u64 nodeid ∧ is_u64 off ∧ is_u32 ty ∧ name ≠ "" ∧ str_len name ≤ MAX_NAME.

Definition dirents_bytes (es : list (Z * Z * Z * string)) : list Z :=
  es ≫= λ '(nodeid, off, ty, name), dirent_bytes nodeid off ty name.

Lemma emit_dirents_all es fuel :
  Forall dirent_ok es → (length es ≤ fuel)%nat →
  emit_dirents fuel (dirents_bytes es) = Some ((λ '(n, o, t, s), (n, o, t, as_bytes s)) <$> es).
Proof.
  intros Hes. revert fuel. induction Hes as [|[[[n o] t] s] es He Hes IH]; intros fuel Hf.
  { by destruct fuel. }
  destruct fuel as [|fuel]; [simpl in Hf; lia|]. destruct He as (? & ? & ? & ? & ?).
  change (dirents_bytes _) with (dirent_bytes n o t s ++ dirents_bytes es).
  rw emit_dirents_cons // IH //. simpl in Hf. lia.
Qed.

Lemma push_dirent_cases out limit nodeid off ty name :
  push_dirent out limit nodeid off ty name
  = if str_is_empty name || (MAX_NAME <? str_len name) || (limit <? blen out + dirent_size (str_len name))
    then (false, out) else (true, out ++ dirent_bytes nodeid off ty name).
Proof. done. Qed.

Lemma dirents_bytes_snoc es nodeid off ty name :
  dirents_bytes (es ++ [(nodeid, off, ty, name)]) = dirents_bytes es ++ dirent_bytes nodeid off ty name.
Proof. unfold dirents_bytes. by rw bind_app /= app_nil_r. Qed.

Lemma dirents_bytes_cons nodeid off ty name es :
  dirents_bytes ((nodeid, off, ty, name) :: es) = dirent_bytes nodeid off ty name ++ dirents_bytes es.
Proof. done. Qed.

Lemma dirents_bytes_aligned es : blen (dirents_bytes es) `mod` 8 = 0 ∧ 24 * Z.of_nat (length es) ≤ blen (dirents_bytes es).
Proof.
  induction es as [|[[[n o] t] s] es [IH1 IH2]]; [done|]. rw dirents_bytes_cons.
  pose proof (dirent_bytes_length n o t s) as Hl. destruct (dirent_size_bounds (str_len s)) as [Hb Hm]; [unfold str_len; lia|].
  unfold blen, str_len in *. rw length_app Nat2Z.inj_add Hl. split; [|cbn [length]; lia].
  by rw Zplus_mod Hm IH1.
Qed.

(** A READDIR reply under construction that holds the entries [es]: pushing
    one more either leaves it alone or appends exactly that entry, keeping the
    reply 8-byte aligned and within the limit, and the kernel's walk over it
    emits exactly the entries pushed, in order, each with its own cursor,
    never -EIO. *)
Theorem push_dirent_reads_back es limit nodeid off ty name ok out' :
  Forall dirent_ok es → is_u64 nodeid → is_u64 off → is_u32 ty →
  push_dirent (dirents_bytes es) limit nodeid off ty name = (ok, out') →
  let es' := if ok then es ++ [(nodeid, off, ty, name)] else es in
  out' = dirents_bytes es' ∧ Forall dirent_ok es' ∧ blen out' `mod` 8 = 0 ∧
  (ok = true → blen out' ≤ limit) ∧
  (ok = false → name = "" ∨ MAX_NAME < str_len name ∨ limit < blen out' + dirent_size (str_len name)) ∧
  emit_reply out' = Some ((λ '(n, o, t, s), (n, o, t, as_bytes s)) <$> es').
Proof.
  intros Hes Hn Ho Ht. rw push_dirent_cases.
  assert (∀ l, Forall dirent_ok l → emit_reply (dirents_bytes l) = Some ((λ '(n, o, t, s), (n, o, t, as_bytes s)) <$> l)) as Hemit.
  { intros l Hl. apply emit_dirents_all; [done|]. pose proof (proj2 (dirents_bytes_aligned l)). unfold blen in *. lia. }
  unfold str_is_empty. destruct (bool_decide_reflect (name = "")) as [->|Hne].
  { intros [= <- <-]. destruct (dirents_bytes_aligned es). split_and!; auto; done. }
  destruct (Z.ltb_spec MAX_NAME (str_len name)).
  { intros [= <- <-]. destruct (dirents_bytes_aligned es). split_and!; auto; done. }
  destruct (Z.ltb_spec limit (blen (dirents_bytes es) + dirent_size (str_len name))); intros [= <- <-];
    destruct (dirents_bytes_aligned es) as [Hmod _].
  { split_and!; auto; done. }
  rw -dirents_bytes_snoc. assert (Forall dirent_ok (es ++ [(nodeid, off, ty, name)])) as Hes'.
  { apply Forall_app. split; [done|]. constructor; [by split_and!|constructor]. }
  split_and!; auto; try done; [apply dirents_bytes_aligned|intros _].
  rw dirents_bytes_snoc. unfold blen. rw length_app Nat2Z.inj_add. pose proof (dirent_bytes_length nodeid off ty name).
  unfold blen in *. lia.
Qed.

Lemma push_dirent_reads_back_witness :
  let out := dirents_bytes [(7, 3, DT_DIR, "sub")] in
  let out' := dirents_bytes [(7, 3, DT_DIR, "sub"); (8, 4, DT_REG, "file")] in
  push_dirent out 64 8 4 DT_REG "file" = (true, out') ∧ blen out' `mod` 8 = 0 ∧
  emit_reply out' = Some [(7, 3, DT_DIR, as_bytes "sub"); (8, 4, DT_REG, as_bytes "file")].
Proof.
  assert (push_dirent (dirents_bytes [(7, 3, DT_DIR, "sub")]) 64 8 4 DT_REG "file"
          = (true, dirents_bytes [(7, 3, DT_DIR, "sub"); (8, 4, DT_REG, "file")])) as Hp by (vm_compute; reflexivity).
  destruct (push_dirent_reads_back [(7, 3, DT_DIR, "sub")] 64 8 4 DT_REG "file" _ _
    ltac:(constructor; [vm_compute; repeat split; discriminate|constructor])
    ltac:(vm_compute; split; discriminate || reflexivity) ltac:(vm_compute; split; discriminate || reflexivity)
    ltac:(vm_compute; split; discriminate || reflexivity) Hp) as (_ & _ & Hm & _ & _ & He).
  split; [exact Hp|]. split; [exact Hm|exact He].
Defined.

(** A name the C side cannot represent is never put on the wire, and a
    notification's lengths always fit their 16-bit fields: the header says how
    long the frame is, and both names are found where the lengths say. *)
Theorem notification_layout n frame :
  encode_notification n = Some frame →
  u32_at frame 0 = Some (blen frame) ∧ u64_at frame 8 = Some 0 ∧
  blen frame ≤ Z.of_nat OUT_HEADER_LEN + MAX_PAYLOAD ∧
  ∃ n1 n2, u16_at frame 44 = Some n1 ∧ u16_at frame 46 = Some n2 ∧ 0 < n1 ≤ MAX_NAME ∧ n2 ≤ MAX_NAME ∧
    bytes_at frame 48 (Z.to_nat n1) = Some (as_bytes (nt_name n)) ∧
    bytes_at frame (48 + Z.to_nat n1) (Z.to_nat n2) = Some (as_bytes (nt_name2 n)).
Proof.
  unfold encode_notification, str_is_empty.
  destruct (bool_decide_reflect (nt_name n = "")) as [|Hne]; [done|].
  destruct (Z.ltb_spec MAX_NAME (str_len (nt_name n))) as [|H1]; [done|].
  destruct (Z.ltb_spec MAX_NAME (str_len (nt_name2 n))) as [|H2]; [done|]. cbn [orb]. intros Hf; apply (inj Some) in Hf; subst frame.
  assert (0 < str_len (nt_name n)) as Hpos by (destruct (nt_name n); [done|unfold str_len; simpl; lia]).
  assert (0 ≤ str_len (nt_name2 n)) as Hpos2 by (unfold str_len; lia).
  pose proof (as_bytes_length (nt_name n)) as L1. pose proof (as_bytes_length (nt_name2 n)) as L2.
  assert (as_u16 (str_len (nt_name n)) = str_len (nt_name n)) as -> by (unfold MAX_NAME, as_u16 in *; apply Z.mod_small; lia).
  assert (as_u16 (str_len (nt_name2 n)) = str_len (nt_name2 n)) as -> by (unfold MAX_NAME, as_u16 in *; apply Z.mod_small; lia).
  unfold response, u32_at, u64_at, u16_at, OUT_HEADER_LEN, MAX_PAYLOAD, MAX_NAME in *.
  match goal with |- context [as_u32 ?z] => assert (as_u32 z = 48 + str_len (nt_name n) + str_len (nt_name2 n)) as -> end.
  { rw as_u32_small !length_app !le_bytes_length L1 L2; unfold str_len in *; ints. }
  match goal with |- context [bytes_at ?b 0 4] => set (frame := b) in * end.
  assert (blen frame = 48 + str_len (nt_name n) + str_len (nt_name2 n)) as Hlen.
  { unfold frame, blen. rw !length_app !le_bytes_length L1 L2. unfold str_len. lia. }
  assert (bytes_at frame 0 4 = Some (le_bytes 4 (blen frame))) as -> by (rw Hlen; unfold frame; by field).
  assert (bytes_at frame 8 8 = Some (le_bytes 8 0)) as -> by (unfold frame; by field).
  assert (bytes_at frame 44 2 = Some (le_bytes 2 (str_len (nt_name n)))) as -> by (unfold frame; by field).
  assert (bytes_at frame 46 2 = Some (le_bytes 2 (str_len (nt_name2 n)))) as -> by (unfold frame; by field).
  cbn [fmap option_fmap option_map]. rw le_value_4; [|rw Hlen; unfold str_len in *; ints].
  split_and!; [done|done|lia|]. rw !le_value_2; [|ints|ints].
  exists (str_len (nt_name n)), (str_len (nt_name2 n)). split_and!; try done.
  - unfold frame. do 9 (rw bytes_at_skip; [|rw !le_bytes_length; lia]).
    rw !le_bytes_length bytes_at_hit //. unfold str_len. lia.
  - unfold frame. do 9 (rw bytes_at_skip; [|rw !le_bytes_length; lia]).
    rw bytes_at_skip; [|rw !le_bytes_length; unfold str_len; lia].
    rw !le_bytes_length L1. replace (_ - _)%nat with 0%nat by (unfold str_len; lia).
    rw bytes_at_all //. unfold str_len. lia.
Qed.

Lemma notification_layout_witness :
  ∃ frame, encode_notification (mkNotification NOTIFY_RENAME 1 2 0 true "a" "bc") = Some frame ∧
    u32_at frame 0 = Some (blen frame) ∧ u64_at frame 8 = Some 0.
Proof.
  destruct (encode_notification (mkNotification NOTIFY_RENAME 1 2 0 true "a" "bc")) as [frame|] eqn:He;
    [|vm_compute in He; discriminate].
  exists frame. split; [reflexivity|].
  destruct (notification_layout _ _ He) as (H1 & H2 & _). split; assumption.
Defined.
