(* ===== verification/Fs.v ===== *)
(** * Fs: the file system the agent serves from

    What the agent uses of [std::fs] on Unix: a tree of inodes with symbolic
    and hard links, path resolution that follows links (at most
    [MAX_SYMLINKS] of them, then ELOOP), and the calls the request handlers
    make.  Paths are absolute, as lists of components.  Beyond the errors the
    tree itself causes, an environment may fail any call on any path with any
    error ([fault]): permissions, quotas and devices are behind it.  Inodes
    are never reclaimed: one without a name is reachable through open files
    only.  The lemmas: resolving a path that was the result of a resolution
    gives it back, and every result lies in the tree. *)

From S2P Require Import Prelude Messages Common.

(** ** The tree *)

Inductive Content : Type :=
| FileData (bytes : list Z)
| DirData (entries : gmap string Z)
| LinkData (target : string).
#[global] Instance Content_eq_dec : EqDecision Content.
Proof. solve_decision. Defined.

Record INode : Type := mkINode {
  n_content : Content; n_mtime : SystemTime; n_btime : SystemTime; n_mode : Z
}.

#[global] Instance INode_eq_dec : EqDecision INode.
Proof. solve_decision. Defined.

Record Fs : Type := mkFs { nodes : gmap Z INode; next_ino : Z }.

Definition ROOT : Z := 0.

(** The kernel's limit on links followed in one resolution. *)
Definition MAX_SYMLINKS : nat := 40.

(** The calls an environment may fail. *)
Inductive Syscall : Type :=
| SysCanonicalize | SysMetadata | SysLstat | SysFstat | SysReadDir | SysOpen | SysSetLen | SysSetModified
| SysMkdir | SysRemoveFile | SysRemoveDir | SysRename | SysHardLink | SysSymlink | SysReadLink.
#[global] Instance Syscall_eq_dec : EqDecision Syscall.
Proof. solve_decision. Defined.

Record Env : Type := mkEnv {
  fault : Syscall → list string → option IoErrorKind;
  now : Z;
  answers : list OsAnswer;          (* how the kernel cuts reads and writes *)
  new_mode : bool → Z;              (* permission bits of a new inode; true for a directory *)
  dir_len : Z;                      (* the size a directory reports *)
  space : list string → option (Z * Z * Z)   (* statvfs *)
}.

Abbreviation FsM := (M Fs IoErrorKind) (only parsing).

(** ** Path resolution *)

(** A position in the tree: the components walked, innermost first, each with
    the inode it names. *)
Definition Stack : Type := list (string * Z).

Definition ino_of (s : Stack) : Z := match s with [] => ROOT | (_, i) :: _ => i end.
Definition path_of (s : Stack) : list string := reverse (fst <$> s).

(** Where a path leads: to an inode, or to a free name in a directory. *)
Inductive Place : Type :=
| Found (s : Stack)
| Missing (dir : Stack) (name : string).

(** Walk [todo] from [s].  A link met before the last component, or at it when
    [follow] is set, is replaced by its target; [links] of them at most. *)
Fixpoint walk (links : nat) (fs : Fs) (follow : bool) : Stack → list string → result Place IoErrorKind :=
  fix go (s : Stack) (todo : list string) :=
    match todo with
    | [] => Ok (Found s)
    | c :: rest =>
        match n_content <$> nodes fs !! ino_of s with
        | Some (DirData entries) =>
            if bool_decide (c = "") || bool_decide (c = ".") then go s rest
            else if bool_decide (c = "..") then go (tail s) rest
            else match entries !! c with
            | None => match rest with [] => Ok (Missing s c) | _ => Err IoNotFound end
            | Some ino =>
                match n_content <$> nodes fs !! ino with
                | Some (LinkData target) =>
                    match rest, follow with
                    | [], false => Ok (Found ((c, ino) :: s))
                    | _, _ =>
                        match links with
                        | O => Err IoOther
                        | S links => walk links fs follow (if starts_with "/" target then [] else s)
                                          (split_on slash target ++ rest)
                        end
                    end
                | Some _ => go ((c, ino) :: s) rest
                | None => Err IoOther
                end
            end
        | _ => Err IoNotADirectory
        end
    end.

Definition place (fs : Fs) (follow : bool) (p : list string) : result Place IoErrorKind :=
  walk MAX_SYMLINKS fs follow [] p.

(** The inode a path leads to. *)
Definition find (fs : Fs) (follow : bool) (p : list string) : result Stack IoErrorKind :=
  let? pl := place fs follow p in
  match pl with Found s => Ok s | Missing _ _ => Err IoNotFound end.

(** ** Calls *)

Definition guard (env : Env) (call : Syscall) (p : list string) : FsM unit :=
  match fault env call p with Some e => sfail e | None => sret tt end.

Definition node_at (fs : Fs) (i : Z) : result INode IoErrorKind := ok_or (nodes fs !! i) IoOther.

Definition set_node (i : Z) (n : INode) (fs : Fs) : Fs := mkFs (<[i := n]> (nodes fs)) (next_ino fs).

(** Change an inode's content and modification time. *)
Definition set_content (t : Z) (i : Z) (c : Content) (fs : Fs) : Fs :=
  match nodes fs !! i with
  | Some n => set_node i (mkINode c t (n_btime n) (n_mode n)) fs
  | None => fs
  end.

Definition set_entries (t : Z) (dir : Stack) (f : gmap string Z → gmap string Z) (fs : Fs) : Fs :=
  match n_content <$> nodes fs !! ino_of dir with
  | Some (DirData es) => set_content t (ino_of dir) (DirData (f es)) fs
  | _ => fs
  end.

(** A new inode under a free name. *)
Definition add_node (t : Z) (dir : Stack) (name : string) (c : Content) (mode : Z) (fs : Fs) : Fs :=
  let i := next_ino fs in
  set_entries t dir <[name := i]> (mkFs (<[i := mkINode c t t mode]> (nodes fs)) (i + 1)).

Definition stat_of (env : Env) (n : INode) : Metadata :=
  match n_content n with
  | FileData bs => mkMetadata false false (blen bs) (Some (n_mtime n)) (Some (n_btime n)) (n_mode n)
  | DirData _ => mkMetadata true false (dir_len env) (Some (n_mtime n)) (Some (n_btime n)) (n_mode n)
  | LinkData t => mkMetadata false true (str_len t) (Some (n_mtime n)) (Some (n_btime n)) (n_mode n)
  end.

Definition canonicalize (env : Env) (p : list string) : FsM (list string) :=
  run! guard env SysCanonicalize p in
  let! fs := sget in
  let! s := slift (find fs true p) in
  sret (path_of s).

Definition metadata (env : Env) (p : list string) : FsM Metadata :=
  run! guard env SysMetadata p in
  let! fs := sget in
  let! s := slift (find fs true p) in
  let! n := slift (node_at fs (ino_of s)) in
  sret (stat_of env n).

Definition symlink_metadata (env : Env) (p : list string) : FsM Metadata :=
  run! guard env SysLstat p in
  let! fs := sget in
  let! s := slift (find fs false p) in
  let! n := slift (node_at fs (ino_of s)) in
  sret (stat_of env n).

(** [File::metadata] of an open file, named by the path it was opened at. *)
Definition fstat (env : Env) (p : list string) (i : Z) : FsM Metadata :=
  run! guard env SysFstat p in
  let! fs := sget in
  let! n := slift (node_at fs i) in
  sret (stat_of env n).

(** [Path::exists]: false on any error. *)
Definition path_exists (env : Env) (p : list string) : FsM bool :=
  let! r := stry (metadata env p) in
  sret (is_ok r).

(** [read_dir]: the names and inodes of a directory. *)
Definition read_dir (env : Env) (p : list string) : FsM (list (string * Z)) :=
  run! guard env SysReadDir p in
  let! fs := sget in
  let! s := slift (find fs true p) in
  let! n := slift (node_at fs (ino_of s)) in
  match n_content n with
  | DirData es => sret (map_to_list es)
  | _ => sfail IoNotADirectory
  end.

Record OpenOptions : Type := mkOpenOptions {
  oo_write : bool; oo_truncate : bool; oo_create : bool; oo_create_new : bool
}.

(** [OpenOptions::open]: the inode of the open file.  [create_new] neither
    follows a link at the end nor accepts an existing name; [create] follows
    it, to a target it may have to create. *)
Definition sys_open (env : Env) (oo : OpenOptions) (p : list string) : FsM Z :=
  run! guard env SysOpen p in
  if oo_truncate oo && negb (oo_write oo) then sfail IoInvalidInput
  else
    let! fs := sget in
    let! pl := slift (place fs (negb (oo_create_new oo)) p) in
    match pl with
    | Missing dir name =>
        if oo_create oo || oo_create_new oo then
          run! smod (add_node (now env) dir name (FileData []) (new_mode env false)) in
          sret (next_ino fs)
        else sfail IoNotFound
    | Found s =>
        if oo_create_new oo then sfail IoAlreadyExists
        else
          let! n := slift (node_at fs (ino_of s)) in
          match n_content n with
          | DirData _ => if oo_write oo || oo_create oo then sfail IoIsADirectory else sret (ino_of s)
          | FileData _ =>
              run! (if oo_truncate oo then smod (set_content (now env) (ino_of s) (FileData [])) else sret tt) in
              sret (ino_of s)
          | LinkData _ => sfail IoOther
          end
    end.

(** [File::set_len] on an open file: cut, or extended with zeros. *)
Definition set_len (env : Env) (p : list string) (i size : Z) : FsM unit :=
  run! guard env SysSetLen p in
  if 2^63 - 1 <? size then sfail IoInvalidInput
  else
    let! fs := sget in
    let! n := slift (node_at fs i) in
    match n_content n with
    | FileData bs =>
        smod (set_content (now env) i
          (FileData (take (Z.to_nat size) bs ++ replicate (Z.to_nat size - length bs) 0)))
    | _ => sfail IoInvalidInput
    end.

Definition set_modified (env : Env) (p : list string) (i : Z) (t : SystemTime) : FsM unit :=
  run! guard env SysSetModified p in
  let! fs := sget in
  let! n := slift (node_at fs i) in
  smod (set_node i (mkINode (n_content n) t (n_btime n) (n_mode n))).

(** [set_mode] of alloyfs-common/src/fs.rs, Unix: best effort. *)
Definition set_mode (i mode : Z) : FsM unit :=
  smod (λ fs, match nodes fs !! i with
              | Some n => set_node i (mkINode (n_content n) (n_mtime n) (n_btime n) (Z.land mode 4095)) fs
              | None => fs
              end).

Definition create_dir (env : Env) (p : list string) : FsM unit :=
  run! guard env SysMkdir p in
  let! fs := sget in
  let! pl := slift (place fs false p) in
  match pl with
  | Found _ => sfail IoAlreadyExists
  | Missing dir name => smod (add_node (now env) dir name (DirData ∅) (new_mode env true))
  end.

Definition remove_file (env : Env) (p : list string) : FsM unit :=
  run! guard env SysRemoveFile p in
  let! fs := sget in
  let! s := slift (find fs false p) in
  let! n := slift (node_at fs (ino_of s)) in
  match n_content n, s with
  | DirData _, _ | _, [] => sfail IoIsADirectory
  | _, (name, _) :: dir => smod (set_entries (now env) dir (delete name))
  end.

Definition remove_dir (env : Env) (p : list string) : FsM unit :=
  run! guard env SysRemoveDir p in
  let! fs := sget in
  let! s := slift (find fs false p) in
  let! n := slift (node_at fs (ino_of s)) in
  match n_content n, s with
  | DirData _, [] => sfail IoOther
  | DirData es, (name, _) :: dir =>
      if bool_decide (es = ∅) then smod (set_entries (now env) dir (delete name))
      else sfail IoDirectoryNotEmpty
  | _, _ => sfail IoNotADirectory
  end.

(** rename(2): what an existing target must be for [from] to replace it. *)
Definition may_replace (from to : Content) : result unit IoErrorKind :=
  match from, to with
  | DirData _, DirData es => if bool_decide (es = ∅) then Ok tt else Err IoDirectoryNotEmpty
  | DirData _, _ => Err IoNotADirectory
  | _, DirData _ => Err IoIsADirectory
  | _, _ => Ok tt
  end.

Definition move (env : Env) (i : Z) (fdir : Stack) (fname : string) (tdir : Stack) (tname : string) (fs : Fs) : Fs :=
  set_entries (now env) tdir <[tname := i]> (set_entries (now env) fdir (delete fname) fs).

Definition sys_rename (env : Env) (from to : list string) : FsM unit :=
  run! guard env SysRename from in
  let! fs := sget in
  let! s := slift (find fs false from) in
  let! n := slift (node_at fs (ino_of s)) in
  let! pl := slift (place fs false to) in
  match s with
  | [] => sfail IoOther
  | (fname, i) :: fdir =>
      match pl with
      | Missing tdir tname =>
          if bool_decide (path_of s `prefix_of` path_of tdir) then sfail IoInvalidInput
          else smod (move env i fdir fname tdir tname)
      | Found [] => sfail IoOther
      | Found ((tname, j) :: tdir) =>
          if bool_decide (i = j) then sret tt
          else if bool_decide (path_of s `prefix_of` path_of tdir) then sfail IoInvalidInput
          else
            let! m := slift (node_at fs j) in
            run! slift (may_replace (n_content n) (n_content m)) in
            smod (move env i fdir fname tdir tname)
      end
  end.

Definition hard_link (env : Env) (target link : list string) : FsM unit :=
  run! guard env SysHardLink link in
  let! fs := sget in
  let! s := slift (find fs false target) in
  let! n := slift (node_at fs (ino_of s)) in
  match n_content n with
  | DirData _ => sfail IoPermissionDenied
  | _ =>
      let! pl := slift (place fs false link) in
      match pl with
      | Found _ => sfail IoAlreadyExists
      | Missing dir name => smod (set_entries (now env) dir <[name := ino_of s]>)
      end
  end.

Definition sys_symlink (env : Env) (target : string) (link : list string) : FsM unit :=
  run! guard env SysSymlink link in
  let! fs := sget in
  let! pl := slift (place fs false link) in
  match pl with
  | Found _ => sfail IoAlreadyExists
  | Missing dir name => smod (add_node (now env) dir name (LinkData target) 511)
  end.

Definition read_link (env : Env) (p : list string) : FsM string :=
  run! guard env SysReadLink p in
  let! fs := sget in
  let! s := slift (find fs false p) in
  let! n := slift (node_at fs (ino_of s)) in
  match n_content n with LinkData t => sret t | _ => sfail IoInvalidInput end.

(** [pread]/[pwrite] loops on an open file: [None] when the answers run out. *)
Definition file_bytes (fs : Fs) (i : Z) : list Z :=
  match n_content <$> nodes fs !! i with Some (FileData bs) => bs | _ => [] end.

(** ** Real paths

    A stack is real when every step of it is an entry of the directory below
    it and no step is a link: such paths resolve to themselves. *)

Definition content_at (fs : Fs) (i : Z) : option Content := n_content <$> nodes fs !! i.

Inductive real (fs : Fs) : Stack → Prop :=
| real_nil : real fs []
| real_cons c ino s entries n :
    real fs s → content_at fs (ino_of s) = Some (DirData entries) →
    c ≠ "" → c ≠ "." → c ≠ ".." → entries !! c = Some ino →
    content_at fs ino = Some n → (∀ t, n ≠ LinkData t) →
    real fs ((c, ino) :: s).

Lemma real_tail fs s : real fs s → real fs (tail s).
Proof. destruct 1; [constructor|done]. Qed.

(** One step of the walk. *)
Lemma walk_cons links fs follow s c rest :
  walk links fs follow s (c :: rest) =
  match content_at fs (ino_of s) with
  | Some (DirData entries) =>
      if bool_decide (c = "") || bool_decide (c = ".") then walk links fs follow s rest
      else if bool_decide (c = "..") then walk links fs follow (tail s) rest
      else match entries !! c with
      | None => match rest with [] => Ok (Missing s c) | _ => Err IoNotFound end
      | Some ino =>
          match content_at fs ino with
          | Some (LinkData target) =>
              match rest, follow with
              | [], false => Ok (Found ((c, ino) :: s))
              | _, _ =>
                  match links with
                  | O => Err IoOther
                  | S links => walk links fs follow (if starts_with "/" target then [] else s)
                                    (split_on slash target ++ rest)
                  end
              end
          | Some _ => walk links fs follow ((c, ino) :: s) rest
          | None => Err IoOther
          end
      end
  | _ => Err IoNotADirectory
  end.
Proof. by destruct links. Qed.

Lemma walk_nil links fs follow s : walk links fs follow s [] = Ok (Found s).
Proof. by destruct links. Qed.

#[local] Opaque walk.

(** A real directory below a real path can be entered by name. *)
Lemma walk_real_step links fs follow c ino s rest :
  real fs ((c, ino) :: s) → walk links fs follow s (c :: rest) = walk links fs follow ((c, ino) :: s) rest.
Proof.
  intros Hr. inversion Hr as [|? ? ? entries n Hs Hd H1 H2 H3 He Hn Hl]; subst.
  rw walk_cons Hd !bool_decide_false //. cbn [orb]. rw He Hn. destruct n; [done|done|by destruct (Hl target)].
Qed.

Lemma path_of_cons c i s : path_of ((c, i) :: s) = path_of s ++ [c].
Proof. unfold path_of. by rw fmap_cons reverse_cons. Qed.

(** Walking a real path leads to it, whatever follows. *)
Lemma walk_along links fs follow s rest :
  real fs s → walk links fs follow [] (path_of s ++ rest) = walk links fs follow s rest.
Proof.
  intros Hr. revert rest. induction Hr as [|c ino s entries n Hr IH Hd H1 H2 H3 He Hn Hl]; intros rest; [done|].
  rw path_of_cons -app_assoc IH. cbn [app]. apply walk_real_step. by econstructor.
Qed.

Lemma place_real fs follow s rest : real fs s → place fs follow (path_of s ++ rest) = walk MAX_SYMLINKS fs follow s rest.
Proof. apply walk_along. Qed.

Lemma find_real fs follow s : real fs s → find fs follow (path_of s) = Ok s.
Proof. intros Hr. unfold find. rw -(app_nil_r (path_of s)) place_real // walk_nil. Qed.

(** What is found by following links is real; so is the directory of a free
    name, and of a last component that is not followed. *)
Definition real_place (fs : Fs) (follow : bool) (pl : Place) : Prop :=
  match pl with
  | Missing d n => real fs d ∧ n ≠ "" ∧ n ≠ "." ∧ n ≠ ".."
                   ∧ ∃ es, content_at fs (ino_of d) = Some (DirData es) ∧ es !! n = None
  | Found s => if follow then real fs s else real fs (tail s)
  end.

Lemma walk_real links fs follow s todo pl :
  real fs s → walk links fs follow s todo = Ok pl → real_place fs follow pl.
Proof.
  revert s todo. induction links as [|links IHl]; intros s todo; revert s;
    (induction todo as [|c rest IH]; intros s Hs; [rw walk_nil; intros [= <-]; destruct follow; [done|by apply real_tail]|];
     rw walk_cons; destruct (content_at fs (ino_of s)) as [[| es |]|] eqn:Hd; try done;
     destruct (bool_decide_reflect (c = "")); [by apply IH|]; destruct (bool_decide_reflect (c = ".")); [by apply IH|];
     destruct (bool_decide_reflect (c = "..")); [by apply IH, real_tail|]; cbn [orb];
     destruct (es !! c) as [ino|] eqn:He; [|destruct rest; [intros [= <-]; simpl; split_and!; by eauto|done]];
     destruct (content_at fs ino) as [[|es'|t]|] eqn:Hn; try done; [apply IH; by econstructor|apply IH; by econstructor|]).
  - destruct rest, follow; try done. by intros [= <-].
  - assert (real fs (if starts_with "/" t then [] else s)) as Hs' by (destruct (starts_with "/" t); [constructor|done]).
    destruct rest, follow; try (by apply IHl). by intros [= <-].
Qed.

(** A name in a real directory, when the last component is not followed. *)
Lemma place_leaf fs d leaf pl :
  real fs d → leaf ≠ "" → leaf ≠ "." → leaf ≠ ".." →
  place fs false (path_of d ++ [leaf]) = Ok pl →
  pl = Missing d leaf ∨ ∃ i, pl = Found ((leaf, i) :: d).
Proof.
  intros Hd H1 H2 H3. rw place_real // walk_cons !bool_decide_false //. cbn [orb].
  destruct (content_at fs (ino_of d)) as [[|es|]|]; try done.
  destruct (es !! leaf) as [i|]; [|intros [= <-]; by left].
  destruct (content_at fs i) as [[]|]; rw ?walk_nil; try done; intros [= <-]; right; by exists i.
Qed.

(** The same when it is followed and is no link. *)
Lemma place_plain fs d leaf pl :
  real fs d → leaf ≠ "" → leaf ≠ "." → leaf ≠ ".." →
  (∀ s t, find fs false (path_of d ++ [leaf]) = Ok s → content_at fs (ino_of s) ≠ Some (LinkData t)) →
  place fs true (path_of d ++ [leaf]) = Ok pl →
  pl = Missing d leaf ∨ ∃ i, pl = Found ((leaf, i) :: d).
Proof.
  intros Hd H1 H2 H3. unfold find. rw !place_real // !walk_cons !bool_decide_false //. cbn [orb].
  destruct (content_at fs (ino_of d)) as [[|es|]|]; try done.
  destruct (es !! leaf) as [i|]; [|intros _ [= <-]; by left]. intros Hn.
  destruct (content_at fs i) as [[]|] eqn:E; rw ?walk_nil; try done; try (intros [= <-]; right; by exists i).
  by destruct (Hn ((leaf, i) :: d) target eq_refl).
Qed.

Lemma canonicalize_real env p fs q fs' :
  canonicalize env p fs = (Ok q, fs') → fs' = fs ∧ ∃ s, real fs s ∧ q = path_of s ∧ find fs true p = Ok s.
Proof.
  unfold canonicalize, guard. destruct (fault env SysCanonicalize p); [done|].
  unfold sbind, sret, sget, slift. cbn. destruct (find fs true p) as [s|e] eqn:Hf; [|done].
  intros [= <- <-]. split; [done|]. exists s. split; [|done].
  unfold find, place in Hf. destruct (walk MAX_SYMLINKS fs true [] p) as [[s'|]|] eqn:Hw; try done. injection Hf as ->.
  apply (walk_real _ _ _ _ _ _ (real_nil fs) Hw).
Qed.

(** A real path names one stack. *)
Lemma real_path_inj fs s1 s2 : real fs s1 → real fs s2 → path_of s1 = path_of s2 → s1 = s2.
Proof.
  intros H1 H2 He. pose proof (find_real fs true s1 H1) as F1. pose proof (find_real fs true s2 H2) as F2.
  rw He F2 in F1. by injection F1 as ->.
Qed.

(** Nothing is found below an empty directory. *)
Lemma find_below_empty fs s c rest s' :
  real fs s → content_at fs (ino_of s) = Some (DirData ∅) → c ≠ "" → c ≠ "." → c ≠ ".." →
  find fs true (path_of s ++ c :: rest) ≠ Ok s'.
Proof.
  intros Hs Hd H1 H2 H3. unfold find. rw place_real // walk_cons Hd !bool_decide_false // lookup_empty.
  by destruct rest.
Qed.

(** ** What a call changes *)

Definition changes_only (P : Z → Prop) (fs fs' : Fs) : Prop :=
  ∀ i, nodes fs' !! i ≠ nodes fs !! i → P i.

Lemma changes_refl P fs : changes_only P fs fs.
Proof. by intros i. Qed.

Lemma changes_trans P fs1 fs2 fs3 : changes_only P fs1 fs2 → changes_only P fs2 fs3 → changes_only P fs1 fs3.
Proof.
  intros H1 H2 i Hi. destruct (decide (nodes fs2 !! i = nodes fs1 !! i)) as [He|]; [|by apply H1].
  apply H2. by rw He.
Qed.

Lemma changes_weaken (P Q : Z → Prop) fs fs' : (∀ i, P i → Q i) → changes_only P fs fs' → changes_only Q fs fs'.
Proof. intros H Hc i Hi. by apply H, Hc. Qed.

Lemma set_content_changes (P : Z → Prop) t i c fs : P i → changes_only P fs (set_content t i c fs).
Proof.
  intros Hi j Hj. unfold set_content in Hj. destruct (nodes fs !! i) eqn:E; [|done]. simpl in Hj.
  destruct (decide (i = j)) as [->|]; [done|]. by rw lookup_insert_ne in Hj.
Qed.

Lemma set_entries_changes (P : Z → Prop) t d f fs : P (ino_of d) → changes_only P fs (set_entries t d f fs).
Proof.
  intros Hi. unfold set_entries. destruct (_ <$> _) as [[]|]; try apply changes_refl. by apply set_content_changes.
Qed.

Lemma add_node_changes (P : Z → Prop) t d name c mode fs :
  P (ino_of d) → P (next_ino fs) → changes_only P fs (add_node t d name c mode fs).
Proof.
  intros Hd Hn. eapply changes_trans; [|by apply set_entries_changes].
  intros j Hj. simpl in Hj. destruct (decide (next_ino fs = j)) as [<-|]; [done|]. by rw lookup_insert_ne in Hj.
Qed.

(** A call that starts with its guard changes nothing when it is failed. *)
Lemma guard_changes {A} P env c p (m : M Fs IoErrorKind A) fs :
  changes_only P fs (m fs).2 → changes_only P fs (sbind (guard env c p) (λ _, m) fs).2.
Proof. intros H. unfold guard. destruct (fault env c p); [apply changes_refl|done]. Qed.

Ltac run_fs := unfold sbind, sret, sfail, sget, slift, smod; cbn -[walk place find changes_only set_content set_entries add_node move].

Section Changes.
Context (env : Env) (fs : Fs).

Lemma set_len_changes p i size : changes_only (eq i) fs (set_len env p i size fs).2.
Proof.
  apply guard_changes. destruct (_ <? size); [apply changes_refl|]. run_fs.
  destruct (node_at fs i) as [n|]; [|apply changes_refl]. destruct (n_content n); try apply changes_refl.
  by apply set_content_changes.
Qed.

Lemma set_node_changes (P : Z → Prop) i n : P i → changes_only P fs (set_node i n fs).
Proof. intros Hi j Hj. simpl in Hj. destruct (decide (i = j)) as [<-|]; [done|]. by rw lookup_insert_ne in Hj. Qed.

Lemma set_modified_changes p i t : changes_only (eq i) fs (set_modified env p i t fs).2.
Proof.
  apply guard_changes. run_fs. destruct (node_at fs i) as [n|]; [|apply changes_refl]. by apply set_node_changes.
Qed.

Lemma set_mode_changes i mode : changes_only (eq i) fs (set_mode i mode fs).2.
Proof. unfold set_mode. run_fs. destruct (nodes fs !! i); [by apply set_node_changes|apply changes_refl]. Qed.

(** An existing file opened by its real path. *)
Lemma open_changes s wr tr : real fs s →
  changes_only (eq (ino_of s)) fs (sys_open env (mkOpenOptions wr tr false false) (path_of s) fs).2
  ∧ (tr = false → (sys_open env (mkOpenOptions wr tr false false) (path_of s) fs).2 = fs)
  ∧ (∀ i fs', sys_open env (mkOpenOptions wr tr false false) (path_of s) fs = (Ok i, fs') → i = ino_of s).
Proof.
  intros Hs. unfold sys_open, guard. destruct (fault env SysOpen (path_of s)).
  { by split_and!; [apply changes_refl|..]. }
  destruct tr, wr; run_fs; try (by split_and!; [apply changes_refl|..]);
    pose proof (place_real fs true s [] Hs) as Hp; rw app_nil_r walk_nil in Hp; rw Hp;
    run_fs; destruct (node_at fs (ino_of s)) as [n|]; try (by split_and!; [apply changes_refl|..]);
    destruct (n_content n); run_fs; try (by split_and!; [apply changes_refl|..|congruence]);
    try (split_and!; [by apply set_content_changes|done|congruence]); split_and!; try apply changes_refl; try done; congruence.
Qed.

(** A new name in a real directory. *)
Context (d : Stack) (leaf : string) (Hd : real fs d) (Hleaf : good_component leaf).
Let P (i : Z) : Prop := i = ino_of d ∨ i = next_ino fs.

Lemma place_new pl : place fs false (path_of d ++ [leaf]) = Ok pl → pl = Missing d leaf ∨ ∃ i, pl = Found ((leaf, i) :: d).
Proof using Hd Hleaf. apply place_leaf; [done|apply Hleaf..]. Qed.

Lemma create_dir_changes : changes_only P fs (create_dir env (path_of d ++ [leaf]) fs).2.
Proof using Hd Hleaf.
  apply guard_changes. run_fs. destruct (place _ _ _) as [pl|] eqn:E; [|apply changes_refl].
  destruct (place_new _ E) as [->|[i ->]]; [|apply changes_refl]. apply add_node_changes; unfold P; auto.
Qed.

Lemma sys_symlink_changes t : changes_only P fs (sys_symlink env t (path_of d ++ [leaf]) fs).2.
Proof using Hd Hleaf.
  apply guard_changes. run_fs. destruct (place _ _ _) as [pl|] eqn:E; [|apply changes_refl].
  destruct (place_new _ E) as [->|[i ->]]; [|apply changes_refl]. apply add_node_changes; unfold P; auto.
Qed.

Lemma hard_link_changes target : changes_only P fs (hard_link env target (path_of d ++ [leaf]) fs).2.
Proof using Hd Hleaf.
  apply guard_changes. run_fs. destruct (find fs false target) as [s|]; [|apply changes_refl]. run_fs.
  destruct (node_at fs (ino_of s)) as [n|]; [|apply changes_refl]. destruct (n_content n); try apply changes_refl;
  (run_fs; destruct (place _ _ _) as [pl|] eqn:E; [|apply changes_refl];
   destruct (place_new _ E) as [->|[i ->]]; [|apply changes_refl]; apply set_entries_changes; unfold P; auto).
Qed.

Lemma open_new_changes : changes_only P fs (sys_open env (mkOpenOptions true false false true) (path_of d ++ [leaf]) fs).2.
Proof using Hd Hleaf.
  apply guard_changes. run_fs. destruct (place _ _ _) as [pl|] eqn:E; [|apply changes_refl].
  destruct (place_new _ E) as [->|[i ->]]; [|apply changes_refl]. apply add_node_changes; unfold P; auto.
Qed.

(** A file made or cut short under a name that is no link: the inode is the
    one in the directory or a new one. *)
Lemma open_create_changes :
  (∀ s t, find fs false (path_of d ++ [leaf]) = Ok s → content_at fs (ino_of s) ≠ Some (LinkData t)) →
  let Q i := P i ∨ ∃ s, real fs s ∧ path_of s = path_of d ++ [leaf] ∧ i = ino_of s in
  let '(r, fs') := sys_open env (mkOpenOptions true true true false) (path_of d ++ [leaf]) fs in
  changes_only Q fs fs' ∧ ∀ i, r = Ok i → Q i.
Proof using Hd Hleaf.
  intros Hn Q. unfold sys_open, guard. destruct (fault env SysOpen _).
  { by split; [apply changes_refl|]. }
  run_fs. destruct (place _ _ _) as [pl|] eqn:E; [|by split; [apply changes_refl|]]. pose proof E as E'.
  apply place_plain in E as [->|[i ->]]; try done; try apply Hleaf; run_fs.
  - split; [apply add_node_changes; unfold Q, P; auto|]. intros i [= <-]. left. by right.
  - apply walk_real in E'; [|constructor]. simpl in E'. assert (Q i) as Hi.
    { right. exists ((leaf, i) :: d). by rw path_of_cons. }
    destruct (node_at fs i) as [n|]; [|by split; [apply changes_refl|]].
    destruct (n_content n); run_fs; try (by split; [apply changes_refl|]).
    split; [by apply set_content_changes|]. by intros ? [= <-].
Qed.

Lemma open_new_fresh p i fs' : sys_open env (mkOpenOptions true false false true) p fs = (Ok i, fs') → i = next_ino fs.
Proof.
  unfold sys_open, guard. destruct (fault env SysOpen p); [done|]. run_fs.
  destruct (place fs false p) as [[s|d' n]|]; [done| |done]. congruence.
Qed.

Lemma node_content i n : node_at fs i = Ok n → content_at fs i = Some (n_content n).
Proof. unfold node_at, ok_or, content_at. destruct (_ !! _); by intros [= ->]. Qed.

Lemma remove_file_changes s : real fs s →
  changes_only (λ i, s ≠ [] ∧ i = ino_of (tail s) ∧ ∀ es, content_at fs (ino_of s) ≠ Some (DirData es))
    fs (remove_file env (path_of s) fs).2.
Proof.
  intros Hs. apply guard_changes. run_fs. rw find_real //. run_fs.
  destruct (node_at fs (ino_of s)) as [n|] eqn:En; [|apply changes_refl]. apply node_content in En.
  destruct (n_content n) eqn:Ec, s as [|[c i] s]; try apply changes_refl; apply set_entries_changes;
    (split_and!; [done|done|intros es; rw En; congruence]).
Qed.

Lemma remove_dir_changes s : real fs s →
  changes_only (λ i, s ≠ [] ∧ i = ino_of (tail s) ∧ content_at fs (ino_of s) = Some (DirData ∅)) fs (remove_dir env (path_of s) fs).2.
Proof.
  intros Hs. apply guard_changes. run_fs. rw find_real //. run_fs.
  destruct (node_at fs (ino_of s)) as [n|] eqn:En; [|apply changes_refl].
  destruct (n_content n) as [|es|] eqn:Ec, s as [|[c i] s]; try apply changes_refl.
  destruct (bool_decide_reflect (es = ∅)) as [->|]; [|apply changes_refl]. apply set_entries_changes.
  split_and!; [done|done|]. apply node_content in En. by rw En Ec.
Qed.

Lemma sys_rename_changes s : real fs s →
  changes_only (λ i, s ≠ [] ∧ ¬ (path_of s `prefix_of` path_of d) ∧ (i = ino_of (tail s) ∨ i = ino_of d))
    fs (sys_rename env (path_of s) (path_of d ++ [leaf]) fs).2.
Proof using Hd Hleaf.
  intros Hs. apply guard_changes. run_fs. rw find_real //. run_fs.
  destruct (node_at fs (ino_of s)) as [n|]; [|apply changes_refl].
  destruct (place _ _ _) as [pl|] eqn:E; [|apply changes_refl]. destruct s as [|[c i] s]; [apply changes_refl|].
  assert (∀ Q, changes_only (λ i, i = ino_of s ∨ i = ino_of d) Q (move env i s c d leaf Q)) as Hmove.
  { intros Q. eapply changes_trans; apply set_entries_changes; auto. }
  destruct (place_new _ E) as [->|[j ->]]; run_fs.
  - case_bool_decide; [apply changes_refl|]. eapply changes_weaken; [|apply Hmove]. naive_solver.
  - case_bool_decide; [apply changes_refl|]. case_bool_decide; [apply changes_refl|]. run_fs.
    destruct (node_at fs j) as [m|]; [|apply changes_refl]. destruct (may_replace _ _); [|apply changes_refl].
    eapply changes_weaken; [|apply Hmove]. naive_solver.
Qed.
End Changes.

(** ** Calls that leave the tree's shape alone *)

Definition shape (c : Content) : Content := match c with FileData _ => FileData [] | c => c end.

Definition same_tree (fs fs' : Fs) : Prop := ∀ i, shape <$> content_at fs' i = shape <$> content_at fs i.

Lemma same_tree_refl fs : same_tree fs fs.
Proof. done. Qed.
Lemma same_tree_trans fs1 fs2 fs3 : same_tree fs1 fs2 → same_tree fs2 fs3 → same_tree fs1 fs3.
Proof. intros H1 H2 i. by rw H2 H1. Qed.

Lemma same_tree_real fs fs' s : same_tree fs fs' → real fs s → real fs' s.
Proof.
  intros Ht. induction 1 as [|c ino s es n Hr IH Hd H1 H2 H3 He Hn Hl]; [constructor|].
  pose proof (Ht (ino_of s)) as Hts. rw Hd in Hts. simpl in Hts.
  destruct (content_at fs' (ino_of s)) as [[|es'|]|] eqn:Hd'; try done. injection Hts as ->.
  pose proof (Ht ino) as Hti. rw Hn in Hti. destruct (content_at fs' ino) as [n'|] eqn:Hn'; [|done]. simpl in Hti.
  econstructor; [done|done|done|done|done|done|done|]. intros t ->. simpl in Hti. destruct n; try done. by apply (Hl target).
Qed.

Lemma set_node_tree fs i n n' :
  nodes fs !! i = Some n → shape (n_content n') = shape (n_content n) → same_tree fs (set_node i n' fs).
Proof.
  intros Hn Hs j. unfold content_at. simpl. destruct (decide (i = j)) as [<-|].
  - rw lookup_insert_eq Hn. simpl. by rw Hs.
  - by rw lookup_insert_ne.
Qed.

Lemma node_at_Ok fs i n : node_at fs i = Ok n → nodes fs !! i = Some n.
Proof. unfold node_at, ok_or. destruct (_ !! _); by intros [= ->]. Qed.

Lemma set_len_tree env p i size fs : same_tree fs (set_len env p i size fs).2.
Proof.
  unfold set_len, guard. destruct (fault env SysSetLen p); [done|]. run_fs.
  destruct (_ <? size); [done|]. run_fs. destruct (node_at fs i) as [n|] eqn:E; [|done]. apply node_at_Ok in E.
  destruct (n_content n) eqn:Ec; try done. unfold set_content. rw E. eapply set_node_tree; [done|]. by rw Ec.
Qed.

Lemma set_modified_tree env p i t fs : same_tree fs (set_modified env p i t fs).2.
Proof.
  unfold set_modified, guard. destruct (fault env SysSetModified p); [done|]. run_fs.
  destruct (node_at fs i) as [n|] eqn:E; [|done]. apply node_at_Ok in E. by eapply set_node_tree.
Qed.

Lemma set_mode_tree i mode fs : same_tree fs (set_mode i mode fs).2.
Proof. unfold set_mode. run_fs. destruct (nodes fs !! i) eqn:E; [|done]. by eapply set_node_tree. Qed.
