(* ===== verification/Agent.v ===== *)
(** * Agent: the server's request handlers

    alloyfs-agent/src/ops.rs (exports, sessions and one handler per request)
    and fsutil.rs (path resolution), over the file system of [Fs].  A handler
    is a function of the whole [World] -- file system, exports, sessions -- in
    a state and error monad: what a failing handler already did stays done.
    A call that has not returned, because it waits for a lock or the operating
    system has not finished a transfer, stops with [Pending].  The theorems
    are in AgentFacts. *)

From S2P Require Import Prelude Messages Common Exclude Locks EventHub Fs.

Definition READDIR_PAGE : nat := 1024.

(** [OsStr::to_str]. *)
Definition to_str (s : string) : option string := if utf8_valid s then Some s else None.

(** ** State *)

Record MountDefaults : Type := mkMountDefaults {
  md_exclude : list string; md_pin : list string;
  md_auto_cache_max : option Z; md_auto_cache_budget : option Z
}.

Record OpenFile : Type := mkOpenFile {
  of_file : Z;              (* the inode the descriptor holds *)
  of_at : list string;      (* where it was opened *)
  of_path : RelPath;
  of_writable : bool
}.

(** A subscription's forwarder: what it has still to push before the stream,
    and its position in the stream. *)
Record Forwarder : Type := mkForwarder { fw_catchup : list FsEvent; fw_rx : nat }.

Record Session : Type := mkSession {
  s_attached : option string;     (* the export's name: the registry is keyed by it *)
  s_handles : gmap Z OpenFile;
  s_next_fh : Z;
  s_push : bool;                  (* an EventPusher is held *)
  s_last_seen : Z;
  s_required_token : option string;
  s_authed : bool;
  s_forwarders : list Forwarder;
  s_registered : bool             (* the registry's lease reaper knows it *)
}.

(** ** Configuration (config.rs) *)

Record ClientDefaults : Type := mkClientDefaults {
  cd_exclude : list string; cd_pin : list string;
  cd_auto_cache_max : option SizeField; cd_auto_cache_budget : option SizeField
}.

Record ExportConfig : Type := mkExportConfig {
  ec_path : list string; ec_read_only : bool; ec_exclude : list string;
  ec_default_excludes : bool; ec_client : option ClientDefaults
}.

(** Why the agent refuses to start. *)
Inductive BootError : Type :=
| CannotResolve (name : string) (e : IoErrorKind)
| RootNotDir (name : string)
| BadExclude (name : string) (e : ExcludeError)
| BadSize (name : string) (e : SizeError)
| NoExports.

(** What stops a handler. *)
Inductive Stop : Type := Fail (e : ErrorCode) | Pending.
#[global] Instance Stop_eq_dec : EqDecision Stop.
Proof. solve_decision. Defined.

Section Agent.
Context {Glob GlobSet : Type} `{G : Globs Glob GlobSet}.

Record Export : Type := mkExport {
  x_name : string;
  x_root : list string;
  x_read_only : bool;
  x_versions : Versions;
  x_events : EventHub;
  x_locks : gmap string Entry;
  x_exclude : ExcludeSet GlobSet;
  x_defaults : MountDefaults
}.

Record World : Type := mkWorld {
  w_fs : Fs;
  w_exports : gmap string Export;
  w_sessions : gmap Z Session;
  w_next_session : Z;
  w_next_channel : Z;
  w_resolved : list Z             (* channels of lock waiters signalled or dropped *)
}.

Definition AgentM : Type → Type := M World Stop.

Definition upd_fs (fs : Fs) (w : World) : World :=
  mkWorld fs (w_exports w) (w_sessions w) (w_next_session w) (w_next_channel w) (w_resolved w).
Definition upd_session (id : Z) (f : Session → Session) (w : World) : World :=
  mkWorld (w_fs w) (w_exports w) (alter f id (w_sessions w)) (w_next_session w) (w_next_channel w) (w_resolved w).
Definition upd_export (name : string) (f : Export → Export) (w : World) : World :=
  mkWorld (w_fs w) (alter f name (w_exports w)) (w_sessions w) (w_next_session w) (w_next_channel w) (w_resolved w).

Definition upd_versions (v : Versions) (x : Export) : Export :=
  mkExport (x_name x) (x_root x) (x_read_only x) v (x_events x) (x_locks x) (x_exclude x) (x_defaults x).
Definition upd_events (h : EventHub) (x : Export) : Export :=
  mkExport (x_name x) (x_root x) (x_read_only x) (x_versions x) h (x_locks x) (x_exclude x) (x_defaults x).
Definition upd_locks (l : gmap string Entry) (x : Export) : Export :=
  mkExport (x_name x) (x_root x) (x_read_only x) (x_versions x) (x_events x) l (x_exclude x) (x_defaults x).

Definition upd_handles (h : gmap Z OpenFile) (next : Z) (s : Session) : Session :=
  mkSession (s_attached s) h next (s_push s) (s_last_seen s) (s_required_token s) (s_authed s) (s_forwarders s) (s_registered s).
Definition upd_attached (a : option string) (s : Session) : Session :=
  mkSession a (s_handles s) (s_next_fh s) (s_push s) (s_last_seen s) (s_required_token s) (s_authed s) (s_forwarders s) (s_registered s).
Definition upd_authed (b : bool) (s : Session) : Session :=
  mkSession (s_attached s) (s_handles s) (s_next_fh s) (s_push s) (s_last_seen s) (s_required_token s) b (s_forwarders s) (s_registered s).
Definition upd_push (b : bool) (s : Session) : Session :=
  mkSession (s_attached s) (s_handles s) (s_next_fh s) b (s_last_seen s) (s_required_token s) (s_authed s) (s_forwarders s) (s_registered s).
Definition upd_last_seen (t : Z) (s : Session) : Session :=
  mkSession (s_attached s) (s_handles s) (s_next_fh s) (s_push s) t (s_required_token s) (s_authed s) (s_forwarders s) (s_registered s).
Definition upd_forwarders (l : list Forwarder) (s : Session) : Session :=
  mkSession (s_attached s) (s_handles s) (s_next_fh s) (s_push s) (s_last_seen s) (s_required_token s) (s_authed s) l (s_registered s).
Definition upd_registered (b : bool) (s : Session) : Session :=
  mkSession (s_attached s) (s_handles s) (s_next_fh s) (s_push s) (s_last_seen s) (s_required_token s) (s_authed s) (s_forwarders s) b.

(** ** The monad's operations *)

Definition code {A} (r : result A ErrorCode) : AgentM A := slift (map_err Fail r).
Definition fail {A} (e : ErrorCode) : AgentM A := sfail (Fail e).

(** A file-system call whose error goes through [or_code]. *)
Definition fs_call {A} (m : M Fs IoErrorKind A) : AgentM A :=
  λ w, let '(r, fs) := m (w_fs w) in (map_err (λ e, Fail (io_to_code e)) r, upd_fs fs w).

(** A file-system call whose result the code inspects itself. *)
Definition fs_try {A} (m : M Fs IoErrorKind A) : AgentM (result A IoErrorKind) :=
  λ w, let '(r, fs) := m (w_fs w) in (Ok r, upd_fs fs w).

(** The session a handler runs for; it lives as long as its handlers do. *)
Definition the_session (id : Z) : AgentM Session :=
  λ w, match w_sessions w !! id with Some s => (Ok s, w) | None => (Err (Fail Io), w) end.

(** ** Path resolution (fsutil.rs, Export) *)

Definition resolve_unchecked (env : Env) (root : list string) (rel : RelPath) : AgentM (list string) :=
  run! code (RelPath.validate rel) in
  if RelPath.is_root rel then sret root
  else
    let full := root ++ split_on slash rel in
    let! canon := fs_call (canonicalize env full) in
    if bool_decide (root `prefix_of` canon) then sret canon else fail PermissionDenied.

(** [full.strip_prefix(root)], then [to_str] and the separators. *)
Definition stripped (root full : list string) : option RelPath :=
  if bool_decide (root `prefix_of` full) then
    replace_char backslash slash <$> to_str (join_with slash (drop (length root) full))
  else None.

Definition resolve (env : Env) (x : Export) (rel : RelPath) : AgentM (list string) :=
  if is_excluded (x_exclude x) rel then fail NotFound
  else
    let! full := resolve_unchecked env (x_root x) rel in
    if negb (is_empty (x_exclude x)) then
      match stripped (x_root x) full with
      | Some s => if is_excluded (x_exclude x) s then fail NotFound else sret full
      | None => sret full
      end
    else sret full.

Definition resolve_new (env : Env) (x : Export) (rel : RelPath) : AgentM (list string) :=
  if is_excluded (x_exclude x) rel then fail NotFound
  else
    run! code (RelPath.validate rel) in
    let! '(parent, leaf) := code (ok_or (RelPath.split rel) InvalidPath) in
    let! parent_full := resolve env x parent in
    sret (parent_full ++ [leaf]).

(** [target.split(['/', '\\'])]. *)
Definition split_both (s : string) : list string := split_on slash (replace_char backslash slash s).

(** One component of the target: [None] for a pop past the root. *)
Fixpoint land (stack : list string) (comps : list string) : option (list string) :=
  match comps with
  | [] => Some stack
  | comp :: rest =>
      if bool_decide (comp = "") || bool_decide (comp = ".") then land stack rest
      else if bool_decide (comp = "..") then
        match stack with [] => None | _ => land (removelast stack) rest end
      else land (stack ++ [comp]) rest
  end.

Definition is_ascii_alphabetic (b : Z) : bool := ((65 <=? b) && (b <=? 90)) || ((97 <=? b) && (b <=? 122)).

(** A drive letter: [bytes.len() >= 2 && bytes[1] == b':' && bytes[0] is a letter]. *)
Definition has_drive (target : string) : bool :=
  match as_bytes target with
  | b0 :: b1 :: _ => bool_decide (b1 = 58) && is_ascii_alphabetic b0
  | _ => false
  end.

Definition symlink_lands_inside (link : RelPath) (target : string) : option RelPath :=
  if str_is_empty target then None
  else if starts_with "/" target || starts_with "\" target then None
  else if has_drive target then None
  else
    '(parent, _) ← RelPath.split link;
    stack ← land (if RelPath.is_root parent then [] else split_on slash parent) (split_both target);
    Some (join_with slash stack).

(** ** Export bookkeeping *)

Definition bump_version (x : Export) (path : RelPath) : AgentM Z :=
  λ w, match w_exports w !! x_name x with
       | Some x' => let '(v, vs) := bump (x_versions x') path in (Ok v, upd_export (x_name x) (upd_versions vs) w)
       | None => (Err (Fail Io), w)
       end.

Definition note_write (env : Env) (x : Export) (path : RelPath) (id : Z) : AgentM unit :=
  smod (upd_export (x_name x) (λ x', upd_events (note_local_write (now env) (x_events x') path id) x')).

(** The listing loop shared by [browse] and [readdir]: the served names of a
    directory with their attributes. *)
Fixpoint list_items (env : Env) (x : Export) (rel : RelPath) (full : list string)
    (items : list (string * Z)) : AgentM (list (string * Attr)) :=
  match items with
  | [] => sret []
  | (name, _) :: items =>
      match to_str name with
      | None => list_items env x rel full items
      | Some name =>
          let child := RelPath.join rel name in
          if is_excluded (x_exclude x) child then list_items env x rel full items
          else
            let! md := fs_try (symlink_metadata env (full ++ [name])) in
            let! md := (match md with Ok _ => sret md | Err _ => fs_try (symlink_metadata env (full ++ [name])) end) in
            match md with
            | Err _ => list_items env x rel full items
            | Ok md =>
                let attr := attr_from_metadata md (version_of (x_versions x) child) in
                let! rest := list_items env x rel full items in
                sret ((name, attr) :: rest)
            end
      end
  end.

Definition dir_entry (p : string * Attr) : DirEntry := mkDirEntry p.1 p.2.

Definition browse (env : Env) (x : Export) (rel : RelPath) : AgentM (list DirEntry) :=
  let! full := resolve env x rel in
  let! items := fs_call (read_dir env full) in
  let! entries := list_items env x rel full items in
  sret (dir_entry <$> merge_sort key_le entries).

(** ** Building the registry *)

(** [.as_ref().map(to_bytes).transpose()]. *)
Definition size_default (name : string) (f : option SizeField) : result (option Z) BootError :=
  match f with
  | None => Ok None
  | Some f => let? n := map_err (BadSize name) (to_bytes f) in Ok (Some n)
  end.

Definition config_defaults (name : string) (c : option ClientDefaults) : result MountDefaults BootError :=
  match c with
  | None => Ok (mkMountDefaults [] [] None None)
  | Some c =>
      let? max := size_default name (cd_auto_cache_max c) in
      let? budget := size_default name (cd_auto_cache_budget c) in
      Ok (mkMountDefaults (cd_exclude c) (cd_pin c) max budget)
  end.

(** One turn of [from_config]'s loop. *)
Definition build_export (env : Env) (fs : Fs) (name : string) (ec : ExportConfig) : result Export BootError :=
  let? root := map_err (CannotResolve name) (fst (canonicalize env (ec_path ec) fs)) in
  let is_dir := match fst (metadata env root fs) with Ok md => md_is_dir md | Err _ => false end in
  if negb is_dir then Err (RootNotDir name)
  else
    let? exclude := map_err (BadExclude name)
      (if ec_default_excludes ec then compile_with_defaults (ec_exclude ec) false
       else compile (ec_exclude ec) false) in
    let? defaults := config_defaults name (ec_client ec) in
    Ok (mkExport name root (ec_read_only ec) (mkVersions ∅ 0) (with_capacity (Z.to_nat EVENT_LOG_CAP)) ∅ exclude defaults).

Fixpoint build_exports (env : Env) (fs : Fs) (cfg : list (string * ExportConfig)) : result (gmap string Export) BootError :=
  match cfg with
  | [] => Ok ∅
  | (name, ec) :: cfg =>
      let? x := build_export env fs name ec in
      let? xs := build_exports env fs cfg in
      Ok (<[name := x]> xs)
  end.

Definition from_config (env : Env) (fs : Fs) (cfg : gmap string ExportConfig) : result World BootError :=
  let? xs := build_exports env fs (sorted_entries cfg) in
  if bool_decide (xs = ∅) then Err NoExports
  else Ok (mkWorld fs xs ∅ 1 0 []).

(** ** Session helpers *)

Definition attached_export (id : Z) : AgentM (option Export) :=
  λ w, (Ok (s ← w_sessions w !! id; name ← s_attached s; w_exports w !! name), w).

Definition export (id : Z) : AgentM Export :=
  let! x := attached_export id in
  code (ok_or x NotAttached).

Definition writable_export (id : Z) : AgentM Export :=
  let! x := export id in
  if x_read_only x then fail ReadOnly else sret x.

Definition handle_of (id fh : Z) : AgentM OpenFile :=
  let! s := the_session id in
  code (ok_or (s_handles s !! fh) BadHandle).

Definition insert_handle (id : Z) (file : Z) (at_ : list string) (path : RelPath) (writable : bool) : AgentM Z :=
  let! s := the_session id in
  let fh := s_next_fh s in
  run! smod (upd_session id (λ s, upd_handles (<[fh := mkOpenFile file at_ path writable]> (s_handles s)) (u64_add fh 1) s)) in
  sret fh.

(** Lock-manager calls: the export's table and the channels they resolve. *)
Definition do_unlock (x : Export) (path : RelPath) (id fh : Z) : AgentM unit :=
  smod (λ w, match w_exports w !! x_name x with
             | Some x' =>
                 let '(lm, woken) := Locks.unlock (x_locks x') path id fh in
                 let w := upd_export (x_name x) (upd_locks lm) w in
                 mkWorld (w_fs w) (w_exports w) (w_sessions w) (w_next_session w) (w_next_channel w) (w_resolved w ++ woken)
             | None => w
             end).

Definition do_lock (x : Export) (path : RelPath) (id fh : Z) (kind : LockKind) (wait : bool) : AgentM unit :=
  λ w, match w_exports w !! x_name x with
       | Some x' =>
           let '(turn, lm) := lock_turn (x_locks x') path id fh kind wait (w_next_channel w) in
           let w := upd_export (x_name x) (upd_locks lm) w in
           match turn with
           | Done r => (map_err Fail r, w)
           | Park ch => (Err Pending, mkWorld (w_fs w) (w_exports w) (w_sessions w) (w_next_session w) (ch + 1) (w_resolved w))
           end
       | None => (Err (Fail Io), w)
       end.

Definition force_release (id : Z) : AgentM Z :=
  let! x := attached_export id in
  let! released :=
    (match x with
     | None => sret 0
     | Some x => λ w,
         let '(n, lm, chs) := Locks.release_session (x_locks x) id in
         let w := upd_export (x_name x) (upd_locks lm) w in
         (Ok n, mkWorld (w_fs w) (w_exports w) (w_sessions w) (w_next_session w) (w_next_channel w) (w_resolved w ++ chs))
     end) in
  let! s := the_session id in
  run! smod (upd_session id (λ s, upd_handles ∅ (s_next_fh s) s)) in
  sret (released + Z.of_nat (size (s_handles s))).

(** ** One handler per request *)

Definition attach (env : Env) (id : Z) (name : string) : AgentM Response :=
  let! current := attached_export id in
  if bool_decide (is_Some current ∧ x_name <$> current ≠ Some name) then fail AlreadyExists
  else
    let! w := sget in
    let! x := code (ok_or (w_exports w !! name) NoSuchExport) in
    let! md := fs_call (metadata env (x_root x)) in
    let attr := attr_from_metadata md 0 in
    (* OnceLock::set keeps the first value *)
    run! smod (upd_session id (λ s, match s_attached s with Some _ => s | None => upd_attached (Some (x_name x)) s end)) in
    sret (RsAttachOk 0 attr).

Definition getattr (env : Env) (id : Z) (path : RelPath) : AgentM Response :=
  let! x := export id in
  let! full := resolve env x path in
  let! md := fs_call (metadata env full) in
  sret (RsAttr (attr_from_metadata md (version_of (x_versions x) path))).

(** The page of a sorted listing at a cursor, and where the next one starts. *)
Definition page (entries : list DirEntry) (cursor : Z) : list DirEntry * option Z :=
  let start := Z.to_nat cursor in
  let pg := take READDIR_PAGE (drop start entries) in
  (pg, if bool_decide (start + length pg < length entries)%nat
       then Some (Z.of_nat (start + length pg)) else None).

Definition readdir (env : Env) (id : Z) (path : RelPath) (cursor : Z) : AgentM Response :=
  let! x := export id in
  let! full := resolve env x path in
  let! items := fs_call (read_dir env full) in
  let! entries := list_items env x path full items in
  let '(pg, next) := page (dir_entry <$> merge_sort key_le entries) cursor in
  sret (RsDir pg next).

Definition open (env : Env) (id : Z) (path : RelPath) (flags : OpenFlags) : AgentM Response :=
  let! x := export id in
  let wants_write := of_write flags || of_truncate flags || of_append flags in
  if wants_write && x_read_only x then fail ReadOnly
  else
    let! full := resolve env x path in
    let! file := fs_call (sys_open env (mkOpenOptions wants_write (of_truncate flags) false false) full) in
    let! md := fs_call (fstat env full file) in
    if md_is_dir md then fail IsADirectory
    else
      let! version := (if of_truncate flags then bump_version x path else sret (version_of (x_versions x) path)) in
      let attr := attr_from_metadata md version in
      let! fh := insert_handle id file full path wants_write in
      sret (RsOpened fh attr).

Definition create (env : Env) (id : Z) (path : RelPath) (flags : OpenFlags) (mode : Z) : AgentM Response :=
  let! x := writable_export id in
  let! full := resolve_new env x path in
  let opts := if of_excl flags then mkOpenOptions true false false true
              else mkOpenOptions true (of_truncate flags) true false in
  let! file := fs_call (sys_open env opts full) in
  run! fs_call (set_mode file mode) in
  let! md := fs_call (fstat env full file) in
  run! note_write env x path id in
  let! version := bump_version x path in
  let! fh := insert_handle id file full path true in
  sret (RsOpened fh (attr_from_metadata md version)).

Definition read (env : Env) (id fh offset len : Z) : AgentM Response :=
  if DATA_CHUNK <? len then fail Io
  else
    let! f := handle_of id fh in
    let! w := sget in
    match read_fully (answers env) (file_bytes (w_fs w) (of_file f)) (Z.to_nat len) (Z.to_nat offset) [] with
    | None => sfail Pending
    | Some r => let! bs := code (or_code r) in sret (RsData bs)
    end.

(** The transfer of [write]: what reached the file stays there on an error. *)
Definition write_out (env : Env) (i : Z) (data : list Z) (offset : Z) : AgentM unit :=
  let! w := sget in
  match write_fully (answers env) (file_bytes (w_fs w) i) data (Z.to_nat offset) 0 with
  | None => sfail Pending
  | Some (r, bs) =>
      run! (if bool_decide (data = []) then sret tt
            else smod (λ w, upd_fs (set_content (now env) i (FileData bs) (w_fs w)) w)) in
      code (or_code r)
  end.

Definition write (env : Env) (id fh offset : Z) (data : list Z) (expect_version : option Z) : AgentM Response :=
  let! x := writable_export id in
  let! f := handle_of id fh in
  if negb (of_writable f) then fail BadHandle
  else if (match expect_version with
           | Some v => negb (bool_decide (v = version_of (x_versions x) (of_path f)))
           | None => false
           end) then fail Conflict
  else
    run! write_out env (of_file f) data offset in
    run! note_write env x (of_path f) id in
    let! new_version := bump_version x (of_path f) in
    sret (RsWritten (as_u32 (blen data)) new_version false).

Definition open_for_write (env : Env) (full : list string) : AgentM Z :=
  fs_call (sys_open env (mkOpenOptions true false false false) full).

Definition setattr (env : Env) (id : Z) (path : RelPath) (size : option Z) (mtime : option SystemTime)
    (mode : option Z) : AgentM Response :=
  let! x := writable_export id in
  let! full := resolve env x path in
  run! (match size with
        | Some size => let! f := open_for_write env full in fs_call (set_len env full f size)
        | None => sret tt
        end) in
  run! (match mtime with
        | Some t => let! f := open_for_write env full in fs_call (set_modified env full f t)
        | None => sret tt
        end) in
  run! (match mode with
        | Some m => let! f := open_for_write env full in fs_call (set_mode f m)
        | None => sret tt
        end) in
  let! md := fs_call (metadata env full) in
  run! note_write env x path id in
  let! version := bump_version x path in
  sret (RsAttr (attr_from_metadata md version)).

Definition mkdir (env : Env) (id : Z) (path : RelPath) (mode : Z) : AgentM Response :=
  let! x := writable_export id in
  let! full := resolve_new env x path in
  run! fs_call (create_dir env full) in
  let! md := fs_call (metadata env full) in
  run! note_write env x path id in
  let! version := bump_version x path in
  sret (RsAttr (attr_from_metadata md version)).

Definition unlink (env : Env) (id : Z) (path : RelPath) : AgentM Response :=
  let! x := writable_export id in
  let! full := resolve env x path in
  run! fs_call (remove_file env full) in
  run! note_write env x path id in
  run! bump_version x path in
  sret RsOk.

Definition rmdir (env : Env) (id : Z) (path : RelPath) : AgentM Response :=
  let! x := writable_export id in
  let! full := resolve env x path in
  run! fs_call (remove_dir env full) in
  run! note_write env x path id in
  run! bump_version x path in
  sret RsOk.

Definition rename_versions (x : Export) (from to : RelPath) : AgentM Z :=
  λ w, match w_exports w !! x_name x with
       | Some x' => let '(v, vs) := rename_version (x_versions x') from to in
                    (Ok v, upd_export (x_name x) (upd_versions vs) w)
       | None => (Err (Fail Io), w)
       end.

Definition rename (env : Env) (id : Z) (from to : RelPath) (replace : bool) : AgentM Response :=
  let! x := writable_export id in
  let! from_full := resolve env x from in
  let! to_full := resolve_new env x to in
  let! taken := (if replace then sret false else fs_call (path_exists env to_full)) in
  if taken : bool then fail AlreadyExists
  else
    run! fs_call (sys_rename env from_full to_full) in
    run! note_write env x from id in
    run! note_write env x to id in
    run! rename_versions x from to in
    sret RsOk.

Definition link (env : Env) (id : Z) (target lnk : RelPath) : AgentM Response :=
  let! x := writable_export id in
  let! target_full := resolve env x target in
  let! link_full := resolve_new env x lnk in
  run! fs_call (hard_link env target_full link_full) in
  let! md := fs_call (metadata env link_full) in
  run! note_write env x lnk id in
  let! version := bump_version x lnk in
  sret (RsAttr (attr_from_metadata md version)).

Definition symlink (env : Env) (id : Z) (target : string) (lnk : RelPath) : AgentM Response :=
  let! x := writable_export id in
  let! link_full := resolve_new env x lnk in
  let! landing := code (ok_or (symlink_lands_inside lnk target) PermissionDenied) in
  if is_excluded (x_exclude x) landing then fail PermissionDenied
  else
    run! fs_call (sys_symlink env target link_full) in
    let! md := fs_call (symlink_metadata env link_full) in
    run! note_write env x lnk id in
    let! version := bump_version x lnk in
    sret (RsAttr (attr_from_metadata md version)).

Definition readlink (env : Env) (id : Z) (path : RelPath) : AgentM Response :=
  let! x := export id in
  let! full := resolve_new env x path in
  let! md := fs_call (symlink_metadata env full) in
  if negb (md_is_symlink md) then fail InvalidPath
  else
    let! target := fs_call (read_link env full) in
    let! target := code (ok_or (to_str target) InvalidPath) in
    sret (RsTarget (replace_char backslash slash target)).

Definition release (id fh : Z) : AgentM Response :=
  let! s := the_session id in
  match s_handles s !! fh with
  | None => sret RsOk
  | Some f =>
      run! smod (upd_session id (λ s, upd_handles (delete fh (s_handles s)) (s_next_fh s) s)) in
      let! x := attached_export id in
      run! (match x with Some x => do_unlock x (of_path f) id fh | None => sret tt end) in
      sret RsOk
  end.

Definition statfs (env : Env) (id : Z) : AgentM Response :=
  let! x := attached_export id in
  sret (match x ≫= (λ x, space env (x_root x)) with
        | Some (block_size, blocks, blocks_free) => RsStatfs block_size blocks blocks_free
        | None => RsStatfs 4096 (Z.shiftl 1 24) (Z.shiftl 1 23)
        end).

Definition mount_defaults (id : Z) : AgentM Response :=
  let! x := export id in
  let d := x_defaults x in
  sret (RsMountDefaults (md_exclude d) (md_pin d) (md_auto_cache_max d) (md_auto_cache_budget d)).

Definition dispatch_blocking (env : Env) (id : Z) (req : Request) : AgentM Response :=
  match req with
  | RqAttach name => attach env id name
  | RqGetattr path => getattr env id path
  | RqReaddir path cursor => readdir env id path cursor
  | RqOpen path flags => open env id path flags
  | RqCreate path flags mode => create env id path flags mode
  | RqRead fh offset len => read env id fh offset len
  | RqWrite fh offset data expect => write env id fh offset data expect
  | RqFlush _ => sret RsOk
  | RqRelease fh => release id fh
  | RqSetattr path size mtime mode => setattr env id path size mtime mode
  | RqMkdir path mode => mkdir env id path mode
  | RqUnlink path => unlink env id path
  | RqRmdir path => rmdir env id path
  | RqRename from to replace => rename env id from to replace
  | RqLink target lnk => link env id target lnk
  | RqSymlink target lnk => symlink env id target lnk
  | RqReadLink path => readlink env id path
  | RqStatfs => statfs env id
  | RqMountDefaults => mount_defaults id
  | RqLock _ _ _ | RqUnlock _ | RqSubscribe _ | RqAuth _ => fail Io
  end.

(** ** Subscriptions *)

(** The closure that removes a session's own events. *)
Definition strip (id : Z) (batch : list FsEvent) : list FsEvent :=
  base.filter (λ e, ev_origin e ≠ Some id) batch.

Definition subscribe_session (id : Z) (since : option Z) : AgentM Response :=
  let! x := export id in
  let! s := the_session id in
  if negb (s_push s) then fail Io
  else
    let! '(catchup, rx) := code (EventHub.subscribe (x_events x) since) in
    run! smod (upd_session id (λ s, upd_forwarders (s_forwarders s ++ [mkForwarder (strip id catchup) rx]) s)) in
    sret (RsSubscribed (last_seq (x_events x))).

(** What the forwarding task pushes when the stream holds [sent] batches: the
    catch-up first, then every batch since, stripped; empty ones are skipped. *)
Definition forwarded (id : Z) (fw : Forwarder) (sent : list (list FsEvent)) : list (list FsEvent) :=
  base.filter (λ b, b ≠ []) (fw_catchup fw :: (strip id <$> drop (fw_rx fw) sent)).

(** ** Sessions *)

Definition with_token (env : Env) (token : option string) : AgentM Z :=
  let! w := sget in
  let id := w_next_session w in
  let s := mkSession None ∅ 1 false (now env) token (match token with Some _ => false | None => true end) [] true in
  run! smod (λ w, mkWorld (w_fs w) (w_exports w) (<[id := s]> (w_sessions w)) (id + 1) (w_next_channel w) (w_resolved w)) in
  sret id.

(** [RequestHandler::handle]. *)
Definition handle (env : Env) (id : Z) (req : Request) : AgentM Response :=
  run! smod (upd_session id (upd_last_seen (now env))) in
  let! s := the_session id in
  match req with
  | RqAuth token =>
      let expected := default "" (s_required_token s) in
      match s_required_token s with
      | None => sret RsOk
      | Some _ =>
          if token_eq token expected then run! smod (upd_session id (upd_authed true)) in sret RsOk
          else fail PermissionDenied
      end
  | _ =>
      if negb (s_authed s) then fail AuthRequired
      else match req with
      | RqSubscribe since => subscribe_session id since
      | RqLock fh kind wait =>
          let! x := export id in
          let! f := handle_of id fh in
          run! do_lock x (of_path f) id fh kind wait in
          sret RsOk
      | RqUnlock fh =>
          let! x := export id in
          let! f := handle_of id fh in
          run! do_unlock x (of_path f) id fh in
          sret RsOk
      | _ => dispatch_blocking env id req
      end
  end.

Definition connected (id : Z) : AgentM unit := smod (upd_session id (upd_push true)).

Definition disconnected (id : Z) : AgentM unit :=
  run! force_release id in
  run! smod (upd_session id (upd_registered false)) in
  smod (upd_session id (upd_push false)).

(** One session's turn in the lease reaper. *)
Definition reap (env : Env) (lease : Z) (id : Z) : AgentM unit :=
  let! s := the_session id in
  if s_registered s && (lease <? Z.max 0 (now env - s_last_seen s))
  then run! force_release id in sret tt
  else sret tt.

End Agent.
