(* ===== verification/AgentFacts.v ===== *)
(** * AgentFacts: what the agent guarantees

    Theorems about the handlers of [Agent]: nothing is served before the
    token is presented; a read-only export's files cannot change; an excluded
    path is answered alike whatever is on disk; a write is refused on a
    version mismatch and exact otherwise; listings page without loss; a
    disconnected session holds nothing.  [keeps] is the tool: a computation
    that leaves an observation of the state alone, with a hint database that
    proves it through a handler.  [Demo] is a small server on which witnesses
    and counterexamples run. *)

From S2P Require Import Prelude Messages Common Exclude Locks EventHub Fs Agent.

(** ** A small server

    The file system holds /etc/passwd and an export at /srv/data; nothing
    fails and transfers are not cut. *)
Module Demo.

#[local] Existing Instance Sample.sample_globs.

Definition env : Env :=
  mkEnv (λ _ _, None) 1000 (replicate 4 (Give 64)) (λ d, if d then 493 else 420) 4096 (λ _, None).

Definition file (bs : list Z) : INode := mkINode (FileData bs) 1 1 420.
Definition dir (es : list (string * Z)) : INode := mkINode (DirData (list_to_map es)) 1 1 493.

Definition passwd : list Z := as_bytes "root".

Definition fs : Fs :=
  mkFs (list_to_map [(0, dir [("etc", 1); ("srv", 3)]); (1, dir [("passwd", 2)]); (2, file passwd);
                     (3, dir [("data", 4)]); (4, dir [("note", 5); ("private", 6)]);
                     (5, file (as_bytes "hello")); (6, dir [("key", 7)]); (7, file (as_bytes "secret"))]) 8.

Definition exclude (patterns : list string) : ExcludeSet (list (string * bool)) :=
  match compile patterns false with Ok x => x | Err _ => mkExcludeSet [] true None end.

Definition export (ro : bool) (patterns : list string) : Export :=
  mkExport "data" ["srv"; "data"] ro (mkVersions ∅ 0) (with_capacity 4) ∅ (exclude patterns) (mkMountDefaults [] [] None None).

(** Session 1 is attached; it needs no token unless the listener has one. *)
Definition session (token : option string) : Session :=
  mkSession (Some "data") ∅ 1 false 0 token (match token with Some _ => false | None => true end) [] true.
Definition world (ro : bool) (patterns : list string) : World :=
  mkWorld fs {[ "data" := export ro patterns ]} {[ 1 := session None ]} 2 0 [].
Definition locked (token : string) : World :=
  mkWorld fs {[ "data" := export false [] ]} {[ 1 := session (Some token) ]} 2 0 [].

(** Requests in order, their answers. *)
Fixpoint serve (reqs : list Request) (w : World) : list (result Response Stop) * World :=
  match reqs with
  | [] => ([], w)
  | r :: reqs => let '(a, w) := handle env 1 r w in let '(l, w) := serve reqs w in (a :: l, w)
  end.
Definition rw_flags : OpenFlags := mkOpenFlags true true false false false.

(** The session has "note" open for writing as handle 1. *)
Definition opened : World := (serve [RqOpen "note" rw_flags] (world false [])).2.

End Demo.

(** ** Reasoning about handlers *)

Lemma sbind_Ok {S E A B} (m : M S E A) (f : A → M S E B) s b s' :
  sbind m f s = (Ok b, s') → ∃ a s1, m s = (Ok a, s1) ∧ f a s1 = (Ok b, s').
Proof. unfold sbind. destruct (m s) as [[a|e] s1]; [eauto|done]. Qed.

Lemma sbind_eq {S E A B} (m : M S E A) (f : A → M S E B) s a s1 :
  m s = (Ok a, s1) → sbind m f s = f a s1.
Proof. unfold sbind. by intros ->. Qed.

Lemma sbind_Err {S E A B} (m : M S E A) (f : A → M S E B) s e s1 :
  m s = (Err e, s1) → sbind m f s = (Err e, s1).
Proof. unfold sbind. by intros ->. Qed.

(** Computations that leave an observation of the state alone. *)
Definition keeps {S E A B} (obs : S → B) (m : M S E A) : Prop := ∀ s, obs (m s).2 = obs s.

Section Keeps.
Context {S E B : Type} (obs : S → B).
Lemma keeps_ret {A} (a : A) : keeps obs (sret (E := E) a).
Proof. by intros s. Qed.
Lemma keeps_fail {A} (e : E) : keeps obs (sfail (A := A) e).
Proof. by intros s. Qed.
Lemma keeps_lift {A} (r : result A E) : keeps obs (slift r).
Proof. by intros s. Qed.
Lemma keeps_get : keeps obs (sget (E := E)).
Proof. by intros s. Qed.
Lemma keeps_mod f : (∀ s, obs (f s) = obs s) → keeps obs (smod (E := E) f).
Proof. intros H s. apply H. Qed.
Lemma keeps_bind {A C} (m : M S E A) (f : A → M S E C) :
  keeps obs m → (∀ a, keeps obs (f a)) → keeps obs (sbind m f).
Proof.
  intros Hm Hf s. unfold sbind. specialize (Hm s). destruct (m s) as [[a|e] s1]; [|done].
  by rw Hf.
Qed.
Lemma keeps_try {A F} (m : M S E A) : keeps obs m → keeps obs (stry (F := F) m).
Proof. intros Hm s. unfold stry. specialize (Hm s). by destruct (m s). Qed.
End Keeps.
Create HintDb keeps discriminated.
#[export] Hint Constants Opaque : keeps.
#[export] Hint Resolve keeps_ret keeps_fail keeps_lift keeps_get keeps_try : keeps.

(** Take a handler apart: binds, branches, then the hints. *)
Ltac keeps :=
  repeat lazymatch goal with
    | |- keeps _ (sbind _ _) => apply keeps_bind
    | |- keeps _ (match ?x with _ => _ end) => destruct x
    | |- keeps _ (smod _) => apply keeps_mod
    | |- keeps _ _ => solve [eauto 3 with keeps nocore]
    | |- ∀ _, _ => intro
    end.

(** The calls that only look at the file system. *)
Definition same (fs : Fs) : Fs := fs.

Section Looking.
Context (env : Env).
Lemma keeps_guard c p : keeps same (guard env c p).
Proof. unfold guard. keeps. Qed.
#[local] Hint Resolve keeps_guard : keeps.
Lemma keeps_canonicalize p : keeps same (canonicalize env p).
Proof. unfold canonicalize. keeps. Qed.
Lemma keeps_metadata p : keeps same (metadata env p).
Proof. unfold metadata. keeps. Qed.
Lemma keeps_symlink_metadata p : keeps same (symlink_metadata env p).
Proof. unfold symlink_metadata. keeps. Qed.
Lemma keeps_fstat p i : keeps same (fstat env p i).
Proof. unfold fstat. keeps. Qed.
Lemma keeps_read_dir p : keeps same (read_dir env p).
Proof. unfold read_dir. keeps. Qed.
Lemma keeps_read_link p : keeps same (read_link env p).
Proof. unfold read_link. keeps. Qed.
Lemma keeps_path_exists p : keeps same (path_exists env p).
Proof. unfold path_exists. pose proof keeps_metadata. keeps. Qed.
(** Opening without [write] or [create] touches nothing. *)
Lemma keeps_open_read p : keeps same (sys_open env (mkOpenOptions false false false false) p).
Proof. unfold sys_open. cbn [oo_write oo_truncate oo_create oo_create_new andb orb negb]. keeps. Qed.
End Looking.
#[export] Hint Resolve keeps_canonicalize keeps_metadata keeps_symlink_metadata keeps_fstat keeps_read_dir
  keeps_read_link keeps_path_exists keeps_open_read : keeps.

Section Handlers.
Context {Glob GlobSet : Type} `{G : Globs Glob GlobSet}.
#[local] Abbreviation W := (World (GlobSet := GlobSet)).
Implicit Types (w : W) (x : Export (GlobSet := GlobSet)) (env : Env) (id : Z).

Lemma upd_fs_same w : upd_fs (w_fs w) w = w.
Proof. by destruct w. Qed.

Lemma keeps_fs_call {A B} (obs : W → B) (m : M Fs IoErrorKind A) :
  keeps same m → keeps obs (fs_call (GlobSet := GlobSet) m).
Proof.
  intros Hm w. unfold fs_call. specialize (Hm (w_fs w)). destruct (m (w_fs w)) as [r fs]. unfold same in Hm.
  simpl in *. subst fs. by rw upd_fs_same.
Qed.
Lemma keeps_fs_try {A B} (obs : W → B) (m : M Fs IoErrorKind A) :
  keeps same m → keeps obs (fs_try (GlobSet := GlobSet) m).
Proof.
  intros Hm w. unfold fs_try. specialize (Hm (w_fs w)). destruct (m (w_fs w)) as [r fs]. unfold same in Hm.
  simpl in *. subst fs. by rw upd_fs_same.
Qed.
Lemma keeps_code {A B} (obs : W → B) (r : result A ErrorCode) : keeps obs (code (GlobSet := GlobSet) r).
Proof. by intros w. Qed.
Lemma keeps_fail_code {A B} (obs : W → B) e : keeps obs (fail (GlobSet := GlobSet) (A := A) e).
Proof. by intros w. Qed.
Lemma keeps_the_session {B} (obs : W → B) id : keeps obs (the_session (GlobSet := GlobSet) id).
Proof. intros w. unfold the_session. by destruct (_ !! _). Qed.
Lemma keeps_attached {B} (obs : W → B) id : keeps obs (attached_export (GlobSet := GlobSet) id).
Proof. by intros w. Qed.
#[local] Hint Resolve keeps_fs_call keeps_fs_try keeps_code keeps_fail_code keeps_the_session keeps_attached : keeps.

Lemma keeps_export {B} (obs : W → B) id : keeps obs (export (GlobSet := GlobSet) id).
Proof. unfold export. keeps. Qed.
Lemma keeps_writable {B} (obs : W → B) id : keeps obs (writable_export (GlobSet := GlobSet) id).
Proof. unfold writable_export. pose proof @keeps_export. keeps. Qed.
Lemma keeps_handle_of {B} (obs : W → B) id fh : keeps obs (handle_of (GlobSet := GlobSet) id fh).
Proof. unfold handle_of. keeps. Qed.
#[local] Hint Resolve keeps_export keeps_writable keeps_handle_of : keeps.

Lemma keeps_resolve_unchecked {B} (obs : W → B) env root rel : keeps obs (resolve_unchecked env root rel).
Proof. unfold resolve_unchecked. keeps. Qed.
#[local] Hint Resolve keeps_resolve_unchecked : keeps.
Lemma keeps_resolve {B} (obs : W → B) env x rel : keeps obs (resolve env x rel).
Proof. unfold resolve. keeps. Qed.
#[local] Hint Resolve keeps_resolve : keeps.
Lemma keeps_resolve_new {B} (obs : W → B) env x rel : keeps obs (resolve_new env x rel).
Proof. unfold resolve_new. keeps. Qed.
Lemma keeps_list_items {B} (obs : W → B) env x rel full items : keeps obs (list_items env x rel full items).
Proof. induction items as [|[name i] items IH]; cbn [list_items]; keeps. Qed.
Lemma keeps_insert_handle id f p r b : keeps w_fs (insert_handle (GlobSet := GlobSet) id f p r b).
Proof. unfold insert_handle. keeps. done. Qed.
Lemma keeps_note env x p id : keeps w_fs (note_write env x p id).
Proof. by apply keeps_mod. Qed.
Lemma keeps_bump x p : keeps w_fs (bump_version x p).
Proof. intros w. unfold bump_version. by destruct (_ !! _). Qed.
Lemma keeps_do_unlock x p id fh : keeps w_fs (do_unlock x p id fh).
Proof. apply keeps_mod. intros w. destruct (_ !! _); [|done]. by destruct (Locks.unlock _ _ _ _). Qed.
Lemma keeps_do_lock x p id fh k wt : keeps w_fs (do_lock x p id fh k wt).
Proof.
  intros w. unfold do_lock. destruct (_ !! _) as [x'|]; [|done].
  by destruct (lock_turn _ _ _ _ _ _ _) as [[r|ch] lm].
Qed.
#[local] Hint Resolve keeps_resolve_new keeps_list_items keeps_insert_handle keeps_note keeps_bump keeps_do_unlock keeps_do_lock : keeps.

(** ** Sessions and exports *)

(** The export a session is attached to. *)
Definition attached_to id x w : Prop :=
  ∃ s, w_sessions w !! id = Some s ∧ s_attached s = Some (x_name x) ∧ w_exports w !! x_name x = Some x.

Lemma export_attached id x w : attached_to id x w → export id w = (Ok x, w).
Proof. intros (s & Hs & Ha & Hx). unfold export, attached_export, sbind. by rw Hs /= Ha /= Hx. Qed.

Lemma writable_attached id x w : attached_to id x w →
  writable_export id w = (if x_read_only x then Err (Fail ReadOnly) else Ok x, w).
Proof. intros H. unfold writable_export. rw (sbind_eq _ _ _ _ _ (export_attached _ _ _ H)). by destruct (x_read_only x). Qed.

(** What [handle] does first. *)
Definition touched env id w : World := upd_session id (upd_last_seen (now env)) w.

Lemma attached_touched env id x w : attached_to id x w → attached_to id x (touched env id w).
Proof.
  intros (s & Hs & Ha & Hx). exists (upd_last_seen (now env) s).
  split; [|done]. simpl. by rw lookup_alter_eq Hs.
Qed.

Definition authed id w : Prop := ∃ s, w_sessions w !! id = Some s ∧ s_authed s = true.

(** Past the gate, a request is served by its handler. *)
Lemma handle_authed env id req w : authed id w →
  (∀ t, req ≠ RqAuth t) → (∀ k wt fh, req ≠ RqLock fh k wt) → (∀ fh, req ≠ RqUnlock fh) →
  (∀ s, req ≠ RqSubscribe s) →
  handle env id req w = dispatch_blocking env id req (touched env id w).
Proof.
  intros (s & Hs & Ha) H1 H2 H3 H4. unfold handle. change (sbind (smod ?f) ?k w) with (k tt (f w)). cbv beta.
  assert (the_session id (touched env id w) = (Ok (upd_last_seen (now env) s), touched env id w)) as Hts.
  { unfold the_session. simpl. by rw lookup_alter_eq Hs. }
  rw (sbind_eq _ _ _ _ _ Hts). destruct req; simpl; rw ?Ha //; exfalso; naive_solver.
Qed.

(** ** The token gate *)

(** What a session that has not presented [token] gets. *)
Definition at_gate (env : Env) (id : Z) (token : string) (req : Request) (w : World (GlobSet := GlobSet)) : result Response Stop * World :=
  match req with
  | RqAuth t => if decide (t = token)
                then (Ok RsOk, upd_session id (upd_authed true) (touched env id w))
                else (Err (Fail PermissionDenied), touched env id w)
  | _ => (Err (Fail AuthRequired), touched env id w)
  end.

Lemma closed_gate env id req w s token :
  w_sessions w !! id = Some s → s_required_token s = Some token → s_authed s = false →
  handle env id req w = at_gate env id token req w.
Proof.
  intros Hs Ht Ha. unfold handle. change (sbind (smod ?f) ?k w) with (k tt (f w)). cbv beta.
  assert (the_session id (touched env id w) = (Ok (upd_last_seen (now env) s), touched env id w)) as Hts.
  { unfold the_session. simpl. by rw lookup_alter_eq Hs. }
  rw (sbind_eq _ _ _ _ _ Hts). unfold at_gate. destruct req; simpl; rw ?Ha ?Ht //.
  change (default "" (Some token)) with token. destruct (decide (token0 = token)) as [->|Hne].
  - by rw (proj2 (token_eq_iff token token) eq_refl).
  - destruct (token_eq token0 token) eqn:E; [|done]. by apply token_eq_iff in E.
Qed.

(** C8.  A session of a token-protected listener that has not presented the token:
    every request but the right [Auth] is refused and changes nothing (the
    time of the last request aside), whatever the session is attached to or
    holds; the right [Auth] opens the gate and changes nothing else. *)
Theorem auth_gate env id req w s token :
  w_sessions w !! id = Some s → s_required_token s = Some token → s_authed s = false →
  handle env id req w =
  match req with
  | RqAuth t => if decide (t = token)
                then (Ok RsOk, upd_session id (upd_authed true) (touched env id w))
                else (Err (Fail PermissionDenied), touched env id w)
  | _ => (Err (Fail AuthRequired), touched env id w)
  end.
Proof. apply closed_gate. Qed.

(** ** Read-only exports *)

Lemma keeps_attach env id name : keeps w_fs (attach (GlobSet := GlobSet) env id name).
Proof. unfold attach. keeps. done. Qed.
Lemma keeps_getattr {B} (obs : W → B) env id p : keeps obs (getattr env id p).
Proof. unfold getattr. keeps. Qed.
Lemma keeps_readdir {B} (obs : W → B) env id p c : keeps obs (readdir env id p c).
Proof. unfold readdir. keeps. Qed.
Lemma keeps_read {B} (obs : W → B) env id fh o n : keeps obs (read env id fh o n).
Proof. unfold read. keeps. Qed.
Lemma keeps_readlink {B} (obs : W → B) env id p : keeps obs (readlink env id p).
Proof. unfold readlink. keeps. Qed.
Lemma keeps_release id fh : keeps w_fs (release (GlobSet := GlobSet) id fh).
Proof. unfold release. keeps. done. Qed.
Lemma keeps_open_for_read env id p flags x w :
  attached_to id x w → x_read_only x = true → w_fs (open env id p flags w).2 = w_fs w.
Proof.
  intros Hx Hro. unfold open. rw (sbind_eq _ _ _ _ _ (export_attached _ _ _ Hx)) Hro andb_true_r.
  destruct (of_write flags || of_truncate flags || of_append flags) eqn:E; [done|].
  apply orb_false_elim in E as [E _]. apply orb_false_elim in E as [_ E]. rw E.
  match goal with |- w_fs (?m w).2 = _ => enough (keeps w_fs m) as H by apply H end. keeps.
Qed.
#[local] Hint Resolve keeps_attach keeps_getattr keeps_readdir keeps_read keeps_readlink keeps_release : keeps.

(** The requests whose handler starts at the read-only gate. *)
Definition gated (req : Request) : bool :=
  match req with
  | RqCreate _ _ _ | RqWrite _ _ _ _ | RqSetattr _ _ _ _ | RqMkdir _ _ | RqUnlink _ | RqRmdir _
  | RqRename _ _ _ | RqLink _ _ | RqSymlink _ _ => true
  | _ => false
  end.

Lemma gated_read_only env id req w x :
  attached_to id x w → x_read_only x = true → gated req = true →
  dispatch_blocking env id req w = (Err (Fail ReadOnly), w).
Proof.
  intros Hx Hro. pose proof (writable_attached _ _ _ Hx) as Hw. rw Hro in Hw.
  destruct req; try done; intros _; cbn [dispatch_blocking];
    unfold create, write, setattr, mkdir, unlink, rmdir, rename, Agent.link, symlink;
    by rw (sbind_Err _ _ _ _ _ Hw).
Qed.

Lemma blocking_read_only env id req w x :
  attached_to id x w → x_read_only x = true → w_fs (dispatch_blocking env id req w).2 = w_fs w.
Proof.
  intros Hx Hro. destruct (gated req) eqn:Hg; [by rw (gated_read_only _ _ _ _ x)|].
  destruct req; try done; cbn [dispatch_blocking];
    try (match goal with |- w_fs (?m w).2 = _ => enough (keeps w_fs m) as H by apply H end; solve [eauto 3 with keeps nocore]).
  - by apply (keeps_open_for_read _ _ _ _ x).
  - unfold mount_defaults. match goal with |- w_fs (?m w).2 = _ => enough (keeps w_fs m) as H by apply H end. keeps.
Qed.

Lemma keeps_subscribe id since : keeps w_fs (subscribe_session (GlobSet := GlobSet) id since).
Proof. unfold subscribe_session. keeps. done. Qed.

(** C10.  No request of any kind, from a session attached to a read-only export,
    changes the file system: not by opening with truncation, not through a
    handle, not by a partly failing handler. *)
Theorem read_only_export_untouched env id req w x :
  attached_to id x w → x_read_only x = true →
  w_fs (handle env id req w).2 = w_fs w ∧
  (gated req = true → authed id w → (handle env id req w).1 = Err (Fail ReadOnly)).
Proof.
  intros Hx Hro. pose proof (attached_touched env _ _ _ Hx) as Hx'. split.
  - unfold handle. change (sbind (smod ?f) ?k w) with (k tt (f w)). cbv beta.
    change (w_fs w) with (w_fs (touched env id w)).
    change (upd_session id (upd_last_seen (now env)) w) with (touched env id w).
    destruct Hx' as (s & Hs & Hx'). assert (the_session id (touched env id w) = (Ok s, touched env id w)) as Hts.
    { unfold the_session. by rw Hs. }
    rw (sbind_eq _ _ _ _ _ Hts).
    assert (w_fs (dispatch_blocking env id req (touched env id w)).2 = w_fs (touched env id w)) as Hb.
    { apply (blocking_read_only _ _ _ _ x); [by eapply attached_touched|done]. }
    destruct req; try (destruct (negb (s_authed s)); [done|exact Hb]);
      match goal with |- w_fs (?m (touched env id w)).2 = _ => enough (keeps w_fs m) as H by apply H end;
      pose proof keeps_subscribe; keeps.
    done.
  - intros Hg Ha. rw handle_authed //; try (intros; by destruct req).
    by rw (gated_read_only _ _ _ _ x).
Qed.

(** ** Excluded paths *)

Lemma resolve_excluded env x p w : is_excluded (x_exclude x) p = true → resolve env x p w = (Err (Fail NotFound), w).
Proof. intros H. unfold resolve. by rw H. Qed.
Lemma resolve_new_excluded env x p w : is_excluded (x_exclude x) p = true → resolve_new env x p w = (Err (Fail NotFound), w).
Proof. intros H. unfold resolve_new. by rw H. Qed.

(** The path a request is about: the first one its handler resolves. *)
Definition req_path (req : Request) : option RelPath :=
  match req with
  | RqGetattr p | RqReaddir p _ | RqOpen p _ | RqCreate p _ _ | RqSetattr p _ _ _ | RqMkdir p _
  | RqUnlink p | RqRmdir p | RqRename p _ _ | RqLink p _ | RqSymlink _ p | RqReadLink p => Some p
  | _ => None
  end.

Definition wants_write (req : Request) : bool :=
  gated req || match req with RqOpen _ f => of_write f || of_truncate f || of_append f | _ => false end.

(** C32.  An excluded path does not exist: whatever the file system holds, every
    request about it gets the same answer -- [NotFound], or [ReadOnly] where
    the export refuses all writes -- and changes nothing. *)
Theorem excluded_is_invisible env id req w x p :
  attached_to id x w → authed id w → req_path req = Some p → is_excluded (x_exclude x) p = true →
  handle env id req w =
  (Err (Fail (if x_read_only x && wants_write req then ReadOnly else NotFound)), touched env id w).
Proof.
  intros Hx Ha Hp He. rw handle_authed //; try (intros; by destruct req). apply (attached_touched env) in Hx.
  pose proof (export_attached _ _ _ Hx) as Hex. pose proof (writable_attached _ _ _ Hx) as Hwr.
  pose proof (resolve_excluded env x p (touched env id w) He) as R1.
  pose proof (resolve_new_excluded env x p (touched env id w) He) as R2.
  destruct req; try done; cbn [req_path] in Hp; injection Hp as ->; cbn [dispatch_blocking wants_write gated orb];
    rw ?andb_false_r ?andb_true_r;
    unfold getattr, readdir, create, setattr, mkdir, unlink, rmdir, rename, Agent.link, symlink, readlink, open;
    first [rw (sbind_eq _ _ _ _ _ Hex) | destruct (x_read_only x); [by rw (sbind_Err _ _ _ _ _ Hwr)|rw (sbind_eq _ _ _ _ _ Hwr)]];
    try (by rw (sbind_Err _ _ _ _ _ R1)); try (by rw (sbind_Err _ _ _ _ _ R2)).
  rw (andb_comm (x_read_only x)). destruct (_ && _); [done|]. by rw (sbind_Err _ _ _ _ _ R1).
Qed.

(** ** Writing through a handle *)

(** Session [id] has [f] open as [fh]. *)
Definition holds id (fh : Z) (f : OpenFile) w : Prop :=
  ∃ s, w_sessions w !! id = Some s ∧ s_handles s !! fh = Some f.

Lemma handle_of_holds id fh f w : holds id fh f w → handle_of id fh w = (Ok f, w).
Proof. intros (s & Hs & Hf). unfold handle_of, sbind, the_session. by rw Hs /= /code /slift Hf. Qed.

Lemma holds_touched env id fh f w : holds id fh f w → holds id fh f (touched env id w).
Proof.
  intros (s & Hs & Hf). exists (upd_last_seen (now env) s). split; [|done]. simpl. by rw lookup_alter_eq Hs.
Qed.

Lemma file_bytes_content fs i bs : content_at fs i = Some (FileData bs) → file_bytes fs i = bs.
Proof. unfold content_at, file_bytes. by intros ->. Qed.

Lemma set_content_at t i c fs c0 : content_at fs i = Some c0 →
  content_at (set_content t i c fs) i = Some c ∧ ∀ j, j ≠ i → nodes (set_content t i c fs) !! j = nodes fs !! j.
Proof.
  unfold content_at, set_content. destruct (nodes fs !! i) as [n|]; [|done]. intros _. simpl.
  split; [by rw lookup_insert_eq|]. intros j Hj. by rw lookup_insert_ne.
Qed.

(** The transfer over an error-free schedule. *)
Lemma write_out_exact env i data off w bs :
  content_at (w_fs w) i = Some (FileData bs) →
  Forall progresses (answers env) → (length data ≤ gives (answers env))%nat →
  ∃ fs', write_out env i data off w = (Ok tt, upd_fs fs' w) ∧
    content_at fs' i = Some (FileData (splice bs (Z.to_nat off) data)) ∧
    ∀ j, j ≠ i → nodes fs' !! j = nodes (w_fs w) !! j.
Proof.
  intros Hbs Ha Hg. unfold write_out, sbind, sget. rw (file_bytes_content _ _ _ Hbs) write_fully_exact //.
  case_bool_decide as Hd.
  - subst data. exists (w_fs w). rw upd_fs_same. by split.
  - destruct (set_content_at (now env) i (FileData (splice bs (Z.to_nat off) data)) _ _ Hbs) as [H1 H2]. eauto.
Qed.

(** The book-keeping that ends every mutation: origin, then version. *)
Lemma bump_after_note env id x p w : attached_to id x w →
  let v := u64_add (vclock (x_versions x)) 1 in
  ∃ w', sbind (note_write env x p id) (λ _, bump_version x p) w = (Ok v, w') ∧ w_fs w' = w_fs w ∧
    w_sessions w' = w_sessions w ∧
    attached_to id (upd_versions (bump (x_versions x) p).2 (upd_events (note_local_write (now env) (x_events x) p id) x)) w'.
Proof.
  intros (s & Hs & Ha & Hx) v. eexists. unfold sbind, note_write, smod, bump_version. simpl.
  rw lookup_alter_eq Hx. simpl. split; [done|]. split; [done|]. split; [done|]. exists s. simpl.
  split; [done|]. split; [done|]. by rw !lookup_alter_eq Hx.
Qed.

(** A version expectation that does not match. *)
Definition conflicts x (f : OpenFile) (expect : option Z) : bool :=
  match expect with Some v => negb (bool_decide (v = version_of (x_versions x) (of_path f))) | None => false end.

(** A write that is not refused, and what it leaves of the session. *)
Lemma write_step env id w x fh f off data expect bs :
  attached_to id x w → authed id w → x_read_only x = false →
  holds id fh f w → of_writable f = true →
  content_at (w_fs w) (of_file f) = Some (FileData bs) →
  Forall progresses (answers env) → (length data ≤ gives (answers env))%nat →
  conflicts x f expect = false →
  let v := u64_add (vclock (x_versions x)) 1 in
  ∃ w' x', handle env id (RqWrite fh off data expect) w = (Ok (RsWritten (as_u32 (blen data)) v false), w') ∧
    content_at (w_fs w') (of_file f) = Some (FileData (splice bs (Z.to_nat off) data)) ∧
    (∀ i, i ≠ of_file f → nodes (w_fs w') !! i = nodes (w_fs w) !! i) ∧
    attached_to id x' w' ∧ x_read_only x' = false ∧ version_of (x_versions x') (of_path f) = v ∧
    w_sessions w' = w_sessions (touched env id w).
Proof.
  intros Hx Ha Hro Hf Hwr Hbs Hans Hg Hcf v. rw handle_authed //.
  assert (w_fs (touched env id w) = w_fs w) as Hfs by done. revert Hfs.
  apply (attached_touched env) in Hx. apply (holds_touched env) in Hf.
  generalize (touched env id w) as w1, Hx, Hf. clear Hx Hf Ha. intros w1 Hx Hf Hfs.
  cbn [dispatch_blocking]. unfold write. pose proof (writable_attached _ _ _ Hx) as Hwx. rw Hro in Hwx.
  rw (sbind_eq _ _ _ _ _ Hwx) (sbind_eq _ _ _ _ _ (handle_of_holds _ _ _ _ Hf)) Hwr. cbn [negb].
  fold (conflicts x f expect). rw Hcf -Hfs in Hbs |- *.
  destruct (write_out_exact env (of_file f) data off w1 bs Hbs Hans Hg) as (fs' & Hw & Hc & Hother).
  rw (sbind_eq _ _ _ _ _ Hw).
  assert (attached_to id x (upd_fs fs' w1)) as Hx2 by exact Hx.
  destruct (bump_after_note env id x (of_path f) _ Hx2) as (w2 & Hb & Hf2 & Hs2 & Hx3).
  assert (∀ k : Z → AgentM Response, (run! note_write env x (of_path f) id in
    let! v := bump_version x (of_path f) in k v) (upd_fs fs' w1)
    = sbind (sbind (note_write env x (of_path f) id) (λ _, bump_version x (of_path f))) k (upd_fs fs' w1)) as ->.
  { intros k. unfold sbind. by destruct (note_write env x (of_path f) id _) as [[]]. }
  rw (sbind_eq _ _ _ _ _ Hb). exists w2. eexists. split; [done|]. rw Hf2 Hs2. simpl.
  split; [done|]. split; [intros i Hi; by rw Hother // Hfs|].
  split; [exact Hx3|]. split; [done|]. split; [|done]. unfold version_of. simpl. by rw lookup_insert_eq.
Qed.

(** One that is. *)
Lemma write_conflict env id w x fh f off data expect :
  attached_to id x w → authed id w → x_read_only x = false → holds id fh f w → of_writable f = true →
  conflicts x f expect = true →
  handle env id (RqWrite fh off data expect) w = (Err (Fail Conflict), touched env id w).
Proof.
  intros Hx Ha Hro Hf Hwr Hcf. rw handle_authed //.
  apply (attached_touched env) in Hx. apply (holds_touched env) in Hf.
  cbn [dispatch_blocking]. unfold write. pose proof (writable_attached _ _ _ Hx) as Hwx. rw Hro in Hwx.
  rw (sbind_eq _ _ _ _ _ Hwx) (sbind_eq _ _ _ _ _ (handle_of_holds _ _ _ _ Hf)) Hwr. cbn [negb].
  fold (conflicts x f expect). by rw Hcf.
Qed.

(** A write through a writable handle of a writable export.  When the client
    expects another version than the file has, it is refused with [Conflict]
    and nothing changes.  Otherwise, over any error-free schedule of partial
    writes, it ends with exactly the new bytes in the file, every other inode
    as it was, and a version for the path that is one above the export's
    clock, reported to the client and kept for the next check. *)
Theorem write_refused_or_exact env id w x fh f off data expect bs :
  attached_to id x w → authed id w → x_read_only x = false →
  holds id fh f w → of_writable f = true →
  content_at (w_fs w) (of_file f) = Some (FileData bs) →
  Forall progresses (answers env) → (length data ≤ gives (answers env))%nat →
  let '(r, w') := handle env id (RqWrite fh off data expect) w in
  if conflicts x f expect then r = Err (Fail Conflict) ∧ w' = touched env id w
  else
    let v := u64_add (vclock (x_versions x)) 1 in
    r = Ok (RsWritten (as_u32 (blen data)) v false) ∧
    file_bytes (w_fs w') (of_file f) = splice bs (Z.to_nat off) data ∧
    (∀ i, i ≠ of_file f → nodes (w_fs w') !! i = nodes (w_fs w) !! i) ∧
    ∃ x', attached_to id x' w' ∧ version_of (x_versions x') (of_path f) = v.
Proof.
  intros Hx Ha Hro Hf Hwr Hbs Hans Hg. destruct (conflicts x f expect) eqn:Hcf.
  - by rw (write_conflict env id w x fh f off data expect).
  - destruct (write_step env id w x fh f off data expect bs) as (w' & x' & -> & Hc & Ho & Hx' & _ & Hv & _); try done.
    split; [done|]. split; [by apply file_bytes_content|]. eauto.
Qed.

(** ** Listings *)

(** What the listing loop collects. *)
Definition items_of env x (rel : RelPath) (full : list string) (fs : Fs) (items : list (string * Z)) : list (string * Attr) :=
  omap (λ '(name, _), if utf8_valid name && negb (is_excluded (x_exclude x) (RelPath.join rel name)) then
      match (symlink_metadata env (full ++ [name]) fs).1 with
      | Ok md => Some (name, attr_from_metadata md (version_of (x_versions x) (RelPath.join rel name)))
      | Err _ => None
      end else None) items.

Lemma fs_try_looks {A} (m : M Fs IoErrorKind A) w : keeps same m → fs_try m w = (Ok (m (w_fs w)).1, w).
Proof.
  intros Hm. unfold fs_try. specialize (Hm (w_fs w)). destruct (m (w_fs w)) as [r fs]. unfold same in Hm.
  simpl in *. subst fs. by rw upd_fs_same.
Qed.

Lemma list_items_eq env x rel full items w :
  list_items env x rel full items w = (Ok (items_of env x rel full (w_fs w) items), w).
Proof.
  induction items as [|[name i] items IH]; [done|]. cbn [list_items items_of omap list_omap]. unfold to_str.
  destruct (utf8_valid name); [|exact IH]. destruct (is_excluded _ _); [exact IH|]. cbn [andb negb].
  rw (sbind_eq _ _ _ _ _ (fs_try_looks _ w (keeps_symlink_metadata env _))).
  destruct (symlink_metadata env (full ++ [name]) (w_fs w)).1 as [md|e] eqn:E; cbn [sret].
  - rw (sbind_eq (sret _) _ _ _ _ eq_refl). by rw (sbind_eq _ _ _ _ _ IH).
  - rw (sbind_eq _ _ _ _ _ (fs_try_looks _ w (keeps_symlink_metadata env _))) E. exact IH.
Qed.

Lemma resolve_unchecked_fs env root p w1 w2 : w_fs w1 = w_fs w2 →
  (resolve_unchecked env root p w1).1 = (resolve_unchecked env root p w2).1.
Proof.
  intros He. unfold resolve_unchecked, sbind, code, slift. destruct (RelPath.validate p); [simpl|done].
  destruct (RelPath.is_root p); [done|]. unfold fs_call. rw He. destruct (canonicalize env _ (w_fs w2)) as [[c|e] fs]; [|done].
  simpl. by repeat case_bool_decide.
Qed.

(** Resolution looks at the file system only. *)
Lemma resolve_fs env x p w1 w2 full : w_fs w1 = w_fs w2 → resolve env x p w1 = (Ok full, w1) → resolve env x p w2 = (Ok full, w2).
Proof.
  intros He Hr. pose proof (keeps_resolve (λ w, w) env x p w2) as Hk.
  enough ((resolve env x p w2).1 = Ok full) as H. { destruct (resolve env x p w2) as [r w']. simpl in *. by subst. }
  apply (f_equal fst) in Hr. simpl in Hr. rw -Hr. clear Hr Hk. unfold resolve. destruct (is_excluded _ _); [done|].
  pose proof (resolve_unchecked_fs env (x_root x) p w1 w2 He) as Hu. unfold sbind.
  destruct (resolve_unchecked env _ p w1) as [r1 w1'], (resolve_unchecked env _ p w2) as [r2 w2']. simpl in Hu. subst r2.
  destruct r1 as [f|]; [|done]. destruct (negb _); [|done]. destruct (stripped _ f) as [q|]; [|done]. by destruct (is_excluded _ q).
Qed.

(** A client paging through a listing. *)
Fixpoint fetch_all env id (p : RelPath) (fuel : nat) (cursor : Z) w : option (list DirEntry) :=
  match fuel with
  | O => None
  | S fuel =>
      match handle env id (RqReaddir p cursor) w with
      | (Ok (RsDir es next), w') =>
          match next with None => Some es | Some c => app es <$> fetch_all env id p fuel c w' end
      | _ => None
      end
  end.

Lemma page_pos : (1 ≤ READDIR_PAGE)%nat.
Proof. unfold READDIR_PAGE. lia. Qed.

#[local] Opaque READDIR_PAGE.

(** Paging over a fixed listing reads all of it, in at most one page per entry. *)
Lemma fetch_pages env id p (L : list DirEntry) :
  ∀ w (Q : W → Prop), Q w →
  (∀ w c, Q w → ∃ w', Q w' ∧ handle env id (RqReaddir p c) w = (Ok (RsDir (page L c).1 (page L c).2), w')) →
  ∀ fuel c, (length L - c < fuel)%nat → (c ≤ length L)%nat →
  fetch_all env id p fuel (Z.of_nat c) w = Some (drop c L).
Proof.
  intros w Q HQ Hstep fuel. revert w HQ. induction fuel as [|fuel IH]; intros w HQ c Hf Hc; [lia|].
  cbn [fetch_all]. destruct (Hstep w (Z.of_nat c) HQ) as (w' & HQ' & ->).
  pose proof page_pos as Hpos. unfold page. rw Nat2Z.id. cbn [fst snd].
  assert (length (take READDIR_PAGE (drop c L)) = Nat.min READDIR_PAGE (length L - c)) as Hl by (by rw length_take length_drop).
  case_bool_decide as Hlt.
  - rw IH //; [|lia|lia]. simpl. f_equal. rw Hl -{2}(take_drop READDIR_PAGE (drop c L)). f_equal.
    rw drop_drop. f_equal. lia.
  - f_equal. apply take_ge. rw length_drop. lia.
Qed.

(** The names a listing shows. *)
Definition served x (rel : RelPath) (name : string) : Prop :=
  utf8_valid name = true ∧ is_excluded (x_exclude x) (RelPath.join rel name) = false.
#[local] Instance served_dec x rel name : Decision (served x rel name).
Proof. unfold served. apply _. Defined.

(** In a fault-free environment the loop keeps exactly the served names. *)
Lemma items_of_names env x rel s es fs items :
  (∀ c q, fault env c q = None) → real fs s → content_at fs (ino_of s) = Some (DirData es) →
  (∀ n i, (n, i) ∈ items → es !! n = Some i ∧ n ≠ "" ∧ n ≠ "." ∧ n ≠ ".." ∧ is_Some (content_at fs i)) →
  (items_of env x rel (path_of s) fs items).*1 = base.filter (served x rel) items.*1.
Proof.
  intros Hnf Hs Hd Hok. induction items as [|[n i] items IH]; [done|].
  specialize (IH (λ n' i' H, Hok n' i' (list_elem_of_further _ _ _ H))).
  destruct (Hok n i ltac:(apply list_elem_of_here)) as (Hn & H1 & H2 & H3 & [c Hc]).
  rw fmap_cons filter_cons. cbn [items_of omap list_omap fst].
  destruct (utf8_valid n) eqn:Eu; [|rw decide_False; [exact IH|intros [? _]; congruence]].
  destruct (is_excluded (x_exclude x) (RelPath.join rel n)) eqn:Ee; [rw decide_False; [exact IH|intros [_ ?]; congruence]|].
  cbn [andb negb]. rw decide_True //.
  assert (∃ md, (symlink_metadata env (path_of s ++ [n]) fs).1 = Ok md) as [md ->]; [|rw fmap_cons; by f_equal].
  unfold symlink_metadata, guard. rw Hnf. unfold sbind, sret, sget, slift, find. cbn -[place].
  rw place_real // walk_cons Hd !bool_decide_false //. cbn [orb]. rw Hn Hc.
  assert (∃ m, node_at fs i = Ok m) as [m Hm].
  { unfold content_at in Hc. unfold node_at. destruct (nodes fs !! i); [by eexists|done]. }
  destruct c; rw ?walk_nil /= Hm; by eexists.
Qed.

(** The sorted listing the pages are cut from. *)
Definition listing env x (p : RelPath) (s : Stack) (es : gmap string Z) (fs : Fs) : list DirEntry :=
  dir_entry <$> merge_sort key_le (items_of env x p (path_of s) fs (map_to_list es)).

(** One page. *)
Lemma readdir_page env id x w p s es c :
  attached_to id x w → authed id w → (∀ c q, fault env c q = None) →
  resolve env x p w = (Ok (path_of s), w) → real (w_fs w) s →
  content_at (w_fs w) (ino_of s) = Some (DirData es) →
  let L := listing env x p s es (w_fs w) in
  handle env id (RqReaddir p c) w = (Ok (RsDir (page L c).1 (page L c).2), touched env id w).
Proof.
  intros Hx Ha Hnf Hr Hs Hd L. apply (attached_touched env) in Hx. rw handle_authed //.
  cbn [dispatch_blocking]. unfold readdir. rw (sbind_eq _ _ _ _ _ (export_attached _ _ _ Hx)).
  assert (resolve env x p (touched env id w) = (Ok (path_of s), touched env id w)) as Hr1 by (by apply (resolve_fs env x p w)).
  rw (sbind_eq _ _ _ _ _ Hr1).
  assert (fs_call (read_dir env (path_of s)) (touched env id w) = (Ok (map_to_list es), touched env id w)) as Hrd.
  { unfold fs_call. change (w_fs (touched env id w)) with (w_fs w).
    unfold read_dir, guard. rw Hnf. unfold sbind, sret, sget, slift. cbn -[find]. rw find_real //.
    unfold content_at in Hd. unfold node_at. destruct (nodes (w_fs w) !! ino_of s) as [n|]; [|done].
    simpl in Hd |- *. injection Hd as ->. simpl. by f_equal. }
  rw (sbind_eq _ _ _ _ _ Hrd) (sbind_eq _ _ _ _ _ (list_items_eq _ _ _ _ _ _)).
  change (w_fs (touched env id w)) with (w_fs w). fold (listing env x p s es (w_fs w)). fold L. by destruct (page L c).
Qed.

Lemma authed_touched env id w : authed id w → authed id (touched env id w).
Proof. intros (s1 & Hs1 & ?). exists (upd_last_seen (now env) s1). split; [|done]. simpl. by rw lookup_alter_eq Hs1. Qed.

(** Its names: the served ones, in byte order, each once. *)
Lemma listing_names env x p s es fs :
  (∀ c q, fault env c q = None) → real fs s → content_at fs (ino_of s) = Some (DirData es) →
  (∀ n i, es !! n = Some i → n ≠ "" ∧ n ≠ "." ∧ n ≠ ".." ∧ is_Some (content_at fs i)) →
  let L := listing env x p s es fs in
  (length L ≤ size es)%nat ∧ StronglySorted String.le (de_name <$> L) ∧
  (de_name <$> L) ≡ₚ base.filter (served x p) (map_to_list es).*1.
Proof.
  intros Hnf Hs Hd Hwf L. set (its := items_of env x p (path_of s) fs (map_to_list es)).
  assert (its.*1 = base.filter (served x p) (map_to_list es).*1) as Hits.
  { apply (items_of_names _ _ _ _ es); try done. intros n i Hin%elem_of_map_to_list. split; [done|by apply Hwf in Hin]. }
  assert (de_name <$> L = (merge_sort key_le its).*1) as Hnames.
  { unfold L, listing. fold its. rw -list_fmap_compose. by apply list_fmap_ext. }
  split_and!.
  - unfold L, listing. rw length_fmap merge_sort_Permutation -(length_fmap fst). fold its. rw Hits.
    etrans; [apply length_filter|]. by rw length_fmap length_map_to_list.
  - rw Hnames. assert (StronglySorted key_le (merge_sort key_le its)) as Hss by apply (StronglySorted_merge_sort _).
    clear -Hss. induction Hss as [|a l Hl IH Hall]; constructor; [done|]. apply Forall_fmap. eapply Forall_impl; [done|]. done.
  - by rw Hnames merge_sort_Permutation Hits.
Qed.

(** A client that pages through a directory with the cursors it is given gets
    every name that is valid UTF-8 and not excluded, exactly once, in byte
    order, and no other name -- in at most one request per entry plus one. *)
Theorem readdir_lists_all env id x w p s es :
  attached_to id x w → authed id w → (∀ c q, fault env c q = None) →
  resolve env x p w = (Ok (path_of s), w) → real (w_fs w) s →
  content_at (w_fs w) (ino_of s) = Some (DirData es) →
  (∀ n i, es !! n = Some i → n ≠ "" ∧ n ≠ "." ∧ n ≠ ".." ∧ is_Some (content_at (w_fs w) i)) →
  ∃ L, fetch_all env id p (S (size es)) 0 w = Some L ∧
    StronglySorted String.le (de_name <$> L) ∧
    (de_name <$> L) ≡ₚ base.filter (served x p) (map_to_list es).*1.
Proof.
  intros Hx Ha Hnf Hr Hs Hd Hwf. destruct (listing_names env x p s es (w_fs w) Hnf Hs Hd Hwf) as (Hl & Hss & Hp).
  exists (listing env x p s es (w_fs w)). split; [|by split]. rw -(drop_0 (listing _ _ _ _ _ _)). change 0 with (Z.of_nat 0).
  apply (fetch_pages env id p _ w (λ w1, attached_to id x w1 ∧ authed id w1 ∧ w_fs w1 = w_fs w)); [done| |lia|lia].
  intros w1 c (Hx1 & Ha1 & Hf1). exists (touched env id w1). split.
  - split; [by apply attached_touched|]. split; [by apply authed_touched|done].
  - rw -Hf1. apply readdir_page; rw ?Hf1 //. by apply (resolve_fs env x p w).
Qed.

(** ** The end of a session *)

(** A session that disconnects holds nothing any more: its handles are closed,
    its push handle is dropped, the reaper forgets it, and in its export no
    lock and no queued waiter is left of it, while every other session's locks
    stay as they were; no file changes. *)
Theorem disconnected_releases_all id x w :
  attached_to id x w →
  let '(r, w') := disconnected id w in
  r = Ok tt ∧ w_fs w' = w_fs w ∧
  (∃ s, w_sessions w' !! id = Some s ∧ s_handles s = ∅ ∧ s_push s = false ∧ s_registered s = false) ∧
  ∃ x', w_exports w' !! x_name x = Some x' ∧
    (∀ p e, x_locks x' !! p = Some e →
       Forall (λ h, h_session h ≠ id) (holders e) ∧ Forall (λ q, w_session q ≠ id) (waiters e)) ∧
    (∀ p, holders (default entry_default (x_locks x' !! p)) =
          retain (λ h, negb (bool_decide (h_session h = id))) (holders (default entry_default (x_locks x !! p)))).
Proof.
  intros (s & Hs & Ha & Hx). unfold disconnected, force_release, attached_export, sbind, the_session, smod.
  rw Hs. cbn [mbind option_bind]. rw Ha. cbn [mbind option_bind]. rw Hx.
  pose proof (release_session_spec (x_locks x) id) as Hrel.
  destruct (Locks.release_session (x_locks x) id) as [[n lm] chs]. destruct Hrel as (_ & H1 & H2). simpl. rw Hs /=.
  split; [done|]. split; [done|]. split.
  - rw !lookup_alter_eq Hs /=. by eexists.
  - rw lookup_alter_eq Hx /=. eexists. split; [done|]. split; [exact H1|exact H2].
Qed.
End Handlers.
#[export] Hint Resolve keeps_fs_call keeps_fs_try keeps_code keeps_fail_code keeps_the_session keeps_attached
  keeps_export keeps_writable keeps_handle_of keeps_resolve_unchecked keeps_resolve keeps_resolve_new
  keeps_list_items keeps_insert_handle keeps_note keeps_bump keeps_do_unlock keeps_do_lock keeps_attach keeps_getattr
  keeps_readdir keeps_read keeps_readlink keeps_release keeps_subscribe : keeps.

Lemma auth_gate_witness :
  let w := Demo.locked "s3cret" in
  (handle Demo.env 1 (RqUnlink "note") w).1 = Err (Fail AuthRequired) ∧
  handle Demo.env 1 (RqAuth "s3cret") w = (Ok RsOk, upd_session 1 (upd_authed true) (touched Demo.env 1 w)).
Proof.
  intros w. split.
  - by rw (auth_gate Demo.env 1 (RqUnlink "note") w (Demo.session (Some "s3cret")) "s3cret").
  - by rw (auth_gate Demo.env 1 (RqAuth "s3cret") w (Demo.session (Some "s3cret")) "s3cret").
Defined.

Lemma read_only_export_untouched_witness :
  let w := Demo.world true [] in
  w_fs (handle Demo.env 1 (RqUnlink "note") w).2 = w_fs w ∧
  (handle Demo.env 1 (RqUnlink "note") w).1 = Err (Fail ReadOnly).
Proof.
  intros w. assert (attached_to 1 (Demo.export true []) w) as Hx by (by exists (Demo.session None)).
  destruct (read_only_export_untouched Demo.env 1 (RqUnlink "note") w (Demo.export true []) Hx eq_refl) as [H1 H2].
  split; [exact H1|]. apply H2; [reflexivity|]. by exists (Demo.session None).
Defined.

Lemma excluded_is_invisible_witness :
  let w := Demo.world false ["private"] in
  handle Demo.env 1 (RqGetattr "private/key") w = (Err (Fail NotFound), touched Demo.env 1 w).
Proof.
  intros w. apply (excluded_is_invisible Demo.env 1 (RqGetattr "private/key") w (Demo.export false ["private"]) "private/key").
  - by exists (Demo.session None).
  - by exists (Demo.session None).
  - reflexivity.
  - vm_compute. reflexivity.
Defined.

Lemma write_refused_or_exact_witness :
  let f := mkOpenFile 5 ["srv"; "data"; "note"] "note" true in
  let '(r, w') := handle Demo.env 1 (RqWrite 1 1 [69; 76] (Some 0)) Demo.opened in
  r = Ok (RsWritten 2 1 false) ∧ file_bytes (w_fs w') 5 = as_bytes "hELlo" ∧
  handle Demo.env 1 (RqWrite 1 1 [69; 76] (Some 7)) Demo.opened = (Err (Fail Conflict), touched Demo.env 1 Demo.opened).
Proof.
  intros f. assert (attached_to 1 (Demo.export false []) Demo.opened) as Hx by (by eexists).
  assert (authed 1 Demo.opened) as Ha by (by eexists).
  assert (holds 1 1 f Demo.opened) as Hf by (by eexists).
  assert (Forall progresses (answers Demo.env)) as Hp by (repeat (constructor; [cbn [progresses]; lia|]); constructor).
  assert (length [69; 76] ≤ gives (answers Demo.env))%nat as Hg by (vm_compute; lia).
  pose proof (write_refused_or_exact Demo.env 1 Demo.opened (Demo.export false []) 1 f 1 [69; 76] (Some 0)
    (as_bytes "hello") Hx Ha eq_refl Hf eq_refl eq_refl Hp Hg) as H0.
  pose proof (write_refused_or_exact Demo.env 1 Demo.opened (Demo.export false []) 1 f 1 [69; 76] (Some 7)
    (as_bytes "hello") Hx Ha eq_refl Hf eq_refl eq_refl Hp Hg) as H7.
  destruct (handle Demo.env 1 (RqWrite 1 1 [69; 76] (Some 0)) Demo.opened) as [r w'].
  destruct (handle Demo.env 1 (RqWrite 1 1 [69; 76] (Some 7)) Demo.opened) as [r7 w7].
  destruct H0 as (H1 & H2 & _). destruct H7 as (-> & ->). split; [exact H1|]. split; [exact H2|reflexivity].
Defined.

Lemma readdir_lists_all_witness :
  let w := Demo.world false ["private"] in
  ∃ L, fetch_all Demo.env 1 "" 3 0 w = Some L ∧ (de_name <$> L) ≡ₚ ["note"].
Proof.
  intros w. set (s := [("data", 4); ("srv", 3)]).
  set (es := list_to_map [("note", 5); ("private", 6)] : gmap string Z).
  destruct (readdir_lists_all Demo.env 1 (Demo.export false ["private"]) w "" s es) as (L & HL & _ & Hp).
  - by exists (Demo.session None).
  - by exists (Demo.session None).
  - reflexivity.
  - vm_compute. reflexivity.
  - repeat (econstructor; try (vm_compute; reflexivity); try discriminate).
  - vm_compute. reflexivity.
  - intros n i Hn. unfold es in Hn. simpl in Hn.
    destruct (decide (n = "note")) as [->|]; [vm_compute in Hn; injection Hn as <-; repeat split; try discriminate; vm_compute; by eexists|].
    destruct (decide (n = "private")) as [->|]; [vm_compute in Hn; injection Hn as <-; repeat split; try discriminate; vm_compute; by eexists|].
    rw !lookup_insert_ne in Hn; try done.
  - exists L. split; [exact HL|]. etrans; [exact Hp|]. vm_compute. reflexivity.
Defined.

Lemma disconnected_releases_all_witness :
  (disconnected 1 Demo.opened).1 = Ok tt.
Proof.
  pose proof (disconnected_releases_all 1 (Demo.export false []) Demo.opened ltac:(by eexists)) as H.
  destruct (disconnected 1 Demo.opened) as [r w']. apply H.
Defined.
