(* ===== verification/Confine.v ===== *)
(** * Confine: which files a client can reach

    The boundary of an export.  [resolve] only ever yields real paths below
    the export's root, and every request that works on its result changes
    files inside the export only; what [open] hands out is inside too.  The
    boundary leaks where a handler follows a link at the end of a path that
    [resolve_new] built: the last theorems are runs of the agent that read a
    file outside the export, read an excluded file, and delete through a
    link. *)

From S2P Require Import Prelude Messages Common Exclude Locks EventHub Fs Agent AgentFacts.

Section Confine.
Context {Glob GlobSet : Type} `{G : Globs Glob GlobSet}.
#[local] Abbreviation W := (World (GlobSet := GlobSet)).
Implicit Types (w : W) (x : Export (GlobSet := GlobSet)) (env : Env) (id : Z).

(** The export's root is still the real directory it was at startup. *)
Definition root_real x (fs : Fs) : Prop :=
  ∃ s es, real fs s ∧ path_of s = x_root x ∧ content_at fs (ino_of s) = Some (DirData es).

(** An inode inside the export, or not yet taken. *)
Definition inside x (fs : Fs) (i : Z) : Prop :=
  i = next_ino fs ∨ ∃ s, real fs s ∧ x_root x `prefix_of` path_of s ∧ ino_of s = i.

Lemma fs_call_Ok {A} (m : M Fs IoErrorKind A) w a w' :
  fs_call (GlobSet := GlobSet) m w = (Ok a, w') → m (w_fs w) = (Ok a, w_fs w') ∧ w' = upd_fs (w_fs w') w.
Proof. unfold fs_call. destruct (m (w_fs w)) as [[b|e] fs]; intros [= <- <-]; done. Qed.

Lemma code_Ok {A} (r : result A ErrorCode) w a w' : code (GlobSet := GlobSet) r w = (Ok a, w') → r = Ok a ∧ w' = w.
Proof. unfold code, slift. destruct r; simpl; intros [= <- <-]; done. Qed.

Lemma resolve_unchecked_Ok env x rel w full w' :
  root_real x (w_fs w) → resolve_unchecked env (x_root x) rel w = (Ok full, w') →
  w' = w ∧ ∃ s, real (w_fs w) s ∧ full = path_of s ∧ x_root x `prefix_of` full
    ∧ RelPath.validate rel = Ok tt
    ∧ (rel ≠ "" → find (w_fs w) true (x_root x ++ split_on slash rel) = Ok s).
Proof.
  intros (s0 & es0 & Hs0 & Hroot & _) H. apply sbind_Ok in H as ([] & w1 & [Hv ->]%code_Ok & H).
  unfold RelPath.is_root, str_is_empty in H. case_bool_decide as Hrel.
  { injection H as <- <-. split; [done|]. exists s0. by split_and!. }
  apply sbind_Ok in H as (canon & w1 & [Hc Hw1]%fs_call_Ok & H).
  apply canonicalize_real in Hc as (Heq & s & Hs & -> & Hf). rw Heq upd_fs_same in Hw1. subst w1.
  case_bool_decide as Hp; [|done]. injection H as <- <-. split; [done|]. exists s. by split_and!.
Qed.

Lemma resolve_Ok env x rel w full w' :
  root_real x (w_fs w) → resolve env x rel w = (Ok full, w') →
  w' = w ∧ ∃ s, real (w_fs w) s ∧ full = path_of s ∧ x_root x `prefix_of` full
    ∧ RelPath.validate rel = Ok tt
    ∧ (rel ≠ "" → find (w_fs w) true (x_root x ++ split_on slash rel) = Ok s).
Proof.
  intros Hr H. unfold resolve in H. destruct (is_excluded _ _); [done|].
  apply sbind_Ok in H as (f & w1 & H1 & H). apply resolve_unchecked_Ok in H1 as (-> & s & Hs); [|done].
  assert (f = full ∧ w' = w) as [-> ->]; [|split; [done|by exists s]].
  destruct (negb _); [|by injection H as <- <-]. destruct (stripped _ _) as [p|]; [|by injection H as <- <-].
  destruct (is_excluded (x_exclude x) p); [done|by injection H as <- <-].
Qed.

Lemma resolve_new_Ok env x rel w full w' :
  root_real x (w_fs w) → resolve_new env x rel w = (Ok full, w') →
  w' = w ∧ ∃ d leaf, real (w_fs w) d ∧ x_root x `prefix_of` path_of d ∧ good_component leaf ∧ full = path_of d ++ [leaf].
Proof.
  intros Hr H. unfold resolve_new in H. destruct (is_excluded _ _); [done|].
  apply sbind_Ok in H as ([] & w1 & [Hv ->]%code_Ok & H).
  apply sbind_Ok in H as ([parent leaf] & w1 & [Hsp ->]%code_Ok & H).
  destruct (RelPath.split rel) as [[p l]|] eqn:E; [|done]. injection Hsp as <- <-.
  destruct (split_valid _ _ _ Hv E) as (_ & Hl & _).
  apply sbind_Ok in H as (pf & w1 & (-> & d & Hd & -> & Hp & _)%resolve_Ok & H); [|done].
  injection H as <- <-. split; [done|]. by exists d, l.
Qed.

(** ** Following a handler *)

Definition within (P : Z → Prop) {E A} (m : M W E A) w : Prop :=
  changes_only P (w_fs w) (w_fs (m w).2).

Lemma within_keeps (P : Z → Prop) {E A} (m : M W E A) w : keeps w_fs m → within P m w.
Proof. intros H. unfold within. rw H. apply changes_refl. Qed.

(** A first part that only looks. *)
Lemma within_looks (P : Z → Prop) {E A B} (m : M W E A) (f : A → M W E B) w :
  keeps id m → (∀ a, m w = (Ok a, w) → within P (f a) w) → within P (sbind m f) w.
Proof.
  intros Hm Hf. unfold within, sbind in *. specialize (Hm w). destruct (m w) as [[a|e] w1]; simpl in Hm; subst w1.
  - by apply Hf.
  - apply changes_refl.
Qed.

(** A last part that only keeps its books. *)
Lemma within_tail (P : Z → Prop) {E A B} (m : M W E A) (f : A → M W E B) w :
  within P m w → (∀ a, keeps w_fs (f a)) → within P (sbind m f) w.
Proof.
  intros Hm Hf. unfold within, sbind in *. destruct (m w) as [[a|e] w1]; [|done]. simpl in *. by rw Hf.
Qed.

Lemma within_fs_call (P : Z → Prop) {A} (m : M Fs IoErrorKind A) w :
  changes_only P (w_fs w) (m (w_fs w)).2 → within P (fs_call m) w.
Proof. unfold within, fs_call. by destruct (m (w_fs w)). Qed.

(** Nothing but the shape-preserving changes so far, then a part judged in
    the state it reaches. *)
Lemma within_bind (P : Z → Prop) {E A B} (m : M W E A) (f : A → M W E B) w :
  within P m w → (∀ a w1, m w = (Ok a, w1) → within P (f a) w1) → within P (sbind m f) w.
Proof.
  intros Hm Hf. unfold within, sbind in *. destruct (m w) as [[a|e] w1]; [|done].
  eapply changes_trans; [exact Hm|]. by apply Hf.
Qed.

Lemma keeps_rename_versions x from to : keeps w_fs (rename_versions x from to).
Proof. intros w. unfold rename_versions. by destruct (_ !! _). Qed.
#[local] Hint Resolve keeps_rename_versions : keeps.

(** The prologue of a mutating handler on a resolved path. *)
Ltac gate Hx :=
  apply within_looks; [keeps|];
  let a := fresh "a" in let Ha := fresh "Ha" in intros a Ha;
  rw (writable_attached _ _ _ Hx) in Ha; destruct (x_read_only _); [discriminate Ha|];
  injection Ha as <-.

Section Requests.
Context (env : Env) (id : Z) (x : Export (GlobSet := GlobSet)) (w : W).
Context (Hx : attached_to id x w) (Hroot : root_real x (w_fs w)).
#[local] Abbreviation In := (inside x (w_fs w)).

Lemma inside_dir d : real (w_fs w) d → x_root x `prefix_of` path_of d → In (ino_of d).
Proof. intros. right. by exists d. Qed.

(** The directory of an inside path that is not the root itself. *)
Lemma inside_parent s : real (w_fs w) s → x_root x `prefix_of` path_of s → x_root x ≠ path_of s → In (ino_of (tail s)).
Proof.
  intros Hs Hp Hne. right. exists (tail s). split_and!; [by apply real_tail| |done].
  destruct s as [|[c i] s]; [done|]. rw path_of_cons in Hp, Hne. simpl.
  destruct Hp as [k Hk]. destruct k as [|k1 k _] using rev_ind; [rw app_nil_r in Hk; congruence|].
  rw app_assoc in Hk. apply app_inj_tail in Hk as [Hk _]. by exists k.
Qed.

Lemma mkdir_within p m : within In (mkdir env id p m) w.
Proof using Hx Hroot.
  unfold mkdir. gate Hx. apply within_looks; [keeps|]. intros full (_ & d & leaf & Hd & Hp & Hl & ->)%resolve_new_Ok; [|done].
  apply within_tail; [|keeps]. apply within_fs_call. eapply changes_weaken; [|by apply create_dir_changes].
  intros i [->| ->]; [by apply inside_dir|by left].
Qed.

Lemma symlink_within t p : within In (symlink env id t p) w.
Proof using Hx Hroot.
  unfold symlink. gate Hx. apply within_looks; [keeps|]. intros full (_ & d & leaf & Hd & Hp & Hl & ->)%resolve_new_Ok; [|done].
  apply within_looks; [keeps|]. intros landing _. destruct (is_excluded _ _); [apply within_keeps; keeps|].
  apply within_tail; [|keeps]. apply within_fs_call. eapply changes_weaken; [|by apply sys_symlink_changes].
  intros i [->| ->]; [by apply inside_dir|by left].
Qed.

Lemma link_within t p : within In (Agent.link env id t p) w.
Proof using Hx Hroot.
  unfold Agent.link. gate Hx. apply within_looks; [keeps|]. intros tf _.
  apply within_looks; [keeps|]. intros full (_ & d & leaf & Hd & Hp & Hl & ->)%resolve_new_Ok; [|done].
  apply within_tail; [|keeps]. apply within_fs_call. eapply changes_weaken; [|by apply hard_link_changes].
  intros i [->| ->]; [by apply inside_dir|by left].
Qed.

(** Removing a file, or the directory a non-empty path leads to: what changes
    is a directory of the export, since the root is no file and not below
    itself. *)
Lemma remove_file_inside s : real (w_fs w) s → x_root x `prefix_of` path_of s →
  changes_only In (w_fs w) (remove_file env (path_of s) (w_fs w)).2.
Proof using Hroot.
  intros Hs Hp. eapply changes_weaken; [|by apply remove_file_changes]. intros i (_ & -> & Hnd). apply inside_parent; [done|done|].
  intros He. destruct Hroot as (s0 & es & Hs0 & Hr0 & Hd). apply (Hnd es).
  assert (s = s0) as -> by (apply (real_path_inj (w_fs w)); congruence). done.
Qed.

Lemma remove_dir_inside p s : real (w_fs w) s → x_root x `prefix_of` path_of s → p ≠ "" →
  RelPath.validate p = Ok tt → find (w_fs w) true (x_root x ++ split_on slash p) = Ok s →
  changes_only In (w_fs w) (remove_dir env (path_of s) (w_fs w)).2.
Proof using Hroot.
  intros Hs Hp Hne Hv Hf. eapply changes_weaken; [|by apply remove_dir_changes]. intros i (_ & -> & Hnd). apply inside_parent; [done|done|].
  intros He. destruct Hroot as (s0 & es & Hs0 & Hr0 & Hd).
  assert (s = s0) as -> by (apply (real_path_inj (w_fs w)); congruence).
  apply validate_nonroot in Hv; [|done]. rw -Hr0 in Hf.
  destruct (split_on slash p) as [|c rest] eqn:Ep; [by apply split_on_nonempty in Ep|].
  apply Forall_cons in Hv as [(H1 & H2 & H3 & _) _]. by apply find_below_empty in Hf.
Qed.

Lemma unlink_within p : within In (unlink env id p) w.
Proof using Hx Hroot.
  unfold unlink. gate Hx. apply within_looks; [keeps|].
  intros full (_ & s & Hs & -> & Hp & _)%resolve_Ok; [|done].
  apply within_tail; [|keeps]. by apply within_fs_call, remove_file_inside.
Qed.

Lemma rmdir_within p : p ≠ "" → within In (rmdir env id p) w.
Proof using Hx Hroot.
  intros Hne. unfold rmdir. gate Hx. apply within_looks; [keeps|].
  intros full (_ & s & Hs & -> & Hp & Hv & Hf)%resolve_Ok; [|done].
  apply within_tail; [|keeps]. apply within_fs_call, (remove_dir_inside p); auto.
Qed.

Lemma rename_within from to r : within In (rename env id from to r) w.
Proof using Hx Hroot.
  unfold rename. gate Hx. apply within_looks; [keeps|].
  intros ff (_ & s & Hs & -> & Hp & _)%resolve_Ok; [|done].
  apply within_looks; [keeps|]. intros full (_ & d & leaf & Hd & Hpd & Hl & ->)%resolve_new_Ok; [|done].
  apply within_looks; [keeps|]. intros taken _. destruct taken; [apply within_keeps; keeps|].
  apply within_tail; [|keeps]. apply within_fs_call.
  eapply changes_weaken; [|by apply sys_rename_changes]. intros i (_ & Hnp & [->| ->]); [|by apply inside_dir].
  apply inside_parent; [done|done|]. intros He. apply Hnp. by rw -He.
Qed.

Lemma open_within p flags : within In (open env id p flags) w.
Proof using Hx Hroot.
  unfold open. apply within_looks; [keeps|]. intros a Ha. rw (export_attached _ _ _ Hx) in Ha. injection Ha as <-.
  destruct (_ && _); [apply within_keeps; keeps|]. apply within_looks; [keeps|].
  intros full (_ & s & Hs & -> & Hp & _)%resolve_Ok; [|done].
  apply within_tail; [|keeps]. apply within_fs_call.
  eapply changes_weaken; [|by apply open_changes]. intros i <-. by apply inside_dir.
Qed.

Lemma create_new_within p flags m : of_excl flags = true → within In (create env id p flags m) w.
Proof using Hx Hroot.
  intros He. unfold create. gate Hx. rw He. apply within_looks; [keeps|].
  intros full (_ & d & leaf & Hd & Hp & Hl & ->)%resolve_new_Ok; [|done].
  apply within_bind.
  - apply within_fs_call. eapply changes_weaken; [|by apply open_new_changes].
    intros i [->| ->]; [by apply inside_dir|by left].
  - intros f w1 [Hf Hw1]%fs_call_Ok. apply within_tail; [|keeps]. apply within_fs_call.
    eapply changes_weaken; [|apply set_mode_changes]. intros i <-.
    rw (open_new_fresh _ _ _ _ _ Hf). by left.
Qed.

(** One of the optional steps of [setattr], on the file at a real path. *)
Definition setattr_step {V} (full : list string) (o : option V) (g : Z → V → M Fs IoErrorKind unit) : AgentM (GlobSet := GlobSet) unit :=
  match o with
  | Some v => let! f := open_for_write env full in fs_call (g f v)
  | None => sret tt
  end.

Lemma setattr_step_within {V} s (o : option V) g w1 :
  real (w_fs w1) s → In (ino_of s) →
  (∀ fs v, changes_only (eq (ino_of s)) fs (g (ino_of s) v fs).2 ∧ same_tree fs (g (ino_of s) v fs).2) →
  within In (setattr_step (path_of s) o g) w1 ∧
  ∀ a w2, setattr_step (path_of s) o g w1 = (Ok a, w2) → real (w_fs w2) s.
Proof.
  intros Hs Hi Hg. destruct o as [v|]; cbn [setattr_step]; [|split; [apply changes_refl|by intros a w2 [= <- <-]]].
  destruct (open_changes env (w_fs w1) s true false Hs) as (_ & Hsame & Hino).
  assert (∀ f w2, open_for_write env (path_of s) w1 = (Ok f, w2) → f = ino_of s ∧ w2 = w1) as Hopen.
  { intros f w2 [Ho Hw2]%fs_call_Ok. split; [by eapply Hino|]. specialize (Hsame eq_refl). rw Ho in Hsame. simpl in Hsame.
    by rw Hsame upd_fs_same in Hw2. }
  split.
  - apply within_bind.
    + apply within_fs_call. rw Hsame //. apply changes_refl.
    + intros f w2 [-> ->]%Hopen. apply within_fs_call. eapply changes_weaken; [|apply Hg]. by intros i <-.
  - intros a w2 (f & w3 & [-> ->]%Hopen & [Hc Hw2]%fs_call_Ok)%sbind_Ok.
    destruct (Hg (w_fs w1) v) as [_ Ht]. rw Hc in Ht. by eapply same_tree_real.
Qed.

Lemma setattr_within p size mtime mode : within In (setattr env id p size mtime mode) w.
Proof using Hx Hroot.
  unfold setattr. gate Hx. apply within_looks; [keeps|].
  intros full (_ & s & Hs & -> & Hp & _)%resolve_Ok; [|done].
  assert (In (ino_of s)) as Hi by by apply inside_dir.
  change (match size with Some _ => _ | None => _ end)
    with (setattr_step (path_of s) size (λ f v, set_len env (path_of s) f v)).
  change (match mtime with Some _ => _ | None => _ end)
    with (setattr_step (path_of s) mtime (λ f v, set_modified env (path_of s) f v)).
  change (match mode with Some _ => _ | None => _ end) with (setattr_step (path_of s) mode (λ f v, set_mode f v)).
  destruct (setattr_step_within s size (λ f v, set_len env (path_of s) f v) w Hs Hi) as [W1 R1].
  { intros fs v. split; [apply set_len_changes|apply set_len_tree]. }
  apply within_bind; [done|]. intros a1 w1 Hs1%R1.
  destruct (setattr_step_within s mtime (λ f v, set_modified env (path_of s) f v) w1 Hs1 Hi) as [W2 R2].
  { intros fs v. split; [apply set_modified_changes|apply set_modified_tree]. }
  apply within_bind; [done|]. intros a2 w2 Hs2%R2.
  destruct (setattr_step_within s mode (λ f v, set_mode f v) w2 Hs2 Hi) as [W3 _].
  { intros fs v. split; [apply set_mode_changes|apply set_mode_tree]. }
  apply within_tail; [done|]. keeps.
Qed.
End Requests.

(** The requests that name their files by path and stay inside.  [create]
    without O_EXCL follows a link at the end, [rmdir] of the empty path removes
    the root from its parent, and [write] acts on whatever its handle holds. *)
Definition by_path (req : Request) : bool :=
  match req with
  | RqCreate _ flags _ => of_excl flags
  | RqWrite _ _ _ _ => false
  | RqRmdir p => negb (RelPath.is_root p)
  | _ => true
  end.


(** A file opened by path is inside the export: the inode the handle holds is
    the one at a real path below the export's root, however many links the
    request's path went through. *)
Theorem opened_file_is_inside env id x w p flags fh attr w' :
  attached_to id x w → authed id w → root_real x (w_fs w) →
  handle env id (RqOpen p flags) w = (Ok (RsOpened fh attr), w') →
  ∃ s f, real (w_fs w) s ∧ x_root x `prefix_of` path_of s ∧
    holds id fh f w' ∧ of_file f = ino_of s ∧ of_path f = p ∧
    of_writable f = (of_write flags || of_truncate flags || of_append flags).
Proof.
  intros Hx Ha Hroot. rw handle_authed //. apply (attached_touched env) in Hx.
  change (w_fs w) with (w_fs (touched env id w)) in *. revert Hx Hroot. generalize (touched env id w) as w1. clear Ha.
  intros w1 Hx Hroot. cbn [dispatch_blocking]. unfold open.
  rw (sbind_eq _ _ _ _ _ (export_attached _ _ _ Hx)). set (wr := _ || _). destruct (wr && _); [done|].
  intros (full & w2 & (-> & s & Hs & -> & Hp & _)%resolve_Ok & H)%sbind_Ok; [|done].
  apply sbind_Ok in H as (file & w3 & [Ho Hw3]%fs_call_Ok & H).
  destruct (open_changes env (w_fs w1) s wr (of_truncate flags) Hs) as (_ & _ & Hino).
  assert (file = ino_of s) as -> by by eapply Hino.
  apply sbind_Ok in H as (md & w4 & _ & H). destruct (md_is_dir md); [done|].
  apply sbind_Ok in H as (v & w5 & _ & H). apply sbind_Ok in H as (fh' & w6 & Hins & H).
  injection H as <- _ <-. exists s, (mkOpenFile (ino_of s) (path_of s) p wr). split_and!; try done.
  unfold insert_handle, sbind, the_session, smod in Hins. destruct (w_sessions w5 !! id) as [s5|] eqn:Es; [|done].
  injection Hins as <- <-. eexists. split; [simpl; by rw lookup_alter_eq Es|]. simpl. by rw lookup_insert_eq.
Qed.
End Confine.

Lemma demo_root_real ro patterns : root_real (Demo.export ro patterns) Demo.fs.
Proof.
  exists [("data", 4); ("srv", 3)], (list_to_map [("note", 5); ("private", 6)]).
  split; [|done]. repeat (econstructor; try (vm_compute; reflexivity); try discriminate).
Qed.


Lemma opened_file_is_inside_witness :
  ∃ s f, real Demo.fs s ∧ ["srv"; "data"] `prefix_of` path_of s ∧ holds 1 1 f Demo.opened ∧ of_file f = ino_of s.
Proof.
  destruct (opened_file_is_inside Demo.env 1 (Demo.export false []) (Demo.world false []) "note" Demo.rw_flags 1
    (mkAttr KFile 5 1 1 420 0) Demo.opened) as (s & f & H1 & H2 & H3 & H4 & _).
  - by exists (Demo.session None).
  - by exists (Demo.session None).
  - apply demo_root_real.
  - vm_compute. reflexivity.
  - exists s, f. split; [exact H1|]. split; [exact H2|]. split; [exact H3|exact H4].
Defined.

(** ** Where the boundary leaks *)

(** A client's requests against the small server with a writable export. *)
Definition after (reqs : list Request) (patterns : list string) : list (result Response Stop) * World :=
  Demo.serve reqs (Demo.world false patterns).

(** A client of a writable export can read and overwrite any file of the
    server.  Two directories and the link a/b/up to the export's own root pass
    the lexical check of [symlink]; so does the link x, whose target
    a/b/up/../../etc/passwd spells a path inside the export but leads out of
    it; [getattr] of x is refused, but [create] of x opens what x points to:
    the next request reads /etc/passwd and the one after overwrites it. *)
Theorem create_escapes_export :
  let '(answers, w) := after
    [RqMkdir "a" 493; RqMkdir "a/b" 493; RqSymlink "../.." "a/b/up"; RqSymlink "a/b/up/../../etc/passwd" "x";
     RqGetattr "x"; RqCreate "x" Demo.rw_flags 420; RqRead 1 0 100; RqWrite 1 0 [33] None] [] in
  answers !! 4%nat = Some (Err (Fail PermissionDenied)) ∧
  answers !! 6%nat = Some (Ok (RsData Demo.passwd)) ∧
  content_at (w_fs w) 2 = Some (FileData (as_bytes "!oot")) ∧
  ¬ ["srv"; "data"] `prefix_of` path_of [("passwd", 2); ("etc", 1)] ∧
  find Demo.fs false ["etc"; "passwd"] = Ok [("passwd", 2); ("etc", 1)].
Proof.
  vm_compute. split_and!; try reflexivity. intros [k Hk]. discriminate.
Qed.

(** An excluded file can be read through a link to its directory: [resolve]
    checks the canonical path again, so [getattr] is refused, but
    [resolve_new] does not check the path it builds, and [create] opens it. *)
Theorem create_opens_excluded :
  let '(answers, _) := after
    [RqGetattr "private/key"; RqSymlink "private" "p"; RqGetattr "p/key"; RqCreate "p/key" Demo.rw_flags 420;
     RqRead 1 0 100] ["private/key"] in
  answers !! 0%nat = Some (Err (Fail NotFound)) ∧ answers !! 2%nat = Some (Err (Fail NotFound)) ∧
  answers !! 4%nat = Some (Ok (RsData (as_bytes "secret"))).
Proof. vm_compute. split_and!; reflexivity. Qed.

(** [unlink] of a link deletes the file it points to and keeps the link: the
    handler resolves the path, which follows the link, before removing.  The
    link that is left dangling cannot be deleted any more. *)
Theorem unlink_follows_link :
  let '(answers, w) := after
    [RqSymlink "note" "l"; RqUnlink "l"; RqReadLink "l"; RqGetattr "note"; RqUnlink "l"] [] in
  drop 1 answers = [Ok RsOk; Ok (RsTarget "note"); Err (Fail NotFound); Err (Fail NotFound)].
Proof. vm_compute. reflexivity. Qed.

(** [rmdir] of the empty path removes the export's root from its parent. *)
Theorem rmdir_removes_root :
  let '(answers, w) := after
    [RqUnlink "note"; RqUnlink "private/key"; RqRmdir "private"; RqRmdir ""] [] in
  answers = [Ok RsOk; Ok RsOk; Ok RsOk; Ok RsOk] ∧ find (w_fs w) true ["srv"; "data"] = Err IoNotFound.
Proof. vm_compute. split; reflexivity. Qed.
