(* ===== verification/Transport.v ===== *)
(** * Transport: the handshake and the multiplexed connection

    alloyfs-transport/src/mux.rs (client) and server.rs.  The handshake is a
    pair of functions on frames.  The client's connection is a transition
    system: every caller of [begin_request], every caller of [ping] and the
    reader task take one atomic step at a time on the shared maps, in any
    order.  The theorems: both ends agree on the version and on compression;
    a response reaches the caller whose request it answers; once the reader
    is gone no request is left waiting -- but a ping can be, and pings do not
    keep the server's lease alive. *)

From S2P Require Import Prelude Messages Common Exclude Locks EventHub Fs Agent AgentFacts.

(** ** Handshake *)

Inductive TransportError : Type :=
| TClosed | TTimeout | THandshake (why : string).
#[global] Instance TransportError_eq_dec : EqDecision TransportError.
Proof. solve_decision. Defined.

Definition client_hello (name : string) : Frame := FHello PROTO_VERSION_MIN PROTO_VERSION_MAX name.

(** The server's answer to the first frame, and the version it settled on
    ([compress] is on from version 3). *)
Definition server_hello (min_proto : Z) (server : string) (first : Frame) : option Frame * result Z TransportError :=
  match first with
  | FHello proto_min proto_max client =>
      let lo := Z.max (Z.max proto_min PROTO_VERSION_MIN) min_proto in
      let hi := Z.min proto_max PROTO_VERSION_MAX in
      if hi <? lo then (Some (FResponse 0 (Err VersionMismatch)), Err (THandshake "no common version"))
      else (Some (FHelloAck hi server), Ok hi)
  | _ => (None, Err (THandshake "expected Hello"))
  end.

Definition client_ack (reply : option Frame) : result (Z * string) TransportError :=
  match reply with
  | Some (FHelloAck proto server) =>
      if (PROTO_VERSION_MIN <=? proto) && (proto <=? PROTO_VERSION_MAX) then Ok (proto, server)
      else Err (THandshake "server chose unsupported version")
  | Some _ => Err (THandshake "unexpected frame")
  | None => Err TClosed
  end.

(** [encoder_mut().compress = proto >= 3], on both ends. *)
Definition compresses (proto : Z) : bool := 3 <=? proto.

(** The handshake of a client of versions [cmin, cmax] with a server that asks
    for [min_proto]: either both ends take the same version, the highest both
    support, and hence the same compression setting, or both fail and the
    server's range and the client's are disjoint. *)
Theorem handshake_agrees min_proto cmin cmax client server :
  let '(reply, srv) := server_hello min_proto server (FHello cmin cmax client) in
  (∃ v, srv = Ok v ∧ reply = Some (FHelloAck v server) ∧
     cmin ≤ v ≤ cmax ∧ min_proto ≤ v ∧ PROTO_VERSION_MIN ≤ v ≤ PROTO_VERSION_MAX ∧
     client_ack reply = Ok (v, server) ∧
     ∀ u, cmin ≤ u ≤ cmax → u ≤ PROTO_VERSION_MAX → u ≤ v) ∨
  (∃ e e', srv = Err e ∧ client_ack reply = Err e' ∧
     ∀ u, cmin ≤ u ≤ cmax → PROTO_VERSION_MIN ≤ u ≤ PROTO_VERSION_MAX → u < min_proto).
Proof.
  unfold server_hello, client_ack, PROTO_VERSION_MIN, PROTO_VERSION_MAX. cbv zeta.
  destruct (Z.ltb_spec (Z.min cmax 4) (Z.max (Z.max cmin 1) min_proto)).
  - right. do 2 eexists. split; [done|]. split; [done|]. lia.
  - left. eexists. split; [done|]. split; [done|].
    rw (proj2 (Z.leb_le 1 _)); [|lia]. rw (proj2 (Z.leb_le _ 4)); [|lia].
    split_and!; try lia; done.
Qed.

(** ** The connection *)

(** A oneshot channel, as its receiver sees it. *)
Inductive Chan (A : Type) : Type := Open | Value (a : A) | Dropped.
Arguments Open {A}.
Arguments Value {A} a.
Arguments Dropped {A}.

Definition Body : Type := result Response ErrorCode.

(** Where a call of [request] stands. *)
Inductive Phase : Type :=
| Numbered (id : Z)      (* passed the first closed check, took an id *)
| Inserted (id : Z)      (* parked its sender in [inflight] *)
| Sending (id : Z)       (* passed the re-check *)
| Waiting (id : Z)       (* sent the frame, awaits the channel *)
| Returned (id : Z) (r : result Body TransportError).

Record Call : Type := mkCall { c_body : Request; c_phase : Phase; c_chan : Chan Body }.

(** Where a call of [ping] stands: there is no closed check. *)
Inductive PingPhase : Type := PNumbered (n : Z) | PInserted (n : Z) | PWaiting (n : Z) | PReturned (r : result unit TransportError).
Record PingCall : Type := mkPing { p_phase : PingPhase; p_chan : Chan unit }.

Record Mux : Type := mkMux {
  next_id : Z;
  closed : bool;                    (* closed_rx *)
  cleared : bool;                   (* the reader task has ended *)
  inflight : gmap Z nat;            (* whose sender waits under an id *)
  pings : gmap Z nat;
  calls : gmap nat Call;
  ping_calls : gmap nat PingCall;
  sent : list (Z * Request);        (* request frames handed to the writer *)
  received : list (Z * Body)        (* response frames the reader took *)
}.

Definition mux_init : Mux := mkMux 1 false false ∅ ∅ ∅ ∅ [] [].

Definition set_call (c : nat) (k : Call) (m : Mux) : Mux :=
  mkMux (next_id m) (closed m) (cleared m) (inflight m) (pings m) (<[c := k]> (calls m)) (ping_calls m) (sent m) (received m).
Definition set_inflight (i : gmap Z nat) (m : Mux) : Mux :=
  mkMux (next_id m) (closed m) (cleared m) i (pings m) (calls m) (ping_calls m) (sent m) (received m).
Definition set_ping (c : nat) (k : PingCall) (m : Mux) : Mux :=
  mkMux (next_id m) (closed m) (cleared m) (inflight m) (pings m) (calls m) (<[c := k]> (ping_calls m)) (sent m) (received m).
Definition set_pings (i : gmap Z nat) (m : Mux) : Mux :=
  mkMux (next_id m) (closed m) (cleared m) (inflight m) i (calls m) (ping_calls m) (sent m) (received m).
Definition take_id (m : Mux) : Mux :=
  mkMux (u64_add (next_id m) 1) (closed m) (cleared m) (inflight m) (pings m) (calls m) (ping_calls m) (sent m) (received m).

(** *** [begin_request], step by step *)

(** The first check and [fetch_add]. *)
Definition call_start (c : nat) (body : Request) (m : Mux) : Mux :=
  if closed m then set_call c (mkCall body (Returned 0 (Err TClosed)) Dropped) m
  else set_call c (mkCall body (Numbered (next_id m)) Open) (take_id m).

(** [self.inflight.insert(id, done_tx)]. *)
Definition call_insert (c : nat) (k : Call) (id : Z) (m : Mux) : Mux :=
  set_call c (mkCall (c_body k) (Inserted id) (c_chan k)) (set_inflight (<[id := c]> (inflight m)) m).

Definition call_recheck (c : nat) (k : Call) (id : Z) (m : Mux) : Mux :=
  if closed m then
    set_call c (mkCall (c_body k) (Returned id (Err TClosed)) (c_chan k)) (set_inflight (delete id (inflight m)) m)
  else set_call c (mkCall (c_body k) (Sending id) (c_chan k)) m.

(** [self.tx.send(..)]; [ok] is false when the writer task is gone. *)
Definition call_send (ok : bool) (c : nat) (k : Call) (id : Z) (m : Mux) : Mux :=
  if ok then
    let m := set_call c (mkCall (c_body k) (Waiting id) (c_chan k)) m in
    mkMux (next_id m) (closed m) (cleared m) (inflight m) (pings m) (calls m) (ping_calls m)
          (sent m ++ [(id, c_body k)]) (received m)
  else set_call c (mkCall (c_body k) (Returned id (Err TClosed)) (c_chan k)) (set_inflight (delete id (inflight m)) m).

(** *** [request_with_deadline] and [request_keepalive] after it *)

(** The channel resolves. *)
Definition call_resolve (c : nat) (k : Call) (id : Z) (m : Mux) : option Mux :=
  match c_chan k with
  | Open => None
  | Value body => Some (set_call c (mkCall (c_body k) (Returned id (Ok body)) (c_chan k)) m)
  | Dropped => Some (set_call c (mkCall (c_body k) (Returned id (Err TClosed)) (c_chan k)) m)
  end.

(** The deadline passes, or liveness is lost. *)
Definition call_timeout (c : nat) (k : Call) (id : Z) (m : Mux) : Mux :=
  set_call c (mkCall (c_body k) (Returned id (Err TTimeout)) (c_chan k)) (set_inflight (delete id (inflight m)) m).

(** *** The reader task *)

Definition deliver (c : nat) (body : Body) (m : Mux) : Mux :=
  match calls m !! c with
  | Some k => set_call c (mkCall (c_body k) (c_phase k) (Value body)) m
  | None => m
  end.

Definition reader_response (id : Z) (body : Body) (m : Mux) : Mux :=
  let m := mkMux (next_id m) (closed m) (cleared m) (inflight m) (pings m) (calls m) (ping_calls m) (sent m)
                 (received m ++ [(id, body)]) in
  match inflight m !! id with
  | Some c => deliver c body (set_inflight (delete id (inflight m)) m)
  | None => m
  end.

Definition reader_pong (nonce : Z) (m : Mux) : Mux :=
  match pings m !! nonce with
  | Some p =>
      let m := set_pings (delete nonce (pings m)) m in
      match ping_calls m !! p with
      | Some k => set_ping p (mkPing (p_phase k) (Value tt)) m
      | None => m
      end
  | None => m
  end.

(** The stream ended: [closed_tx.send(true)]. *)
Definition reader_close (m : Mux) : Mux :=
  mkMux (next_id m) true (cleared m) (inflight m) (pings m) (calls m) (ping_calls m) (sent m) (received m).

(** [inflight.clear()] and [pings.clear()]: every sender in the maps drops. *)
Definition reader_clear (m : Mux) : Mux :=
  let hit (i : gmap Z nat) (c : nat) := bool_decide (c ∈ (map_to_list i).*2) in
  mkMux (next_id m) (closed m) true ∅ ∅
    (map_imap (λ c k, Some (if hit (inflight m) c then mkCall (c_body k) (c_phase k) Dropped else k)) (calls m))
    (map_imap (λ c k, Some (if hit (pings m) c then mkPing (p_phase k) Dropped else k)) (ping_calls m))
    (sent m) (received m).

(** *** [ping] *)

Definition ping_start (p : nat) (m : Mux) : Mux := set_ping p (mkPing (PNumbered (next_id m)) Open) (take_id m).
Definition ping_insert (p : nat) (k : PingCall) (n : Z) (m : Mux) : Mux :=
  set_ping p (mkPing (PInserted n) (p_chan k)) (set_pings (<[n := p]> (pings m)) m).
Definition ping_send (ok : bool) (p : nat) (k : PingCall) (n : Z) (m : Mux) : Mux :=
  if ok then set_ping p (mkPing (PWaiting n) (p_chan k)) m
  else set_ping p (mkPing (PReturned (Err TClosed)) (p_chan k)) (set_pings (delete n (pings m)) m).
Definition ping_resolve (p : nat) (k : PingCall) (m : Mux) : option Mux :=
  match p_chan k with
  | Open => None
  | Value _ => Some (set_ping p (mkPing (PReturned (Ok tt)) (p_chan k)) m)
  | Dropped => Some (set_ping p (mkPing (PReturned (Err TClosed)) (p_chan k)) m)
  end.

(** The steps of everybody.  Ids are 64-bit: a connection of fewer than 2^64
    requests and pings is considered. *)
Inductive mstep : Mux → Mux → Prop :=
| st_start c body m : calls m !! c = None → next_id m < U64_MAX → mstep m (call_start c body m)
| st_insert c k id m : calls m !! c = Some k → c_phase k = Numbered id → mstep m (call_insert c k id m)
| st_recheck c k id m : calls m !! c = Some k → c_phase k = Inserted id → mstep m (call_recheck c k id m)
| st_send ok c k id m : calls m !! c = Some k → c_phase k = Sending id → mstep m (call_send ok c k id m)
| st_resolve c k id m m' : calls m !! c = Some k → c_phase k = Waiting id → call_resolve c k id m = Some m' → mstep m m'
| st_timeout c k id m : calls m !! c = Some k → c_phase k = Waiting id → mstep m (call_timeout c k id m)
| st_response id body m : closed m = false → mstep m (reader_response id body m)
| st_pong n m : closed m = false → mstep m (reader_pong n m)
| st_close m : closed m = false → mstep m (reader_close m)
| st_clear m : closed m = true → cleared m = false → mstep m (reader_clear m)
| st_ping_start p m : ping_calls m !! p = None → next_id m < U64_MAX → mstep m (ping_start p m)
| st_ping_insert p k n m : ping_calls m !! p = Some k → p_phase k = PNumbered n → mstep m (ping_insert p k n m)
| st_ping_send ok p k n m : ping_calls m !! p = Some k → p_phase k = PInserted n → mstep m (ping_send ok p k n m)
| st_ping_resolve p k n m m' : ping_calls m !! p = Some k → p_phase k = PWaiting n → ping_resolve p k m = Some m' → mstep m m'.

Definition mreachable (m : Mux) : Prop := rtc mstep mux_init m.

(** ** The invariant *)

(** The id a call still answers for. *)
Definition live_id (p : Phase) : option Z :=
  match p with
  | Numbered id | Inserted id | Sending id | Waiting id => Some id
  | Returned _ _ => None
  end.

Definition parked (p : Phase) (id : Z) : Prop := p = Inserted id ∨ p = Sending id ∨ p = Waiting id.

(** The channel of a parked call: open while its sender is in the map. *)
Definition chan_ok (m : Mux) (c : nat) (k : Call) (id : Z) : Prop :=
  match c_chan k with
  | Open => inflight m !! id = Some c
  | Value b => (id, b) ∈ received m
  | Dropped => True
  end.

Definition call_ok (m : Mux) (c : nat) (k : Call) : Prop :=
  match c_phase k with
  | Numbered id => id < next_id m ∧ c_chan k = Open ∧ inflight m !! id = None ∧ id ∉ (sent m).*1
  | Inserted id | Sending id => id < next_id m ∧ chan_ok m c k id ∧ id ∉ (sent m).*1
  | Waiting id => id < next_id m ∧ chan_ok m c k id ∧ (id, c_body k) ∈ sent m
  | Returned id (Ok b) => (id, b) ∈ received m ∧ (id, c_body k) ∈ sent m
  | Returned _ (Err _) => True
  end.

Record minv (m : Mux) : Prop := {
  mi_calls c k : calls m !! c = Some k → call_ok m c k;
  mi_uniq c1 c2 k1 k2 id : calls m !! c1 = Some k1 → calls m !! c2 = Some k2 →
    live_id (c_phase k1) = Some id → live_id (c_phase k2) = Some id → c1 = c2;
  mi_in id c : inflight m !! id = Some c →
    ∃ k, calls m !! c = Some k ∧ parked (c_phase k) id ∧ c_chan k = Open ∧
      (cleared m = true → c_phase k = Inserted id);
  mi_closed : cleared m = true → closed m = true;
  mi_sent id r : (id, r) ∈ sent m → id < next_id m;
  mi_sent_uniq id r1 r2 : (id, r1) ∈ sent m → (id, r2) ∈ sent m → r1 = r2
}.

Lemma parked_live p id : parked p id → live_id p = Some id.
Proof. by intros [->|[->| ->]]. Qed.

(** A call whose id nobody else touched is as fine as before. *)
Lemma call_ok_frame m m' c k :
  call_ok m c k → next_id m ≤ next_id m' → received m ⊆ received m' → sent m ⊆ sent m' →
  (∀ id, live_id (c_phase k) = Some id → inflight m' !! id = inflight m !! id) →
  (∀ id, live_id (c_phase k) = Some id → id ∈ (sent m').*1 → id ∈ (sent m).*1) →
  call_ok m' c k.
Proof.
  intros Hok Hn Hr Hs Hi Hf. unfold call_ok, chan_ok in *.
  destruct (c_phase k) as [id|id|id|id|id [b|e]]; simpl in Hi, Hf; try done;
    try specialize (Hi id eq_refl); try specialize (Hf id eq_refl).
  - destruct Hok as (? & ? & ? & ?). rw Hi. split_and!; [lia|done|done|by auto].
  - destruct Hok as (? & ? & ?). rw Hi. split_and!; [lia| |by auto]. destruct (c_chan k); auto.
  - destruct Hok as (? & ? & ?). rw Hi. split_and!; [lia| |by auto]. destruct (c_chan k); auto.
  - destruct Hok as (? & ? & ?). rw Hi. split_and!; [lia| |by auto]. destruct (c_chan k); auto.
  - destruct Hok. auto.
Qed.

(** One call moves to [k'], touching the map and the sent frames only at the
    ids it owns. *)
Lemma move_inv m m' c k' (own : Z → Prop) :
  minv m →
  (∀ id, own id ↔ ∃ k, calls m !! c = Some k ∧ live_id (c_phase k) = Some id) →
  calls m' = <[c := k']> (calls m) → next_id m ≤ next_id m' → cleared m' = cleared m → closed m' = closed m →
  received m ⊆ received m' → sent m ⊆ sent m' →
  (∀ id, live_id (c_phase k') = Some id → own id ∨ next_id m ≤ id) →
  (∀ id, ¬ own id → inflight m' !! id = inflight m !! id) →
  (∀ id r, (id, r) ∈ sent m' → (id, r) ∈ sent m ∨ own id ∧ id ∉ (sent m).*1 ∧ r = c_body k' ∧ id < next_id m') →
  call_ok m' c k' →
  (∀ id c', own id → inflight m' !! id = Some c' →
     c' = c ∧ parked (c_phase k') id ∧ c_chan k' = Open ∧ (cleared m = true → c_phase k' = Inserted id)) →
  minv m'.
Proof.
  intros Hm Hown Hc Hn Hcl Hclo Hr Hs Hlive Hin Hsent Hok Hpark.
  assert (∀ c2 k2 id, c2 ≠ c → calls m !! c2 = Some k2 → live_id (c_phase k2) = Some id → ¬ own id) as Hother.
  { intros c2 k2 id Hne H2 Hl (k & Hk & Hlk)%Hown. apply Hne. by eapply (mi_uniq m Hm c2 c k2 k id). }
  assert (∀ c2 k2 id, calls m !! c2 = Some k2 → live_id (c_phase k2) = Some id → id < next_id m) as Hlt.
  { intros c2 k2 id H2 Hl. pose proof (mi_calls m Hm _ _ H2) as Ho. unfold call_ok in Ho.
    destruct (c_phase k2); simpl in Hl; simplify_eq; by destruct Ho. }
  split.
  - intros c2 k2. rw Hc. destruct (decide (c2 = c)) as [->|Hne]; [rw lookup_insert_eq; by intros [= <-]|].
    rw lookup_insert_ne //. intros H2. apply (call_ok_frame m); [by apply (mi_calls m Hm)|done..| |].
    + intros id Hl. by eapply Hin, Hother.
    + intros id Hl ([? r] & -> & Hx)%list_elem_of_fmap. simpl in *.
      apply Hsent in Hx as [Hx|(Ho & _)]; [apply list_elem_of_fmap; by exists (z, r)|]. by eapply Hother in Hl.
  - intros c1 c2 k1 k2 id. rw Hc.
    destruct (decide (c1 = c)) as [->|Hn1], (decide (c2 = c)) as [->|Hn2]; rw ?lookup_insert_eq ?lookup_insert_ne //.
    + intros [= <-] H2 Hl1 Hl2. exfalso. destruct (Hlive _ Hl1) as [Ho|Ho].
      * by eapply Hother.
      * pose proof (Hlt _ _ _ H2 Hl2). lia.
    + intros H1 [= <-] Hl1 Hl2. exfalso. destruct (Hlive _ Hl2) as [Ho|Ho].
      * by eapply Hother.
      * pose proof (Hlt _ _ _ H1 Hl1). lia.
    + apply (mi_uniq m Hm).
  - intros id c2 Hi. rw Hcl. assert (Decision (own id)) as [Ho|Ho].
    { destruct (calls m !! c) as [k|] eqn:Ek.
      - destruct (decide (live_id (c_phase k) = Some id)) as [|Hnl]; [left; apply Hown; eauto|].
        right. intros (? & ? & ?)%Hown. simplify_eq.
      - right. by intros (? & ? & ?)%Hown. }
    + destruct (Hpark _ _ Ho Hi) as (-> & Hp & Hcx). exists k'. rw Hc lookup_insert_eq. done.
    + rw Hin // in Hi. destruct (mi_in m Hm _ _ Hi) as (k2 & H2 & Hp & Hcx). exists k2. split; [|done].
      rw Hc lookup_insert_ne //. intros ->. apply Ho, Hown. exists k2. split; [done|by apply parked_live].
  - rw Hcl Hclo. apply (mi_closed m Hm).
  - intros id r [Hx|(_ & _ & _ & ?)]%Hsent; [|done]. pose proof (mi_sent m Hm _ _ Hx). lia.
  - intros id r1 r2 [H1|(_ & Hf1 & -> & _)]%Hsent [H2|(_ & Hf2 & -> & _)]%Hsent; [by eapply (mi_sent_uniq m Hm)| | |done].
    + exfalso. apply Hf2, list_elem_of_fmap. by exists (id, r1).
    + exfalso. apply Hf1, list_elem_of_fmap. by exists (id, r2).
Qed.

(** Steps that leave every call alone. *)
Lemma calls_same_inv m m' :
  minv m → calls m' = calls m → inflight m' = inflight m → sent m' = sent m → received m ⊆ received m' →
  next_id m ≤ next_id m' → cleared m' = cleared m → (closed m = true → closed m' = true) → minv m'.
Proof.
  intros Hm Hc Hi Hs Hr Hn Hcl Hclo. split.
  - intros c k. rw Hc. intros H. apply (call_ok_frame m); rw ?Hi ?Hs //. by apply (mi_calls m Hm).
  - rw Hc. apply (mi_uniq m Hm).
  - rw Hc Hi Hcl. apply (mi_in m Hm).
  - rw Hcl. intros. by apply Hclo, (mi_closed m Hm).
  - intros id r. rw Hs. intros ?%(mi_sent m Hm). lia.
  - rw Hs. apply (mi_sent_uniq m Hm).
Qed.

(** The ids a call owns. *)
Definition owns (m : Mux) (c : nat) (id : Z) : Prop :=
  ∃ k, calls m !! c = Some k ∧ live_id (c_phase k) = Some id.

Lemma owns_one m c k id id' : calls m !! c = Some k → live_id (c_phase k) = Some id → owns m c id' ↔ id' = id.
Proof. intros Hk Hl. split; [intros (? & ? & ?); congruence|intros ->; by exists k]. Qed.

(** Nobody sits under the id of a call that has not inserted yet, nor under a
    fresh one. *)
Lemma fresh_not_inflight m : minv m → inflight m !! next_id m = None.
Proof.
  intros Hm. destruct (inflight m !! next_id m) as [c|] eqn:E; [|done].
  destruct (mi_in m Hm _ _ E) as (k & Hk & Hp & _). pose proof (mi_calls m Hm _ _ Hk) as Hok. unfold call_ok in Hok.
  destruct Hp as [Hp|[Hp|Hp]]; rw Hp in Hok; destruct Hok; lia.
Qed.

(** Taking a number makes the counter grow, short of 2^64. *)
Lemma next_grows z : z < U64_MAX → z < u64_add z 1.
Proof.
  intros Hz. unfold u64_add, U64_MAX in *. destruct (decide (z < 0)).
  - pose proof (Z.mod_pos_bound (z + 1) (2^64)). lia.
  - rw Z.mod_small; lia.
Qed.

Lemma start_inv c body m : minv m → calls m !! c = None → next_id m < U64_MAX → minv (call_start c body m).
Proof.
  intros Hm Hc Hn. unfold call_start. destruct (closed m) eqn:Ecl.
  - eapply (move_inv m _ c _ (owns m c)); try done; simpl; auto; try lia.
    intros id c' (k & Hk & _). congruence.
  - pose proof (next_grows _ Hn) as Hgt.
    eapply (move_inv m _ c _ (owns m c)); try done; simpl; auto; [lia|..].
    + intros id [= <-]. right. lia.
    + unfold call_ok. simpl. split_and!; [done|done|by apply fresh_not_inflight|].
      intros ([i r] & Hi & Hx)%list_elem_of_fmap. simpl in Hi. apply (mi_sent m Hm) in Hx. lia.
    + intros id c' (k & Hk & _). congruence.
Qed.

Section Moves.
Context (m : Mux) (c : nat) (k : Call) (id : Z) (Hm : minv m) (Hk : calls m !! c = Some k).

Lemma insert_inv : c_phase k = Numbered id → minv (call_insert c k id m).
Proof using Hm Hk.
  intros Hp. pose proof (mi_calls m Hm _ _ Hk) as Hok. unfold call_ok in Hok. rw Hp in Hok. destruct Hok as (H1 & H2 & H3 & H4).
  pose proof (λ i, owns_one m c k id i Hk ltac:(by rw Hp)) as Ho.
  eapply (move_inv m _ c _ (owns m c)); try done; simpl; auto.
  - intros i [= <-]. left. by apply Ho.
  - intros i Hi. rw lookup_insert_ne //. intros <-. by apply Hi, Ho.
  - unfold call_ok, chan_ok. simpl. rw H2 lookup_insert_eq. done.
  - intros i c' ->%Ho. rw lookup_insert_eq. intros [= <-]. split_and!; [done|by left|done|done].
Qed.

(** A call that gives up its id. *)
Lemma leave_inv r :
  live_id (c_phase k) = Some id → (∀ b, r ≠ Ok b) →
  minv (set_call c (mkCall (c_body k) (Returned id r) (c_chan k)) (set_inflight (delete id (inflight m)) m)).
Proof using Hm Hk.
  intros Hl Hr. assert (∀ i, owns m c i ↔ i = id) as Ho by (intros i; by apply (owns_one m c k)).
  eapply (move_inv m _ c _ (owns m c)); try done; simpl; auto.
  - intros i Hi. rw lookup_delete_ne //. intros <-. by apply Hi, Ho.
  - unfold call_ok. simpl. destruct r as [b|]; [by destruct (Hr b)|done].
  - intros i c' ->%Ho. by rw lookup_delete_eq.
Qed.

Lemma recheck_inv : c_phase k = Inserted id → minv (call_recheck c k id m).
Proof using Hm Hk.
  intros Hp. unfold call_recheck. destruct (closed m) eqn:Ecl; [apply leave_inv; [by rw Hp|done]|].
  pose proof (mi_calls m Hm _ _ Hk) as Hok. unfold call_ok in Hok. rw Hp in Hok.
  pose proof (λ i, owns_one m c k id i Hk ltac:(by rw Hp)) as Ho.
  eapply (move_inv m _ c _ (owns m c)); try done; simpl; auto.
  - intros i [= <-]. left. by apply Ho.
  - intros i c' ->%Ho Hi. destruct (mi_in m Hm _ _ Hi) as (k2 & H2 & Hp2 & Hcl).
    assert (c' = c) as -> by (eapply (mi_uniq m Hm _ _ _ _ id); [done|done|by apply parked_live|by rw Hp]).
    assert (k2 = k) as -> by congruence. split_and!; [done|by right; left|apply Hcl|].
    intros Hc%(mi_closed m Hm). congruence.
Qed.

Lemma send_inv ok : c_phase k = Sending id → minv (call_send ok c k id m).
Proof using Hm Hk.
  intros Hp. unfold call_send. destruct ok; [|apply leave_inv; [by rw Hp|done]].
  pose proof (mi_calls m Hm _ _ Hk) as Hok. unfold call_ok in Hok. rw Hp in Hok. destruct Hok as (H1 & H2 & H3).
  pose proof (λ i, owns_one m c k id i Hk ltac:(by rw Hp)) as Ho.
  eapply (move_inv m _ c _ (owns m c)); try done; simpl; auto.
  - intros x Hx. apply elem_of_app. by left.
  - intros i [= <-]. left. by apply Ho.
  - intros i r [Hx|Hx%list_elem_of_singleton]%elem_of_app; [by left|]. injection Hx as -> ->. right.
    split_and!; [by apply Ho|done|done|done].
  - unfold call_ok, chan_ok in *. simpl. split_and!; [done|done|]. apply elem_of_app. right. by apply list_elem_of_singleton.
  - intros i c' ->%Ho Hi. destruct (mi_in m Hm _ _ Hi) as (k2 & H2' & Hp2 & Hcl).
    assert (c' = c) as -> by (eapply (mi_uniq m Hm _ _ _ _ id); [done|done|by apply parked_live|by rw Hp]).
    assert (k2 = k) as -> by congruence. destruct Hcl as [Hch Hcl].
    split_and!; [done|by right; right|done|]. intros Hc%Hcl. congruence.
Qed.

Lemma resolve_inv m' : c_phase k = Waiting id → call_resolve c k id m = Some m' → minv m'.
Proof using Hm Hk.
  intros Hp Hres. pose proof (mi_calls m Hm _ _ Hk) as Hok. unfold call_ok, chan_ok in Hok. rw Hp in Hok. destruct Hok as (H1 & H2 & H3).
  pose proof (λ i, owns_one m c k id i Hk ltac:(by rw Hp)) as Ho.
  assert (c_chan k ≠ Open → ∀ c', inflight m !! id ≠ Some c') as Hno.
  { intros Hch c' Hi. destruct (mi_in m Hm _ _ Hi) as (k2 & H2' & Hp2 & Hop & _).
    assert (c' = c) as -> by (eapply (mi_uniq m Hm _ _ _ _ id); [done|done|by apply parked_live|by rw Hp]). congruence. }
  unfold call_resolve in Hres. destruct (c_chan k) as [|b|] eqn:Ech; [done|injection Hres as <-..];
    (eapply (move_inv m _ c _ (owns m c)); try done; simpl; auto;
     intros i c' ->%Ho Hi; by apply Hno in Hi).
Qed.
End Moves.

Lemma response_inv m id body : minv m → minv (reader_response id body m).
Proof.
  intros Hm. unfold reader_response.
  set (m1 := mkMux _ _ _ _ _ _ _ _ _). assert (minv m1) as Hm1.
  { apply (calls_same_inv m); try done. simpl. intros x Hx. apply elem_of_app. by left. }
  destruct (inflight m1 !! id) as [c|] eqn:Ei; [|done].
  destruct (mi_in m1 Hm1 _ _ Ei) as (k & Hk & Hp & Hop & _). unfold deliver. simpl in Hk |- *. rw Hk.
  pose proof (λ i, owns_one m1 c k id i Hk ltac:(by apply parked_live)) as Ho.
  pose proof (mi_calls m1 Hm1 _ _ Hk) as Hok.
  assert ((id, body) ∈ received m1) as Hrec by (simpl; apply elem_of_app; right; by apply list_elem_of_singleton).
  eapply (move_inv m1 _ c _ (owns m1 c)); try done; simpl; auto.
  - intros i Hi. left. by exists k.
  - intros i Hi. rw lookup_delete_ne //. intros <-. by apply Hi, Ho.
  - unfold call_ok, chan_ok in *. simpl. destruct Hp as [Hp|[Hp|Hp]]; rw Hp in Hok |- *; destruct Hok as (? & ? & ?); done.
  - intros i c' ->%Ho. by rw lookup_delete_eq.
Qed.

Lemma clear_inv m : minv m → closed m = true → minv (reader_clear m).
Proof.
  intros Hm Hcl. assert (∀ c k', calls (reader_clear m) !! c = Some k' →
    ∃ k, calls m !! c = Some k ∧ c_phase k' = c_phase k ∧ c_body k' = c_body k ∧
      (k' = k ∧ (∀ id, inflight m !! id ≠ Some c) ∨ c_chan k' = Dropped ∧ ∃ id, inflight m !! id = Some c)) as Hmap.
  { intros c k'. simpl. rw map_lookup_imap. destruct (calls m !! c) as [k|] eqn:Ek; [|done]. simpl.
    case_bool_decide as Hin; intros [= <-]; exists k; split_and!; try done.
    - right. split; [done|]. apply list_elem_of_fmap in Hin as ([id c2] & -> & Hx%elem_of_map_to_list). by exists id.
    - left. split; [done|]. intros id Hid. apply Hin, list_elem_of_fmap. exists (id, c). split; [done|].
      by apply elem_of_map_to_list. }
  split; simpl; try done.
  - intros c k' (k & Hk & Hp & Hb & Hcase)%Hmap. pose proof (mi_calls m Hm _ _ Hk) as Hok.
    unfold call_ok, chan_ok in *. rw Hp Hb. simpl. destruct (c_phase k) as [id|id|id|id|id [b|e]] eqn:Eph; try done.
    + destruct Hok as (? & ? & ? & ?). split_and!; try done.
      destruct Hcase as [[-> _]|(_ & i & Hi)]; [done|]. exfalso.
      destruct (mi_in m Hm _ _ Hi) as (k2 & Hk2 & Hpk & _). simplify_eq. rw Eph in Hpk. by destruct Hpk as [?|[?|?]].
    + destruct Hok as (? & Hch & ?). split_and!; try done.
      destruct Hcase as [[-> Hno]|(-> & _)]; [|done]. destruct (c_chan k); [by apply Hno in Hch|done|done].
    + destruct Hok as (? & Hch & ?). split_and!; try done.
      destruct Hcase as [[-> Hno]|(-> & _)]; [|done]. destruct (c_chan k); [by apply Hno in Hch|done|done].
    + destruct Hok as (? & Hch & ?). split_and!; try done.
      destruct Hcase as [[-> Hno]|(-> & _)]; [|done]. destruct (c_chan k); [by apply Hno in Hch|done|done].
  - intros c1 c2 k1 k2 id (k1' & H1 & Hp1 & _)%Hmap (k2' & H2 & Hp2 & _)%Hmap. rw Hp1 Hp2. by eapply (mi_uniq m Hm).
  - apply (mi_sent m Hm).
  - apply (mi_sent_uniq m Hm).
Qed.

Lemma mstep_inv m m' : mstep m m' → minv m → minv m'.
Proof.
  intros Hs Hm. destruct Hs.
  - by apply start_inv.
  - by apply insert_inv.
  - by apply recheck_inv.
  - by apply send_inv.
  - by eapply (resolve_inv m c k id).
  - apply leave_inv; [done..| |done]. by rw H0.
  - by apply response_inv.
  - unfold reader_pong. destruct (pings m !! n) as [p|]; [|done]. simpl.
    destruct (ping_calls m !! p); by apply (calls_same_inv m).
  - apply (calls_same_inv m); try done; simpl; auto; lia.
  - by apply clear_inv.
  - apply (calls_same_inv m); try done; simpl; auto. pose proof (next_grows _ H0). lia.
  - by apply (calls_same_inv m).
  - unfold ping_send. destruct ok; by apply (calls_same_inv m).
  - unfold ping_resolve in H1. destruct (p_chan k); simplify_eq; by apply (calls_same_inv m).
Qed.

Lemma mreachable_inv m : mreachable m → minv m.
Proof.
  unfold mreachable. assert (minv mux_init) as Hinit.
  { split; simpl; try done; set_solver. }
  revert Hinit. generalize mux_init as m0. intros m0 Hm0 Hr. induction Hr as [|m1 m2 m3 Hs _ IH]; [done|].
  by apply IH, (mstep_inv m1).
Qed.

(** ** Requests *)

(** C30.  In every interleaving of callers, timeouts and reader, a request that
    returns a response returns one the peer sent under the id this very
    request was sent with, and no other request was ever sent with that id:
    answers are never swapped, however they are reordered. *)
Theorem response_matches_request m c k id body :
  mreachable m → calls m !! c = Some k → c_phase k = Returned id (Ok body) →
  (id, body) ∈ received m ∧ (id, c_body k) ∈ sent m ∧ ∀ r, (id, r) ∈ sent m → r = c_body k.
Proof.
  intros Hr Hk Hp. apply mreachable_inv in Hr. pose proof (mi_calls m Hr _ _ Hk) as Hok. unfold call_ok in Hok. rw Hp in Hok.
  destruct Hok as [H1 H2]. split_and!; [done|done|]. intros r Hx. by eapply (mi_sent_uniq m Hr).
Qed.

(** C35.  Once the reader task has ended, every request that waits has its channel
    resolved: it returns in one step of its own, with its response or with
    [Closed], without waiting for its deadline.  The re-check after the insert
    is what makes this true for requests that race with the teardown. *)
Theorem teardown_orphans_no_request m c k id :
  mreachable m → cleared m = true → calls m !! c = Some k → c_phase k = Waiting id →
  ∃ m', call_resolve c k id m = Some m' ∧ mstep m m'.
Proof.
  intros Hr Hcl Hk Hp. apply mreachable_inv in Hr. pose proof (mi_calls m Hr _ _ Hk) as Hok.
  unfold call_ok, chan_ok in Hok. rw Hp in Hok. destruct Hok as (_ & Hch & _).
  assert (∃ m', call_resolve c k id m = Some m') as [m' Hm'].
  { unfold call_resolve. destruct (c_chan k); [|by eexists..]. exfalso.
    destruct (mi_in m Hr _ _ Hch) as (k2 & Hk2 & _ & _ & Hins). specialize (Hins Hcl). congruence. }
  exists m'. split; [done|]. by eapply st_resolve.
Qed.

(** A run: one request overtaken by another's answer, and one that races the
    teardown. *)
Definition run_two : Mux :=
  let m := call_start 0 RqStatfs mux_init in
  let m := call_insert 0 (mkCall RqStatfs (Numbered 1) Open) 1 m in
  let m := call_recheck 0 (mkCall RqStatfs (Inserted 1) Open) 1 m in
  let m := call_send true 0 (mkCall RqStatfs (Sending 1) Open) 1 m in
  let m := reader_response 1 (Ok RsOk) m in
  default m (call_resolve 0 (mkCall RqStatfs (Waiting 1) (Value (Ok RsOk))) 1 m).

Definition run_torn : Mux :=
  let m := call_start 0 RqStatfs mux_init in
  let m := call_insert 0 (mkCall RqStatfs (Numbered 1) Open) 1 m in
  let m := call_recheck 0 (mkCall RqStatfs (Inserted 1) Open) 1 m in
  let m := reader_clear (reader_close m) in
  call_send true 0 (mkCall RqStatfs (Sending 1) Dropped) 1 m.

Lemma run_two_reachable : mreachable run_two.
Proof.
  unfold mreachable, run_two.
  eapply rtc_l; [apply (st_start 0 RqStatfs); [done|vm_compute; reflexivity]|].
  eapply rtc_l; [by eapply (st_insert 0)|]. eapply rtc_l; [by eapply (st_recheck 0)|].
  eapply rtc_l; [by eapply (st_send true 0)|]. eapply rtc_l; [by apply (st_response 1 (Ok RsOk))|].
  eapply rtc_l; [|apply rtc_refl]. eapply (st_resolve 0 _ 1); [done|done|]. vm_compute. reflexivity.
Qed.

Lemma response_matches_request_witness :
  (1, Ok RsOk) ∈ received run_two ∧ (1, RqStatfs) ∈ sent run_two ∧ ∀ r, (1, r) ∈ sent run_two → r = RqStatfs.
Proof.
  apply (response_matches_request run_two 0 (mkCall RqStatfs (Returned 1 (Ok (Ok RsOk))) (Value (Ok RsOk))) 1 (Ok RsOk)).
  - exact run_two_reachable.
  - vm_compute. reflexivity.
  - reflexivity.
Defined.

Lemma run_torn_reachable : mreachable run_torn.
Proof.
  unfold mreachable, run_torn.
  eapply rtc_l; [apply (st_start 0 RqStatfs); [done|vm_compute; reflexivity]|].
  eapply rtc_l; [by eapply (st_insert 0)|]. eapply rtc_l; [by eapply (st_recheck 0)|].
  eapply rtc_l; [by apply st_close|]. eapply rtc_l; [by apply st_clear|].
  eapply rtc_l; [|apply rtc_refl]. eapply (st_send true 0); [vm_compute; reflexivity|done].
Qed.

Lemma teardown_orphans_no_request_witness :
  ∃ m', call_resolve 0 (mkCall RqStatfs (Waiting 1) Dropped) 1 run_torn = Some m' ∧ mstep run_torn m'.
Proof.
  apply (teardown_orphans_no_request run_torn 0 (mkCall RqStatfs (Waiting 1) Dropped) 1).
  - exact run_torn_reachable.
  - reflexivity.
  - vm_compute. reflexivity.
  - reflexivity.
Defined.

(** ** Pings *)

(** A ping that took its number before the teardown and inserts after it. *)
Definition orphan : PingCall := mkPing (PWaiting 1) Open.
Definition orphaned : Mux :=
  ping_send true 0 (mkPing (PInserted 1) Open) 1
    (ping_insert 0 (mkPing (PNumbered 1) Open) 1 (reader_clear (reader_close (ping_start 0 mux_init)))).

Lemma orphan_stays m m' p n :
  mstep m m' → closed m = true → cleared m = true → ping_calls m !! p = Some (mkPing (PWaiting n) Open) →
  closed m' = true ∧ cleared m' = true ∧ ping_calls m' !! p = Some (mkPing (PWaiting n) Open).
Proof.
  intros Hs Hc Hcl Hp. destruct Hs; try congruence; try done.
  - unfold call_start. by rw Hc.
  - unfold call_recheck. by rw Hc.
  - unfold call_send. by destruct ok.
  - unfold call_resolve in H1. destruct (c_chan k); by simplify_eq.
  - split_and!; [done|done|]. simpl. rw lookup_insert_ne //. congruence.
  - split_and!; [done|done|]. simpl. rw lookup_insert_ne //. intros ->. by simplify_eq.
  - unfold ping_send. destruct ok; (split_and!; [done|done|]); simpl; (rw lookup_insert_ne //; intros ->; by simplify_eq).
  - unfold ping_resolve in H1. destruct (decide (p0 = p)) as [->|]; [by simplify_eq|].
    destruct (p_chan k); simplify_eq; (split_and!; [done|done|]); simpl; by rw lookup_insert_ne.
Qed.

(** [ping] has no re-check, and the heartbeat awaits it without a deadline: a
    ping that races the teardown is reachable, and from there nothing that
    anyone does ever resolves it. *)
Theorem ping_can_wait_forever :
  mreachable orphaned ∧ ∀ m', rtc mstep orphaned m' → ping_calls m' !! 0%nat = Some orphan.
Proof.
  split.
  - unfold mreachable, orphaned.
    eapply rtc_l; [apply (st_ping_start 0); [done|vm_compute; reflexivity]|].
    eapply rtc_l; [by apply st_close|]. eapply rtc_l; [by apply st_clear|].
    eapply rtc_l; [eapply (st_ping_insert 0); [vm_compute; reflexivity|done]|].
    eapply rtc_l; [|apply rtc_refl]. eapply (st_ping_send true 0); [vm_compute; reflexivity|done].
  - intros m' Hr. enough (closed m' = true ∧ cleared m' = true ∧ ping_calls m' !! 0%nat = Some orphan) as (_ & _ & ?) by done.
    assert (closed orphaned = true ∧ cleared orphaned = true ∧ ping_calls orphaned !! 0%nat = Some orphan) as H0 by done.
    revert H0. generalize orphaned as m0, Hr. clear Hr. intros m0 Hr. induction Hr as [|m1 m2 m3 Hs _ IH]; [done|].
    intros (? & ? & ?). apply IH. by eapply orphan_stays.
Qed.

(** ** The server's loop *)

(** What [serve_connection_with] does with one frame. *)
Inductive ServeAct : Type :=
| Spawn (id : Z) (body : Request)
| Reply (f : Frame)
| Ignored.

Definition serve_frame (f : Frame) : ServeAct :=
  match f with
  | FRequest id body => Spawn id body
  | FPing nonce => Reply (FPong nonce)
  | _ => Ignored
  end.

Section Serve.
Context {Glob GlobSet : Type} `{G : Globs Glob GlobSet}.
#[local] Abbreviation W := (World (GlobSet := GlobSet)).

(** One frame served by the agent's session, the spawned task run to its end;
    a call that still waits has sent nothing. *)
Definition serve_one (env : Env) (sid : Z) (f : Frame) (w : W) : list Frame * W :=
  match serve_frame f with
  | Spawn id body =>
      match handle env sid body w with
      | (Ok r, w') => ([FResponse id (Ok r)], w')
      | (Err (Fail e), w') => ([FResponse id (Err e)], w')
      | (Err Pending, w') => ([], w')
      end
  | Reply f => ([f], w)
  | Ignored => ([], w)
  end.

(** Frames arriving one by one, each at its own time. *)
Fixpoint serve_all (sid : Z) (frames : list (Env * Frame)) (w : W) : list Frame * W :=
  match frames with
  | [] => ([], w)
  | (env, f) :: frames =>
      let '(out, w) := serve_one env sid f w in
      let '(rest, w) := serve_all sid frames w in
      (out ++ rest, w)
  end.

Lemma serve_pings sid (frames : list (Env * Z)) w :
  serve_all sid ((λ '(e, n), (e, FPing n)) <$> frames) w = ((λ '(_, n), FPong n) <$> frames, w).
Proof. induction frames as [|[e n] frames IH]; [done|]. simpl. by rw IH. Qed.

(** Pings do not renew a session's lease.  However many pings an otherwise
    idle client sends, each is answered and none is seen by the session; when
    the lease has passed since its last request, the reaper closes all its
    handles and drops its locks, though the client is alive. *)
Theorem pings_do_not_renew_lease env lease id x w s (frames : list (Env * Z)) :
  attached_to id x w → w_sessions w !! id = Some s → s_registered s = true →
  lease < now env - s_last_seen s →
  let '(pongs, w1) := serve_all id ((λ '(e, n), (e, FPing n)) <$> frames) w in
  length pongs = length frames ∧
  ∃ s' x', w_sessions (reap env lease id w1).2 !! id = Some s' ∧ s_handles s' = ∅ ∧
    w_exports (reap env lease id w1).2 !! x_name x = Some x' ∧
    ∀ p e, x_locks x' !! p = Some e → Forall (λ h, h_session h ≠ id) (holders e).
Proof.
  intros (s0 & Hs0 & Ha & Hx) Hs Hreg Hl. rw serve_pings length_fmap. split; [done|]. assert (s0 = s) as -> by congruence.
  unfold reap. assert (the_session id w = (Ok s, w)) as Ht by (unfold the_session; by rw Hs).
  rw (sbind_eq _ _ _ _ _ Ht) Hreg (proj2 (Z.ltb_lt _ _)); [|lia]. cbn [andb].
  unfold force_release, attached_export, sbind, the_session, smod.
  rw Hs. cbn [mbind option_bind]. rw Ha. cbn [mbind option_bind]. rw Hx.
  pose proof (release_session_spec (x_locks x) id) as Hrel.
  destruct (Locks.release_session (x_locks x) id) as [[n lm] chs]. destruct Hrel as (_ & H1 & _). simpl. rw Hs /=.
  rw lookup_alter_eq Hs lookup_alter_eq Hx. do 2 eexists. split_and!; [done|done|done|].
  intros p e Hp. by apply (H1 p e).
Qed.
End Serve.

Lemma pings_do_not_renew_lease_witness :
  let later := mkEnv (fault Demo.env) 40000 [] (new_mode Demo.env) 0 (space Demo.env) in
  ∃ s', w_sessions (reap later 30000 1 Demo.opened).2 !! 1 = Some s' ∧ s_handles s' = ∅.
Proof.
  intros later. destruct (w_sessions Demo.opened !! 1) as [s|] eqn:Es; [|vm_compute in Es; discriminate].
  assert (s_registered s = true ∧ s_last_seen s = 1000) as [Hr Hl] by (vm_compute in Es; by injection Es as <-).
  destruct (pings_do_not_renew_lease later 30000 1 (Demo.export false []) Demo.opened s [])
    as (_ & s' & x' & H1 & H2 & _).
  - by exists s; split; [exact Es|]; vm_compute in Es; injection Es as <-.
  - exact Es.
  - exact Hr.
  - rw Hl. reflexivity.
  - exists s'. split; [exact H1|exact H2].
Defined.
