(* ===== verification/ServerConn.v ===== *)
(** * ServerConn: one connection of the server, and its listeners

    alloyfs-transport/src/server.rs, and the accept loop and stdio session of
    tcp.rs and stdio.rs.  The connection is a transition system: the reader,
    a task per request, the forwarders of events and the writer take one step
    at a time, in any order; what the peer sends, when a write fails and when
    the connection ends is chosen freely.  What the transport expects of the
    agent is the class [RequestHandler]; a session of the agent is an instance.

    A request is answered once, by the handler's answer to it and under its own
    number; the outgoing queue never holds more than its capacity; nothing is
    lost while the writer lives; the handler hears of the connection's end
    exactly once.  The accept loop ends with the first connection that cannot
    be accepted. *)

From S2P Require Import Prelude Messages Common Exclude Locks EventHub Fs Agent AgentFacts Transport.

(** ** What the transport expects of the agent *)

(** A call answers or parks, with what it needs to go on when it is woken. *)
Class RequestHandler (S E T : Type) := {
  rh_handle : E → Request → S → (Body + T) * S;
  rh_resume : E → T → S → (Body + T) * S;
  rh_connected : S → S;
  rh_disconnected : S → S
}.

(** Capacity of the outgoing channel. *)
Definition OUT_CAPACITY : nat := 256.

Inductive ConnPhase : Type :=
| Greeting                                  (* nothing read yet *)
| Serving (proto : Z)                       (* the dispatch loop *)
| Leaving (r : result unit TransportError)  (* the writer has its grace *)
| Over (r : result unit TransportError).

Inductive ConnStep (S E : Type) : Type :=
| Greet (first : Frame) (acked : bool)      (* the first frame; is the answer delivered? *)
| NoGreeting (e : TransportError)           (* end of file or garbage instead *)
| Receive (f : Frame)
| RunTask (i : nat) (e : E)                 (* a request's handler returns *)
| SendReply (i : nat)                       (* its task gets a slot of the channel *)
| PushEvents (batch : list FsEvent)
| WriteNext (delivered : bool)
| Ends (r : result unit TransportError)     (* end of file, or a read error *)
| WriterDone                                (* every sender is gone *)
| GraceOver                                 (* WRITER_DRAIN_GRACE *)
| Meanwhile (f : S → S).                    (* other connections work on what is shared *)
Arguments Greet {S E}.
Arguments NoGreeting {S E}.
Arguments Receive {S E}.
Arguments RunTask {S E}.
Arguments SendReply {S E}.
Arguments PushEvents {S E}.
Arguments WriteNext {S E}.
Arguments Ends {S E}.
Arguments WriterDone {S E}.
Arguments GraceOver {S E}.
Arguments Meanwhile {S E}.

Section Connection.
Context {S E T : Type} `{H : RequestHandler S E T}.
Context (server_name : string) (min_proto : Z).

Record ServerConn : Type := mkServerConn {
  sc_phase : ConnPhase;
  sc_greeted : option Frame;                 (* the handshake's answer *)
  sc_received : list (Z * Request);          (* every request read *)
  sc_tasks : list (Z * Request * option T);  (* those whose handler has not returned, or is parked *)
  sc_answered : list (Z * Request * Body);   (* those whose handler has *)
  sc_sending : list (Z * Body);              (* answers without a slot yet *)
  sc_queue : list Frame;
  sc_writing : bool;                         (* the writer is alive *)
  sc_written : list Frame;
  sc_lost : list Frame;                      (* what the writer never took *)
  sc_connects : nat;
  sc_disconnects : nat;
  sc_state : S
}.

Definition conn_new (s : S) : ServerConn := mkServerConn Greeting None [] [] [] [] [] true [] [] 0 0 s.

Definition in_phase (p : ConnPhase) (c : ServerConn) : ServerConn :=
  mkServerConn p (sc_greeted c) (sc_received c) (sc_tasks c) (sc_answered c) (sc_sending c) (sc_queue c) (sc_writing c) (sc_written c) (sc_lost c)
    (sc_connects c) (sc_disconnects c) (sc_state c).
Definition with_out (sending : list (Z * Body)) (queue : list Frame) (writing : bool) (written lost : list Frame) (c : ServerConn) : ServerConn :=
  mkServerConn (sc_phase c) (sc_greeted c) (sc_received c) (sc_tasks c) (sc_answered c) sending queue writing written lost
    (sc_connects c) (sc_disconnects c) (sc_state c).

(** The handshake; [connected] follows it. *)
Definition greet (first : Frame) (acked : bool) (c : ServerConn) : ServerConn :=
  let gone e reply :=
    mkServerConn (Over (Err e)) reply (sc_received c) (sc_tasks c) (sc_answered c) (sc_sending c) (sc_queue c) false (sc_written c) (sc_lost c)
      (sc_connects c) (sc_disconnects c) (sc_state c) in
  match server_hello min_proto server_name first with
  | (reply, Err e) => gone e (if acked then reply else None)
  | (reply, Ok proto) =>
      if acked then
        mkServerConn (Serving proto) reply (sc_received c) (sc_tasks c) (sc_answered c) (sc_sending c) (sc_queue c) (sc_writing c)
          (sc_written c) (sc_lost c) (Datatypes.S (sc_connects c)) (sc_disconnects c) (rh_connected (sc_state c))
      else gone TClosed None
  end.

(** [out_tx.send(frame)]: waits for a slot ([None]), or fails when the receiver
    is gone, and the frame with it. *)
Definition out_send (f : Frame) (c : ServerConn) : option ServerConn :=
  if negb (sc_writing c) then Some (with_out (sc_sending c) (sc_queue c) false (sc_written c) (sc_lost c ++ [f]) c)
  else if bool_decide (length (sc_queue c) < OUT_CAPACITY)%nat then
    Some (with_out (sc_sending c) (sc_queue c ++ [f]) true (sc_written c) (sc_lost c) c)
  else None.

(** One frame of the dispatch loop: a ping waits for its slot there. *)
Definition receive (f : Frame) (c : ServerConn) : option ServerConn :=
  match serve_frame f with
  | Spawn id body =>
      Some (mkServerConn (sc_phase c) (sc_greeted c) (sc_received c ++ [(id, body)]) (sc_tasks c ++ [(id, body, None)]) (sc_answered c) (sc_sending c) (sc_queue c)
        (sc_writing c) (sc_written c) (sc_lost c) (sc_connects c) (sc_disconnects c) (sc_state c))
  | Reply f => out_send f c
  | Ignored => Some c
  end.

(** A request's task: the handler, then the channel. *)
Definition run_handler (i : nat) (e : E) (c : ServerConn) : option ServerConn :=
  '(id, req, parked) ← sc_tasks c !! i;
  let '(out, s) := match parked with None => rh_handle e req (sc_state c) | Some t => rh_resume e t (sc_state c) end in
  let go tasks answered sending :=
    Some (mkServerConn (sc_phase c) (sc_greeted c) (sc_received c) tasks answered sending (sc_queue c) (sc_writing c) (sc_written c) (sc_lost c)
      (sc_connects c) (sc_disconnects c) s) in
  match out with
  | inl body => go (delete i (sc_tasks c)) (sc_answered c ++ [(id, req, body)]) (sc_sending c ++ [(id, body)])
  | inr t => go (<[i := (id, req, Some t)]> (sc_tasks c)) (sc_answered c) (sc_sending c)
  end.

Definition send_reply (i : nat) (c : ServerConn) : option ServerConn :=
  '(id, body) ← sc_sending c !! i;
  out_send (FResponse id body) (with_out (delete i (sc_sending c)) (sc_queue c) (sc_writing c) (sc_written c) (sc_lost c) c).

(** The writer: a failed write ends it and closes the channel. *)
Definition write_next (delivered : bool) (c : ServerConn) : option ServerConn :=
  if negb (sc_writing c) then None
  else match sc_queue c with
  | [] => None
  | f :: queue =>
      Some (if delivered : bool then with_out (sc_sending c) queue true (sc_written c ++ [f]) (sc_lost c) c
            else with_out (sc_sending c) [] false (sc_written c) (sc_lost c ++ f :: queue) c)
  end.

(** The loop is left, [disconnected] is called. *)
Definition leave (r : result unit TransportError) (c : ServerConn) : ServerConn :=
  mkServerConn (Leaving r) (sc_greeted c) (sc_received c) (sc_tasks c) (sc_answered c) (sc_sending c) (sc_queue c) (sc_writing c) (sc_written c) (sc_lost c)
    (sc_connects c) (Datatypes.S (sc_disconnects c)) (rh_disconnected (sc_state c)).

Definition conn_step (st : ConnStep S E) (c : ServerConn) : option ServerConn :=
  match st, sc_phase c with
  | Greet first acked, Greeting => Some (greet first acked c)
  | NoGreeting e, Greeting =>
      Some (in_phase (Over (Err e)) (with_out (sc_sending c) (sc_queue c) false (sc_written c) (sc_lost c) c))
  | Receive f, Serving _ => receive f c
  | Ends r, Serving _ => Some (leave r c)
  | RunTask i e, _ => run_handler i e c
  | SendReply i, _ => send_reply i c
  | PushEvents batch, (Serving _ | Leaving _ | Over _) => out_send (FEvents batch) c
  | WriteNext delivered, (Serving _ | Leaving _) => write_next delivered c
  | WriterDone, Leaving r =>
      if bool_decide (sc_tasks c = [] ∧ sc_sending c = [] ∧ sc_queue c = []) || negb (sc_writing c)
      then Some (in_phase (Over r) (with_out (sc_sending c) (sc_queue c) false (sc_written c) (sc_lost c) c)) else None
  | GraceOver, Leaving r =>
      Some (in_phase (Over r) (with_out (sc_sending c) [] false (sc_written c) (sc_lost c ++ sc_queue c) c))
  | Meanwhile f, _ =>
      Some (mkServerConn (sc_phase c) (sc_greeted c) (sc_received c) (sc_tasks c) (sc_answered c) (sc_sending c) (sc_queue c) (sc_writing c)
        (sc_written c) (sc_lost c) (sc_connects c) (sc_disconnects c) (f (sc_state c)))
  | _, _ => None
  end.

Fixpoint run_conn (steps : list (ConnStep S E)) (c : ServerConn) : option ServerConn :=
  match steps with
  | [] => Some c
  | st :: steps => c ← conn_step st c; run_conn steps c
  end.
End Connection.
Arguments ServerConn S T : clear implicits.

(** ** Accounting *)

Section Accounting.
Context {S E T : Type} `{H : RequestHandler S E T}.
Context (server_name : string) (min_proto : Z).
#[local] Abbreviation Conn := (ServerConn S T).

(** The parked calls and the answers a request can lead to. *)
Inductive parks (req : Request) : T → Prop :=
| parks_first e s t s' : rh_handle e req s = (inr t, s') → parks req t
| parks_again t e s t' s' : parks req t → rh_resume e t s = (inr t', s') → parks req t'.
Definition may_answer (req : Request) (body : Body) : Prop :=
  (∃ e s s', rh_handle e req s = (inl body, s')) ∨ (∃ t e s s', parks req t ∧ rh_resume e t s = (inl body, s')).

Definition response_of (f : Frame) : option (Z * Body) := match f with FResponse id body => Some (id, body) | _ => None end.
Definition request_of (task : Z * Request * option T) : Z * Request := task.1.
Definition asked (a : Z * Request * Body) : Z * Request := a.1.
Definition given (a : Z * Request * Body) : Z * Body := (a.1.1, a.2).

(** Where the connection is, what the handler heard of it. *)
Definition told (c : Conn) : Prop :=
  match sc_phase c with
  | Greeting => sc_connects c = 0%nat ∧ sc_disconnects c = 0%nat
  | Serving _ => sc_connects c = 1%nat ∧ sc_disconnects c = 0%nat
  | Leaving _ => sc_connects c = 1%nat ∧ sc_disconnects c = 1%nat
  | Over _ => sc_connects c = sc_disconnects c ∧ (sc_connects c ≤ 1)%nat
  end.

Record conn_ok (c : Conn) : Prop := {
  co_received : sc_received c ≡ₚ (request_of <$> sc_tasks c) ++ (asked <$> sc_answered c);
  co_answers : given <$> sc_answered c ≡ₚ
    sc_sending c ++ omap response_of (sc_queue c) ++ omap response_of (sc_written c) ++ omap response_of (sc_lost c);
  co_parked : Forall (λ task, ∀ t, task.2 = Some t → parks task.1.2 t) (sc_tasks c);
  co_honest : Forall (λ a, may_answer a.1.2 a.2) (sc_answered c);
  co_bounded : (length (sc_queue c) ≤ OUT_CAPACITY)%nat;
  co_kept : sc_writing c = true → sc_lost c = [];
  co_told : told c
}.

Lemma conn_new_ok s : conn_ok (conn_new s).
Proof. split; cbn; try done; try apply Forall_nil_2; unfold OUT_CAPACITY; lia. Qed.

(** A frame that goes to the channel is queued or lost. *)
Lemma out_send_ok f (c c' : Conn) rest : out_send f c = Some c' →
  conn_ok (with_out (rest ++ sc_sending c) (sc_queue c) (sc_writing c) (sc_written c) (sc_lost c) c) →
  rest ≡ₚ option_list (response_of f) → conn_ok c'.
Proof.
  unfold out_send. intros Hs [H1 H2 H3 H4 H5 H6 H7] Hrest. cbn in *.
  destruct (sc_writing c) eqn:Hw; cbn [negb] in Hs; [case_bool_decide; [|done]|]; injection Hs as <-.
  - split; cbn; try done; [|rw length_app; cbn; lia].
    rw H2 Hrest omap_app. cbn. destruct (response_of f); cbn; solve_Permutation.
  - split; cbn; try done. rw H2 Hrest omap_app. cbn. destruct (response_of f); cbn; solve_Permutation.
Qed.

Lemma greet_ok first acked (c : Conn) : sc_phase c = Greeting → conn_ok c → conn_ok (greet server_name min_proto first acked c).
Proof.
  intros Hp [H1 H2 H3 H4 H5 H6 H7]. unfold told in H7. rw Hp in H7. destruct H7 as [Hc Hd]. unfold greet.
  destruct (server_hello _ _ _) as [reply [proto|e]]; [destruct acked|]; split; cbn; try done; unfold told; cbn; lia.
Qed.

Lemma receive_ok f (c c' : Conn) : conn_ok c → receive f c = Some c' → conn_ok c'.
Proof.
  intros Hc. unfold receive. destruct (serve_frame f) as [id body|g|] eqn:Ef.
  - intros [= <-]. destruct Hc as [H1 H2 H3 H4 H5 H6 H7]. split; cbn; try done.
    + rw fmap_app H1. cbn. solve_Permutation.
    + apply Forall_app_2; [done|]. by apply Forall_singleton.
  - intros Hs. eapply (out_send_ok g c c' []); [done| |].
    + by destruct Hc.
    + destruct f; try discriminate Ef. by injection Ef as <-.
  - by intros [= <-].
Qed.

Lemma run_handler_ok i e (c c' : Conn) : conn_ok c → run_handler i e c = Some c' → conn_ok c'.
Proof.
  intros [H1 H2 H3 H4 H5 H6 H7]. unfold run_handler.
  destruct (sc_tasks c !! i) as [[[id req] parked]|] eqn:Hi; cbn [mbind option_bind]; [|done].
  pose proof (proj1 (Forall_lookup _ _) H3 i _ Hi) as Hpark. cbn in Hpark.
  assert (∀ out s, match parked with None => rh_handle e req (sc_state c) | Some t => rh_resume e t (sc_state c) end = (out, s) →
    match out with inl body => may_answer req body | inr t => parks req t end) as Hout.
  { intros [body|t] s Hr; destruct parked as [t0|].
    - right. eexists _, _, _, _. split; [by apply Hpark|exact Hr].
    - left. by eexists _, _, _.
    - eapply parks_again; [by apply Hpark|exact Hr].
    - by eapply parks_first. }
  destruct (match parked with None => _ | Some _ => _ end) as [out s]. specialize (Hout out s eq_refl).
  destruct out as [body|t]; intros [= <-]; split; cbn; try done.
  - apply delete_Permutation in Hi. rw H1. revert Hi. generalize (delete i (sc_tasks c)). intros rest ->. rw fmap_app. cbn. solve_Permutation.
  - rw fmap_app H2. cbn. solve_Permutation.
  - by apply Forall_delete.
  - apply Forall_app_2; [done|]. by apply Forall_singleton.
  - rw H1. rw list_fmap_insert. cbn. rw list_insert_id //. by rw list_lookup_fmap Hi.
  - apply Forall_insert; [done|]. by intros t' [= <-].
Qed.

Lemma send_reply_ok i (c c' : Conn) : conn_ok c → send_reply i c = Some c' → conn_ok c'.
Proof.
  intros Hc. unfold send_reply. destruct (sc_sending c !! i) as [[id body]|] eqn:Hi; cbn [mbind option_bind]; [|done].
  intros Hs. eapply (out_send_ok _ _ _ [(id, body)] Hs); [|done]. destruct Hc as [H1 H2 H3 H4 H5 H6 H7]. split; cbn; try done.
  apply delete_Permutation in Hi. rw H2 {1}Hi. done.
Qed.

Lemma write_next_ok delivered (c c' : Conn) : conn_ok c → write_next delivered c = Some c' → conn_ok c'.
Proof.
  intros [H1 H2 H3 H4 H5 H6 H7]. unfold write_next. destruct (sc_writing c); [|done]. cbn [negb].
  destruct (sc_queue c) as [|f queue]; [done|]. intros [= <-]. destruct delivered; split; cbn in *; try done; try lia.
  - rw H2 omap_app. cbn. destruct (response_of f); solve_Permutation.
  - rw H2 omap_app. cbn. destruct (response_of f); solve_Permutation.
Qed.

Lemma conn_step_ok st (c c' : Conn) : conn_ok c → conn_step server_name min_proto st c = Some c' → conn_ok c'.
Proof.
  intros Hc. unfold conn_step. destruct st as [first acked|e|f|i e|i|batch|delivered|r| | |f].
  - destruct (sc_phase c) eqn:Hp; try done. intros [= <-]. by apply greet_ok.
  - destruct (sc_phase c) eqn:Hp; try done. intros [= <-]. destruct Hc as [H1 H2 H3 H4 H5 H6 H7]. unfold told in H7. rw Hp in H7.
    split; cbn; try done. unfold told; cbn. lia.
  - destruct (sc_phase c); try done. by apply receive_ok.
  - destruct (sc_phase c); by apply run_handler_ok.
  - destruct (sc_phase c); by apply send_reply_ok.
  - intros Hs. assert (out_send (FEvents batch) c = Some c') as Hs' by (by destruct (sc_phase c)).
    eapply (out_send_ok _ _ _ [] Hs'); [|done]. by destruct Hc.
  - intros Hs. apply (write_next_ok delivered c); [done|]. by destruct (sc_phase c).
  - destruct (sc_phase c) eqn:Hp; try done. intros [= <-]. destruct Hc as [H1 H2 H3 H4 H5 H6 H7]. unfold told in H7. rw Hp in H7.
    split; cbn; try done. unfold told; cbn. lia.
  - destruct (sc_phase c) eqn:Hp; try done. destruct (bool_decide _ || _); [|done]. intros [= <-]. destruct Hc as [H1 H2 H3 H4 H5 H6 H7].
    unfold told in H7. rw Hp in H7. split; cbn; try done. unfold told; cbn. lia.
  - destruct (sc_phase c) eqn:Hp; try done. intros [= <-]. destruct Hc as [H1 H2 H3 H4 H5 H6 H7]. unfold told in H7. rw Hp in H7.
    split; cbn; try done; [|lia|unfold told; cbn; lia]. rw H2 omap_app. solve_Permutation.
  - destruct Hc as [H1 H2 H3 H4 H5 H6 H7]. revert H7. unfold told. destruct (sc_phase c) eqn:Hp; intros H7 [= <-]; by split.
Qed.

Lemma run_conn_ok steps (c c' : Conn) : conn_ok c → run_conn server_name min_proto steps c = Some c' → conn_ok c'.
Proof.
  revert c. induction steps as [|st steps IH]; intros c Hc; cbn [run_conn]; [by intros [= <-]|].
  destruct (conn_step _ _ st c) as [c1|] eqn:E1; cbn [mbind option_bind]; [|done]. apply IH. by eapply conn_step_ok.
Qed.

(** C7.  The server's side of a connection.  However frames, handlers, pushed events,
    writes, failures, the work of other connections and the end of this one
    interleave: every request
    read is still with its handler or was answered once, by an answer the
    handler gives to that request; every answer is on its way, in the queue,
    written or lost under its request's number, and none is lost while the
    writer lives; the queue never exceeds its capacity; and once the
    connection is over its handler has heard of the end exactly as often as of
    the beginning. *)
Theorem connection_accounts_for_requests steps s (c : Conn) : run_conn server_name min_proto steps (conn_new s) = Some c →
  sc_received c ≡ₚ (request_of <$> sc_tasks c) ++ (asked <$> sc_answered c) ∧
  Forall (λ a, may_answer a.1.2 a.2) (sc_answered c) ∧
  given <$> sc_answered c ≡ₚ
    sc_sending c ++ omap response_of (sc_queue c) ++ omap response_of (sc_written c) ++ omap response_of (sc_lost c) ∧
  (sc_writing c = true → sc_lost c = []) ∧ (length (sc_queue c) ≤ OUT_CAPACITY)%nat ∧
  (∀ r, sc_phase c = Over r → sc_disconnects c = sc_connects c).
Proof.
  intros Hrun. destruct (run_conn_ok steps (conn_new s) c (conn_new_ok s) Hrun) as [H1 H2 H3 H4 H5 H6 H7].
  split_and!; try done. intros r Hp. unfold told in H7. rw Hp in H7. by destruct H7.
Qed.
End Accounting.

(** ** The agent's sessions behind it *)

(** A call that waits: a [Lock] with what it holds on to and the channel it
    sleeps on, or a transfer the operating system does not finish. *)
Inductive Parked {GlobSet} : Type :=
| OnLock (x : Export (GlobSet := GlobSet)) (path : RelPath) (fh : Z) (kind : LockKind) (channel : Z)
| OnDisk.
Arguments Parked GlobSet : clear implicits.

Section Agent.
Context {Glob GlobSet : Type} `{G : Globs Glob GlobSet}.
#[local] Abbreviation W := (World (GlobSet := GlobSet)).
Context (sid : Z).

Definition parked_of (req : Request) (w : W) : Parked GlobSet :=
  default OnDisk
    match req with
    | RqLock fh kind _ =>
        s ← w_sessions w !! sid; name ← s_attached s; x ← w_exports w !! name; f ← s_handles s !! fh;
        Some (OnLock x (of_path f) fh kind (w_next_channel w))
    | _ => None
    end.

(** How a handler's run ends for the transport. *)
Definition outcome (parked : Parked GlobSet) (r : result Response Stop) : Body + Parked GlobSet :=
  match r with Ok resp => inl (Ok resp) | Err (Fail e) => inl (Err e) | Err Pending => inr parked end.

Definition agent_handle (env : Env) (req : Request) (w : W) : (Body + Parked GlobSet) * W :=
  let '(r, w') := handle env sid req w in (outcome (parked_of req w) r, w').

(** The next turn of a parked [lock], once its channel resolved. *)
Definition agent_resume (env : Env) (pk : Parked GlobSet) (w : W) : (Body + Parked GlobSet) * W :=
  match pk with
  | OnLock x path fh kind channel =>
      if bool_decide (channel ∈ w_resolved w) then
        let '(r, w') := do_lock x path sid fh kind true w in
        (outcome (OnLock x path fh kind (w_next_channel w)) (match r with Ok _ => Ok RsOk | Err e => Err e end), w')
      else (inr pk, w)
  | OnDisk => (inr pk, w)
  end.

Definition agent_handler : RequestHandler W Env (Parked GlobSet) := {|
  rh_handle := agent_handle;
  rh_resume := agent_resume;
  rh_connected w := (connected sid w).2;
  rh_disconnected w := (disconnected sid w).2
|}.
End Agent.

(** ** Listeners *)

(** What [accept] gives: a connection (and whether its option could be set), or
    an error. *)
Inductive Accept : Type := Accepted (nodelay : option IoErrorKind) | AcceptFailed (e : IoErrorKind).

Section Listeners.
Context {Glob GlobSet : Type} `{G : Globs Glob GlobSet}.
#[local] Abbreviation W := (World (GlobSet := GlobSet)).

(** The accept loop of [tcp::serve]: the sessions it starts, until the first
    error, which it returns. *)
Fixpoint accept_loop (env : Env) (token : option string) (accepts : list Accept) (w : W) : list Z * option IoErrorKind * W :=
  match accepts with
  | [] => ([], None, w)
  | AcceptFailed e :: _ | Accepted (Some e) :: _ => ([], Some e, w)
  | Accepted None :: accepts =>
      match with_token env token w with
      | (Ok sid, w) => let '(sids, e, w) := accept_loop env token accepts w in (sid :: sids, e, w)
      | (Err _, w) => ([], None, w)
      end
  end.

Definition tcp_serve (env : Env) (token : option string) (bound : result unit IoErrorKind) (accepts : list Accept) (w : W) :
    list Z * option IoErrorKind * W :=
  match bound with Err e => ([], Some e, w) | Ok _ => accept_loop env token accepts w end.

(** [stdio::serve]: one session, without a token. *)
Definition stdio_session (env : Env) (w : W) : result Z Stop * W := with_token env None w.

(** The sessions of a listener, as they start. *)
Definition fresh_session (env : Env) (token : option string) : Session :=
  mkSession None ∅ 1 false (now env) token (match token with Some _ => false | None => true end) [] true.

Lemma with_token_eq env token (w : W) :
  with_token env token w =
  (Ok (w_next_session w),
   mkWorld (w_fs w) (w_exports w) (<[w_next_session w := fresh_session env token]> (w_sessions w)) (w_next_session w + 1) (w_next_channel w) (w_resolved w)).
Proof. done. Qed.

Lemma accept_loop_spec env token accepts : ∀ w : W, let '(sids, e, w') := accept_loop env token accepts w in
  NoDup sids ∧ w_exports w' = w_exports w ∧ w_fs w' = w_fs w ∧
  (∀ sid, sid ∈ sids → w_next_session w ≤ sid ∧ w_sessions w' !! sid = Some (fresh_session env token)) ∧
  (∀ sid, sid < w_next_session w → w_sessions w' !! sid = w_sessions w !! sid).
Proof.
  induction accepts as [|a accepts IH]; intros w; cbn [accept_loop]; [split_and!; try done; [constructor|set_solver]|].
  destruct a as [[e|]|e]; [split_and!; try done; [constructor|set_solver]| |split_and!; try done; [constructor|set_solver]].
  rw with_token_eq. specialize (IH (mkWorld (w_fs w) (w_exports w) (<[w_next_session w := fresh_session env token]> (w_sessions w))
    (w_next_session w + 1) (w_next_channel w) (w_resolved w))).
  destruct (accept_loop _ _ _ _) as [[sids e] w']. destruct IH as (Hd & He & Hf & Hnew & Hold). cbn in *. split_and!; try done.
  - constructor; [|done]. intros Hin. apply Hnew in Hin. lia.
  - intros sid [->|Hin]%elem_of_cons; [|destruct (Hnew sid Hin); split; [lia|done]].
    split; [lia|]. rw Hold; [|lia]. by rw lookup_insert_eq.
  - intros sid Hlt. rw Hold; [|lia]. by rw lookup_insert_ne; [|lia].
Qed.

(** Every connection gets a session of its own.  The sessions a listener starts
    are new and distinct, nobody else's session changes, and each begins
    detached, without handles, and unauthenticated if the listener has a
    token. *)
Theorem connections_are_isolated env token bound accepts (w : W) :
  let '(sids, _, w') := tcp_serve env token bound accepts w in
  NoDup sids ∧ w_exports w' = w_exports w ∧ w_fs w' = w_fs w ∧
  (∀ sid, sid ∈ sids → w_next_session w ≤ sid ∧ w_sessions w' !! sid = Some (fresh_session env token)) ∧
  (∀ sid, sid < w_next_session w → w_sessions w' !! sid = w_sessions w !! sid).
Proof.
  unfold tcp_serve. destruct bound; [apply accept_loop_spec|]. split_and!; try done; [constructor|set_solver].
Qed.

(** One connection that cannot be accepted ends the accept loop, and with it the
    agent: whoever connects after it is not served. *)
Theorem failed_accept_ends_agent env token accepts e rest (w : W) :
  Forall (λ a, a = Accepted None) accepts →
  let '(sids, out, _) := tcp_serve env token (Ok tt) (accepts ++ AcceptFailed e :: rest) w in
  length sids = length accepts ∧ out = Some e.
Proof.
  cbn [tcp_serve]. intros Ha. revert w. induction Ha as [|a accepts -> _ IH]; intros w; cbn [accept_loop app]; [done|].
  rw with_token_eq. specialize (IH (mkWorld (w_fs w) (w_exports w) (<[w_next_session w := fresh_session env token]> (w_sessions w))
    (w_next_session w + 1) (w_next_channel w) (w_resolved w))). destruct (accept_loop _ _ _ _) as [[sids out] w'].
  destruct IH as [Hl ->]. cbn. by rw Hl.
Qed.
End Listeners.

(** ** Runs *)

Module Link.
#[local] Existing Instance Sample.sample_globs.
#[global] Instance handler : RequestHandler (World (GlobSet := list (string * bool))) Env (Parked (list (string * bool))) := agent_handler 1.
Definition go := run_conn (S := World (GlobSet := list (string * bool))) (E := Env) (T := Parked (list (string * bool))) "agent" 1.
Definition hello : ConnStep (World (GlobSet := list (string * bool))) Env := Greet (client_hello "peer") true.
(** A stat, a ping and an unknown file, answered out of order; then the peer
    goes away. *)
Definition chat : list (ConnStep (World (GlobSet := list (string * bool))) Env) :=
  [hello; Receive (FRequest 7 (RqGetattr "note")); Receive (FRequest 8 (RqGetattr "none")); Receive (FPing 5); RunTask 1 Demo.env;
   SendReply 0; WriteNext true; RunTask 0 Demo.env; WriteNext true; Ends (Ok tt); SendReply 0; WriteNext false; WriterDone].

(** Session 2 has "note" open and locked; session 1 opens it and waits for the
    lock when its connection ends. *)
Definition serve_two (reqs : list Request) (w : World (GlobSet := list (string * bool))) : World :=
  foldl (λ w r, (handle Demo.env 2 r w).2) w reqs.
Definition two : World :=
  let w := Demo.world false [] in
  serve_two [RqOpen "note" Demo.rw_flags; RqLock 1 Exclusive false]
    (mkWorld (w_fs w) (w_exports w) (<[2 := Demo.session None]> (w_sessions w)) 3 (w_next_channel w) (w_resolved w)).
Definition cut_off : list (ConnStep (World (GlobSet := list (string * bool))) Env) :=
  [hello; Receive (FRequest 1 (RqOpen "note" Demo.rw_flags)); RunTask 0 Demo.env; SendReply 0;
   Receive (FRequest 2 (RqLock 1 Exclusive true)); RunTask 0 Demo.env; Ends (Ok tt); RunTask 0 Demo.env; GraceOver;
   Meanwhile (serve_two [RqUnlock 1]); RunTask 0 Demo.env].
Definition much_later : Env := mkEnv (λ _ _, None) 1000000 [] (λ _, 420) 4096 (λ _, None).
End Link.

Lemma connection_accounts_for_requests_witness :
  ∃ c, Link.go Link.chat (conn_new (Demo.world false [])) = Some c ∧
    sc_received c ≡ₚ (request_of <$> sc_tasks c) ++ (asked <$> sc_answered c) ∧ length (sc_lost c) = 1%nat.
Proof.
  eexists. split; [vm_compute; reflexivity|]. split; [|vm_compute; reflexivity].
  eapply (connection_accounts_for_requests (H := Link.handler) "agent" 1 Link.chat (Demo.world false [])). vm_compute. reflexivity.
Defined.

Lemma failed_accept_ends_agent_witness :
  let '(sids, out, _) := tcp_serve Demo.env None (Ok tt) [Accepted None; AcceptFailed IoOther; Accepted None] (Demo.world false []) in
  length sids = 1%nat ∧ out = Some IoOther.
Proof. apply (failed_accept_ends_agent Demo.env None [Accepted None] IoOther [Accepted None] (Demo.world false [])). by apply Forall_singleton. Defined.

(** A connection that ends while its client waits for a lock is granted that
    lock afterwards: its session is gone, the reaper does not know it any
    more, and nobody else gets the lock again. *)
Theorem lock_outlives_connection :
  (λ c, let w := (reap Link.much_later 30000 1 (sc_state c)).2 in
        (sc_phase c, last (given <$> sc_answered c), (handle Link.much_later 2 (RqLock 1 Shared false) w).1))
    <$> Link.go Link.cut_off (conn_new Link.two)
  = Some (Over (Ok tt), Some (2, Ok RsOk), Err (Fail WouldBlock)).
Proof. vm_compute. reflexivity. Qed.
