(* ===== verification/Overlay.v ===== *)
(** * Overlay: client errors and the local copy of excluded paths

    [FsError] and [posix_errno] (alloyfs-client/src/error.rs) and the local
    overlay (alloyfs-client/src/overlay.rs): the files of this machine that the
    mount shows at the paths its patterns exclude.  The overlay works on the
    local disk, a file system of [Fs]; its matcher is the compiled set's
    [is_excluded].  The theorems: an error never reaches an application as
    success, and what is written through an overlay handle is what is read back
    through it, however the disk cuts the transfers up. *)

From S2P Require Import Prelude Messages Common Exclude Fs Agent AgentFacts Transport.

(** ** Errors *)

Inductive FsError : Type :=
| Remote (code : ErrorCode)
| TransportErr (e : TransportError).
#[global] Instance FsError_eq_dec : EqDecision FsError.
Proof. solve_decision. Defined.

Definition posix_errno (err : FsError) : Z :=
  match err with
  | Remote code =>
      match code with
      | NotFound | NoSuchExport => 2
      | PermissionDenied => 13
      | AlreadyExists => 17
      | NotADirectory => 20
      | IsADirectory => 21
      | NotEmpty => 39
      | InvalidPath => 22
      | BadHandle => 9
      | ReadOnly => 30
      | WouldBlock => 11
      | CrossDevice => 18
      | VersionMismatch => 95
      | _ => 5
      end
  | TransportErr _ => 5
  end.

(** ** Creating a chain of directories *)

Definition is_dir (env : Env) (p : list string) : M Fs IoErrorKind bool :=
  let! r := stry (metadata env p) in
  sret (match r with Ok md => md_is_dir md | Err _ => false end).

(** One attempt at a directory: made, or there already. *)
Definition mkdir_or_is_dir (env : Env) (p : list string) : M Fs IoErrorKind unit :=
  let! r := stry (create_dir env p) in
  match r with
  | Ok _ => sret tt
  | Err e => let! d := is_dir env p in if d : bool then sret tt else sfail e
  end.

(** [std::fs::create_dir_all] on a reversed path, innermost component first. *)
Fixpoint create_dir_rev (env : Env) (rp : list string) : M Fs IoErrorKind unit :=
  let p := reverse rp in
  let! r := stry (create_dir env p) in
  match r with
  | Ok _ => sret tt
  | Err IoNotFound =>
      match rp with
      | [] => sfail IoOther
      | _ :: parent => run! create_dir_rev env parent in mkdir_or_is_dir env p
      end
  | Err e => let! d := is_dir env p in if d : bool then sret tt else sfail e
  end.

Definition create_dir_all (env : Env) (p : list string) : M Fs IoErrorKind unit :=
  create_dir_rev env (reverse p).

(** ** The overlay *)

Definition OVERLAY_FH_BIT : Z := Z.shiftl 1 63.

(** [fh & OVERLAY_FH_BIT != 0]. *)
Definition overlay_fh (fh : Z) : bool := negb (bool_decide (Z.land fh OVERLAY_FH_BIT = 0)).

(** The open file: its inode, where it was opened, and whether for writing. *)
Record OverlayHandle : Type := mkOverlayHandle { oh_file : Z; oh_at : list string; oh_writable : bool }.

Record Overlay : Type := mkOverlay {
  ov_matcher : RelPath → bool;
  ov_root : list string;
  ov_handles : gmap Z OverlayHandle;
  ov_next_fh : Z
}.

Module Overlay.

Definition State : Type := Overlay * Fs.
Definition OM : Type → Type := M State Stop.

(** A call on the local disk through [or_code]. *)
Definition disk {A} (m : M Fs IoErrorKind A) : OM A :=
  λ s, let '(r, fs) := m s.2 in (map_err (λ e, Fail (io_to_code e)) r, (s.1, fs)).

(** One whose failure the code skips over. *)
Definition disk_try {A} (m : M Fs IoErrorKind A) : OM (result A IoErrorKind) :=
  λ s, let '(r, fs) := m s.2 in (Ok r, (s.1, fs)).

Definition fail {A} (e : ErrorCode) : OM A := sfail (Fail e).

Section Operations.
Context (env : Env).

(** [Overlay::new]: the patterns are compiled with the defaults (Unix names are
    case-sensitive) and the root is made. *)
Definition new `{G : Globs Glob GlobSet} (root : list string) (patterns : list string)
    : M Fs (ExcludeError + IoErrorKind) Overlay :=
  λ fs, match compile_with_defaults patterns false with
        | Err e => (Err (inl e), fs)
        | Ok matcher =>
            let '(r, fs) := create_dir_all env root fs in
            match r with
            | Err e => (Err (inr e), fs)
            | Ok _ => (Ok (mkOverlay (is_excluded matcher) root ∅ 1), fs)
            end
        end.

Definition abs (o : Overlay) (path : RelPath) : list string :=
  ov_root o ++ base.filter (λ c, c ≠ "") (split_on slash path).

Definition the_abs (path : RelPath) : OM (list string) := let! s := sget in sret (abs s.1 path).

(** [if let Some(parent) = full.parent() { create_dir_all(parent)? }]. *)
Definition make_parent (full : list string) : OM unit :=
  match full with
  | [] => sret tt
  | _ => disk (create_dir_all env (removelast full))
  end.

Definition handle (fh : Z) : OM OverlayHandle :=
  let! s := sget in
  match ov_handles s.1 !! fh with Some h => sret h | None => fail BadHandle end.

(** [OVERLAY_FH_BIT | next_fh.fetch_add(1)], then the insertion. *)
Definition insert_handle (file : Z) (at_ : list string) (writable : bool) : OM Z :=
  let! s := sget in
  let fh := Z.lor OVERLAY_FH_BIT (ov_next_fh s.1) in
  run! smod (λ s : State, (mkOverlay (ov_matcher s.1) (ov_root s.1)
                             (<[fh := mkOverlayHandle file at_ writable]> (ov_handles s.1))
                             (u64_add (ov_next_fh s.1) 1), s.2)) in
  sret fh.

Definition getattr (path : RelPath) : OM Attr :=
  let! full := the_abs path in
  let! md := disk (symlink_metadata env full) in
  sret (attr_from_metadata md 0).

Definition open (path : RelPath) (flags : OpenFlags) : OM (Z * Attr) :=
  let wants_write := of_write flags || of_truncate flags || of_append flags in
  let! full := the_abs path in
  let! file := disk (sys_open env (mkOpenOptions wants_write (of_truncate flags) false false) full) in
  let! md := disk (fstat env full file) in
  if md_is_dir md then fail IsADirectory
  else let! fh := insert_handle file full wants_write in sret (fh, attr_from_metadata md 0).

Definition create (path : RelPath) (flags : OpenFlags) (mode : Z) : OM (Z * Attr) :=
  let! full := the_abs path in
  run! make_parent full in
  let opts := if of_excl flags then mkOpenOptions true false false true
              else mkOpenOptions true (of_truncate flags) true false in
  let! file := disk (sys_open env opts full) in
  let! md := disk (fstat env full file) in
  let! fh := insert_handle file full true in
  sret (fh, attr_from_metadata md 0).

Definition read (fh offset len : Z) : OM (list Z) :=
  let! h := handle fh in
  let! s := sget in
  match read_fully (answers env) (file_bytes s.2 (oh_file h)) (Z.to_nat len) (Z.to_nat offset) [] with
  | None => sfail Pending
  | Some r => slift (map_err Fail (or_code r))
  end.

(** Writing to a descriptor opened for reading only is EBADF, which [or_code]
    turns into [Io]. *)
Definition write (fh offset : Z) (data : list Z) : OM Z :=
  let! h := handle fh in
  let! s := sget in
  if negb (oh_writable h) && negb (bool_decide (data = [])) then fail Io
  else match write_fully (answers env) (file_bytes s.2 (oh_file h)) data (Z.to_nat offset) 0 with
  | None => sfail Pending
  | Some (r, bs) =>
      run! (if bool_decide (data = []) then sret tt
            else smod (λ s : State, (s.1, set_content (now env) (oh_file h) (FileData bs) s.2))) in
      run! slift (map_err Fail (or_code r)) in
      sret (as_u32 (blen data))
  end.

(** The items of a directory: a name that is not text, or an item that cannot
    be examined, is left out. *)
Fixpoint children (full : list string) (items : list (string * Z)) : OM (list (string * Attr)) :=
  match items with
  | [] => sret []
  | (name, _) :: items =>
      match to_str name with
      | None => children full items
      | Some name =>
          let! md := disk_try (symlink_metadata env (full ++ [name])) in
          let! md := (match md with
                      | Ok _ => sret md
                      | Err _ => disk_try (symlink_metadata env (full ++ [name]))
                      end) in
          match md with
          | Err _ => children full items
          | Ok md =>
              let! rest := children full items in
              sret ((name, attr_from_metadata md 0) :: rest)
          end
      end
  end.

Definition readdir_children (dir : RelPath) : OM (list (string * Attr)) :=
  let! full := the_abs dir in
  let! rd := disk_try (read_dir env full) in
  match rd with
  | Err _ => sret []
  | Ok items => children full items
  end.

Definition mkdir (path : RelPath) : OM Attr :=
  let! full := the_abs path in
  run! make_parent full in
  run! disk (create_dir env full) in
  let! md := disk (metadata env full) in
  sret (attr_from_metadata md 0).

Definition unlink (path : RelPath) : OM unit := let! full := the_abs path in disk (remove_file env full).

Definition rmdir (path : RelPath) : OM unit := let! full := the_abs path in disk (remove_dir env full).

Definition rename (from to : RelPath) (replace : bool) : OM unit :=
  let! from_full := the_abs from in
  let! to_full := the_abs to in
  let! taken := (if replace then sret false else disk (path_exists env to_full)) in
  if taken : bool then fail AlreadyExists
  else
    run! make_parent to_full in
    disk (sys_rename env from_full to_full).

Definition open_for_write (full : list string) : OM Z :=
  disk (sys_open env (mkOpenOptions true false false false) full).

Definition setattr (path : RelPath) (size : option Z) (mtime : option SystemTime) (mode : option Z) : OM Attr :=
  let! full := the_abs path in
  run! (match size with
        | Some size => let! f := open_for_write full in disk (set_len env full f size)
        | None => sret tt
        end) in
  run! (match mtime with
        | Some t => let! f := open_for_write full in disk (set_modified env full f t)
        | None => sret tt
        end) in
  let! md := disk (metadata env full) in
  sret (attr_from_metadata md 0).

Definition link (target lnk : RelPath) : OM Attr :=
  let! link_full := the_abs lnk in
  run! make_parent link_full in
  let! target_full := the_abs target in
  run! disk (hard_link env target_full link_full) in
  let! md := disk (metadata env link_full) in
  sret (attr_from_metadata md 0).

Definition symlink (target : string) (lnk : RelPath) : OM Attr :=
  let! link_full := the_abs lnk in
  run! make_parent link_full in
  run! disk (sys_symlink env target link_full) in
  let! md := disk (symlink_metadata env link_full) in
  sret (attr_from_metadata md 0).

Definition readlink (path : RelPath) : OM string :=
  let! full := the_abs path in
  let! target := disk (read_link env full) in
  match to_str target with
  | Some t => sret (replace_char backslash slash t)
  | None => fail InvalidPath
  end.

(** [sync_data] is best effort. *)
Definition flush (fh : Z) : OM unit := run! handle fh in sret tt.

Definition release (fh : Z) : OM unit :=
  smod (λ s : State, (mkOverlay (ov_matcher s.1) (ov_root s.1) (delete fh (ov_handles s.1)) (ov_next_fh s.1), s.2)).

Definition orphans : OM (list string) :=
  let! s := sget in
  let! rd := disk_try (read_dir env (ov_root s.1)) in
  sret (match rd with
        | Err _ => []
        | Ok items => base.filter (λ name, ov_matcher s.1 name = false) (omap to_str items.*1)
        end).

End Operations.
End Overlay.

(** An error never becomes the errno of success. *)
Lemma posix_errno_positive e : 0 < posix_errno e.
Proof. by destruct e as [[]|]. Qed.

(** The bytes just written are the bytes at their offset. *)
Lemma slice_splice content off d : slice (splice content off d) off (length d) = d.
Proof.
  destruct d as [|z d]; [by unfold slice|]. set (d' := z :: d). unfold slice.
  change (splice content off d') with (take off content ++ replicate (off - length content) 0 ++ d' ++ drop (off + length d') content).
  rw (assoc_L (++)) (drop_app_length' (take off content ++ _)); [by rw take_app_length|].
  rw length_app length_take length_replicate. lia.
Qed.

(** What is written through an overlay handle is what the next read of that
    range returns, over any schedule of short transfers; no other file of the
    disk changes, nor do the overlay's handles. *)
Theorem overlay_reads_back env fh h off data s bs :
  ov_handles s.1 !! fh = Some h → oh_writable h = true →
  content_at s.2 (oh_file h) = Some (FileData bs) →
  Forall progresses (answers env) → (length data + 1 ≤ gives (answers env))%nat → is_u32 (blen data) →
  ∃ s', Overlay.write env fh off data s = (Ok (blen data), s') ∧
    Overlay.read env fh off (blen data) s' = (Ok data, s') ∧
    content_at s'.2 (oh_file h) = Some (FileData (splice bs (Z.to_nat off) data)) ∧
    s'.1 = s.1 ∧ ∀ i, i ≠ oh_file h → nodes s'.2 !! i = nodes s.2 !! i.
Proof.
  intros Hh Hw Hbs Ha Hg Hu. destruct s as [o fs]. simpl in *.
  assert (∃ fs', Overlay.write env fh off data (o, fs) = (Ok (blen data), (o, fs')) ∧
    content_at fs' (oh_file h) = Some (FileData (splice bs (Z.to_nat off) data)) ∧
    ∀ i, i ≠ oh_file h → nodes fs' !! i = nodes fs !! i) as (fs' & Hwr & Hc & Ho).
  { unfold Overlay.write, Overlay.handle, sbind, sget. simpl. rw Hh /= Hw /= (file_bytes_content _ _ _ Hbs).
    rw write_fully_exact //; [|lia]. case_bool_decide as Hd.
    - subst data. exists fs. by rw as_u32_small.
    - destruct (set_content_at (now env) (oh_file h) (FileData (splice bs (Z.to_nat off) data)) _ _ Hbs) as [H1 H2].
      exists (set_content (now env) (oh_file h) (FileData (splice bs (Z.to_nat off) data)) fs). by rw as_u32_small. }
  exists (o, fs'). split; [done|]. split_and!; try done.
  unfold Overlay.read, Overlay.handle, sbind, sget. simpl. rw Hh /= (file_bytes_content _ _ _ Hc).
  rw read_fully_exact //; [|unfold blen; lia]. unfold blen. by rw Nat2Z.id slice_splice.
Qed.

Definition written_disk : Fs :=
  mkFs (list_to_map [(0, Demo.dir [("ov", 1)]); (1, Demo.dir [("x.js", 2)]); (2, Demo.file (as_bytes "local"))]) 3.

Lemma overlay_reads_back_witness :
  ∃ s', Overlay.write (mkEnv (λ _ _, None) 7 [Give 2; Fails IoInterrupted; Give 9; Give 1; Give 1] (λ _, 420) 4096 (λ _, None))
          9 3 (as_bytes "ust") (mkOverlay (λ _, true) ["ov"] {[ 9 := mkOverlayHandle 2 ["ov"; "x.js"] true ]} 1, written_disk)
        = (Ok 3, s') ∧ content_at s'.2 2 = Some (FileData (as_bytes "locust")).
Proof.
  destruct (overlay_reads_back (mkEnv (λ _ _, None) 7 [Give 2; Fails IoInterrupted; Give 9; Give 1; Give 1] (λ _, 420) 4096 (λ _, None))
    9 (mkOverlayHandle 2 ["ov"; "x.js"] true) 3 (as_bytes "ust")
    (mkOverlay (λ _, true) ["ov"] {[ 9 := mkOverlayHandle 2 ["ov"; "x.js"] true ]} 1, written_disk) (as_bytes "local"))
    as (s' & H1 & _ & H2 & _); try (by vm_compute).
  - repeat constructor.
  - exists s'. split; [exact H1|exact H2].
Defined.
