(* ===== verification/Disk.v ===== *)
(** * Disk: whole files, and one directory of an undisturbed disk

    The functions of [std::fs] that work on a whole file or tree
    ([read], [write], [copy], [remove_dir_all]), each one step over Fs; and what
    the calls of Fs do in one directory when nothing fails: making it, writing a
    file, stamping its time, renaming it over another, looking at it. *)

From S2P Require Import Prelude Messages Common Exclude Fs Agent AgentFacts Transport Overlay.

(** ** Whole files *)

(** [std::fs::read]. *)
Definition fs_read (env : Env) (p : list string) : M Fs IoErrorKind (list Z) :=
  let! i := sys_open env (mkOpenOptions false false false false) p in
  let! fs := sget in
  match content_at fs i with
  | Some (FileData bs) => sret bs
  | _ => sfail IoIsADirectory
  end.

(** [std::fs::write]. *)
Definition fs_write (env : Env) (p : list string) (data : list Z) : M Fs IoErrorKind unit :=
  let! i := sys_open env (mkOpenOptions true true true false) p in
  smod (set_content (now env) i (FileData data)).

(** [std::fs::copy]: the bytes and the permissions. *)
Definition fs_copy (env : Env) (from to : list string) : M Fs IoErrorKind unit :=
  let! data := fs_read env from in
  let! md := metadata env from in
  let! i := sys_open env (mkOpenOptions true true true false) to in
  run! smod (set_content (now env) i (FileData data)) in
  Fs.set_mode i (md_mode md).

(** [std::fs::remove_dir_all]: a link is unlinked; of a directory, what is in
    it goes first, links unfollowed.  The fuel bounds the depth. *)
Fixpoint remove_items (env : Env) (remove_tree : list string → M Fs IoErrorKind unit) (p : list string)
    (items : list (string * Z)) : M Fs IoErrorKind unit :=
  match items with
  | [] => sret tt
  | (name, _) :: items =>
      let! md := symlink_metadata env (p ++ [name]) in
      run! (if md_is_dir md then remove_tree (p ++ [name]) else remove_file env (p ++ [name])) in
      remove_items env remove_tree p items
  end.

Fixpoint remove_tree (env : Env) (fuel : nat) (p : list string) : M Fs IoErrorKind unit :=
  match fuel with
  | O => sfail IoOther
  | S fuel =>
      let! items := read_dir env p in
      run! remove_items env (remove_tree env fuel) p items in
      remove_dir env p
  end.

Definition remove_dir_all (env : Env) (fuel : nat) (p : list string) : M Fs IoErrorKind unit :=
  let! md := symlink_metadata env p in
  if md_is_symlink md then remove_file env p else remove_tree env fuel p.

(** ** One directory *)

Definition stack_inodes (s : Stack) : list Z := ROOT :: s.*2.

(** [s] leads, without links, to a directory with the entries [es], which is
    not below itself. *)
Record directory (fs : Fs) (s : Stack) (es : gmap string Z) : Prop := {
  dir_real : real fs s;
  dir_content : content_at fs (ino_of s) = Some (DirData es);
  dir_alone : s = [] ∨ ino_of s ∉ stack_inodes (tail s)
}.

Lemma ino_in_stack s : ino_of s ∈ stack_inodes s.
Proof. destruct s as [|[c i] s]; unfold stack_inodes; simpl; set_solver. Qed.

(** Everything on a real path is there. *)
Lemma real_nodes fs s i : real fs s → content_at fs (ino_of s) ≠ None → i ∈ stack_inodes s → nodes fs !! i ≠ None.
Proof.
  intros Hr. revert i. induction Hr as [|c ino s es n Hr IH Hd _ _ _ _ Hn _]; intros i Hc.
  - unfold stack_inodes. simpl. intros ->%list_elem_of_singleton. unfold content_at in Hc. simpl in Hc. intros Hi. by rw Hi in Hc.
  - assert (stack_inodes ((c, ino) :: s) ≡ₚ ino :: stack_inodes s) as -> by (unfold stack_inodes; simpl; constructor).
    intros [->|Hi]%elem_of_cons; [|apply IH; [by rw Hd|done]]. unfold content_at in Hn. intros H. by rw H in Hn.
Qed.

Lemma real_frame fs fs' s : real fs s → (∀ i, i ∈ stack_inodes s → nodes fs' !! i = nodes fs !! i) → real fs' s.
Proof.
  induction 1 as [|c ino s es n Hr IH Hd H1 H2 H3 He Hn Hl]; intros Hf; [constructor|].
  assert (∀ i, i ∈ stack_inodes s → nodes fs' !! i = nodes fs !! i) as Hf' by (intros i Hi; apply Hf; unfold stack_inodes in *; simpl; set_solver).
  apply (real_cons fs' c ino s es n); try done; [by apply IH| |].
  - unfold content_at. rw Hf'; [done|apply ino_in_stack].
  - unfold content_at. rw Hf; [exact Hn|unfold stack_inodes; simpl; set_solver].
Qed.

(** Changing the entries of the directory, and inodes that are not on the way
    to it, leaves it a directory. *)
Lemma directory_frame fs fs' s es es' : directory fs s es →
  content_at fs' (ino_of s) = Some (DirData es') →
  (∀ i, i ∈ stack_inodes s → i ≠ ino_of s → nodes fs' !! i = nodes fs !! i) → directory fs' s es'.
Proof.
  intros [Hr Hd Ha] Hc Hf. split; [|done|done]. destruct Hr as [|c ino s es0 n Hr Hd0 H1 H2 H3 He Hn Hl]; [constructor|].
  destruct Ha as [Ha|Ha]; [done|]. simpl in Ha, Hc, Hf.
  assert (∀ i, i ∈ stack_inodes s → nodes fs' !! i = nodes fs !! i) as Hf'.
  { intros i Hi. apply Hf; [unfold stack_inodes in *; simpl; set_solver|]. intros ->. by apply Ha. }
  apply (real_cons fs' c ino s es0 (DirData es')); try done; [by apply (real_frame fs)|].
  unfold content_at. rw Hf'; [done|apply ino_in_stack].
Qed.

(** Where a name of the directory leads. *)
Lemma place_in fs s es follow c : directory fs s es → good_component c →
  (∀ i, es !! c = Some i → ∃ bs, content_at fs i = Some (FileData bs)) →
  place fs follow (path_of s ++ [c]) = Ok (match es !! c with None => Missing s c | Some i => Found ((c, i) :: s) end).
Proof.
  intros [Hr Hd _] (H1 & H2 & H3 & _) Hi. rw place_real // walk_cons Hd !bool_decide_false //. cbn [orb].
  destruct (es !! c) as [i|] eqn:E; [|done]. destruct (Hi i eq_refl) as [bs ->]. by rw walk_nil.
Qed.

#[local] Opaque walk place.

Section Calm.
Context (env : Env) (calm : ∀ call p, fault env call p = None).

Lemma guard_calm call p : guard env call p = sret tt.
Proof using calm. unfold guard. by rw calm. Qed.

Lemma create_dir_all_there fs s es : directory fs s es → create_dir_all env (path_of s) fs = (Ok tt, fs).
Proof using calm.
  intros [Hr Hd _]. unfold create_dir_all.
  assert (∀ fs', fs' = fs → find fs' true (path_of s) = Ok s) as Hf by (intros ? ->; by apply find_real).
  assert (stry (F := IoErrorKind) (create_dir env (path_of s)) fs = (Ok (Err IoAlreadyExists), fs)) as Hc.
  { unfold stry, create_dir. rw guard_calm. unfold sbind, sret, sget, slift. by rw -(app_nil_r (path_of s)) place_real // walk_nil. }
  assert (is_dir env (path_of s) fs = (Ok true, fs)) as Hi.
  { unfold is_dir, metadata. rw guard_calm. unfold stry, sbind, sret, sget, slift. rw Hf //. unfold node_at, content_at in *.
    destruct (nodes fs !! ino_of s) as [n|]; [|done]. simpl in *. unfold stat_of. by injection Hd as ->. }
  destruct (reverse (path_of s)) as [|c r] eqn:E; cbn [create_dir_rev]; rw -E reverse_involutive;
    rw (sbind_eq _ _ _ _ _ Hc) (sbind_eq _ _ _ _ _ Hi); done.
Qed.

(** A new entry. *)
Lemma add_node_there fs s es c t k mode : directory fs s es → es !! c = None → nodes fs !! next_ino fs = None →
  let j := next_ino fs in let fs' := add_node t s c k mode fs in
  directory fs' s (<[c := j]> es) ∧ content_at fs' j = Some k ∧ j ∉ stack_inodes s ∧
  ∀ i, i ≠ j → i ≠ ino_of s → nodes fs' !! i = nodes fs !! i.
Proof.
  intros Hdir He Hj j. pose proof Hdir as [Hr Hd Ha].
  assert (∀ i, i ∈ stack_inodes s → i ≠ j) as Hne.
  { intros i Hi ->. by apply (real_nodes fs s j Hr); [rw Hd|done|]. }
  assert (j ≠ ino_of s) as Hjs by (intros E; apply (Hne (ino_of s)); [apply ino_in_stack|done]).
  unfold content_at in Hd. destruct (nodes fs !! ino_of s) as [dn|] eqn:Edn; [|done]. simpl in Hd. injection Hd as Hd.
  unfold add_node, set_entries, set_content. simpl. fold j. rw lookup_insert_ne // Edn /= Hd /=. split; [|split_and!].
  - eapply directory_frame; [exact Hdir| |].
    + unfold content_at. simpl. by rw lookup_insert_eq.
    + intros i Hi Hid. simpl. rw !lookup_insert_ne //. by apply not_eq_sym, Hne.
  - unfold content_at. simpl. by rw lookup_insert_ne // lookup_insert_eq.
  - intros Hin. by apply (Hne j).
  - intros i H1 H2. simpl. by rw !lookup_insert_ne.
Qed.

(** Everything on the way is a directory. *)
Lemma stack_dirs fs s es i : directory fs s es → i ∈ stack_inodes s → ∃ es', content_at fs i = Some (DirData es').
Proof.
  intros [Hr Hd _]. revert es Hd. induction Hr as [|c ino s es0 n Hr IH Hd0 _ _ _ _ _ _]; intros es Hd.
  - unfold stack_inodes. simpl. intros ->%list_elem_of_singleton. eauto.
  - assert (stack_inodes ((c, ino) :: s) ≡ₚ ino :: stack_inodes s) as -> by (unfold stack_inodes; simpl; constructor).
    intros [->|Hi]%elem_of_cons; [by eauto|by eapply IH].
Qed.

(** A change to a file alone. *)
Lemma directory_keep fs fs' s es j bs : directory fs s es → content_at fs j = Some (FileData bs) →
  (∀ i, i ≠ j → nodes fs' !! i = nodes fs !! i) → directory fs' s es.
Proof.
  intros Hdir Hb H2.
  assert (j ∉ stack_inodes s) as Hj by (intros [es' E]%(stack_dirs _ _ _ _ Hdir); congruence).
  eapply directory_frame; [exact Hdir| |].
  - unfold content_at. rw H2; [exact (dir_content _ _ _ Hdir)|]. intros E. apply Hj. rw -E. apply ino_in_stack.
  - intros i Hi _. apply H2. by intros ->.
Qed.

(** A file's content replaced. *)
Lemma set_content_there fs s es j bs t data : directory fs s es → content_at fs j = Some (FileData bs) →
  let fs' := set_content t j (FileData data) fs in
  directory fs' s es ∧ content_at fs' j = Some (FileData data) ∧ ∀ i, i ≠ j → nodes fs' !! i = nodes fs !! i.
Proof.
  intros Hdir Hb. destruct (set_content_at t j (FileData data) fs _ Hb) as [H1 H2]. split; [|done].
  by eapply directory_keep.
Qed.

(** A new file, written in one go. *)
Lemma fs_write_new fs s es c data : directory fs s es → good_component c → es !! c = None →
  nodes fs !! next_ino fs = None →
  let j := next_ino fs in
  ∃ fs', fs_write env (path_of s ++ [c]) data fs = (Ok tt, fs') ∧ directory fs' s (<[c := j]> es) ∧
    content_at fs' j = Some (FileData data) ∧ j ≠ ino_of s ∧ j ∉ stack_inodes s ∧
    ∀ i, i ≠ j → i ≠ ino_of s → nodes fs' !! i = nodes fs !! i.
Proof using calm.
  intros Hdir Hc He Hj j. unfold fs_write, sys_open. rw guard_calm. unfold sbind, sret, sget, slift, smod.
  cbn [oo_truncate oo_write oo_create oo_create_new negb andb orb].
  rw (place_in fs s es) //; [|intros i; by rw He]. rw He. fold j. eexists. split; [reflexivity|].
  destruct (add_node_there fs s es c (now env) (FileData []) (new_mode env false) Hdir He Hj) as (H1 & H2 & H3 & H4).
  destruct (set_content_there _ _ _ _ _ (now env) data H1 H2) as (H5 & H6 & H7).
  split_and!; [done|done| |done|].
  - intros E. apply H3. fold j. rw E. apply ino_in_stack.
  - intros i Hi Hs. by rw H7 // H4.
Qed.

(** Opening it for a whole new content, or making it. *)
Lemma open_create_there fs s es c : directory fs s es → good_component c →
  (∀ i, es !! c = Some i → ∃ bs, content_at fs i = Some (FileData bs)) → nodes fs !! next_ino fs = None →
  let j := default (next_ino fs) (es !! c) in
  ∃ fs', sys_open env (mkOpenOptions true true true false) (path_of s ++ [c]) fs = (Ok j, fs') ∧
    directory fs' s (<[c := j]> es) ∧ content_at fs' j = Some (FileData []).
Proof using calm.
  intros Hdir Hc Hi Hj j. unfold sys_open. rw guard_calm. unfold sbind, sret, sget, slift, smod. cbn.
  rw (place_in fs s es) //. unfold j. destruct (es !! c) as [i|] eqn:He; cbn.
  - destruct (Hi i eq_refl) as [bs Hb]. destruct (set_content_there fs s es i bs (now env) [] Hdir Hb) as (H1 & H2 & _).
    unfold node_at. unfold content_at in Hb. destruct (nodes fs !! i) as [n|]; [|done]. simpl in *. injection Hb as ->.
    eexists. split; [reflexivity|]. by rw insert_id.
  - destruct (add_node_there fs s es c (now env) (FileData []) (new_mode env false) Hdir He Hj) as (H1 & H2 & _). by eexists.
Qed.

(** Opening a file that is there. *)
Lemma open_there wr fs s es c j bs : directory fs s es → good_component c → es !! c = Some j →
  content_at fs j = Some (FileData bs) →
  sys_open env (mkOpenOptions wr false false false) (path_of s ++ [c]) fs = (Ok j, fs).
Proof using calm.
  intros Hdir Hc He Hb. unfold sys_open. rw guard_calm. unfold sbind, sret, sget, slift, smod. cbn.
  rw (place_in fs s es) //; [|intros i; rw He; intros [= <-]; eauto]. rw He. unfold node_at, content_at in *. cbn.
  destruct (nodes fs !! j) as [n|]; [|done]. simpl in *. by injection Hb as ->.
Qed.

(** Stamping it. *)
Lemma set_modified_there fs s es j bs p t : directory fs s es → content_at fs j = Some (FileData bs) → j ∉ stack_inodes s →
  ∃ fs' n, set_modified env p j t fs = (Ok tt, fs') ∧ directory fs' s es ∧
    nodes fs' !! j = Some n ∧ n_content n = FileData bs ∧ n_mtime n = t ∧ ∀ i, i ≠ j → nodes fs' !! i = nodes fs !! i.
Proof using calm.
  intros Hdir Hb Hj. unfold set_modified. rw guard_calm. unfold sbind, sret, sget, slift, smod, node_at. unfold content_at in Hb.
  destruct (nodes fs !! j) as [n|] eqn:E; [|done]. simpl in Hb. injection Hb as Hb. cbn.
  eexists _, _. split; [reflexivity|]. simpl. rw lookup_insert_eq. split; [|split_and!; try done].
  - eapply directory_frame; [exact Hdir| |].
    + unfold content_at. simpl. rw lookup_insert_ne; [exact (dir_content _ _ _ Hdir)|]. intros ->. apply Hj, ino_in_stack.
    + intros i Hi _. simpl. rw lookup_insert_ne //. by intros ->.
  - intros i Hi. by rw lookup_insert_ne.
Qed.

(** Renaming it over another file, or to a free name. *)
Lemma rename_in fs s es a b j bs : directory fs s es → good_component a → good_component b → a ≠ b →
  es !! a = Some j → content_at fs j = Some (FileData bs) →
  (∀ i, es !! b = Some i → i ≠ j ∧ ∃ bs', content_at fs i = Some (FileData bs')) →
  ∃ fs', sys_rename env (path_of s ++ [a]) (path_of s ++ [b]) fs = (Ok tt, fs') ∧
    directory fs' s (<[b := j]> (delete a es)) ∧ ∀ i, i ≠ ino_of s → nodes fs' !! i = nodes fs !! i.
Proof using calm.
  intros Hdir Ha Hb Hab He Hj Ho. unfold sys_rename. rw guard_calm. unfold sbind, sret, sget, slift, smod, find. cbn.
  rw (place_in fs s es _ a) //; [|intros i; rw He; intros [= <-]; eauto]. rw He. cbn.
  rw (place_in fs s es _ b) //; [|intros i Hi; by apply Ho]. unfold node_at. pose proof Hj as Hj'. unfold content_at in Hj'.
  destruct (nodes fs !! j) as [n|] eqn:En; [|done]. simpl in Hj'. injection Hj' as Hn. cbn.
  assert (bool_decide (path_of ((a, j) :: s) `prefix_of` path_of s) = false) as Hpre.
  { apply bool_decide_eq_false. rw path_of_cons. intros [k Hk]. apply (f_equal length) in Hk. rw !length_app in Hk. simpl in Hk. lia. }
  assert (∃ fs', (Ok tt : result unit IoErrorKind, move env j s a s b fs) = (Ok tt, fs') ∧
    directory fs' s (<[b := j]> (delete a es)) ∧ ∀ i, i ≠ ino_of s → nodes fs' !! i = nodes fs !! i) as Hmove.
  { eexists. split; [reflexivity|]. pose proof (dir_content _ _ _ Hdir) as Hd. unfold content_at in Hd.
    destruct (nodes fs !! ino_of s) as [dn|] eqn:Edn; [|done]. simpl in Hd. injection Hd as Hd.
    unfold move, set_entries, set_content. rw Edn /= Hd /=. rw ?lookup_insert_eq /= ?lookup_insert_eq /=. split.
    - eapply directory_frame; [exact Hdir| |].
      + unfold content_at. simpl. by rw lookup_insert_eq.
      + intros i Hi Hne. simpl. by rw !lookup_insert_ne.
    - intros i Hi. by rw !lookup_insert_ne. }
  destruct (es !! b) as [i|] eqn:Eb; cbn; [|rw Hpre; exact Hmove].
  destruct (Ho i eq_refl) as [Hij [bs' Hi]]. rw bool_decide_false // Hpre. unfold content_at in Hi.
  destruct (nodes fs !! i) as [m|]; [|done]. simpl in Hi. injection Hi as Hm. cbn. rw Hn Hm. exact Hmove.
Qed.

(** Looking at it. *)
Lemma lstat_there fs s es c j n bs : directory fs s es → good_component c → es !! c = Some j →
  nodes fs !! j = Some n → n_content n = FileData bs →
  symlink_metadata env (path_of s ++ [c]) fs = (Ok (stat_of env n), fs).
Proof using calm.
  intros Hdir Hc He Hn Hb. unfold symlink_metadata, find. rw guard_calm. unfold sbind, sret, sget, slift. cbn.
  rw (place_in fs s es) //; [|intros i; rw He; intros [= <-]; exists bs; unfold content_at; by rw Hn /= Hb].
  rw He. cbn. unfold node_at. by rw Hn.
Qed.
End Calm.

(** ** Removing a tree *)

(** Entries were removed, nothing else. *)
Definition shrunk (fs fs' : Fs) : Prop := ∀ i,
  match content_at fs i, content_at fs' i with
  | Some (DirData es), Some (DirData es') => es' ⊆ es
  | a, b => a = b
  end.

Lemma shrunk_refl fs : shrunk fs fs.
Proof. intros i. by destruct (content_at fs i) as [[]|]. Qed.

Lemma shrunk_trans fs1 fs2 fs3 : shrunk fs1 fs2 → shrunk fs2 fs3 → shrunk fs1 fs3.
Proof.
  intros H12 H23 i. specialize (H12 i). specialize (H23 i).
  destruct (content_at fs1 i) as [[| |]|], (content_at fs2 i) as [[| |]|], (content_at fs3 i) as [[| |]|]; simplify_eq; try done.
  by etrans.
Qed.

Lemma shrunk_dir fs fs' i es' : shrunk fs fs' → content_at fs' i = Some (DirData es') →
  ∃ es, content_at fs i = Some (DirData es) ∧ es' ⊆ es.
Proof. intros H E. specialize (H i). rw E in H. destruct (content_at fs i) as [[]|]; naive_solver. Qed.

Lemma shrunk_plain fs fs' i n' : shrunk fs fs' → content_at fs' i = Some n' → (∀ t, n' ≠ LinkData t) →
  ∃ n, content_at fs i = Some n ∧ ∀ t, n ≠ LinkData t.
Proof.
  intros H E Hl. specialize (H i). rw E in H. destruct (content_at fs i) as [[]|], n'; naive_solver.
Qed.

Lemma real_shrunk fs fs' s : shrunk fs fs' → real fs' s → real fs s.
Proof.
  intros H. induction 1 as [|c ino s es' n' _ IH Hd' H1 H2 H3 He Hn' Hl]; [constructor|].
  destruct (shrunk_dir _ _ _ _ H Hd') as (es & Hd & Hsub). destruct (shrunk_plain _ _ _ _ H Hn' Hl) as (n & Hn & Hl').
  apply (real_cons fs c ino s es n); try done. by eapply lookup_weaken.
Qed.

(** A path that was real either still is, or leads nowhere. *)
Lemma find_shrunk fs fs' b d rest : shrunk fs fs' → real fs d →
  real fs' d ∨ ∃ e, find fs' b (path_of d ++ rest) = Err e.
Proof.
  intros H Hr. revert rest. induction Hr as [|c ino d es n _ IH Hd H1 H2 H3 He Hn Hl]; intros rest; [left; constructor|].
  rw path_of_cons -app_assoc. destruct (IH ([c] ++ rest)) as [Hr'|]; [|by right]. cbn [app] in *. unfold find.
  rw place_real // walk_cons !bool_decide_false //. cbn [orb]. pose proof (H (ino_of d)) as Hs. rw Hd in Hs.
  destruct (content_at fs' (ino_of d)) as [[|es'|]|] eqn:Hd'; try done.
  destruct (es' !! c) as [ino'|] eqn:He'; [|right; destruct rest; by eexists].
  assert (ino' = ino) as -> by (eapply lookup_weaken in He'; [|exact Hs]; congruence). left.
  pose proof (H ino) as Hi. rw Hn in Hi. destruct (content_at fs' ino) as [n'|] eqn:Hn'; [|destruct n; done].
  apply (real_cons fs' c ino d es' n'); try done. intros t ->. destruct n; naive_solver.
Qed.

(** Inodes at or below [d]. *)
Definition below_stack (fs : Fs) (d : Stack) (i : Z) : Prop :=
  ∃ s, real fs s ∧ path_of d `prefix_of` path_of s ∧ ino_of s = i.

(** Between the two, only inodes of [P] changed, and one directory, which lost
    at most the name [c]. *)
Definition prunes (P : Z → Prop) (dir : Z) (c : string) (fs fs' : Fs) : Prop := ∀ i,
  P i ∨ nodes fs' !! i = nodes fs !! i ∨
  (i = dir ∧ ∃ es, content_at fs i = Some (DirData es) ∧ content_at fs' i = Some (DirData (delete c es))).

Lemma prunes_refl P dir c fs : prunes P dir c fs fs.
Proof. intros i. auto. Qed.

Lemma prunes_trans P dir c fs1 fs2 fs3 : prunes P dir c fs1 fs2 → prunes P dir c fs2 fs3 → prunes P dir c fs1 fs3.
Proof.
  intros H12 H23 i. destruct (H12 i) as [?|[E12|(-> & es & E1 & E2)]]; [by left| |].
  - destruct (H23 i) as [?|[E23|(-> & es & E2 & E3)]]; [by left|right; left; congruence|].
    right. right. split; [done|]. exists es. split; [|done]. unfold content_at in *. by rw -E12.
  - destruct (H23 dir) as [?|[E23|(_ & es2 & E2' & E3)]]; [by left| |].
    + right. right. split; [done|]. exists es. split; [done|]. unfold content_at in *. by rw E23.
    + right. right. split; [done|]. exists es. split; [done|]. rw E2 in E2'. injection E2' as <-. by rw E3 delete_delete_eq.
Qed.

(** Changes to a directory of [P] may lose any name. *)
Lemma prunes_weaken (P Q : Z → Prop) dir1 c1 dir2 c2 fs fs' :
  (∀ i, P i → Q i) → Q dir1 → prunes P dir1 c1 fs fs' → prunes Q dir2 c2 fs fs'.
Proof. intros HPQ Hd H i. destruct (H i) as [?|[?|[-> _]]]; eauto. Qed.

Lemma set_entries_delete t d c fs :
  let fs' := set_entries t d (delete c) fs in shrunk fs fs' ∧ ∀ P, prunes P (ino_of d) c fs fs'.
Proof.
  unfold set_entries. destruct (nodes fs !! ino_of d) as [n|] eqn:E; cbn [fmap option_fmap option_map];
    [destruct (n_content n) as [|es|] eqn:En|]; try (split; [apply shrunk_refl|intros; apply prunes_refl]).
  unfold set_content. rw E. unfold set_node. split.
  - intros i. unfold content_at. simpl. destruct (decide (ino_of d = i)) as [<-|Hne].
    + rw lookup_insert_eq E /= En. apply delete_subseteq.
    + rw lookup_insert_ne //. by destruct (n_content <$> nodes fs !! i) as [[]|].
  - intros P i. destruct (decide (ino_of d = i)) as [<-|Hne].
    + right. right. split; [done|]. exists es. unfold content_at. simpl. by rw lookup_insert_eq E /= En.
    + right. left. simpl. by rw lookup_insert_ne.
Qed.

(** No directory has an entry called "", "." or "..". *)
Definition named (fs : Fs) : Prop := ∀ i es c j,
  content_at fs i = Some (DirData es) → es !! c = Some j → c ≠ "" ∧ c ≠ "." ∧ c ≠ "..".

Section Prune.
Context (env : Env) (fs0 : Fs) (Hnamed : named fs0).

(** What a removal does: entries disappear, all of them below [d], but for the
    one [c] of its own directory. *)
Definition pruning (d : Stack) (dir : Z) (c : string) {A} (m : M Fs IoErrorKind A) : Prop := ∀ fs,
  shrunk fs0 fs → shrunk fs (m fs).2 ∧ prunes (below_stack fs0 d) dir c fs (m fs).2.

Lemma pruning_keeps d dir c {A} (m : M Fs IoErrorKind A) : keeps same m → pruning d dir c m.
Proof. intros Hk fs _. pose proof (Hk fs) as H. change ((m fs).2 = fs) in H. rw H. split; [apply shrunk_refl|apply prunes_refl]. Qed.

Lemma pruning_bind d dir c {A B} (m : M Fs IoErrorKind A) (f : A → M Fs IoErrorKind B) :
  pruning d dir c m → (∀ a fs fs', shrunk fs0 fs → m fs = (Ok a, fs') → pruning d dir c (f a)) → pruning d dir c (sbind m f).
Proof.
  intros Hm Hf fs Hs. unfold sbind. destruct (Hm fs Hs) as [H1 H2]. destruct (m fs) as [[a|e] fs1] eqn:E; [|done]. simpl in *.
  destruct (Hf a fs fs1 Hs E fs1 (shrunk_trans _ _ _ Hs H1)) as [H3 H4]. split; [by eapply shrunk_trans|by eapply prunes_trans].
Qed.

Lemma guard_pruning {A} d dir c call p (m : M Fs IoErrorKind A) : pruning d dir c m → pruning d dir c (sbind (guard env call p) (λ _, m)).
Proof. intros H. apply pruning_bind; [apply pruning_keeps, keeps_guard|done]. Qed.

(** What a name below [d] leads to, when it leads somewhere. *)
Lemma find_child fs d c s : shrunk fs0 fs → real fs0 d → c ≠ "" → c ≠ "." → c ≠ ".." →
  find fs false (path_of d ++ [c]) = Ok s → ∃ i, s = (c, i) :: d ∧ real fs d.
Proof.
  intros Hs Hd H1 H2 H3 Hf. destruct (find_shrunk fs0 fs false d [c] Hs Hd) as [Hr|[e He]]; [|congruence].
  unfold find in Hf. destruct (place fs false _) as [pl|] eqn:E; [|done].
  destruct (place_leaf fs d c pl Hr H1 H2 H3 E) as [->|[i ->]]; [done|]. injection Hf as <-. eauto.
Qed.

Lemma remove_file_pruning d c dir n : real fs0 d → c ≠ "" → c ≠ "." → c ≠ ".." →
  pruning d dir n (remove_file env (path_of d ++ [c])).
Proof.
  intros Hd H1 H2 H3. apply guard_pruning. intros fs Hs. unfold sbind, sget, slift.
  destruct (find fs false (path_of d ++ [c])) as [s|] eqn:Hf; [|by split; [apply shrunk_refl|apply prunes_refl]].
  destruct (find_child fs d c s Hs Hd H1 H2 H3 Hf) as (i & -> & Hr).
  destruct (node_at fs _) as [nd|]; [|by split; [apply shrunk_refl|apply prunes_refl]].
  destruct (set_entries_delete (now env) d c fs) as [Ha Hb].
  destruct (n_content nd); try (by split; [apply shrunk_refl|apply prunes_refl]);
    (split; [exact Ha|]; eapply prunes_weaken; [done| |apply Hb]; by exists d).
Qed.

Lemma remove_dir_pruning d c i : real fs0 ((c, i) :: d) → pruning ((c, i) :: d) (ino_of d) c (remove_dir env (path_of ((c, i) :: d))).
Proof.
  intros Hd. apply guard_pruning. intros fs Hs. unfold sbind, sget, slift.
  destruct (find_shrunk fs0 fs false _ [] Hs Hd) as [Hr|[e He]].
  - rw find_real //. destruct (node_at fs _) as [n|]; [|by split; [apply shrunk_refl|apply prunes_refl]].
    destruct (n_content n) as [|es|]; try (by split; [apply shrunk_refl|apply prunes_refl]).
    case_bool_decide; [|by split; [apply shrunk_refl|apply prunes_refl]].
    destruct (set_entries_delete (now env) d c fs) as [Ha Hb]. split; [exact Ha|apply Hb].
  - rw app_nil_r in He. rw He. by split; [apply shrunk_refl|apply prunes_refl].
Qed.

Lemma below_child d c i j : below_stack fs0 ((c, i) :: d) j → below_stack fs0 d j.
Proof. intros (s & Hs & Hp & <-). exists s. split_and!; try done. rw path_of_cons in Hp. etrans; [|exact Hp]. by apply prefix_app_r. Qed.

Lemma pruning_child d c i dir n {A} (m : M Fs IoErrorKind A) : real fs0 d →
  pruning ((c, i) :: d) (ino_of d) c m → pruning d dir n m.
Proof.
  intros Hd H fs Hs. destruct (H fs Hs) as [H1 H2]. split; [done|].
  eapply prunes_weaken; [apply below_child| |exact H2]. by exists d.
Qed.

(** A name that leads to a file or a directory without following a link. *)
Lemma child_real fs d c i n : real fs d → c ≠ "" → c ≠ "." → c ≠ ".." →
  find fs false (path_of d ++ [c]) = Ok ((c, i) :: d) → content_at fs i = Some n → (∀ t, n ≠ LinkData t) → real fs ((c, i) :: d).
Proof.
  intros Hr H1 H2 H3 Hf Hn Hl. unfold find in Hf. destruct (place fs false _) as [pl|] eqn:E; [|done].
  destruct pl; [|done]. injection Hf as ->. rw place_real // walk_cons !bool_decide_false // in E. cbn [orb] in E.
  destruct (content_at fs (ino_of d)) as [[|es'|]|] eqn:Ed; try done. destruct (es' !! c) as [i'|] eqn:Ei; [|done].
  assert (i' = i) as -> by (destruct (content_at fs i') as [[]|]; rw ?walk_nil in E; simplify_eq; done).
  by apply (real_cons fs c i d es' n).
Qed.

Lemma remove_items_pruning d dir n rec items : real fs0 d →
  (∀ c i, real fs0 ((c, i) :: d) → pruning ((c, i) :: d) (ino_of d) c (rec (path_of ((c, i) :: d)))) →
  Forall (λ p, p.1 ≠ "" ∧ p.1 ≠ "." ∧ p.1 ≠ "..") items →
  pruning d dir n (remove_items env rec (path_of d) items).
Proof.
  intros Hd Hrec. induction items as [|[c j] items IH]; intros Hi; [by apply pruning_keeps|].
  apply Forall_cons in Hi as [(H1 & H2 & H3) Hi]. cbn [remove_items fst] in *.
  apply pruning_bind; [apply pruning_keeps; keeps|]. intros md fs fs' Hs Hmd. apply pruning_bind; [|by intros; apply IH].
  destruct (md_is_dir md) eqn:Edir.
  - unfold symlink_metadata, guard in Hmd. destruct (fault env SysLstat _); [done|].
    unfold sbind, sret, sget, slift in Hmd. destruct (find fs false _) as [s|] eqn:Hf; [|done].
    destruct (find_child fs d c s Hs Hd H1 H2 H3 Hf) as (i & -> & Hr). simpl in Hmd.
    destruct (node_at fs i) as [nd|] eqn:En; [|done]. injection Hmd as <- _. apply node_content in En.
    unfold stat_of in Edir. destruct (n_content nd) as [|es|] eqn:Ec; try done.
    assert (real fs0 ((c, i) :: d)) as Hc.
    { apply (real_shrunk fs0 fs); [done|]. by apply (child_real fs d c i (DirData es)). }
    eapply pruning_child; [done|]. rw -(path_of_cons c i). by apply Hrec.
  - by apply remove_file_pruning.
Qed.

Lemma remove_tree_pruning fuel c i d : real fs0 ((c, i) :: d) →
  pruning ((c, i) :: d) (ino_of d) c (remove_tree env fuel (path_of ((c, i) :: d))).
Proof using Hnamed.
  revert c i d. induction fuel as [|fuel IH]; intros c i d Hd; [by apply pruning_keeps|]. cbn [remove_tree].
  apply pruning_bind; [apply pruning_keeps; keeps|]. intros items fs fs' Hs Hit. apply pruning_bind.
  - apply remove_items_pruning; [done|by intros; apply IH|].
    unfold read_dir, guard in Hit. destruct (fault env SysReadDir _); [done|]. unfold sbind, sret, sget, slift in Hit.
    destruct (find fs true _) as [s|]; [|done]. destruct (node_at fs _) as [n|] eqn:En; [|done]. apply node_content in En.
    destruct (n_content n) as [|es|]; try done. injection Hit as <- _. apply Forall_forall. intros [c' j] Hin%elem_of_map_to_list.
    destruct (shrunk_dir fs0 fs _ _ Hs En) as (es0 & Hes0 & Hsub). eapply Hnamed; [exact Hes0|]. by eapply lookup_weaken.
  - intros _ _ _ _ _. by apply remove_dir_pruning.
Qed.

(** Removing a tree that is a real directory below another, or the link that is
    there instead. *)
Lemma remove_dir_all_prunes fuel c d : real fs0 d → good_component c →
  let fs' := (remove_dir_all env fuel (path_of d ++ [c]) fs0).2 in
  shrunk fs0 fs' ∧ prunes (λ i, ∃ j, real fs0 ((c, j) :: d) ∧ below_stack fs0 ((c, j) :: d) i) (ino_of d) c fs0 fs'.
Proof using Hnamed.
  intros Hd (H1 & H2 & H3 & _). cbv zeta.
  assert (∀ fs, fs = fs0 → shrunk fs0 fs ∧ prunes (λ i, ∃ j, real fs0 ((c, j) :: d) ∧ below_stack fs0 ((c, j) :: d) i) (ino_of d) c fs0 fs) as Hsame.
  { intros fs ->. split; [apply shrunk_refl|apply prunes_refl]. }
  unfold remove_dir_all, sbind, symlink_metadata, guard. destruct (fault env SysLstat _); [by apply Hsame|].
  unfold sbind, sret, sget, slift. destruct (find fs0 false _) as [s|] eqn:Hf; [|by apply Hsame].
  destruct (find_child fs0 d c s (shrunk_refl _) Hd H1 H2 H3 Hf) as (i & -> & _). cbn [ino_of].
  destruct (node_at fs0 i) as [n|] eqn:En; [|by apply Hsame].
  unfold stat_of. destruct (n_content n) as [bs|es|t] eqn:Ec; cbn [md_is_symlink].
  1,2: assert (real fs0 ((c, i) :: d)) as Hr by (apply node_content in En; apply (child_real fs0 d c i (n_content n)); rw ?Ec //; by rw -Ec);
    rw -(path_of_cons c i); destruct (remove_tree_pruning fuel c i d Hr fs0 (shrunk_refl _)) as [Ha Hb]; split; [exact Ha|];
    intros j; destruct (Hb j) as [Hj|Hj]; [left; by exists i|by right].
  unfold remove_file, guard. destruct (fault env SysRemoveFile _); [by apply Hsame|]. unfold sbind, sret, sget, slift. rw Hf. cbn [ino_of].
  rw En Ec. destruct (set_entries_delete (now env) d c fs0) as [Ha Hb]. split; [exact Ha|apply Hb].
Qed.
End Prune.


(** ** Directories that are there *)

(** [create_dir_all] of a directory that is there changes nothing, whichever
    calls fail. *)
Lemma create_dir_real env fs s : real fs s → (create_dir env (path_of s) fs).2 = fs.
Proof.
  intros Hs. unfold create_dir, guard. destruct (fault env SysMkdir _); [done|]. unfold sbind, sret, sget, slift.
  by rw -(app_nil_r (path_of s)) place_real // walk_nil.
Qed.

Lemma is_dir_keeps env p fs : (is_dir env p fs).2 = fs.
Proof.
  unfold is_dir, stry, sbind. pose proof (keeps_metadata env p fs) as H.
  change ((metadata env p fs).2 = fs) in H. by destruct (metadata env p fs).
Qed.

Lemma mkdir_or_is_dir_real env fs s : real fs s → (mkdir_or_is_dir env (path_of s) fs).2 = fs.
Proof.
  intros Hs. pose proof (create_dir_real env fs s Hs) as H. unfold mkdir_or_is_dir, stry, sbind at 1.
  destruct (create_dir env _ fs) as [[?|e] fs1]; simpl in H; subst fs1; [done|]. unfold sbind.
  pose proof (is_dir_keeps env (path_of s) fs) as Hd. destruct (is_dir env _ fs) as [[[]|] fs1]; simpl in *; by subst.
Qed.

Lemma create_dir_all_real env fs s : real fs s → (create_dir_all env (path_of s) fs).2 = fs.
Proof.
  intros Hs. unfold create_dir_all. induction s as [|[c i] s IH].
  - change (create_dir_rev env (reverse (path_of [])) fs) with (create_dir_rev env [] fs). cbn [create_dir_rev].
    pose proof (create_dir_real env fs [] Hs) as H. unfold stry, sbind at 1. change (reverse []) with (path_of []).
    destruct (create_dir env _ fs) as [[?|e] fs1]; simpl in H; subst fs1; [done|]. unfold sbind.
    pose proof (is_dir_keeps env (path_of []) fs) as Hd. destruct e; try done; destruct (is_dir env _ fs) as [[[]|] fs1]; simpl in *; by subst.
  - rw path_of_cons reverse_app. change (reverse [c] ++ reverse (path_of s)) with (c :: reverse (path_of s)). cbn [create_dir_rev].
    rw reverse_cons reverse_involutive -(path_of_cons c i). pose proof (create_dir_real env fs _ Hs) as H. unfold stry, sbind at 1.
    destruct (create_dir env _ fs) as [[?|e] fs1]; simpl in H; subst fs1; [done|]. specialize (IH (real_tail _ _ Hs)).
    pose proof (is_dir_keeps env (path_of ((c, i) :: s)) fs) as Hd.
    destruct e; try (unfold sbind; destruct (is_dir env _ fs) as [[[]|] fs1]; simpl in *; by subst).
    unfold sbind. destruct (create_dir_rev env _ fs) as [[?|?] fs1]; simpl in IH; subst fs1; [|done]. by apply mkdir_or_is_dir_real.
Qed.

(** A name in a real directory that is no link: real too, or the way ends. *)
Lemma real_or_nothing fs d c : real fs d → c ≠ "" → c ≠ "." → c ≠ ".." →
  (∀ s t, find fs false (path_of d ++ [c]) = Ok s → content_at fs (ino_of s) ≠ Some (LinkData t)) →
  (∃ i, real fs ((c, i) :: d)) ∨ ∀ b rest, ∃ e, find fs b (path_of d ++ c :: rest) = Err e.
Proof.
  intros Hd H1 H2 H3 Hl.
  assert (∀ b rest, walk MAX_SYMLINKS fs b d (c :: rest) = place fs b (path_of d ++ c :: rest)) as Hw by (intros; by rw place_real).
  unfold find in *. rw place_real // walk_cons !bool_decide_false // in Hl. cbn [orb] in Hl.
  destruct (content_at fs (ino_of d)) as [[|es|]|] eqn:Ed.
  2: { destruct (es !! c) as [i|] eqn:Ei.
    - destruct (content_at fs i) as [n|] eqn:En.
      + left. exists i. apply (real_cons fs c i d es n); try done. intros t ->. by apply (Hl ((c, i) :: d) t).
      + right. intros b rest. rw -Hw walk_cons Ed !bool_decide_false //= Ei En. by eexists.
    - right. intros b rest. rw -Hw walk_cons Ed !bool_decide_false //= Ei. destruct rest; by eexists. }
  all: right; intros b rest; rw -Hw walk_cons Ed; by eexists.
Qed.
