(* ===== verification/Symlink.v ===== *)
(** * Symlink: targets that point back into the mount

    [localize_symlink_target] of alloyfs-client/src/symlink.rs.  The case
    folding of [str::to_uppercase] follows the Unicode tables, so it is a
    parameter; what the theorems use is its documented behaviour on ASCII. *)

From S2P Require Import Prelude Messages Common Exclude Fs Agent.

(** [str::trim_end_matches('/')]. *)
Definition trim_end_matches (s : string) : string := trim_end_slashes s.

(** [str::trim_start_matches('/')]. *)
Fixpoint trim_start_slashes (s : string) : string :=
  match s with
  | String a s' => if decide (a = slash) then trim_start_slashes s' else s
  | EmptyString => ""
  end.

(** [u8::eq_ignore_ascii_case], on text. *)
Definition eq_ignore_ascii_case (a b : string) : bool := bool_decide (str_lower a = str_lower b).

(** [str::is_char_boundary]: the start, the end, or before a byte that starts a character. *)
Definition is_char_boundary (s : string) (n : nat) : bool :=
  match n with
  | O => true
  | _ => match str_drop n s with
         | EmptyString => bool_decide (n = String.length s)
         | String a _ => negb (in_range 128 191 a)
         end
  end.

(** [take_while(eq_ignore_ascii_case).count()] on the zipped components. *)
Fixpoint shared_len (from to : list string) : nat :=
  match from, to with
  | a :: from, b :: to => if eq_ignore_ascii_case a b then S (shared_len from to) else O
  | _, _ => O
  end.

(** The target relative to the link's directory. *)
Definition relative_target (from to : list string) : string :=
  let shared := shared_len from to in
  match (replicate (length from - shared) ".." ++ drop shared to)%list with
  | [] => "."
  | out => join_with slash out
  end.

Section Localize.
Context (upper : string → string).   (* [str::to_uppercase] *)

(** [None]: the slice [norm[prefix.len()..]] is not on a character boundary of
    [norm], and the code panics. *)
Definition localize_symlink_target (mount_root target : string) (link_dir : RelPath) : option string :=
  let norm := replace_char backslash slash target in
  let prefix := trim_end_matches (replace_char backslash slash mount_root) +:+ "/" in
  if negb (starts_with (upper prefix) (upper norm)) then Some target
  else if negb (is_char_boundary norm (String.length prefix)) then None
  else
    let rest := trim_start_slashes (str_drop (String.length prefix) norm) in
    let from := if RelPath.is_root link_dir then [] else split_on slash link_dir in
    let to := if str_is_empty rest then [] else split_on slash rest in
    Some (relative_target from to).
End Localize.

(** ** What localising achieves *)

(** [u8::to_ascii_uppercase], on text: what [str::to_uppercase] is on ASCII. *)
Definition ascii_upper (a : ascii) : ascii :=
  if in_range 97 122 a then ascii_of_N (N_of_ascii a - 32) else a.
Fixpoint str_upper (s : string) : string :=
  match s with
  | EmptyString => ""
  | String a s' => String (ascii_upper a) (str_upper s')
  end.

Fixpoint is_ascii (s : string) : bool :=
  match s with
  | EmptyString => true
  | String a s' => in_range 0 127 a && is_ascii s'
  end.

(** A spelling difference between two components is more than letter case. *)
Definition no_case_clash (from to : list string) : Prop :=
  Forall (λ ab, eq_ignore_ascii_case ab.1 ab.2 = true → ab.1 = ab.2) (zip from to).

Lemma shared_len_le from : ∀ to, (shared_len from to ≤ length from)%nat ∧ (shared_len from to ≤ length to)%nat.
Proof.
  induction from as [|a from IH]; intros [|b to]; simpl; try lia. destruct (eq_ignore_ascii_case a b); [|lia].
  specialize (IH to). lia.
Qed.

Lemma shared_len_take from : ∀ to, no_case_clash from to → take (shared_len from to) from = take (shared_len from to) to.
Proof.
  induction from as [|a from IH]; intros [|b to] Hc; try done. unfold no_case_clash in Hc. cbn [zip] in Hc. simpl in Hc.
  apply Forall_cons in Hc as [Hab Hc]. simpl. destruct (eq_ignore_ascii_case a b) eqn:E; [|done]. simpl in Hab.
  rw (Hab E). simpl. f_equal. by apply IH.
Qed.

(** Walking up [k] times, then down. *)
Lemma land_up k : ∀ stack rest, (k ≤ length stack)%nat →
  land stack (replicate k ".." ++ rest) = land (take (length stack - k) stack) rest.
Proof.
  induction k as [|k IH]; intros stack rest Hk; [by rw Nat.sub_0_r take_ge|]. simpl.
  destruct stack as [|c stack _] using rev_ind; [simpl in Hk; lia|]. rw length_app in Hk |- *. simpl in Hk |- *.
  destruct (stack ++ [c]) as [|c' l] eqn:E; [by apply (f_equal length) in E; rw length_app in E; simpl in E; lia|].
  rw -E removelast_last IH; [|lia]. replace (length stack + 1 - S k)%nat with (length stack - k)%nat by lia.
  by rw take_app_le; [|lia].
Qed.

Lemma land_down stack cs : Forall good_component cs → land stack cs = Some (stack ++ cs).
Proof.
  intros Hcs. revert stack. induction Hcs as [|c cs (H1 & H2 & H3 & _) _ IH]; intros stack; [by rw app_nil_r|].
  cbn [land]. rw !bool_decide_false //. cbn [orb]. rw IH -app_assoc //.
Qed.

(** The pieces of the relative target. *)
Definition relative_parts (from to : list string) : list string :=
  match (replicate (length from - shared_len from to) ".." ++ drop (shared_len from to) to)%list with
  | [] => ["."]
  | out => out
  end.

Lemma relative_target_parts from to : relative_target from to = join_with slash (relative_parts from to).
Proof.
  unfold relative_target, relative_parts. by destruct (_ ++ _)%list.
Qed.

Lemma land_relative from to : Forall good_component to → no_case_clash from to →
  land from (relative_parts from to) = Some to.
Proof.
  intros Hto Hc. destruct (shared_len_le from to) as [H1 H2]. pose proof (shared_len_take from to Hc) as Ht.
  unfold relative_parts. set (k := shared_len from to) in *.
  assert (land from (replicate (length from - k) ".." ++ drop k to)%list = Some to) as Hl.
  { rw land_up; [|lia]. replace (length from - (length from - k))%nat with k by lia.
    rw land_down; [|by apply Forall_drop]. by rw Ht take_drop. }
  destruct (replicate (length from - k) ".." ++ drop k to)%list eqn:E; [|done]. exact Hl.
Qed.

Lemma good_no_slash c : good_component c → contains_char slash c = false.
Proof. by intros (?&?&?&?&?). Qed.

Lemma relative_parts_clean from to : Forall good_component to →
  relative_parts from to ≠ [] ∧
  Forall (λ c, contains_char slash c = false ∧ contains_char backslash c = false ∧ c ≠ "") (relative_parts from to).
Proof.
  intros Hto. unfold relative_parts. set (k := shared_len from to).
  assert (Forall (λ c, contains_char slash c = false ∧ contains_char backslash c = false ∧ c ≠ "")
    (replicate (length from - k) ".." ++ drop k to)%list) as Hall.
  { apply Forall_app. split; [by apply Forall_replicate|]. apply Forall_drop. eapply Forall_impl; [exact Hto|]. by intros c (?&?&?&?&?). }
  destruct (replicate (length from - k) ".." ++ drop k to)%list; [|done]. split; [done|]. by repeat constructor.
Qed.

(** A joined path starts like its first piece. *)
Lemma join_first c l : ∃ r, join_with slash (c :: l) = c +:+ r ∧ (r = "" ∨ ∃ r', r = String slash r').
Proof.
  destruct (decide (l = [])) as [->|Hl]; [exists ""; by rw app_nil_r_str; auto|]. rw join_cons //. eauto.
Qed.

Lemma has_drive_first c r : c ≠ "" → r = "" ∨ (∃ r', r = String slash r') → has_drive (c +:+ r) = has_drive c.
Proof.
  intros Hc Hr. destruct c as [|a [|b c]]; [done| |done]. unfold has_drive.
  destruct Hr as [->|[r' ->]]; [done|]. cbn [as_bytes String.append]. by destruct (as_bytes r').
Qed.

Lemma starts_first c r (a : ascii) : c ≠ "" → contains_char a c = false → starts_with (String a "") (c +:+ r) = false.
Proof.
  destruct c as [|b c]; [done|]. simpl. intros _ [Hb _]%orb_false_iff. apply bool_decide_eq_false in Hb.
  unfold starts_with. simpl. by rw decide_False.
Qed.

Lemma parts_drive from to : Forall good_component to → Forall (λ c, has_drive c = false) to →
  Forall (λ c, has_drive c = false) (relative_parts from to).
Proof.
  intros Hto Hd. unfold relative_parts. set (k := shared_len from to).
  assert (Forall (λ c, has_drive c = false) (replicate (length from - k) ".." ++ drop k to)%list) as Hall.
  { apply Forall_app. split; [by apply Forall_replicate|by apply Forall_drop]. }
  destruct (replicate (length from - k) ".." ++ drop k to)%list; [|done]. by repeat constructor.
Qed.

(** The relative target, as the agent checks it, leads to [to]. *)
Lemma relative_target_lands from to nm : Forall good_component from → Forall good_component to → good_component nm →
  Forall (λ c, has_drive c = false) to → no_case_clash from to →
  symlink_lands_inside (RelPath.join (path_of_components from) nm) (relative_target from to) = Some (path_of_components to).
Proof.
  intros Hfrom Hto Hnm Hd Hc. rw relative_target_parts. destruct (relative_parts_clean from to Hto) as [Hne Hclean].
  pose proof (parts_drive from to Hto Hd) as Hpd.
  destruct (relative_parts from to) as [|c l] eqn:E; [done|]. clear Hne.
  apply Forall_cons in Hclean as [(Hc1 & Hc2 & Hc3) Hl]. apply Forall_cons in Hpd as [Hdc _].
  destruct (join_first c l) as (r & Hj & Hr). unfold symlink_lands_inside.
  assert (join_with slash (c :: l) ≠ "") as Hne by (rw Hj; by destruct c).
  unfold str_is_empty. rw bool_decide_false //. change "/" with (String slash ""). change "\" with (String backslash "").
  rw {1 2 3}Hj !starts_first // has_drive_first // Hdc. cbn [orb].
  rw split_join_path; [|by apply Hnm|by apply good_no_slash]. cbn [mbind option_bind].
  assert (split_both (join_with slash (c :: l)) = c :: l) as ->.
  { unfold split_both. rw replace_char_id.
    - apply split_join; [done|]. constructor; [done|]. eapply Forall_impl; [exact Hl|]. naive_solver.
    - rw contains_backslash_join. apply existsb_false_Forall. constructor; [done|]. eapply Forall_impl; [exact Hl|]. naive_solver. }
  assert ((if RelPath.is_root (path_of_components from) then [] else split_on slash (path_of_components from)) = from) as ->.
  { destruct (decide (from = [])) as [->|Hf]; [done|]. unfold RelPath.is_root, str_is_empty.
    rw bool_decide_false; [by apply good_components_split|]. apply join_nonempty; [done|].
    eapply Forall_impl; [exact Hfrom|]. by intros x (?&_). }
  rw -E land_relative //.
Qed.

(** ** The whole rewrite *)

Lemma is_ascii_app s t : is_ascii (s +:+ t) = is_ascii s && is_ascii t.
Proof. induction s as [|a s IH]; [done|]. simpl. by rw IH andb_assoc. Qed.

Lemma is_ascii_replace c d s : in_range 0 127 d = true → is_ascii s = true → is_ascii (replace_char c d s) = true.
Proof.
  intros Hd. induction s as [|a s IH]; [done|]. simpl. intros [Ha Hs]%andb_true_iff. rw IH // andb_true_r.
  by case_decide.
Qed.

Lemma is_ascii_trim_end s : is_ascii s = true → is_ascii (trim_end_slashes s) = true.
Proof.
  induction s as [|a s IH]; [done|]. simpl. intros [Ha Hs]%andb_true_iff. specialize (IH Hs).
  destruct (trim_end_slashes s); [case_decide; simpl; by rw ?Ha|]. simpl in *. by rw Ha IH.
Qed.

Lemma str_upper_app s t : str_upper (s +:+ t) = str_upper s +:+ str_upper t.
Proof. induction s as [|a s IH]; [done|]. simpl. by rw IH. Qed.

Lemma str_upper_length s : String.length (str_upper s) = String.length s.
Proof. induction s as [|a s IH]; [done|]. simpl. by rw IH. Qed.

(** Text in ASCII can be cut anywhere. *)
Lemma ascii_boundary s t : is_ascii (s +:+ t) = true → is_char_boundary (s +:+ t) (String.length s) = true.
Proof.
  rw is_ascii_app. intros [_ Ht]%andb_true_iff. unfold is_char_boundary. rw str_drop_app.
  destruct (String.length s) as [|n] eqn:E; [done|]. destruct t as [|a t].
  - rw -E. apply bool_decide_eq_true. by rw app_nil_r_str.
  - simpl in Ht. apply andb_true_iff in Ht as [Ha _]. unfold in_range in *. apply andb_true_iff in Ha. lia.
Qed.

(** A path made of components starts with none of the slashes trimmed off. *)
Lemma trim_start_path to : Forall good_component to → trim_start_slashes (path_of_components to) = path_of_components to.
Proof.
  destruct to as [|c to]; [done|]. intros [Hc _]%Forall_cons. unfold path_of_components.
  destruct (join_first c to) as (r & -> & _). destruct c as [|a c]; [by destruct Hc|].
  apply good_no_slash in Hc. simpl in Hc |- *. apply orb_false_iff in Hc as [Ha _].
  apply bool_decide_eq_false in Ha. by rw decide_False.
Qed.

Lemma path_components cs : Forall good_component cs →
  (if str_is_empty (path_of_components cs) then [] else split_on slash (path_of_components cs)) = cs.
Proof.
  intros Hcs. destruct (decide (cs = [])) as [->|Hf]; [done|]. unfold str_is_empty.
  rw bool_decide_false; [by apply good_components_split|]. apply join_nonempty; [done|].
  eapply Forall_impl; [exact Hcs|]. by intros x (?&_).
Qed.

Section Lands.
Context (upper : string → string) (upper_ascii : ∀ s, is_ascii s = true → upper s = str_upper s).

(** A link whose target names a place inside the mount, in any spelling of
    the mount point's case and either kind of slash, gets a relative target
    which the server, checking it, finds to lead to that very place: the
    rewrite neither panics nor misses.  The components the link and its target
    have in common must be spelled alike. *)
Theorem localize_lands mount_root target root' from to nm :
  is_ascii mount_root = true → is_ascii target = true →
  replace_char backslash slash target = root' +:+ "/" +:+ path_of_components to →
  str_upper root' = str_upper (trim_end_matches (replace_char backslash slash mount_root)) →
  Forall good_component from → Forall good_component to → good_component nm →
  Forall (λ c, has_drive c = false) to → no_case_clash from to →
  ∃ out, localize_symlink_target upper mount_root target (path_of_components from) = Some out ∧
    symlink_lands_inside (RelPath.join (path_of_components from) nm) out = Some (path_of_components to).
Proof using upper_ascii.
  intros Hm Ht Hn Hr Hfrom Hto Hnm Hd Hc. exists (relative_target from to). split; [|by apply relative_target_lands].
  unfold localize_symlink_target. rw Hn. set (root := trim_end_matches _) in *.
  assert (is_ascii (root' +:+ "/" +:+ path_of_components to) = true) as Hna by (rw -Hn; by apply is_ascii_replace).
  assert (is_ascii (root +:+ "/") = true) as Hra.
  { rw is_ascii_app andb_true_iff. split; [|done]. by apply is_ascii_trim_end, is_ascii_replace. }
  assert (String.length (root +:+ "/") = String.length (root' +:+ "/")) as Hlen.
  { rw -!(str_upper_length (_ +:+ _)) !str_upper_app. by rw Hr. }
  rw app_assoc_str in Hna |- *. rw !upper_ascii //.
  assert (str_upper ((root' +:+ "/") +:+ path_of_components to) = str_upper (root +:+ "/") +:+ str_upper (path_of_components to)) as ->.
  { by rw !str_upper_app Hr. }
  rw starts_with_app Hlen ascii_boundary // str_drop_app trim_start_path // path_components //. cbn [negb].
  unfold RelPath.is_root. by rw path_components.
Qed.
End Lands.

Lemma localize_lands_witness :
  ∃ out, localize_symlink_target str_upper "Y:" "y:\docs\b\t.txt" "docs/c" = Some out ∧
    symlink_lands_inside "docs/c/lnk" out = Some "docs/b/t.txt".
Proof.
  apply (localize_lands str_upper (λ _ _, eq_refl) "Y:" "y:\docs\b\t.txt" "y:" ["docs"; "c"] ["docs"; "b"; "t.txt"] "lnk");
    [reflexivity|reflexivity|reflexivity|reflexivity| | | | |];
    try (unfold no_case_clash; simpl); repeat (apply Forall_nil_2 || apply Forall_cons_2); by vm_compute.
Defined.

(** The comment says a case difference can only miss a rewrite, never make a
    wrong one.  On a server that tells names apart by case, a link made in Docs
    to docs/x through the mount point is rewritten to lead to Docs/x. *)
Theorem localize_confuses_case :
  localize_symlink_target str_upper "/mnt" "/mnt/docs/x" "Docs" = Some "x" ∧
  symlink_lands_inside "Docs/lnk" "x" = Some "Docs/x".
Proof. by split. Qed.

(** Folding can shorten or lengthen text outside ASCII: under a fold that, like
    Unicode's, sends the two bytes of U+0131 to the one byte of I, a target that
    matches the mount point is cut past its end, and the code panics. *)
Fixpoint upper_dotless (s : string) : string :=
  match s with
  | String "196" (String "177" s') => String "I" (upper_dotless s')
  | String a s' => String (ascii_upper a) (upper_dotless s')
  | EmptyString => ""
  end.

Theorem localize_panics :
  localize_symlink_target upper_dotless (String "/" (String "196" (String "177" ""))) "/i/" "" = None.
Proof. done. Qed.
