(* ===== verification/RemoteFs.v ===== *)
(** * RemoteFs: the client of one export

    [RemoteFs] of alloyfs-client/src/remote_fs.rs, its event application
    (events.rs) and the merging of server-suggested mount options.  The client
    is a record of the tables the Rust structure shares between threads, and
    every method is a function of it in a state and error monad; a method runs
    as one step, except that the connection slot is part of the network's
    state, so that the reconnect supervisor may swap it while a request waits.
    The network is the interface [Net]: what a connection answers to a request.
    A block read by [read] is the network's answer when it is asked for.
    Time, for the attribute cache, is the network's clock.  The theorems are in
    RemoteFacts. *)

From S2P Require Import Prelude Messages Common Exclude Locks EventHub Inode ReadAhead AutoCache Fs Agent Transport Overlay Symlink.

(** ** The network *)

(** A [MuxConnection], by identity, with the version it settled on. *)
Record Conn : Type := mkConn { conn_id : Z; conn_proto : Z }.
#[global] Instance Conn_eq_dec : EqDecision Conn.
Proof. solve_decision. Defined.

(** What [request] resolves to: a transport failure, or the server's answer. *)
Abbreviation Reply := (result (result Response ErrorCode) TransportError) (only parsing).

Class Net (N : Type) := {
  net_now : N → Z;                                   (* [Instant::now()] *)
  net_conn : N → Conn;                               (* the content of [conn] *)
  net_swap : Conn → N → N;                           (* [*conn.write() = c] *)
  net_closed : Conn → N → bool;                      (* [is_closed] *)
  net_request : Conn → Request → N → Reply * N;      (* [request] *)
  net_keepalive : Conn → Request → N → option Reply * N   (* [request_keepalive]; [None] while it waits *)
}.

(** ** Options (options.rs) *)

Record ClientOptions : Type := mkOptions {
  op_excludes : list string;
  op_data_dir : list string;
  op_cache_dir : list string;
  op_mount_key : string;
  op_auto_cache_max : option Z;
  op_auto_cache_budget : option Z;
  op_auto_cache_max_fallback : Z;
  op_auto_cache_budget_fallback : Z;
  op_pins : list string;
  op_dialer : bool;
  op_no_server_defaults : bool;
  op_detect_conflicts : bool;
  op_mount_root : option string
}.

Definition default_options : ClientOptions :=
  mkOptions [] [] [] "" None None 0 (512 * 1024 * 1024) [] false false false None.

(** [for e in suggested { if !mine.contains(&e) { mine.push(e) } }]. *)
Definition add_suggested (mine suggested : list string) : list string :=
  foldl (λ acc e, if bool_decide (e ∈ acc) then acc else acc ++ [e]) mine suggested.

(** [if mine.is_none() { mine = suggested }]. *)
Definition or_suggested (mine suggested : option Z) : option Z :=
  match mine with Some _ => mine | None => suggested end.

Definition merge_defaults (o : ClientOptions) (exclude pin : list string) (max budget : option Z) : ClientOptions :=
  mkOptions (add_suggested (op_excludes o) exclude) (op_data_dir o) (op_cache_dir o) (op_mount_key o)
    (or_suggested (op_auto_cache_max o) max) (or_suggested (op_auto_cache_budget o) budget)
    (op_auto_cache_max_fallback o) (op_auto_cache_budget_fallback o) (add_suggested (op_pins o) pin)
    (op_dialer o) (op_no_server_defaults o) (op_detect_conflicts o) (op_mount_root o).

(** What the cache directory holds: [None] when it cannot be made; else the
    manifest, if there is a readable one, and the blobs. *)
Abbreviation CacheStore := (option (option (gmap string CacheEntry) * gmap (list string) (list Z))) (only parsing).

(** ** State *)

(** [ATTR_TTL], in nanoseconds. *)
Definition ATTR_TTL : Z := 5 * 10^9.

Record OpenState : Type := mkOpenState {
  os_path : RelPath;
  os_flags : OpenFlags;
  os_server_fh : Z;
  os_cache_ok : bool;
  os_wrote : bool;
  os_ra : ReadAhead;
  os_lock : option LockKind;
  os_poisoned : bool;
  os_version : Z
}.

Record Client (N : Type) : Type := mkClient {
  cl_ino : InodeTable;
  cl_root_attr : Attr;
  cl_attrs : gmap Z (Attr * Z);
  cl_overlay : option Overlay;
  cl_disk : Fs;                       (* this machine's disk, below the overlay *)
  cl_cache : option AutoCache;
  cl_queue : list RelPath;            (* what the cache queued for its fetcher *)
  cl_open : gmap Z OpenState;
  cl_export : string;
  cl_dialer : bool;
  cl_epoch : Z;
  cl_last_seq : Z;
  cl_detect : bool;
  cl_mount_root : option string;
  cl_net : N
}.
Arguments mkClient {N}.
Arguments cl_ino {N}. Arguments cl_root_attr {N}. Arguments cl_attrs {N}. Arguments cl_overlay {N}.
Arguments cl_disk {N}. Arguments cl_cache {N}. Arguments cl_queue {N}. Arguments cl_open {N}.
Arguments cl_export {N}. Arguments cl_dialer {N}. Arguments cl_epoch {N}. Arguments cl_last_seq {N}.
Arguments cl_detect {N}. Arguments cl_mount_root {N}. Arguments cl_net {N}.

(** What stops a method: an error, a panic, or a wait that has not ended. *)
Inductive Halt : Type := Failed (e : FsError) | Panicked | Waits.
#[global] Instance Halt_eq_dec : EqDecision Halt.
Proof. solve_decision. Defined.

Section Client.
Context {N : Type} `{NET : Net N}.
Context (env : Env).                                      (* the local disk's environment *)
Context (upper : string → string).                        (* [str::to_uppercase] *)
Context (renames_ok : list string → list string → bool).  (* does renaming a blob succeed *)

Abbreviation C := (Client N).
Abbreviation ClientM := (M (Client N) Halt).

Definition set_ino (t : InodeTable) (c : C) : C :=
  mkClient t (cl_root_attr c) (cl_attrs c) (cl_overlay c) (cl_disk c) (cl_cache c) (cl_queue c) (cl_open c)
    (cl_export c) (cl_dialer c) (cl_epoch c) (cl_last_seq c) (cl_detect c) (cl_mount_root c) (cl_net c).
Definition set_attrs (m : gmap Z (Attr * Z)) (c : C) : C :=
  mkClient (cl_ino c) (cl_root_attr c) m (cl_overlay c) (cl_disk c) (cl_cache c) (cl_queue c) (cl_open c)
    (cl_export c) (cl_dialer c) (cl_epoch c) (cl_last_seq c) (cl_detect c) (cl_mount_root c) (cl_net c).
Definition set_overlay (o : option Overlay) (fs : Fs) (c : C) : C :=
  mkClient (cl_ino c) (cl_root_attr c) (cl_attrs c) o fs (cl_cache c) (cl_queue c) (cl_open c)
    (cl_export c) (cl_dialer c) (cl_epoch c) (cl_last_seq c) (cl_detect c) (cl_mount_root c) (cl_net c).
Definition set_cache (k : option AutoCache) (q : list RelPath) (c : C) : C :=
  mkClient (cl_ino c) (cl_root_attr c) (cl_attrs c) (cl_overlay c) (cl_disk c) k q (cl_open c)
    (cl_export c) (cl_dialer c) (cl_epoch c) (cl_last_seq c) (cl_detect c) (cl_mount_root c) (cl_net c).
Definition set_open (m : gmap Z OpenState) (c : C) : C :=
  mkClient (cl_ino c) (cl_root_attr c) (cl_attrs c) (cl_overlay c) (cl_disk c) (cl_cache c) (cl_queue c) m
    (cl_export c) (cl_dialer c) (cl_epoch c) (cl_last_seq c) (cl_detect c) (cl_mount_root c) (cl_net c).
Definition set_epoch (e : Z) (c : C) : C :=
  mkClient (cl_ino c) (cl_root_attr c) (cl_attrs c) (cl_overlay c) (cl_disk c) (cl_cache c) (cl_queue c) (cl_open c)
    (cl_export c) (cl_dialer c) e (cl_last_seq c) (cl_detect c) (cl_mount_root c) (cl_net c).
Definition set_last_seq (s : Z) (c : C) : C :=
  mkClient (cl_ino c) (cl_root_attr c) (cl_attrs c) (cl_overlay c) (cl_disk c) (cl_cache c) (cl_queue c) (cl_open c)
    (cl_export c) (cl_dialer c) (cl_epoch c) s (cl_detect c) (cl_mount_root c) (cl_net c).
Definition set_net (n : N) (c : C) : C :=
  mkClient (cl_ino c) (cl_root_attr c) (cl_attrs c) (cl_overlay c) (cl_disk c) (cl_cache c) (cl_queue c) (cl_open c)
    (cl_export c) (cl_dialer c) (cl_epoch c) (cl_last_seq c) (cl_detect c) (cl_mount_root c) n.

(** One entry of [open_files] changed, if it is there. *)
Definition upd_open (fh : Z) (f : OpenState → OpenState) (c : C) : C := set_open (alter f fh (cl_open c)) c.

Definition os_set_ra (ra : ReadAhead) (s : OpenState) : OpenState :=
  mkOpenState (os_path s) (os_flags s) (os_server_fh s) (os_cache_ok s) (os_wrote s) ra (os_lock s) (os_poisoned s) (os_version s).
Definition os_set_cache_ok (b : bool) (s : OpenState) : OpenState :=
  mkOpenState (os_path s) (os_flags s) (os_server_fh s) b (os_wrote s) (os_ra s) (os_lock s) (os_poisoned s) (os_version s).
Definition os_set_wrote (b : bool) (s : OpenState) : OpenState :=
  mkOpenState (os_path s) (os_flags s) (os_server_fh s) (os_cache_ok s) b (os_ra s) (os_lock s) (os_poisoned s) (os_version s).
Definition os_set_lock (l : option LockKind) (s : OpenState) : OpenState :=
  mkOpenState (os_path s) (os_flags s) (os_server_fh s) (os_cache_ok s) (os_wrote s) (os_ra s) l (os_poisoned s) (os_version s).
Definition os_set_poisoned (b : bool) (s : OpenState) : OpenState :=
  mkOpenState (os_path s) (os_flags s) (os_server_fh s) (os_cache_ok s) (os_wrote s) (os_ra s) (os_lock s) b (os_version s).
Definition os_set_version (v : Z) (s : OpenState) : OpenState :=
  mkOpenState (os_path s) (os_flags s) (os_server_fh s) (os_cache_ok s) (os_wrote s) (os_ra s) (os_lock s) (os_poisoned s) v.
Definition os_set_server_fh (fh : Z) (s : OpenState) : OpenState :=
  mkOpenState (os_path s) (os_flags s) fh (os_cache_ok s) (os_wrote s) (os_ra s) (os_lock s) (os_poisoned s) (os_version s).

(** ** Helpers *)

Definition fail {A} (e : ErrorCode) : ClientM A := sfail (Failed (Remote e)).

(** [Ok(other??)]. *)
Definition flat (r : Reply) : result Response Halt :=
  match r with
  | Err e => Err (Failed (TransportErr e))
  | Ok (Err code) => Err (Failed (Remote code))
  | Ok (Ok resp) => Ok resp
  end.

Definition retryable (rq : Request) : bool :=
  match rq with
  | RqGetattr _ | RqReaddir _ _ | RqRead _ _ _ | RqStatfs => true
  | _ => false
  end.

Definition call (rq : Request) : ClientM Response := λ c,
  let conn := net_conn (cl_net c) in
  let '(first, n1) := net_request conn rq (cl_net c) in
  match first with
  | Err TClosed =>
      if retryable rq then
        let now := net_conn n1 in
        if negb (bool_decide (conn_id conn = conn_id now)) && negb (net_closed now n1) then
          let '(again, n2) := net_request now rq n1 in
          (flat again, set_net n2 c)
        else (Err (Failed (TransportErr TClosed)), set_net n1 c)
      else (flat first, set_net n1 c)
  | _ => (flat first, set_net n1 c)
  end.

Definition cache_attr (ino : Z) (a : Attr) : ClientM unit :=
  smod (λ c, set_attrs (<[ino := (a, net_now (cl_net c))]> (cl_attrs c)) c).

Definition invalidate_attr (ino : Z) : ClientM unit := smod (λ c, set_attrs (delete ino (cl_attrs c)) c).

Definition invalidate_all : ClientM unit := smod (set_attrs ∅).

Definition invalidate_read_cache (fh : Z) : ClientM unit :=
  smod (upd_open fh (λ s, os_set_ra (clear (os_ra s)) s)).

Definition is_overlay (c : C) (path : RelPath) : bool :=
  match cl_overlay c with Some o => ov_matcher o path | None => false end.

(** Run an overlay operation; without an overlay [overlay_ref] panics. *)
Definition overlay_do {A} (m : Overlay.OM A) : ClientM A := λ c,
  match cl_overlay c with
  | None => (Err Panicked, c)
  | Some o =>
      let '(r, s) := m (o, cl_disk c) in
      (map_err (λ e, match e with Fail e => Failed (Remote e) | Pending => Waits end) r,
       set_overlay (Some s.1) s.2 c)
  end.

Definition the_path (ino : Z) : ClientM RelPath :=
  let! c := sget in
  match Inode.path_of (cl_ino c) ino with Some p => sret p | None => fail NotFound end.

Definition ino_for (path : RelPath) : ClientM Z := λ c,
  let '(ino, t) := get_or_alloc (cl_ino c) path in (Ok ino, set_ino t c).

Definition server_fh (c : C) (fh : Z) : Z :=
  match cl_open c !! fh with Some s => os_server_fh s | None => fh end.

Definition routed (path : RelPath) : ClientM bool := let! c := sget in sret (is_overlay c path).

(** ** Attributes and listings *)

Definition expect_attr (r : Response) : ClientM Attr := match r with RsAttr a => sret a | _ => fail Io end.
Definition expect_ok (r : Response) : ClientM unit := match r with RsOk => sret tt | _ => fail Io end.
Definition expect_opened (r : Response) : ClientM (Z * Attr) :=
  match r with RsOpened fh a => sret (fh, a) | _ => fail Io end.

(** The attribute cache's answer, while it is younger than [ATTR_TTL]. *)
Definition cached_attr (ino : Z) : ClientM (option Attr) :=
  let! c := sget in
  sret (match cl_attrs c !! ino with
        | Some (a, when) => if Z.max 0 (net_now (cl_net c) - when) <? ATTR_TTL then Some a else None
        | None => None
        end).

Definition getattr (ino : Z) : ClientM Attr :=
  let! path := the_path ino in
  let! local := routed path in
  if local : bool then overlay_do (Overlay.getattr env path)
  else
    let! hit := cached_attr ino in
    match hit with
    | Some a => sret a
    | None =>
        let! r := call (RqGetattr path) in
        let! a := expect_attr r in
        run! cache_attr ino a in
        sret a
    end.

Definition lookup (parent : Z) (name : string) : ClientM (Z * Attr) :=
  let! dir := the_path parent in
  let path := RelPath.join dir name in
  let! local := routed path in
  if local : bool then
    let! a := overlay_do (Overlay.getattr env path) in
    let! ino := ino_for path in
    sret (ino, a)
  else
    let! r := call (RqGetattr path) in
    let! a := expect_attr r in
    let! ino := ino_for path in
    run! cache_attr ino a in
    sret (ino, a).

(** The overlay's children of a directory, numbered: all of them when the
    directory itself is local, those that route to the overlay otherwise. *)
Fixpoint local_children (all : bool) (dir : RelPath) (items : list (string * Attr)) : ClientM (list (string * Z * Attr)) :=
  match items with
  | [] => sret []
  | (name, a) :: items =>
      let child := RelPath.join dir name in
      let! lives := routed child in
      if all || lives then
        let! ino := ino_for child in
        let! rest := local_children all dir items in
        sret ((name, ino, a) :: rest)
      else local_children all dir items
  end.

(** One page of the server's listing: shadowed names are dropped. *)
Fixpoint remote_children (dir : RelPath) (es : list DirEntry) : ClientM (list (string * Z * Attr)) :=
  match es with
  | [] => sret []
  | e :: es =>
      let child := RelPath.join dir (de_name e) in
      let! shadowed := routed child in
      if shadowed : bool then remote_children dir es
      else
        let! ino := ino_for child in
        run! cache_attr ino (de_attr e) in
        let! rest := remote_children dir es in
        sret ((de_name e, ino, de_attr e) :: rest)
  end.

(** The paging loop; [Waits] when the fuel ends before the server does. *)
Fixpoint remote_pages (fuel : nat) (dir : RelPath) (cursor : Z) : ClientM (list (string * Z * Attr)) :=
  match fuel with
  | O => sfail Waits
  | S fuel =>
      let! r := call (RqReaddir dir cursor) in
      match r with
      | RsDir es next =>
          let! here := remote_children dir es in
          match next with
          | Some cursor => let! rest := remote_pages fuel dir cursor in sret (here ++ rest)
          | None => sret here
          end
      | _ => fail Io
      end
  end.

Definition readdir (fuel : nat) (ino : Z) : ClientM (list (string * Z * Attr)) :=
  let! dir := the_path ino in
  let! local := routed dir in
  if local : bool then
    let! items := overlay_do (Overlay.readdir_children env dir) in
    local_children true dir items
  else
    let! out := remote_pages fuel dir 0 in
    let! c := sget in
    match cl_overlay c with
    | None => sret out
    | Some _ =>
        let! items := overlay_do (Overlay.readdir_children env dir) in
        let! mine := local_children false dir items in
        sret (out ++ mine)
    end.

(** ** Opening and reading *)

Definition enter_open (fh : Z) (s : OpenState) : ClientM unit := smod (λ c, set_open (<[fh := s]> (cl_open c)) c).

(** [cache.is_some_and(|c| c.fresh_for(path, attr))]. *)
Definition fresh_in_cache (path : RelPath) (a : Attr) : ClientM bool := λ c,
  match cl_cache c with
  | None => (Ok false, c)
  | Some k => let '(b, k) := fresh_for k path a in (Ok b, set_cache (Some k) (cl_queue c) c)
  end.

(** The [debug_assert] on the overlay bit is not there in a release build. *)
Definition open (ino : Z) (flags : OpenFlags) : ClientM (Z * Attr) :=
  let! path := the_path ino in
  let! local := routed path in
  if local : bool then overlay_do (Overlay.open env path flags)
  else
    let! r := call (RqOpen path flags) in
    let! '(fh, a) := expect_opened r in
    run! cache_attr ino a in
    let! cache_ok := fresh_in_cache path a in
    run! enter_open fh (mkOpenState path flags fh cache_ok false ra_new None false (a_version a)) in
    sret (fh, a).

Definition fetch_block (conn : Conn) (sfh : Z) (n : N) (b : Z) : option (list Z) :=
  match fst (net_request conn (RqRead sfh (b * DATA_CHUNK) DATA_CHUNK) n) with
  | Ok (Ok (RsData d)) => Some d
  | _ => None
  end.

Definition check_poisoned (fh : Z) : ClientM unit :=
  let! c := sget in
  match cl_open c !! fh with
  | Some s => if os_poisoned s then fail Io else sret tt
  | None => sret tt
  end.

(** The chunks of [read_blocks_direct]: the loop runs once per started
    [DATA_CHUNK] of [size]. *)
Definition direct_chunks (offset size : Z) : list (Z * Z) :=
  fst (fetch_window (Z.to_nat (size / DATA_CHUNK + 1)) (u64_add offset size) offset).

(** Its assembly: the first short chunk is the last one used. *)
Fixpoint direct_join (answers : list (result Response Halt)) (chunks : list (Z * Z)) : ClientM (list Z) :=
  match answers, chunks with
  | Err e :: _, _ :: _ => sfail e
  | Ok (RsData d) :: answers, (_, want) :: chunks =>
      if blen d <? want then sret d
      else let! rest := direct_join answers chunks in sret (d ++ rest)
  | Ok _ :: _, _ :: _ => fail Io
  | _, _ => sret []
  end.

Definition read_blocks_direct (fh offset size : Z) : ClientM (list Z) :=
  let! c := sget in
  let conn := net_conn (cl_net c) in
  let chunks := direct_chunks offset size in
  direct_join ((λ pw : Z * Z, flat (fst (net_request conn (RqRead fh pw.1 pw.2) (cl_net c)))) <$> chunks) chunks.

(** The blob of the auto-cache, when the handle may use it: [Some] is the
    answer.  A vanished blob clears [cache_ok]. *)
Definition cached_read (fh offset size : Z) : ClientM (option (list Z)) :=
  let! c := sget in
  match cl_cache c, cl_open c !! fh with
  | Some k, Some s =>
      if os_cache_ok s then
        match cache_read k (os_path s) (Z.to_nat offset) (Z.to_nat size) with
        | Some data => sret (Some data)
        | None => run! smod (upd_open fh (os_set_cache_ok false)) in sret None
        end
      else sret None
  | _, _ => sret None
  end.

Definition read (fh offset size : Z) : ClientM (list Z) :=
  if overlay_fh fh then overlay_do (Overlay.read env fh offset size)
  else
    run! check_poisoned fh in
    let! hit := cached_read fh offset size in
    match hit with
    | Some data => sret data
    | None =>
        let! c := sget in
        match cl_open c !! fh with
        | None => read_blocks_direct fh offset size
        | Some s =>
            let n := cl_net c in
            let '(r, ra) := read_network (fetch_block (net_conn n) (os_server_fh s) n) (os_ra s) offset size in
            run! smod (upd_open fh (os_set_ra ra)) in
            slift (map_err (λ e, Failed (Remote e)) r)
        end
    end.

(** ** Writing *)

Definition cache_do (f : AutoCache → AutoCache) : ClientM unit :=
  smod (λ c, set_cache (f <$> cl_cache c) (cl_queue c) c).

(** [mark_path_written]. *)
Definition mark_path_written (path : RelPath) : ClientM unit :=
  run! smod (λ c, set_open ((λ s, if bool_decide (os_path s = path)
                                  then os_set_ra (clear (os_ra s)) (os_set_cache_ok false s) else s) <$> cl_open c) c) in
  cache_do (λ k, invalidate k path).

(** The chunk loop from [pos]; [Waits] when the fuel ends first. *)
Fixpoint write_loop (fuel : nat) (fh sfh offset : Z) (data : list Z) (pos : nat) (expect : option Z) : ClientM unit :=
  if bool_decide (length data ≤ pos)%nat then sret tt
  else match fuel with
  | O => sfail Waits
  | S fuel =>
      let chunk := slice data pos (Z.to_nat DATA_CHUNK) in
      let! r := call (RqWrite sfh (u64_add offset (Z.of_nat pos)) chunk expect) in
      match r with
      | RsWritten n new_version _ =>
          run! smod (upd_open fh (os_set_version new_version)) in
          if bool_decide (n = 0) then fail Io
          else write_loop fuel fh sfh offset data (pos + Z.to_nat n)
                 (match expect with Some _ => Some new_version | None => None end)
      | _ => fail Io
      end
  end.

Definition write (fuel : nat) (fh offset : Z) (data : list Z) : ClientM Z :=
  if overlay_fh fh then overlay_do (Overlay.write env fh offset data)
  else
    run! check_poisoned fh in
    let! c := sget in
    let expect := if cl_detect c then
                    match cl_open c !! fh with
                    | Some s => if bool_decide (os_version s = 0) then None else Some (os_version s)
                    | None => None
                    end
                  else None in
    run! write_loop fuel fh (server_fh c fh) offset data 0 expect in
    run! (let! c := sget in
          match cl_open c !! fh with
          | Some s => run! smod (upd_open fh (os_set_wrote true)) in mark_path_written (os_path s)
          | None => sret tt
          end) in
    sret (as_u32 (blen data)).

(** ** Names *)

Definition create (parent : Z) (name : string) (mode : Z) (flags : OpenFlags) : ClientM (Z * Z * Attr) :=
  let! dir := the_path parent in
  let path := RelPath.join dir name in
  let! local := routed path in
  if local : bool then
    let! '(fh, a) := overlay_do (Overlay.create env path flags mode) in
    let! ino := ino_for path in
    sret (ino, fh, a)
  else
    let! r := call (RqCreate path flags mode) in
    let! '(fh, a) := expect_opened r in
    let! ino := ino_for path in
    run! cache_attr ino a in
    run! enter_open fh (mkOpenState path flags fh false true ra_new None false (a_version a)) in
    sret (ino, fh, a).

(** A path made by the server: numbered, its attributes cached. *)
Definition made (path : RelPath) (a : Attr) : ClientM (Z * Attr) :=
  let! ino := ino_for path in
  run! cache_attr ino a in
  sret (ino, a).

Definition mkdir (parent : Z) (name : string) (mode : Z) : ClientM (Z * Attr) :=
  let! dir := the_path parent in
  let path := RelPath.join dir name in
  let! local := routed path in
  if local : bool then
    let! a := overlay_do (Overlay.mkdir env path) in
    let! ino := ino_for path in
    sret (ino, a)
  else
    let! r := call (RqMkdir path mode) in
    let! a := expect_attr r in
    made path a.

Definition remove (parent : Z) (name : string) (dir : bool) : ClientM unit :=
  let! parent_path := the_path parent in
  let path := RelPath.join parent_path name in
  let! local := routed path in
  if local : bool then
    overlay_do (if dir then Overlay.rmdir env path else Overlay.unlink env path)
  else
    let! r := call (if dir then RqRmdir path else RqUnlink path) in
    run! expect_ok r in
    let! c := sget in
    run! (match Inode.ino_of (cl_ino c) path with Some ino => invalidate_attr ino | None => sret tt end) in
    cache_do (λ k, AutoCache.remove k path).

Definition unlink (parent : Z) (name : string) : ClientM unit := remove parent name false.
Definition rmdir (parent : Z) (name : string) : ClientM unit := remove parent name true.

Definition rename_ino (from to : RelPath) : ClientM unit := smod (λ c, set_ino (Inode.rename (cl_ino c) from to) c).

Definition rename (parent : Z) (name : string) (newparent : Z) (newname : string) (replace : bool) : ClientM unit :=
  let! fdir := the_path parent in
  let from := RelPath.join fdir name in
  let! tdir := the_path newparent in
  let to := RelPath.join tdir newname in
  let! from_local := routed from in
  let! to_local := routed to in
  match from_local, to_local with
  | true, true =>
      run! overlay_do (Overlay.rename env from to replace) in
      rename_ino from to
  | false, false =>
      let! r := call (RqRename from to replace) in
      run! expect_ok r in
      run! rename_ino from to in
      cache_do (λ k, cache_rename renames_ok k from to)
  | _, _ => fail CrossDevice
  end.

Definition setattr (ino : Z) (size : option Z) (mtime : option SystemTime) (mode : option Z) : ClientM Attr :=
  let! path := the_path ino in
  let! local := routed path in
  if local : bool then overlay_do (Overlay.setattr env path size mtime mode)
  else
    let! r := call (RqSetattr path size mtime mode) in
    let! a := expect_attr r in
    run! cache_attr ino a in
    run! (match size with Some _ => mark_path_written path | None => sret tt end) in
    sret a.

Definition link (target_ino newparent : Z) (newname : string) : ClientM (Z * Attr) :=
  let! target := the_path target_ino in
  let! dir := the_path newparent in
  let lnk := RelPath.join dir newname in
  let! target_local := routed target in
  let! link_local := routed lnk in
  match target_local, link_local with
  | true, true =>
      let! a := overlay_do (Overlay.link env target lnk) in
      let! ino := ino_for lnk in
      sret (ino, a)
  | false, false =>
      let! r := call (RqLink target lnk) in
      let! a := expect_attr r in
      made lnk a
  | _, _ => fail CrossDevice
  end.

Definition require_proto (need : Z) : ClientM unit :=
  let! c := sget in
  if conn_proto (net_conn (cl_net c)) <? need then fail VersionMismatch else sret tt.

(** [localize_target]; slicing outside the text panics. *)
Definition localize_target (target : string) (link_dir : RelPath) : ClientM string :=
  let! c := sget in
  match cl_mount_root c with
  | Some root => match localize_symlink_target upper root target link_dir with
                 | Some t => sret t
                 | None => sfail Panicked
                 end
  | None => sret target
  end.

Definition symlink (parent : Z) (name target : string) : ClientM (Z * Attr) :=
  let! dir := the_path parent in
  let lnk := RelPath.join dir name in
  let! target := localize_target target dir in
  let! local := routed lnk in
  if local : bool then
    let! a := overlay_do (Overlay.symlink env target lnk) in
    let! ino := ino_for lnk in
    sret (ino, a)
  else
    run! require_proto 4 in
    let! r := call (RqSymlink target lnk) in
    let! a := expect_attr r in
    made lnk a.

Definition readlink (ino : Z) : ClientM string :=
  let! path := the_path ino in
  let! local := routed path in
  if local : bool then overlay_do (Overlay.readlink env path)
  else
    run! require_proto 4 in
    let! r := call (RqReadLink path) in
    match r with RsTarget t => sret t | _ => fail Io end.

(** ** Locks and handles *)

Definition call_keepalive (rq : Request) : ClientM Response := λ c,
  let '(r, n) := net_keepalive (net_conn (cl_net c)) rq (cl_net c) in
  (match r with Some r => flat r | None => Err Waits end, set_net n c).

Definition lock (fh : Z) (kind : LockKind) (wait : bool) : ClientM unit :=
  if overlay_fh fh then sret tt
  else
    run! check_poisoned fh in
    let! c := sget in
    let rq := RqLock (server_fh c fh) kind wait in
    let! r := (if wait then call_keepalive rq else call rq) in
    run! expect_ok r in
    smod (upd_open fh (os_set_lock (Some kind))).

Definition unlock (fh : Z) : ClientM unit :=
  if overlay_fh fh then sret tt
  else
    let! c := sget in
    let! r := call (RqUnlock (server_fh c fh)) in
    run! expect_ok r in
    smod (upd_open fh (os_set_lock None)).

Definition flush (fh : Z) : ClientM unit :=
  if overlay_fh fh then overlay_do (Overlay.flush fh)
  else
    run! check_poisoned fh in
    let! c := sget in
    let! r := call (RqFlush (server_fh c fh)) in
    expect_ok r.

(** [enqueue_refetch]. *)
Definition enqueue_refetch (path : RelPath) : ClientM unit :=
  smod (λ c, set_cache (cl_cache c) (match cl_cache c with Some _ => cl_queue c ++ [path] | None => cl_queue c end) c).

(** [release]: the answer to the last request is ignored. *)
Definition release (fh : Z) : ClientM unit :=
  if overlay_fh fh then overlay_do (Overlay.release fh)
  else
    let! c := sget in
    let sfh := server_fh c fh in
    run! (match cl_open c !! fh with
          | Some s =>
              run! smod (λ c, set_open (delete fh (cl_open c)) c) in
              if os_wrote s then enqueue_refetch (os_path s) else sret tt
          | None => sret tt
          end) in
    run! stry (call (RqRelease sfh)) in
    sret tt.

Definition statfs : ClientM (Z * Z * Z) :=
  let! r := call RqStatfs in
  match r with RsStatfs block_size blocks blocks_free => sret (block_size, blocks, blocks_free) | _ => fail Io end.

(** ** Events (events.rs) *)

(** The closure of [filter_for_overlay]. *)
Definition filter_event (c : C) (ev : FsEvent) : option FsEvent :=
  let px := is_overlay c (ev_path ev) in
  match ev_kind ev with
  | RenamedFrom to =>
      match px, is_overlay c to with
      | true, true => None
      | true, false => Some (mkFsEvent (ev_seq ev) Created to (ev_new_version ev) (ev_origin ev))
      | false, true => Some (mkFsEvent (ev_seq ev) Removed (ev_path ev) (ev_new_version ev) (ev_origin ev))
      | false, false => Some ev
      end
  | _ => if px then None else Some ev
  end.

Definition filter_for_overlay (c : C) (batch : list FsEvent) : list FsEvent :=
  match cl_overlay c with None => batch | Some _ => omap (filter_event c) batch end.

Definition invalidate_path (path : RelPath) : ClientM unit :=
  let! c := sget in
  match Inode.ino_of (cl_ino c) path with Some ino => invalidate_attr ino | None => sret tt end.

Definition apply_event (ev : FsEvent) : ClientM unit :=
  match ev_kind ev with
  | ResyncRequired => invalidate_all
  | RenamedFrom to =>
      run! invalidate_path (ev_path ev) in
      run! rename_ino (ev_path ev) to in
      invalidate_path to
  | _ => invalidate_path (ev_path ev)
  end.

Fixpoint apply_events (batch : list FsEvent) : ClientM unit :=
  match batch with
  | [] => sret tt
  | ev :: batch => run! apply_event ev in apply_events batch
  end.

Definition apply_events_to_cache (batch : list FsEvent) : ClientM unit :=
  smod (λ c, match cl_cache c with
             | None => c
             | Some k => let '(k, q) := foldl (apply_cache_event renames_ok) (k, cl_queue c) batch in
                         set_cache (Some k) q c
             end).

(** What one message of the subscription does: a batch, or notice that
    batches were missed.  The value is what [on_batch] is called with. *)
Inductive Received : Type := Batch (b : list FsEvent) | Lagged.

Definition pump (m : Received) : ClientM (option (list FsEvent)) :=
  match m with
  | Lagged => run! invalidate_all in sret None
  | Batch batch =>
      run! (match ev_seq <$> batch with
            | [] => sret tt
            | s :: seqs => smod (λ c, set_last_seq (Z.max (cl_last_seq c) (foldr Z.max s seqs)) c)
            end) in
      let! c := sget in
      let batch := filter_for_overlay c batch in
      if bool_decide (batch = []) then sret None
      else
        run! apply_events batch in
        run! apply_events_to_cache batch in
        sret (Some batch)
  end.

(** [start_event_pump_since], up to the task it spawns: the subscription, live
    when the wanted history is gone, and the seed of the resumption point.  The
    value is the server's last sequence number. *)
Definition start_event_pump_since (since : option Z) : ClientM Z := λ c,
  let conn := net_conn (cl_net c) in
  let '(first, n) := net_request conn (RqSubscribe since) (cl_net c) in
  let '(r, n) := match first, since with
                 | Ok (Err TooOld), Some _ => net_request conn (RqSubscribe None) n
                 | _, _ => (first, n)
                 end in
  let c := set_net n c in
  match flat r with
  | Ok (RsSubscribed last_seq) =>
      (Ok last_seq, match since with Some s => set_last_seq (Z.max (cl_last_seq c) s) c | None => c end)
  | Ok _ => (Err (Failed (Remote Io)), c)
  | Err e => (Err e, c)
  end.

(** What the pump does with the answer to its resubscription. *)
Definition resubscribe : ClientM unit := λ c,
  let conn := net_conn (cl_net c) in
  let seen := cl_last_seq c in
  let '(r, n) := net_request conn (RqSubscribe (if bool_decide (seen = 0) then None else Some seen)) (cl_net c) in
  let c := set_net n c in
  match r with
  | Ok (Err TooOld) =>
      let c := set_attrs ∅ c in
      let c := set_cache (mark_all_unverified <$> cl_cache c) (cl_queue c) c in
      (Ok tt, set_net (snd (net_request conn (RqSubscribe None) n)) c)
  | _ => (Ok tt, c)
  end.

(** ** Reconnecting *)

(** [replay_lock]: up to [tries] attempts; [WouldBlock] is tried again. *)
Fixpoint replay_lock (tries : nat) (conn : Conn) (fh : Z) (kind : LockKind) (n : N) : bool * N :=
  match tries with
  | O => (false, n)
  | S tries =>
      let '(r, n) := net_request conn (RqLock fh kind false) n in
      match r with
      | Ok (Ok RsOk) => (true, n)
      | Ok (Err WouldBlock) => replay_lock tries conn fh kind n
      | _ => (false, n)
      end
  end.

Definition REPLAY_TRIES : nat := 4.

(** One turn of the loop over [open_files]. *)
Definition reopen (conn : Conn) (s : OpenState) (n : N) : OpenState * N :=
  let s := os_set_ra (clear (os_ra s)) s in
  let '(r, n) := net_request conn (RqOpen (os_path s) (os_flags s)) n in
  match r with
  | Ok (Ok (RsOpened fh _)) =>
      let s := os_set_server_fh fh s in
      match os_lock s with
      | Some kind =>
          let '(held, n) := replay_lock REPLAY_TRIES conn fh kind n in
          (if held then s else os_set_poisoned true s, n)
      | None => (s, n)
      end
  | _ => (match os_lock s with Some _ => os_set_poisoned true s | None => s end, n)
  end.

(** The loop, in the order the map is iterated. *)
Fixpoint reopen_all (conn : Conn) (fhs : list Z) (m : gmap Z OpenState) (n : N) : gmap Z OpenState * N :=
  match fhs with
  | [] => (m, n)
  | fh :: fhs =>
      match m !! fh with
      | Some s => let '(s, n) := reopen conn s n in reopen_all conn fhs (<[fh := s]> m) n
      | None => reopen_all conn fhs m n
      end
  end.

(** One successful dial of [reconnect_supervisor]: [false] when the attach was
    refused and the supervisor starts over. *)
Definition reconnect (conn : Conn) : ClientM bool := λ c,
  let '(r, n) := net_request conn (RqAttach (cl_export c)) (cl_net c) in
  match r with
  | Ok (Ok (RsAttachOk _ _)) =>
      let '(m, n) := reopen_all conn (map_to_list (cl_open c)).*1 (cl_open c) n in
      let c := set_net (net_swap conn n) (set_open m c) in
      let c := set_attrs ∅ c in
      let c := set_cache (mark_all_unverified <$> cl_cache c) (cl_queue c) c in
      (Ok true, set_epoch (u64_add (cl_epoch c) 1) c)
  | _ => (Ok false, set_net n c)
  end.

(** ** Attaching *)

Section Attach.
Context {Glob GlobSet : Type} `{G : Globs Glob GlobSet}.

(** The options after the server's suggestions, which are asked for from
    version 2 on; a refused or odd answer is no suggestion. *)
Definition negotiate (conn : Conn) (o : ClientOptions) (n : N) : ClientOptions * N :=
  if negb (op_no_server_defaults o) && (2 <=? conn_proto conn) then
    let '(r, n) := net_request conn RqMountDefaults n in
    (match r with
     | Ok (Ok (RsMountDefaults exclude pin max budget)) => merge_defaults o exclude pin max budget
     | _ => o
     end, n)
  else (o, n).

(** The overlay, when something is excluded. *)
Definition attach_overlay (o : ClientOptions) (disk : Fs) : result (option Overlay) FsError * Fs :=
  if bool_decide (op_excludes o = []) then (Ok None, disk)
  else
    let '(r, disk) := Overlay.new env (op_data_dir o ++ ["overlay"; op_mount_key o]) (op_excludes o) disk in
    (match r with Ok ov => Ok (Some ov) | Err _ => Err (Remote Io) end, disk).

(** The cache, when a size limit or a pin asks for one. *)
Definition attach_cache (o : ClientOptions) (store : CacheStore) : result (option AutoCache) FsError :=
  let max := default (op_auto_cache_max_fallback o) (op_auto_cache_max o) in
  let budget := default (op_auto_cache_budget_fallback o) (op_auto_cache_budget o) in
  if (0 <? max) || negb (bool_decide (op_pins o = [])) then
    match store with
    | None => Err (Remote Io)
    | Some (manifest, blobs) =>
        match compile (op_pins o) false with
        | Err _ => Err (Remote Io)
        | Ok pins => Ok (Some (load max (Z.max budget 1) (is_excluded pins)
                                 (op_cache_dir o ++ [op_mount_key o]) manifest blobs))
        end
    end
  else Ok None.

(** [attach_with]: the client, or why not; the tasks it spawns are the other
    definitions of this file. *)
Definition attach_with (conn : Conn) (export : string) (o : ClientOptions) (store : CacheStore)
    (disk : Fs) (n : N) : result C FsError * N * Fs :=
  let '(r, n) := net_request conn (RqAttach export) n in
  match flat r with
  | Err (Failed e) => (Err e, n, disk)
  | Ok (RsAttachOk _ root_attr) =>
      let '(o, n) := negotiate conn o n in
      let '(ov, disk) := attach_overlay o disk in
      match ov, attach_cache o store with
      | Err e, _ => (Err e, n, disk)
      | _, Err e => (Err e, n, disk)
      | Ok ov, Ok cache =>
          let n := net_swap conn n in
          (Ok (mkClient table_new root_attr ∅ ov disk cache [] ∅ export (op_dialer o) 0 0
                 (op_detect_conflicts o) (op_mount_root o) n), n, disk)
      end
  | _ => (Err (Remote Io), n, disk)
  end.

End Attach.

(** The delay before the next dial, in milliseconds. *)
Definition FIRST_DELAY : Z := 500.
Definition next_delay (delay : Z) : Z := Z.min (delay * 2) 15000.

End Client.
