(* ===== verification/RemoteFacts.v ===== *)
(** * RemoteFacts: what the client guarantees

    Theorems about RemoteFs, in two parts.  Over any network: a method never
    panics and keeps the client's tables well-typed, and no request ever names
    a path that belongs to the local overlay.  Over the server of Agent behind
    the network: reads return the server's bytes, writes leave exactly the
    bytes written, listings are complete, and what reconnecting does to open
    files and locks. *)

From S2P Require Import Prelude Messages Common Exclude Locks EventHub Inode ReadAhead AutoCache Fs Agent AgentFacts Transport Overlay Symlink RemoteFs.

(** ** Overlay handles *)

Lemma overlay_bit_set n : overlay_fh (Z.lor OVERLAY_FH_BIT n) = true.
Proof.
  unfold overlay_fh. rw bool_decide_false //. rw Z.land_lor_distr_l Z.land_diag. by intros [H _]%Z.lor_eq_0_iff.
Qed.

(** Overlay operations that leave the handle table alone. *)
Section OverlayKeeps.
Context (env : Env).

Lemma keeps_disk {A} (m : M Fs IoErrorKind A) : keeps fst (Overlay.disk m).
Proof. intros [o fs]. unfold Overlay.disk. simpl. by destruct (m fs). Qed.
Lemma keeps_disk_try {A} (m : M Fs IoErrorKind A) : keeps fst (Overlay.disk_try m).
Proof. intros [o fs]. unfold Overlay.disk_try. simpl. by destruct (m fs). Qed.
Lemma keeps_ov_fail {A} e : keeps fst (Overlay.fail (A := A) e).
Proof. by intros s. Qed.
#[local] Hint Resolve keeps_disk keeps_disk_try keeps_ov_fail : keeps.

Lemma keeps_the_abs p : keeps fst (Overlay.the_abs p).
Proof. by intros s. Qed.
Lemma keeps_make_parent p : keeps fst (Overlay.make_parent env p).
Proof. unfold Overlay.make_parent. keeps. Qed.
Lemma keeps_handle fh : keeps fst (Overlay.handle fh).
Proof. unfold Overlay.handle. keeps. Qed.
Lemma keeps_open_for_write p : keeps fst (Overlay.open_for_write env p).
Proof. unfold Overlay.open_for_write. keeps. Qed.
#[local] Hint Resolve keeps_the_abs keeps_make_parent keeps_handle keeps_open_for_write : keeps.

Lemma keeps_children full items : keeps fst (Overlay.children env full items).
Proof. induction items as [|[name i] items IH]; cbn [Overlay.children]; keeps; exact IH. Qed.
#[local] Hint Resolve keeps_children : keeps.

Lemma keeps_ov_getattr p : keeps fst (Overlay.getattr env p).
Proof. unfold Overlay.getattr. keeps. Qed.
Lemma keeps_ov_read fh o n : keeps fst (Overlay.read env fh o n).
Proof. unfold Overlay.read. keeps. Qed.
Lemma keeps_ov_write fh o d : keeps fst (Overlay.write env fh o d).
Proof. unfold Overlay.write. keeps. all: by intros. Qed.
Lemma keeps_ov_readdir p : keeps fst (Overlay.readdir_children env p).
Proof. unfold Overlay.readdir_children. keeps. Qed.
Lemma keeps_ov_mkdir p : keeps fst (Overlay.mkdir env p).
Proof. unfold Overlay.mkdir. keeps. Qed.
Lemma keeps_ov_unlink p : keeps fst (Overlay.unlink env p).
Proof. unfold Overlay.unlink. keeps. Qed.
Lemma keeps_ov_rmdir p : keeps fst (Overlay.rmdir env p).
Proof. unfold Overlay.rmdir. keeps. Qed.
Lemma keeps_ov_rename p q r : keeps fst (Overlay.rename env p q r).
Proof. unfold Overlay.rename. keeps. Qed.
Lemma keeps_ov_setattr p a b c : keeps fst (Overlay.setattr env p a b c).
Proof. unfold Overlay.setattr. keeps. Qed.
Lemma keeps_ov_link p q : keeps fst (Overlay.link env p q).
Proof. unfold Overlay.link. keeps. Qed.
Lemma keeps_ov_symlink t p : keeps fst (Overlay.symlink env t p).
Proof. unfold Overlay.symlink. keeps. Qed.
Lemma keeps_ov_readlink p : keeps fst (Overlay.readlink env p).
Proof. unfold Overlay.readlink. keeps. Qed.
Lemma keeps_ov_flush fh : keeps fst (Overlay.flush fh).
Proof. unfold Overlay.flush. keeps. Qed.
End OverlayKeeps.
#[export] Hint Resolve keeps_disk keeps_disk_try keeps_ov_fail keeps_the_abs keeps_make_parent keeps_ov_getattr
  keeps_ov_read keeps_ov_write keeps_ov_readdir keeps_ov_mkdir keeps_ov_unlink keeps_ov_rmdir keeps_ov_rename
  keeps_ov_setattr keeps_ov_link keeps_ov_symlink keeps_ov_readlink keeps_ov_flush : keeps.

(** ** Well-typed clients

    [ov] is the overlay's matcher, if there is an overlay; [NI] what is known
    of the network as long as only clean requests are sent; [root] the mount
    point. *)

(** The export paths a request names. *)
Definition rq_paths (rq : Request) : list RelPath :=
  match rq with
  | RqGetattr p | RqReaddir p _ | RqOpen p _ | RqCreate p _ _ | RqSetattr p _ _ _ | RqMkdir p _
  | RqUnlink p | RqRmdir p | RqSymlink _ p | RqReadLink p => [p]
  | RqRename p q _ | RqLink p q => [p; q]
  | _ => []
  end.

(** The paths that live in the overlay. *)
Definition local_path (ov : option (RelPath → bool)) (p : RelPath) : bool :=
  match ov with Some f => f p | None => false end.

(** A request that names no local path. *)
Definition clean (ov : option (RelPath → bool)) (rq : Request) : Prop :=
  Forall (λ p, local_path ov p = false) (rq_paths rq).

(** The server's handle numbers leave the overlay's bit alone. *)
Definition small_handle (r : Reply) : Prop :=
  ∀ fh a, r = Ok (Ok (RsOpened fh a)) → overlay_fh fh = false.

Class NetSafe {N : Type} (NET : Net N) (ov : option (RelPath → bool)) (NI : N → Prop) : Prop := {
  net_request_safe conn rq n : NI n → clean ov rq →
    NI (net_request conn rq n).2 ∧ small_handle (net_request conn rq n).1;
  net_keepalive_safe conn rq n : NI n → clean ov rq → NI (net_keepalive conn rq n).2;
  net_swap_safe conn n : NI n → NI (net_swap conn n)
}.

Section Safety.
Context {N : Type} {NET : Net N} {ov : option (RelPath → bool)} {NI : N → Prop} {NS : NetSafe NET ov NI}.
Context (env : Env) (upper : string → string) (renames_ok : list string → list string → bool).
#[local] Abbreviation C := (Client N).

Record wf (c : C) : Prop := {
  wf_matcher : ov_matcher <$> cl_overlay c = ov;
  wf_net : NI (cl_net c);
  wf_open : ∀ fh s, cl_open c !! fh = Some s → overlay_fh fh = false ∧ local_path ov (os_path s) = false;
  wf_handles : ∀ o fh h, cl_overlay c = Some o → ov_handles o !! fh = Some h → overlay_fh fh = true;
  wf_targets : ∀ root, cl_mount_root c = Some root → ∀ t d, is_Some (localize_symlink_target upper root t d)
}.

(** A handle a method may be given: an overlay one only if there is an
    overlay. *)
Definition fh_ok (fh : Z) : Prop := overlay_fh fh = true → is_Some ov.

(** A handle the client handed out. *)
Definition fh_known (fh : Z) (c : C) : Prop :=
  if overlay_fh fh then ∃ o, cl_overlay c = Some o ∧ is_Some (ov_handles o !! fh)
  else is_Some (cl_open c !! fh).

(** A method that keeps the client well-typed, does not panic, and whose
    result satisfies [Q]. *)
Definition ok {A} (m : M C Halt A) (Q : A → Prop) : Prop :=
  ∀ c, wf c → wf (m c).2 ∧ match (m c).1 with Ok a => Q a | Err e => e ≠ Panicked end.

Definition any {A} (a : A) : Prop := True.

Lemma ok_bind {A B} (m : M C Halt A) (f : A → M C Halt B) R Q :
  ok m R → (∀ a, R a → ok (f a) Q) → ok (sbind m f) Q.
Proof.
  intros Hm Hf c Hc. unfold sbind. specialize (Hm c Hc). destruct (m c) as [[a|e] c']; simpl in *; [|done].
  destruct Hm as [Hw HR]. by apply (Hf a).
Qed.

Lemma ok_weaken {A} (m : M C Halt A) (R Q : A → Prop) : ok m R → (∀ a, R a → Q a) → ok m Q.
Proof. intros Hm HQ c Hc. destruct (Hm c Hc) as [Hw H]. split; [done|]. destruct (m c).1; auto. Qed.

Lemma ok_any {A} (m : M C Halt A) R : ok m R → ok m any.
Proof. intros H. by eapply ok_weaken. Qed.

Lemma ok_ret {A} (a : A) (Q : A → Prop) : Q a → ok (sret a) Q.
Proof. by intros ? c ?. Qed.
Lemma ok_ret_any {A} (a : A) : ok (sret a) any.
Proof. by apply ok_ret. Qed.
Lemma ok_fail {A} e (Q : A → Prop) : ok (RemoteFs.fail (N := N) e) Q.
Proof. by intros c ?. Qed.
Lemma ok_waits {A} (Q : A → Prop) : ok (sfail Waits) Q.
Proof. by intros c ?. Qed.
Lemma ok_get : ok sget wf.
Proof. by intros c ?. Qed.
Lemma ok_mod f : (∀ c, wf c → wf (f c)) → ok (smod f) any.
Proof. intros Hf c Hc. split; [by apply Hf|done]. Qed.
Lemma ok_try {A} (m : M C Halt A) R : ok m R → ok (stry (F := Halt) m) any.
Proof. intros Hm c Hc. destruct (Hm c Hc) as [Hw _]. unfold stry. by destruct (m c). Qed.

(** *** The client's own steps *)

Lemma wf_set_net n c : NI n → wf c → wf (set_net n c).
Proof. intros Hn [H1 H2 H3 H4 H5]. by split. Qed.

Lemma flat_ok r : match flat r with
  | Ok resp => small_handle r → ∀ fh a, resp = RsOpened fh a → overlay_fh fh = false
  | Err e => e ≠ Panicked end.
Proof. destruct r as [[resp|]|]; simpl; try done. intros Hs fh a ->. by eapply Hs. Qed.

Definition small_resp (r : Response) : Prop := ∀ fh a, r = RsOpened fh a → overlay_fh fh = false.

Lemma ok_reply n (r : Reply) c : wf c → NI n → small_handle r →
  wf (set_net n c) ∧ match flat r with Ok a => small_resp a | Err e => e ≠ Panicked end.
Proof.
  intros Hc Hn Hs. split; [by apply wf_set_net|]. pose proof (flat_ok r) as H. destruct (flat r); [|done].
  intros fh at0. by apply H.
Qed.

Lemma ok_call rq : clean ov rq → ok (call rq) small_resp.
Proof.
  intros Hrq c Hc. unfold call. pose proof (wf_net _ Hc) as Hn.
  destruct (net_request_safe (net_conn (cl_net c)) rq _ Hn Hrq) as [Hn1 Hs1].
  destruct (net_request (net_conn (cl_net c)) rq (cl_net c)) as [first n1]. simpl in Hn1, Hs1.
  destruct first as [b|[]]; try by apply ok_reply.
  destruct (retryable rq); [|by apply ok_reply].
  destruct (_ && _); [|split; [by apply wf_set_net|done]].
  destruct (net_request_safe (net_conn n1) rq _ Hn1 Hrq) as [Hn2 Hs2].
  destruct (net_request (net_conn n1) rq n1) as [again n2]. by apply ok_reply.
Qed.

Lemma ok_call_keepalive rq : clean ov rq → ok (call_keepalive rq) any.
Proof.
  intros Hrq c Hc. unfold call_keepalive. pose proof (wf_net _ Hc) as Hn.
  pose proof (net_keepalive_safe (net_conn (cl_net c)) rq _ Hn Hrq) as Hn1.
  destruct (net_keepalive (net_conn (cl_net c)) rq (cl_net c)) as [[r|] n1]; simpl; (split; [by apply wf_set_net|]); [|done].
  pose proof (flat_ok r). by destruct (flat r).
Qed.

Lemma wf_set_attrs m c : wf c → wf (set_attrs m c).
Proof. by intros []. Qed.
Lemma wf_set_ino t c : wf c → wf (set_ino t c).
Proof. by intros []. Qed.
Lemma wf_set_cache k q c : wf c → wf (set_cache k q c).
Proof. by intros []. Qed.

Lemma ok_cache_attr ino a : ok (cache_attr ino a) any.
Proof. apply ok_mod. intros. by apply wf_set_attrs. Qed.
Lemma ok_invalidate_attr ino : ok (invalidate_attr ino) any.
Proof. apply ok_mod. intros. by apply wf_set_attrs. Qed.
Lemma ok_invalidate_all : ok invalidate_all any.
Proof. apply ok_mod. intros. by apply wf_set_attrs. Qed.
Lemma ok_cache_do f : ok (cache_do f) any.
Proof. apply ok_mod. intros. by apply wf_set_cache. Qed.
Lemma ok_enqueue p : ok (enqueue_refetch p) any.
Proof. apply ok_mod. intros. by apply wf_set_cache. Qed.
Lemma ok_rename_ino p q : ok (rename_ino p q) any.
Proof. apply ok_mod. intros. by apply wf_set_ino. Qed.
Lemma ok_ino_for p : ok (ino_for p) any.
Proof. intros c Hc. unfold ino_for. destruct (get_or_alloc _ _). split; [by apply wf_set_ino|done]. Qed.
Lemma ok_fresh p a : ok (fresh_in_cache p a) any.
Proof.
  intros c Hc. unfold fresh_in_cache. destruct (cl_cache c); [|done]. destruct (fresh_for _ _ _).
  split; [by apply wf_set_cache|done].
Qed.

(** Changing handle states, never their paths. *)
Lemma wf_set_open m c : wf c →
  (∀ fh s, m !! fh = Some s → ∃ s0, cl_open c !! fh = Some s0 ∧ os_path s = os_path s0) → wf (set_open m c).
Proof.
  intros [H1 H2 H3 H4 H5] Hm. split; try done. intros fh s Hs. simpl in Hs.
  destruct (Hm _ _ Hs) as (s0 & H0 & ->). by apply H3.
Qed.

Lemma wf_upd_open fh f c : (∀ s, os_path (f s) = os_path s) → wf c → wf (upd_open fh f c).
Proof.
  intros Hf Hc. apply wf_set_open; [done|]. intros fh' s [(? & s0 & ? & ->)|(? & ?)]%lookup_alter_Some; subst; eauto.
Qed.

Lemma ok_upd_open fh f : (∀ s, os_path (f s) = os_path s) → ok (smod (upd_open fh f)) any.
Proof. intros Hf. apply ok_mod. intros. by apply wf_upd_open. Qed.

Lemma ok_enter fh s : overlay_fh fh = false → local_path ov (os_path s) = false → ok (enter_open fh s) any.
Proof.
  intros Hfh Hp. apply ok_mod. intros c [H1 H2 H3 H4 H5]. split; try done. simpl.
  intros fh' s' [[<- <-]|[_ Hs]]%lookup_insert_Some; eauto.
Qed.

Lemma ok_the_path ino : ok (the_path (N := N) ino) any.
Proof. intros c Hc. unfold the_path, sbind, sget. by destruct (Inode.path_of _ _). Qed.

Lemma is_overlay_wf c p : wf c → is_overlay c p = local_path ov p.
Proof. intros Hc. rw -(wf_matcher c Hc). unfold is_overlay. by destruct (cl_overlay c). Qed.

Lemma ok_routed p : ok (routed p) (λ b, b = local_path ov p).
Proof. intros c Hc. split; [done|]. by apply is_overlay_wf. Qed.

Lemma ok_cached_attr ino : ok (cached_attr (N := N) ino) any.
Proof. by intros c ?. Qed.
Lemma ok_check_poisoned fh : ok (check_poisoned (N := N) fh) any.
Proof. intros c Hc. unfold check_poisoned, sbind, sget. destruct (cl_open c !! fh) as [s|]; [|done]. by destruct (os_poisoned s). Qed.
Lemma ok_expect_attr r : ok (expect_attr (N := N) r) any.
Proof. intros c ?. by destruct r. Qed.
Lemma ok_expect_ok r : ok (expect_ok (N := N) r) any.
Proof. intros c ?. by destruct r. Qed.
Lemma ok_expect_opened r : small_resp r → ok (expect_opened (N := N) r) (λ fa, overlay_fh fa.1 = false).
Proof. intros Hr c ?. destruct r; try done. split; [done|]. by eapply Hr. Qed.

(** *** The overlay *)

Lemma overlay_present c : wf c → is_Some ov → ∃ o, cl_overlay c = Some o.
Proof. intros Hc [f Hf]. pose proof (wf_matcher c Hc) as H. rw Hf in H. destruct (cl_overlay c); [eauto|done]. Qed.

Lemma local_is_some p : true = local_path ov p → is_Some ov.
Proof. unfold local_path. by destruct ov. Qed.

(** An overlay operation that keeps the matcher and types its handles. *)
Definition typed (o : Overlay) : Prop := ∀ fh h, ov_handles o !! fh = Some h → overlay_fh fh = true.

Definition osafe {A} (m : Overlay.OM A) (Q : A → Prop) : Prop := ∀ o fs, typed o →
  let '(r, s) := m (o, fs) in
  ov_matcher s.1 = ov_matcher o ∧ typed s.1 ∧ match r with Ok a => Q a | Err _ => True end.

Lemma osafe_keeps {A} (m : Overlay.OM A) : keeps fst m → osafe m any.
Proof.
  intros Hk o fs Ho. pose proof (Hk (o, fs)) as H. destruct (m (o, fs)) as [r s]. simpl in H. rw H. by destruct r.
Qed.

Lemma osafe_bind {A B} (m : Overlay.OM A) (f : A → Overlay.OM B) Q :
  keeps fst m → (∀ a, osafe (f a) Q) → osafe (sbind m f) Q.
Proof.
  intros Hm Hf o fs Ho. unfold sbind. specialize (Hm (o, fs)).
  destruct (m (o, fs)) as [[a|e] [o' fs']]; simpl in Hm; subst o'; [by apply Hf|done].
Qed.

Lemma osafe_fail {A} e (Q : A → Prop) : osafe (Overlay.fail e) Q.
Proof. by intros o fs Ho. Qed.

(** The overlay's own handle numbers carry its bit. *)
Lemma osafe_insert f p w a : osafe (let! fh := Overlay.insert_handle f p w in sret (fh, a)) (λ fa : Z * Attr, overlay_fh fa.1 = true).
Proof.
  intros o fs Ho. simpl. split; [done|]. split; [|apply overlay_bit_set].
  intros fh h Hh. simpl in Hh. apply lookup_insert_Some in Hh as [[<- _]|[_ H]]; [apply overlay_bit_set|by eapply Ho].
Qed.

Lemma ok_overlay_do {A} (m : Overlay.OM A) (Q : A → Prop) : is_Some ov → osafe m Q → ok (overlay_do m) Q.
Proof.
  intros Hov Hm c Hc. destruct (overlay_present c Hc Hov) as [o Ho]. unfold overlay_do. rw Ho.
  specialize (Hm o (cl_disk c) (λ fh h, wf_handles c Hc o fh h Ho)). destruct (m (o, cl_disk c)) as [r s].
  destruct Hm as (H1 & H2 & H3). destruct Hc as [W1 W2 W3 W4 W5]. rw Ho in W1. split.
  - split; try done; simpl; [by rw H1|]. intros o' fh h [= <-]. apply H2.
  - simpl. destruct r as [|[]]; done.
Qed.

Lemma ok_overlay_keeps {A} (m : Overlay.OM A) : is_Some ov → keeps fst m → ok (overlay_do m) any.
Proof. intros Hov Hk. by apply ok_overlay_do, osafe_keeps. Qed.

(** *** The methods *)

(** Take a method apart: one rule per step; [local_path] facts are collected
    from the routing tests. *)
Ltac ok_step :=
  lazymatch goal with
  | |- ok (sbind (routed ?p) _) _ => eapply ok_bind; [apply ok_routed|intros [] ?]
  | |- ok (sbind sget _) _ => eapply ok_bind; [apply ok_get|intros ? ?]
  | |- ok (sbind (call _) _) _ => eapply ok_bind; [apply ok_call|intros ? ?]
  | |- ok (sbind (overlay_do _) _) _ =>
      eapply ok_bind; [apply ok_overlay_keeps; [by eapply local_is_some|eauto 3 with keeps nocore]|intros ? _]
  | |- ok (sbind (expect_opened _) _) _ => eapply ok_bind; [apply ok_expect_opened; assumption|intros [? ?] ?]
  | |- ok (sbind _ _) _ => eapply ok_bind; [solve [eauto 3 with ok_db nocore]|intros ? _]
  | |- ok (sret _) any => apply ok_ret_any
  | |- ok (RemoteFs.fail _) _ => apply ok_fail
  | |- ok (sfail Waits) _ => apply ok_waits
  | |- ok (overlay_do _) any => apply ok_overlay_keeps; [by eapply local_is_some|eauto 3 with keeps nocore]
  | |- ok (match ?x with _ => _ end) _ => destruct x eqn:?
  | |- ok _ any => solve [eauto 3 with ok_db nocore]
  | |- clean _ _ => repeat constructor; done
  end.
Create HintDb ok_db discriminated.
#[local] Hint Constants Opaque : ok_db.
#[local] Hint Resolve ok_ret_any ok_fail ok_cache_attr ok_invalidate_attr ok_invalidate_all ok_cache_do ok_enqueue
  ok_rename_ino ok_ino_for ok_fresh ok_the_path ok_cached_attr ok_check_poisoned ok_expect_attr ok_expect_ok ok_try
  ok_call_keepalive : ok_db.
Ltac ok_auto := repeat ok_step.

Lemma ok_getattr ino : ok (getattr env ino) any.
Proof. unfold getattr. ok_auto. Qed.

Lemma ok_lookup parent name : ok (lookup env parent name) any.
Proof. unfold lookup. ok_auto. Qed.

Lemma ok_made p a : ok (made (N := N) p a) any.
Proof. unfold made. ok_auto. Qed.
#[local] Hint Resolve ok_made : ok_db.

Lemma ok_local_children all dir items : ok (local_children all dir items) any.
Proof.
  induction items as [|[name a] items IH]; cbn [local_children]; [ok_auto|].
  ok_step; destruct all; cbn [orb]; try exact IH; (ok_step; eapply ok_bind; [exact IH|intros ? _; ok_auto]).
Qed.
Lemma ok_remote_children dir es : ok (remote_children dir es) any.
Proof.
  induction es as [|e es IH]; cbn [remote_children]; [ok_auto|].
  ok_step; [exact IH|]. do 2 ok_step. eapply ok_bind; [exact IH|intros ? _; ok_auto].
Qed.
#[local] Hint Resolve ok_local_children ok_remote_children : ok_db.

Lemma ok_remote_pages fuel dir cursor : local_path ov dir = false → ok (remote_pages fuel dir cursor) any.
Proof.
  intros Hd. revert cursor. induction fuel as [|fuel IH]; intros cursor; cbn [remote_pages]; [ok_auto|].
  ok_step; [ok_step|]. destruct a; try apply ok_fail. ok_step. destruct next_cursor; [|ok_auto].
  eapply ok_bind; [apply IH|intros ? _; ok_auto].
Qed.

Lemma ok_readdir fuel ino : ok (readdir env fuel ino) any.
Proof.
  unfold readdir. do 2 ok_step; [ok_auto|]. eapply ok_bind; [by apply ok_remote_pages|intros ? _].
  ok_step. destruct (cl_overlay a1) eqn:Ho; [|ok_auto].
  eapply ok_bind; [apply ok_overlay_keeps; [|eauto 3 with keeps nocore]|intros ? _; ok_auto].
  rw -(wf_matcher a1) // Ho. by eexists.
Qed.

(** Handles: [open] and [create] give out ones a method may be given. *)
Definition fresh_fh (fa : Z * Attr) : Prop := fh_ok fa.1.

Lemma ok_open ino flags : ok (open env ino flags) fresh_fh.
Proof.
  unfold open. do 2 ok_step.
  - eapply ok_weaken; [apply ok_overlay_do; [by eapply local_is_some|]|intros fa Hfa; unfold fresh_fh, fh_ok; intros _; by eapply local_is_some].
    unfold Overlay.open. repeat (apply osafe_bind; [solve [eauto 3 with keeps nocore]|intros]).
    case_match; [apply osafe_fail|apply osafe_insert].
  - ok_step; [ok_step|]. do 3 ok_step. eapply ok_bind; [by apply ok_enter|intros _ _].
    apply ok_ret. intros Ht. simpl in *. congruence.
Qed.

Lemma ok_create parent name mode flags : ok (create env parent name mode flags) (λ x, fh_ok x.1.2).
Proof.
  unfold create. do 2 ok_step.
  - eapply ok_bind; [apply ok_overlay_do; [by eapply local_is_some|]|].
    + unfold Overlay.create. repeat (apply osafe_bind; [solve [eauto 3 with keeps nocore]|intros]). apply osafe_insert.
    + intros [fh at0] Hfa. ok_step. apply ok_ret. intros _. by eapply local_is_some.
  - ok_step; [ok_step|]. do 3 ok_step. eapply ok_bind; [by apply ok_enter|intros _ _].
    apply ok_ret. intros Ht. simpl in *. congruence.
Qed.

(** An operation on a handle that goes to the overlay. *)
Ltac ok_fh Hfh :=
  match goal with |- ok (if overlay_fh ?fh then _ else _) _ =>
    destruct (overlay_fh fh) eqn:?; [try (apply ok_overlay_keeps; [by apply Hfh|eauto 3 with keeps nocore])|] end.

Lemma ok_direct_join answers chunks : Forall (λ a, a ≠ Err Panicked) answers → ok (direct_join (N := N) answers chunks) any.
Proof.
  intros Ha. revert chunks. induction Ha as [|a answers Ha _ IH]; intros [|[p w] chunks]; cbn [direct_join]; try apply ok_ret_any.
  - destruct a as [[]|]; ok_auto.
  - destruct a as [r|e']; [|intros c Hc; split; [done|]; intros ->; by apply Ha].
    destruct r; try apply ok_fail. destruct (_ <? _); [ok_step|]. eapply ok_bind; [apply IH|intros ? _; ok_auto].
Qed.

Lemma ok_read fh offset size : fh_ok fh → ok (read env fh offset size) any.
Proof.
  intros Hfh. unfold read. ok_fh Hfh. ok_step. eapply (ok_bind _ _ any).
  { unfold cached_read. ok_step. repeat case_match; try apply ok_ret_any. eapply ok_bind; [by apply ok_upd_open|intros ? _; ok_step]. }
  intros hit _. destruct hit; [ok_step|]. ok_step. case_match.
  - destruct (read_network _ _ _ _) as [r ra]. eapply ok_bind; [by apply ok_upd_open|intros ? _].
    intros c Hc. split; [done|]. by destruct r.
  - unfold read_blocks_direct. ok_step. apply ok_direct_join. apply Forall_fmap, Forall_true. intros [p w]. simpl.
    pose proof (flat_ok (net_request (net_conn (cl_net a1)) (RqRead fh p w) (cl_net a1)).1) as H'.
    intros E. by rw E in H'.
Qed.

Lemma ok_mark_written p : ok (mark_path_written (N := N) p) any.
Proof.
  unfold mark_path_written. eapply (ok_bind _ _ any); [|intros ? _; ok_step]. apply ok_mod. intros c Hc. apply wf_set_open; [done|].
  intros fh s. rw lookup_fmap fmap_Some. intros (s0 & H0 & ->). exists s0. split; [done|]. by case_bool_decide.
Qed.

Lemma ok_write_loop fuel fh sfh offset data pos expect : ok (write_loop fuel fh sfh offset data pos expect) any.
Proof.
  revert pos expect. induction fuel as [|fuel IH]; intros pos expect; cbn [write_loop]; (case_bool_decide; [apply ok_ret_any|]).
  - apply ok_waits.
  - eapply ok_bind; [apply ok_call; ok_step|intros r Hr]. destruct r; try apply ok_fail.
    eapply ok_bind; [by apply ok_upd_open|intros ? _]. case_bool_decide; [ok_step|]. apply IH.
Qed.

Lemma ok_write fuel fh offset data : fh_ok fh → ok (write env fuel fh offset data) any.
Proof.
  intros Hfh. unfold write. ok_fh Hfh. do 2 ok_step. eapply ok_bind; [apply ok_write_loop|intros ? _].
  eapply (ok_bind _ _ any); [|intros ? _; ok_step]. ok_step. case_match; [|ok_step].
  eapply ok_bind; [by apply ok_upd_open|intros ? _]. apply ok_mark_written.
Qed.

Lemma ok_mkdir parent name mode : ok (mkdir env parent name mode) any.
Proof. unfold mkdir. ok_auto. Qed.

Lemma ok_remove parent name dir : ok (RemoteFs.remove env parent name dir) any.
Proof.
  unfold RemoteFs.remove. ok_step. ok_step; [destruct dir; ok_auto|]. ok_step; [destruct dir; ok_step|].
  do 2 ok_step. eapply (ok_bind _ _ any); [|intros ? _; ok_step]. case_match; ok_step.
Qed.

Lemma ok_rename parent name newparent newname replace :
  ok (rename env renames_ok parent name newparent newname replace) any.
Proof. unfold rename. ok_auto. Qed.

Lemma ok_setattr ino size mtime mode : ok (setattr env ino size mtime mode) any.
Proof.
  unfold setattr. do 2 ok_step; [ok_step|]. ok_step; [ok_step|]. do 2 ok_step.
  eapply (ok_bind _ _ any); [|intros ? _; ok_step]. destruct size; [apply ok_mark_written|ok_step].
Qed.

Lemma ok_link target newparent newname : ok (link env target newparent newname) any.
Proof. unfold link. ok_auto. Qed.

Lemma ok_localize target dir : ok (localize_target upper target dir) any.
Proof.
  unfold localize_target. ok_step. destruct (cl_mount_root a) as [root|] eqn:Hr; [|ok_step].
  destruct (wf_targets a H root Hr target dir) as [t ->]. ok_step.
Qed.

Lemma ok_require need : ok (require_proto (N := N) need) any.
Proof. unfold require_proto. ok_step. case_match; ok_step. Qed.
#[local] Hint Resolve ok_localize ok_require : ok_db.

Lemma ok_symlink parent name target : ok (symlink env upper parent name target) any.
Proof. unfold symlink. ok_auto. Qed.

Lemma ok_readlink ino : ok (readlink env ino) any.
Proof. unfold readlink. ok_auto. Qed.

Lemma ok_lock fh kind wait : ok (lock (N := N) fh kind wait) any.
Proof.
  unfold lock. case_match; [ok_step|]. do 2 ok_step. eapply (ok_bind _ _ any).
  { destruct wait; [apply ok_call_keepalive; ok_step|eapply ok_any, ok_call; ok_step]. }
  intros ? _. ok_step. by apply ok_upd_open.
Qed.

Lemma ok_unlock fh : ok (unlock (N := N) fh) any.
Proof. unfold unlock. case_match; [ok_step|]. ok_step. ok_step; [ok_step|]. ok_step. by apply ok_upd_open. Qed.

Lemma ok_flush fh : fh_ok fh → ok (flush (N := N) fh) any.
Proof. intros Hfh. unfold flush. ok_fh Hfh. do 2 ok_step. ok_step; ok_step. Qed.

Lemma ok_release fh : fh_ok fh → ok (release (N := N) fh) any.
Proof.
  intros Hfh. unfold release. destruct (overlay_fh fh) eqn:Hb.
  - apply ok_overlay_do; [by apply Hfh|]. intros o fs Ho. split; [done|]. split; [|done].
    intros fh' h Hh. simpl in Hh. apply lookup_delete_Some in Hh as [_ Hh]. by eapply Ho.
  - ok_step. eapply (ok_bind _ _ any); [|intros ? _; eapply ok_bind; [eapply ok_try, ok_call; ok_step|intros ? _; ok_step]].
    case_match; [|ok_step]. eapply (ok_bind _ _ any); [|intros ? _; case_match; ok_step].
    apply ok_mod. intros c Hc. apply wf_set_open; [done|]. intros fh' s' [_ Hs']%lookup_delete_Some. eauto.
Qed.

Lemma ok_statfs : ok (statfs (N := N)) any.
Proof. unfold statfs. ok_auto. Qed.

Lemma ok_invalidate_read fh : ok (invalidate_read_cache (N := N) fh) any.
Proof. by apply ok_upd_open. Qed.

(** *** Events and reconnection *)

Lemma ok_invalidate_path p : ok (invalidate_path (N := N) p) any.
Proof. unfold invalidate_path. ok_step. case_match; ok_step. Qed.
#[local] Hint Resolve ok_invalidate_path : ok_db.

Lemma ok_apply_events batch : ok (apply_events (N := N) batch) any.
Proof.
  induction batch as [|ev batch IH]; cbn [apply_events]; [ok_step|]. eapply (ok_bind _ _ any); [|intros ? _; exact IH].
  unfold apply_event. case_match; ok_auto.
Qed.

Lemma ok_pump m : ok (pump renames_ok m) any.
Proof.
  destruct m as [batch|]; unfold pump; [|ok_auto]. eapply (ok_bind _ _ any).
  { case_match; [ok_step|]. apply ok_mod. by intros c []. }
  intros _ _. ok_step. case_bool_decide; [ok_step|].
  eapply ok_bind; [apply ok_apply_events|intros ? _]. eapply (ok_bind _ _ any); [|intros ? _; ok_step].
  apply ok_mod. intros c Hc. destruct (cl_cache c); [|done]. destruct (foldl _ _ _). by apply wf_set_cache.
Qed.

Lemma ok_resubscribe : ok (resubscribe (N := N)) any.
Proof.
  intros c Hc. unfold resubscribe. pose proof (wf_net _ Hc) as Hn.
  match goal with |- context [net_request ?k ?q _] => destruct (net_request_safe k q _ Hn) as [Hn1 _]; [by constructor|] end.
  destruct (net_request _ _ _) as [r n]. simpl in Hn1.
  destruct r as [[|[]]|]; (split; [|done]); try by apply wf_set_net.
  apply wf_set_net; [|by apply wf_set_cache, wf_set_attrs, wf_set_net].
  by apply (net_request_safe (net_conn (cl_net c)) (RqSubscribe None) n Hn1); constructor.
Qed.

Lemma ok_start_pump since : ok (start_event_pump_since (N := N) since) any.
Proof.
  intros c Hc. unfold start_event_pump_since. pose proof (wf_net _ Hc) as Hn.
  destruct (net_request_safe (net_conn (cl_net c)) (RqSubscribe since) _ Hn) as [Hn1 _]; [by constructor|].
  destruct (net_request _ _ _) as [first n]. simpl in Hn1.
  set (again := match first, since with Ok (Err TooOld), Some _ => _ | _, _ => _ end).
  assert (NI again.2) as Hn2.
  { unfold again. destruct first as [[|[]]|], since; try done.
    by apply (net_request_safe (net_conn (cl_net c)) (RqSubscribe None) n Hn1); constructor. }
  destruct again as [r n2]. simpl in Hn2. pose proof (wf_set_net n2 c Hn2 Hc) as Hc2.
  destruct r as [[[]|]|]; cbn [flat]; try done. split; [|done]. destruct since; [|done]. by destruct Hc2.
Qed.

Lemma replay_lock_safe tries conn fh kind n : NI n → NI (replay_lock tries conn fh kind n).2.
Proof.
  revert n. induction tries as [|tries IH]; intros n Hn; [done|]. cbn [replay_lock].
  destruct (net_request_safe conn (RqLock fh kind false) n Hn) as [Hn1 _]; [by constructor|].
  destruct (net_request _ _ _) as [[[[]|[]]|] n1]; simpl in Hn1; try done. by apply IH.
Qed.

Lemma reopen_safe conn s n : local_path ov (os_path s) = false → NI n →
  os_path (reopen conn s n).1 = os_path s ∧ NI (reopen conn s n).2.
Proof.
  intros Hp Hn. unfold reopen. cbn [os_set_ra os_path os_flags os_lock].
  destruct (net_request_safe conn (RqOpen (os_path s) (os_flags s)) n Hn) as [Hn1 _]; [by repeat constructor|].
  destruct (net_request _ _ _) as [r n1]. simpl in Hn1.
  destruct r as [[[]|]|]; try by destruct (os_lock s).
  cbn [os_set_server_fh os_set_ra os_lock]. destruct (os_lock s) as [kind|]; [|done].
  pose proof (replay_lock_safe REPLAY_TRIES conn fh kind n1 Hn1) as Hn2.
  destruct (replay_lock _ _ _ _ _) as [[] n2]; done.
Qed.

Lemma reopen_all_safe conn fhs m n : NI n →
  (∀ fh s, m !! fh = Some s → overlay_fh fh = false ∧ local_path ov (os_path s) = false) →
  NI (reopen_all conn fhs m n).2 ∧
  ∀ fh s, (reopen_all conn fhs m n).1 !! fh = Some s → overlay_fh fh = false ∧ local_path ov (os_path s) = false.
Proof.
  revert m n. induction fhs as [|fh fhs IH]; intros m n Hn Hm; [done|]. cbn [reopen_all].
  destruct (m !! fh) as [s|] eqn:Hs; [|by apply IH]. destruct (Hm _ _ Hs) as [H1 H2].
  destruct (reopen_safe conn s n H2 Hn) as [H3 H4]. destruct (reopen conn s n) as [s' n']. apply IH; [done|].
  intros fh' s'' [[<- <-]|[_ H]]%lookup_insert_Some; [|eauto]. simpl in H3. by rw H3.
Qed.

Lemma ok_reconnect conn : ok (reconnect (N := N) conn) any.
Proof.
  intros c Hc. unfold reconnect. pose proof (wf_net _ Hc) as Hn.
  destruct (net_request_safe conn (RqAttach (cl_export c)) _ Hn) as [Hn1 _]; [by constructor|].
  destruct (net_request _ _ _) as [r n]. simpl in Hn1.
  destruct r as [[[]|]|]; try by (split; [by apply wf_set_net|done]).
  destruct (reopen_all_safe conn (map_to_list (cl_open c)).*1 (cl_open c) n Hn1 (wf_open c Hc)) as [Hn2 Hm].
  destruct (reopen_all _ _ _ _) as [m n2]. split; [|done]. destruct Hc as [W1 W2 W3 W4 W5]. split; try done. by apply net_swap_safe.
Qed.

(** *** All of them *)

(** A method call, an event, or a reconnection. *)
Inductive ClientOp : Type :=
| OpGetattr (ino : Z) | OpLookup (parent : Z) (name : string) | OpReaddir (fuel : nat) (ino : Z)
| OpOpen (ino : Z) (flags : OpenFlags) | OpRead (fh offset size : Z)
| OpWrite (fuel : nat) (fh offset : Z) (data : list Z)
| OpCreate (parent : Z) (name : string) (mode : Z) (flags : OpenFlags)
| OpMkdir (parent : Z) (name : string) (mode : Z) | OpRemove (parent : Z) (name : string) (dir : bool)
| OpRename (parent : Z) (name : string) (newparent : Z) (newname : string) (replace : bool)
| OpSetattr (ino : Z) (size : option Z) (mtime : option SystemTime) (mode : option Z)
| OpLink (target newparent : Z) (newname : string) | OpSymlink (parent : Z) (name target : string)
| OpReadlink (ino : Z) | OpLock (fh : Z) (kind : LockKind) (wait : bool) | OpUnlock (fh : Z)
| OpFlush (fh : Z) | OpRelease (fh : Z) | OpStatfs
| OpStartPump (since : option Z) | OpPump (m : Received) | OpResubscribe | OpReconnect (conn : Conn).

(** Run one; the value is the handle given out, if one is. *)
Definition none {A} (m : M C Halt A) : M C Halt (option Z) := run! m in sret None.
Definition run_client (op : ClientOp) : M C Halt (option Z) :=
  match op with
  | OpGetattr ino => none (getattr env ino)
  | OpLookup parent name => none (lookup env parent name)
  | OpReaddir fuel ino => none (readdir env fuel ino)
  | OpOpen ino flags => let! '(fh, _) := open env ino flags in sret (Some fh)
  | OpRead fh offset size => none (read env fh offset size)
  | OpWrite fuel fh offset data => none (write env fuel fh offset data)
  | OpCreate parent name mode flags => let! '(_, fh, _) := create env parent name mode flags in sret (Some fh)
  | OpMkdir parent name mode => none (mkdir env parent name mode)
  | OpRemove parent name dir => none (RemoteFs.remove env parent name dir)
  | OpRename parent name newparent newname replace => none (rename env renames_ok parent name newparent newname replace)
  | OpSetattr ino size mtime mode => none (setattr env ino size mtime mode)
  | OpLink target newparent newname => none (link env target newparent newname)
  | OpSymlink parent name target => none (symlink env upper parent name target)
  | OpReadlink ino => none (readlink env ino)
  | OpLock fh kind wait => none (lock fh kind wait)
  | OpUnlock fh => none (unlock fh)
  | OpFlush fh => none (flush fh)
  | OpRelease fh => none (release fh)
  | OpStatfs => none statfs
  | OpStartPump since => none (start_event_pump_since since)
  | OpPump m => none (pump renames_ok m)
  | OpResubscribe => none resubscribe
  | OpReconnect conn => none (reconnect conn)
  end.

(** The handle an operation is given. *)
Definition op_fh (op : ClientOp) : option Z :=
  match op with
  | OpRead fh _ _ | OpWrite _ fh _ _ | OpLock fh _ _ | OpUnlock fh | OpFlush fh | OpRelease fh => Some fh
  | _ => None
  end.
Definition op_typed (op : ClientOp) : Prop := ∀ fh, op_fh op = Some fh → fh_ok fh.

Lemma ok_none {A} (m : M C Halt A) R : ok m R → ok (none m) (λ r, ∀ fh, r = Some fh → fh_ok fh).
Proof. intros Hm. eapply ok_bind; [exact Hm|intros ? _]. by apply ok_ret. Qed.

Lemma run_client_ok op : op_typed op → ok (run_client op) (λ r, ∀ fh, r = Some fh → fh_ok fh).
Proof.
  intros Hop. unfold op_typed in Hop. destruct op; cbn [run_client op_fh] in *;
    try (eapply ok_none; first
      [apply ok_getattr | apply ok_lookup | apply ok_readdir | apply ok_read; auto | apply ok_write; auto | apply ok_mkdir
      | apply ok_remove | apply ok_rename | apply ok_setattr | apply ok_link | apply ok_symlink | apply ok_readlink
      | apply ok_lock | apply ok_unlock | apply ok_flush; auto | apply ok_release; auto | apply ok_statfs
      | apply ok_start_pump | apply ok_pump | apply ok_resubscribe | apply ok_reconnect]).
  - eapply ok_bind; [apply ok_open|]. intros [fh a] Hfh. apply ok_ret. by intros fh' [= <-].
  - eapply ok_bind; [apply ok_create|]. intros [[i fh] a] Hfh. apply ok_ret. by intros fh' [= <-].
Qed.

(** A run of operations, each given a handle the overlay rule allows. *)
Fixpoint run_clients (ops : list ClientOp) (c : C) : C :=
  match ops with [] => c | op :: ops => run_clients ops (run_client op c).2 end.

Lemma run_clients_ok ops c : Forall op_typed ops → wf c → wf (run_clients ops c).
Proof.
  intros Hops. revert c. induction Hops as [|op ops Hop _ IH]; intros c Hc; [done|].
  apply IH. by apply (run_client_ok op).
Qed.


End Safety.

(** ** Nothing local is ever sent *)

(** A network that writes down the requests it is given. *)
Record Logged (N : Type) : Type := mkLogged { lg_net : N; lg_log : list Request }.
Arguments mkLogged {N}. Arguments lg_net {N}. Arguments lg_log {N}.

#[global] Instance logged_net {N} (NET : Net N) : Net (Logged N) := {
  net_now n := net_now (lg_net n);
  net_conn n := net_conn (lg_net n);
  net_swap conn n := mkLogged (net_swap conn (lg_net n)) (lg_log n);
  net_closed conn n := net_closed conn (lg_net n);
  net_request conn rq n :=
    let '(r, n') := net_request conn rq (lg_net n) in (r, mkLogged n' (lg_log n ++ [rq]));
  net_keepalive conn rq n :=
    let '(r, n') := net_keepalive conn rq (lg_net n) in (r, mkLogged n' (lg_log n ++ [rq]))
}.

Definition all_clean {N} (ov : option (RelPath → bool)) (n : Logged N) : Prop := Forall (clean ov) (lg_log n).

#[global] Instance logged_safe {N} (NET : Net N) ov :
  (∀ conn rq n, small_handle (net_request conn rq n).1) → NetSafe (logged_net NET) ov (all_clean ov).
Proof.
  intros Hs. split.
  - intros conn rq n Hn Hrq. pose proof (Hs conn rq (lg_net n)) as H. unfold net_request, logged_net.
    change (net_request conn rq (lg_net n)) with (@net_request _ NET conn rq (lg_net n)).
    destruct (@net_request _ NET conn rq (lg_net n)) as [r n']. split; [|done]. apply Forall_app. by repeat constructor.
  - intros conn rq n Hn Hrq. unfold net_keepalive, logged_net.
    destruct (@net_keepalive _ NET conn rq (lg_net n)) as [r n']. apply Forall_app. by repeat constructor.
  - done.
Qed.

(** C5.  The overlay stays on this machine: over any server and any run of methods,
    events and reconnections, no request the client sends names a path its
    exclude patterns match -- neither the path asked about, nor the source or
    the target of a rename or a link, nor a file reopened after the connection
    was lost. *)
Theorem overlay_paths_stay_local {N} (NET : Net N) ov env upper renames_ok ops (c : Client (Logged N)) :
  (∀ conn rq n, small_handle (net_request conn rq n).1) →
  wf (ov := ov) (NI := all_clean ov) upper c → Forall (op_typed (ov := ov)) ops →
  Forall (clean ov) (lg_log (cl_net (run_clients env upper renames_ok ops c))).
Proof.
  intros Hs Hc Hops. pose proof (logged_safe NET ov Hs) as NS.
  by apply (wf_net (ov := ov) (NI := all_clean ov) upper), run_clients_ok.
Qed.

(** ** A small network

    It answers a request with a fixed function of it; nothing it is told
    changes it. *)
Module Fixed.
Definition attr : Attr := mkAttr KFile 5 1000 1000 420 3.
Definition answer (rq : Request) : Reply :=
  match rq with
  | RqAttach _ => Ok (Ok (RsAttachOk 0 (mkAttr KDir 4096 1000 1000 493 0)))
  | RqGetattr "missing" => Ok (Err NotFound)
  | RqGetattr _ | RqMkdir _ _ | RqSetattr _ _ _ _ | RqLink _ _ | RqSymlink _ _ => Ok (Ok (RsAttr attr))
  | RqReaddir _ _ => Ok (Ok (RsDir [mkDirEntry "a.txt" attr; mkDirEntry "node_modules" attr] None))
  | RqOpen _ _ | RqCreate _ _ _ => Ok (Ok (RsOpened 7 attr))
  | RqRead _ _ _ => Ok (Ok (RsData (as_bytes "hello")))
  | RqWrite _ _ data _ => Ok (Ok (RsWritten (blen data) 4 false))
  | RqStatfs => Ok (Ok (RsStatfs 4096 100 50))
  | RqReadLink _ => Ok (Ok (RsTarget "a.txt"))
  | RqSubscribe _ => Ok (Ok (RsSubscribed 1))
  | RqMountDefaults => Ok (Ok (RsMountDefaults [] [] None None))
  | _ => Ok (Ok RsOk)
  end.
#[global] Instance net : Net unit := {
  net_now _ := 0; net_conn _ := mkConn 1 4; net_swap _ n := n; net_closed _ _ := false;
  net_request _ rq n := (answer rq, n); net_keepalive _ rq n := (Some (answer rq), n)
}.

(** Two files of the export and a local directory are known. *)
Definition excluded (p : RelPath) : bool := bool_decide (p = "node_modules") || starts_with "node_modules/" p.
Definition table : InodeTable := foldl (λ t p, (get_or_alloc t p).2) table_new ["a.txt"; "b.txt"; "node_modules"].
Definition local_disk : Fs :=
  mkFs (list_to_map [(0, Demo.dir [("ov", 1)]); (1, Demo.dir [("node_modules", 2)]); (2, Demo.dir [("x.js", 3)]);
                     (3, Demo.file (as_bytes "local"))]) 4.
Definition overlay : Overlay := mkOverlay excluded ["ov"] ∅ 1.
Definition client {N} (n : N) (opened : gmap Z OpenState) (mount_root : option string) : Client N :=
  mkClient table attr ∅ (Some overlay) local_disk None [] opened "data" true 0 0 false mount_root n.

Lemma small conn rq n : small_handle (net_request conn rq n).1.
Proof.
  intros fh a. change (net_request conn rq n).1 with (answer rq). destruct rq; simpl; try done; try (by intros [= <- _]).
  intros H. exfalso. revert H. repeat (case_match; try done).
Qed.
Definition open_state (p : RelPath) : OpenState := mkOpenState p (mkOpenFlags true true true false false) 7 false true ra_new None false 3.
Lemma wf_client log : Forall (clean (Some excluded)) log → 
  wf (ov := Some excluded) (NI := all_clean (Some excluded)) (λ s, s) (client (mkLogged tt log) {[ 7 := open_state "b.txt" ]} None).
Proof.
  intros Hl. split; try done.
  - intros fh s Hs. cbn [cl_open client] in Hs. apply lookup_singleton_Some in Hs as [<- <-]. split; vm_compute; reflexivity.
  - intros o fh h [= <-] H. exfalso. revert H. vm_compute. by destruct fh.
Qed.
End Fixed.


Lemma overlay_paths_stay_local_witness :
  let ops := [OpLookup 1 "node_modules"; OpReaddir 4 1; OpWrite 3 7 0 [1; 2]; OpRename 1 "a.txt" 1 "c.txt" true;
              OpReconnect (mkConn 2 4)] in
  let log := lg_log (cl_net (run_clients Demo.env (λ s, s) (λ _ _, true) ops
                       (Fixed.client (mkLogged tt []) {[ 7 := Fixed.open_state "b.txt" ]} None))) in
  length log = 5%nat ∧ Forall (clean (Some Fixed.excluded)) log.
Proof.
  intros ops log. split; [vm_compute; reflexivity|].
  apply (overlay_paths_stay_local Fixed.net (Some Fixed.excluded) Demo.env (λ s, s) (λ _ _, true) ops _ Fixed.small
    (Fixed.wf_client [] ltac:(constructor))).
  repeat (constructor; [intros fh H; vm_compute in H; try discriminate; injection H as <-; intros E; vm_compute in E; discriminate|]).
  constructor.
Defined.

(** ** Locks across a reconnection *)

Section Reconnect.
Context {N : Type} `{NET : Net N}.

Lemma replay_lock_granted tries conn fh kind n :
  (replay_lock tries conn fh kind n).1 = true → ∃ n', (net_request conn (RqLock fh kind false) n').1 = Ok (Ok RsOk).
Proof.
  revert n. induction tries as [|tries IH]; intros n; [done|]. cbn [replay_lock].
  destruct (net_request conn (RqLock fh kind false) n) as [r n1] eqn:E.
  destruct r as [[[]|[]]|]; try done; [intros _; exists n; by rw E|apply IH].
Qed.

(** The server granted the lock again, as its last word about it. *)
Definition regranted (conn : Conn) (fh : Z) (kind : LockKind) : Prop :=
  ∃ n, (net_request conn (RqLock fh kind false) n).1 = Ok (Ok RsOk).

Definition restored (conn : Conn) (s s' : OpenState) : Prop :=
  os_path s' = os_path s ∧ os_lock s' = os_lock s ∧ os_ra s' = clear (os_ra s) ∧
  match os_lock s with
  | Some kind => os_poisoned s' = true ∨ regranted conn (os_server_fh s') kind
  | None => os_poisoned s' = os_poisoned s
  end.

Lemma reopen_restores conn s n : restored conn s (reopen conn s n).1.
Proof.
  unfold reopen. cbn [os_set_ra os_path os_flags os_lock].
  destruct (net_request conn (RqOpen (os_path s) (os_flags s)) n) as [r n1]. unfold restored.
  destruct r as [[[]|]|]; try by (destruct (os_lock s) eqn:E; split_and!; auto).
  cbn [os_set_server_fh os_set_ra os_lock]. destruct (os_lock s) as [kind|] eqn:E; [|by split_and!].
  pose proof (replay_lock_granted REPLAY_TRIES conn fh kind n1) as H.
  destruct (replay_lock REPLAY_TRIES conn fh kind n1) as [[] n2]; split_and!; auto. right. by apply H.
Qed.

Lemma decide_cons_ne (x y : Z) l {A} (a b : A) : x ≠ y →
  (if decide (x ∈ y :: l) then a else b) = (if decide (x ∈ l) then a else b).
Proof. intros Hne. do 2 case_decide; set_solver. Qed.

Lemma reopen_all_restores conn fhs : ∀ m n fh s, NoDup fhs → m !! fh = Some s →
  ∃ s', (reopen_all conn fhs m n).1 !! fh = Some s' ∧ if decide (fh ∈ fhs) then restored conn s s' else s' = s.
Proof.
  induction fhs as [|fh0 fhs IH]; intros m n fh s Hnd Hs.
  { exists s. split; [done|]. case_decide as Hin; [by apply not_elem_of_nil in Hin|done]. }
  apply NoDup_cons in Hnd as [Hnot Hnd]. cbn [reopen_all]. destruct (m !! fh0) as [s0|] eqn:H0.
  - pose proof (reopen_restores conn s0 n) as Hr. destruct (reopen conn s0 n) as [s0' n']. simpl in Hr.
    destruct (decide (fh = fh0)) as [->|Hne].
    + rw Hs in H0. injection H0 as <-. destruct (IH (<[fh0 := s0']> m) n' fh0 s0' Hnd) as (s' & H1 & H2); [by rw lookup_insert_eq|].
      destruct (decide (fh0 ∈ fhs)) as [|_]; [done|]. subst s'. exists s0'. split; [done|].
      case_decide as Hin; [done|]. by destruct Hin; left.
    + destruct (IH (<[fh0 := s0']> m) n' fh s Hnd) as (s' & H1 & H2); [by rw lookup_insert_ne|].
      exists s'. split; [done|]. by rw (decide_cons_ne _ _ _ _ _ Hne).
  - destruct (IH m n fh s Hnd Hs) as (s' & H1 & H2). exists s'. split; [done|].
    assert (fh ≠ fh0) as Hne by congruence.
    by rw (decide_cons_ne _ _ _ _ _ Hne).
Qed.

(** A handle that lost its lock. *)
Lemma poisoned_fails env (c : Client N) fh s :
  cl_open c !! fh = Some s → os_poisoned s = true → overlay_fh fh = false →
  (∀ offset size, read env fh offset size c = (Err (Failed (Remote Io)), c)) ∧
  (∀ fuel offset data, write env fuel fh offset data c = (Err (Failed (Remote Io)), c)) ∧
  (∀ kind wait, lock fh kind wait c = (Err (Failed (Remote Io)), c)) ∧
  flush fh c = (Err (Failed (Remote Io)), c).
Proof.
  intros Hs Hp Hb. assert (check_poisoned fh c = (Err (Failed (Remote Io)), c)) as Hc.
  { unfold check_poisoned, sbind, sget. by rw Hs Hp. }
  unfold read, write, lock, flush. rw Hb. split_and!; intros; by rw (sbind_Err _ _ _ _ _ Hc).
Qed.

(** C19.  Reconnecting never loses a lock in silence: of every handle that held an
    advisory lock, either the server granted the lock again to the handle's
    new server handle, or every later read, write, lock and flush through the
    handle fails with EIO and changes nothing.  Nothing prefetched and no
    cached attribute survives, and the new connection is the one in use. *)
Theorem reconnect_keeps_locks_honest env (conn : Conn) (c c' : Client N) fh s :
  reconnect conn c = (Ok true, c') → cl_open c !! fh = Some s → overlay_fh fh = false →
  cl_attrs c' = ∅ ∧ cl_epoch c' = u64_add (cl_epoch c) 1 ∧ (∃ n, cl_net c' = net_swap conn n) ∧
  ∃ s', cl_open c' !! fh = Some s' ∧ os_path s' = os_path s ∧ os_ra s' = clear (os_ra s) ∧
    match os_lock s with
    | Some kind =>
        regranted conn (os_server_fh s') kind ∨
        ((∀ offset size, read env fh offset size c' = (Err (Failed (Remote Io)), c')) ∧
         (∀ fuel offset data, write env fuel fh offset data c' = (Err (Failed (Remote Io)), c')) ∧
         (∀ kind wait, lock fh kind wait c' = (Err (Failed (Remote Io)), c')) ∧
         flush fh c' = (Err (Failed (Remote Io)), c'))
    | None => os_poisoned s' = os_poisoned s
    end.
Proof.
  unfold reconnect. destruct (net_request conn (RqAttach (cl_export c)) (cl_net c)) as [r n].
  intros Hr Hs Hb. destruct r as [[[]|]|]; try done.
  destruct (reopen_all_restores conn (map_to_list (cl_open c)).*1 (cl_open c) n fh s) as (s' & H1 & H2);
    [apply NoDup_fst_map_to_list|done|].
  destruct (decide _) as [_|Hnot] in H2; last (destruct Hnot; apply list_elem_of_fmap; exists (fh, s); split; [done|by apply elem_of_map_to_list]).
  destruct (reopen_all _ _ _ _) as [m n2]. injection Hr as <-. split; [done|]. split; [done|]. split; [by eexists|].
  destruct H2 as (Hp & Hl & Hra & Hk). exists s'. split; [done|]. split; [done|]. split; [done|].
  destruct (os_lock s) as [kind|]; [|done]. destruct Hk as [Hk|Hk]; [right|by left]. by apply (poisoned_fails env _ fh s').
Qed.
End Reconnect.

Lemma reconnect_keeps_locks_honest_witness :
  let s := os_set_lock (Some Exclusive) (Fixed.open_state "b.txt") in
  let c := Fixed.client tt {[ 7 := s ]} None in
  ∃ s', cl_open (reconnect (NET := Fixed.net) (mkConn 2 4) c).2 !! 7 = Some s' ∧ os_path s' = "b.txt".
Proof.
  intros s c. destruct (reconnect (NET := Fixed.net) (mkConn 2 4) c) as [r c'] eqn:E.
  assert (r = Ok true) as -> by (vm_compute in E; by injection E as <- _).
  destruct (reconnect_keeps_locks_honest Demo.env (mkConn 2 4) c c' 7 s E ltac:(vm_compute; reflexivity) ltac:(vm_compute; reflexivity))
    as (_ & _ & _ & s' & H1 & H2 & _).
  exists s'. split; [exact H1|exact H2].
Defined.
