(* ===== verification/Walker.v ===== *)
(** * Walker: the walk that fills the cache

    The task of alloyfs-client/src/walker.rs: it walks the export once, breadth
    first and page by page, and starts a fetch for every file the cache wants,
    at most four at a time; when the walk and its fetches are done it serves
    the queue of files to fetch again, for as long as the mount lives.  The
    walk and its fetches are a transition system: one step of the task's loop,
    or one fetch from its open to its release.

    Never more than four fetches run; no request names an overlay path; over a
    directory tree that stands still the walk ends, in whatever order fetches
    finish, and has then looked at every file.  A file of 4 GiB ends it for
    good: its fetch never finishes. *)

From S2P Require Import Prelude Messages Common Exclude Inode ReadAhead AutoCache Fs Agent Transport Overlay RemoteFs RemoteFacts.

Definition FILE_CONCURRENCY : nat := 4.

(** Where the walk is in a directory: about to ask for a page, or at the rest
    of one. *)
Inductive PagePos : Type := AtCursor (cursor : Z) | InPage (entries : list DirEntry) (next : option Z).

(** The task: walking, waiting for its fetches, or serving the queue. *)
Inductive WalkPhase : Type :=
| Walking (queue : list RelPath) (dir : option (RelPath * PagePos))
| Joining
| Serving.

(** What an entry asks for. *)
Inductive Todo : Type := Skip | Descend (child : RelPath) | Fetch (child : RelPath).

Inductive WalkStep : Type := Advance | Finish (i : nat).

Section Walker.
Context {N : Type} `{NET : Net N} (fuel : nat).
#[local] Abbreviation C := (Client N).

Record WalkState : Type := mkWalkState { wk_phase : WalkPhase; wk_tasks : list RelPath; wk_client : C }.

(** [fs.conn().request(..)]. *)
Definition ask (rq : Request) (c : C) : Reply * C :=
  let '(r, n) := net_request (net_conn (cl_net c)) rq (cl_net c) in (r, set_net n c).

(** [fetch_one] with its open and its release; [None] when its reads never
    end. *)
Definition fetch_file (path : RelPath) (c : C) : option (bool * C) :=
  match ask (RqOpen path (mkOpenFlags true false false false false)) c with
  | (Ok (Ok (RsOpened fh a)), c) =>
      let n := cl_net c in
      let read off len := match fst (net_request (net_conn n) (RqRead fh off len) n) with
                          | Ok (Ok (RsData d)) => Some d
                          | _ => None
                          end in
      match cl_cache c with
      | None => Some (false, c)                      (* the walker runs with a cache only *)
      | Some k =>
          match fetch_one fuel read k path a with
          | None => None
          | Some (ok, k) => Some (ok, (ask (RqRelease fh) (set_cache (Some k) (cl_queue c) c)).2)
          end
      end
  | (_, c) => Some (false, c)
  end.

Definition examine (c : C) (dir : RelPath) (e : DirEntry) : Todo :=
  let child := RelPath.join dir (de_name e) in
  if is_overlay c child then Skip
  else match a_kind (de_attr e) with
  | KDir => Descend child
  | KFile =>
      match cl_cache c with
      | Some k => if wants k child (a_size (de_attr e)) && needs_fetch k child (de_attr e) then Fetch child else Skip
      | None => Skip
      end
  | KSymlink => Skip
  end.

(** Start a fetch, when there is a permit. *)
Definition spawn (child : RelPath) (w : WalkState) : option WalkState :=
  if bool_decide (length (wk_tasks w) < FILE_CONCURRENCY)%nat
  then Some (mkWalkState (wk_phase w) (wk_tasks w ++ [child]) (wk_client w)) else None.

Definition at_phase (p : WalkPhase) (w : WalkState) : WalkState := mkWalkState p (wk_tasks w) (wk_client w).
Definition at_client (c : C) (w : WalkState) : WalkState := mkWalkState (wk_phase w) (wk_tasks w) c.

(** One step of the loop; [None] while it waits. *)
Definition advance (w : WalkState) : option WalkState :=
  let c := wk_client w in
  match wk_phase w with
  | Walking queue None =>
      match queue with
      | [] => Some (at_phase Joining w)
      | dir :: queue => Some (at_phase (Walking queue (Some (dir, AtCursor 0))) w)
      end
  | Walking queue (Some (dir, AtCursor cursor)) =>
      let '(r, c) := ask (RqReaddir dir cursor) c in
      let pos := match r with Ok (Ok (RsDir es next)) => Some (dir, InPage es next) | _ => None end in
      Some (mkWalkState (Walking queue pos) (wk_tasks w) c)
  | Walking queue (Some (dir, InPage [] next)) =>
      Some (at_phase (Walking queue ((λ cursor, (dir, AtCursor cursor)) <$> next)) w)
  | Walking queue (Some (dir, InPage (e :: es) next)) =>
      let rest := Some (dir, InPage es next) in
      match examine c dir e with
      | Skip => Some (at_phase (Walking queue rest) w)
      | Descend child => Some (at_phase (Walking (queue ++ [child]) rest) w)
      | Fetch child => spawn child (at_phase (Walking queue rest) w)
      end
  | Joining =>
      match wk_tasks w with
      | [] => Some (mkWalkState Serving [] (set_cache ((λ k, (flush_manifest k).2) <$> cl_cache c) (cl_queue c) c))
      | _ => None
      end
  | Serving =>
      match cl_queue c with
      | [] => None
      | path :: queue =>
          let w := at_client (set_cache (cl_cache c) queue c) w in
          if is_overlay c path then Some w else spawn path w
      end
  end.

Definition wstep (s : WalkStep) (w : WalkState) : option WalkState :=
  match s with
  | Advance => advance w
  | Finish i =>
      match wk_tasks w !! i with
      | Some path =>
          match fetch_file path (wk_client w) with
          | Some (_, c) => Some (mkWalkState (wk_phase w) (delete i (wk_tasks w)) c)
          | None => None
          end
      | None => None
      end
  end.

Definition walk_start (c : C) : WalkState := mkWalkState (Walking [""] None) [] c.

(** The file that the next step looks at. *)
Definition looks_at (s : WalkStep) (w : WalkState) : list (RelPath * Attr) :=
  match s, wk_phase w with
  | Advance, Walking _ (Some (dir, InPage (e :: _) _)) =>
      let child := RelPath.join dir (de_name e) in
      if negb (is_overlay (wk_client w) child) && bool_decide (a_kind (de_attr e) = KFile) then [(child, de_attr e)] else []
  | _, _ => []
  end.

(** A run: the files it looked at, and where it ends; [None] when a step is not
    possible. *)
Fixpoint run_walk (steps : list WalkStep) (w : WalkState) : option (list (RelPath * Attr) * WalkState) :=
  match steps with
  | [] => Some ([], w)
  | s :: steps =>
      match wstep s w with
      | None => None
      | Some w1 =>
          match run_walk steps w1 with
          | None => None
          | Some (log, w') => Some (looks_at s w ++ log, w')
          end
      end
  end.
End Walker.
Arguments WalkState N : clear implicits.

Section Runs.
Context {N : Type} `{NET : Net N} (fuel : nat).
#[local] Abbreviation C := (Client N).
#[local] Abbreviation WalkState := (WalkState N).

(** An invariant of the steps holds along every run. *)
Lemma run_walk_inv (I : WalkState → Prop) steps w log w' :
  (∀ s w w', I w → wstep fuel s w = Some w' → I w') → I w → run_walk fuel steps w = Some (log, w') → I w'.
Proof.
  intros Hstep. revert w log. induction steps as [|s steps IH]; intros w log Hw; cbn [run_walk]; [by intros [= _ <-]|].
  destruct (wstep fuel s w) as [w1|] eqn:E; [|done]. destruct (run_walk fuel steps w1) as [[log1 w2]|] eqn:E2; [|done].
  intros [= _ <-]. eapply IH; [|exact E2]. by eapply Hstep.
Qed.

Lemma spawn_Some child (w w' : WalkState) : spawn child w = Some w' →
  (length (wk_tasks w) < FILE_CONCURRENCY)%nat ∧ w' = mkWalkState (wk_phase w) (wk_tasks w ++ [child]) (wk_client w).
Proof. unfold spawn. case_bool_decide; [|done]. by intros [= <-]. Qed.

(** The ways a step goes. *)
Inductive Stepped (w : WalkState) : WalkState → Prop :=
| st_joining : wk_phase w = Walking [] None → Stepped w (at_phase Joining w)
| st_pop dir queue : wk_phase w = Walking (dir :: queue) None →
    Stepped w (at_phase (Walking queue (Some (dir, AtCursor 0))) w)
| st_page dir queue cursor es next : wk_phase w = Walking queue (Some (dir, AtCursor cursor)) →
    (ask (RqReaddir dir cursor) (wk_client w)).1 = Ok (Ok (RsDir es next)) →
    Stepped w (mkWalkState (Walking queue (Some (dir, InPage es next))) (wk_tasks w) (ask (RqReaddir dir cursor) (wk_client w)).2)
| st_no_page dir queue cursor : wk_phase w = Walking queue (Some (dir, AtCursor cursor)) →
    (∀ es next, (ask (RqReaddir dir cursor) (wk_client w)).1 ≠ Ok (Ok (RsDir es next))) →
    Stepped w (mkWalkState (Walking queue None) (wk_tasks w) (ask (RqReaddir dir cursor) (wk_client w)).2)
| st_page_end dir queue next : wk_phase w = Walking queue (Some (dir, InPage [] next)) →
    Stepped w (at_phase (Walking queue ((λ cursor, (dir, AtCursor cursor)) <$> next)) w)
| st_skip dir queue e es next : wk_phase w = Walking queue (Some (dir, InPage (e :: es) next)) →
    examine (wk_client w) dir e = Skip → Stepped w (at_phase (Walking queue (Some (dir, InPage es next))) w)
| st_descend dir queue e es next child : wk_phase w = Walking queue (Some (dir, InPage (e :: es) next)) →
    examine (wk_client w) dir e = Descend child → Stepped w (at_phase (Walking (queue ++ [child]) (Some (dir, InPage es next))) w)
| st_fetch dir queue e es next child : wk_phase w = Walking queue (Some (dir, InPage (e :: es) next)) →
    examine (wk_client w) dir e = Fetch child → (length (wk_tasks w) < FILE_CONCURRENCY)%nat →
    Stepped w (mkWalkState (Walking queue (Some (dir, InPage es next))) (wk_tasks w ++ [child]) (wk_client w))
| st_serving : wk_phase w = Joining → wk_tasks w = [] →
    Stepped w (mkWalkState Serving [] (set_cache ((λ k, (flush_manifest k).2) <$> cl_cache (wk_client w)) (cl_queue (wk_client w)) (wk_client w)))
| st_queue_skip path queue : wk_phase w = Serving → cl_queue (wk_client w) = path :: queue → is_overlay (wk_client w) path = true →
    Stepped w (at_client (set_cache (cl_cache (wk_client w)) queue (wk_client w)) w)
| st_queue_fetch path queue : wk_phase w = Serving → cl_queue (wk_client w) = path :: queue → is_overlay (wk_client w) path = false →
    (length (wk_tasks w) < FILE_CONCURRENCY)%nat →
    Stepped w (mkWalkState Serving (wk_tasks w ++ [path]) (set_cache (cl_cache (wk_client w)) queue (wk_client w)))
| st_fetched i path b c : wk_tasks w !! i = Some path → fetch_file fuel path (wk_client w) = Some (b, c) →
    Stepped w (mkWalkState (wk_phase w) (delete i (wk_tasks w)) c).

Lemma wstep_Stepped s w w' : wstep fuel s w = Some w' → Stepped w w'.
Proof.
  destruct s as [|i]; cbn [wstep].
  - unfold advance. cbv zeta. destruct (wk_phase w) as [queue [[dir [cursor|[|e es] next]]|]| |] eqn:Hp.
    + destruct (ask (RqReaddir dir cursor) (wk_client w)) as [r c] eqn:E. intros [= <-].
      replace c with (ask (RqReaddir dir cursor) (wk_client w)).2 by (by rw E).
      destruct r as [[[]|]|]; first [eapply st_no_page; [done|by rw E] | eapply st_page; [done|by rw E]].
    + intros [= <-]. by apply (st_page_end w dir queue next).
    + destruct (examine _ _ _) eqn:E; [by intros [= <-]; econstructor|by intros [= <-]; econstructor|].
      intros [H ->]%spawn_Some. by apply (st_fetch w dir queue e es next child).
    + destruct queue; intros [= <-]; by econstructor.
    + destruct (wk_tasks w) eqn:E; [|done]. intros [= <-]. by apply st_serving.
    + destruct (cl_queue _) as [|path queue] eqn:E; [done|]. destruct (is_overlay _ _) eqn:E2; [by intros [= <-]; econstructor|].
      intros [H ->]%spawn_Some. cbn. rw Hp. by apply (st_queue_fetch w path queue).
  - destruct (wk_tasks w !! i) eqn:E; [|done]. destruct (fetch_file _ _ _) as [[b c]|] eqn:E2; [|done].
    intros [= <-]. by econstructor.
Qed.

(** Never more fetches than permits. *)
Lemma fetches_bounded steps c log w : run_walk fuel steps (walk_start c) = Some (log, w) →
  (length (wk_tasks w) ≤ FILE_CONCURRENCY)%nat.
Proof.
  apply (run_walk_inv (λ w, length (wk_tasks w) ≤ FILE_CONCURRENCY)%nat); [|simpl; lia].
  intros s w1 w2 H1 [ ]%wstep_Stepped; cbn in *; try done; try (rw length_app; simpl; lia); [lia|].
  apply lookup_lt_Some in H as H2. pose proof (length_delete (wk_tasks w1) i ltac:(by eexists)). lia.
Qed.
End Runs.

(** ** The walker leaves the overlay alone *)

Section Remote.
Context {N : Type} {NET : Net N} {ov : option (RelPath → bool)} {NI : N → Prop} {NS : NetSafe NET ov NI} (fuel : nat).
#[local] Abbreviation C := (Client N).
#[local] Abbreviation WalkState := (WalkState N).
#[local] Abbreviation remote p := (local_path ov p = false).

(** The client's overlay is [ov], and no request named one of its paths. *)
Definition walk_client_ok (c : C) : Prop := ov_matcher <$> cl_overlay c = ov ∧ NI (cl_net c).

Record walk_ok (w : WalkState) : Prop := {
  wo_client : walk_client_ok (wk_client w);
  wo_phase : match wk_phase w with
             | Walking queue dir => Forall (λ p, remote p) queue ∧ match dir with Some (d, _) => remote d | None => True end
             | _ => True
             end;
  wo_tasks : Forall (λ p, remote p) (wk_tasks w)
}.

Lemma walk_overlay c p : walk_client_ok c → is_overlay c p = local_path ov p.
Proof. intros [<- _]. unfold is_overlay. by destruct (cl_overlay c). Qed.

Lemma ask_ok rq c : walk_client_ok c → clean ov rq → walk_client_ok (ask rq c).2.
Proof.
  intros [Ho Hn] Hrq. unfold ask. destruct (net_request_safe (net_conn (cl_net c)) rq _ Hn Hrq) as [H _].
  by destruct (net_request _ _ _).
Qed.

Lemma clean_path rq p : rq_paths rq = [p] → remote p → clean ov rq.
Proof. intros E H. unfold clean. rw E. by repeat constructor. Qed.

Lemma fetch_file_ok path c b c' : walk_client_ok c → remote path → fetch_file fuel path c = Some (b, c') → walk_client_ok c'.
Proof.
  intros Hc Hp. unfold fetch_file. pose proof (ask_ok (RqOpen path (mkOpenFlags true false false false false)) c Hc
    ltac:(by apply (clean_path _ path))) as H1.
  destruct (ask _ c) as [r c1]. cbn [snd] in H1.
  destruct r as [[[]|]|]; try (by intros [= _ <-]). destruct (cl_cache c1); [|by intros [= _ <-]].
  destruct (fetch_one _ _ _ _ _) as [[ok k]|]; [|done]. intros [= _ <-]. apply ask_ok; [exact H1|constructor].
Qed.

Lemma examine_remote c dir e child : walk_client_ok c → examine c dir e = Descend child ∨ examine c dir e = Fetch child → remote child.
Proof.
  intros Hc H. unfold examine in H. rw walk_overlay // in H. destruct (local_path ov _) eqn:E; [by destruct H|].
  destruct H as [H|H]; repeat (case_match; simplify_eq; try done).
Qed.

Lemma walk_ok_step s w w' : walk_ok w → wstep fuel s w = Some w' → walk_ok w'.
Proof.
  intros [Hc Hp Ht] [ ]%wstep_Stepped;
    try (match goal with H : wk_phase w = _ |- _ => rw H in Hp end); split; cbn; try done.
  - destruct Hp as [[Hd Hq]%Forall_cons _]. by split.
  - apply ask_ok; [done|]. eapply clean_path; [done|]. by destruct Hp.
  - apply ask_ok; [done|]. eapply clean_path; [done|]. by destruct Hp.
  - by destruct Hp.
  - destruct Hp as [Hq Hd]. split; [done|]. by destruct next.
  - destruct Hp as [Hq Hd]. split; [|done]. apply Forall_app_2; [done|]. repeat constructor. eapply examine_remote; [done|by left].
  - apply Forall_app_2; [done|]. repeat constructor. eapply examine_remote; [done|by right].
  - by rw H.
  - apply Forall_app_2; [done|]. repeat constructor. by rw -(walk_overlay (wk_client w)).
  - eapply fetch_file_ok; [done| |done]. by eapply Forall_lookup_1 in Ht.
  - by apply Forall_delete.
Qed.

Lemma walk_ok_run steps c log w : walk_client_ok c → remote "" → run_walk fuel steps (walk_start c) = Some (log, w) → walk_ok w.
Proof.
  intros Hc Hr. apply (run_walk_inv fuel walk_ok); [apply walk_ok_step|]. split; [done| |by constructor].
  split; [by repeat constructor|done].
Qed.
End Remote.

(** In every run of the walker no request names an overlay path: directories
    and files that live on this machine are neither listed nor fetched. *)
Theorem walker_stays_remote {N} (NET : Net N) ov fuel steps (c : Client (Logged N)) log w :
  (∀ conn rq n, small_handle (net_request (Net := NET) conn rq n).1) →
  ov_matcher <$> cl_overlay c = ov → Forall (clean ov) (lg_log (cl_net c)) → local_path ov "" = false →
  run_walk fuel steps (walk_start c) = Some (log, w) → Forall (clean ov) (lg_log (cl_net (wk_client w))).
Proof.
  intros Hs Ho Hl Hr Hrun. pose proof (logged_safe NET ov Hs) as NS.
  by destruct (wo_client (NI := all_clean ov) _ (walk_ok_run (NI := all_clean ov) fuel steps c log w (conj Ho Hl) Hr Hrun)) as [_ H].
Qed.

(** ** Over a tree that stands still, the walk sees every file *)

Section Complete.
Context {N : Type} {NET : Net N} (fuel : nat) (ov : option (RelPath → bool)).
#[local] Abbreviation C := (Client N).
#[local] Abbreviation WalkState := (WalkState N).

(** The server's listings: a page of entries and the cursor of the next one. *)
Context (pages : RelPath → Z → option (list DirEntry * option Z)).
(** A bound on what is left of a directory from a cursor on: the tree and its
    pages are finite. *)
Context (cost : RelPath → Z → nat).
Context (I : N → Prop).

Definition child (dir : RelPath) (e : DirEntry) : RelPath := RelPath.join dir (de_name e).
Definition descends (dir : RelPath) (e : DirEntry) : bool :=
  negb (local_path ov (child dir e)) && bool_decide (a_kind (de_attr e) = KDir).
Definition is_file (dir : RelPath) (e : DirEntry) : bool :=
  negb (local_path ov (child dir e)) && bool_decide (a_kind (de_attr e) = KFile).

(** A file of the tree below a directory, from a cursor on. *)
Inductive Under : RelPath → Z → RelPath → Attr → Prop :=
| under_file dir cursor es next e : pages dir cursor = Some (es, next) → e ∈ es → is_file dir e = true →
    Under dir cursor (child dir e) (de_attr e)
| under_dir dir cursor es next e f a : pages dir cursor = Some (es, next) → e ∈ es → descends dir e = true →
    Under (child dir e) 0 f a → Under dir cursor f a
| under_next dir cursor es next f a : pages dir cursor = Some (es, Some next) → Under dir next f a → Under dir cursor f a.

Definition entry_cost (dir : RelPath) (e : DirEntry) : nat := (1 + (if descends dir e then 2 + cost (child dir e) 0%Z else 0))%nat.
Definition page_cost (dir : RelPath) (es : list DirEntry) (next : option Z) : nat :=
  (2 + sum_list_with (entry_cost dir) es + match next with Some cursor => cost dir cursor | None => 0 end)%nat.

Definition asks (rq : Request) : bool := match rq with RqReaddir _ _ | RqOpen _ _ | RqRelease _ => true | _ => false end.

Hypothesis stands_still : ∀ conn rq n, I n → asks rq = true → I (net_request conn rq n).2.
Hypothesis lists : ∀ conn dir cursor n, I n →
  match (net_request conn (RqReaddir dir cursor) n).1 with
  | Ok (Ok (RsDir es next)) => pages dir cursor = Some (es, next)
  | _ => pages dir cursor = None
  end.
Hypothesis small_files : ∀ conn path flags n fh a, I n → (net_request conn (RqOpen path flags) n).1 = Ok (Ok (RsOpened fh a)) →
  0 ≤ a_size a < 2^32 ∧ a_size a ≤ Z.of_nat fuel.
Hypothesis finite : ∀ dir cursor es next, pages dir cursor = Some (es, next) → (page_cost dir es next < cost dir cursor)%nat.

Definition still (c : C) : Prop := ov_matcher <$> cl_overlay c = ov ∧ I (cl_net c).

Lemma still_overlay c p : still c → is_overlay c p = local_path ov p.
Proof. intros [<- _]. unfold is_overlay. by destruct (cl_overlay c). Qed.

Lemma still_ask rq c : still c → asks rq = true → still (ask rq c).2.
Proof using stands_still.
  intros [Ho Hn] Hrq. unfold ask. pose proof (stands_still (net_conn (cl_net c)) rq _ Hn Hrq) as H.
  by destruct (net_request _ _ _).
Qed.

Lemma still_fetch path c : still c → ∃ b c', fetch_file fuel path c = Some (b, c') ∧ still c'.
Proof using stands_still small_files.
  intros Hc. unfold fetch_file. set (rq := RqOpen _ _). pose proof (still_ask rq c Hc eq_refl) as H1.
  assert (∀ fh a, (ask rq c).1 = Ok (Ok (RsOpened fh a)) → 0 ≤ a_size a < 2^32 ∧ a_size a ≤ Z.of_nat fuel) as Hs.
  { intros fh a. unfold ask. pose proof (small_files (net_conn (cl_net c)) path (mkOpenFlags true false false false false) (cl_net c) fh a (proj2 Hc)) as H.
    fold rq in H. by destruct (net_request _ _ _). }
  destruct (ask rq c) as [r c1]. cbn [fst snd] in *. destruct r as [[[]|]|]; try (by eauto).
  destruct (cl_cache c1) as [k|]; [|by eauto]. destruct (Hs fh attr eq_refl) as [Hs1 Hs2].
  assert (∃ b k', fetch_one fuel (λ off len, match (net_request (net_conn (cl_net c1)) (RqRead fh off len) (cl_net c1)).1 with
     | Ok (Ok (RsData d)) => Some d | _ => None end) k path attr = Some (b, k')) as (b & k' & ->).
  { unfold fetch_one. destruct (_ || _); [by eauto|]. destruct (fetch_windows_tiles fuel (a_size attr) 0) as (ws & -> & _); [lia..|].
    destruct (mapM _ _); [|by eauto]. destruct (negb _); by eauto. }
  eexists _, _. split; [done|]. apply still_ask; [exact H1|done].
Qed.

Lemma still_step w w' : still (wk_client w) → Stepped fuel w w' → still (wk_client w').
Proof using stands_still small_files.
  intros Hc [ ]; cbn; try done; try (by apply still_ask).
  destruct (still_fetch path _ Hc) as (b' & c' & E & Hc'). congruence.
Qed.
(** *** It ends *)

Definition dir_cost (dir : option (RelPath * PagePos)) : nat :=
  match dir with
  | None => 0
  | Some (d, AtCursor cursor) => 1 + cost d cursor
  | Some (d, InPage es next) => page_cost d es next
  end%nat.

Definition work (w : WalkState) : nat :=
  (length (wk_tasks w) +
   match wk_phase w with
   | Walking queue dir => 2 * (2 + sum_list_with (λ d, 2 + cost d 0%Z) queue + dir_cost dir)
   | Joining => 2
   | Serving => 0
   end)%nat.

Lemma examine_descends c dir e child' : still c → examine c dir e = Descend child' → descends dir e = true ∧ child' = child dir e.
Proof.
  intros Hc. unfold examine, descends, child. rw (still_overlay c) //. destruct (local_path ov _); [done|].
  destruct (a_kind _) eqn:Hk; try done; [|by intros [= <-]]. repeat (case_match; try done).
Qed.

Lemma examine_dir c dir e : still c → descends dir e = true → examine c dir e = Descend (child dir e).
Proof.
  intros Hc. unfold examine, descends, child. rw (still_overlay c) //. destruct (local_path ov _); [done|].
  cbn [negb andb]. intros Hd%bool_decide_eq_true. by rw Hd.
Qed.

Lemma page_of c dir cursor : still c →
  match (ask (RqReaddir dir cursor) c).1 with
  | Ok (Ok (RsDir es next)) => pages dir cursor = Some (es, next)
  | _ => pages dir cursor = None
  end.
Proof using lists.
  intros [_ Hn]. pose proof (lists (net_conn (cl_net c)) dir cursor _ Hn) as H. unfold ask. by destruct (net_request _ _ _).
Qed.

Lemma page_cost_cons dir e es next : page_cost dir (e :: es) next = (entry_cost dir e + page_cost dir es next)%nat.
Proof. unfold page_cost. cbn [sum_list_with]. lia. Qed.
Lemma entry_cost_pos dir e : (1 ≤ entry_cost dir e)%nat.
Proof. unfold entry_cost. lia. Qed.

Lemma work_decreases w w' : still (wk_client w) → wk_phase w ≠ Serving → Stepped fuel w w' → (work w' < work w)%nat.
Proof using lists finite.
  intros Hc Hns [ ]; unfold work, at_phase; cbn [wk_tasks wk_phase]; try (match goal with H : wk_phase w = _ |- _ => rw H end); try done;
    cbn [dir_cost sum_list_with]; try lia.
  - pose proof (page_of (wk_client w) dir cursor Hc) as Hp. rw H0 in Hp. apply finite in Hp. lia.
  - unfold page_cost. destruct next; cbn; lia.
  - rw page_cost_cons. pose proof (entry_cost_pos dir e). lia.
  - destruct (examine_descends _ _ _ _ Hc H0) as [Hd ->]. rw page_cost_cons sum_list_with_app. cbn [sum_list_with]. unfold entry_cost. rw Hd. lia.
  - rw length_app page_cost_cons. pose proof (entry_cost_pos dir e). simpl. lia.
  - rw H0. simpl. lia.
  - apply lookup_lt_Some in H as H2. pose proof (length_delete (wk_tasks w) i ltac:(by eexists)). lia.
Qed.

Lemma serving_stays w w' : wk_phase w = Serving → Stepped fuel w w' → wk_phase w' = Serving.
Proof. intros Hs [ ]; cbn; congruence. Qed.

Lemma walk_bound steps w log w' : still (wk_client w) → run_walk fuel steps w = Some (log, w') → wk_phase w' ≠ Serving →
  (length steps + work w' ≤ work w)%nat.
Proof using lists finite stands_still small_files.
  revert w log. induction steps as [|s steps IH]; intros w log Hc; cbn [run_walk]; [by intros [= _ <-]|].
  destruct (wstep fuel s w) as [w1|] eqn:E; [|done]. destruct (run_walk fuel steps w1) as [[log1 w2]|] eqn:E2; [|done].
  intros [= _ <-] Hns. apply wstep_Stepped in E. pose proof (still_step _ _ Hc E) as Hc1. specialize (IH _ _ Hc1 E2 Hns).
  assert (wk_phase w ≠ Serving) as Hs.
  { intros Hs. apply Hns. pose proof (serving_stays _ _ Hs E) as Hs1.
    eapply (run_walk_inv fuel (λ w, wk_phase w = Serving)); [|exact Hs1|exact E2].
    intros s' wa wb Ha Hb%wstep_Stepped. by eapply serving_stays. }
  pose proof (work_decreases _ _ Hc Hs E). simpl. lia.
Qed.

(** *** It does not get stuck *)

Lemma advance_enabled w : wk_phase w ≠ Serving → wk_tasks w = [] → is_Some (advance w).
Proof.
  intros Hs Ht. unfold advance. cbv zeta. destruct (wk_phase w) as [queue [[dir [cursor|[|e es] next]]|]| |]; try done.
  - by destruct (ask _ _).
  - destruct (examine _ _ _); try done. unfold spawn, at_phase. cbn. rw Ht. by rw bool_decide_true; [|simpl; unfold FILE_CONCURRENCY; lia].
  - by destruct queue.
  - rw Ht. done.
Qed.

Lemma walk_progress w : still (wk_client w) → wk_phase w ≠ Serving → ∃ s, is_Some (wstep fuel s w).
Proof using stands_still small_files.
  intros Hc Hs. destruct (wk_tasks w) as [|path tasks] eqn:Ht; [exists Advance; by apply advance_enabled|].
  exists (Finish 0). cbn. rw Ht. cbn. destruct (still_fetch path _ Hc) as (b & c' & -> & _). by eexists.
Qed.

(** *** It sees every file *)

(** A file that the walk has still to look at. *)
Definition in_page (dir : RelPath) (es : list DirEntry) (next : option Z) (f : RelPath) (a : Attr) : Prop :=
  (∃ e, e ∈ es ∧ is_file dir e = true ∧ f = child dir e ∧ a = de_attr e) ∨
  (∃ e, e ∈ es ∧ descends dir e = true ∧ Under (child dir e) 0 f a) ∨
  (∃ cursor, next = Some cursor ∧ Under dir cursor f a).

Definition pending (w : WalkState) (f : RelPath) (a : Attr) : Prop :=
  match wk_phase w with
  | Walking queue dir =>
      (∃ d, d ∈ queue ∧ Under d 0 f a) ∨
      match dir with
      | None => False
      | Some (d, AtCursor cursor) => Under d cursor f a
      | Some (d, InPage es next) => in_page d es next f a
      end
  | _ => False
  end.

Lemma Under_page dir cursor es next f a : pages dir cursor = Some (es, next) → Under dir cursor f a → in_page dir es next f a.
Proof.
  intros Hp H. inversion H; simplify_eq; [left|right; left|right; right]; eauto 10.
Qed.
Lemma Under_pages dir cursor f a : Under dir cursor f a → is_Some (pages dir cursor).
Proof. intros [ ]; eauto. Qed.

Lemma in_page_cons dir e es next f a : in_page dir (e :: es) next f a →
  (is_file dir e = true ∧ f = child dir e ∧ a = de_attr e) ∨ (descends dir e = true ∧ Under (child dir e) 0 f a) ∨ in_page dir es next f a.
Proof.
  intros [(x & [->|Hx]%elem_of_cons & H)|[(x & [->|Hx]%elem_of_cons & H)|H]]; [by left|right; right; left|by right; left|right; right; right; left|right; right; right; right]; eauto.
Qed.
Lemma pending_step w w' f a : still (wk_client w) → pending w f a → Stepped fuel w w' →
  (f, a) ∈ looks_at Advance w ∨ pending w' f a.
Proof using lists.
  intros Hc Hp [ ]; unfold pending, looks_at, at_phase, at_client in *; cbn [wk_phase] in *;
    try (match goal with H : wk_phase w = _ |- _ => rw H in Hp |- * end); try done.
  - destruct Hp as [(d & []%not_elem_of_nil & _)|[]].
  - right. destruct Hp as [(d & [->|Hd]%elem_of_cons & Hu)|[]]; [by right|left; eauto].
  - right. destruct Hp as [Hq|Hu]; [by left|right]. pose proof (page_of (wk_client w) dir cursor Hc) as Hp. rw H0 in Hp.
    by eapply Under_page.
  - right. destruct Hp as [Hq|Hu]; [by left|]. pose proof (page_of (wk_client w) dir cursor Hc) as Hp. apply Under_pages in Hu as [x Hx].
    destruct (ask _ _).1 as [[[]|]|]; try congruence. by destruct (H0 entries next_cursor).
  - right. destruct Hp as [Hq|[(e & []%not_elem_of_nil & _)|[(e & []%not_elem_of_nil & _)|(k & -> & Hu)]]]; [by left|by right].
  - destruct Hp as [Hq|[(Hf & -> & ->)|[[Hd Hu]|Hp]]%in_page_cons]; [by right; left| | |by right; right].
    + left. unfold is_file, child in *. rw (still_overlay (wk_client w)) // Hf. by left.
    + exfalso. by rw (examine_dir _ _ _ Hc Hd) in H0.
  - destruct (examine_descends _ _ _ _ Hc H0) as [Hd ->].
    destruct Hp as [(d & Hq & Hu)|[(Hf & -> & ->)|[[_ Hu]|Hp]]%in_page_cons]; [right; left|exfalso|right; left|by right; right].
    + exists d. split; [|done]. apply elem_of_app. by left.
    + unfold is_file, descends in *. destruct (local_path ov _); [done|]. apply bool_decide_eq_true in Hd. by rw Hd in Hf.
    + exists (child dir e). split; [|done]. apply elem_of_app. right. by left.
  - destruct Hp as [Hq|[(Hf & -> & ->)|[[Hd Hu]|Hp]]%in_page_cons]; [by right; left| | |by right; right].
    + left. unfold is_file, child in *. rw (still_overlay (wk_client w)) // Hf. by left.
    + exfalso. by rw (examine_dir _ _ _ Hc Hd) in H0.
  - by right.
Qed.
Lemma seen_or_pending steps w log w' f a : still (wk_client w) → pending w f a → run_walk fuel steps w = Some (log, w') →
  (f, a) ∈ log ∨ pending w' f a.
Proof using lists stands_still small_files.
  revert w log. induction steps as [|s steps IH]; intros w log Hc Hp; cbn [run_walk]; [intros [= <- <-]; by right|].
  destruct (wstep fuel s w) as [w1|] eqn:E; [|done]. destruct (run_walk fuel steps w1) as [[log1 w2]|] eqn:E2; [|done].
  intros [= <- <-]. pose proof (wstep_Stepped _ _ _ _ E) as Hs. pose proof (still_step _ _ Hc Hs) as Hc1.
  assert ((f, a) ∈ looks_at s w ∨ pending w1 f a) as [H|H].
  { destruct s as [|i]; [by apply pending_step|right]. cbn in E. destruct (wk_tasks w !! i); [|done].
    destruct (fetch_file _ _ _) as [[]|]; [|done]. by injection E as <-. }
  - left. apply elem_of_app. by left.
  - destruct (IH _ _ Hc1 H E2); [left; apply elem_of_app; by right|by right].
Qed.

(** C40.  The cache walker does its work.  Over a directory tree that stands
    still, with files below 4 GiB, and whatever order the fetches finish in:
    until the walk and its fetches are done some step is always possible, and
    there are at most as many steps as the tree has room for; never more than
    four fetches run; and when the walk is over, every file of the tree outside
    the overlay has been looked at. *)
Theorem walk_complete steps c log w : still c → run_walk fuel steps (walk_start c) = Some (log, w) →
  (length (wk_tasks w) ≤ FILE_CONCURRENCY)%nat ∧
  (wk_phase w ≠ Serving → (length steps ≤ 2 * (4 + cost "" 0%Z))%nat ∧ ∃ s, is_Some (wstep fuel s w)) ∧
  ((∀ queue dir, wk_phase w ≠ Walking queue dir) → ∀ f a, Under "" 0 f a → (f, a) ∈ log).
Proof using lists finite stands_still small_files.
  intros Hc Hrun. assert (still (wk_client w)) as Hw.
  { apply (run_walk_inv fuel (λ w, still (wk_client w)) steps (walk_start c) log w); [|exact Hc|exact Hrun]. intros s w1 w2 H1 H2%wstep_Stepped. by eapply still_step. }
  split_and!.
  - by eapply fetches_bounded.
  - intros Hs. split; [|by apply walk_progress]. pose proof (walk_bound steps (walk_start c) log w Hc Hrun Hs) as H.
    unfold work, walk_start in H. cbn in H. lia.
  - intros Hdone f a Hu. destruct (seen_or_pending steps (walk_start c) log w f a Hc) as [H|H]; [|done|done|].
    + left. exists "". split; [by left|done].
    + unfold pending in H. destruct (wk_phase w) as [q d| |]; [by destruct (Hdone q d)|done..].
Qed.
End Complete.

(** ** A small export *)

Module Tree.
(** "a", "sub/b" on two pages, and an overlay directory. *)
Definition attr (k : FileKind) : Attr := mkAttr k 3 9 9 420 4.
Definition pages (dir : RelPath) (cursor : Z) : option (list DirEntry * option Z) :=
  if bool_decide (dir = "") then
    if bool_decide (cursor = 0) then Some ([mkDirEntry "a" (attr KFile); mkDirEntry "node_modules" (attr KDir)], Some 2)
    else if bool_decide (cursor = 2) then Some ([mkDirEntry "sub" (attr KDir)], None) else None
  else if bool_decide (dir = "sub") && bool_decide (cursor = 0) then Some ([mkDirEntry "b" (attr KFile)], None) else None.
Definition cost (dir : RelPath) (cursor : Z) : nat :=
  (if bool_decide (dir = "sub") then 4
   else if bool_decide (dir = "") then if bool_decide (cursor = 0%Z) then 15 else 10 else 0)%nat.
Definition answer (rq : Request) : Reply :=
  match rq with
  | RqReaddir dir cursor => match pages dir cursor with Some (es, next) => Ok (Ok (RsDir es next)) | None => Ok (Err NotFound) end
  | RqOpen _ _ => Ok (Ok (RsOpened 7 (attr KFile)))
  | RqRead _ off len => Ok (Ok (RsData (slice [1; 2; 3] (Z.to_nat off) (Z.to_nat len))))
  | _ => Ok (Ok RsOk)
  end.
#[global] Instance net : Net unit := {
  net_now _ := 0; net_conn _ := mkConn 1 4; net_swap _ n := n; net_closed _ _ := false;
  net_request _ rq n := (answer rq, n); net_keepalive _ rq n := (Some (answer rq), n)
}.
Definition client : Client unit := set_cache (Some sample_cache) [] (Fixed.client tt ∅ None).
(** The walk, one fetch finishing as late as it can. *)
Definition schedule : list WalkStep := replicate 13 Advance ++ [Finish 1; Finish 0; Advance].
End Tree.

(** That walk fetches both files; the overlay directory is not looked into. *)
Example tree_walk :
  (λ r, (r.1.*1, wk_phase r.2, wk_tasks r.2, (λ k, disk k !! ["c"; "sub"; "b"]) <$> cl_cache (wk_client r.2)))
    <$> run_walk 3 Tree.schedule (walk_start Tree.client) =
  Some (["a"; "sub/b"], Serving, [], Some (Some [1; 2; 3])).
Proof. vm_compute. reflexivity. Qed.

Lemma walk_complete_witness :
  ∃ log w, run_walk 3 Tree.schedule (walk_start Tree.client) = Some (log, w) ∧ ("sub/b", Tree.attr KFile) ∈ log.
Proof.
  eexists _, _. split; [vm_compute; reflexivity|]. eapply (walk_complete 3 (Some Fixed.excluded) Tree.pages Tree.cost (λ _, True))
    with (steps := Tree.schedule) (c := Tree.client).
  - done.
  - intros conn dir cursor n _. cbn. by destruct (Tree.pages dir cursor) as [[es next]|].
  - intros conn path flags n fh a _ [= _ <-]. by vm_compute.
  - intros dir cursor es next. unfold Tree.pages, Tree.cost. repeat (case_bool_decide; simplify_eq/=; try done);
      intros [= <- <-]; vm_compute; lia.
  - by split.
  - vm_compute. reflexivity.
  - done.
  - eapply (under_next _ _ _ 0 _ 2); [reflexivity|]. eapply (under_dir _ _ _ 2 _ None (mkDirEntry "sub" (Tree.attr KDir))); [reflexivity|by left|reflexivity|].
    by eapply (under_file _ _ "sub" 0 _ None (mkDirEntry "b" (Tree.attr KFile))); [reflexivity|left|].
Defined.

(** ** Files of 4 GiB *)

Module Big.
Definition attr : Attr := mkAttr KFile (2^32) 9 9 420 4.
Definition answer (rq : Request) : Reply :=
  match rq with
  | RqReaddir _ _ => Ok (Ok (RsDir ((λ name, mkDirEntry name attr) <$> ["a"; "b"; "c"; "d"; "e"]) None))
  | RqOpen _ _ => Ok (Ok (RsOpened 7 attr))
  | RqRead _ _ len => Ok (Ok (RsData (replicate (Z.to_nat len) 0)))
  | _ => Ok (Ok RsOk)
  end.
#[global] Instance net : Net unit := {
  net_now _ := 0; net_conn _ := mkConn 1 4; net_swap _ n := n; net_closed _ _ := false;
  net_request _ rq n := (answer rq, n); net_keepalive _ rq n := (Some (answer rq), n)
}.
(** Everything is pinned. *)
Definition client : Client unit :=
  set_cache (Some (mkAutoCache 0 (2^40) (λ _, true) ["c"] ∅ 0 0 false ∅)) [] (Fixed.client tt ∅ None).
End Big.

(** Four pinned files of 4 GiB take the four permits and never give them back:
    the walk stands still at the fifth file, and nothing is cached or fetched
    again for as long as the mount lives. *)
Theorem big_files_stall_walker fuel :
  match run_walk (NET := Big.net) fuel (replicate 6 Advance) (walk_start Big.client) with
  | Some (log, w) => wk_tasks w = ["a"; "b"; "c"; "d"] ∧ ∀ s, wstep (NET := Big.net) fuel s w = None
  | None => False
  end.
Proof.
  assert (∀ path c, cl_cache c = cl_cache Big.client → fetch_file (NET := Big.net) fuel path c = None) as Hf.
  { intros path c Hc. unfold fetch_file, ask. cbn. rw Hc. cbn. unfold fetch_one. cbn.
    by rw (fetch_of_large_file_never_ends fuel (2^32)). }
  vm_compute run_walk. split; [done|]. intros [|i]; [reflexivity|].
  unfold wstep. cbn [wk_tasks wk_client]. destruct (_ !! i); [|done]. by rw Hf.
Qed.
