(* ===== verification/EndToEnd.v ===== *)
(** * EndToEnd: the client and the server together

    The client of RemoteFs with the server of Agent behind its network: a
    connection is a session, a request is served by the session's handler.
    The theorems follow bytes and names from one end to the other: what the
    mount reads is what the server's file holds, what it writes is what the
    file then holds, a listing is complete, a conflicting write is refused
    before anything changes -- and what reconnecting does to open files and
    their locks. *)

From S2P Require Import Prelude Messages Common Exclude Locks EventHub Inode ReadAhead AutoCache Fs Agent AgentFacts Transport Overlay Symlink RemoteFs RemoteFacts.

Section EndToEnd.
Context {Glob GlobSet : Type} `{G : Globs Glob GlobSet}.
#[local] Abbreviation W := (World (GlobSet := GlobSet)).

(** ** The server as a network *)

Record AgentNet : Type := mkAgentNet { an_world : W; an_conn : Conn; an_now : Z }.

Definition set_world (w : W) (n : AgentNet) : AgentNet := mkAgentNet w (an_conn n) (an_now n).

(** What the connection resolves a request to: a handler that has not returned
    runs into the request's timeout. *)
Definition reply_of (r : result Response Stop) : Reply :=
  match r with
  | Ok resp => Ok (Ok resp)
  | Err (Fail e) => Ok (Err e)
  | Err Pending => Err TTimeout
  end.

(** The sessions of an agent in environment [senv], as connections. *)
Definition agent_net (senv : Env) : Net AgentNet := {|
  net_now n := an_now n;
  net_conn n := an_conn n;
  net_swap conn n := mkAgentNet (an_world n) conn (an_now n);
  net_closed _ _ := false;
  net_request conn rq n :=
    let '(r, w) := handle senv (conn_id conn) rq (an_world n) in (reply_of r, set_world w n);
  net_keepalive conn rq n :=
    let '(r, w) := handle senv (conn_id conn) rq (an_world n) in
    (match r with Err Pending => None | _ => Some (reply_of r) end, set_world w n)
|}.

Context (senv : Env).
#[local] Instance the_net : Net AgentNet := agent_net senv.
#[local] Abbreviation C := (Client AgentNet).

Definition world_of (c : C) : W := an_world (cl_net c).
Definition session_of (c : C) : Z := conn_id (an_conn (cl_net c)).
Definition set_cworld (w : W) (c : C) : C := set_net (set_world w (cl_net c)) c.

(** A request over the current connection is its handler's answer. *)
Lemma call_agent rq c :
  call rq c = let '(r, w) := handle senv (session_of c) rq (world_of c) in (flat (reply_of r), set_cworld w c).
Proof.
  unfold call. cbn [net_conn net_request the_net agent_net]. unfold session_of, world_of.
  destruct (handle senv _ rq _) as [[resp|[e|]] w]; done.
Qed.

(** ** Writing *)

(** Session [id] can write the file [f], which holds [bs], through [sfh]. *)
Record writer (id sfh : Z) (f : OpenFile) (x : Export) (bs : list Z) (w : W) : Prop := {
  wr_export : attached_to id x w;
  wr_authed : authed id w;
  wr_rw : x_read_only x = false;
  wr_holds : holds id sfh f w;
  wr_writable : of_writable f = true;
  wr_content : content_at (w_fs w) (of_file f) = Some (FileData bs)
}.

(** The kernel below the server makes progress on every transfer of a chunk. *)
Definition serves_chunks : Prop :=
  Forall progresses (answers senv) ∧ (Z.to_nat DATA_CHUNK + 1 ≤ gives (answers senv))%nat.

Lemma session_kept id (w w' : W) : w_sessions w' = w_sessions (touched senv id w) →
  (authed id w → authed id w') ∧ ∀ fh f, holds id fh f w → holds id fh f w'.
Proof.
  intros Hs. split.
  - intros (s & H1 & H2). exists (upd_last_seen (now senv) s). rw Hs. simpl. by rw lookup_alter_eq H1.
  - intros fh f (s & H1 & H2). exists (upd_last_seen (now senv) s). rw Hs. simpl. by rw lookup_alter_eq H1.
Qed.

(** One chunk. *)
Lemma chunk_written c sfh f x bs off data expect :
  serves_chunks → writer (session_of c) sfh f x bs (world_of c) →
  (length data ≤ Z.to_nat DATA_CHUNK)%nat → conflicts x f expect = false →
  ∃ w' x' v, call (RqWrite sfh off data expect) c = (Ok (RsWritten (blen data) v false), set_cworld w' c) ∧
    writer (session_of c) sfh f x' (splice bs (Z.to_nat off) data) w' ∧
    version_of (x_versions x') (of_path f) = v ∧
    ∀ i, i ≠ of_file f → nodes (w_fs w') !! i = nodes (w_fs (world_of c)) !! i.
Proof.
  intros [Hp Hg] [H1 H2 H3 H4 H5 H6] Hlen Hcf.
  destruct (write_step senv (session_of c) (world_of c) x sfh f off data expect bs) as (w' & x' & Hh & Hc & Ho & Hx & Hro & Hv & Hs); try done; [lia|].
  destruct (session_kept _ _ _ Hs) as [Ha' Hh'].
  exists w', x', (u64_add (vclock (x_versions x)) 1). rw call_agent Hh. cbn [reply_of flat].
  rw as_u32_small; [|unfold blen; pose proof DATA_CHUNK_pos; unfold DATA_CHUNK in *; ints].
  split; [done|]. split; [split; auto|]. done.
Qed.

#[local] Opaque DATA_CHUNK.

Lemma set_cworld_same c : set_cworld (world_of c) c = c.
Proof. by destruct c as [? ? ? ? ? ? ? ? ? ? ? ? ? ? []]. Qed.

Lemma set_version_same fh s (c : C) : cl_open c !! fh = Some s → upd_open fh (os_set_version (os_version s)) c = c.
Proof.
  intros Hs. unfold upd_open, set_open. destruct c as [i r a o d k q op e dl ep ls dt mr n]. simpl in *. f_equal.
  apply map_eq. intros fh'. destruct (decide (fh = fh')) as [<-|]; [|by rw lookup_alter_ne].
  rw lookup_alter_eq Hs. by destruct s.
Qed.

Lemma upd_version_twice fh v1 v2 w1 w2 (c : C) :
  set_cworld w2 (upd_open fh (os_set_version v2) (upd_open fh (os_set_version v1) (set_cworld w1 c)))
  = set_cworld w2 (upd_open fh (os_set_version v2) c).
Proof.
  unfold set_cworld, upd_open, set_open, set_net. simpl. f_equal. apply map_eq. intros fh'.
  destruct (decide (fh = fh')) as [<-|]; [|by rw !lookup_alter_ne]. rw !lookup_alter_eq. by destruct (cl_open c !! fh).
Qed.

(** The loop: what is left of the data reaches the file, and the handle knows
    the version it left behind. *)
Lemma write_loop_exact fuel fh sfh f offset data expect : ∀ pos c s x bs,
  serves_chunks → 0 ≤ offset → offset + blen data ≤ U64_MAX →
  cl_open c !! fh = Some s → writer (session_of c) sfh f x bs (world_of c) → conflicts x f expect = false →
  (length data ≤ pos + fuel * Z.to_nat DATA_CHUNK)%nat → (pos ≤ length data)%nat →
  ∃ w' x' v,
    write_loop fuel fh sfh offset data pos expect c = (Ok tt, set_cworld w' (upd_open fh (os_set_version v) c)) ∧
    writer (session_of c) sfh f x' (splice bs (Z.to_nat offset + pos) (drop pos data)) w' ∧
    v = (if bool_decide (pos < length data)%nat then version_of (x_versions x') (of_path f) else os_version s) ∧
    (pos = length data → x' = x) ∧
    ∀ i, i ≠ of_file f → nodes (w_fs w') !! i = nodes (w_fs (world_of c)) !! i.
Proof.
  pose proof DATA_CHUNK_pos as HD. revert expect.
  induction fuel as [|fuel IH]; intros expect pos c s x bs Hsc Ho Hmax Hs Hw Hcf Hfuel Hpos; cbn [write_loop].
  all: destruct (decide (length data ≤ pos)%nat) as [Hend|Hmore]; [rw bool_decide_true //|rw bool_decide_false //].
  1, 3: exists (world_of c), x, (os_version s); assert (pos = length data) as -> by lia;
    rw drop_all set_version_same // set_cworld_same; rw bool_decide_false; [|lia]; by split_and!.
  { lia. }
  set (chunk := slice data pos (Z.to_nat DATA_CHUNK)).
  assert (length chunk = Nat.min (Z.to_nat DATA_CHUNK) (length data - pos)) as Hl by apply slice_length.
  destruct (chunk_written c sfh f x bs (u64_add offset (Z.of_nat pos)) chunk expect) as (w1 & x1 & v1 & Hcall & Hw1 & Hv1 & Ho1); try done; [lia|].
  rw (sbind_eq _ _ _ _ _ Hcall). change (sbind (smod ?g) ?k ?c0) with (k tt (g c0)). cbv beta.
  rw bool_decide_false; [|unfold blen; lia].
  set (c1 := upd_open fh (os_set_version v1) (set_cworld w1 c)).
  assert (cl_open c1 !! fh = Some (os_set_version v1 s)) as Hs1 by (unfold c1; simpl; by rw lookup_alter_eq Hs).
  assert (Z.to_nat (blen chunk) = length chunk) as Hn by (unfold blen; lia). rw Hn.
  destruct (IH (match expect with Some _ => Some v1 | None => None end) (pos + length chunk)%nat c1 (os_set_version v1 s) x1
    (splice bs (Z.to_nat (u64_add offset (Z.of_nat pos))) chunk)) as (w2 & x2 & v2 & Hr & Hw2 & Hv2 & Hx2 & Ho2); try done.
  { destruct expect; [|done]. unfold conflicts. by rw Hv1 bool_decide_true. }
  { lia. }
  { lia. }
  assert (Z.to_nat (u64_add offset (Z.of_nat pos)) = Z.to_nat offset + pos)%nat as Hoff.
  { rw u64_add_small; unfold blen in *; lia. }
  assert (chunk = take (length chunk) (drop pos data)) as Hck.
  { rw Hl. unfold chunk, slice. destruct (decide (Z.to_nat DATA_CHUNK ≤ length data - pos)%nat); [f_equal; lia|].
    rw !take_ge //; rw length_drop; lia. }
  exists w2, x2, v2. split_and!.
  - rw Hr. f_equal. unfold c1. by rw upd_version_twice.
  - rw Hoff Nat.add_assoc splice_app in Hw2.
    rw -{1}(take_drop (length chunk) (drop pos data)) drop_drop. rw -Hck. exact Hw2.
  - rw (bool_decide_true (pos < length data)%nat); [|lia]. rw Hv2. case_bool_decide; [done|]. rw Hx2; [done|lia].
  - lia.
  - intros i Hi. by rw Ho2 // Ho1.
Qed.

(** The version a write of this handle insists on. *)
Definition expected (c : C) (s : OpenState) : option Z :=
  if cl_detect c then if bool_decide (os_version s = 0) then None else Some (os_version s) else None.

Lemma write_conflicting cenv fuel fh offset data (c : C) s f x bs :
  overlay_fh fh = false → cl_open c !! fh = Some s → os_poisoned s = false →
  writer (session_of c) (os_server_fh s) f x bs (world_of c) → data ≠ [] → (0 < fuel)%nat →
  conflicts x f (expected c s) = true →
  write cenv fuel fh offset data c = (Err (Failed (Remote Conflict)), set_cworld (touched senv (session_of c) (world_of c)) c).
Proof.
  intros Hb Hs Hp [H1 H2 H3 H4 H5 H6] Hd Hf Hcf. unfold write. rw Hb.
  assert (check_poisoned fh c = (Ok tt, c)) as Hc by (unfold check_poisoned, sbind, sget; by rw Hs Hp).
  rw (sbind_eq _ _ _ _ _ Hc) (sbind_eq sget _ c c c eq_refl) /server_fh Hs.
  destruct fuel as [|fuel]; [lia|]. destruct data as [|z data]; [done|]. fold (expected c s).
  cbn [write_loop]. rw bool_decide_false; [|simpl; lia].
  match goal with |- context [call (RqWrite ?sfh ?o ?d ?e)] =>
    assert (call (RqWrite sfh o d e) c = (Err (Failed (Remote Conflict)), set_cworld (touched senv (session_of c) (world_of c)) c)) as Hcall end.
  { rw call_agent (write_conflict senv _ _ x _ f) //. }
  by rw (sbind_Err _ _ _ _ _ (sbind_Err _ _ _ _ _ Hcall)).
Qed.

(** C2.  A write through the mount, with the server behind it.  With conflict
    detection on, a write whose handle last saw another version of the file
    than the server has is refused, and no file changes.  Every other write
    succeeds after at most one request per started 128 KiB: the server's file
    then holds the old bytes with the new ones spliced in at the offset, no
    other file changed, and the handle -- its caches dropped -- has learnt the
    version its own write made, so that it does not conflict with itself. *)
Theorem remote_write_exact cenv fuel fh offset data (c : C) s f x bs :
  serves_chunks → 0 ≤ offset → offset + blen data ≤ U64_MAX → blen data ≤ U32_MAX →
  overlay_fh fh = false → cl_open c !! fh = Some s → os_poisoned s = false →
  writer (session_of c) (os_server_fh s) f x bs (world_of c) →
  data ≠ [] → (length data ≤ fuel * Z.to_nat DATA_CHUNK)%nat →
  let '(r, c') := write cenv fuel fh offset data c in
  if conflicts x f (expected c s)
  then r = Err (Failed (Remote Conflict)) ∧ w_fs (world_of c') = w_fs (world_of c)
  else r = Ok (blen data) ∧
    file_bytes (w_fs (world_of c')) (of_file f) = splice bs (Z.to_nat offset) data ∧
    (∀ i, i ≠ of_file f → nodes (w_fs (world_of c')) !! i = nodes (w_fs (world_of c)) !! i) ∧
    ∃ s' x', cl_open c' !! fh = Some s' ∧ os_cache_ok s' = false ∧ os_ra s' = clear (os_ra s) ∧
      attached_to (session_of c) x' (world_of c') ∧ conflicts x' f (expected c' s') = false.
Proof.
  intros Hsc Ho Hmax H32 Hb Hs Hp Hw Hd Hfuel. pose proof DATA_CHUNK_pos as HD.
  destruct (conflicts x f (expected c s)) eqn:Hcf.
  { rw (write_conflicting cenv fuel fh offset data c s f x bs) //. destruct fuel; [destruct data; [done|simpl in Hfuel; lia]|lia]. }
  unfold write. rw Hb.
  assert (check_poisoned fh c = (Ok tt, c)) as Hc by (unfold check_poisoned, sbind, sget; by rw Hs Hp).
  rw (sbind_eq _ _ _ _ _ Hc) (sbind_eq sget _ c c c eq_refl) /server_fh Hs. fold (expected c s).
  destruct (write_loop_exact fuel fh (os_server_fh s) f offset data (expected c s) 0 c s x bs) as (w' & x' & v & Hl & Hw' & Hv & _ & Hoth); try done; [lia|].
  rw (sbind_eq _ _ _ _ _ Hl). set (c1 := set_cworld w' (upd_open fh (os_set_version v) c)).
  assert (cl_open c1 !! fh = Some (os_set_version v s)) as Hs1 by (unfold c1; simpl; by rw lookup_alter_eq Hs).
  rw bool_decide_true in Hv; last (destruct data; [done|simpl; lia]).
  match goal with |- context [sbind (sbind sget ?k) ?g c1] => change (sbind (sbind sget k) g c1) with (sbind (k c1) g c1) end.
  cbv beta. rw Hs1. simpl. rw as_u32_small; last (unfold blen in *; ints).
  rw Nat.add_0_r drop_0 in Hw'. split; [done|]. split; [by apply file_bytes_content, (wr_content _ _ _ _ _ _ Hw')|]. split; [done|].
  eexists _, x'. rw lookup_fmap !lookup_alter_eq Hs /=. rw bool_decide_true //. split; [done|].
  split; [done|]. split; [done|]. split; [apply (wr_export _ _ _ _ _ _ Hw')|].
  unfold expected. simpl. destruct (cl_detect c); [|done]. case_bool_decide; [done|]. simpl. by rw Hv bool_decide_true.
Qed.

(** ** Reading *)

(** A block the server is asked for is that block of the file. *)
Lemma fetch_block_exact conn sfh f bs b (n : AgentNet) :
  serves_chunks → authed (conn_id conn) (an_world n) → holds (conn_id conn) sfh f (an_world n) →
  content_at (w_fs (an_world n)) (of_file f) = Some (FileData bs) →
  fetch_block conn sfh n b = Some (block bs b).
Proof.
  intros [Hp Hg] Ha Hh Hc. unfold fetch_block. cbn [net_request the_net agent_net].
  rw handle_authed //. cbn [dispatch_blocking]. unfold Agent.read. rw Z.ltb_irrefl.
  rw (sbind_eq _ _ _ _ _ (handle_of_holds _ _ _ _ (holds_touched senv _ _ _ _ Hh))) (sbind_eq sget _ _ _ _ eq_refl).
  change (w_fs (touched senv (conn_id conn) (an_world n))) with (w_fs (an_world n)).
  rw (file_bytes_content _ _ _ Hc) read_fully_exact //.
Qed.


(** ** Listing *)

(** The names of a client-side listing. *)
Definition names_of (l : list (string * Z * Attr)) : list string := (λ e, e.1.1) <$> l.

(** Numbering a page: the table and the attribute cache change, nothing else. *)
Definition same_but_tables (c c' : C) : Prop :=
  cl_overlay c' = cl_overlay c ∧ cl_disk c' = cl_disk c ∧ cl_net c' = cl_net c.

Lemma remote_children_names dir es : ∀ c : C, ∃ out c',
  remote_children dir es c = (Ok out, c') ∧ same_but_tables c c' ∧
  names_of out = base.filter (λ n, is_overlay c (RelPath.join dir n) = false) (de_name <$> es).
Proof.
  induction es as [|e es IH]; intros c; cbn [remote_children].
  { exists [], c. by split_and!. }
  change (sbind (routed ?q) ?k c) with (k (is_overlay c q) c). cbv beta. rw fmap_cons.
  destruct (is_overlay c (RelPath.join dir (de_name e))) eqn:Ho.
  { rw filter_cons_False; [apply IH|congruence]. }
  rw filter_cons_True; [|done]. unfold ino_for, sbind at 1. destruct (get_or_alloc _ _) as [ino t].
  unfold cache_attr. change (sbind (smod ?f) ?k ?c0) with (k tt (f c0)). cbv beta.
  match goal with |- context [sbind (remote_children dir es) _ ?c0] => destruct (IH c0) as (out & c' & Hr & Hs & Hn) end.
  rw (sbind_eq _ _ _ _ _ Hr). exists ((de_name e, ino, de_attr e) :: out), c'. split; [done|]. split; [exact Hs|].
  unfold names_of in *. rw fmap_cons Hn. done.
Qed.

Lemma local_children_names all dir items : ∀ c : C, ∃ out c',
  local_children all dir items c = (Ok out, c') ∧ same_but_tables c c' ∧
  names_of out = base.filter (λ n, all || is_overlay c (RelPath.join dir n) = true) items.*1.
Proof.
  induction items as [|[n a] items IH]; intros c; cbn [local_children].
  { exists [], c. by split_and!. }
  change (sbind (routed ?q) ?k c) with (k (is_overlay c q) c). cbv beta. rw fmap_cons. cbn [fst].
  destruct (all || is_overlay c (RelPath.join dir n)) eqn:Ho.
  - rw filter_cons_True; [|done]. unfold ino_for, sbind at 1. destruct (get_or_alloc _ _) as [ino t].
    match goal with |- context [sbind (local_children all dir items) _ ?c0] => destruct (IH c0) as (out & c' & Hr & Hs & Hn) end.
    rw (sbind_eq _ _ _ _ _ Hr). exists ((n, ino, a) :: out), c'. split; [done|]. split; [exact Hs|].
    unfold names_of in *. rw fmap_cons Hn. done.
  - rw filter_cons_False; [apply IH|congruence].
Qed.

(** The overlay's listing of a directory leaves the client alone. *)
Definition overlay_names (cenv : Env) (c : C) (dir : RelPath) : list string :=
  match cl_overlay c with
  | Some o => match (Overlay.readdir_children cenv dir (o, cl_disk c)).1 with Ok l => l.*1 | Err _ => [] end
  | None => []
  end.

Lemma disk_try_looks {A} (m : M Fs IoErrorKind A) st : keeps same m → Overlay.disk_try m st = (Ok (m st.2).1, st).
Proof.
  intros Hm. unfold Overlay.disk_try. specialize (Hm st.2). destruct (m st.2) as [r fs]. unfold same in Hm. simpl in *.
  subst fs. by destruct st.
Qed.

Lemma children_looks cenv full items st : ∃ l, Overlay.children cenv full items st = (Ok l, st).
Proof.
  induction items as [|[n i] items [l IH]]; cbn [Overlay.children]; [by eexists|].
  destruct (to_str n) as [n'|]; [|by eexists].
  rw (sbind_eq _ _ _ _ _ (disk_try_looks _ st (keeps_symlink_metadata cenv _))).
  destruct (symlink_metadata cenv (full ++ [n']) st.2).1 as [md|e] eqn:E.
  - rw (sbind_eq (sret _) _ _ _ _ eq_refl) (sbind_eq _ _ _ _ _ IH). by eexists.
  - rw (sbind_eq _ _ _ _ _ (disk_try_looks _ st (keeps_symlink_metadata cenv _))) E. by eexists.
Qed.

Lemma readdir_children_looks cenv dir st : ∃ l, Overlay.readdir_children cenv dir st = (Ok l, st).
Proof.
  unfold Overlay.readdir_children. rw (sbind_eq (Overlay.the_abs dir) _ st _ st eq_refl).
  rw (sbind_eq _ _ _ _ _ (disk_try_looks _ st (keeps_read_dir cenv _))).
  destruct (read_dir cenv _ st.2).1; [apply children_looks|by eexists].
Qed.

#[local] Opaque READDIR_PAGE.

(** The paging loop over a listing the server does not change. *)
Lemma remote_pages_all p (L : list DirEntry) (Q : W → Prop) : ∀ fuel k (c : C),
  (∀ w cur, Q w → ∃ w', Q w' ∧ handle senv (session_of c) (RqReaddir p cur) w = (Ok (RsDir (page L cur).1 (page L cur).2), w')) →
  Q (world_of c) → (length L - k < fuel)%nat → (k ≤ length L)%nat →
  ∃ out c', remote_pages fuel p (Z.of_nat k) c = (Ok out, c') ∧ Q (world_of c') ∧ 
    cl_overlay c' = cl_overlay c ∧ cl_disk c' = cl_disk c ∧
    names_of out = base.filter (λ n, is_overlay c (RelPath.join p n) = false) (de_name <$> drop k L).
Proof.
  induction fuel as [|fuel IH]; intros k c Hstep HQ Hf Hk; [lia|]. cbn [remote_pages].
  pose proof (call_agent (RqReaddir p (Z.of_nat k)) c) as Hcall. destruct (Hstep _ (Z.of_nat k) HQ) as (w1 & HQ1 & Hh).
  rw Hh in Hcall. cbn [reply_of flat] in Hcall. rw (sbind_eq _ _ _ _ _ Hcall).
  pose proof page_pos as Hpos. unfold page in *. rw Nat2Z.id. cbn [fst snd].
  set (pg := take READDIR_PAGE (drop k L)) in *.
  assert (length pg = Nat.min READDIR_PAGE (length L - k)) as Hl by (unfold pg; by rw length_take length_drop).
  destruct (remote_children_names p pg (set_cworld w1 c)) as (out & c1 & Hr & (Ho & Hd & Hn) & Hnames).
  rw (sbind_eq _ _ _ _ _ Hr). simpl in Ho, Hd, Hn.
  assert (world_of c1 = w1) as Hw1 by (unfold world_of; by rw Hn).
  clear Hcall Hh. case_bool_decide as Hlt; cbn iota.
  - destruct (IH (k + length pg)%nat c1) as (rest & c2 & Hr2 & HQ2 & Ho2 & Hd2 & Hn2); [| |lia|lia|].
    { intros w cur Hw. destruct (Hstep w cur Hw) as (w' & ? & ?). exists w'. split; [done|]. unfold session_of in *. by rw Hn. }
    { by rw Hw1. }
    rw (sbind_eq _ _ _ _ _ Hr2). exists (out ++ rest), c2. split; [done|]. split; [done|]. split; [congruence|]. split; [congruence|].
    unfold names_of in *. rw fmap_app Hnames Hn2.
    assert (∀ q, is_overlay c1 q = is_overlay c q) as Hov by (intros q; unfold is_overlay; by rw Ho).
    rw -(take_drop READDIR_PAGE (drop k L)) fmap_app filter_app. fold pg. f_equal. rw drop_drop.
    replace (k + length pg)%nat with (k + READDIR_PAGE)%nat by lia.
    apply list_filter_iff. intros n. by rw Hov.
  - exists out, c1. split; [done|]. split; [by rw Hw1|]. split; [done|]. split; [done|]. rw Hnames.
    replace pg with (drop k L); [done|]. symmetry. apply take_ge. rw length_drop. lia.
Qed.

(** A listing through the mount, with the server behind it: every name the
    server serves in the directory, except those the overlay shadows, then
    the overlay's own names that route to it -- each side complete, however
    many pages the server's side takes, and nothing else. *)
Theorem remote_listing_complete cenv fuel ino (c : C) p x s es :
  Inode.path_of (cl_ino c) ino = Some p → is_overlay c p = false →
  attached_to (session_of c) x (world_of c) → authed (session_of c) (world_of c) →
  (∀ k q, fault senv k q = None) →
  resolve senv x p (world_of c) = (Ok (path_of s), world_of c) → real (w_fs (world_of c)) s →
  content_at (w_fs (world_of c)) (ino_of s) = Some (DirData es) →
  (∀ n i, es !! n = Some i → n ≠ "" ∧ n ≠ "." ∧ n ≠ ".." ∧ is_Some (content_at (w_fs (world_of c)) i)) →
  (size es < fuel)%nat →
  ∃ out c', readdir cenv fuel ino c = (Ok out, c') ∧ w_fs (world_of c') = w_fs (world_of c) ∧
    names_of out ≡ₚ
      base.filter (λ n, served x p n ∧ is_overlay c (RelPath.join p n) = false) (map_to_list es).*1
      ++ base.filter (λ n, is_overlay c (RelPath.join p n) = true) (overlay_names cenv c p).
Proof.
  intros Hp Hloc Hx Ha Hnf Hr Hs Hd Hwf Hfuel.
  destruct (listing_names senv x p s es _ Hnf Hs Hd Hwf) as (Hl & _ & Hperm).
  set (L := listing senv x p s es (w_fs (world_of c))) in *.
  set (Q := λ w1 : W, attached_to (session_of c) x w1 ∧ authed (session_of c) w1 ∧ w_fs w1 = w_fs (world_of c)).
  destruct (remote_pages_all p L Q fuel 0 c) as (out & c1 & Hpages & (Hx1 & Ha1 & Hf1) & Ho & Hdk & Hn); [| |lia|lia|].
  { intros w1 cur (Hx1 & Ha1 & Hf1). exists (touched senv (session_of c) w1).
    split; [split; [by apply attached_touched|split; [by apply authed_touched|done]]|].
    unfold L. rw -Hf1. apply readdir_page; rw ?Hf1 //. by apply (resolve_fs senv x p (world_of c)). }
  { by split. }
  unfold readdir. assert (the_path ino c = (Ok p, c)) as Hpath by (unfold the_path, sbind, sget; by rw Hp).
  rw (sbind_eq _ _ _ _ _ Hpath). change (sbind (routed ?q) ?k c) with (k (is_overlay c q) c). cbv beta. rw Hloc.
  rw (sbind_eq _ _ _ _ _ Hpages) (sbind_eq sget _ c1 c1 c1 eq_refl) Ho.
  rw drop_0 in Hn.
  assert (base.filter (λ n, is_overlay c (RelPath.join p n) = false) (de_name <$> L)
    ≡ₚ base.filter (λ n, served x p n ∧ is_overlay c (RelPath.join p n) = false) (map_to_list es).*1) as Hleft.
  { rw Hperm list_filter_filter. rw (list_filter_iff _ (λ n, served x p n ∧ is_overlay c (RelPath.join p n) = false)) //. tauto. }
  unfold overlay_names. destruct (cl_overlay c) as [o|] eqn:Hov.
  - destruct (readdir_children_looks cenv p (o, cl_disk c)) as [l Hchild].
    assert (overlay_do (Overlay.readdir_children cenv p) c1 = (Ok l, c1)) as Hdo.
    { unfold overlay_do. rw Ho Hdk Hchild. simpl. f_equal. destruct c1; simpl in *. by subst. }
    rw (sbind_eq _ _ _ _ _ Hdo).
    destruct (local_children_names false p l c1) as (mine & c2 & Hm & (Ho2 & Hd2 & Hn2) & Hnm).
    rw (sbind_eq _ _ _ _ _ Hm). exists (out ++ mine), c2. split; [done|].
    split; [unfold world_of in *; by rw Hn2|]. unfold names_of in *. rw fmap_app Hn Hnm Hchild.
    apply Permutation_app; [exact Hleft|]. rw (list_filter_iff _ (λ n, is_overlay c (RelPath.join p n) = true)); [done|]. intros n. unfold is_overlay. by rw Ho Hov.
  - exists out, c1. split; [done|]. split; [done|]. by rw filter_nil app_nil_r Hn Hleft.
Qed.

End EndToEnd.

(** ** Losing the connection

    A client of the small server: session 1 is its first connection.  While it
    is away the server drops the session; [back] is the connection it comes
    back with, a new session of the same server. *)
Module Outage.
#[local] Existing Instance Sample.sample_globs.
#[local] Abbreviation W := (World (GlobSet := list (string * bool))).
#[local] Abbreviation Cl := (Client (AgentNet (GlobSet := list (string * bool)))).

(** The kernel below the server takes 64 bytes at a time. *)
Definition env : Env :=
  mkEnv (λ _ _, None) 1000 (replicate (Z.to_nat DATA_CHUNK + 1) (Give 64)) (λ d, if d then 493 else 420) 4096 (λ _, None).
#[global] Instance server : Net AgentNet := agent_net env.

Lemma env_serves : serves_chunks env.
Proof.
  split; [apply Forall_replicate; simpl; lia|]. change (answers env) with (replicate (Z.to_nat DATA_CHUNK + 1) (Give 64)).
  generalize (Z.to_nat DATA_CHUNK + 1)%nat. intros n. enough (gives (replicate n (Give 64)) = n) as -> by done.
  induction n as [|n IH]; [done|]. cbn [replicate]. by rw gives_cons IH.
Qed.

Definition start (detect : bool) : Cl :=
  mkClient table_new Fixed.attr ∅ None Demo.fs None [] ∅ "data" true 0 0 detect None
    (mkAgentNet (Demo.world false []) (mkConn 1 4) 0).

Definition go (ops : list ClientOp) (c : Cl) : Cl := run_clients Demo.env (λ s, s) (λ _ _, true) ops c.

(** Something happens at the server. *)
Definition meanwhile (f : W → W) (c : Cl) : Cl :=
  set_net (mkAgentNet (f (an_world (cl_net c))) (an_conn (cl_net c)) (an_now (cl_net c))) c.

(** The old session is gone and a new one is there: session 2. *)
Definition drop_session (w : W) : W :=
  let w := (disconnected 1 w).2 in (with_token env None w).2.
Definition back : Conn := mkConn 2 4.

Definition rw : OpenFlags := mkOpenFlags true true false false false.
Definition rw_trunc : OpenFlags := mkOpenFlags true true true false false.

Definition at_server (i : Z) (c : Cl) : list Z := file_bytes (w_fs (an_world (cl_net c))) i.

(** The server's "note" is inode 5, its "private/key" inode 7. *)
Definition both_known : list ClientOp := [OpLookup 1 "note"; OpLookup 1 "private"; OpLookup 3 "key"].
End Outage.

(** A file created through the mount with O_TRUNC -- what a shell's [>] does --
    and written to is emptied by the next reconnection: the supervisor opens
    it again with the flags it was created with. *)
Theorem reconnect_truncates_open_file :
  let c := Outage.go [OpCreate 1 "new" 420 Outage.rw_trunc; OpWrite 2 1 0 (as_bytes "data")] (Outage.start false) in
  let c' := Outage.go [OpReconnect Outage.back] (Outage.meanwhile Outage.drop_session c) in
  Outage.at_server 8 c = as_bytes "data" ∧ Outage.at_server 8 c' = [].
Proof. vm_compute. split; reflexivity. Qed.

(** Two files are open; one is removed while the connection is down.  Its
    handle cannot be opened again and keeps its old server number, which the
    new session has given to the other file: a write through the handle of the
    removed file succeeds, and lands in the other one. *)
Theorem reconnect_aliases_handles :
  let gone w := upd_fs (remove_file Outage.env ["srv"; "data"; "note"] (w_fs w)).2 w in
  let c := Outage.go (Outage.both_known ++ [OpOpen 2 Outage.rw; OpOpen 4 Outage.rw]) (Outage.start false) in
  let c1 := Outage.go [OpReconnect Outage.back] (Outage.meanwhile (gone ∘ Outage.drop_session) c) in
  let '(r, c2) := write Demo.env 2 1 0 (as_bytes "XXX") c1 in
  os_path <$> cl_open c1 !! 1 = Some "note" ∧ r = Ok 3 ∧
  Outage.at_server 7 c1 = as_bytes "secret" ∧ Outage.at_server 7 c2 = as_bytes "XXXret".
Proof. vm_compute. split_and!; reflexivity. Qed.

(** A file stays open across a reconnection.  The new session numbers its
    handles from 1 again, so a later open is given the number the mount
    already uses for the first file, and takes its place: what is then written
    through the first file's handle lands in the second. *)
Theorem open_after_reconnect_steals_handle :
  let c := Outage.go (Outage.both_known ++ [OpOpen 4 Outage.rw; OpOpen 2 Outage.rw; OpRelease 1]) (Outage.start false) in
  let c1 := Outage.go [OpReconnect Outage.back] (Outage.meanwhile Outage.drop_session c) in
  let c2 := Outage.go [OpOpen 4 Outage.rw] c1 in
  let '(r, c3) := write Demo.env 2 2 0 (as_bytes "XXX") c2 in
  os_path <$> cl_open c1 !! 2 = Some "note" ∧ r = Ok 3 ∧
  Outage.at_server 5 c3 = as_bytes "hello" ∧ Outage.at_server 7 c3 = as_bytes "XXXret".
Proof. vm_compute. split_and!; reflexivity. Qed.

(** ** Witnesses *)

Module Written.
#[local] Existing Instance Sample.sample_globs.
Definition note : OpenFile := mkOpenFile 5 ["srv"; "data"; "note"] "note" true.
Definition client := Outage.go [OpLookup 1 "note"; OpOpen 2 Outage.rw] (Outage.start true).
Definition state : OpenState := mkOpenState "note" Outage.rw 1 false false ra_new None false 0.
Lemma client_open : cl_open client !! 1 = Some state.
Proof. vm_compute. reflexivity. Qed.
Lemma client_writer : writer (session_of client) 1 note (Demo.export false []) (as_bytes "hello") (world_of client).
Proof.
  split; try (vm_compute; reflexivity).
  - eexists. split; [vm_compute; reflexivity|]. split; vm_compute; reflexivity.
  - eexists. split; [vm_compute; reflexivity|]. vm_compute. reflexivity.
  - eexists. split; [vm_compute; reflexivity|]. vm_compute. reflexivity.
Qed.
Lemma one_chunk (n : nat) : Z.of_nat n ≤ DATA_CHUNK → (n ≤ 1 * Z.to_nat DATA_CHUNK)%nat.
Proof. lia. Qed.
End Written.

Lemma remote_write_exact_witness :
  let '(r, c') := write Demo.env 1 1 1 [69; 76] Written.client in
  r = Ok 2 ∧ file_bytes (w_fs (world_of c')) 5 = as_bytes "hELlo".
Proof.
  pose proof (remote_write_exact Outage.env Demo.env 1 1 1 [69; 76] Written.client Written.state Written.note
    (Demo.export false []) (as_bytes "hello") Outage.env_serves ltac:(lia) ltac:(vm_compute; discriminate)
    ltac:(vm_compute; discriminate) ltac:(vm_compute; reflexivity) Written.client_open ltac:(vm_compute; reflexivity)
    Written.client_writer ltac:(discriminate) (Written.one_chunk 2 ltac:(vm_compute; discriminate))) as H.
  cbv beta iota delta [conflicts expected] in H.
  destruct (write Demo.env 1 1 1 [69; 76] Written.client) as [r c'].
  replace (cl_detect Written.client) with true in H by (vm_compute; reflexivity).
  cbn [Written.state os_version] in H. rw bool_decide_true // in H.
  destruct H as (H1 & H2 & _). split; [exact H1|exact H2].
Defined.


Lemma remote_listing_complete_witness :
  ∃ out c', readdir Demo.env 3 1 (Outage.start false) = (Ok out, c') ∧ names_of out ≡ₚ ["note"; "private"].
Proof.
  set (c := Outage.start false). set (s := [("data", 4); ("srv", 3)]).
  set (es := list_to_map [("note", 5); ("private", 6)] : gmap string Z).
  destruct (remote_listing_complete Outage.env Demo.env 3 1 c "" (Demo.export false []) s es) as (out & c' & H1 & _ & H2).
  - vm_compute. reflexivity.
  - vm_compute. reflexivity.
  - eexists. split; [vm_compute; reflexivity|]. split; vm_compute; reflexivity.
  - eexists. split; [vm_compute; reflexivity|]. vm_compute. reflexivity.
  - intros k q. reflexivity.
  - vm_compute. reflexivity.
  - repeat (econstructor; try (vm_compute; reflexivity); try discriminate).
  - vm_compute. reflexivity.
  - intros n i Hn. unfold es in Hn. simpl in Hn.
    destruct (decide (n = "note")) as [->|]; [vm_compute in Hn; injection Hn as <-; repeat split; try discriminate; vm_compute; by eexists|].
    destruct (decide (n = "private")) as [->|]; [vm_compute in Hn; injection Hn as <-; repeat split; try discriminate; vm_compute; by eexists|].
    rw !lookup_insert_ne in Hn; try done.
  - vm_compute. lia.
  - exists out, c'. split; [exact H1|]. etrans; [exact H2|]. vm_compute. apply Permutation_refl'. reflexivity.
Defined.
