(* ===== verification/Fuse.v ===== *)
(** * Fuse: the FUSE mount

    The adapter of alloyfs-mount-fuse/src/lib.rs: each callback of the kernel
    becomes a call of the client and one reply.  fuser's types appear as far as
    the adapter uses them; how a flag word names an access mode and whether
    another entry fits a directory reply are fuser's, and parameters.  The
    theorems: every callback replies, with a result or an errno, or waits;
    listing a directory that stays as it is, reply by reply, gives every entry
    once.  The last part shows what the adapter gets wrong: it re-lists the
    directory for every reply, forgets an inode whatever its count, treats an
    exchange as a replacement, and keeps serving blocks an event made stale. *)

From S2P Require Import Prelude Messages Common Exclude Locks EventHub Inode ReadAhead AutoCache KernelAbi Fs Agent AgentFacts Transport Overlay Symlink RemoteFs RemoteFacts EndToEnd.

(** ** fuser's types *)

Inductive FileType : Type := RegularFile | Directory | SymlinkType.
#[global] Instance FileType_eq_dec : EqDecision FileType.
Proof. solve_decision. Defined.

Record FileAttr : Type := mkFileAttr {
  fa_ino : Z; fa_size : Z; fa_blocks : Z;
  fa_atime : SystemTime; fa_mtime : SystemTime; fa_ctime : SystemTime; fa_crtime : SystemTime;
  fa_kind : FileType; fa_perm : Z; fa_nlink : Z; fa_uid : Z; fa_gid : Z; fa_rdev : Z; fa_blksize : Z; fa_flags : Z
}.

Inductive OpenAccMode : Type := O_RDONLY | O_WRONLY | O_RDWR.
Inductive TimeOrNow : Type := SpecificTime (t : SystemTime) | Now.

(** An entry of a directory reply: inode, offset of the next entry, type, name. *)
Record Dirent : Type := mkDirent { de_ino : Z; de_next : Z; de_type : FileType; de_text : string }.

(** Constants of libc on Linux, and RENAME_NOREPLACE. *)
Definition O_TRUNC : Z := 512.
Definition O_APPEND : Z := 1024.
Definition O_EXCL : Z := 128.
Definition F_RDLCK : Z := 0.
Definition F_WRLCK : Z := 1.
Definition F_UNLCK : Z := 2.
Definition RENAME_NOREPLACE : Z := 1.

(** [KERNEL_TTL], in seconds. *)
Definition KERNEL_TTL : Z := 1.

(** What a reply object is used for. *)
Inductive FuseReply : Type :=
| REntry (ttl : Z) (a : FileAttr) (generation : Z)
| RAttr (ttl : Z) (a : FileAttr)
| RDirectory (entries : list Dirent)
| ROpened (fh : Z)
| RCreated (ttl : Z) (a : FileAttr) (generation fh : Z)
| RData (data : list Z)
| RWritten (n : Z)
| RStatfs (blocks bfree bavail files ffree bsize namelen frsize : Z)
| ROk
| RError (errno : Z).

(** What the adapter tells the kernel to drop. *)
Inductive Inval : Type := InvalEntry (parent : Z) (name : string) | InvalInode (ino offset len : Z).

(** ** The adapter *)

Definition file_type (kind : FileKind) : FileType :=
  match kind with KFile => RegularFile | KDir => Directory | KSymlink => SymlinkType end.

(** [u64::div_ceil]. *)
Definition div_ceil (a b : Z) : Z := (a + b - 1) / b.

Record DsFuse : Type := mkDsFuse { ds_uid : Z; ds_gid : Z }.

Definition file_attr (ds : DsFuse) (ino : Z) (a : Attr) : FileAttr :=
  mkFileAttr ino (a_size a) (div_ceil (a_size a) 512) (a_mtime a) (a_mtime a) (a_ctime a) (a_ctime a)
    (file_type (a_kind a)) (as_u16 (Z.land (a_mode a) 4095)) 1 (ds_uid ds) (ds_gid ds) 0 4096 0.

Section Fuse.
Context {N : Type} `{NET : Net N}.
Context (env : Env) (upper : string → string) (renames_ok : list string → list string → bool).
Context (fuel : nat).                              (* bound on the client's loops *)
Context (acc_mode : Z → OpenAccMode).              (* fuser: [OpenFlags::acc_mode] *)
Context (fits : list Dirent → Dirent → bool).      (* fuser: does [ReplyDirectory::add] take another entry *)
Context (ds : DsFuse).
#[local] Abbreviation C := (Client N).
#[local] Abbreviation ClientM := (M (Client N) Halt).

Definition open_flags (flags : Z) : OpenFlags :=
  let '(read, write) := match acc_mode flags with
                        | O_RDONLY => (true, false)
                        | O_WRONLY => (false, true)
                        | O_RDWR => (true, true)
                        end in
  mkOpenFlags read write (negb (bool_decide (Z.land flags O_TRUNC = 0)))
    (negb (bool_decide (Z.land flags O_APPEND = 0))) (negb (bool_decide (Z.land flags O_EXCL = 0))).

(** [match self.fs.… { Ok(a) => reply.…, Err(e) => reply.error(errno(&e)) }]. *)
Definition reply {A} (m : ClientM A) (k : A → FuseReply) : ClientM FuseReply := λ c,
  match m c with
  | (Ok a, c) => (Ok (k a), c)
  | (Err (Failed e), c) => (Ok (RError (posix_errno e)), c)
  | (Err h, c) => (Err h, c)
  end.

(** [ok_name!]. *)
Definition ok_name (name : string) (k : string → ClientM FuseReply) : ClientM FuseReply :=
  match to_str name with Some n => k n | None => sret (RError EINVAL) end.

Definition entry_reply (x : Z * Attr) : FuseReply := REntry KERNEL_TTL (file_attr ds x.1 x.2) 0.

Definition fuse_lookup (parent : Z) (name : string) : ClientM FuseReply :=
  ok_name name (λ name, reply (lookup env parent name) entry_reply).

Definition fuse_forget (ino nlookup : Z) : ClientM unit := smod (λ c, set_ino (Inode.forget (cl_ino c) ino) c).

Definition fuse_getattr (ino : Z) : ClientM FuseReply :=
  reply (getattr env ino) (λ a, RAttr KERNEL_TTL (file_attr ds ino a)).

Definition fuse_setattr (ino : Z) (mode size : option Z) (mtime : option TimeOrNow) : ClientM FuseReply :=
  let mtime := (λ t, match t with SpecificTime t => t | Now => now env end) <$> mtime in
  reply (setattr env ino size mtime mode) (λ a, RAttr KERNEL_TTL (file_attr ds ino a)).

(** All the entries, with the two every directory has. *)
Definition all_entries (ino : Z) (entries : list (string * Z * Attr)) : list (Z * FileType * string) :=
  (ino, Directory, ".") :: (ROOT_INO, Directory, "..") ::
  map (λ '(name, child, a), (child, file_type (a_kind a), name)) entries.

(** The loop over [enumerate().skip(offset)]: [add] refuses the entry that does
    not fit, and the loop ends. *)
Fixpoint add_entries (i : nat) (rest : list (Z * FileType * string)) (buf : list Dirent) : list Dirent :=
  match rest with
  | [] => buf
  | (ino, ft, name) :: rest =>
      let e := mkDirent ino (Z.of_nat i + 1) ft name in
      if fits buf e then add_entries (S i) rest (buf ++ [e]) else buf
  end.

Definition fuse_readdir (ino offset : Z) : ClientM FuseReply :=
  reply (readdir env fuel ino)
    (λ entries, let i := Z.to_nat offset in RDirectory (add_entries i (drop i (all_entries ino entries)) [])).

Definition fuse_open (ino flags : Z) : ClientM FuseReply :=
  reply (open env ino (open_flags flags)) (λ x, ROpened x.1).

(** A create is for reading and writing whatever the mode asked for. *)
Definition create_flags (flags : Z) : OpenFlags :=
  let o := open_flags flags in mkOpenFlags true true (of_truncate o) (of_append o) (of_excl o).

Definition fuse_create (parent : Z) (name : string) (mode flags : Z) : ClientM FuseReply :=
  ok_name name (λ name, reply (create env parent name mode (create_flags flags))
    (λ '(ino, fh, a), RCreated KERNEL_TTL (file_attr ds ino a) 0 fh)).

Definition fuse_read (fh offset size : Z) : ClientM FuseReply := reply (read env fh offset size) RData.

Definition fuse_write (ino fh offset : Z) (data : list Z) : ClientM FuseReply :=
  reply (let! n := write env fuel fh offset data in run! invalidate_attr ino in sret n) RWritten.

Definition fuse_flush (fh : Z) : ClientM FuseReply := reply (flush fh) (λ _, ROk).

Definition fuse_release (fh : Z) : ClientM FuseReply := run! release fh in sret ROk.

Definition fuse_mkdir (parent : Z) (name : string) (mode : Z) : ClientM FuseReply :=
  ok_name name (λ name, reply (mkdir env parent name mode) entry_reply).

Definition fuse_unlink (parent : Z) (name : string) : ClientM FuseReply :=
  ok_name name (λ name, reply (unlink env parent name) (λ _, ROk)).

Definition fuse_rmdir (parent : Z) (name : string) : ClientM FuseReply :=
  ok_name name (λ name, reply (rmdir env parent name) (λ _, ROk)).

Definition fuse_rename (parent : Z) (name : string) (newparent : Z) (newname : string) (flags : Z) : ClientM FuseReply :=
  ok_name name (λ name, ok_name newname (λ newname,
    let noreplace := bool_decide (Z.land flags RENAME_NOREPLACE = RENAME_NOREPLACE) in
    reply (rename env renames_ok parent name newparent newname (negb noreplace)) (λ _, ROk))).

Definition fuse_link (ino newparent : Z) (newname : string) : ClientM FuseReply :=
  ok_name newname (λ newname, reply (link env ino newparent newname) entry_reply).

Definition fuse_symlink (parent : Z) (link_name target : string) : ClientM FuseReply :=
  ok_name link_name (λ link_name, ok_name target (λ target,
    reply (symlink env upper parent link_name target) entry_reply)).

Definition fuse_readlink (ino : Z) : ClientM FuseReply := reply (readlink env ino) (λ t, RData (as_bytes t)).

Definition fuse_setlk (fh typ : Z) (sleep : bool) : ClientM FuseReply :=
  if bool_decide (typ = F_RDLCK) then reply (lock fh Shared sleep) (λ _, ROk)
  else if bool_decide (typ = F_WRLCK) then reply (lock fh Exclusive sleep) (λ _, ROk)
  else if bool_decide (typ = F_UNLCK) then reply (unlock fh) (λ _, ROk)
  else sret (RError EINVAL).

Definition fuse_statfs : ClientM FuseReply :=
  reply statfs (λ '(bsize, blocks, bfree), RStatfs blocks bfree bfree 0 0 bsize 255 bsize).

(** ** Events *)

Definition inval_name (t : InodeTable) (p : RelPath) : list Inval :=
  match RelPath.split p with
  | None => []
  | Some (parent, name) =>
      match (if RelPath.is_root parent then Some ROOT_INO else Inode.ino_of t parent) with
      | Some pino => [InvalEntry pino name]
      | None => []
      end
  end.

Definition native_event (t : InodeTable) (ev : FsEvent) : list Inval :=
  match ev_kind ev with
  | Created | Removed => inval_name t (ev_path ev)
  | RenamedFrom to => inval_name t (ev_path ev) ++ inval_name t to
  | Modified | AttrChanged =>
      match Inode.ino_of t (ev_path ev) with Some ino => [InvalInode ino 0 0] | None => [] end
  | ResyncRequired => []
  end.

Definition apply_events_native (c : C) (batch : list FsEvent) : list Inval :=
  flat_map (native_event (cl_ino c)) batch.

(** ** All the callbacks *)

Inductive FuseCall : Type :=
| CLookup (parent : Z) (name : string) | CForget (ino nlookup : Z) | CGetattr (ino : Z)
| CSetattr (ino : Z) (mode size : option Z) (mtime : option TimeOrNow) | CReaddir (ino offset : Z)
| COpen (ino flags : Z) | CCreate (parent : Z) (name : string) (mode flags : Z)
| CRead (fh offset size : Z) | CWrite (ino fh offset : Z) (data : list Z) | CFlush (fh : Z) | CRelease (fh : Z)
| CMkdir (parent : Z) (name : string) (mode : Z) | CUnlink (parent : Z) (name : string) | CRmdir (parent : Z) (name : string)
| CRename (parent : Z) (name : string) (newparent : Z) (newname : string) (flags : Z)
| CLink (ino newparent : Z) (newname : string) | CSymlink (parent : Z) (link_name target : string) | CReadlink (ino : Z)
| CSetlk (fh typ : Z) (sleep : bool) | CStatfs.

(** [forget] has no reply. *)
Definition serve (call : FuseCall) : ClientM FuseReply :=
  match call with
  | CLookup parent name => fuse_lookup parent name
  | CForget ino nlookup => run! fuse_forget ino nlookup in sret ROk
  | CGetattr ino => fuse_getattr ino
  | CSetattr ino mode size mtime => fuse_setattr ino mode size mtime
  | CReaddir ino offset => fuse_readdir ino offset
  | COpen ino flags => fuse_open ino flags
  | CCreate parent name mode flags => fuse_create parent name mode flags
  | CRead fh offset size => fuse_read fh offset size
  | CWrite ino fh offset data => fuse_write ino fh offset data
  | CFlush fh => fuse_flush fh
  | CRelease fh => fuse_release fh
  | CMkdir parent name mode => fuse_mkdir parent name mode
  | CUnlink parent name => fuse_unlink parent name
  | CRmdir parent name => fuse_rmdir parent name
  | CRename parent name newparent newname flags => fuse_rename parent name newparent newname flags
  | CLink ino newparent newname => fuse_link ino newparent newname
  | CSymlink parent link_name target => fuse_symlink parent link_name target
  | CReadlink ino => fuse_readlink ino
  | CSetlk fh typ sleep => fuse_setlk fh typ sleep
  | CStatfs => fuse_statfs
  end.

End Fuse.

(** ** Every callback replies *)

Section Replies.
Context {N : Type} `{NET : Net N} {ov : option (RelPath → bool)} {NI : N → Prop} {NS : NetSafe NET ov NI}.
Context (env : Env) (upper : string → string) (renames_ok : list string → list string → bool) (fuel : nat).
Context (acc_mode : Z → OpenAccMode) (fits : list Dirent → Dirent → bool) (ds : DsFuse).
#[local] Abbreviation ok := (ok (ov := ov) (NI := NI) upper).

(** A reply the kernel can use: an error has a positive number, and a handle
    is an overlay handle only if there is an overlay. *)
Definition reply_ok (r : FuseReply) : Prop :=
  match r with
  | RError e => 0 < e
  | ROpened fh => fh_ok (ov := ov) fh
  | RCreated _ _ _ fh => fh_ok (ov := ov) fh
  | _ => True
  end.

(** The handle a call names. *)
Definition call_fh (c : FuseCall) : option Z :=
  match c with
  | CRead fh _ _ | CWrite _ fh _ _ | CFlush fh | CRelease fh => Some fh
  | _ => None
  end.
Definition call_typed (c : FuseCall) : Prop := ∀ fh, call_fh c = Some fh → fh_ok (ov := ov) fh.

Lemma ok_reply_of {A} (m : M (Client N) Halt A) (k : A → FuseReply) R :
  ok m R → (∀ a, R a → reply_ok (k a)) → ok (reply m k) reply_ok.
Proof.
  intros Hm Hk c Hc. specialize (Hm c Hc). unfold reply. destruct (m c) as [[a|[]] c']; simpl in *; try (by destruct Hm).
  - destruct Hm. auto.
  - split; [by destruct Hm|]. apply posix_errno_positive.
Qed.

Lemma ok_reply_any {A} (m : M (Client N) Halt A) (k : A → FuseReply) R :
  (∀ a, reply_ok (k a)) → ok m R → ok (reply m k) reply_ok.
Proof. intros Hk Hm. by eapply ok_reply_of. Qed.

Lemma ok_name_of name k : (∀ n, ok (k n) reply_ok) → ok (ok_name name k) reply_ok.
Proof. intros Hk. unfold ok_name. destruct (to_str name); [done|]. by apply ok_ret. Qed.

Lemma serve_ok call : call_typed call → ok (serve env upper renames_ok fuel acc_mode fits ds call) reply_ok.
Proof.
  intros Ht. unfold call_typed in Ht. destruct call; cbn [serve call_fh] in *;
    unfold fuse_lookup, fuse_create, fuse_mkdir, fuse_unlink, fuse_rmdir, fuse_rename, fuse_link, fuse_symlink, fuse_setlk;
    repeat (apply ok_name_of; intros ?);
    try (eapply ok_reply_any; [by intros|]; first
      [apply ok_lookup | apply ok_getattr | apply ok_setattr | apply ok_readdir | apply ok_read; auto | apply ok_flush; auto
      | apply ok_mkdir | apply ok_remove | apply ok_rename | apply ok_link | apply ok_symlink | apply ok_readlink]).
  - eapply (ok_bind _ _ _ any); [|intros ? _; by apply ok_ret]. apply ok_mod. intros. by apply wf_set_ino.
  - eapply ok_reply_of; [apply ok_open|]. by intros [fh a].
  - eapply ok_reply_of; [apply ok_create|]. by intros [[i fh] a].
  - eapply (ok_reply_any _ _ any); [done|]. eapply ok_bind; [apply ok_write; auto|intros ? _].
    eapply ok_bind; [apply ok_invalidate_attr|intros ? _]. by apply ok_ret.
  - eapply ok_bind; [apply ok_release; auto|intros ? _]. by apply ok_ret.
  - repeat case_bool_decide; try (eapply ok_reply_any; [done|]; first [apply ok_lock | apply ok_unlock]). by apply ok_ret.
  - eapply ok_reply_any; [|apply ok_statfs]. by intros [[]].
Qed.

(** An error of the client is always a reply. *)
Definition handled (m : M (Client N) Halt FuseReply) : Prop := ∀ c e, (m c).1 ≠ Err (Failed e).

Lemma handled_reply {A} (m : M (Client N) Halt A) k : handled (reply m k).
Proof. intros c e. unfold reply. by destruct (m c) as [[|[]]]. Qed.

Lemma handled_name name k : (∀ n, handled (k n)) → handled (ok_name name k).
Proof. intros Hk. unfold ok_name. by destruct (to_str name). Qed.

Lemma handled_release fh : handled (fuse_release fh).
Proof.
  intros c e. unfold fuse_release, release, sbind, sret, sget, smod, stry. destruct (overlay_fh fh).
  - unfold overlay_do. by destruct (cl_overlay c).
  - destruct (cl_open c !! fh) as [s|]; [destruct (os_wrote s)|]; cbn; by destruct (call _ _).
Qed.

Lemma serve_handled call : handled (serve env upper renames_ok fuel acc_mode fits ds call).
Proof.
  destruct call; cbn [serve]; try apply handled_reply; try apply handled_release; try done;
    repeat (apply handled_name; intros ?); try apply handled_reply.
  unfold fuse_setlk. repeat case_bool_decide; by try apply handled_reply.
Qed.

(** Every callback is answered: whatever the kernel asks with the handles it
    was given, the adapter does not panic, the client's tables stay well-typed,
    and it replies with a result or a positive errno -- unless it waits for a
    lock, or for the network. *)
Theorem fuse_call_answered call (c : Client N) :
  wf (ov := ov) (NI := NI) upper c → call_typed call →
  let '(r, c') := serve env upper renames_ok fuel acc_mode fits ds call c in
  wf (ov := ov) (NI := NI) upper c' ∧ match r with Ok a => reply_ok a | Err e => e = Waits end.
Proof.
  intros Hc Ht. pose proof (serve_ok call Ht c Hc) as [H1 H2]. pose proof (serve_handled call c) as H3.
  destruct (serve _ _ _ _ _ _ _ call c) as [[r|[]] c']; simpl in *; try done. by destruct (H3 e).
Qed.
End Replies.

(** ** Listing a directory *)

Section Listing.
Context {N : Type} `{NET : Net N}.
Context (env : Env) (fuel : nat) (fits : list Dirent → Dirent → bool).

(** The kernel's walk: it asks on from the last entry's offset until a reply is
    empty; [None] when [calls] replies are not enough, or a call fails. *)
Fixpoint list_dir (calls : nat) (ino offset : Z) (c : Client N) : option (list Dirent) * Client N :=
  match calls with
  | O => (None, c)
  | S calls =>
      match fuse_readdir env fuel fits ino offset c with
      | (Ok (RDirectory es), c) =>
          match last es with
          | None => (Some [], c)
          | Some e => let '(rest, c) := list_dir calls ino (de_next e) c in (app es <$> rest, c)
          end
      | (_, c) => (None, c)
      end
  end.

(** Entries with the offsets that follow them. *)
Fixpoint offsets_from (i : nat) (l : list (Z * FileType * string)) : list Dirent :=
  match l with
  | [] => []
  | (ino, ft, name) :: l => mkDirent ino (Z.of_nat i + 1) ft name :: offsets_from (S i) l
  end.

Lemma offsets_app i l1 l2 : offsets_from i (l1 ++ l2) = offsets_from i l1 ++ offsets_from (i + length l1) l2.
Proof.
  revert i. induction l1 as [|[[ino ft] name] l1 IH]; intros i; simpl; [by rw Nat.add_0_r|]. rw IH.
  by replace (S i + length l1)%nat with (i + S (length l1))%nat by lia.
Qed.

Lemma offsets_last i l : l ≠ [] → ∃ e, last (offsets_from i l) = Some e ∧ de_next e = Z.of_nat (i + length l).
Proof.
  intros Hl. destruct (exists_last Hl) as (l' & [[ino ft] name] & ->). rw offsets_app last_snoc length_app. simpl.
  eexists. split; [done|]. simpl. lia.
Qed.

(** What a reply takes: the next entries, at least one when [add] takes one. *)
Lemma add_entries_takes i rest buf : ∃ k, add_entries fits i rest buf = buf ++ offsets_from i (take k rest) ∧
  (k ≤ length rest)%nat ∧ ((∀ e, fits buf e = true) → rest ≠ [] → (0 < k)%nat).
Proof.
  revert i buf. induction rest as [|[[ino ft] name] rest IH]; intros i buf; cbn [add_entries].
  { exists O. simpl. by rw app_nil_r. }
  case_match eqn:Hf.
  - destruct (IH (S i) (buf ++ [mkDirent ino (Z.of_nat i + 1) ft name])) as (k & -> & Hk & _). exists (S k). simpl.
    rw -(assoc_L (++)). simpl. split; [done|]. split; [lia|]. lia.
  - exists O. simpl. rw app_nil_r. split; [done|]. split; [lia|]. intros Ha. by rw Ha in Hf.
Qed.

Context (Inv : Client N → Prop) (ino : Z) (entries : list (string * Z * Attr)).
Hypothesis unchanged : ∀ c, Inv c → ∃ c', readdir env fuel ino c = (Ok entries, c') ∧ Inv c'.
Hypothesis room : ∀ e, fits [] e = true.

Lemma list_dir_from calls c i : Inv c → (i ≤ length (all_entries ino entries))%nat →
  (length (all_entries ino entries) - i < calls)%nat →
  ∃ c', list_dir calls ino (Z.of_nat i) c = (Some (offsets_from i (drop i (all_entries ino entries))), c').
Proof using unchanged room.
  set (all := all_entries ino entries). revert c i. induction calls as [|calls IH]; intros c i Hc Hi Hn; [lia|].
  cbn [list_dir]. unfold fuse_readdir, reply. destruct (unchanged c Hc) as (c1 & -> & Hc1). rw Nat2Z.id. fold all.
  destruct (add_entries_takes i (drop i all) []) as (k & -> & Hk & Hpos). specialize (Hpos room).
  rw length_drop in Hk. cbn [app]. destruct (decide (drop i all = [])) as [E|E]; [rw E take_nil; by eexists|].
  specialize (Hpos E). assert (take k (drop i all) ≠ []) as Hne.
  { destruct (drop i all); [done|]. by destruct k; [lia|]. }
  destruct (offsets_last i _ Hne) as (e & -> & He). rw He.
  assert (length (take k (drop i all)) = k) as Hlen by (rw length_take length_drop; lia). rw Hlen.
  destruct (IH c1 (i + k)%nat Hc1 ltac:(lia) ltac:(lia)) as (c2 & ->). exists c2. cbn.
  by rw -{2}(take_drop k (drop i all)) offsets_app Hlen drop_drop.
Qed.

(** Listing a directory through the mount: as long as the directory stays as it
    is, and a reply has room for one entry, the walk ends within one reply per
    entry and one more, and yields ".", ".." and every entry, once and in
    order. *)
Theorem fuse_listing_complete calls c : Inv c → (length entries + 2 < calls)%nat →
  ∃ es c', list_dir calls ino 0 c = (Some es, c') ∧
    map (λ e, (de_ino e, de_type e, de_text e)) es = all_entries ino entries.
Proof using unchanged room.
  intros Hc Hn. destruct (list_dir_from calls c 0 Hc) as (c' & H); [lia|simpl; rw length_map; lia|].
  eexists _, c'. split; [exact H|]. rw drop_0. generalize O as i. generalize (all_entries ino entries) as l.
  induction l as [|[[x ft] name] l IH]; intros i; [done|]. simpl. by rw IH.
Qed.
End Listing.

(** ** Concrete mounts *)

Module Mounted.
(** fuser's reading of the access mode bits. *)
Definition acc_mode (flags : Z) : OpenAccMode :=
  if bool_decide (Z.land flags 3 = 1) then O_WRONLY else if bool_decide (Z.land flags 3 = 2) then O_RDWR else O_RDONLY.
(** A reply with room for three entries. *)
Definition three (buf : list Dirent) (e : Dirent) : bool := (length buf <? 3)%nat.
Definition me : DsFuse := mkDsFuse 1000 1000.
Definition serve_all {N} `{Net N} := serve (N := N) Demo.env (λ s, s) (λ _ _, true) 3 acc_mode three me.
Definition texts (r : result FuseReply Halt) : list string :=
  match r with Ok (RDirectory es) => map de_text es | _ => [] end.
End Mounted.

Lemma fuse_call_answered_witness :
  let c := Fixed.client (mkLogged tt []) {[ 7 := Fixed.open_state "b.txt" ]} None in
  let '(r, c') := Mounted.serve_all (COpen 4 514) c in
  wf (ov := Some Fixed.excluded) (NI := all_clean (Some Fixed.excluded)) (λ s, s) c' ∧
  match r with Ok a => reply_ok (ov := Some Fixed.excluded) a | Err e => e = Waits end.
Proof.
  exact (fuse_call_answered (NS := logged_safe Fixed.net (Some Fixed.excluded) Fixed.small) Demo.env (λ s, s) (λ _ _, true)
    3 Mounted.acc_mode Mounted.three Mounted.me (COpen 4 514)
    (Fixed.client (mkLogged tt []) {[ 7 := Fixed.open_state "b.txt" ]} None)
    (Fixed.wf_client [] ltac:(constructor)) ltac:(by intros fh)).
Defined.

Lemma fuse_listing_complete_witness :
  let c := (readdir Demo.env 3 1 (Fixed.client tt ∅ None)).2 in
  ∃ es c', list_dir Demo.env 3 Mounted.three 6 1 0 c = (Some es, c') ∧ map de_text es = ["."; ".."; "a.txt"; "node_modules"].
Proof.
  intros c.
  set (entries := [("a.txt", 2, Fixed.attr); ("node_modules", 4, mkAttr KDir 4096 1 1 493 0)]).
  destruct (fuse_listing_complete Demo.env 3 Mounted.three (λ c0, c0 = c) 1 entries) with (calls := 6%nat) (c := c)
    as (es & c' & H1 & H2).
  - intros ? ->. exists c. split; [vm_compute; reflexivity|reflexivity].
  - reflexivity.
  - reflexivity.
  - simpl. lia.
  - exists es, c'. split; [exact H1|]. apply (f_equal (map snd)) in H2. rw map_map in H2. exact H2.
Defined.

(** The directory is listed anew for every reply, and the offset is a position
    in that listing.  A file removed between two replies moves the rest up: a
    name that was there all along is never reported. *)
Theorem fuse_readdir_skips_a_name :
  let gone w := upd_fs (remove_file Outage.env ["srv"; "data"; "note"] (w_fs w)).2 w in
  let '(r1, c1) := fuse_readdir Demo.env 3 Mounted.three 1 0 (Outage.start false) in
  let '(r2, c2) := fuse_readdir Demo.env 3 Mounted.three 1 3 (Outage.meanwhile gone c1) in
  let '(r3, _) := getattr Demo.env 3 c2 in
  Mounted.texts r1 = ["."; ".."; "note"] ∧ r2 = Ok (RDirectory []) ∧
  Inode.path_of (cl_ino c2) 3 = Some "private" ∧ a_kind <$> (match r3 with Ok a => Some a | _ => None end) = Some KDir.
Proof. vm_compute. split_and!; reflexivity. Qed.

(** The kernel looked a file up twice and gives back one of the two: the number
    must stay valid, and is forgotten. *)
Theorem fuse_forget_ignores_count :
  let c := (Mounted.serve_all (CLookup 1 "note") (Outage.start false)).2 in
  let c := (Mounted.serve_all (CLookup 1 "note") c).2 in
  let c' := (Mounted.serve_all (CForget 2 1) c).2 in
  Inode.path_of (cl_ino c) 2 = Some "note" ∧ (Mounted.serve_all (CGetattr 2) c').1 = Ok (RError 2).
Proof. vm_compute. split; reflexivity. Qed.

(** RENAME_EXCHANGE (2) asks for two names to be swapped, or for an error.  It
    is carried out as a plain rename: the one file is lost, the other has one
    name where it should have two. *)
Theorem fuse_exchange_replaces :
  let c := Outage.go Outage.both_known (Outage.start false) in
  let '(r, c1) := Mounted.serve_all (CRename 1 "note" 3 "key" 2) c in
  let '(key, c2) := Mounted.serve_all (CLookup 3 "key") c1 in
  let '(note, _) := Mounted.serve_all (CLookup 1 "note") c2 in
  r = Ok ROk ∧ note = Ok (RError 2) ∧
  (match key with Ok (REntry _ a _) => fa_size a | _ => 0 end) = blen (as_bytes "hello") ∧
  nodes (w_fs (an_world (cl_net c1))) !! 7 = nodes (w_fs (an_world (cl_net c))) !! 7.
Proof. vm_compute. split_and!; reflexivity. Qed.

(** Another machine changes a file; the event arrives, the client drops the
    attributes and the kernel is told to drop its pages.  The kernel then reads
    again through the handle it has open, and gets the old bytes: the blocks
    the handle retained are still served. *)
Theorem fuse_read_stale_after_event :
  let changed w := upd_fs (set_content 2000 5 (FileData (as_bytes "WORLD")) (w_fs w)) w in
  let ev := mkFsEvent 1 Modified "note" (Some 1) None in
  let c := Outage.go [OpLookup 1 "note"; OpOpen 2 Outage.rw] (Outage.start false) in
  let '(r1, c1) := Mounted.serve_all (CRead 1 0 5) c in
  let c2 := Outage.go [OpPump (Batch [ev])] (Outage.meanwhile changed c1) in
  let '(r2, c3) := Mounted.serve_all (CRead 1 0 5) c2 in
  r1 = Ok (RData (as_bytes "hello")) ∧ apply_events_native c2 [ev] = [InvalInode 2 0 0] ∧
  Outage.at_server 5 c3 = as_bytes "WORLD" ∧ r2 = Ok (RData (as_bytes "hello")).
Proof. vm_compute. split_and!; reflexivity. Qed.
