(* ===== verification/WinFsp.v ===== *)
(** * WinFsp: the Windows mount

    The adapter of alloyfs-mount-winfsp/src/lib.rs: each callback of WinFsp is
    a call of the client; names are UTF-16, errors NTSTATUS values, times
    FILETIMEs, and symbolic links travel as reparse buffers.  A file context is
    passed and returned (the code keeps its mutable parts behind atomics).
    WinFsp's directory buffer and the bytes of the security descriptor are
    parameters.

    Reparse buffers, notification paths and times round-trip, and no bytes make
    the reparse parser panic.  The callbacks' guarantees are in [WinFacts]. *)

From S2P Require Import Prelude Text Messages Common Exclude Locks EventHub Inode ReadAhead AutoCache KernelAbi Fs Agent AgentFacts Transport Overlay Symlink RemoteFs RemoteFacts EndToEnd Fuse.

(** ** Constants *)

Definition FILE_ATTRIBUTE_READONLY : Z := 0x1.
Definition FILE_ATTRIBUTE_DIRECTORY : Z := 0x10.
Definition FILE_ATTRIBUTE_ARCHIVE : Z := 0x20.
Definition FILE_ATTRIBUTE_REPARSE_POINT : Z := 0x400.
Definition INVALID_FILE_ATTRIBUTES : Z := 2^32 - 1.
Definition FILE_DIRECTORY_FILE : Z := 0x1.

Definition FILE_READ_DATA : Z := 0x1.
Definition FILE_WRITE_DATA : Z := 0x2.
Definition FILE_APPEND_DATA : Z := 0x4.
Definition FILE_EXECUTE : Z := 0x20.
Definition GENERIC_ALL : Z := 0x10000000.
Definition GENERIC_EXECUTE : Z := 0x20000000.
Definition GENERIC_WRITE : Z := 0x40000000.
Definition GENERIC_READ : Z := 0x80000000.

(** NTSTATUS, as the [i32] that a [u32] literal with the top bit is. *)
Definition status_of (u : Z) : Z := u - 2^32.
Definition STATUS_INVALID_HANDLE : Z := status_of 0xC0000008.
Definition STATUS_INVALID_DEVICE_REQUEST : Z := status_of 0xC0000010.
Definition STATUS_END_OF_FILE : Z := status_of 0xC0000011.
Definition STATUS_ACCESS_DENIED : Z := status_of 0xC0000022.
Definition STATUS_BUFFER_TOO_SMALL : Z := status_of 0xC0000023.
Definition STATUS_OBJECT_NAME_INVALID : Z := status_of 0xC0000033.
Definition STATUS_OBJECT_NAME_NOT_FOUND : Z := status_of 0xC0000034.
Definition STATUS_OBJECT_NAME_COLLISION : Z := status_of 0xC0000035.
Definition STATUS_SHARING_VIOLATION : Z := status_of 0xC0000043.
Definition STATUS_MEDIA_WRITE_PROTECTED : Z := status_of 0xC00000A2.
Definition STATUS_FILE_IS_A_DIRECTORY : Z := status_of 0xC00000BA.
Definition STATUS_NOT_SUPPORTED : Z := status_of 0xC00000BB.
Definition STATUS_NOT_SAME_DEVICE : Z := status_of 0xC00000D4.
Definition STATUS_DIRECTORY_NOT_EMPTY : Z := status_of 0xC0000101.
Definition STATUS_NOT_A_DIRECTORY : Z := status_of 0xC0000103.
Definition STATUS_IO_DEVICE_ERROR : Z := status_of 0xC0000185.
Definition STATUS_NOT_A_REPARSE_POINT : Z := status_of 0xC0000275.

Definition ALLOCATION_UNIT : Z := 4096.

Definition u64_mul (a b : Z) : Z := (a * b) mod 2^64.

(** [bits & mask != 0]. *)
Definition has_any (bits mask : Z) : bool := negb (bool_decide (Z.land bits mask = 0)).

Definition fsp_err (e : FsError) : Z :=
  match e with
  | Remote NotFound => STATUS_OBJECT_NAME_NOT_FOUND
  | Remote PermissionDenied => STATUS_ACCESS_DENIED
  | Remote AlreadyExists => STATUS_OBJECT_NAME_COLLISION
  | Remote NotADirectory => STATUS_NOT_A_DIRECTORY
  | Remote IsADirectory => STATUS_FILE_IS_A_DIRECTORY
  | Remote NotEmpty => STATUS_DIRECTORY_NOT_EMPTY
  | Remote InvalidPath => STATUS_OBJECT_NAME_INVALID
  | Remote BadHandle => STATUS_INVALID_HANDLE
  | Remote ReadOnly => STATUS_MEDIA_WRITE_PROTECTED
  | Remote WouldBlock => STATUS_SHARING_VIOLATION
  | Remote CrossDevice => STATUS_NOT_SAME_DEVICE
  | Remote VersionMismatch => STATUS_NOT_SUPPORTED
  | _ => STATUS_IO_DEVICE_ERROR
  end.

(** ** Times *)

Definition FILETIME_UNIX_DIFF_SECS : Z := 11644473600.
Definition SECOND : Z := 1000000000.

Definition to_filetime (t : SystemTime) : Z :=
  let d := Z.max 0 t in
  u64_add (u64_mul (u64_add (d / SECOND) FILETIME_UNIX_DIFF_SECS) 10000000) (d mod SECOND / 100).

Definition from_filetime (ft : Z) : SystemTime :=
  let unix_100ns := Z.max 0 (ft - FILETIME_UNIX_DIFF_SECS * 10000000) in
  Z.min (unix_100ns * 100) U64_MAX.

(** ** Attributes *)

Definition IO_REPARSE_TAG_SYMLINK : Z := 0xA000000C.

Definition attributes (a : Attr) : Z :=
  match a_kind a with
  | KDir => FILE_ATTRIBUTE_DIRECTORY
  | KSymlink => Z.lor FILE_ATTRIBUTE_ARCHIVE FILE_ATTRIBUTE_REPARSE_POINT
  | KFile =>
      if negb (has_any (a_mode a) 146) then Z.lor FILE_ATTRIBUTE_ARCHIVE FILE_ATTRIBUTE_READONLY
      else FILE_ATTRIBUTE_ARCHIVE
  end.

Record FileInfo : Type := mkFileInfo {
  fi_file_attributes : Z; fi_reparse_tag : Z; fi_file_size : Z; fi_allocation_size : Z;
  fi_creation_time : Z; fi_last_access_time : Z; fi_last_write_time : Z; fi_change_time : Z;
  fi_index_number : Z; fi_hard_links : Z; fi_ea_size : Z
}.

Definition fill_file_info (ino : Z) (a : Attr) : FileInfo :=
  let mtime := to_filetime (a_mtime a) in
  let ctime := to_filetime (a_ctime a) in
  mkFileInfo (attributes a) (match a_kind a with KSymlink => IO_REPARSE_TAG_SYMLINK | _ => 0 end)
    (a_size a) (u64_mul (div_ceil (a_size a) ALLOCATION_UNIT) ALLOCATION_UNIT)
    ctime mtime mtime (Z.max mtime ctime) ino 0 0.

(** ** Reparse buffers *)

Definition SYMLINK_FLAG_RELATIVE : Z := 1.
Definition REPARSE_HEADER_LEN : nat := 8.
Definition SYMLINK_HEADER_LEN : nat := 12.

(** Characters of the conversions. *)
Definition SL : Z := 47.      (* / *)
Definition BS : Z := 92.      (* \ *)

(** [str::replace(c, d)] on characters. *)
Definition swap_char (c d : Z) (cs : list Z) : list Z := (λ x, if x =? c then d else x) <$> cs.

Definition target_is_absolute (target : string) : bool :=
  starts_with "\" target || starts_with "/" target || has_drive target.

Definition encode_symlink_reparse (target : string) : list Z :=
  let wide := utf16_encode (swap_char SL BS (chars target)) in
  let name_bytes := blen wide * 2 in
  let data_len := Z.of_nat SYMLINK_HEADER_LEN + name_bytes * 2 in
  le_bytes 4 IO_REPARSE_TAG_SYMLINK ++ le_bytes 2 (as_u16 data_len) ++ le_bytes 2 0 ++
  le_bytes 2 0 ++ le_bytes 2 (as_u16 name_bytes) ++ le_bytes 2 (as_u16 name_bytes) ++ le_bytes 2 (as_u16 name_bytes) ++
  le_bytes 4 (if target_is_absolute target then 0 else SYMLINK_FLAG_RELATIVE) ++
  flat_map (le_bytes 2) (wide ++ wide).

(** [chunks_exact(2)] as units. *)
Fixpoint units_of (bs : list Z) : list Z :=
  match bs with
  | a :: b :: rest => le_value [a; b] :: units_of rest
  | _ => []
  end.

(** The prefix \??\ of a substitute name. *)
Definition NT_PREFIX : list Z := [92; 63; 63; 92].
Definition strip_nt (cs : list Z) : list Z :=
  match cs with
  | 92 :: 63 :: 63 :: 92 :: rest => rest
  | _ => cs
  end.

(** [None] outside is a panic. *)
Definition decode_symlink_reparse (buf : list Z) : option (option string) :=
  if bool_decide (length buf < REPARSE_HEADER_LEN + SYMLINK_HEADER_LEN)%nat then Some None
  else
    tag ← u32_at buf 0;
    if negb (bool_decide (tag = IO_REPARSE_TAG_SYMLINK)) then Some None
    else
      sub_off ← u16_at buf 8;
      sub_len ← u16_at buf 10;
      if bool_decide (sub_len = 0) || negb (bool_decide (sub_len mod 2 = 0)) then Some None
      else
        path ← bytes_from buf (REPARSE_HEADER_LEN + SYMLINK_HEADER_LEN);
        let end_ := sub_off + sub_len in
        if blen path <? end_ then Some None
        else
          bytes ← bytes_at path (Z.to_nat sub_off) (Z.to_nat sub_len);
          Some (cs ← utf16_decode (units_of bytes); Some (from_chars (swap_char BS SL (strip_nt cs)))).

(** ** Paths *)

Fixpoint drop_slashes (cs : list Z) : list Z :=
  match cs with c :: rest => if c =? SL then drop_slashes rest else cs | [] => [] end.

(** [trim_matches('/')]. *)
Definition trim_slashes (cs : list Z) : list Z := reverse (drop_slashes (reverse (drop_slashes cs))).

(** The path of a file name in UTF-16; [None] is STATUS_OBJECT_NAME_INVALID. *)
Definition rel_path (file_name : list Z) : option RelPath :=
  cs ← utf16_decode file_name; Some (from_chars (trim_slashes (swap_char BS SL cs))).

Definition notify_name (rel : RelPath) : list Z := utf16_encode (BS :: swap_char SL BS (chars rel)).

(** ** Notifications *)

Definition FILE_ACTION_ADDED : Z := 1.
Definition FILE_ACTION_REMOVED : Z := 2.
Definition FILE_ACTION_MODIFIED : Z := 3.
Definition FILE_ACTION_RENAMED_OLD_NAME : Z := 4.
Definition FILE_ACTION_RENAMED_NEW_NAME : Z := 5.
Definition FILE_NOTIFY_CHANGE_FILE_NAME : Z := 0x01.
Definition FILE_NOTIFY_CHANGE_DIR_NAME : Z := 0x02.
Definition FILE_NOTIFY_CHANGE_ATTRIBUTES : Z := 0x04.
Definition FILE_NOTIFY_CHANGE_SIZE : Z := 0x08.
Definition FILE_NOTIFY_CHANGE_LAST_WRITE : Z := 0x10.
Definition NAME_BOTH : Z := Z.lor FILE_NOTIFY_CHANGE_FILE_NAME FILE_NOTIFY_CHANGE_DIR_NAME.

Record NotifyInfo : Type := mkNotifyInfo { ni_action : Z; ni_filter : Z; ni_name : list Z }.

(** The buffer of a [NotifyInfo<255>] (and a [DirInfo<255>]) holds 255 units. *)
Definition NAME_UNITS : Z := 255.

Definition emit_one (path : RelPath) (action filter : Z) : list NotifyInfo :=
  let wide := notify_name path in
  if NAME_UNITS <? blen wide then [] else [mkNotifyInfo action filter wide].

Definition notify_event (ev : FsEvent) : list NotifyInfo :=
  match ev_kind ev with
  | Created => emit_one (ev_path ev) FILE_ACTION_ADDED NAME_BOTH
  | Removed => emit_one (ev_path ev) FILE_ACTION_REMOVED NAME_BOTH
  | Modified => emit_one (ev_path ev) FILE_ACTION_MODIFIED (Z.lor FILE_NOTIFY_CHANGE_SIZE FILE_NOTIFY_CHANGE_LAST_WRITE)
  | AttrChanged => emit_one (ev_path ev) FILE_ACTION_MODIFIED FILE_NOTIFY_CHANGE_ATTRIBUTES
  | RenamedFrom to =>
      emit_one (ev_path ev) FILE_ACTION_RENAMED_OLD_NAME NAME_BOTH ++ emit_one to FILE_ACTION_RENAMED_NEW_NAME NAME_BOTH
  | ResyncRequired => []
  end.

Definition notify (events : list FsEvent) : list NotifyInfo := flat_map notify_event events.

(** [EventSink::push] and [should_notify] on the pending events. *)
Definition sink_push (pending batch : list FsEvent) : list FsEvent := pending ++ batch.
Definition should_notify (pending : list FsEvent) : option (list FsEvent) * list FsEvent :=
  match pending with [] => (None, []) | _ => (Some pending, []) end.

(** [mount], given which mount points the host accepts: whether the Mount
    Manager has the volume, or [None] when it cannot be mounted. *)
Definition is_drive_letter (mountpoint : string) : bool :=
  match as_bytes mountpoint with [a; b] => (b =? 58) && is_ascii_alphabetic a | _ => false end.
Definition mount (host_mount : string → bool) (mountpoint : string) : option bool :=
  let mounted_via_mountmgr := is_drive_letter mountpoint && host_mount ("\\.\" +:+ mountpoint) in
  if mounted_via_mountmgr then Some true
  else if host_mount mountpoint then Some false else None.

(** ** The callbacks *)

(** WinFsp's directory buffer: [acquire] hands out the lock, says that the
    buffer is filled, or fails. *)
Record DirInfo : Type := mkDirInfo { di_name : list Z; di_info : FileInfo }.
Inductive Acquired (B : Type) : Type := Lock (b : B) | Filled | AcquireError (status : Z).
Arguments Lock {B}. Arguments Filled {B}. Arguments AcquireError {B}.
Class DirBuffer (B : Type) := {
  db_new : B;
  db_acquire : B → bool → Acquired B;
  db_write : B → DirInfo → result B Z;
  db_read : B → option (list Z) → Z → list DirInfo;
  db_write_fails b d status : db_write b d = Err status → status ≠ 0
}.

Record FileContext (B : Type) : Type := mkFileContext {
  fc_ino : Z; fc_fh : option Z; fc_is_dir : bool; fc_dir_buffer : B; fc_delete_pending : bool
}.
Arguments mkFileContext {B}. Arguments fc_ino {B}. Arguments fc_fh {B}. Arguments fc_is_dir {B}.
Arguments fc_dir_buffer {B}. Arguments fc_delete_pending {B}.

Record FileSecurity : Type := mkFileSecurity { sec_reparse : bool; sec_size : Z; sec_attributes : Z }.

(** What stops a callback: a status, or what stopped the client. *)
Inductive WinHalt : Type := Nt (status : Z) | Halted (h : Halt).

(** The trait's callbacks, with the arguments the adapter uses. *)
Inductive WinCall (B : Type) : Type :=
  | WGetSecurityByName (name : list Z) (buffer : option Z)
  | WGetSecurity (ctx : FileContext B) (buffer : option Z)
  | WOpen (name : list Z) (access : Z)
  | WClose (ctx : FileContext B)
  | WCreate (name : list Z) (options : Z)
  | WOverwrite (ctx : FileContext B)
  | WCleanup (ctx : FileContext B) (delete_flag : bool)
  | WFlush (ctx : option (FileContext B))
  | WGetFileInfo (ctx : FileContext B)
  | WRead (ctx : FileContext B) (buffer_len offset : Z)
  | WWrite (ctx : FileContext B) (buffer : list Z) (offset : Z) (eof constrained : bool)
  | WReadDirectory (ctx : FileContext B) (marker : option (list Z)) (room : Z)
  | WRename (name new_name : list Z) (replace : bool)
  | WSetBasicInfo (ctx : FileContext B) (attrs time : Z)
  | WSetDelete (ctx : FileContext B) (delete_file : bool)
  | WSetFileSize (ctx : FileContext B) (size : Z) (alloc : bool)
  | WGetReparsePoint (ctx : FileContext B) (room : Z)
  | WGetReparsePointByName (name : list Z) (room : Z)
  | WSetReparsePoint (name buffer : list Z)
  | WDeleteReparsePoint
  | WGetVolumeInfo.
Arguments WGetSecurityByName {B}. Arguments WGetSecurity {B}. Arguments WOpen {B}. Arguments WClose {B}. Arguments WCreate {B}.
Arguments WOverwrite {B}. Arguments WCleanup {B}. Arguments WFlush {B}. Arguments WGetFileInfo {B}.
Arguments WRead {B}. Arguments WWrite {B}. Arguments WReadDirectory {B}. Arguments WRename {B}.
Arguments WSetBasicInfo {B}. Arguments WSetDelete {B}. Arguments WSetFileSize {B}. Arguments WGetReparsePoint {B}.
Arguments WGetReparsePointByName {B}. Arguments WSetReparsePoint {B}. Arguments WDeleteReparsePoint {B}. Arguments WGetVolumeInfo {B}.

Inductive WinReply (B : Type) : Type :=
  | WrDone
  | WrInfo (info : FileInfo)
  | WrContext (ctx : FileContext B) (info : FileInfo)
  | WrSecurity (sec : FileSecurity) (bytes : option (list Z))
  | WrDescriptor (size : Z) (bytes : option (list Z))
  | WrBytes (data : list Z)
  | WrWritten (n : Z) (info : FileInfo)
  | WrEntries (ctx : FileContext B) (outcome : result (list DirInfo) WinHalt)
  | WrMarked (ctx : FileContext B)
  | WrVolume (total free : Z).
Arguments WrDone {B}. Arguments WrInfo {B}. Arguments WrContext {B}. Arguments WrSecurity {B}. Arguments WrDescriptor {B}. Arguments WrBytes {B}.
Arguments WrWritten {B}. Arguments WrEntries {B}. Arguments WrMarked {B}. Arguments WrVolume {B}.

Section WinFsp.
Context {N : Type} `{NET : Net N} {B : Type} `{DB : DirBuffer B}.
Context (env : Env) (upper : string → string) (renames_ok : list string → list string → bool) (fuel : nat).
Context (descriptor : list Z).                       (* the bytes of [MOUNT_SDDL] *)
#[local] Abbreviation C := (Client N).
#[local] Abbreviation ClientM := (M (Client N) Halt).
#[local] Abbreviation WinM := (M (Client N) WinHalt).
#[local] Abbreviation Ctx := (FileContext B).
#[local] Abbreviation WinCall := (WinCall B).
#[local] Abbreviation WinReply := (WinReply B).

(** [.map_err(fsp_err)]. *)
Definition via {A} (m : ClientM A) : WinM A := λ c,
  match m c with
  | (Ok a, c) => (Ok a, c)
  | (Err (Failed e), c) => (Err (Nt (fsp_err e)), c)
  | (Err h, c) => (Err (Halted h), c)
  end.
Definition nt {A} (status : Z) : WinM A := sfail (Nt status).

Definition win_path (file_name : list Z) : WinM RelPath :=
  slift (ok_or (rel_path file_name) (Nt STATUS_OBJECT_NAME_INVALID)).

Definition resolve (path : RelPath) : ClientM (Z * Attr) := λ c,
  let existing := Inode.ino_of (cl_ino c) path in
  let '(ino, t) := match existing with Some i => (i, cl_ino c) | None => get_or_alloc (cl_ino c) path end in
  match getattr env ino (set_ino t c) with
  | (Ok a, c) => (Ok (ino, a), c)
  | (Err e, c) =>
      (Err e, match e, existing with
              | Failed _, None => set_ino (Inode.forget (cl_ino c) ino) c
              | _, _ => c
              end)
  end.

(** The length, and the bytes if there is room. *)
Definition write_security_descriptor (buffer : option Z) : Z * option (list Z) :=
  let len := blen descriptor in
  (len, match buffer with Some room => if len <=? room then Some descriptor else None | None => None end).

Definition get_security_by_name (file_name : list Z) (buffer : option Z) : WinM (FileSecurity * option (list Z)) :=
  let! path := win_path file_name in
  let! '(_, a) := via (resolve path) in
  let '(len, bytes) := write_security_descriptor buffer in
  sret (mkFileSecurity false len (attributes a), bytes).

Definition get_security (buffer : option Z) : Z * option (list Z) := write_security_descriptor buffer.

Definition new_context (ino : Z) (fh : option Z) (is_dir : bool) : Ctx := mkFileContext ino fh is_dir db_new false.

Definition win_open (file_name : list Z) (granted_access : Z) : WinM (Ctx * FileInfo) :=
  let! path := win_path file_name in
  let! '(ino, a) := via (resolve path) in
  let is_dir := bool_decide (a_kind a = KDir) in
  let wants_write := has_any granted_access
    (Z.lor (Z.lor (Z.lor FILE_WRITE_DATA FILE_APPEND_DATA) GENERIC_WRITE) GENERIC_ALL) in
  let wants_read := has_any granted_access
    (Z.lor (Z.lor (Z.lor (Z.lor FILE_READ_DATA FILE_EXECUTE) GENERIC_READ) GENERIC_EXECUTE) GENERIC_ALL) in
  let! '(fh, a) :=
    (if negb is_dir && (wants_read || wants_write) then
       let! '(h, a) := via (open env ino (mkOpenFlags true wants_write false false false)) in sret (Some h, a)
     else sret (None, a)) in
  sret (new_context ino fh is_dir, fill_file_info ino a).

Definition win_close (ctx : Ctx) : WinM unit :=
  match fc_fh ctx with Some fh => via (release fh) | None => sret tt end.

Definition win_create (file_name : list Z) (create_options : Z) : WinM (Ctx * FileInfo) :=
  let! path := win_path file_name in
  match RelPath.split path with
  | None => nt STATUS_OBJECT_NAME_COLLISION
  | Some (parent_path, name) =>
      let! '(parent_ino, parent_attr) := via (resolve parent_path) in
      if negb (bool_decide (a_kind parent_attr = KDir)) then nt STATUS_NOT_A_DIRECTORY
      else if has_any create_options FILE_DIRECTORY_FILE then
        let! '(ino, a) := via (mkdir env parent_ino name 493) in
        sret (new_context ino None true, fill_file_info ino a)
      else
        let! '(ino, fh, a) := via (create env parent_ino name 420 (mkOpenFlags true true false false true)) in
        sret (new_context ino (Some fh) false, fill_file_info ino a)
  end.

Definition win_overwrite (ctx : Ctx) : WinM FileInfo :=
  let! a := via (setattr env (fc_ino ctx) (Some 0) None None) in
  sret (fill_file_info (fc_ino ctx) a).

(** [cleanup]: the deletion, when [FspCleanupDelete] is set; failures are only
    logged. *)
Definition win_cleanup (ctx : Ctx) (delete_flag : bool) : WinM unit :=
  if negb delete_flag then sret tt
  else
    let! c := sget in
    match Inode.path_of (cl_ino c) (fc_ino ctx) with
    | None => sret tt
    | Some path =>
        match RelPath.split path with
        | None => sret tt
        | Some (parent_path, name) =>
            let '(parent_ino, t) :=
              match Inode.ino_of (cl_ino c) parent_path with
              | Some i => (i, cl_ino c)
              | None => get_or_alloc (cl_ino c) parent_path
              end in
            run! smod (set_ino t) in
            let! result := (λ c, match (if fc_is_dir ctx then rmdir env parent_ino name else unlink env parent_ino name) c with
                                 | (Ok _, c) => (Ok true, c)
                                 | (Err (Failed _), c) => (Ok false, c)
                                 | (Err h, c) => (Err (Halted h), c)
                                 end) in
            if result : bool then smod (λ c, set_ino (Inode.forget (cl_ino c) (fc_ino ctx)) c) else sret tt
        end
    end.

Definition win_flush (ctx : option Ctx) : WinM (option FileInfo) :=
  match ctx with
  | None => sret None
  | Some ctx =>
      run! (match fc_fh ctx with Some fh => via (flush fh) | None => sret tt end) in
      let! a := via (getattr env (fc_ino ctx)) in
      sret (Some (fill_file_info (fc_ino ctx) a))
  end.

Definition win_get_file_info (ctx : Ctx) : WinM FileInfo :=
  let! a := via (getattr env (fc_ino ctx)) in sret (fill_file_info (fc_ino ctx) a).

(** The status of data access without a data handle. *)
Definition no_handle (ctx : Ctx) : Z :=
  if fc_is_dir ctx then STATUS_INVALID_DEVICE_REQUEST else STATUS_ACCESS_DENIED.

(** [buffer[..data.len()]] panics when the data is longer. *)
Definition win_read (ctx : Ctx) (buffer_len offset : Z) : WinM (list Z) :=
  match fc_fh ctx with
  | None => nt (no_handle ctx)
  | Some fh =>
      let! data := via (read env fh offset (as_u32 buffer_len)) in
      if bool_decide (data = []) && (0 <? buffer_len) then nt STATUS_END_OF_FILE
      else if buffer_len <? blen data then sfail (Halted Panicked)
      else sret data
  end.

Definition win_write (ctx : Ctx) (buffer : list Z) (offset : Z) (write_to_eof constrained_io : bool) : WinM (Z * FileInfo) :=
  match fc_fh ctx with
  | None => nt (no_handle ctx)
  | Some fh =>
      let! a := via (getattr env (fc_ino ctx)) in
      let go (offset : Z) (data : list Z) : WinM (Z * FileInfo) :=
        let! n := via (write env fuel fh offset data) in
        run! via (invalidate_attr (fc_ino ctx)) in
        let new_attr := mkAttr (a_kind a) (Z.max (a_size a) (u64_add offset n)) (a_mtime a) (a_ctime a) (a_mode a) (a_version a) in
        sret (n, fill_file_info (fc_ino ctx) new_attr) in
      if write_to_eof then go (a_size a) buffer
      else if constrained_io then
        if a_size a <=? offset then sret (0, fill_file_info (fc_ino ctx) a)
        else go offset (take (Z.to_nat (Z.min (blen buffer) (a_size a - offset))) buffer)
      else go offset buffer
  end.

(** Filling the directory buffer while its lock is held: what was written
    before a failure stays in it. *)
#[local] Abbreviation LockM := (M (Client N * B) WinHalt).
Definition on_client {A} (m : WinM A) : LockM A := λ '(c, b), let '(r, c) := m c in (r, (c, b)).

Definition write_dir_entry (name : string) (ino : Z) (a : Attr) : LockM unit := λ '(c, b),
  let wide := utf16_encode (chars name) in
  if NAME_UNITS <? blen wide then (Ok tt, (c, b))
  else match db_write b (mkDirInfo wide (fill_file_info ino a)) with
       | Ok b => (Ok tt, (c, b))
       | Err status => (Err (Nt status), (c, b))
       end.

Fixpoint write_entries (entries : list (string * Z * Attr)) : LockM unit :=
  match entries with
  | [] => sret tt
  | (name, ino, a) :: entries => run! write_dir_entry name ino a in write_entries entries
  end.

(** [if let Ok((pino, pattr)) = self.resolve(..)]. *)
Definition write_parent_entry (parent_path : RelPath) : LockM unit := λ '(c, b),
  match resolve parent_path c with
  | (Ok (pino, pattr), c) => write_dir_entry ".." pino pattr (c, b)
  | (Err (Failed _), c) => (Ok tt, (c, b))
  | (Err h, c) => (Err (Halted h), (c, b))
  end.

Definition fill_dir_buffer (ino : Z) : LockM unit :=
  let! '(c, _) := sget in
  let! path := slift (ok_or (Inode.path_of (cl_ino c) ino) (Nt STATUS_INVALID_HANDLE)) in
  run! (match RelPath.split path with
        | Some (parent_path, _) =>
            let! cur := on_client (via (getattr env ino)) in
            run! write_dir_entry "." ino cur in
            write_parent_entry parent_path
        | None => sret tt
        end) in
  let! entries := on_client (via (readdir env fuel ino)) in
  write_entries entries.

Definition set_dir_buffer (b : B) (ctx : Ctx) : Ctx :=
  mkFileContext (fc_ino ctx) (fc_fh ctx) (fc_is_dir ctx) b (fc_delete_pending ctx).

(** The context with its buffer as it is left, and the outcome. *)
Definition win_read_directory (ctx : Ctx) (marker : option (list Z)) (room : Z)
    : WinM (Ctx * result (list DirInfo) WinHalt) := λ c,
  let serve b := Ok (db_read b marker room) in
  match db_acquire (fc_dir_buffer ctx) (match marker with None => true | Some _ => false end) with
  | Lock b =>
      let '(r, (c, b)) := fill_dir_buffer (fc_ino ctx) (c, b) in
      (Ok (set_dir_buffer b ctx, match r with Ok _ => serve b | Err e => Err e end), c)
  | Filled => (Ok (ctx, serve (fc_dir_buffer ctx)), c)
  | AcquireError status =>
      if bool_decide (status = 0) then (Ok (ctx, serve (fc_dir_buffer ctx)), c) else (Err (Nt status), c)
  end.

Definition win_rename (file_name new_file_name : list Z) (replace_if_exists : bool) : WinM unit :=
  let! from := win_path file_name in
  let! to := win_path new_file_name in
  match RelPath.split from, RelPath.split to with
  | Some (from_parent, from_name), Some (to_parent, to_name) =>
      let! '(from_ino, _) := via (resolve from_parent) in
      let! '(to_ino, _) := via (resolve to_parent) in
      via (rename env renames_ok from_ino from_name to_ino to_name replace_if_exists)
  | _, _ => nt STATUS_ACCESS_DENIED
  end.

(** The mode that [file_attributes] asks for, when it asks for a change. *)
Definition new_mode_of (mode file_attributes : Z) : option Z :=
  if negb (bool_decide (file_attributes = 0)) && negb (bool_decide (file_attributes = INVALID_FILE_ATTRIBUTES)) then
    let new_mode := if has_any file_attributes FILE_ATTRIBUTE_READONLY then Z.ldiff mode 146 else Z.lor mode 128 in
    if bool_decide (new_mode = mode) then None else Some new_mode
  else None.

Definition win_set_basic_info (ctx : Ctx) (file_attributes last_write_time : Z) : WinM FileInfo :=
  let! cur := via (getattr env (fc_ino ctx)) in
  let mode := new_mode_of (a_mode cur) file_attributes in
  let mtime := if negb (bool_decide (last_write_time = 0)) && negb (bool_decide (last_write_time = U64_MAX))
               then Some (from_filetime last_write_time) else None in
  let! a := (match mode, mtime with
             | None, None => sret cur
             | _, _ => via (setattr env (fc_ino ctx) None mtime mode)
             end) in
  sret (fill_file_info (fc_ino ctx) a).

Definition win_set_delete (ctx : Ctx) (delete_file : bool) : WinM Ctx :=
  run! (if delete_file && fc_is_dir ctx then
          let! entries := via (readdir env fuel (fc_ino ctx)) in
          match entries with [] => sret tt | _ => nt STATUS_DIRECTORY_NOT_EMPTY end
        else sret tt) in
  sret (mkFileContext (fc_ino ctx) (fc_fh ctx) (fc_is_dir ctx) (fc_dir_buffer ctx) delete_file).

Definition win_set_file_size (ctx : Ctx) (new_size : Z) (set_allocation_size : bool) : WinM FileInfo :=
  let resize := via (setattr env (fc_ino ctx) (Some new_size) None None) in
  let! a := (if set_allocation_size then
               let! cur := via (getattr env (fc_ino ctx)) in
               if a_size cur <=? new_size then sret cur else resize
             else resize) in
  sret (fill_file_info (fc_ino ctx) a).

(** The buffer's room, then the bytes. *)
Definition reparse_reply (target : string) (room : Z) : WinM (list Z) :=
  let encoded := encode_symlink_reparse target in
  if room <? blen encoded then nt STATUS_BUFFER_TOO_SMALL else sret encoded.

Definition get_reparse_point (ctx : Ctx) (room : Z) : WinM (list Z) :=
  let! target := via (readlink env (fc_ino ctx)) in reparse_reply target room.

Definition get_reparse_point_by_name (file_name : list Z) (room : Z) : WinM (list Z) :=
  let! rel := win_path file_name in
  let! '(ino, a) := via (resolve rel) in
  if negb (bool_decide (a_kind a = KSymlink)) then nt STATUS_NOT_A_REPARSE_POINT
  else let! target := via (readlink env ino) in reparse_reply target room.

Definition set_reparse_point (file_name buffer : list Z) : WinM unit :=
  match decode_symlink_reparse buffer with
  | None => sfail (Halted Panicked)
  | Some None => nt STATUS_NOT_SUPPORTED
  | Some (Some target) =>
      let! rel := win_path file_name in
      match RelPath.split rel with
      | None => nt STATUS_OBJECT_NAME_INVALID
      | Some (parent_rel, name) =>
          let! '(parent_ino, _) := via (resolve parent_rel) in
          run! (λ c, match resolve rel c with
                     | (Ok (_, a), c) =>
                         if negb (bool_decide (a_size a = 0)) || bool_decide (a_kind a = KDir)
                         then (Err (Nt STATUS_NOT_SUPPORTED), c)
                         else via (unlink env parent_ino name) c
                     | (Err (Failed (Remote NotFound)), c) => (Ok tt, c)
                     | (Err (Failed e), c) => (Err (Nt (fsp_err e)), c)
                     | (Err h, c) => (Err (Halted h), c)
                     end) in
          run! via (symlink env upper parent_ino name target) in
          sret tt
      end
  end.

Definition delete_reparse_point : WinM unit := nt STATUS_NOT_SUPPORTED.

(** Total and free size. *)
Definition get_volume_info : WinM (Z * Z) :=
  let! '(block_size, blocks, blocks_free) := via statfs in
  sret (u64_mul block_size blocks, u64_mul block_size blocks_free).
(** The callbacks WinFsp makes, and what each answers. *)
Definition callback (call : WinCall) : WinM WinReply :=
  match call with
  | WGetSecurityByName name buffer => let! '(sec, bytes) := get_security_by_name name buffer in sret (WrSecurity sec bytes)
  | WGetSecurity _ buffer => let '(len, bytes) := get_security buffer in sret (WrDescriptor len bytes)
  | WOpen name access => let! '(ctx, info) := win_open name access in sret (WrContext ctx info)
  | WClose ctx => run! win_close ctx in sret WrDone
  | WCreate name options => let! '(ctx, info) := win_create name options in sret (WrContext ctx info)
  | WOverwrite ctx => let! info := win_overwrite ctx in sret (WrInfo info)
  | WCleanup ctx delete_flag => run! win_cleanup ctx delete_flag in sret WrDone
  | WFlush ctx => let! info := win_flush ctx in sret (match info with Some info => WrInfo info | None => WrDone end)
  | WGetFileInfo ctx => let! info := win_get_file_info ctx in sret (WrInfo info)
  | WRead ctx buffer_len offset => let! data := win_read ctx buffer_len offset in sret (WrBytes data)
  | WWrite ctx buffer offset eof constrained =>
      let! '(n, info) := win_write ctx buffer offset eof constrained in sret (WrWritten n info)
  | WReadDirectory ctx marker room =>
      let! '(ctx, outcome) := win_read_directory ctx marker room in sret (WrEntries ctx outcome)
  | WRename name new_name replace => run! win_rename name new_name replace in sret WrDone
  | WSetBasicInfo ctx attrs time => let! info := win_set_basic_info ctx attrs time in sret (WrInfo info)
  | WSetDelete ctx delete_file => let! ctx := win_set_delete ctx delete_file in sret (WrMarked ctx)
  | WSetFileSize ctx size alloc => let! info := win_set_file_size ctx size alloc in sret (WrInfo info)
  | WGetReparsePoint ctx room => let! bytes := get_reparse_point ctx room in sret (WrBytes bytes)
  | WGetReparsePointByName name room => let! bytes := get_reparse_point_by_name name room in sret (WrBytes bytes)
  | WSetReparsePoint name buffer => run! set_reparse_point name buffer in sret WrDone
  | WDeleteReparsePoint => run! delete_reparse_point in sret WrDone
  | WGetVolumeInfo => let! '(total, free) := get_volume_info in sret (WrVolume total free)
  end.
End WinFsp.

(** ** Conversions *)

Lemma swap_scalar c d cs : scalar d → Forall scalar cs → Forall scalar (swap_char c d cs).
Proof. intros Hd H. apply Forall_fmap. eapply Forall_impl; [exact H|]. intros x Hx. simpl. by destruct (x =? c). Qed.

Lemma swap_back c d cs : Forall (λ x, x ≠ d) cs → swap_char d c (swap_char c d cs) = cs.
Proof.
  unfold swap_char. induction 1 as [|x cs Hx _ IH]; [done|]. rw !fmap_cons IH. f_equal.
  destruct (Z.eqb_spec x c) as [->|Hc]; [by rw Z.eqb_refl|]. destruct (Z.eqb_spec x d); [done|done].
Qed.

Lemma scalar_SL : scalar SL. Proof. by left. Qed.
Lemma scalar_BS : scalar BS. Proof. by left. Qed.

Lemma utf16_units cs : Forall scalar cs → Forall is_u16 (utf16_encode cs).
Proof.
  induction 1 as [|c cs Hc _ IH]; [constructor|]. unfold utf16_encode in *. cbn [flat_map]. apply Forall_app_2; [|done].
  unfold scalar in Hc. unfold utf16_char. destruct (Z.ltb_spec c 65536); repeat (apply Forall_cons; split); try apply Forall_nil_2; try ints.
  - assert ((c - 65536) / 1024 < 1024) by (apply Z.div_lt_upper_bound; lia).
    assert (0 ≤ (c - 65536) / 1024) by (apply Z.div_pos; lia). ints.
  - pose proof (Z.mod_pos_bound (c - 65536) 1024 ltac:(lia)). ints.
Qed.

Lemma utf16_nonempty cs : cs ≠ [] → utf16_encode cs ≠ [].
Proof. destruct cs as [|c cs]; [done|]. intros _. unfold utf16_encode, utf16_char. cbn [flat_map]. by destruct (c <? 65536). Qed.

Lemma units_of_bytes us : Forall is_u16 us → units_of (flat_map (le_bytes 2) us) = us.
Proof.
  induction 1 as [|u us Hu _ IH]; [done|]. cbn [flat_map]. pose proof (le_value_2 u Hu) as H.
  assert (le_bytes 2 u = [u mod 256; u / 256 mod 256]) as E by done. rw E in H. rw E. cbn [app units_of]. by rw IH H.
Qed.

Lemma bytes_of_units us : length (flat_map (le_bytes 2) us) = (2 * length us)%nat.
Proof. induction us as [|u us IH]; [done|]. cbn [flat_map]. rw length_app IH le_bytes_length. simpl. lia. Qed.

Lemma strip_nt_plain cs : take 4 cs ≠ NT_PREFIX → strip_nt cs = cs.
Proof.
  intros H. unfold strip_nt, NT_PREFIX in *.
  destruct cs as [|[|p|p] [|[|q|q] [|[|r|r] [|[|s|s] cs]]]]; try done; repeat (case_match; try done).
Qed.

(** A symbolic link survives the trip through Windows.  The reparse buffer
    built for a target is parsed back to exactly that target, provided it is
    not empty, its text fits the 16-bit length fields, has no backslash (the
    wire speaks forward slashes) and does not begin with /??/. *)
Theorem reparse_roundtrip target cs :
  utf8_decode (as_bytes target) = Some cs → cs ≠ [] → BS ∉ cs → take 4 cs ≠ [SL; 63; 63; SL] →
  blen (utf16_encode (swap_char SL BS cs)) * 2 < 65536 →
  decode_symlink_reparse (encode_symlink_reparse target) = Some (Some target).
Proof.
  intros Ht Hne Hbs Hnt Hlen. destruct (from_chars_chars _ _ Ht) as (Hc & Hf & Hs).
  assert (Forall (λ x, x ≠ BS) cs) as Hbs' by (apply Forall_forall; by intros x Hx ->).
  unfold encode_symlink_reparse. rw Hc. set (w := utf16_encode (swap_char SL BS cs)) in *. set (nb := blen w * 2) in *.
  assert (Forall is_u16 w) as Hw by (apply utf16_units, swap_scalar; [apply scalar_BS|done]).
  assert (0 < nb < 65536) as Hnb.
  { split; [|done]. unfold nb, blen. assert (w ≠ []) as Hw0 by (apply utf16_nonempty; by destruct cs). destruct w; [done|]. simpl. lia. }
  assert (as_u16 nb = nb) as -> by (unfold as_u16; rw Z.mod_small //; lia).
  unfold decode_symlink_reparse, u32_at, u16_at, REPARSE_HEADER_LEN, SYMLINK_HEADER_LEN.
  rw bool_decide_false; last (rw !le_app_length; lia).
  field. cbn [mbind option_bind fmap option_fmap option_map]. rw le_value_4; [|done]. rw bool_decide_true //. cbn [negb].
  field. cbn [mbind option_bind fmap option_fmap option_map]. field. cbn [mbind option_bind fmap option_fmap option_map].
  rw !le_value_2; [|ints..]. rw bool_decide_false; [|lia]. rw bool_decide_true; [|unfold nb; by rw Z.mod_mul].
  cbn [negb orb]. rw bytes_from_Some; [|rw !le_app_length; lia].
  rw !app_assoc drop_app_length'; [|by rw !length_app !le_bytes_length]. cbn [mbind option_bind].
  rw Z.add_0_l flat_map_app (proj2 (Z.ltb_ge _ _)); [|unfold blen, nb; rw length_app !bytes_of_units; unfold blen; lia].
  assert (Z.to_nat nb = length (flat_map (le_bytes 2) w)) as -> by (rw bytes_of_units; unfold nb, blen; lia).
  rw bytes_at_hit //. cbn [mbind option_bind]. rw units_of_bytes // utf16_decode_encode; [|by apply swap_scalar; [apply scalar_BS|]].
  cbn [mbind option_bind]. rw strip_nt_plain; [by rw swap_back // Hf|].
  intros E. apply Hnt. unfold swap_char in E. rw -fmap_take in E. apply (f_equal (swap_char BS SL)) in E. fold (swap_char SL BS (take 4 cs)) in E.
  rw swap_back in E; [exact E|]. by apply Forall_take.
Qed.

Lemma reparse_roundtrip_witness :
  decode_symlink_reparse (encode_symlink_reparse "../lib/a.so") = Some (Some "../lib/a.so").
Proof.
  apply (reparse_roundtrip "../lib/a.so" (as_bytes "../lib/a.so")); try (vm_compute; reflexivity); try done.
  vm_compute. intros H. by repeat (apply list_elem_of_In in H; simpl in H; decompose [or] H).
Defined.

(** ** No bytes make the parser panic *)

(** An application can hand any bytes to FSCTL_SET_REPARSE_POINT: parsing them
    ends in a target or a refusal, never in an index out of range. *)
Lemma reparse_decodes buf : is_bytes buf → is_Some (decode_symlink_reparse buf).
Proof.
  intros Hb. unfold decode_symlink_reparse. case_bool_decide as Hl; [by eexists|]. unfold REPARSE_HEADER_LEN, SYMLINK_HEADER_LEN in *.
  assert (∀ off n, (off + n ≤ length buf)%nat → ∃ v, le_value <$> bytes_at buf off n = Some v ∧ 0 ≤ v) as Hat.
  { intros off n Hn. unfold bytes_at. rw bool_decide_true //. eexists. split; [reflexivity|].
    apply le_value_bound. by apply Forall_take, Forall_drop. }
  destruct (Hat 0%nat 4%nat ltac:(lia)) as (tag & Ht & _). unfold u32_at, u16_at. rw Ht. cbn [mbind option_bind].
  case_bool_decide; cbn [negb]; [|by eexists].
  destruct (Hat 8%nat 2%nat ltac:(lia)) as (so & Hso & Hso0). rw Hso. cbn [mbind option_bind].
  destruct (Hat 10%nat 2%nat ltac:(lia)) as (sl & Hsl & Hsl0). rw Hsl. cbn [mbind option_bind].
  destruct (_ || _); [by eexists|]. rw bytes_from_Some; [|lia]. cbn [mbind option_bind].
  destruct (Z.ltb_spec (blen (drop (8 + 12) buf)) (so + sl)); [by eexists|].
  unfold bytes_at. rw bool_decide_true; [by eexists|]. unfold blen in *. lia.
Qed.

(** ** Paths *)

Lemma ascii_byte_in c cs : 0 ≤ c < 128 → c ∈ cs → c ∈ utf8_encode cs.
Proof.
  intros Hc. induction cs as [|x cs IH]; [by intros ?%not_elem_of_nil|]. unfold utf8_encode in *. cbn [flat_map].
  intros [<-|H]%elem_of_cons; apply elem_of_app; [left|right; by apply IH]. unfold utf8_char. rw (proj2 (Z.ltb_lt _ _)); [set_solver|lia].
Qed.

Lemma byte_in_string (a : ascii) s : Z.of_N (N_of_ascii a) ∈ as_bytes s → contains_char a s = true.
Proof.
  induction s as [|b s IH]; [by intros ?%not_elem_of_nil|]. cbn [as_bytes contains_char]. intros [E|H]%elem_of_cons.
  - apply N2Z.inj, (f_equal ascii_of_N) in E. rw !ascii_N_embedding in E. by rw bool_decide_true.
  - by rw IH // orb_true_r.
Qed.

Lemma drop_slashes_other c cs : c ≠ SL → drop_slashes (c :: cs) = c :: cs.
Proof. intros H. cbn [drop_slashes]. by rw (proj2 (Z.eqb_neq _ _)). Qed.

(** A valid path neither begins nor ends with a slash. *)
Lemma valid_ends p cs : RelPath.validate p = Ok tt → utf8_decode (as_bytes p) = Some cs →
  BS ∉ cs ∧ (cs = [] ∨ (∃ c cs', cs = c :: cs' ∧ c ≠ SL) ∧ (∃ c cs', cs = cs' ++ [c] ∧ c ≠ SL)).
Proof.
  intros Hv Hd. destruct (utf8_encode_decode _ _ Hd) as [He Hs]. destruct (decide (p = "")) as [->|Hp].
  { injection Hd as <-. split; [set_solver|by left]. }
  apply validate_nonroot in Hv; [|done]. split.
  - intros Hb. apply (ascii_byte_in BS) in Hb; [|done]. rw He in Hb. apply (byte_in_string backslash) in Hb.
    rw -(join_split slash p) contains_backslash_join in Hb. apply existsb_exists in Hb as (x & Hx%list_elem_of_In & Hbx).
    eapply Forall_forall in Hv as (_ & _ & _ & _ & Hno); [|exact Hx]. congruence.
  - right. split.
    + destruct cs as [|c cs]; [by destruct p|]. exists c, cs. split; [done|]. intros ->. unfold utf8_encode in He. cbn in He.
      destruct p as [|a p]; [done|]. cbn in He. injection He as Ha _.
      assert (a = slash) as ->.
      { change SL with (Z.of_N (N_of_ascii slash)) in Ha. symmetry in Ha. apply N2Z.inj, (f_equal ascii_of_N) in Ha. by rw !ascii_N_embedding in Ha. }
      rw split_on_sep in Hv. apply Forall_cons in Hv as [(H & _) _]. done.
    + destruct cs as [|c cs _] using rev_ind; [by destruct p|]. exists c, cs. split; [done|]. intros ->.
      assert (p = text_of (utf8_encode cs) +:+ "/") as ->.
      { rw -(text_of_as_bytes p) -He. unfold utf8_encode. rw flat_map_app. generalize (flat_map utf8_char cs). intros l.
        induction l as [|b l IH]; [done|]. cbn [app text_of foldr]. unfold text_of in IH. by rw IH. }
      change ("/") with (String slash "") in Hv. rw split_on_app_sep in Hv. apply Forall_app in Hv as [_ Hv].
      apply Forall_cons in Hv as [(H & _) _]. done.
Qed.

(** The path of a notification is the path of the event: the name sent to
    Windows for a change names, when an application opens it, exactly the file
    that changed. *)
Theorem notify_name_roundtrip p : RelPath.validate p = Ok tt → utf8_valid p = true → rel_path (notify_name p) = Some p.
Proof.
  intros Hv [cs Hd]%valid_decodes. destruct (from_chars_chars _ _ Hd) as (Hc & Hf & Hs). destruct (valid_ends p cs Hv Hd) as [Hbs Hends].
  unfold rel_path, notify_name. rw Hc utf16_decode_encode; [|constructor; [apply scalar_BS|by apply swap_scalar; [apply scalar_BS|]]].
  cbn [mbind option_bind]. assert (swap_char BS SL (BS :: swap_char SL BS cs) = SL :: cs) as ->.
  { unfold swap_char. rw fmap_cons. f_equal. apply swap_back. apply Forall_forall. by intros x Hx ->. }
  do 2 f_equal. rw -Hf. f_equal. unfold trim_slashes. cbn [drop_slashes]. rw Z.eqb_refl.
  destruct Hends as [->|[(c & cs' & -> & Hc1) (c2 & cs2 & E & Hc2)]]; [done|].
  rw drop_slashes_other // E reverse_snoc drop_slashes_other // reverse_cons reverse_involutive. done.
Qed.

(** ** Times *)

(** Times do not drift.  A time the server gave comes back from Windows as
    itself, rounded down to 100 ns, and a FILETIME from 1970 on is what it was
    after the trip through the server's clock (for times of the next 290
    years). *)
Theorem filetime_roundtrip t ft :
  (0 ≤ t < 2^63 → from_filetime (to_filetime t) = t / 100 * 100) ∧
  (FILETIME_UNIX_DIFF_SECS * 10000000 ≤ ft < FILETIME_UNIX_DIFF_SECS * 10000000 + 2^63 / 100 → to_filetime (from_filetime ft) = ft).
Proof.
  unfold from_filetime, to_filetime, u64_add, u64_mul, FILETIME_UNIX_DIFF_SECS, SECOND. split.
  - intros Ht. rw (Z.max_r 0 t); [|lia].
    pose proof (Z.div_mod t 1000000000 ltac:(lia)). pose proof (Z.mod_pos_bound t 1000000000 ltac:(lia)).
    set (q := t / 1000000000) in *. set (r := t mod 1000000000) in *.
    pose proof (Z.div_mod r 100 ltac:(lia)). pose proof (Z.mod_pos_bound r 100 ltac:(lia)). set (h := r / 100) in *.
    change (2^63) with 9223372036854775808 in *. change (2^64) with 18446744073709551616. change U64_MAX with 18446744073709551615.
    rw (Z.mod_small (q + 11644473600)); [|lia]. rw (Z.mod_small ((q + 11644473600) * 10000000)); [|lia].
    rw (Z.mod_small (_ + h)); [|lia]. rw Z.max_r; [|lia]. rw Z.min_l; [|lia].
    rw -(Z.div_unique t 100 (q * 10000000 + h) (r mod 100)); lia.
  - intros Hf. change (2^63 / 100) with 92233720368547758 in *. change (2^64) with 18446744073709551616.
    change U64_MAX with 18446744073709551615. rw (Z.max_r 0 (ft - _)); [|lia]. rw Z.min_l; [|lia]. rw Z.max_r; [|lia].
    set (u := ft - 11644473600 * 10000000) in *.
    pose proof (Z.div_mod u 10000000 ltac:(lia)). pose proof (Z.mod_pos_bound u 10000000 ltac:(lia)).
    assert (u * 100 / 1000000000 = u / 10000000) as -> by (symmetry; apply (Z.div_unique _ _ _ (u mod 10000000 * 100)); lia).
    assert (u * 100 mod 1000000000 = u mod 10000000 * 100) as -> by (symmetry; apply (Z.mod_unique _ _ (u / 10000000)); lia).
    rw Z.div_mul //. rw (Z.mod_small (u / 10000000 + _)); [|lia]. rw (Z.mod_small ((u / 10000000 + _) * _)); [|lia].
    rw Z.mod_small; lia.
Qed.

(** What Windows is told about a renamed file is both names, in the form they
    are opened by. *)
Example notify_rename : notify [mkFsEvent 1 (RenamedFrom "b/c") "a" None None] =
  [mkNotifyInfo FILE_ACTION_RENAMED_OLD_NAME NAME_BOTH (BS :: as_bytes "a");
   mkNotifyInfo FILE_ACTION_RENAMED_NEW_NAME NAME_BOTH (as_bytes "\b\c")].
Proof. reflexivity. Qed.
