(* ===== verification/WinFacts.v ===== *)
(** * WinFacts: what the Windows adapter guarantees

    Theorems about the callbacks of [WinFsp]: every callback keeps the client
    well-typed and answers with a result or an error status, never with more
    bytes than there is room for; a paging write never grows a file.  Then
    concrete runs against the agent that show where the adapter loses data or
    stays silent. *)

From S2P Require Import Prelude Text Messages Common Exclude Locks EventHub Inode ReadAhead AutoCache KernelAbi Fs Agent AgentFacts Transport Overlay Symlink RemoteFs RemoteFacts EndToEnd Fuse WinFsp.

(** ** A read has no more bytes than were asked for *)

Lemma read_fully_bound answers content len off buf bs :
  (length buf ≤ len)%nat → read_fully answers content len off buf = Some (Ok bs) → (length bs ≤ len)%nat.
Proof.
  revert buf. induction answers as [|ans answers IH]; intros buf Hb; cbn [read_fully]; case_bool_decide; try (by intros [= <-]).
  destruct ans as [n|e]; cbn [read_at]; [|case_bool_decide; [by apply IH|done]].
  destruct (slice _ _ _) as [|b bs'] eqn:Hs; [by intros [= <-]|]. apply IH. rw -Hs length_app.
  unfold slice. rw length_take. lia.
Qed.

Lemma cut_bound assembled skip size : 0 ≤ size → blen (cut assembled skip size) ≤ size.
Proof. intros Hs. unfold cut, blen in *. case_match; [done|]. rw length_take length_drop. lia. Qed.

Lemma read_network_bound fetch ra offset size : 0 ≤ size →
  match (read_network fetch ra offset size).1 with Ok d => blen d ≤ size | Err _ => True end.
Proof.
  intros Hs. unfold read_network. destruct (observe _ _ _) as [pf ra1]. destruct (collect _ _ _ _) as [[ra2 ready] need].
  destruct (fetch_need _ _ _); [|done]. destruct (assemble _ _); [|done]. by apply cut_bound.
Qed.

Section Answers.
Context {N : Type} `{NET : Net N} {ov : option (RelPath → bool)} {NI : N → Prop} {NS : NetSafe NET ov NI}.
Context {B : Type} `{DB : DirBuffer B}.
Context (env : Env) (upper : string → string) (renames_ok : list string → list string → bool) (fuel : nat) (descriptor : list Z).
#[local] Abbreviation C := (Client N).
#[local] Abbreviation wf := (wf (ov := ov) (NI := NI) upper).
#[local] Abbreviation ok := (ok (ov := ov) (NI := NI) upper).
#[local] Abbreviation fh_ok := (fh_ok (ov := ov)).
#[local] Abbreviation WinM := (M (Client N) WinHalt).
#[local] Abbreviation Ctx := (FileContext B).

(** *** A step at one state *)

Definition gives {S E A} (m : M S E A) (s : S) (Q : A → Prop) : Prop :=
  match (m s).1 with Ok a => Q a | Err _ => True end.

Lemma gives_bind {S E A D} (m : M S E A) (k : A → M S E D) s Q :
  (∀ a s', m s = (Ok a, s') → gives (k a) s' Q) → gives (sbind m k) s Q.
Proof. intros H. unfold gives, sbind in *. destruct (m s) as [[a|e] s']; [by apply H|done]. Qed.

Lemma open_after_hit fh offset size hit (c c' : C) : cached_read fh offset size c = (Ok hit, c') →
  is_Some (cl_open c !! fh) → is_Some (cl_open c' !! fh).
Proof.
  unfold cached_read, sbind, sget, smod, sret. intros H [s Hs]. rw Hs in H.
  repeat (case_match; simplify_eq/=; eauto). unfold upd_open. cbn. rw lookup_alter_eq Hs. eauto.
Qed.

Lemma read_bounded fh offset size c : 0 ≤ size → fh_known fh c →
  gives (read env fh offset size) c (λ d, blen d ≤ size).
Proof.
  intros Hs Hk. unfold read, fh_known in *. destruct (overlay_fh fh).
  - unfold gives, overlay_do. destruct Hk as (o & -> & h & Hh). unfold Overlay.read, sbind, Overlay.handle, sget.
    cbn. rw Hh. cbn. destruct (read_fully _ _ _ _ _) as [[bs|e]|] eqn:Hr; try done. cbn.
    apply read_fully_bound in Hr; [|simpl; lia]. unfold blen. lia.
  - apply gives_bind. intros u c1 H1. assert (c1 = c) as ->.
    { unfold check_poisoned, sbind, sget, sret, RemoteFs.fail, sfail in H1. cbn in H1. repeat (case_match; simplify_eq/=; try done). }
    apply gives_bind. intros hit c2 H2. pose proof (open_after_hit _ _ _ _ _ _ H2 Hk) as [s2 Hs2]. destruct hit as [d|].
    + unfold cached_read, sbind, sget, smod, sret in H2. unfold gives. cbn.
      repeat (case_match; simplify_eq/=). unfold cache_read in *. destruct (disk _ !! _); simplify_eq/=.
      unfold blen, slice. rw length_take. lia.
    + unfold gives, sbind, sget. rw Hs2. pose proof (read_network_bound (fetch_block (net_conn (cl_net c2)) (os_server_fh s2) (cl_net c2)) (os_ra s2) offset size Hs) as H.
      destruct (read_network _ _ _ _) as [[d|e] ra]; done.
Qed.
Lemma write_count fh offset data c : gives (write env fuel fh offset data) c (λ n, n = as_u32 (blen data)).
Proof.
  unfold write. destruct (overlay_fh fh).
  - unfold gives, overlay_do. destruct (cl_overlay c) as [o|]; [|done]. unfold Overlay.write, sbind, sget.
    destruct (Overlay.handle _ _) as [[h|e] s]; [|done]. destruct (_ && _); [done|].
    destruct (write_fully _ _ _ _ _) as [[r bs]|]; [|done]. case_bool_decide; cbn; destruct (or_code r); done.
  - do 3 (apply gives_bind; intros ???). by apply gives_bind.
Qed.

(** ** Callbacks *)

(** A failure: an error status, or waiting. *)
Definition stops_ok (e : WinHalt) : Prop := match e with Nt s => s ≠ 0 | Halted h => h = Waits end.

(** A callback that keeps the client well-typed and answers: with a result that
    satisfies [Q] or an error status, unless it waits. *)
Definition okw {A} (m : WinM A) (Q : A → Prop) : Prop :=
  ∀ c, wf c → wf (m c).2 ∧
    match (m c).1 with Ok a => Q a | Err e => stops_ok e end.

Lemma fsp_err_nonzero e : fsp_err e ≠ 0.
Proof. by destruct e as [[]|]. Qed.

Lemma okw_via {A} (m : M C Halt A) R : ok m R → okw (via m) R.
Proof.
  intros Hm c Hc. destruct (Hm c Hc) as [H1 H2]. unfold via. destruct (m c) as [[a|[e| |]] c']; simpl in *; try done.
  split; [done|]. apply fsp_err_nonzero.
Qed.

Lemma okw_bind {A D} (m : WinM A) (f : A → WinM D) R Q : okw m R → (∀ a, R a → okw (f a) Q) → okw (sbind m f) Q.
Proof.
  intros Hm Hf c Hc. unfold sbind. specialize (Hm c Hc). destruct (m c) as [[a|e] c']; simpl in *; [|done].
  destruct Hm. by apply Hf.
Qed.
Lemma okw_ret {A} (a : A) (Q : A → Prop) : Q a → okw (sret a) Q.
Proof. by intros ? c ?. Qed.
Lemma okw_nt {A} s (Q : A → Prop) : s ≠ 0 → okw (nt s) Q.
Proof. by intros ? c ?. Qed.
Lemma okw_get : okw sget wf.
Proof. by intros c ?. Qed.
Lemma okw_mod f : (∀ c, wf c → wf (f c)) → okw (smod f) any.
Proof. intros Hf c Hc. split; [by apply Hf|done]. Qed.
Lemma okw_path name : okw (win_path name) any.
Proof. unfold win_path. destruct (rel_path name); by intros c ?. Qed.
Lemma okw_weaken {A} (m : WinM A) (R Q : A → Prop) : okw m R → (∀ a, R a → Q a) → okw m Q.
Proof. intros Hm HQ c Hc. destruct (Hm c Hc) as [Hw H]. split; [done|]. destruct (m c).1; auto. Qed.

Lemma ok_resolve path : ok (resolve env path) any.
Proof.
  intros c Hc. unfold resolve. destruct (Inode.ino_of _ _) as [i|].
  - destruct (ok_getattr env upper i _ (wf_set_ino upper (cl_ino c) c Hc)) as [H1 H2].
    destruct (getattr _ _ _) as [[a|[]] c']; done.
  - destruct (get_or_alloc _ _) as [i t]. destruct (ok_getattr env upper i _ (wf_set_ino upper t c Hc)) as [H1 H2].
    destruct (getattr _ _ _) as [[a|[]] c']; try done. split; [by apply wf_set_ino|done].
Qed.

(** Errors that are swallowed or turned into other answers. *)
Lemma okw_caught {A D} (m : M C Halt A) R (f : A → WinM D) (g : FsError → WinM D) Q :
  ok m R → (∀ a, R a → okw (f a) Q) → (∀ e, okw (g e) Q) →
  okw (λ c, match m c with
            | (Ok a, c) => f a c
            | (Err (Failed e), c) => g e c
            | (Err h, c) => (Err (Halted h), c)
            end) Q.
Proof.
  intros Hm Hf Hg c Hc. destruct (Hm c Hc) as [H1 H2]. destruct (m c) as [[a|[e| |]] c']; simpl in *; try done; auto.
  - by apply Hf.
  - by apply Hg.
Qed.
(** ** Every callback answers *)

(** A context whose data handle is an overlay one only if there is an overlay. *)
Definition ctx_ok (ctx : Ctx) : Prop := ∀ fh, fc_fh ctx = Some fh → fh_ok fh.

(** The context of a callback. *)
Definition call_ctx (call : WinCall B) : option Ctx :=
  match call with
  | WGetSecurity ctx _ | WClose ctx | WOverwrite ctx | WCleanup ctx _ | WFlush (Some ctx) | WGetFileInfo ctx | WRead ctx _ _ | WWrite ctx _ _ _ _
  | WReadDirectory ctx _ _ | WSetBasicInfo ctx _ _ | WSetDelete ctx _ | WSetFileSize ctx _ _ | WGetReparsePoint ctx _ => Some ctx
  | _ => None
  end.

(** What WinFsp calls with: contexts it was given, a read buffer with a handle
    that is open, bytes. *)
Definition win_typed (call : WinCall B) (c : C) : Prop :=
  (∀ ctx, call_ctx call = Some ctx → ctx_ok ctx) ∧
  match call with
  | WRead ctx buffer_len _ => 0 ≤ buffer_len ∧ ∀ fh, fc_fh ctx = Some fh → fh_known fh c
  | WSetReparsePoint _ buffer => is_bytes buffer
  | _ => True
  end.

(** A usable answer: contexts are well-typed, no more bytes than there is room
    for are handed out, no more bytes than were given are written, and a paging
    write ends within the file. *)
Definition answer_ok (call : WinCall B) (r : WinReply B) : Prop :=
  match r, call with
  | (WrContext ctx _ | WrMarked ctx), _ => ctx_ok ctx
  | WrEntries ctx outcome, _ => ctx_ok ctx ∧ match outcome with Ok _ => True | Err e => stops_ok e end
  | WrBytes d, (WRead _ room _ | WGetReparsePoint _ room | WGetReparsePointByName _ room) => blen d ≤ room
  | WrSecurity _ (Some bytes), WGetSecurityByName _ (Some room) => blen bytes ≤ room
  | WrDescriptor _ (Some bytes), WGetSecurity _ (Some room) => blen bytes ≤ room
  | WrWritten n info, WWrite _ buffer offset eof constrained =>
      n ≤ blen buffer ∧ (eof = false → constrained = true → n = 0 ∨ offset + n ≤ fi_file_size info)
  | _, _ => True
  end.

Ltac client_step :=
  first [apply ok_resolve | apply ok_getattr | apply ok_setattr | apply ok_readdir | apply ok_mkdir | apply ok_remove
        | apply ok_rename | apply ok_symlink | apply ok_readlink | apply ok_statfs | apply ok_invalidate_attr
        | apply ok_open | apply ok_create | apply ok_flush; by auto | apply ok_release; by auto].
Ltac okw_step :=
  lazymatch goal with
  | |- okw (sbind ?m _) _ => eapply okw_bind; [okw_step|intros ? ?; cbv beta]
  | |- okw (via _) _ => eapply okw_via; client_step
  | |- okw (win_path _) _ => apply okw_path
  | |- okw (nt _) _ => apply okw_nt; done
  | |- okw (sret _) _ => apply (okw_ret _ any); done
  | |- okw (match ?x with _ => _ end) _ => destruct x
  | |- okw (if ?x then _ else _) _ => destruct x
  end.

Lemma okw_open name access : okw (win_open env name access) (λ x, ctx_ok x.1).
Proof.
  unfold win_open. okw_step. eapply okw_bind; [okw_step|]. intros [ino attr] _. eapply (okw_bind _ _ (λ x, ∀ fh, x.1 = Some fh → fh_ok fh)).
  - destruct (_ && _); [|by apply okw_ret]. eapply okw_bind; [apply okw_via, ok_open|]. intros [h a'] Hh. apply okw_ret. by intros fh [= <-].
  - intros [fh a'] Hfh. apply okw_ret. by intros fh' Hf; apply Hfh.
Qed.
Lemma okw_create name options : okw (win_create env name options) (λ x, ctx_ok x.1).
Proof.
  unfold win_create. okw_step. destruct (RelPath.split a) as [[parent leaf]|]; [|okw_step].
  eapply okw_bind; [okw_step|]. intros [pino pattr] _. destruct (negb _); [okw_step|]. destruct (has_any _ _).
  - eapply okw_bind; [okw_step|]. intros [ino attr] _. by apply okw_ret.
  - eapply okw_bind; [okw_step|]. intros [[ino fh] attr] Hfh. apply okw_ret. by intros fh' [= <-].
Qed.

Lemma okw_cleanup (ctx : Ctx) delete_flag : okw (win_cleanup env ctx delete_flag) any.
Proof.
  unfold win_cleanup. destruct (negb _); [okw_step|]. eapply okw_bind; [apply okw_get|]. intros c0 _.
  destruct (Inode.path_of _ _) as [path|]; [|okw_step]. destruct (RelPath.split path) as [[parent leaf]|]; [|okw_step].
  case_match. eapply okw_bind; [apply okw_mod; intros; by apply wf_set_ino|]. intros _ _. eapply (okw_bind _ _ any).
  - destruct (fc_is_dir ctx); (eapply okw_caught; [apply ok_remove|intros; by apply okw_ret|intros; by apply okw_ret]).
  - intros [] _; [|okw_step]. apply okw_mod. intros. by apply wf_set_ino.
Qed.

Lemma as_u32_le x : 0 ≤ x → as_u32 x ≤ x.
Proof. intros. by apply Z.mod_le. Qed.

Lemma ok_write_count fh offset data : fh_ok fh → ok (write env fuel fh offset data) (λ n, n = as_u32 (blen data)).
Proof.
  intros Hfh c Hc. destruct (ok_write env upper fuel fh offset data Hfh c Hc) as [H1 H2]. split; [done|].
  pose proof (write_count fh offset data c) as H. unfold gives in H. by destruct (write _ _ _ _ _ c).1.
Qed.

Lemma okw_write (ctx : Ctx) buffer offset eof constrained : ctx_ok ctx →
  okw (win_write env fuel ctx buffer offset eof constrained)
    (λ x, x.1 ≤ blen buffer ∧ (eof = false → constrained = true → x.1 = 0 ∨ offset + x.1 ≤ fi_file_size x.2)).
Proof.
  intros Hctx. unfold win_write, ctx_ok in *. destruct (fc_fh ctx) as [fh|]; [|unfold no_handle; destruct (fc_is_dir ctx); okw_step].
  specialize (Hctx fh eq_refl). eapply okw_bind; [okw_step|]. intros attr _. cbv zeta.
  assert (∀ off data Q, (∀ new, a_size attr ≤ a_size new → Q (as_u32 (blen data), fill_file_info (fc_ino ctx) new)) →
    okw (let! n := via (write env fuel fh off data) in
         run! via (invalidate_attr (fc_ino ctx)) in
         sret (n, fill_file_info (fc_ino ctx) (mkAttr (a_kind attr) (Z.max (a_size attr) (u64_add off n)) (a_mtime attr)
                 (a_ctime attr) (a_mode attr) (a_version attr)))) Q) as Hgo.
  { intros off data Q HQ. eapply okw_bind; [by apply okw_via, ok_write_count|]. intros n ->. okw_step.
    apply okw_ret, HQ. cbn. lia. }
  pose proof (as_u32_le (blen buffer)) as Hb. unfold blen in *.
  destruct eof; [|destruct constrained].
  - apply Hgo. intros new _. split; [simpl; lia|done].
  - destruct (Z.leb_spec (a_size attr) offset).
    + apply okw_ret. split; [simpl; lia|by left].
    + apply Hgo. intros new Hnew. cbn [fst snd fi_file_size fill_file_info]. rw length_take. pose proof (as_u32_le (Z.of_nat (Nat.min (Z.to_nat (Z.of_nat (length buffer) `min` (a_size attr - offset))) (length buffer)))).
      split; [lia|]. intros _ _. right. lia.
  - apply Hgo. intros new _. split; [simpl; lia|done].
Qed.

(** *** Filling the directory buffer *)

Definition okl {A} (m : M (C * B) WinHalt A) : Prop :=
  ∀ c b, wf c → wf (m (c, b)).2.1 ∧ match (m (c, b)).1 with Ok _ => True | Err e => stops_ok e end.

Lemma okl_bind {A D} (m : M (C * B) WinHalt A) (f : A → M (C * B) WinHalt D) : okl m → (∀ a, okl (f a)) → okl (sbind m f).
Proof.
  intros Hm Hf c b Hc. unfold sbind. specialize (Hm c b Hc). destruct (m (c, b)) as [[a|e] [c' b']]; simpl in *; [|done].
  destruct Hm. by apply Hf.
Qed.
Lemma okl_ret {A} (a : A) : okl (sret a).
Proof. done. Qed.
Lemma okl_on_client {A} (m : WinM A) R : okw m R → okl (on_client m).
Proof. intros Hm c b Hc. specialize (Hm c Hc). unfold on_client. destruct (m c) as [[] c']; [|done]. by destruct Hm. Qed.
Lemma okl_entry name ino a : okl (write_dir_entry name ino a).
Proof.
  intros c b Hc. unfold write_dir_entry. case_match; [done|]. destruct (db_write _ _) eqn:E; [done|]. split; [done|].
  by eapply db_write_fails.
Qed.
Lemma okl_entries es : okl (write_entries es).
Proof. induction es as [|[[name ino] a] es IH]; [done|]. cbn [write_entries]. apply okl_bind; [apply okl_entry|done]. Qed.
Lemma okl_parent parent : okl (write_parent_entry env parent).
Proof.
  intros c b Hc. unfold write_parent_entry. destruct (ok_resolve parent c Hc) as [H1 H2].
  destruct (resolve env parent c) as [[[]|[]] c']; try done. by apply okl_entry.
Qed.

Lemma okl_fill ino : okl (fill_dir_buffer env fuel ino).
Proof.
  unfold fill_dir_buffer. apply okl_bind; [done|]. intros [c0 b0]. apply okl_bind; [by destruct (Inode.path_of _ _)|]. intros path.
  apply okl_bind.
  - destruct (RelPath.split path) as [[parent leaf]|]; [|apply okl_ret].
    apply okl_bind; [eapply okl_on_client, okw_via, ok_getattr|]. intros a. apply okl_bind; [apply okl_entry|]. intros _. apply okl_parent.
  - intros _. apply okl_bind; [eapply okl_on_client, okw_via, ok_readdir|]. intros es. apply okl_entries.
Qed.

Lemma okw_read_directory (ctx : Ctx) marker room : ctx_ok ctx →
  okw (win_read_directory env fuel ctx marker room) (λ x, answer_ok (WReadDirectory ctx marker room) (WrEntries x.1 x.2)).
Proof.
  intros Hctx c Hc. unfold win_read_directory. destruct (db_acquire _ _) as [b| |status]; [|done|by case_bool_decide].
  destruct (okl_fill (fc_ino ctx) c b Hc) as [H1 H2]. by destruct (fill_dir_buffer _ _ _ _) as [[] [c' b']].
Qed.

Lemma okw_set_reparse name buffer : is_bytes buffer → okw (set_reparse_point env upper name buffer) any.
Proof.
  intros [[target|] Ht]%reparse_decodes; unfold set_reparse_point; rw Ht; [|okw_step].
  okw_step. destruct (RelPath.split a) as [[parent leaf]|]; [|okw_step]. eapply okw_bind; [okw_step|]. intros [pino pattr] _.
  eapply (okw_bind _ _ any); [|intros ? _; okw_step; okw_step]. intros c Hc. destruct (ok_resolve a c Hc) as [H1 H2].
  destruct (resolve env a c) as [[[ino attr]|[e| |]] c']; try done.
  - destruct (_ || _); [done|]. by apply (okw_via _ any); [apply ok_remove|].
  - by destruct e as [[]|].
Qed.

Lemma okw_set_delete (ctx : Ctx) delete_file : ctx_ok ctx → okw (win_set_delete env fuel ctx delete_file) ctx_ok.
Proof.
  intros Hctx. unfold win_set_delete. eapply (okw_bind _ _ any); [|intros ? _; by apply okw_ret].
  destruct (_ && _); [|okw_step]. okw_step. destruct a; okw_step.
Qed.

Lemma okw_reparse_reply target room : okw (reparse_reply target room) (λ d, blen d ≤ room).
Proof. unfold reparse_reply. destruct (Z.ltb_spec room (blen (encode_symlink_reparse target))); [okw_step|by apply okw_ret]. Qed.
(** All but [read], whose bound needs the state it starts in. *)
Lemma callback_ok call c : win_typed call c → (∀ ctx n off, call ≠ WRead ctx n off) →
  okw (callback env upper renames_ok fuel descriptor call) (answer_ok call).
Proof.
  intros [Hctx Ht] Hr. destruct call as [name buffer|ctx buffer| | ctx | |ctx|ctx| [ctx|] |ctx|ctx n off| | ctx| | | | |ctx room|name room| | |];
    cbn [callback call_ctx] in *; try specialize (Hctx _ eq_refl).
  - eapply (okw_bind _ _ (λ x, answer_ok (WGetSecurityByName name buffer) (WrSecurity x.1 x.2))); [|intros [sec bytes] H; by apply okw_ret].
    unfold get_security_by_name. okw_step. eapply okw_bind; [okw_step|]. intros [ino attr] _. apply okw_ret.
    cbn. destruct buffer as [room|]; cbn; [|done]. by destruct (Z.leb_spec (blen descriptor) room).
  - apply okw_ret. destruct buffer as [room|]; cbn; [|done]. by destruct (Z.leb_spec (blen descriptor) room).
  - eapply okw_bind; [apply okw_open|]. intros [ctx info] H. by apply okw_ret.
  - eapply (okw_bind _ _ any); [|intros; by apply okw_ret]. unfold win_close, ctx_ok in *. destruct (fc_fh ctx) as [fh|]; okw_step.
  - eapply okw_bind; [apply okw_create|]. intros [ctx info] H. by apply okw_ret.
  - eapply (okw_bind _ _ any); [unfold win_overwrite; do 2 okw_step|intros; by apply okw_ret].
  - eapply okw_bind; [apply okw_cleanup|intros; by apply okw_ret].
  - eapply (okw_bind _ _ any); [|intros [] ?; by apply okw_ret]. unfold win_flush, ctx_ok in *.
    eapply (okw_bind _ _ any); [destruct (fc_fh ctx) as [fh|]; okw_step|intros ? _; do 2 okw_step].
  - by apply okw_ret.
  - eapply (okw_bind _ _ any); [unfold win_get_file_info; do 2 okw_step|intros; by apply okw_ret].
  - by destruct (Hr ctx n off).
  - eapply okw_bind; [by apply okw_write|]. intros [n info] H. by apply okw_ret.
  - eapply okw_bind; [by apply okw_read_directory|]. intros [ctx' es] H. by apply okw_ret.
  - eapply (okw_bind _ _ any); [|intros; by apply okw_ret]. unfold win_rename. do 2 okw_step.
    destruct (RelPath.split _) as [[]|]; [|okw_step]. destruct (RelPath.split _) as [[]|]; [|okw_step].
    eapply okw_bind; [okw_step|]. intros [i1 ?] _. eapply okw_bind; [okw_step|]. intros [i2 ?] _. okw_step.
  - eapply (okw_bind _ _ any); [|intros; by apply okw_ret]. unfold win_set_basic_info. okw_step.
    eapply (okw_bind _ _ any); [|intros; okw_step]. case_match; [okw_step|]. case_match; okw_step.
  - eapply okw_bind; [by apply okw_set_delete|]. intros ctx' H. by apply okw_ret.
  - eapply (okw_bind _ _ any); [|intros; by apply okw_ret]. unfold win_set_file_size.
    eapply (okw_bind _ _ any); [|intros; okw_step]. destruct alloc; [|okw_step]. okw_step. case_match; okw_step.
  - eapply (okw_bind _ _ (λ d, blen d ≤ room)); [|intros; by apply okw_ret]. unfold get_reparse_point. okw_step. apply okw_reparse_reply.
  - eapply (okw_bind _ _ (λ d, blen d ≤ room)); [|intros; by apply okw_ret]. unfold get_reparse_point_by_name. okw_step.
    eapply okw_bind; [okw_step|]. intros [ino attr] _. destruct (negb _); [okw_step|]. okw_step. apply okw_reparse_reply.
  - eapply okw_bind; [by apply okw_set_reparse|intros; by apply okw_ret].
  - unfold delete_reparse_point. eapply (okw_bind _ _ any); [okw_step|intros; by apply okw_ret].
  - eapply (okw_bind _ _ any); [|intros [] _; by apply okw_ret]. unfold get_volume_info.
    eapply okw_bind; [okw_step|]. intros [[]] _. okw_step.
Qed.
Lemma read_ok (ctx : Ctx) buffer_len offset c : wf c → ctx_ok ctx → 0 ≤ buffer_len → (∀ fh, fc_fh ctx = Some fh → fh_known fh c) →
  wf (win_read env ctx buffer_len offset c).2 ∧
  match (win_read env ctx buffer_len offset c).1 with
  | Ok d => blen d ≤ buffer_len | Err e => stops_ok e
  end.
Proof.
  intros Hc Hctx Hn Hk. unfold win_read, ctx_ok in *. destruct (fc_fh ctx) as [fh|]; [|unfold no_handle; by destruct (fc_is_dir ctx)].
  assert (0 ≤ as_u32 buffer_len ≤ buffer_len) as [Hu0 Hu] by (split; [by apply Z.mod_pos_bound|by apply as_u32_le]).
  pose proof (read_bounded fh offset (as_u32 buffer_len) c Hu0 (Hk fh eq_refl)) as Hb. unfold gives in Hb.
  destruct (okw_via _ _ (ok_read env upper fh offset (as_u32 buffer_len) (Hctx fh eq_refl)) c Hc) as [H1 H2].
  unfold sbind, via in *. destruct (read _ _ _ _ c) as [[d|[e| |]] c']; simpl in *; try done.
  destruct (_ && _); [done|]. by destruct (Z.ltb_spec buffer_len (blen d)); [lia|].
Qed.

End Answers.

(** ** Concrete mounts *)

Module Windows.
(** A directory buffer that keeps what was written, in order. *)
#[export] Instance plain_buffer : DirBuffer (option (list DirInfo)) := {|
  db_new := None;
  db_acquire b reset := match b with None => Lock (Some []) | Some _ => if reset then Lock (Some []) else Filled end;
  db_write b d := Ok ((λ ds, ds ++ [d]) <$> b);
  db_read b marker room := take (Z.to_nat room) (default [] b);
  db_write_fails := ltac:(done)
|}.
Abbreviation Ctx := (FileContext (option (list DirInfo))).
Definition serve {N} `{Net N} := callback (N := N) Demo.env (λ s, s) (λ _ _, true) 3 [].
Definition name (s : string) : list Z := utf16_encode (chars s).
(** The context and the information of an answer. *)
Definition ctx_of (r : result (WinReply (option (list DirInfo))) WinHalt) : Ctx :=
  match r with Ok (WrContext ctx _ | WrEntries ctx _ | WrMarked ctx) => ctx | _ => mkFileContext 0 None false None false end.
(** What the server has under a name of the export's root. *)
Definition content {G} (c : Client (AgentNet (GlobSet := G))) (p : string) : option Content :=
  let fs := w_fs (an_world (cl_net c)) in
  match find fs false ["srv"; "data"; p] with Ok s => n_content <$> nodes fs !! Fs.ino_of s | Err _ => None end.
End Windows.


(** Two machines append to a log.  The Windows mount writes "at the end of the
    file" at the size it knows, up to five seconds old, and overwrites what the
    other machine appended. *)
Theorem winfsp_append_overwrites :
  let appended w := upd_fs (set_content 2000 5 (FileData (as_bytes "hello, them")) (w_fs w)) w in
  let '(r, c) := Windows.serve (WOpen (Windows.name "\note") FILE_APPEND_DATA) (Outage.start false) in
  let '(w, c') := Windows.serve (WWrite (Windows.ctx_of r) (as_bytes "; us") 0 true false) (Outage.meanwhile appended c) in
  match w with Ok (WrWritten n _) => n = 4 | _ => False end ∧
  Outage.at_server 5 (Outage.meanwhile appended c) = as_bytes "hello, them" ∧
  Outage.at_server 5 c' = as_bytes "hello; usem".
Proof. vm_compute. split_and!; reflexivity. Qed.

(** A link is made over a new, empty file; meanwhile another machine wrote to
    that file.  The adapter refuses to replace a file that has contents, but
    looks at the size it remembers: the file and what was written are gone. *)
Theorem winfsp_reparse_destroys_contents :
  let written w := upd_fs (set_content 2000 8 (FileData (as_bytes "data")) (w_fs w)) w in
  let c := (Windows.serve (WCreate (Windows.name "\new") 0) (Outage.start false)).2 in
  let c1 := Outage.meanwhile written c in
  let '(r, c2) := Windows.serve (WSetReparsePoint (Windows.name "\new") (encode_symlink_reparse "note")) c1 in
  r = Ok WrDone ∧ Windows.content c1 "new" = Some (FileData (as_bytes "data")) ∧
  Windows.content c2 "new" = Some (LinkData "note").
Proof. vm_compute. split_and!; reflexivity. Qed.

(** With a server that has no symbolic links (protocol 3), making a link fails
    after the file it was to replace is gone. *)
Theorem winfsp_failed_link_loses_file :
  let old c := set_net (mkAgentNet (an_world (cl_net c)) (mkConn 1 3) (an_now (cl_net c))) c in
  let c := old (Windows.serve (WCreate (Windows.name "\new") 0) (Outage.start false)).2 in
  let '(r, c1) := Windows.serve (WSetReparsePoint (Windows.name "\new") (encode_symlink_reparse "note")) c in
  r = Err (Nt STATUS_NOT_SUPPORTED) ∧
  Windows.content c "new" = Some (FileData []) ∧ Windows.content c1 "new" = None.
Proof. vm_compute. split_and!; reflexivity. Qed.
