(* ===== verification/SyncEngine.v ===== *)
(** * SyncEngine: the two-way sync engine

    [SyncEngine] of alloyfs-client/src/sync/engine.rs, with the transfers of
    transfer.rs and the walk of the local tree of reconcile.rs carried out over
    the network and the local disk.  The engine is a record of what the Rust
    structure holds, the disk below it and the network (the interface [Net] of
    RemoteFs); the executor takes one operation at a time, and each operation
    is a function in a state and error monad.  The theorems are in SyncFacts
    and SyncPull. *)

From stdpp Require Import pretty.
From S2P Require Import Prelude Messages Common Exclude Coalesce Inode AutoCache Sync Fs Agent Transport Overlay Disk RemoteFs.

(** ** Trees of the local disk *)

(** One item of [snapshot_local]'s loop: what it adds to the snapshot and to
    the directories to walk. *)
Definition local_item (env : Env) (root : list string) (excluded : RelPath → bool) (dir : list string) (name : string)
    (acc : gmap string Stat * list (list string)) : M Fs IoErrorKind (gmap string Stat * list (list string)) :=
  let '(snap, stack) := acc in
  match rel_of root (dir ++ [name]) with
  | None => sret acc
  | Some rel =>
      if excluded rel || is_internal rel then sret acc
      else
        let! r := stry (symlink_metadata env (dir ++ [name])) in
        match r with
        | Err _ => sret acc
        | Ok md =>
            if md_is_symlink md then sret acc
            else if md_is_dir md then sret (<[rel := mkStat EkDir 0 0 0]> snap, (dir ++ [name]) :: stack)
            else sret (<[rel := mkStat EkFile (md_len md) (default 0 (mtime_ns <$> md_modified md)) 0]> snap, stack)
        end
  end.

Fixpoint local_items (env : Env) (root : list string) (excluded : RelPath → bool) (dir : list string)
    (items : list (string * Z)) (acc : gmap string Stat * list (list string))
    : M Fs IoErrorKind (gmap string Stat * list (list string)) :=
  match items with
  | [] => sret acc
  | (name, _) :: items =>
      let! acc := local_item env root excluded dir name acc in
      local_items env root excluded dir items acc
  end.

(** [snapshot_local]: the fuel bounds the number of directories; [IoOther]
    when it is not enough. *)
Fixpoint snapshot_local (env : Env) (fuel : nat) (root : list string) (excluded : RelPath → bool)
    (stack : list (list string)) (snap : gmap string Stat) : M Fs IoErrorKind (gmap string Stat) :=
  match stack with
  | [] => sret snap
  | dir :: stack =>
      match fuel with
      | O => sfail IoOther
      | S fuel =>
          let! items := read_dir env dir in
          let! '(snap, stack) := local_items env root excluded dir items (snap, stack) in
          snapshot_local env fuel root excluded stack snap
      end
  end.

(** [sweep_staging]: [Path::is_dir] follows links.  The fuel bounds the number
    of directories visited. *)
Fixpoint sweep_items (env : Env) (dir : list string) (items : list (string * Z)) (stack : list (list string))
    : M Fs IoErrorKind (list (list string)) :=
  match items with
  | [] => sret stack
  | (name, _) :: items =>
      let! d := is_dir env (dir ++ [name]) in
      if d : bool then sweep_items env dir items ((dir ++ [name]) :: stack)
      else
        run! (if starts_with ".ds-tmp-" name then run! stry (F := IoErrorKind) (remove_file env (dir ++ [name])) in sret tt
              else sret tt) in
        sweep_items env dir items stack
  end.

Fixpoint sweep_staging (env : Env) (fuel : nat) (stack : list (list string)) : M Fs IoErrorKind unit :=
  match stack with
  | [] => sret tt
  | dir :: stack =>
      match fuel with
      | O => sfail IoOther
      | S fuel =>
          let! r := stry (read_dir env dir) in
          match r with
          | Err _ => sweep_staging env fuel stack
          | Ok items =>
              let! stack := sweep_items env dir items stack in
              sweep_staging env fuel stack
          end
      end
  end.

(** [Path::file_name] as text: none at the root, after "..", or outside UTF-8. *)
Definition file_name (p : list string) : option string :=
  match last p with
  | Some n => if bool_decide (n = "..") then None else to_str n
  | None => None
  end.

(** [str::contains(pat)]. *)
Fixpoint str_contains (pat s : string) : bool :=
  starts_with pat s || match s with String _ s' => str_contains pat s' | EmptyString => false end.

(** [conflict_name]: the time is in whole seconds. *)
Definition conflict_name (now : SystemTime) (path : string) : string :=
  path +:+ ".sync-conflict-" +:+ pretty (Z.to_N (Z.max 0 now / 10^9)).

(** ** State *)

(** [SUPPRESS_TTL], in nanoseconds. *)
Definition SUPPRESS_TTL : Z := 2 * 10^9.

Inductive Expect : Type := ExPresent (size mtime_ns : Z) | ExAbsent | ExDir.
#[global] Instance Expect_eq_dec : EqDecision Expect.
Proof. solve_decision. Defined.

Record Suppress : Type := mkSuppress { sp_expect : Expect; sp_at : Z }.

(** [Op]. *)
Inductive SyncOp : Type :=
| ORemote (batch : list FsEvent)
| OLocal (batch : list (RelPath * EventKind))
| OReconcile.

Record SyncStats : Type := mkStats {
  ss_pulls : Z; ss_pushes : Z; ss_deletes_local : Z; ss_deletes_remote : Z; ss_conflicts : Z; ss_pending : Z
}.

Record Engine (N : Type) : Type := mkEngine {
  en_root : list string;
  en_export : string;
  en_excluded : RelPath → bool;              (* [exclude.is_excluded] *)
  en_manifest : SyncManifest;
  en_saved : SyncManifest;                   (* what the manifest file holds *)
  en_suppress : gmap string Suppress;
  en_policy : ConflictPolicy;
  en_dialer : bool;
  en_epoch : Z;
  en_queue : list SyncOp;                    (* [op_tx] to [op_rx] *)
  en_stats : SyncStats;
  en_stopped : bool;
  en_disk : Fs;
  en_net : N
}.
Arguments mkEngine {N}. Arguments en_root {N}. Arguments en_export {N}. Arguments en_excluded {N}.
Arguments en_manifest {N}. Arguments en_saved {N}. Arguments en_suppress {N}. Arguments en_policy {N}.
Arguments en_dialer {N}. Arguments en_epoch {N}. Arguments en_queue {N}. Arguments en_stats {N}.
Arguments en_stopped {N}. Arguments en_disk {N}. Arguments en_net {N}.

Section Engine.
Context {N : Type} `{NET : Net N}.
Context (env : Env) (fuel : nat).

Abbreviation E := (Engine N).
Abbreviation EngineM := (M (Engine N) Halt).

Definition set_manifest (m : SyncManifest) (e : E) : E :=
  mkEngine (en_root e) (en_export e) (en_excluded e) m (en_saved e) (en_suppress e) (en_policy e) (en_dialer e)
    (en_epoch e) (en_queue e) (en_stats e) (en_stopped e) (en_disk e) (en_net e).
Definition set_suppress (s : gmap string Suppress) (e : E) : E :=
  mkEngine (en_root e) (en_export e) (en_excluded e) (en_manifest e) (en_saved e) s (en_policy e) (en_dialer e)
    (en_epoch e) (en_queue e) (en_stats e) (en_stopped e) (en_disk e) (en_net e).
Definition set_work (q : list SyncOp) (st : SyncStats) (stopped : bool) (saved : SyncManifest) (e : E) : E :=
  mkEngine (en_root e) (en_export e) (en_excluded e) (en_manifest e) saved (en_suppress e) (en_policy e) (en_dialer e)
    (en_epoch e) q st stopped (en_disk e) (en_net e).
Definition set_disk (fs : Fs) (e : E) : E :=
  mkEngine (en_root e) (en_export e) (en_excluded e) (en_manifest e) (en_saved e) (en_suppress e) (en_policy e)
    (en_dialer e) (en_epoch e) (en_queue e) (en_stats e) (en_stopped e) fs (en_net e).
Definition set_enet (n : N) (epoch : Z) (e : E) : E :=
  mkEngine (en_root e) (en_export e) (en_excluded e) (en_manifest e) (en_saved e) (en_suppress e) (en_policy e)
    (en_dialer e) epoch (en_queue e) (en_stats e) (en_stopped e) (en_disk e) n.

(** [stats.….fetch_add(1)]. *)
Definition bump_stats (f : SyncStats → SyncStats) : EngineM unit :=
  smod (λ e, set_work (en_queue e) (f (en_stats e)) (en_stopped e) (en_saved e) e).
Definition add_pulls (s : SyncStats) : SyncStats :=
  mkStats (u64_add (ss_pulls s) 1) (ss_pushes s) (ss_deletes_local s) (ss_deletes_remote s) (ss_conflicts s) (ss_pending s).
Definition add_pushes (s : SyncStats) : SyncStats :=
  mkStats (ss_pulls s) (u64_add (ss_pushes s) 1) (ss_deletes_local s) (ss_deletes_remote s) (ss_conflicts s) (ss_pending s).
Definition add_deletes_local (s : SyncStats) : SyncStats :=
  mkStats (ss_pulls s) (ss_pushes s) (u64_add (ss_deletes_local s) 1) (ss_deletes_remote s) (ss_conflicts s) (ss_pending s).
Definition add_deletes_remote (s : SyncStats) : SyncStats :=
  mkStats (ss_pulls s) (ss_pushes s) (ss_deletes_local s) (u64_add (ss_deletes_remote s) 1) (ss_conflicts s) (ss_pending s).
Definition add_conflicts (s : SyncStats) : SyncStats :=
  mkStats (ss_pulls s) (ss_pushes s) (ss_deletes_local s) (ss_deletes_remote s) (u64_add (ss_conflicts s) 1) (ss_pending s).
Definition add_pending (d : Z) (s : SyncStats) : SyncStats :=
  mkStats (ss_pulls s) (ss_pushes s) (ss_deletes_local s) (ss_deletes_remote s) (ss_conflicts s) (u64_add (ss_pending s) d).

(** ** Reaching the server and the disk *)

Definition efail {A} (c : ErrorCode) : EngineM A := sfail (Failed (Remote c)).

(** [conn.request(rq).await] on the current connection. *)
Definition ask (rq : Request) : EngineM Reply := λ e,
  let '(r, n) := net_request (net_conn (en_net e)) rq (en_net e) in (Ok r, set_enet n (en_epoch e) e).

(** [….await?]: a transport failure ends the operation. *)
Definition request (rq : Request) : EngineM (result Response ErrorCode) :=
  let! r := ask rq in
  match r with Err t => sfail (Failed (TransportErr t)) | Ok r => sret r end.

(** [….await??]. *)
Definition demand (rq : Request) : EngineM Response :=
  let! r := request rq in
  match r with Err c => efail c | Ok resp => sret resp end.

(** A call on the local disk whose outcome the code looks at. *)
Definition disk_try {A} (m : M Fs IoErrorKind A) : EngineM (result A IoErrorKind) := λ e,
  let '(r, fs) := m (en_disk e) in (Ok r, set_disk fs e).

(** [….map_err(|_| ErrorCode::Io)?]. *)
Definition disk {A} (m : M Fs IoErrorKind A) : EngineM A :=
  let! r := disk_try m in
  match r with Ok a => sret a | Err _ => efail Io end.

(** [match op.await { Err(e) => tracing::warn!(…), … }]. *)
Definition attempt {A} (m : EngineM A) : EngineM (result A FsError) := λ e,
  match m e with
  | (Ok a, e) => (Ok (Ok a), e)
  | (Err (Failed x), e) => (Ok (Err x), e)
  | (Err h, e) => (Err h, e)
  end.

(** ** Small methods *)

Definition enqueue (op : SyncOp) : EngineM unit :=
  smod (λ e, if en_stopped e then e
             else set_work (en_queue e ++ [op]) (add_pending 1 (en_stats e)) (en_stopped e) (en_saved e) e).

Definition full (e : E) (rel : string) : list string := en_root e ++ base.filter (λ c, c ≠ "") (split_on slash rel).

Definition the_full (rel : string) : EngineM (list string) := let! e := sget in sret (full e rel).

Definition local_stat (rel : string) : EngineM (option Stat) :=
  let! p := the_full rel in
  let! r := disk_try (symlink_metadata env p) in
  sret (match r with
        | Err _ => None
        | Ok md => Some (if md_is_dir md then mkStat EkDir 0 0 0
                         else mkStat EkFile (md_len md) (default 0 (mtime_ns <$> md_modified md)) 0)
        end).

Definition expect (rel : string) (x : Expect) : EngineM unit :=
  smod (λ e, set_suppress (<[rel := mkSuppress x (net_now (en_net e))]> (en_suppress e)) e).

Definition is_own_echo (rel : string) : EngineM bool :=
  let! e := sget in
  match en_suppress e !! rel with
  | None => sret false
  | Some entry =>
      if SUPPRESS_TTL <? Z.max 0 (net_now (en_net e) - sp_at entry) then
        run! smod (λ e, set_suppress (delete rel (en_suppress e)) e) in sret false
      else
        let! s := local_stat rel in
        sret (match sp_expect entry, s with
              | ExAbsent, None => true
              | ExDir, Some s => bool_decide (st_kind s = EkDir)
              | ExPresent size mtime, Some s =>
                  bool_decide (st_kind s = EkFile) && bool_decide (st_size s = size) && bool_decide (st_mtime_ns s = mtime)
              | _, _ => false
              end)
  end.

Definition upd_entries (f : gmap string SyncEntry → gmap string SyncEntry) : EngineM unit :=
  smod (λ e, set_manifest (mkManifest (m_last_seq (en_manifest e)) (f (m_entries (en_manifest e)))) e).

Definition record (rel : string) (kind : EntryKind) (size mtime version : Z) : EngineM unit :=
  upd_entries <[rel := mkSyncEntry kind version size mtime]>.

Definition forget_entry (rel : string) : EngineM unit := upd_entries (delete rel).

(** [entries.retain(|p, _| p != rel && !p.starts_with("{rel}/"))]. *)
Definition forget_tree (rel : string) : EngineM unit :=
  upd_entries (base.filter (λ pe : string * SyncEntry, pe.1 ≠ rel ∧ starts_with (rel +:+ "/") pe.1 = false)).

Definition baseline (rel : string) : EngineM (option SyncEntry) :=
  let! e := sget in sret (m_entries (en_manifest e) !! rel).

(** [rename_prefix] on the manifest. *)
Definition move_entries (from to : string) : EngineM bool := λ e,
  let '(any, m) := rename_prefix (en_manifest e) from to in (Ok any, set_manifest m e).

(** ** Transfers (transfer.rs) *)

(** The reads of [fetch_body], in order; the first failure ends it. *)
Fixpoint read_chunks (fh : Z) (chunks : list (Z * Z)) (out : list Z) : EngineM (list Z) :=
  match chunks with
  | [] => sret out
  | (offset, len) :: chunks =>
      let! r := demand (RqRead fh offset len) in
      match r with
      | RsData data => read_chunks fh chunks (out ++ data)
      | _ => efail Io
      end
  end.

Definition fetch_body_to (fh size : Z) (staging : list string) : EngineM unit :=
  let! out := read_chunks fh (body_chunks size) [] in
  disk (fs_write env staging out).

Definition download_to (rel : string) (staging : list string) : EngineM Attr :=
  let! r := demand (RqOpen rel (mkOpenFlags true false false false false)) in
  match r with
  | RsOpened fh attr =>
      let! result := attempt (fetch_body_to fh (a_size attr) staging) in
      run! ask (RqRelease fh) in
      match result with
      | Err x => sfail (Failed x)
      | Ok _ =>
          let! f := disk (sys_open env (mkOpenOptions true false false false) staging) in
          run! disk (set_modified env staging f (a_mtime attr)) in
          sret attr
      end
  | _ => efail Io
  end.

(** The writes of [upload]: [false] as soon as one is refused. *)
Fixpoint write_chunks (fh : Z) (chunks : list (Z * list Z)) : EngineM bool :=
  match chunks with
  | [] => sret true
  | (offset, data) :: chunks =>
      let! r := ask (RqWrite fh offset data None) in
      match r with
      | Ok (Ok (RsWritten _ _ _)) => write_chunks fh chunks
      | _ => sret false
      end
  end.

Definition upload (rel : string) (p : list string) : EngineM Attr :=
  let! data := disk (fs_read env p) in
  let! md := disk (metadata env p) in
  let! mtime := (match md_modified md with Some t => sret t | None => efail Io end) in
  let! r := demand (RqCreate rel (mkOpenFlags false true true false false) 420) in
  match r with
  | RsOpened fh _ =>
      let! written := write_chunks fh (upload_chunks data) in
      run! ask (RqRelease fh) in
      if negb written then efail Io
      else
        let! r := demand (RqSetattr rel None (Some mtime) None) in
        match r with RsAttr attr => sret attr | _ => efail Io end
  | _ => efail Io
  end.

(** ** Remote to local *)

(** [parent.join(".ds-tmp-{name}")]. *)
Definition staging_for (p : list string) (name : string) : list string := removelast p ++ [".ds-tmp-" +:+ name].

Definition pull (rel : string) : EngineM unit :=
  let! p := the_full rel in
  if bool_decide (p = []) then efail InvalidPath
  else
    run! disk (create_dir_all env (removelast p)) in
    match file_name p with
    | None => efail InvalidPath
    | Some name =>
        let staging := staging_for p name in
        let! r := attempt (download_to rel staging) in
        match r with
        | Err x => run! disk_try (remove_file env staging) in sfail (Failed x)
        | Ok attr =>
            run! expect rel (ExPresent (a_size attr) (mtime_ns (a_mtime attr))) in
            run! disk (sys_rename env staging p) in
            run! record rel EkFile (a_size attr) (mtime_ns (a_mtime attr)) (a_version attr) in
            bump_stats add_pulls
        end
    end.

Definition push (rel : string) : EngineM unit :=
  let! p := the_full rel in
  let! attr := upload rel p in
  let! local := local_stat rel in
  match local with
  | None => efail Io
  | Some l =>
      run! record rel EkFile (st_size l) (st_mtime_ns l) (a_version attr) in
      bump_stats add_pushes
  end.

(** Push the preserved copy; a failure is only logged. *)
Definition push_kept (kept : bool) (keep : string) : EngineM unit :=
  if kept then run! attempt (push keep) in sret tt else sret tt.

(** [let res = op.await; …; res]. *)
Definition finally {A} (m : EngineM A) (after : EngineM unit) : EngineM A :=
  let! res := attempt m in
  run! after in
  match res with Ok a => sret a | Err x => sfail (Failed x) end.

(** Keeping the remote copy before the local one wins. *)
Definition keep_remote (rel keep : string) : EngineM bool :=
  let! p := the_full keep in
  run! (if bool_decide (p = []) then sret tt else run! disk_try (create_dir_all env (removelast p)) in sret tt) in
  let staging := staging_for p (default "conflict" (file_name p)) in
  let! r := attempt (download_to rel staging) in
  match r with
  | Ok _ => let! r := disk_try (sys_rename env staging p) in sret (is_ok r)
  | Err _ => sret false
  end.

(** Keeping the local copy before the remote one wins. *)
Definition keep_local (rel keep : string) : EngineM bool :=
  let! from := the_full rel in
  let! to := the_full keep in
  let! r := disk_try (fs_copy env from to) in
  sret (is_ok r).

Definition resolve_conflict (rel : string) (local remote : Stat) : EngineM unit :=
  run! bump_stats add_conflicts in
  let! e := sget in
  let wins := local_wins (en_policy e) local remote in
  if str_contains ".sync-conflict-" rel then (if wins then push rel else pull rel)
  else
    let keep := conflict_name (now env) rel in
    if wins then
      let! kept := keep_remote rel keep in
      finally (push rel) (push_kept kept keep)
    else
      let! kept := keep_local rel keep in
      finally (pull rel) (push_kept kept keep).

(** Is the local side different from the baseline? *)
Definition local_dirty (b : option SyncEntry) (l : option Stat) : bool :=
  match b, l with
  | Some b, Some l => negb (bool_decide (st_kind l = se_kind b) && bool_decide (st_size l = se_size b)
                            && bool_decide (st_mtime_ns l = se_mtime_ns b))
  | None, Some _ => true
  | _, _ => false
  end.

(** Does the baseline already show this remote state? *)
Definition baseline_shows (b : option SyncEntry) (r : Stat) : bool :=
  match b with
  | Some b => bool_decide (se_size b = st_size r) && bool_decide (se_mtime_ns b = st_mtime_ns r)
  | None => false
  end.

Definition file_stat (a : Attr) : Stat := mkStat EkFile (a_size a) (mtime_ns (a_mtime a)) (a_version a).

Definition pull_if_needed (rel : string) : EngineM unit :=
  let! r := request (RqGetattr rel) in
  match r with
  | Err NotFound => sret tt
  | Err c => efail c
  | Ok (RsAttr attr) =>
      if bool_decide (a_kind attr = KDir) then
        run! expect rel ExDir in
        let! p := the_full rel in
        run! disk (create_dir_all env p) in
        record rel EkDir 0 0 (a_version attr)
      else
        let remote := file_stat attr in
        let! b := baseline rel in
        if baseline_shows b remote then sret tt
        else
          let! l := local_stat rel in
          match l with
          | Some l' =>
              if local_dirty b l then
                if bool_decide (st_size l' = st_size remote) && bool_decide (st_mtime_ns l' = st_mtime_ns remote)
                then record rel (st_kind l') (st_size l') (st_mtime_ns l') (st_version remote)
                else resolve_conflict rel l' remote
              else pull rel
          | None => pull rel
          end
  | Ok _ => efail Io
  end.

(** Is the local path as the baseline has it? *)
Definition local_clean (b : SyncEntry) (l : Stat) : bool :=
  bool_decide (st_kind l = se_kind b)
  && (bool_decide (st_kind l = EkDir)
      || (bool_decide (st_size l = se_size b) && bool_decide (st_mtime_ns l = se_mtime_ns b))).

(** [for child in snap.keys() { self.expect("{rel}/{child}", Absent) }]. *)
Fixpoint expect_children (rel : string) (children : list string) : EngineM unit :=
  match children with
  | [] => sret tt
  | child :: children => run! expect (rel +:+ "/" +:+ child) ExAbsent in expect_children rel children
  end.

Definition delete_local (rel : string) : EngineM unit :=
  let! p := the_full rel in
  let! l := local_stat rel in
  match l with
  | None => forget_entry rel
  | Some l =>
      let! b := baseline rel in
      if match b with Some b => negb (local_clean b l) | None => false end then sret tt
      else
        run! (if bool_decide (st_kind l = EkDir) then
                let! snap := disk_try (snapshot_local env fuel p (λ _, false) [p] ∅) in
                run! (match snap with
                      | Ok snap => expect_children rel (sorted_entries snap).*1
                      | Err _ => sret tt
                      end) in
                run! expect rel ExAbsent in
                run! disk (remove_dir_all env fuel p) in
                forget_tree rel
              else
                run! expect rel ExAbsent in
                run! disk (remove_file env p) in
                forget_entry rel) in
        bump_stats add_deletes_local
  end.

(** What the watcher will see of a path just put there. *)
Definition expectation (s : Stat) : Expect :=
  match st_kind s with EkDir => ExDir | EkFile => ExPresent (st_size s) (st_mtime_ns s) end.

(** A remote rename: done locally when the source is here; the value says
    whether the baseline followed. *)
Definition rename_here (rel to : string) : EngineM bool :=
  let! from := the_full rel in
  let! tof := the_full to in
  let! there := disk_try (path_exists env from) in
  match there with
  | Ok true =>
      run! expect rel ExAbsent in
      run! (if bool_decide (tof = []) then sret tt else run! disk_try (create_dir_all env (removelast tof)) in sret tt) in
      let! r := disk_try (sys_rename env from tof) in
      if is_ok r then
        let! s := local_stat to in
        run! (match s with Some s => expect to (expectation s) | None => sret tt end) in
        move_entries rel to
      else sret false
  | _ => sret false
  end.

Definition apply_remote (ev : FsEvent) : EngineM unit :=
  let rel := ev_path ev in
  let! e := sget in
  if en_excluded e rel || is_internal rel then sret tt
  else match ev_kind ev with
  | Created | Modified | AttrChanged => pull_if_needed rel
  | Removed => delete_local rel
  | RenamedFrom to =>
      let! done := rename_here rel to in
      if done : bool then sret tt else pull_if_needed to
  | ResyncRequired => enqueue OReconcile
  end.

(** ** Local to remote *)

(** [Ok(_) | Err(AlreadyExists) => {}, Err(e) => return Err(e)] after a mkdir. *)
Definition mkdir_remote (rel : string) : EngineM unit :=
  let! r := request (RqMkdir rel 493) in
  match r with
  | Ok _ | Err AlreadyExists => sret tt
  | Err c => efail c
  end.

(** [mkdir_remote], then the baseline entry. *)
Definition push_dir (rel : string) : EngineM unit :=
  run! mkdir_remote rel in
  record rel EkDir 0 0 0.

(** Does the baseline know the path as it is? *)
Definition known_as (b : option SyncEntry) (s : Stat) : bool :=
  match b with
  | Some b => (bool_decide (se_kind b = st_kind s) && bool_decide (se_size b = st_size s) && bool_decide (se_mtime_ns b = st_mtime_ns s))
              || (bool_decide (st_kind s = EkDir) && bool_decide (se_kind b = EkDir))
  | None => false
  end.

Fixpoint push_children (rel : string) (snap : list (string * Stat)) : EngineM unit :=
  match snap with
  | [] => sret tt
  | (child, stat) :: snap =>
      let child_rel := rel +:+ "/" +:+ child in
      let! b := baseline child_rel in
      run! (if known_as b stat then sret tt
            else
              run! attempt (if bool_decide (st_kind stat = EkDir) then push_dir child_rel else push child_rel) in
              sret tt) in
      push_children rel snap
  end.

(** [push_new_dir_contents]: the paths in the snapshot are relative to [rel],
    and so is what the patterns are asked about. *)
Definition push_new_dir_contents (rel : string) : EngineM unit :=
  let! p := the_full rel in
  let! e := sget in
  let! snap := disk_try (snapshot_local env fuel p (en_excluded e) [p] ∅) in
  match snap with
  | Err _ => sret tt
  | Ok snap => push_children rel (sorted_entries snap)
  end.

(** Has the remote side moved since the baseline? *)
Definition remote_dirty (b : option SyncEntry) (r : Stat) : bool :=
  match b with
  | Some b => negb (negb (bool_decide (remote_version b = 0)) && bool_decide (remote_version b = st_version r))
              && negb (bool_decide (se_size b = st_size r) && bool_decide (se_mtime_ns b = st_mtime_ns r))
  | None => true
  end.

(** The [Created]/[Modified]/[AttrChanged] arm. *)
Definition push_changed (rel : string) : EngineM unit :=
  let! l := local_stat rel in
  match l with
  | None => sret tt
  | Some local =>
      if bool_decide (st_kind local = EkDir) then
        run! push_dir rel in
        push_new_dir_contents rel
      else
        let! r := request (RqGetattr rel) in
        match r with
        | Err NotFound => push rel
        | Err c => efail c
        | Ok (RsAttr a) =>
            let r_stat := file_stat a in
            let! b := baseline rel in
            if remote_dirty b r_stat then
              if bool_decide (st_size local = st_size r_stat) && bool_decide (st_mtime_ns local = st_mtime_ns r_stat)
              then record rel (st_kind local) (st_size local) (st_mtime_ns local) (a_version a)
              else resolve_conflict rel local r_stat
            else push rel
        | Ok _ => efail Io
        end
  end.

(** The [Removed] arm. *)
Definition push_removed (rel : string) : EngineM unit :=
  let! b := baseline rel in
  match b with
  | None => sret tt
  | Some b =>
      let! r := request (RqGetattr rel) in
      match r with
      | Err NotFound => forget_entry rel
      | Err c => efail c
      | Ok (RsAttr a) =>
          let fresh := negb (bool_decide (remote_version b = 0)) && bool_decide (remote_version b = a_version a)
                       || bool_decide (se_size b = a_size a) && bool_decide (se_mtime_ns b = mtime_ns (a_mtime a)) in
          if negb fresh && negb (bool_decide (a_kind a = KDir)) then pull rel
          else
            let! r := request (if bool_decide (a_kind a = KDir) then RqRmdir rel else RqUnlink rel) in
            match r with
            | Err NotEmpty => sret tt
            | Ok _ | Err NotFound =>
                run! forget_tree rel in
                bump_stats add_deletes_remote
            | Err c => efail c
            end
      | Ok _ => efail Io
      end
  end.

(** The [RenamedFrom] arm. *)
Definition push_renamed (rel to : string) : EngineM unit :=
  let! r := request (RqRename rel to true) in
  match r with
  | Ok _ =>
      let! known := move_entries rel to in
      run! (if known : bool then sret tt
            else
              let! s := local_stat to in
              match s with
              | Some s => record to (st_kind s) (st_size s) (st_mtime_ns s) 0
              | None => sret tt
              end) in
      bump_stats add_pushes
  | Err NotFound =>
      run! forget_entry rel in
      let! s := local_stat to in
      match s with
      | Some s => if bool_decide (st_kind s = EkDir) then push_dir to else push to
      | None => sret tt
      end
  | Err c => efail c
  end.

Definition push_local (rel : string) (kind : EventKind) : EngineM unit :=
  let! echo := is_own_echo rel in
  if echo : bool then sret tt
  else match kind with
  | Created | Modified | AttrChanged => push_changed rel
  | Removed => push_removed rel
  | RenamedFrom to => push_renamed rel to
  | ResyncRequired => sret tt
  end.

(** ** Reconciling *)

(** [snapshot_remote] over the network; the fuel bounds the number of pages. *)
Fixpoint remote_tree (fuel : nat) (dirs : list string) (cursor : Z) (snap : gmap string Stat) : EngineM (gmap string Stat) :=
  match dirs with
  | [] => sret snap
  | dir :: rest =>
      match fuel with
      | O => sfail Waits
      | S fuel =>
          let! r := demand (RqReaddir dir cursor) in
          match r with
          | RsDir es next =>
              let! e := sget in
              let '(snap, rest) := foldl (snapshot_entry (en_excluded e) dir) (snap, rest) es in
              match next with
              | Some c => remote_tree fuel (dir :: rest) c snap
              | None => remote_tree fuel rest 0 snap
              end
          | _ => efail Io
          end
      end
  end.

Definition do_action (a : Action) : EngineM unit :=
  match a with
  | Pull p => pull_if_needed p
  | Push p =>
      let! l := local_stat p in
      push_local p (match l with
                    | Some s => if bool_decide (st_kind s = EkDir) then Created else Modified
                    | None => Modified
                    end)
  | DeleteLocal p _ => delete_local p
  | DeleteRemote p _ => push_local p Removed
  | Adopt p s => record p (st_kind s) (st_size s) (st_mtime_ns s) (st_version s)
  | ConflictAct p local remote => resolve_conflict p local remote
  | ForgetAct p => forget_entry p
  end.

(** [run_action]: a failure is only logged. *)
Definition run_action (a : Action) : EngineM unit := run! attempt (do_action a) in sret tt.

Fixpoint run_actions (actions : list Action) : EngineM unit :=
  match actions with
  | [] => sret tt
  | a :: actions => run! run_action a in run_actions actions
  end.

Definition is_delete (a : Action) : bool :=
  match a with DeleteLocal _ _ | DeleteRemote _ _ => true | _ => false end.

Definition reconcile : EngineM unit :=
  let! remote := remote_tree fuel [""] 0 ∅ in
  let! e := sget in
  let! local := disk (snapshot_local env fuel (en_root e) (en_excluded e) [en_root e] ∅) in
  let! e := sget in
  let actions := plan (en_manifest e) local remote in
  run! run_actions (base.filter (λ a, is_delete a = false) actions) in
  run_actions (reverse (base.filter (λ a, is_delete a = true) actions)).

(** ** The tasks *)

(** [manifest.flush]. *)
Definition flush_baseline : EngineM unit :=
  smod (λ e, set_work (en_queue e) (en_stats e) (en_stopped e) (en_manifest e) e).

Fixpoint apply_batch (batch : list FsEvent) : EngineM unit :=
  match batch with
  | [] => sret tt
  | ev :: batch =>
      run! attempt (apply_remote ev) in
      run! smod (λ e, set_manifest (mkManifest (Z.max (m_last_seq (en_manifest e)) (ev_seq ev))
                                      (m_entries (en_manifest e))) e) in
      apply_batch batch
  end.

Fixpoint push_batch (batch : list (RelPath * EventKind)) : EngineM unit :=
  match batch with
  | [] => sret tt
  | (path, kind) :: batch => run! attempt (push_local path kind) in push_batch batch
  end.

Definition run_op (op : SyncOp) : EngineM unit :=
  match op with
  | ORemote batch => apply_batch batch
  | OLocal batch => push_batch batch
  | OReconcile => run! attempt reconcile in sret tt
  end.

(** One turn of [executor]; [false] when it ends or has nothing to do. *)
Definition executor_turn : EngineM bool :=
  let! e := sget in
  match en_queue e with
  | [] => sret false
  | op :: rest =>
      run! smod (λ e, set_work rest (en_stats e) (en_stopped e) (en_saved e) e) in
      if en_stopped e then sret false
      else
        run! run_op op in
        run! flush_baseline in
        run! bump_stats (add_pending (-1)) in
        sret true
  end.

(** One message of the event stream. *)
Definition pump_message (m : Received) : EngineM unit :=
  match m with
  | Batch batch => enqueue (ORemote batch)
  | Lagged => enqueue OReconcile
  end.

(** After a reconnection: resume from the last applied event. *)
Definition resume : EngineM unit :=
  let! e := sget in
  let seen := m_last_seq (en_manifest e) in
  let since := if bool_decide (seen = 0) then None else Some seen in
  let! r := ask (RqSubscribe since) in
  match r with
  | Ok (Ok (RsSubscribed last_seq)) =>
      if match since with Some s => s <=? last_seq | None => true end then sret tt else enqueue OReconcile
  | Ok (Err TooOld) => run! ask (RqSubscribe None) in enqueue OReconcile
  | _ => sret tt
  end.

(** One successful dial of the supervisor; [false] when the attach is refused. *)
Definition reattach (conn : Conn) : EngineM bool := λ e,
  let '(r, n) := net_request conn (RqAttach (en_export e)) (en_net e) in
  match r with
  | Ok (Ok (RsAttachOk _ _)) => (Ok true, set_enet (net_swap conn n) (u64_add (en_epoch e) 1) e)
  | _ => (Ok false, set_enet n (en_epoch e) e)
  end.

(** What the local watcher enqueues of a batch of the coalescer. *)
Definition watcher_batch (batch : list (RelPath * EventKind)) : EngineM unit :=
  let batch := base.filter (λ pk : RelPath * EventKind, is_internal pk.1 = false) batch in
  if bool_decide (batch = []) then sret tt else enqueue (OLocal batch).

Definition is_quiescent (e : E) : bool := bool_decide (ss_pending (en_stats e) = 0).

Definition shutdown : EngineM unit :=
  smod (λ e, set_work (en_queue e) (en_stats e) true (en_manifest e) e).

(** ** Starting *)

(** The subscription of [start]: the history wanted, else live. *)
Definition subscribe_from (last_seq : Z) : EngineM Z :=
  let! r := request (RqSubscribe (if bool_decide (last_seq = 0) then None else Some last_seq)) in
  match r with
  | Ok (RsSubscribed s) => sret s
  | Err TooOld =>
      let! r := demand (RqSubscribe None) in
      match r with RsSubscribed s => sret s | _ => efail Io end
  | Ok _ => efail Io
  | Err c => efail c
  end.

(** [start], on an engine record that holds the options: the directory is
    made, the export attached, staging files swept, events subscribed to, and
    a reconcile enqueued. *)
Definition start (local_dir : list string) : EngineM unit :=
  run! disk (create_dir_all env local_dir) in
  let! root := disk (canonicalize env local_dir) in
  let! e := sget in
  let! r := demand (RqAttach (en_export e)) in
  match r with
  | RsAttachOk _ _ =>
      run! smod (λ e, mkEngine root (en_export e) (en_excluded e) (en_saved e) (en_saved e) ∅ (en_policy e) (en_dialer e) 0
                        [] (mkStats 0 0 0 0 0 0) false (en_disk e) (en_net e)) in
      run! disk_try (sweep_staging env fuel [root]) in
      run! subscribe_from (m_last_seq (en_saved e)) in
      enqueue OReconcile
  | _ => efail Io
  end.

End Engine.
