(* ===== verification/SyncFacts.v ===== *)
(** * SyncFacts: what the sync engine keeps and what it loses

    A remote delete spares a file that was edited here, and a local change is
    not pushed over a remote edit the baseline does not show: requests are
    classified as harmless to a path, and a logic over the engine's monad
    ([spares]) carries the claim through the handler that sends them.  The other
    theorems are runs of an engine over the small server in which an edit, an
    exclusion or a conflict copy is lost. *)

From S2P Require Import Prelude Messages Common Exclude Coalesce Inode AutoCache Sync Fs Agent AgentFacts Transport Overlay Disk RemoteFs RemoteFacts EndToEnd SyncEngine.

(** ** A directory kept in sync with the small server

    The local directory is /home/sync; the server's export holds "note"
    ("hello", inode 5, modified at 1) and "private/key". *)
Module Synced.
#[local] Existing Instance Sample.sample_globs.
#[local] Abbreviation W := (World (GlobSet := list (string * bool))).
#[local] Abbreviation Eng := (Engine (AgentNet (GlobSet := list (string * bool)))).

Definition env : Env := Demo.env.
Definition root : list string := ["home"; "sync"].
Definition file (bs : string) (t : Z) : INode := mkINode (FileData (as_bytes bs)) t 1 420.

(** The disk: the given files and directories in /home/sync, numbered from 10. *)
Definition disk_of (dir : list (string * Z)) (more : list (Z * INode)) : Fs :=
  mkFs (list_to_map ([(0, Demo.dir [("home", 1); ("etc", 3)]); (1, Demo.dir [("sync", 2)]); (2, Demo.dir dir);
                      (3, Demo.dir [(".ds-tmp-old", 4)]); (4, file "stray" 1)] ++ more)) 20.

Definition attached : W := (handle Outage.env 1 (RqAttach "data") (Demo.world false [])).2.

Definition engine (patterns : list string) (policy : ConflictPolicy) (base : list (string * SyncEntry)) (disk : Fs) (w : W) : Eng :=
  mkEngine root "data" (is_excluded (Demo.exclude patterns)) (mkManifest 0 (list_to_map base)) (mkManifest 0 ∅) ∅ policy
    true 0 [] (mkStats 0 0 0 0 0 0) false disk (mkAgentNet w (mkConn 1 4) 0).

(** The server's file with number [i] is changed by someone else. *)
Definition edited (i : Z) (bs : string) (t : Z) (w : W) : W := upd_fs (set_content t i (FileData (as_bytes bs)) (w_fs w)) w.

Definition at_server (i : Z) (e : Eng) : list Z := file_bytes (w_fs (an_world (en_net e))) i.
Definition here (p : string) (e : Eng) : option (list Z) :=
  match fs_read env (full e p) (en_disk e) with (Ok bs, _) => Some bs | _ => None end.
Definition run (m : M Eng Halt unit) (e : Eng) : Eng := (m e).2.

(** Something happens at the server. *)
Definition meanwhile (f : W → W) (e : Eng) : Eng :=
  set_enet (mkAgentNet (f (an_world (en_net e))) (an_conn (en_net e)) (an_now (en_net e))) (en_epoch e) e.

(** "note" as it was when the baseline was taken. *)
Definition note_base : string * SyncEntry := ("note", mkSyncEntry EkFile 0 5 1).
End Synced.

(** An editor saves by writing a new file and renaming it over the old one.
    Another machine has changed the file in the meantime: the rename is carried
    out without looking, and the other machine's version is lost -- no conflict
    is noticed and no copy kept. *)
Theorem local_rename_clobbers_remote_edit :
  let w := Synced.edited 5 "WORLD!" 500 Synced.attached in
  let e := Synced.engine [] Newer [Synced.note_base] (Synced.disk_of [("note", 10)] [(10, Synced.file "mine" 600)]) w in
  let e' := Synced.run (push_batch Synced.env 9 [("tmp", RenamedFrom "note")]) e in
  Synced.at_server 5 e = as_bytes "WORLD!" ∧ Synced.at_server 5 e' = as_bytes "mine" ∧
  ss_conflicts (en_stats e') = 0 ∧ nodes (en_disk e') !! 20 = None.
Proof. vm_compute. split_and!; reflexivity. Qed.

(** A file is renamed on the server to a name whose local copy was edited: the
    local rename goes over the edit, without a conflict and without a copy. *)
Theorem remote_rename_loses_local_edit :
  let moved := upd_fs (sys_rename Outage.env ["srv"; "data"; "note"] ["srv"; "data"; "todo"] (w_fs Synced.attached)).2 Synced.attached in
  let e := Synced.engine [] Newer [Synced.note_base; ("todo", mkSyncEntry EkFile 0 3 1)]
             (Synced.disk_of [("note", 10); ("todo", 11)] [(10, Synced.file "hello" 1); (11, Synced.file "edited today" 700)]) moved in
  let e' := Synced.run (apply_batch Synced.env 9 [mkFsEvent 1 (RenamedFrom "todo") "note" None None]) e in
  Synced.here "todo" e = Some (as_bytes "edited today") ∧ Synced.here "todo" e' = Some (as_bytes "hello") ∧
  Synced.here "note" e' = None ∧ ss_conflicts (en_stats e') = 0.
Proof. vm_compute. split_and!; reflexivity. Qed.

(** On the server a file is saved through a temporary file that the patterns
    exclude.  The rename is the only event that tells of the new contents, and
    it is dropped because its source is excluded. *)
Theorem excluded_source_rename_missed :
  let w := Synced.edited 5 "WORLD!" 500 Synced.attached in
  let e := Synced.engine ["tmp"] Newer [Synced.note_base] (Synced.disk_of [("note", 10)] [(10, Synced.file "hello" 1)]) w in
  let e' := Synced.run (apply_batch Synced.env 9 [mkFsEvent 7 (RenamedFrom "note") "tmp" None None]) e in
  Synced.here "note" e' = Some (as_bytes "hello") ∧ Synced.at_server 5 e' = as_bytes "WORLD!" ∧ m_last_seq (en_manifest e') = 7.
Proof. vm_compute. split_and!; reflexivity. Qed.

(** A new directory is pushed with what it holds, asking the patterns about
    paths relative to it: a path they exclude is uploaded. *)
Theorem new_directory_pushes_excluded :
  let e := Synced.engine ["docs/secret"] Newer []
             (Synced.disk_of [("docs", 10)] [(10, Demo.dir [("secret", 11)]); (11, Synced.file "key" 3)]) Synced.attached in
  let e' := Synced.run (push_batch Synced.env 9 [("docs", Created)]) e in
  en_excluded e "docs/secret" = true ∧
  (metadata Outage.env ["srv"; "data"; "docs"; "secret"] (w_fs (an_world (en_net e)))).1 = Err IoNotFound ∧
  (fs_read Outage.env ["srv"; "data"; "docs"; "secret"] (w_fs (an_world (en_net e')))).1 = Ok (as_bytes "key").
Proof. vm_compute. split_and!; reflexivity. Qed.

(** A directory is removed on the server.  Its own entry has nothing to compare,
    so it counts as unchanged, and the recursive removal takes a file in it
    that was never pushed. *)
Theorem remote_rmdir_takes_unsynced_child :
  let e := Synced.engine [] Newer [("docs", mkSyncEntry EkDir 0 0 0)]
             (Synced.disk_of [("docs", 10)] [(10, Demo.dir [("draft", 11)]); (11, Synced.file "new" 3)]) Synced.attached in
  let e' := Synced.run (apply_batch Synced.env 9 [mkFsEvent 1 Removed "docs" None None]) e in
  Synced.here "docs/draft" e = Some (as_bytes "new") ∧ m_entries (en_manifest e) !! "docs/draft" = None ∧
  Synced.here "docs/draft" e' = None.
Proof. vm_compute. split_and!; reflexivity. Qed.

(** The engine removed a file because the server did.  Within two seconds the
    user makes it again and removes it again: the removal still looks like the
    engine's own, and the server keeps the file. *)
Theorem echo_hides_user_delete :
  let gone w := upd_fs (remove_file Outage.env ["srv"; "data"; "note"] (w_fs w)).2 w in
  let e := Synced.engine [] Newer [Synced.note_base] (Synced.disk_of [("note", 10)] [(10, Synced.file "hello" 1)]) (gone Synced.attached) in
  let e := Synced.run (apply_batch Synced.env 9 [mkFsEvent 1 Removed "note" None None]) e in
  let e := set_disk (fs_write Synced.env ["home"; "sync"; "note"] (as_bytes "again") (en_disk e)).2 e in
  let e := Synced.run (push_batch Synced.env 9 [("note", Created)]) e in
  let e := set_disk (remove_file Synced.env ["home"; "sync"; "note"] (en_disk e)).2 e in
  let e := Synced.run (push_batch Synced.env 9 [("note", Removed)]) e in
  Synced.here "note" e = None ∧
  (fs_read Outage.env ["srv"; "data"; "note"] (w_fs (an_world (en_net e)))).1 = Ok (as_bytes "again").
Proof. vm_compute. split_and!; reflexivity. Qed.

(** The loser of a conflict cannot be copied aside -- the disk refuses the new
    name -- and is overwritten all the same. *)
Theorem conflict_loser_lost_when_copy_fails :
  let full_disk := mkEnv (λ call p, if bool_decide (call = SysOpen) && bool_decide (last p = Some "note.sync-conflict-0")
                                    then Some IoOther else None) 1000 (replicate 4 (Give 64)) (λ _, 420) 4096 (λ _, None) in
  let w := Synced.edited 5 "WORLD!" 500 Synced.attached in
  let e := Synced.engine [] RemoteWins [Synced.note_base] (Synced.disk_of [("note", 10)] [(10, Synced.file "mine" 600)]) w in
  let e' := Synced.run (push_batch full_disk 9 [("note", Modified)]) e in
  Synced.here "note" e = Some (as_bytes "mine") ∧ Synced.here "note" e' = Some (as_bytes "WORLD!") ∧
  Synced.here "note.sync-conflict-0" e' = None.
Proof. vm_compute. split_and!; reflexivity. Qed.

(** Copies of conflicts are named by the second: the copy of a second conflict
    on the same file within it replaces the first. *)
Theorem conflict_copies_collide :
  let w := Synced.edited 5 "WORLD!" 500 Synced.attached in
  let e := Synced.engine [] RemoteWins [Synced.note_base] (Synced.disk_of [("note", 10)] [(10, Synced.file "first" 600)]) w in
  let e := Synced.run (push_batch Synced.env 9 [("note", Modified)]) e in
  let e1 := Synced.meanwhile (Synced.edited 5 "WORLD?!" 800) e in
  let e1 := set_disk (fs_write (mkEnv (λ _ _, None) 900 [] (λ _, 420) 4096 (λ _, None)) ["home"; "sync"; "note"] (as_bytes "second") (en_disk e1)).2 e1 in
  let e2 := Synced.run (push_batch Synced.env 9 [("note", Modified)]) e1 in
  Synced.here "note.sync-conflict-0" e = Some (as_bytes "first") ∧ Synced.here "note.sync-conflict-0" e2 = Some (as_bytes "second").
Proof. vm_compute. split_and!; reflexivity. Qed.

(** Sweeping staging files follows links: one out of the directory leads it to
    remove files elsewhere. *)
Theorem sweep_leaves_the_directory :
  let fs := Synced.disk_of [("out", 10)] [(10, mkINode (LinkData "/etc") 1 1 511)] in
  let fs' := (sweep_staging Synced.env 9 [Synced.root] fs).2 in
  is_ok (metadata Synced.env ["etc"; ".ds-tmp-old"] fs).1 = true ∧
  (metadata Synced.env ["etc"; ".ds-tmp-old"] fs').1 = Err IoNotFound.
Proof. vm_compute. split_and!; reflexivity. Qed.

(** ** What an edit is safe from *)

Section Facts.
Context {N : Type} `{NET : Net N}.
Context (env : Env) (fuel : nat).
#[local] Abbreviation E := (Engine N).

Lemma set_disk_same (e : E) : set_disk (en_disk e) e = e.
Proof. by destruct e. Qed.

(** What [local_stat] sees; looking changes nothing. *)
Definition stat_here (rel : string) (e : E) : option Stat :=
  match (symlink_metadata env (full e rel) (en_disk e)).1 with
  | Err _ => None
  | Ok md => Some (if md_is_dir md then mkStat EkDir 0 0 0
                   else mkStat EkFile (md_len md) (default 0 (mtime_ns <$> md_modified md)) 0)
  end.

Lemma local_stat_looks rel e : local_stat env rel e = (Ok (stat_here rel e), e).
Proof.
  unfold local_stat, the_full, disk_try, stat_here, sbind, sget, sret.
  pose proof (keeps_symlink_metadata env (full e rel) (en_disk e)) as Hk. unfold same in Hk.
  destruct (symlink_metadata env (full e rel) (en_disk e)) as [r fs]. simpl in *. subst fs. by rw set_disk_same; destruct r.
Qed.

(** A removal on the server does not touch a local edit: when the local path is
    no longer what the baseline has -- other bytes, another time, another kind
    -- nothing on the disk, in the baseline or at the server changes. *)
Theorem remote_delete_keeps_edits ev e b l :
  ev_kind ev = Removed → m_entries (en_manifest e) !! ev_path ev = Some b →
  stat_here (ev_path ev) e = Some l → local_clean b l = false →
  apply_remote env fuel ev e = (Ok tt, e).
Proof.
  intros Hk Hb Hl Hc. unfold apply_remote. rw (sbind_eq sget _ e e e eq_refl) Hk. destruct (_ || _); [done|].
  unfold delete_local. rw (sbind_eq (the_full (ev_path ev)) _ e (full e (ev_path ev)) e eq_refl).
  rw (sbind_eq _ _ _ _ _ (local_stat_looks (ev_path ev) e)) Hl.
  rw (sbind_eq (baseline (ev_path ev)) _ e (Some b) e); [|by unfold baseline, sbind, sget, sret; rw Hb]. by rw Hc.
Qed.
End Facts.

(** ** What an edit on the server is safe from *)

(** A network that writes down requests and their answers. *)
Record Traced (N : Type) : Type := mkTraced { tr_net : N; tr_log : list (Request * Reply) }.
Arguments mkTraced {N}. Arguments tr_net {N}. Arguments tr_log {N}.

#[global] Instance traced_net {N} (NET : Net N) : Net (Traced N) := {
  net_now n := net_now (tr_net n);
  net_conn n := net_conn (tr_net n);
  net_swap conn n := mkTraced (net_swap conn (tr_net n)) (tr_log n);
  net_closed conn n := net_closed conn (tr_net n);
  net_request conn rq n :=
    let '(r, n') := net_request conn rq (tr_net n) in (r, mkTraced n' (tr_log n ++ [(rq, r)]));
  net_keepalive conn rq n :=
    let '(r, n') := net_keepalive conn rq (tr_net n) in
    (r, mkTraced n' (match r with Some r => tr_log n ++ [(rq, r)] | None => tr_log n end))
}.

(** A request that leaves the file at [rel] alone, after what was asked so far:
    it names another path, only looks, or writes through a handle that was
    opened for another path. *)
Definition harmless (rel : string) (log : list (Request * Reply)) (rq : Request) : Prop :=
  match rq with
  | RqCreate p _ _ | RqSetattr p _ _ _ | RqMkdir p _ | RqUnlink p | RqRmdir p | RqLink _ p | RqSymlink _ p => p ≠ rel
  | RqOpen p flags => p ≠ rel ∨ of_write flags = false ∧ of_truncate flags = false ∧ of_append flags = false
  | RqRename from to _ => from ≠ rel ∧ to ≠ rel
  | RqWrite fh _ _ _ => ∃ p flags mode a, p ≠ rel ∧ (RqCreate p flags mode, Ok (Ok (RsOpened fh a))) ∈ log
  | _ => True
  end.

Inductive all_harmless (rel : string) : list (Request * Reply) → Prop :=
| harmless_nil : all_harmless rel []
| harmless_snoc log rq r : all_harmless rel log → harmless rel log rq → all_harmless rel (log ++ [(rq, r)]).

Section Clobber.
Context {N : Type} `{NET : Net N}.
Context (env : Env) (fuel : nat) (rel : string).
#[local] Abbreviation E := (Engine (Traced N)).
#[local] Abbreviation EM := (M (Engine (Traced N)) Halt).

Definition sparing (e : E) : Prop := all_harmless rel (tr_log (en_net e)).

(** A step that, from [P], spares the file, and gives [Q] when it succeeds. *)
Definition spares {A} (P : E → Prop) (m : EM A) (Q : A → E → Prop) : Prop :=
  ∀ e, sparing e → P e → sparing (m e).2 ∧ match (m e).1 with Ok a => Q a (m e).2 | Err _ => True end.

Definition always : E → Prop := λ _, True.
Definition yes {A} : A → E → Prop := λ _ _, True.

Lemma spares_bind {A B} P (m : EM A) (f : A → EM B) R Q :
  spares P m R → (∀ a, spares (R a) (f a) Q) → spares P (sbind m f) Q.
Proof.
  intros Hm Hf e He HP. unfold sbind. destruct (Hm e He HP) as [H1 H2]. destruct (m e) as [[a|x] e']; simpl in *; [|done].
  by apply (Hf a).
Qed.

Lemma spares_bind' {A B} (m : EM A) (f : A → EM B) :
  spares always m yes → (∀ a, spares always (f a) yes) → spares always (sbind m f) yes.
Proof. intros Hm Hf. eapply spares_bind; [exact Hm|exact Hf]. Qed.

Lemma spares_pre {A} (P P' : E → Prop) (m : EM A) Q : spares P' m Q → (∀ e, P e → P' e) → spares P m Q.
Proof. intros Hm HP e He H. by apply Hm, HP. Qed.

Lemma spares_ret {A} P (a : A) : spares P (sret a) yes.
Proof. by intros e. Qed.
Lemma spares_fail {A} P h : spares P (sfail (A := A) h) yes.
Proof. by intros e. Qed.

(** A step that does not reach the network. *)
Lemma spares_local {A} (m : EM A) : (∀ e, tr_log (en_net (m e).2) = tr_log (en_net e)) → spares always m yes.
Proof. intros Hm e He _. unfold sparing. rw Hm. split; [done|]. by case_match. Qed.

Lemma spares_get {B} (f : E → EM B) : (∀ e, spares always (f e) yes) → spares always (sbind sget f) yes.
Proof. intros Hf e. by apply Hf. Qed.

Lemma spares_mod f : (∀ e, en_net (f e) = en_net e) → spares always (smod f) yes.
Proof. intros Hf. apply spares_local. intros e. simpl. by rw Hf. Qed.

Lemma spares_disk_try {A} (m : M Fs IoErrorKind A) : spares always (disk_try m) yes.
Proof. apply spares_local. intros e. unfold disk_try. by destruct (m (en_disk e)). Qed.

Lemma spares_disk {A} (m : M Fs IoErrorKind A) : spares always (disk m) yes.
Proof. apply spares_bind'; [apply spares_disk_try|]. intros []; [apply spares_ret|apply spares_fail]. Qed.

Lemma spares_attempt {A} (m : EM A) : spares always m yes → spares always (attempt m) yes.
Proof.
  intros Hm e He _. destruct (Hm e He I) as [H _]. unfold attempt. by destruct (m e) as [[a|[]] e'].
Qed.

(** Asking: the answer is on record. *)
Lemma spares_ask P rq : (∀ e, P e → harmless rel (tr_log (en_net e)) rq) →
  spares P (ask rq) (λ r e, (rq, r) ∈ tr_log (en_net e)).
Proof.
  intros Hh e He HP. unfold ask. unfold net_request, traced_net.
  change (net_conn (en_net e)) with (net_conn (tr_net (en_net e))).
  destruct (@net_request _ NET _ rq (tr_net (en_net e))) as [r n]. simpl. split.
  - apply harmless_snoc; [exact He|by apply Hh].
  - apply list_elem_of_In, in_app_iff. right. by left.
Qed.

Lemma spares_demand P rq : (∀ e, P e → harmless rel (tr_log (en_net e)) rq) →
  spares P (demand rq) (λ r e, (rq, Ok (Ok r)) ∈ tr_log (en_net e)).
Proof.
  intros Hh. unfold demand, request. eapply (spares_bind _ _ _ (λ r e, (rq, Ok r) ∈ tr_log (en_net e))).
  - eapply spares_bind; [by apply spares_ask|]. intros [r|t]; [|by intros e].
    intros e He HP. split; [done|]. exact HP.
  - intros [r|c]; [|by intros e]. by intros e.
Qed.

(** *** Transfers *)

Lemma spares_read_chunks fh chunks out : spares always (read_chunks fh chunks out) yes.
Proof.
  revert out. induction chunks as [|[o l] chunks IH]; intros out; cbn [read_chunks]; [apply spares_ret|].
  eapply spares_bind; [by apply spares_demand|]. intros r. eapply (spares_pre _ always); [|done].
  destruct r; try apply spares_fail. apply IH.
Qed.

Lemma spares_then {A B} P (m : EM A) (f : A → EM B) R :
  spares P m R → (∀ a, spares always (f a) yes) → spares P (sbind m f) yes.
Proof. intros Hm Hf. eapply spares_bind; [exact Hm|]. intros a. by eapply spares_pre. Qed.

(** Asking something that only looks, or names another path. *)
Lemma spares_ask_then {B} rq (f : Reply → EM B) :
  (∀ log, harmless rel log rq) → (∀ r, spares always (f r) yes) → spares always (sbind (ask rq) f) yes.
Proof. intros Hh. apply spares_then with (R := λ r e, (rq, r) ∈ tr_log (en_net e)). apply spares_ask. by intros. Qed.
Lemma spares_demand_then {B} rq (f : Response → EM B) :
  (∀ log, harmless rel log rq) → (∀ r, spares always (f r) yes) → spares always (sbind (demand rq) f) yes.
Proof. intros Hh. apply spares_then with (R := λ r e, (rq, Ok (Ok r)) ∈ tr_log (en_net e)). apply spares_demand. by intros. Qed.

Lemma spares_download p staging : spares always (download_to env p staging) yes.
Proof.
  unfold download_to. apply spares_demand_then; [by right|]. intros r. destruct r; try apply spares_fail.
  apply spares_bind'.
  { apply spares_attempt, spares_bind'; [apply spares_read_chunks|]. intros. apply spares_disk. }
  intros res. apply spares_ask_then; [done|]. intros _. destruct res; [|apply spares_fail].
  apply spares_bind'; [apply spares_disk|]. intros f. apply spares_bind'; [apply spares_disk|]. intros. apply spares_ret.
Qed.

(** Writing through a handle opened for another path. *)
Lemma spares_write_chunks fh chunks :
  spares (λ e, ∃ p flags mode a, p ≠ rel ∧ (RqCreate p flags mode, Ok (Ok (RsOpened fh a))) ∈ tr_log (en_net e))
    (write_chunks fh chunks) yes.
Proof.
  induction chunks as [|[o d] chunks IH]; cbn [write_chunks]; [by intros e|].
  intros e He HP. unfold sbind. pose proof (spares_ask (λ e, harmless rel (tr_log (en_net e)) (RqWrite fh o d None)) (RqWrite fh o d None) ltac:(done) e He HP) as [H1 H2].
  assert (∃ p flags mode a, p ≠ rel ∧ (RqCreate p flags mode, Ok (Ok (RsOpened fh a))) ∈ tr_log (en_net (ask (RqWrite fh o d None) e).2)) as HP'.
  { destruct HP as (p & fl & md & a & Hp & Hin). exists p, fl, md, a. split; [done|]. unfold ask, net_request, traced_net.
    change (net_conn (en_net e)) with (net_conn (tr_net (en_net e))).
    destruct (@net_request _ NET _ _ (tr_net (en_net e))) as [r n]. simpl. apply elem_of_app. by left. }
  destruct (ask (RqWrite fh o d None) e) as [[r|x] e']; simpl in *; [|done].
  destruct r as [[[]|]|]; try done. by apply IH.
Qed.

Lemma spares_upload q p : q ≠ rel → spares always (upload env q p) yes.
Proof.
  intros Hq. unfold upload. apply spares_bind'; [apply spares_disk|]. intros data.
  apply spares_bind'; [apply spares_disk|]. intros md. apply spares_bind'; [destruct (md_modified md); [apply spares_ret|apply spares_fail]|].
  intros mtime. eapply spares_bind; [apply spares_demand; by intros|]. intros r. destruct r; try apply spares_fail.
  eapply spares_then.
  { eapply spares_pre; [apply spares_write_chunks|]. simpl. intros e Hin. eauto 10. }
  intros written. apply spares_ask_then; [done|]. intros _. destruct (negb written); [apply spares_fail|].
  apply spares_demand_then; [done|]. intros r. destruct r; first [apply spares_ret | apply spares_fail].
Qed.

(** *** Pulling and pushing *)

Lemma spares_stat p : spares always (local_stat env p) yes.
Proof. apply spares_local. intros e. by rw local_stat_looks. Qed.

Lemma spares_record p kind size mtime version : spares always (record (N := Traced N) p kind size mtime version) yes.
Proof. by apply spares_mod. Qed.
Lemma spares_stats f : spares always (bump_stats (N := Traced N) f) yes.
Proof. by apply spares_mod. Qed.
Lemma spares_expect p x : spares always (expect p x) yes.
Proof. by apply spares_mod. Qed.
Lemma spares_full p : spares always (the_full (N := Traced N) p) yes.
Proof. by apply spares_local. Qed.

Lemma spares_push q : q ≠ rel → spares always (push env q) yes.
Proof.
  intros Hq. unfold push. apply spares_bind'; [apply spares_full|]. intros p.
  apply spares_bind'; [by apply spares_upload|]. intros a. apply spares_bind'; [apply spares_stat|]. intros [l|]; [|apply spares_fail].
  apply spares_bind'; [apply spares_record|]. intros. apply spares_stats.
Qed.

Lemma spares_pull q : spares always (pull env q) yes.
Proof.
  unfold pull. apply spares_bind'; [apply spares_full|]. intros p. case_bool_decide; [apply spares_fail|].
  apply spares_bind'; [apply spares_disk|]. intros _. destruct (file_name p) as [name|]; [|apply spares_fail].
  apply spares_bind'; [apply spares_attempt, spares_download|]. intros [a|x].
  - apply spares_bind'; [apply spares_expect|]. intros _. apply spares_bind'; [apply spares_disk|]. intros _.
    apply spares_bind'; [apply spares_record|]. intros _. apply spares_stats.
  - apply spares_bind'; [apply spares_disk_try|]. intros _. apply spares_fail.
Qed.

Lemma conflict_name_differs t p : conflict_name t p ≠ p.
Proof.
  unfold conflict_name. intros H. apply (f_equal String.length) in H. rw !str_length_app in H. simpl in H. lia.
Qed.

(** A conflict the server wins. *)
Lemma spares_conflict l r : spares (λ e, en_policy e = RemoteWins) (resolve_conflict env rel l r) yes.
Proof.
  intros e He Hp. unfold resolve_conflict.
  change (sbind (bump_stats add_conflicts) ?k e) with (k tt (bump_stats (N := Traced N) add_conflicts e).2); cbv beta.
  set (e1 := (bump_stats add_conflicts e).2). assert (sparing e1) as He1 by done. assert (en_policy e1 = RemoteWins) as Hp1 by done.
  rw (sbind_eq sget _ e1 e1 e1 eq_refl) Hp1. cbn [local_wins].
  enough (spares always (if str_contains ".sync-conflict-" rel then pull env rel else
    let! kept := keep_local env rel (conflict_name (now env) rel) in
    finally (pull env rel) (push_kept env kept (conflict_name (now env) rel))) yes) as H by (by apply H).
  destruct (str_contains _ rel); [apply spares_pull|]. apply spares_bind'.
  { unfold keep_local. apply spares_bind'; [apply spares_full|]. intros. apply spares_bind'; [apply spares_full|]. intros.
    apply spares_bind'; [apply spares_disk_try|]. intros. apply spares_ret. }
  intros kept. unfold finally. apply spares_bind'; [apply spares_attempt, spares_pull|]. intros res.
  apply spares_bind'; [|intros; destruct res; [apply spares_ret|apply spares_fail]].
  unfold push_kept. destruct kept; [|apply spares_ret]. apply spares_bind'; [|intros; apply spares_ret].
  apply spares_attempt, spares_push, conflict_name_differs.
Qed.

Lemma spares_echo p : spares always (is_own_echo env p) yes.
Proof.
  unfold is_own_echo. apply spares_get. intros e. destruct (en_suppress e !! p) as [x|]; [|apply spares_ret].
  destruct (_ <? _).
  - apply spares_bind'; [by apply spares_mod|]. intros. apply spares_ret.
  - apply spares_bind'; [apply spares_stat|]. intros. apply spares_ret.
Qed.

(** What the echo test leaves as it is. *)
Lemma echo_looks p (e : E) : let e' := (is_own_echo env p e).2 in
  en_net e' = en_net e ∧ en_manifest e' = en_manifest e ∧ en_policy e' = en_policy e ∧
  ∀ q, stat_here env q e' = stat_here env q e.
Proof.
  unfold is_own_echo. rw (sbind_eq sget _ e e e eq_refl). destruct (en_suppress e !! p) as [x|]; [|done].
  destruct (_ <? _); [done|]. by rw (sbind_eq _ _ _ _ _ (local_stat_looks env p e)).
Qed.

End Clobber.

Definition traced {N} (e : Engine N) : Engine (Traced N) :=
  mkEngine (en_root e) (en_export e) (en_excluded e) (en_manifest e) (en_saved e) (en_suppress e) (en_policy e) (en_dialer e)
    (en_epoch e) (en_queue e) (en_stats e) (en_stopped e) (en_disk e) (mkTraced (en_net e) []).

Lemma remote_delete_keeps_edits_witness :
  let e := Synced.engine [] Newer [Synced.note_base] (Synced.disk_of [("note", 10)] [(10, Synced.file "mine" 600)]) Synced.attached in
  apply_remote Synced.env 9 (mkFsEvent 1 Removed "note" None None) e = (Ok tt, e).
Proof.
  intros e. apply (remote_delete_keeps_edits Synced.env 9 (mkFsEvent 1 Removed "note" None None) e
    (mkSyncEntry EkFile 0 5 1) (mkStat EkFile 4 600 0)); vm_compute; reflexivity.
Defined.

