(* ===== verification/SyncPull.v ===== *)
(** * SyncPull: a file fetched by the sync engine

    [pull] puts exactly the server's bytes in place, mirrors size and time on
    both sides and in the baseline, touches no other file, and its own echo
    from the watcher is recognised. *)

From S2P Require Import Prelude Messages Common Exclude Coalesce Inode AutoCache Sync Fs Agent AgentFacts Transport Overlay Disk RemoteFs RemoteFacts EndToEnd SyncEngine SyncFacts.

(** ** Fetching *)

Section Pull.
Context {N : Type} `{NET : Net N}.
Context (env : Env) (calm : ∀ call p, fault env call p = None).
#[local] Abbreviation E := (Engine N).

(** The server serves [bs] at [rel] with attributes [a]; [Sv] is the state of
    the network before the file is opened, and while it is open as a handle. *)
Record serving (rel : string) (a : Attr) (bs : list Z) (Sv : option Z → N → Prop) : Prop := {
  sv_size : a_size a = blen bs;
  sv_kind : a_kind a = KFile;
  sv_open : ∀ n, Sv None n → ∃ fh n',
    net_request (net_conn n) (RqOpen rel (mkOpenFlags true false false false false)) n = (Ok (Ok (RsOpened fh a)), n') ∧ Sv (Some fh) n';
  sv_read : ∀ n fh off len, Sv (Some fh) n → ∃ n',
    net_request (net_conn n) (RqRead fh off len) n = (Ok (Ok (RsData (slice bs (Z.to_nat off) (Z.to_nat len)))), n') ∧ Sv (Some fh) n'
}.

Context (rel : string) (a : Attr) (bs : list Z) (Sv : option Z → N → Prop) (served : serving rel a bs Sv).

Definition over (n : N) (e : E) : E := set_enet n (en_epoch e) e.

Lemma demand_eq rq e resp n : net_request (net_conn (en_net e)) rq (en_net e) = (Ok (Ok resp), n) →
  demand rq e = (Ok resp, over n e).
Proof. intros H. unfold demand, request, ask, sbind. by rw H. Qed.

Lemma read_chunks_serves fh chunks out e : Sv (Some fh) (en_net e) →
  ∃ n', read_chunks fh chunks out e
        = (Ok (out ++ concat ((λ ol : Z * Z, slice bs (Z.to_nat ol.1) (Z.to_nat ol.2)) <$> chunks)), over n' e) ∧ Sv (Some fh) n'.
Proof using served.
  revert out e. induction chunks as [|[off len] chunks IH]; intros out e Hs; cbn [read_chunks].
  { exists (en_net e). split; [|done]. simpl. rw app_nil_r. by destruct e. }
  destruct (sv_read _ _ _ _ served (en_net e) fh off len Hs) as (n1 & Hn & Hs1).
  rw (sbind_eq _ _ _ _ _ (demand_eq _ _ _ _ Hn)). destruct (IH (out ++ slice bs (Z.to_nat off) (Z.to_nat len)) (over n1 e) Hs1) as (n2 & H2 & Hs2).
  exists n2. split; [|done]. rw H2. simpl. by rw -app_assoc.
Qed.

Lemma disk_eq {A} (m : M Fs IoErrorKind A) (e : E) x fs' : m (en_disk e) = (Ok x, fs') → disk m e = (Ok x, set_disk fs' e).
Proof. intros H. unfold disk, disk_try, sbind. by rw H. Qed.

(** The whole body of the file. *)
Lemma chunks_whole : concat ((λ ol : Z * Z, slice bs (Z.to_nat ol.1) (Z.to_nat ol.2)) <$> body_chunks (a_size a)) = bs.
Proof using served.
  rw (sv_size _ _ _ _ served). pose proof (download_exact bs) as H. unfold fetch_body in H. rw fetch_body_foldl in H.
  by injection H as H.
Qed.

(** Downloading to a free name: the bytes and the time of the server's file. *)
Lemma download_new s es c e : directory (en_disk e) s es → good_component c → es !! c = None →
  nodes (en_disk e) !! next_ino (en_disk e) = None → Sv None (en_net e) →
  let j := next_ino (en_disk e) in
  ∃ fs' n' m, download_to env rel (path_of s ++ [c]) e = (Ok a, set_disk fs' (over n' e)) ∧
    directory fs' s (<[c := j]> es) ∧ nodes fs' !! j = Some m ∧ n_content m = FileData bs ∧ n_mtime m = a_mtime a ∧
    j ≠ ino_of s ∧ ∀ i, i ≠ j → i ≠ ino_of s → nodes fs' !! i = nodes (en_disk e) !! i.
Proof using calm served.
  intros Hdir Hc He Hj Hs j. unfold download_to.
  destruct (sv_open _ _ _ _ served _ Hs) as (fh & n1 & Hn1 & Hs1). rw (sbind_eq _ _ _ _ _ (demand_eq _ _ _ _ Hn1)).
  destruct (read_chunks_serves fh (body_chunks (a_size a)) [] (over n1 e) Hs1) as (n2 & Hr & Hs2). rw chunks_whole in Hr.
  destruct (fs_write_new env calm (en_disk e) s es c bs Hdir Hc He Hj) as (fs1 & Hw & Hdir1 & Hc1 & Hjs & Hjn & Ho1).
  assert (attempt (fetch_body_to env fh (a_size a) (path_of s ++ [c])) (over n1 e) = (Ok (Ok tt), set_disk fs1 (over n2 e))) as Hf.
  { unfold attempt, fetch_body_to. rw (sbind_eq _ _ _ _ _ Hr). cbn [app].
    by rw (disk_eq (fs_write env (path_of s ++ [c]) bs) (over n2 e) tt fs1 Hw). }
  rw (sbind_eq _ _ _ _ _ Hf).
  destruct (net_request (net_conn n2) (RqRelease fh) n2) as [r3 n3] eqn:Hn3.
  assert (ask (RqRelease fh) (set_disk fs1 (over n2 e)) = (Ok r3, set_disk fs1 (over n3 e))) as Ha.
  { unfold ask. simpl. by rw Hn3. }
  rw (sbind_eq _ _ _ _ _ Ha).
  pose proof (open_there env calm true fs1 s _ c _ bs Hdir1 Hc (lookup_insert_eq _ _ _) Hc1) as Hop.
  rw (sbind_eq _ _ _ _ _ (disk_eq _ (set_disk fs1 (over n3 e)) _ _ Hop)).
  destruct (set_modified_there env calm fs1 s _ _ bs (path_of s ++ [c]) (a_mtime a) Hdir1 Hc1 Hjn) as (fs2 & m & Hm & Hdir2 & Hm1 & Hm2 & Hm3 & Ho2).
  rw (sbind_eq _ _ _ _ _ (disk_eq _ (set_disk fs1 (set_disk fs1 (over n3 e))) _ _ Hm)).
  exists fs2, n3, m. split; [done|]. split_and!; try done. intros i H1 H2. by rw Ho2 // Ho1.
Qed.

Definition staged (c : string) : string := ".ds-tmp-" +:+ c.

Lemma staged_good c : good_component c → good_component (staged c) ∧ staged c ≠ c.
Proof.
  intros (H1 & H2 & H3 & H4 & H5). unfold staged. split.
  - unfold good_component. rw !contains_char_app H4 H5. by split_and!.
  - intros H. apply (f_equal String.length) in H. rw str_length_app in H. simpl in H. lia.
Qed.

Lemma file_name_snoc p c : good_component c → utf8_valid c = true → file_name (p ++ [c]) = Some c.
Proof.
  intros (_ & _ & H & _) Hu. unfold file_name. rw last_snoc bool_decide_false //. unfold to_str. by rw Hu.
Qed.

(** A file whose size and time agree in all three views needs nothing. *)
Lemma plan_in_step p size mt v w x :
  plan_path p (Some (mkSyncEntry EkFile v size mt)) (Some (mkStat EkFile size mt w)) (Some (mkStat EkFile size mt x)) = None.
Proof.
  assert (∀ y, same_stat EkFile size mt (mkStat EkFile size mt y) = true) as Hss.
  { intros y. unfold same_stat. simpl. by rw !bool_decide_true. }
  unfold plan_path, local_changed, remote_changed. cbn [se_kind se_size se_mtime_ns remote_version st_version]. rw !Hss.
  simpl. by destruct (negb _ && _).
Qed.

(** C3.  [pull] over an undisturbed disk: the server's bytes are in place under the
    name, with the server's time, in a directory otherwise as before; no file
    that was there changes.  Size and time agree on both sides and in the
    baseline, so that the next comparison of the three finds nothing to do, and
    the watcher's report of the new file is known for the engine's own. *)
Theorem pull_exact s es c e :
  full e rel = path_of s ++ [c] → directory (en_disk e) s es → good_component c → utf8_valid c = true →
  es !! staged c = None → (∀ i, es !! c = Some i → ∃ bs', content_at (en_disk e) i = Some (FileData bs')) →
  nodes (en_disk e) !! next_ino (en_disk e) = None → Sv None (en_net e) →
  let j := next_ino (en_disk e) in
  ∃ e', pull env rel e = (Ok tt, e') ∧
    (fs_read env (full e' rel) (en_disk e')).1 = Ok bs ∧ directory (en_disk e') s (<[c := j]> es) ∧
    (∀ i, is_Some (nodes (en_disk e) !! i) → i ≠ ino_of s → nodes (en_disk e') !! i = nodes (en_disk e) !! i) ∧
    plan_path rel (m_entries (en_manifest e') !! rel) (stat_here env rel e') (Some (file_stat a)) = None ∧
    is_own_echo env rel e' = (Ok true, e').
Proof using calm served.
  intros Hp Hdir Hc Hu Hst Ho Hj Hs j. destruct (staged_good c Hc) as [Hsg Hsc].
  unfold pull. rw (sbind_eq (the_full rel) _ e (full e rel) e eq_refl) Hp.
  rw bool_decide_false; [|by destruct (path_of s)]. rw removelast_last.
  rw (sbind_eq _ _ _ _ _ (disk_eq _ _ _ _ (create_dir_all_there env calm _ _ _ Hdir))) set_disk_same file_name_snoc //.
  unfold staging_for. rw removelast_last. fold (staged c).
  destruct (download_new s es (staged c) e Hdir Hsg Hst Hj Hs) as (fs1 & n1 & m & Hd & Hdir1 & Hm & Hmc & Hmt & Hjs & Ho1).
  assert (attempt (download_to env rel (path_of s ++ [staged c])) e = (Ok (Ok a), set_disk fs1 (over n1 e))) as Ha.
  { unfold attempt. by rw Hd. }
  rw (sbind_eq _ _ _ _ _ Ha). clear Ha Hd.
  set (e1 := set_disk fs1 (over n1 e)).
  change (sbind (expect rel ?x) ?k e1) with (k tt (expect rel x e1).2); cbv beta. set (e2 := (expect _ _ e1).2).
  assert (content_at fs1 j = Some (FileData bs)) as Hcj by (unfold content_at; by rw Hm /= Hmc).
  destruct (rename_in env calm fs1 s _ (staged c) c j bs Hdir1 Hsg Hc Hsc (lookup_insert_eq _ _ _) Hcj) as (fs2 & Hr & Hdir2 & Ho2).
  { intros i. rw lookup_insert_ne //. intros Hi. destruct (Ho i Hi) as [bs' Hb]. assert (i ≠ j) as Hij.
    { intros ->. unfold content_at in Hb. by rw Hj in Hb. }
    split; [done|]. exists bs'. unfold content_at in *. rw Ho1 //. intros ->. pose proof (dir_content _ _ _ Hdir) as Hd0. unfold content_at in Hd0. congruence. }
  rw (sbind_eq _ _ _ _ _ (disk_eq _ e2 _ _ Hr)).
  assert (delete (staged c) (<[staged c:=j]> es) = es) as Hes by (by rw delete_insert_eq delete_id). rw Hes in Hdir2.
  set (e3 := set_disk fs2 e2).
  set (e' := (bump_stats add_pulls (record rel EkFile (a_size a) (mtime_ns (a_mtime a)) (a_version a) e3).2).2).
  exists e'. split; [reflexivity|].
  assert (en_disk e' = fs2) as Ed by done. assert (full e' rel = path_of s ++ [c]) as Ef by exact Hp.
  assert (nodes fs2 !! j = Some m) as Hm2 by (by rw Ho2).
  assert (stat_here env rel e' = Some (mkStat EkFile (blen bs) (mtime_ns (a_mtime a)) 0)) as Hstat.
  { unfold stat_here. rw Ed Ef (lstat_there env calm fs2 s _ c j m bs Hdir2 Hc (lookup_insert_eq _ _ _) Hm2 Hmc). simpl. unfold stat_of. by rw Hmc /= Hmt. }
  split; [|split; [exact Hdir2|split_and!]].
  - rw Ed Ef. unfold fs_read. rw (sbind_eq _ _ _ _ _ (open_there env calm false fs2 s _ c j bs Hdir2 Hc (lookup_insert_eq _ _ _) ltac:(by unfold content_at; rw Hm2 /= Hmc))).
    unfold sbind, sget. unfold content_at. by rw Hm2 /= Hmc.
  - intros i [x Hi] His. rw Ed Ho2 // Ho1 //. intros ->. by rw Hj in Hi.
  - rw Hstat. change (m_entries (en_manifest e') !! rel) with ((<[rel := mkSyncEntry EkFile (a_version a) (a_size a) (mtime_ns (a_mtime a))]> (m_entries (en_manifest e))) !! rel).
    rw lookup_insert_eq. unfold file_stat. rw (sv_size _ _ _ _ served). apply plan_in_step.
  - unfold is_own_echo. rw (sbind_eq sget _ e' e' e' eq_refl).
    change (en_suppress e' !! rel) with ((<[rel := mkSuppress (ExPresent (a_size a) (mtime_ns (a_mtime a))) (net_now n1)]> (en_suppress e)) !! rel).
    rw lookup_insert_eq. change (net_now (en_net e')) with (net_now n1). rw Z.sub_diag. cbn [sp_at sp_expect].
    change (SUPPRESS_TTL <? Z.max 0 0) with false. cbv iota.
    rw (sbind_eq _ _ _ _ _ (local_stat_looks env rel e')) Hstat. simpl. by rw (sv_size _ _ _ _ served) !bool_decide_true.
Qed.
End Pull.

(** ** A witness *)

Module Serve.
Definition attr : Attr := mkAttr KFile 5 77 1 420 9.
#[global] Instance net : Net unit := {
  net_now _ := 0; net_conn _ := mkConn 1 4; net_swap _ n := n; net_closed _ _ := false;
  net_request _ rq n :=
    (match rq with
     | RqOpen _ _ => Ok (Ok (RsOpened 3 attr))
     | RqRead _ off len => Ok (Ok (RsData (slice (as_bytes "hello") (Z.to_nat off) (Z.to_nat len))))
     | _ => Ok (Ok RsOk)
     end, n);
  net_keepalive _ _ n := (None, n)
}.
Definition calm_env : Env := mkEnv (λ _ _, None) 1000 [] (λ d, if d then 493 else 420) 4096 (λ _, None).
Definition stack : Stack := [("sync", 2); ("home", 1)].
Definition disk : Fs := Synced.disk_of [("note", 10); ("other", 11)] [(10, Synced.file "old" 3); (11, Synced.file "kept" 4)].
Definition engine : Engine unit :=
  mkEngine Synced.root "data" (λ _, false) (mkManifest 0 ∅) (mkManifest 0 ∅) ∅ Newer false 0 [] (mkStats 0 0 0 0 0 0) false disk tt.
End Serve.

Lemma pull_exact_witness :
  ∃ e', pull Serve.calm_env "note" Serve.engine = (Ok tt, e') ∧
    (fs_read Serve.calm_env (full e' "note") (en_disk e')).1 = Ok (as_bytes "hello") ∧
    nodes (en_disk e') !! 11 = Some (Synced.file "kept" 4) ∧ is_own_echo Serve.calm_env "note" e' = (Ok true, e').
Proof.
  assert (serving "note" Serve.attr (as_bytes "hello") (λ (_ : option Z) (_ : unit), True)) as Hs.
  { split; try reflexivity; intros []; intros; repeat eexists. }
  assert (directory (en_disk Serve.engine) Serve.stack (list_to_map [("note", 10); ("other", 11)])) as Hd.
  { split; [|vm_compute; reflexivity|right; vm_compute; set_solver].
    repeat (econstructor; try (vm_compute; reflexivity); try discriminate). }
  assert (∀ i, (list_to_map [("note", 10); ("other", 11)] : gmap string Z) !! "note" = Some i →
    ∃ bs', content_at (en_disk Serve.engine) i = Some (FileData bs')) as Ho.
  { intros i Hi. vm_compute in Hi. injection Hi as <-. exists (as_bytes "old"). vm_compute. reflexivity. }
  destruct (pull_exact Serve.calm_env (λ _ _, eq_refl) "note" Serve.attr (as_bytes "hello") _ Hs Serve.stack
    (list_to_map [("note", 10); ("other", 11)]) "note" Serve.engine eq_refl Hd ltac:(vm_compute; split_and!; done) eq_refl
    ltac:(vm_compute; reflexivity) Ho ltac:(vm_compute; reflexivity) I) as (e' & H1 & H2 & _ & H3 & _ & H4).
  exists e'. split; [exact H1|]. split; [exact H2|]. split; [|exact H4].
  rw (H3 11); [vm_compute; reflexivity|vm_compute; eexists; reflexivity|vm_compute; discriminate].
Defined.
