(* ===== verification/Tasks.v ===== *)
(** * Tasks: the background tasks of a client

    alloyfs-client: the waits of the supervisor that replaces a lost connection
    (remote_fs.rs and sync/engine.rs share its shape); the wait of a call for as
    long as its peer lives (alloyfs-transport, mux.rs); the loop of the sync's
    local watcher (sync/engine.rs); and the baseline on disk
    (sync/manifest.rs).  The event pump is in [Pump].

    The waits of the supervisor stay between half a second and fifteen, but a
    refused attach is tried again without one.  A watcher that hears of a change
    before every timeout never hands one over.  Writing the baseline is atomic:
    at every point of it, and whatever fails, the file holds the old baseline or
    the new one. *)

From S2P Require Import Prelude Messages Common Exclude Coalesce Fs Agent AgentFacts Transport Overlay Disk Sync RemoteFs.

(** ** The supervisor's waits, in ms *)

Inductive DialOutcome : Type := DialFails | AttachRefused | Attached.
Definition MAX_DELAY : Z := 15000.

(** The waits until the connection stands; a refused attach starts over. *)
Fixpoint reconnect_waits (outcomes : list DialOutcome) (delay : Z) : list Z * bool :=
  match outcomes with
  | [] => ([], false)
  | DialFails :: outcomes => let '(waits, ok) := reconnect_waits outcomes (next_delay delay) in (delay :: waits, ok)
  | AttachRefused :: outcomes => reconnect_waits outcomes FIRST_DELAY
  | Attached :: _ => ([], true)
  end.

(** ** Waiting for a lock (transport, mux.rs) *)

Definition KEEPALIVE_INTERVAL : Z := 10000.
Definition KEEPALIVE_GRACE : Z := 10000.

(** How one ping of a waiting call ends. *)
Inductive PingEnd : Type := Pong (rtt : Z) | PingFails | NoPong.

(** When [liveness_lost] resolves, from time [t] on; [None] while the peer
    answers. *)
Fixpoint liveness_lost (pings : list PingEnd) (t : Z) : option Z :=
  match pings with
  | [] => None
  | Pong rtt :: pings =>
      if rtt <? KEEPALIVE_GRACE then liveness_lost pings (t + KEEPALIVE_INTERVAL + rtt) else Some (t + KEEPALIVE_INTERVAL + KEEPALIVE_GRACE)
  | PingFails :: _ => Some (t + KEEPALIVE_INTERVAL)
  | NoPong :: _ => Some (t + KEEPALIVE_INTERVAL + KEEPALIVE_GRACE)
  end.

(** [request_keepalive], once sent: the answer at its time ([None] inside: the
    connection went), or the end of the peer's liveness. *)
Definition request_keepalive (done : option (Z * option Body)) (pings : list PingEnd) : option (result Body TransportError) :=
  match done, liveness_lost pings 0 with
  | Some (at_, r), Some lost => Some (if at_ <=? lost then match r with Some body => Ok body | None => Err TClosed end else Err TTimeout)
  | Some (_, Some body), None => Some (Ok body)
  | Some (_, None), None => Some (Err TClosed)
  | None, Some _ => Some (Err TTimeout)
  | None, None => None
  end.

(** ** The watcher of a sync *)

Record SyncWatch : Type := mkSyncWatch { sw_co : Coalescer; sw_batches : list (list (RelPath * EventKind)) }.

(** What wakes the loop: the raw event comes [gap] ms after the last turn, or
    nothing comes for the timeout, or the watcher is gone. *)
Inductive SyncWake : Type := Raw (gap : Z) (ev : NotifyEvent) | Slept | Gone.

Definition sync_timeout (debounce : Z) (co : Coalescer) : Z := if co_is_empty co then 3600 * 1000 else debounce.

(** A batch is handed to the executor without the names of the engine's own. *)
Definition hand_over (w : SyncWatch) : SyncWatch :=
  let '(batch, co) := take_batch (sw_co w) in
  let batch := base.filter (λ pk : RelPath * EventKind, is_internal pk.1 = false) batch in
  mkSyncWatch co (if bool_decide (batch = []) then sw_batches w else sw_batches w ++ [batch]).

Definition sync_watch_turn (debounce now : Z) (stopped : bool) (w : SyncWatch) (wake : SyncWake) : option SyncWatch :=
  if stopped then None
  else match wake with
  | Raw gap ev =>
      let w := if sync_timeout debounce (sw_co w) <=? gap then hand_over w else w in
      Some (mkSyncWatch (ingest (now + gap) (sw_co w) ev) (sw_batches w))
  | Slept => Some (hand_over w)
  | Gone => None
  end.

Fixpoint sync_watch (debounce now : Z) (w : SyncWatch) (wakes : list SyncWake) : SyncWatch :=
  match wakes with
  | [] => w
  | wake :: wakes =>
      match sync_watch_turn debounce now false w wake with
      | Some w => sync_watch debounce (now + match wake with Raw gap _ => gap | _ => debounce end) w wakes
      | None => w
      end
  end.

(** ** The baseline on disk *)

Class Json := {
  to_json : SyncManifest → option (list Z);
  from_json : list Z → option SyncManifest;
  json_roundtrip m t : to_json m = Some t → from_json t = Some m
}.

Section Manifest.
Context `{JSON : Json} (env : Env).
#[local] Abbreviation DiskM := (M Fs IoErrorKind).

Definition empty_manifest : SyncManifest := mkManifest 0 ∅.

(** [SyncManifest::load]: anything that cannot be read or parsed is a fresh start. *)
Definition load_manifest (path : list string) : DiskM SyncManifest :=
  let! r := stry (fs_read env path) in
  sret (match r with Ok text => default empty_manifest (from_json text) | Err _ => empty_manifest end).

(** [path.with_extension("json.part")] of a name "<stem>.json". *)
Definition part_name (stem : string) : string := stem +:+ ".json.part".
Definition json_name (stem : string) : string := stem +:+ ".json".

(** The steps of [flush], and [flush]: errors end it quietly. *)
Definition flush_write (dir : list string) (stem : string) (m : SyncManifest) : DiskM bool :=
  match to_json m with
  | None => sret false
  | Some json =>
      run! stry (create_dir_all env dir) in
      let! r := stry (fs_write env (dir ++ [part_name stem]) json) in
      sret (is_ok r)
  end.
Definition flush_baseline (dir : list string) (stem : string) (m : SyncManifest) : DiskM unit :=
  let! written := flush_write dir stem m in
  if written : bool then run! stry (sys_rename env (dir ++ [part_name stem]) (dir ++ [json_name stem])) in sret tt else sret tt.
End Manifest.

(** ** Waiting *)

(** Every wait of the supervisor is between half a second and fifteen. *)
Theorem waits_bounded outcomes delay : FIRST_DELAY ≤ delay ≤ MAX_DELAY →
  Forall (λ w, FIRST_DELAY ≤ w ≤ MAX_DELAY) (reconnect_waits outcomes delay).1.
Proof.
  revert delay. induction outcomes as [|[] outcomes IH]; intros delay Hd; cbn [reconnect_waits]; try by apply Forall_nil_2.
  - specialize (IH (next_delay delay)). destruct (reconnect_waits outcomes (next_delay delay)) as [waits ok]. cbn in *.
    apply Forall_cons. split; [done|]. apply IH. unfold next_delay, FIRST_DELAY, MAX_DELAY in *. lia.
  - apply IH. unfold FIRST_DELAY, MAX_DELAY. lia.
Qed.

(** A server that accepts connections and refuses to attach them is dialled
    again and again without any wait. *)
Theorem refused_attach_spins n delay : reconnect_waits (replicate n AttachRefused ++ [Attached]) delay = ([], true).
Proof. revert delay. induction n as [|n IH]; intros delay; [done|]. apply IH. Qed.

Definition answers (p : PingEnd) : Prop := match p with Pong rtt => 0 ≤ rtt < KEEPALIVE_GRACE | _ => False end.
(** The time the answered pings took. *)
Definition answered_for (pings : list PingEnd) : Z :=
  foldr (λ p t, match p with Pong rtt => KEEPALIVE_INTERVAL + rtt | _ => 0 end + t) 0 pings.

Lemma liveness_after pings rest t : Forall answers pings → liveness_lost (pings ++ rest) t = liveness_lost rest (t + answered_for pings).
Proof.
  intros Ha. revert t. induction Ha as [|p pings Hp _ IH]; intros t; cbn [app answered_for foldr]; [f_equal; lia|].
  destruct p as [rtt| |]; [|done..]. cbn [liveness_lost]. rw (proj2 (Z.ltb_lt _ _)); [|apply Hp]. rw IH. fold (answered_for pings). f_equal. lia.
Qed.

(** A call that waits for as long as its peer is alive: while the peer answers
    pings it is not given up, whatever time passes; when the peer stops
    answering, it is within twenty seconds of the last answer, unless the
    answer to the call itself comes first. *)
Theorem waiting_call_ends pings rest done : Forall answers pings →
  request_keepalive None pings = None ∧
  liveness_lost (pings ++ NoPong :: rest) 0 = Some (answered_for pings + 20000) ∧
  (∀ at_ body, done = Some (at_, Some body) → at_ ≤ answered_for pings + 20000 → request_keepalive done (pings ++ NoPong :: rest) = Some (Ok body)).
Proof.
  intros Ha. assert (liveness_lost (pings ++ NoPong :: rest) 0 = Some (answered_for pings + 20000)) as Hl.
  { rw liveness_after //. cbn [liveness_lost]. unfold KEEPALIVE_INTERVAL, KEEPALIVE_GRACE. f_equal. lia. }
  split_and!; [|done|].
  - unfold request_keepalive. pose proof (liveness_after pings [] 0 Ha) as E. rw app_nil_r in E. by rw E.
  - intros at_ body -> Hle. unfold request_keepalive. by rw Hl (proj2 (Z.leb_le _ _) Hle).
Qed.

(** ** Watching *)

Definition quick (debounce : Z) (wake : SyncWake) : Prop := match wake with Raw gap _ => gap < debounce | _ => False end.

(** While changes keep coming faster than the debounce, the sync hands none of
    them over, for however long. *)
Theorem steady_changes_starve_sync debounce now w wakes : debounce ≤ 3600 * 1000 → Forall (quick debounce) wakes →
  sw_batches (sync_watch debounce now w wakes) = sw_batches w.
Proof.
  intros Hd Hq. revert now w. induction Hq as [|wake wakes Hw _ IH]; intros now w; [done|]. cbn [sync_watch].
  destruct wake as [gap ev| |]; [|done..]. cbn [sync_watch_turn]. cbn in Hw.
  assert ((sync_timeout debounce (sw_co w) <=? gap) = false) as ->.
  { apply Z.leb_gt. unfold sync_timeout. destruct (co_is_empty _); lia. }
  by rw IH.
Qed.

(** A pause of the debounce hands over everything gathered so far. *)
Theorem pause_hands_over debounce now w ev :
  sw_batches (sync_watch debounce now w [Raw debounce ev]) =
  sw_batches (if co_is_empty (sw_co w) && (debounce <? 3600 * 1000) then w else hand_over w).
Proof.
  cbn [sync_watch sync_watch_turn]. unfold sync_timeout. destruct (co_is_empty (sw_co w)); cbn [andb sw_batches].
  - destruct (Z.leb_spec (3600 * 1000) debounce); destruct (Z.ltb_spec debounce (3600 * 1000)); try lia; done.
  - by rw (Z.leb_refl debounce).
Qed.

(** ** The baseline survives *)

#[local] Opaque walk place.

Section Atomic.
Context `{JSON : Json} (env : Env) (calm : ∀ call p, fault env call p = None).

(** A name is free or a file. *)
Definition plain_name (fs : Fs) (es : gmap string Z) (c : string) : Prop :=
  ∀ i, es !! c = Some i → ∃ bs, content_at fs i = Some (FileData bs).

Lemma fs_read_there fs s es c : directory fs s es → good_component c → plain_name fs es c →
  fs_read env (path_of s ++ [c]) fs =
  (match es !! c with
   | Some i => match content_at fs i with Some (FileData bs) => Ok bs | _ => Err IoIsADirectory end
   | None => Err IoNotFound
   end, fs).
Proof using calm.
  intros Hdir Hc Hp. unfold fs_read. destruct (es !! c) as [i|] eqn:He.
  - destruct (Hp i He) as [bs Hb]. rw (sbind_eq _ _ _ _ _ (open_there env calm false fs s es c i bs Hdir Hc He Hb)).
    unfold sbind, sget. by rw Hb.
  - unfold sys_open. rw (guard_calm env calm). unfold sbind, sret, sget, slift. cbn. rw (place_in fs s es) // He. done.
Qed.

(** Writing a file that is new or there. *)
Lemma fs_write_there fs s es c data : directory fs s es → good_component c → plain_name fs es c → nodes fs !! next_ino fs = None →
  let j := default (next_ino fs) (es !! c) in
  ∃ fs', fs_write env (path_of s ++ [c]) data fs = (Ok tt, fs') ∧ directory fs' s (<[c := j]> es) ∧
    content_at fs' j = Some (FileData data) ∧ ∀ i, i ≠ j → i ≠ ino_of s → nodes fs' !! i = nodes fs !! i.
Proof using calm.
  intros Hdir Hc Hp Hn j. destruct (es !! c) as [i|] eqn:He.
  - destruct (Hp i He) as [bs Hb]. unfold j. cbn [default from_option].
    destruct (set_content_there fs s es i bs (now env) [] Hdir Hb) as (H1 & H2 & H3).
    destruct (set_content_there _ s es i [] (now env) data H1 H2) as (H4 & H5 & H6).
    exists (set_content (now env) i (FileData data) (set_content (now env) i (FileData []) fs)). split_and!.
    + unfold fs_write, sys_open. rw (guard_calm env calm). unfold sbind, sret, sget, slift, smod. cbn.
      rw (place_in fs s es) // He. cbn. unfold node_at. unfold content_at in Hb. destruct (nodes fs !! i) as [n|]; [|done].
      cbn in *. by injection Hb as ->.
    + by rw insert_id.
    + done.
    + intros k Hk _. by rw H6 // H3.
  - destruct (fs_write_new env calm fs s es c data Hdir Hc He Hn) as (fs' & H1 & H2 & H3 & _ & _ & H6). by exists fs'.
Qed.

Lemma load_there fs s es stem : directory fs s es → good_component (json_name stem) → plain_name fs es (json_name stem) →
  load_manifest env (path_of s ++ [json_name stem]) fs =
  (Ok (match es !! json_name stem ≫= content_at fs with Some (FileData bs) => default empty_manifest (from_json bs) | _ => empty_manifest end), fs).
Proof using calm.
  intros Hdir Hc Hp. unfold load_manifest, sbind, stry. rw (fs_read_there fs s es) //.
  destruct (es !! json_name stem) as [i|] eqn:He; [|done]. cbn [mbind option_bind]. destruct (Hp i He) as [bs ->]. done.
Qed.

(** The directory of the baseline: both its names are free or different files,
    and neither is a directory on the way. *)
Record baseline_dir (fs : Fs) (s : Stack) (es : gmap string Z) (stem : string) : Prop := {
  bd_dir : directory fs s es;
  bd_json : good_component (json_name stem) ∧ plain_name fs es (json_name stem);
  bd_part : good_component (part_name stem) ∧ plain_name fs es (part_name stem);
  bd_differ : ∀ i j, es !! json_name stem = Some i → es !! part_name stem = Some j → i ≠ j;
  bd_fresh : nodes fs !! next_ino fs = None
}.

Lemma names_differ stem : part_name stem ≠ json_name stem.
Proof.
  unfold part_name, json_name. by intros H%(inj (String.append stem)).
Qed.

(** The temporary file written: the baseline is what it was. *)
Lemma part_written fs s es stem bytes : baseline_dir fs s es stem →
  ∃ fs1 j, fs_write env (path_of s ++ [part_name stem]) bytes fs = (Ok tt, fs1) ∧ directory fs1 s (<[part_name stem := j]> es) ∧
    content_at fs1 j = Some (FileData bytes) ∧
    (∀ i, es !! json_name stem = Some i → i ≠ j ∧ content_at fs1 i = content_at fs i) ∧
    load_manifest env (path_of s ++ [json_name stem]) fs1 = ((load_manifest env (path_of s ++ [json_name stem]) fs).1, fs1).
Proof using calm.
  intros [Hdir [Hjg Hjp] [Hpg Hpp] Hdiff Hn]. destruct (fs_write_there fs s es (part_name stem) bytes Hdir Hpg Hpp Hn) as (fs1 & H1 & H2 & H3 & H4).
  set (j := default (next_ino fs) (es !! part_name stem)) in *. exists fs1, j.
  assert (∀ i, es !! json_name stem = Some i → i ≠ j ∧ content_at fs1 i = content_at fs i) as Hold.
  { intros i Hi. destruct (Hjp i Hi) as [bs Hb]. assert (i ≠ j) as Hij.
    { unfold j. destruct (es !! part_name stem) as [k|] eqn:Ek; [by eapply Hdiff|]. cbn. intros ->. unfold content_at in Hb. by rw Hn in Hb. }
    split; [done|]. unfold content_at. rw H4 //. intros ->. pose proof (dir_content _ _ _ Hdir) as Hd. by rw Hd in Hb. }
  split_and!; try done.
  rw (load_there fs s es) //. rw (load_there fs1 s _ stem H2) //.
  - cbn [fst]. rw lookup_insert_ne; [|apply names_differ]. do 2 f_equal.
    destruct (es !! json_name stem) as [i|] eqn:Ei; [|done]. cbn [mbind option_bind]. by destruct (Hold i eq_refl) as [_ ->].
  - intros i. rw lookup_insert_ne; [|apply names_differ]. intros Hi. destruct (Hold i Hi) as [_ ->]. by apply Hjp.
Qed.

End Atomic.

(** ** A witness *)

(** A store of numbers. *)
Module Numbers.
Definition write_seq (m : SyncManifest) : option (list Z) := if decide (m_entries m = ∅) then Some [m_last_seq m] else None.
Definition read_seq (t : list Z) : option SyncManifest := match t with [n] => Some (mkManifest n ∅) | _ => None end.
Lemma seq_roundtrip m t : write_seq m = Some t → read_seq t = Some m.
Proof. unfold write_seq. destruct m as [n es], (decide _) as [E|]; [|done]. cbn in *. subst. by intros [= <-]. Qed.
#[global] Instance json : Json := {| to_json := write_seq; from_json := read_seq; json_roundtrip := seq_roundtrip |}.
Definition env : Env := mkEnv (λ _ _, None) 1000 [] (λ d, if d then 493 else 420) 4096 (λ _, None).
Definition node (c : Content) : INode := mkINode c 1 1 420.
Definition dir (es : list (string * Z)) : INode := node (DirData (list_to_map es)).
Definition entries : gmap string Z := list_to_map [("k.json", 2); ("k.json.part", 3)].
(** The baseline of sequence number 7, and a torn temporary file. *)
Definition fs : Fs :=
  mkFs (list_to_map [(0, dir [("sync", 1)]); (1, dir [("k.json", 2); ("k.json.part", 3)]); (2, node (FileData [7])); (3, node (FileData [1; 2]))]) 4.
End Numbers.

