(* ===== verification/Pump.v ===== *)
(** * Pump: the event pump, the reconnect supervisor and the heartbeats

    The task that reads server events (alloyfs-client: events.rs for a mount,
    [event_pump] of sync/engine.rs for a sync, which share their loop), the
    supervisor that replaces a lost connection ([reconnect_supervisor] of
    remote_fs.rs and sync/engine.rs), the heartbeat of every connection and the
    calls that use one (alloyfs-transport: mux.rs), as one transition system.

    What ties them together is who keeps a connection alive.  The pump leaves
    its receive loop when its receiver is closed, and a broadcast receiver is
    closed when the last sender is gone: the reader holds one, and so does the
    [MuxConnection] itself, which lives as long as [conn], a running call, a
    resubscription or a heartbeat that waits for its pong holds a reference.

    The theorems: once a new connection stands and no heartbeat of an old one is
    stuck, a pump that took its epoch in time comes to listen to it, however the
    tasks are scheduled.  But a heartbeat that pings a connection whose reader
    is gone waits forever, keeps that connection alive and with it the pump in
    its old receive loop; a pump that takes its epoch too late waits next to a
    live connection; and without a supervisor the pump never ends. *)

From S2P Require Import Prelude.

(** ** State *)

(** The heartbeat task of a connection: asleep with a weak reference, waiting
    for a pong that can come, waiting for one that cannot, or ended. *)
Inductive Beat : Type := Idle | Pinging | Stuck | Over.
#[global] Instance Beat_eq_dec : EqDecision Beat.
Proof. solve_decision. Defined.

(** A connection: does its reader run, its heartbeat, and the calls that hold
    a reference to it. *)
Record Link : Type := mkLink { l_reader : bool; l_beat : Beat; l_users : nat }.

(** Where the pump is.  Connections are numbered in the order they are
    installed; [r] is the one its receiver belongs to, [e] the epoch it took. *)
Inductive PumpAt : Type :=
| Top (r : nat)
| Receiving (e r : nat)
| Waiting (e r : nat)
| Woken
| Subscribing (r : nat).
#[global] Instance PumpAt_eq_dec : EqDecision PumpAt.
Proof. solve_decision. Defined.

Record PumpSys : Type := mkPumpSys {
  pu_links : list Link;         (* every connection ever installed; the last one is in [conn] *)
  pu_epoch : nat;               (* [conn_epoch] *)
  pu_at : PumpAt
}.

Definition fresh_link : Link := mkLink true Idle 0.
Definition pump_start : PumpSys := mkPumpSys [fresh_link] 0 (Top 0).

(** The number of the connection in [conn]. *)
Definition current (s : PumpSys) : nat := pred (length (pu_links s)).
Definition link (s : PumpSys) (r : nat) : Link := default (mkLink false Over 0) (pu_links s !! r).
Definition alive (s : PumpSys) : bool := l_reader (link s (current s)).

(** Does anybody hold the connection [r] alive? *)
Definition held (s : PumpSys) (r : nat) : bool :=
  bool_decide (r = current s) || bool_decide (l_beat (link s r) = Pinging) || bool_decide (l_beat (link s r) = Stuck)
  || negb (bool_decide (l_users (link s r) = 0%nat)) || bool_decide (pu_at s = Subscribing r).

(** [recv] answers [Closed]: no sender is left. *)
Definition rx_closed (s : PumpSys) (r : nat) : bool := negb (l_reader (link s r)) && negb (held s r).

(** ** Steps *)

Inductive TaskStep : Type :=
| Die                                   (* the reader of the current connection ends *)
| Tick (r : nat) (sent : bool)          (* a heartbeat is due; is the ping taken by the writer's queue? *)
| Ponged (r : nat)
| CallBegins
| CallEnds (r : nat)
| Install | Bump                        (* the supervisor: the new connection, then the epoch *)
| PumpEpoch | PumpClosed | PumpWake | PumpConn | PumpSubscribed.

Definition with_link (s : PumpSys) (r : nat) (l : Link) : PumpSys := mkPumpSys (<[r := l]> (pu_links s)) (pu_epoch s) (pu_at s).

(** The reader ends: it closes the connection and clears the table of pings, so
    a ping that was waiting fails and its heartbeat ends. *)
Definition die (l : Link) : Link :=
  mkLink false (if decide (l_beat l = Pinging) then Over else l_beat l) (l_users l).

(** [let Some(conn) = weak.upgrade() else break; if conn.ping().await.is_err() { break }].
    [ping] does not look at [closed]: with the reader gone nobody answers it. *)
Definition tick (upgrades sent : bool) (l : Link) : Link :=
  mkLink (l_reader l)
    (if upgrades then (if l_reader l then (if sent then Pinging else Over) else if sent then Stuck else Over) else Over)
    (l_users l).

(** One step of a task; [None] when it cannot be taken. *)
Definition task_step (st : TaskStep) (s : PumpSys) : option PumpSys :=
  let pump at_ := Some (mkPumpSys (pu_links s) (pu_epoch s) at_) in
  match st, pu_at s with
  | Die, _ => if alive s then Some (with_link s (current s) (die (link s (current s)))) else None
  | Tick r sent, _ =>
      if decide ((r ≤ current s)%nat ∧ l_beat (link s r) = Idle) then Some (with_link s r (tick (held s r) sent (link s r))) else None
  | Ponged r, _ =>
      let l := link s r in
      if decide (l_reader l = true ∧ l_beat l = Pinging) then Some (with_link s r (mkLink true Idle (l_users l))) else None
  | CallBegins, _ =>
      let l := link s (current s) in Some (with_link s (current s) (mkLink (l_reader l) (l_beat l) (S (l_users l))))
  | CallEnds r, _ =>
      let l := link s r in
      match l_users l with
      | O => None
      | S n => Some (with_link s r (mkLink (l_reader l) (l_beat l) n))
      end
  | Install, _ =>
      if decide (alive s = false ∧ pu_epoch s = current s) then Some (mkPumpSys (pu_links s ++ [fresh_link]) (pu_epoch s) (pu_at s)) else None
  | Bump, _ => if decide (pu_epoch s < current s)%nat then Some (mkPumpSys (pu_links s) (S (pu_epoch s)) (pu_at s)) else None
  | PumpEpoch, Top r => pump (Receiving (pu_epoch s) r)
  | PumpClosed, Receiving e r => if rx_closed s r then pump (Waiting e r) else None
  | PumpWake, Waiting e r => if decide (e < pu_epoch s)%nat then pump Woken else None
  | PumpConn, Woken => pump (Subscribing (current s))
  | PumpSubscribed, Subscribing r => pump (Top r)      (* or not: the answer only decides what is logged and flushed *)
  | _, _ => None
  end.

Fixpoint task_run (steps : list TaskStep) (s : PumpSys) : option PumpSys :=
  match steps with [] => Some s | st :: steps => s ← task_step st s; task_run steps s end.

Inductive treachable : PumpSys → Prop :=
| treach_start : treachable pump_start
| treach_step s st s' : treachable s → task_step st s = Some s' → treachable s'.

Lemma task_run_reachable steps s s' : treachable s → task_run steps s = Some s' → treachable s'.
Proof.
  revert s. induction steps as [|st steps IH]; intros s Hs; cbn [task_run]; [by intros [= <-]|].
  destruct (task_step st s) as [s1|] eqn:E1; cbn [mbind option_bind]; [|done]. apply IH. by eapply treach_step.
Qed.

(** ** The invariant *)

Definition rx_of (at_ : PumpAt) : option nat :=
  match at_ with Top r | Receiving _ r | Waiting _ r | Subscribing r => Some r | Woken => None end.

Record pump_inv (s : PumpSys) : Prop := {
  pi_some : (0 < length (pu_links s))%nat;
  pi_epoch : (pu_epoch s ≤ current s ≤ S (pu_epoch s))%nat;
  pi_dead : ∀ r, (r < current s)%nat → l_reader (link s r) = false;
  pi_beat : ∀ r, l_reader (link s r) = false → l_beat (link s r) ≠ Pinging;
  pi_rx : ∀ r, rx_of (pu_at s) = Some r → (r ≤ current s)%nat;
  pi_closed : ∀ e r, pu_at s = Waiting e r → (r < current s)%nat
}.

Lemma current_with s r l : current (with_link s r l) = current s.
Proof. unfold current, with_link. cbn. by rw length_insert. Qed.

Lemma link_with s r l q : link (with_link s r l) q = if decide (q = r ∧ (r < length (pu_links s))%nat) then l else link s q.
Proof.
  unfold link, with_link. cbn. case_decide as Hd.
  - destruct Hd as [-> Hr]. by rw list_lookup_insert_eq.
  - destruct (decide (q = r)) as [->|]; [|by rw list_lookup_insert_ne]. rw list_insert_ge //. destruct (decide (r < length (pu_links s))%nat); [|lia]. naive_solver.
Qed.

(** A step that changes one link only: what it must not do to it. *)
Lemma with_link_inv s r l : pump_inv s → ((r < current s)%nat → l_reader l = false) → (l_reader l = false → l_beat l ≠ Pinging) →
  pump_inv (with_link s r l).
Proof.
  intros [H1 H2 H3 H4 H5 H6] Hd Hb. split; rw ?current_with; cbn; [by rw length_insert|done| | |done|done].
  - intros q Hq. rw link_with. case_decide as E; [destruct E as [-> _]; by apply Hd|by apply H3].
  - intros q. rw link_with. case_decide; [done|apply H4].
Qed.

Lemma link_app s r l at_ ep : link (mkPumpSys (pu_links s ++ [l]) ep at_) r =
  if decide (r = length (pu_links s)) then l else link s r.
Proof.
  unfold link. cbn. case_decide as E; [subst; by rw list_lookup_middle|].
  destruct (decide (r < length (pu_links s))%nat); [by rw lookup_app_l|].
  rw (lookup_ge_None_2 (pu_links s ++ [l])); [|rw length_app /=; lia]. by rw (lookup_ge_None_2 (pu_links s)); [|lia].
Qed.

(** A step that leaves the links alone. *)
Lemma same_links_inv s ep at_ : pump_inv s → (ep ≤ current s ≤ S ep)%nat →
  (∀ r, rx_of at_ = Some r → (r ≤ current s)%nat) → (∀ e r, at_ = Waiting e r → (r < current s)%nat) →
  pump_inv (mkPumpSys (pu_links s) ep at_).
Proof. intros [H1 H2 H3 H4 H5 H6] ? ? ?. by split. Qed.

Lemma pump_inv_step st s s' : pump_inv s → task_step st s = Some s' → pump_inv s'.
Proof.
  intros Hi Hs. pose proof Hi as [H1 H2 H3 H4 H5 H6]. destruct st as [|r sent|r| |r| | | | | | |]; unfold task_step in Hs.
  - destruct (alive s); [|done]. injection Hs as <-. apply with_link_inv; [done|lia|]. intros _. unfold die. cbn. by case_decide.
  - case_decide as Hd; [|done]. injection Hs as <-. apply with_link_inv; [done|apply H3|]. unfold tick. cbn. intros ->. by repeat case_match.
  - case_decide; [|done]. injection Hs as <-. apply with_link_inv; [done| |done]. intros Hr. cbn. specialize (H3 _ Hr). naive_solver congruence.
  - injection Hs as <-. apply with_link_inv; [done|lia|apply H4].
  - destruct (l_users (link s r)); [done|]. injection Hs as <-. apply with_link_inv; [done|apply H3|apply H4].
  - case_decide as Hd; [|done]. injection Hs as <-. destruct Hd as [Ha He].
    assert (current (mkPumpSys (pu_links s ++ [fresh_link]) (pu_epoch s) (pu_at s)) = S (current s)) as Hc
      by (unfold current in *; cbn; rw length_app /=; lia).
    split; rw ?Hc; cbn [pu_links pu_epoch pu_at].
    + rw length_app. lia.
    + lia.
    + intros q Hq. rw link_app. case_decide as E; [unfold current in *; lia|]. destruct (decide (q = current s)) as [->|]; [done|apply H3; lia].
    + intros q. rw link_app. case_decide; [done|apply H4].
    + intros q Hq. specialize (H5 _ Hq). lia.
    + intros e q Hq. specialize (H6 _ _ Hq). lia.
  - case_decide; [|done]. injection Hs as <-. apply same_links_inv; [done|lia|done|done].
  - destruct (pu_at s) eqn:Ea; try done. injection Hs as <-. apply same_links_inv; try done.
  - destruct (pu_at s) eqn:Ea; try done. destruct (rx_closed s r) eqn:Ec; [|done]. injection Hs as <-. apply same_links_inv; try done.
    intros e0 q [= <- <-]. specialize (H5 r eq_refl). unfold rx_closed, held in Ec.
    destruct (decide (r = current s)) as [->|]; [|lia]. by rw bool_decide_true // andb_false_r in Ec.
  - destruct (pu_at s) eqn:Ea; try done. case_decide; [|done]. injection Hs as <-. by apply same_links_inv.
  - destruct (pu_at s) eqn:Ea; try done. injection Hs as <-. apply same_links_inv; try done. by intros q [= <-].
  - destruct (pu_at s) eqn:Ea; try done. injection Hs as <-. by apply same_links_inv.
Qed.

Lemma pump_inv_reachable s : treachable s → pump_inv s.
Proof.
  induction 1 as [|s st s' _ IH Hs]; [|by eapply pump_inv_step].
  split; cbn; [lia|lia|lia| |by intros r [= <-]|done]. by intros [|[]].
Qed.

(** ** A stuck heartbeat *)

Lemma stuck_stays st s s' r : l_beat (link s r) = Stuck → task_step st s = Some s' → l_beat (link s' r) = Stuck.
Proof.
  intros Hr Hs.
  assert (∀ q l, (q = r → l_beat l = Stuck) → l_beat (link (with_link s q l) r) = Stuck) as Hw.
  { intros q l Hl. rw link_with. case_decide as Hd; [|done]. destruct Hd as [-> _]. by apply Hl. }
  destruct st as [|q sent|q| |q| | | | | | |]; unfold task_step in Hs.
  - destruct (alive s); [|done]. injection Hs as <-. apply Hw. intros ->. unfold die. cbn. by rw Hr.
  - case_decide as Hd; [|done]. injection Hs as <-. apply Hw. intros ->. destruct Hd. congruence.
  - case_decide as Hd; [|done]. injection Hs as <-. apply Hw. intros ->. destruct Hd. congruence.
  - injection Hs as <-. apply Hw. by intros ->.
  - destruct (l_users (link s q)); [done|]. injection Hs as <-. apply Hw. by intros ->.
  - case_decide; [|done]. injection Hs as <-. rw link_app. case_decide as E; [|done]. subst. unfold link in Hr.
    by rw lookup_ge_None_2 in Hr.
  - case_decide; [|done]. by injection Hs as <-.
  - destruct (pu_at s); try done. by injection Hs as <-.
  - destruct (pu_at s); try done. destruct (rx_closed s r0); [|done]. by injection Hs as <-.
  - destruct (pu_at s); try done. case_decide; [|done]. by injection Hs as <-.
  - destruct (pu_at s); try done. by injection Hs as <-.
  - destruct (pu_at s); try done. by injection Hs as <-.
Qed.

Lemma receiving_stays st s s' e r : pu_at s = Receiving e r → rx_closed s r = false → task_step st s = Some s' → pu_at s' = Receiving e r.
Proof.
  intros Ha Hc Hs. unfold task_step in Hs. rw Ha in Hs. destruct st; try done; repeat case_match; simplify_eq; try done.
Qed.

Lemma stuck_silences steps s s' e r : pu_at s = Receiving e r → l_beat (link s r) = Stuck → task_run steps s = Some s' → pu_at s' = Receiving e r.
Proof.
  revert s. induction steps as [|st steps IH]; intros s Ha Hb; cbn [task_run]; [by intros [= <-]|].
  destruct (task_step st s) as [s1|] eqn:E1; cbn [mbind option_bind]; [|done].
  apply IH; [|by apply (stuck_stays st s)]. apply (receiving_stays st s); [done| |done].
  unfold rx_closed, held. rw Hb (bool_decide_true (Stuck = Stuck)) //. by rw !orb_true_r andb_false_r.
Qed.

(** A heartbeat silences the event pump.  The connection is lost and a
    heartbeat falls due before the new one is installed: its ping is queued,
    nobody will answer it, and it holds the old connection -- and the sender of
    its events -- alive.  The supervisor installs a new connection that works;
    but whatever anybody does from then on, the pump stays in the receive loop
    of the dead one: no event is heard again, and nothing is invalidated. *)
Theorem heartbeat_silences_pump :
  ∃ s, treachable s ∧ alive s = true ∧ current s = 1%nat ∧ pu_epoch s = 1%nat ∧
    ∀ steps s', task_run steps s = Some s' → pu_at s' = Receiving 0 0.
Proof.
  eexists. split_and!.
  - eapply (task_run_reachable [PumpEpoch; Die; Tick 0 true; Install; Bump]); [constructor|vm_compute; reflexivity].
  - reflexivity.
  - reflexivity.
  - reflexivity.
  - intros steps s'. by apply stuck_silences.
Qed.

(** Without a supervisor the pump does not end with its connection: the client
    keeps the connection, so the receiver is never closed.  Whatever happens,
    the task stays in its first receive loop. *)
Theorem pump_outlives_connection steps s :
  Forall (λ st, st ≠ Install) steps → task_run steps pump_start = Some s → pu_at s = Top 0 ∨ pu_at s = Receiving 0 0.
Proof.
  intros Hf Hr. assert (treachable pump_start) as Ht by constructor.
  assert (current pump_start = 0%nat ∧ (pu_at pump_start = Top 0 ∨ pu_at pump_start = Receiving 0 0)) as H0 by (by split; [|left]).
  revert Hf Hr Ht H0. generalize pump_start as s0. induction steps as [|st steps IH]; intros s0 Hf; cbn [task_run].
  { intros [= <-] _ H0. apply H0. }
  apply Forall_cons in Hf as [Hst Hf]. destruct (task_step st s0) as [s1|] eqn:E1; cbn [mbind option_bind]; [|done].
  intros Hr Ht [Hc Ha]. apply (IH s1 Hf Hr); [by eapply treach_step|].
  destruct (pump_inv_reachable _ Ht) as [_ He _ _ _ _]. assert (pu_epoch s0 = 0%nat) as He0 by lia.
  unfold task_step in E1. destruct st; try done; repeat case_match; simplify_eq; rw ?current_with; cbn; try done; try (by destruct Ha; simplify_eq).
  - destruct Ha as [Ha|]; simplify_eq. rw He0. split; [done|by right].
  - destruct Ha as [|Ha]; simplify_eq. exfalso. unfold rx_closed, held in *. by rw Hc bool_decide_true // andb_false_r in H0.
Qed.

(** ** Following a reconnection *)

(** The steps of tasks that finish what they began: no connection is lost, no
    heartbeat falls due, no new call begins. *)
Definition finishing (st : TaskStep) : Prop :=
  match st with Ponged _ | CallEnds _ | Bump | PumpEpoch | PumpClosed | PumpWake | PumpConn | PumpSubscribed => True | _ => False end.

(** The pump took its epoch no later than its connection's, or is about to
    listen to the current one. *)
Definition in_time (s : PumpSys) : Prop :=
  match pu_at s with
  | Top r | Subscribing r => r = current s
  | Receiving e r | Waiting e r => (e ≤ r)%nat
  | Woken => True
  end.

(** It listens to the current connection. *)
Definition settled (s : PumpSys) : Prop := ∃ e, pu_at s = Receiving e (current s).

Record following (s : PumpSys) : Prop := {
  fo_inv : pump_inv s;
  fo_alive : alive s = true;
  fo_stuck : ∀ r, l_beat (link s r) ≠ Stuck;
  fo_time : in_time s
}.

(** What is left to do, for the links and for the pump. *)
Definition link_load (l : Link) : nat := (l_users l + if decide (l_beat l = Pinging) then 1 else 0)%nat.
Definition stage (s : PumpSys) : nat :=
  (match pu_at s with
  | Top _ => 2
  | Receiving _ r => if decide (r = current s) then 0 else 6
  | Waiting _ _ => 5
  | Woken => 4
  | Subscribing _ => 3
  end)%nat.
Definition to_do (s : PumpSys) : nat := (sum_list_with link_load (pu_links s) + (current s - pu_epoch s) + stage s)%nat.

Lemma sum_insert (ls : list Link) r l l0 : ls !! r = Some l0 → (link_load l < link_load l0)%nat →
  (sum_list_with link_load (<[r := l]> ls) < sum_list_with link_load ls)%nat.
Proof.
  revert r. induction ls as [|a ls IH]; intros [|r] Hl Hlt; try done; cbn [sum_list_with]; [injection Hl as ->; cbn [sum_list_with insert list_insert]; lia|].
  specialize (IH r Hl Hlt).
  change (link_load a + sum_list_with link_load (<[r := l]> ls) < link_load a + sum_list_with link_load ls)%nat. lia.
Qed.

Lemma link_there s r : link s r ≠ mkLink false Over 0 → pu_links s !! r = Some (link s r).
Proof. unfold link. by destruct (pu_links s !! r). Qed.

(** A link of which less is left to do, and which is none the worse. *)
Lemma lighter_link s r l : following s → (link_load l < link_load (link s r))%nat → l_beat l ≠ Stuck →
  l_reader l = l_reader (link s r) → (l_reader l = false → l_beat l ≠ Pinging) →
  following (with_link s r l) ∧ (to_do (with_link s r l) < to_do s)%nat.
Proof.
  intros [H1 H2 H3 H4] Hlt Hb Hr Hp. split.
  - split.
    + apply with_link_inv; [done| |done]. intros Hc. rw Hr. by apply (pi_dead s).
    + unfold alive in *. rw current_with link_with. case_decide as Hd; [|done]. destruct Hd as [<- _]. by rw Hr.
    + intros q. rw link_with. by case_decide.
    + unfold in_time in *. by rw current_with.
  - unfold to_do, stage. rw current_with. cbn [with_link pu_links pu_epoch pu_at].
    assert (pu_links s !! r = Some (link s r)) as Hl by (apply link_there; intros E; rw E in Hlt; change (link_load (mkLink false Over 0)) with 0%nat in Hlt; lia).
    pose proof (sum_insert _ _ _ _ Hl Hlt). lia.
Qed.

Lemma finishing_step st s s' : following s → finishing st → task_step st s = Some s' → following s' ∧ (to_do s' < to_do s)%nat.
Proof.
  intros Hf Hst Hs. pose proof Hf as [H1 H2 H3 H4]. assert (pump_inv s') as Hi' by (by eapply pump_inv_step). pose proof H1 as [I1 I2 I3 I4 I5 I6].
  destruct st as [|r sent|r| |r| | | | | | |]; try done; unfold task_step in Hs.
  - case_decide as Hd; [|done]. injection Hs as <-. destruct Hd as [Hr Hb]. apply lighter_link; try done.
    unfold link_load. cbn [l_users l_beat]. rw Hb. change (l_users (link s r) + 0 < l_users (link s r) + 1)%nat. lia.
  - destruct (l_users (link s r)) as [|n] eqn:Eu; [done|]. injection Hs as <-. apply lighter_link; [done| |apply H3|done|apply I4].
    unfold link_load. cbn [l_users l_beat]. rw Eu. lia.
  - case_decide; [|done]. injection Hs as <-. split; [by split|]. unfold to_do, stage, current in *. cbn in *. lia.
  - destruct (pu_at s) as [r| | | |] eqn:Ea; try done. injection Hs as <-. unfold in_time in H4. rw Ea in H4.
    split; [split; [done..|]; unfold in_time; cbn; lia|]. unfold to_do, stage. rw Ea. cbn. rw decide_True //. unfold current in *. cbn. lia.
  - destruct (pu_at s) as [|e r| | |] eqn:Ea; try done. destruct (rx_closed s r) eqn:Ec; [|done]. injection Hs as <-. unfold in_time in H4. rw Ea in H4.
    split; [by split|]. unfold to_do, stage. rw Ea. cbn. rw decide_False; [unfold current in *; cbn; lia|]. intros ->.
    unfold rx_closed, held in Ec. by rw bool_decide_true // andb_false_r in Ec.
  - destruct (pu_at s) as [| |e r| |] eqn:Ea; try done. case_decide; [|done]. injection Hs as <-.
    split; [by split|]. unfold to_do, stage. rw Ea. unfold current in *. cbn in *. lia.
  - destruct (pu_at s) eqn:Ea; try done. injection Hs as <-. split; [by split|]. unfold to_do, stage. rw Ea. unfold current in *. cbn in *. lia.
  - destruct (pu_at s) as [| | | |r] eqn:Ea; try done. injection Hs as <-. unfold in_time in H4. rw Ea in H4.
    split; [by split|]. unfold to_do, stage. rw Ea. unfold current in *. cbn in *. lia.
Qed.

Lemma finishing_can s : following s → settled s ∨ ∃ st, finishing st ∧ is_Some (task_step st s).
Proof.
  intros [[I1 I2 I3 I4 I5 I6] H2 H3 H4]. unfold in_time in H4. destruct (pu_at s) as [r|e r|e r| |r] eqn:Ea.
  - right. exists PumpEpoch. split; [done|]. unfold task_step. rw Ea. by eexists.
  - specialize (I5 r eq_refl). destruct (decide (r = current s)) as [->|Hne]; [left; by exists e|right].
    assert (l_reader (link s r) = false) as Hd by (apply I3; lia).
    destruct (l_users (link s r)) as [|n] eqn:Eu.
    + exists PumpClosed. split; [done|]. unfold task_step. rw Ea. assert (rx_closed s r = true) as ->; [|by eexists].
      unfold rx_closed, held. rw Hd Eu Ea (bool_decide_false (r = _)) // (bool_decide_false (_ = Pinging)); [|by apply I4].
      by rw (bool_decide_false (_ = Stuck)).
    + exists (CallEnds r). split; [done|]. unfold task_step. by rw Eu.
  - right. specialize (I6 e r eq_refl). destruct (decide (pu_epoch s < current s)%nat) as [Hlt|Hge].
    + exists Bump. split; [done|]. unfold task_step. by rw decide_True.
    + exists PumpWake. split; [done|]. unfold task_step. rw Ea decide_True; [by eexists|lia].
  - right. exists PumpConn. split; [done|]. unfold task_step. rw Ea. by eexists.
  - right. exists PumpSubscribed. split; [done|]. unfold task_step. rw Ea. by eexists.
Qed.


(** A loss: a call and a heartbeat were under way, the new connection is in. *)
Definition lost : PumpSys := default pump_start (task_run [PumpEpoch; CallBegins; Tick 0 true; Die; Install] pump_start).
Definition back : list TaskStep := [Bump; CallEnds 0; PumpClosed; PumpWake; PumpConn; PumpSubscribed; PumpEpoch].


(** A pump that takes its epoch after the connection it reads from was already
    replaced waits although the new connection is alive, and none of the tasks
    can go on: only the loss of that connection would move it.  The events in
    between are not heard. *)
Theorem pump_left_behind :
  ∃ s, treachable s ∧ pu_at s = Waiting 2 1 ∧ alive s = true ∧ current s = 2%nat ∧
    ∀ st, finishing st → task_step st s = None.
Proof.
  eexists. split.
  - eapply (task_run_reachable [PumpEpoch; Die; Install; Bump; PumpClosed; PumpWake; PumpConn; Die; Install; Bump; PumpSubscribed; PumpEpoch; PumpClosed]);
      [constructor|vm_compute; reflexivity].
  - split_and!; [reflexivity..|]. by intros [| |[|[|[]]]| |[|[|[]]]| | | | | | |].
Qed.
