(* ===== verification/Fanout.v ===== *)
(** * Fanout: the way of an event from the export to its consumer

    The hub of an export hands every batch to a bounded broadcast channel
    (alloyfs-agent/src/watch.rs); a task per subscription takes the batches
    from it, removes the subscriber's own events and pushes the rest to the
    connection ([AgentSession::subscribe] of ops.rs); the connection's writer,
    the wire and the client's reader (alloyfs-transport: server.rs, mux.rs)
    carry them to a second broadcast channel, from which the event pump of a
    mount or of a sync takes them.  Either channel drops batches of a receiver
    that is too slow, and says so.

    tokio's broadcast channel is the class [Broadcast], with its documented
    behaviour as [BroadcastLaws] and a ring buffer as an instance.  The whole
    way is a transition system of its five tasks.  The theorems: it comes to
    rest when nothing is published, and then every event has been handed over,
    in order, or the consumer was told to start afresh. *)

From S2P Require Import Prelude Messages Coalesce EventHub Fs Agent AgentFacts Transport ServerConn Overlay Disk Sync RemoteFs SyncEngine.

(** ** The broadcast channel *)

(** What [recv] yields: a value, the number of values the receiver was too
    slow for, or nothing yet. *)
Inductive Recv (A : Type) : Type := Got (a : A) | Missed (n : nat) | Empty.
Arguments Got {A} a.
Arguments Missed {A} n.
Arguments Empty {A}.

(** The calls.  A receiver is a position; [bc_holds t h] says that [t] has been
    given the values [h], oldest first. *)
Class Broadcast (A Tx : Type) : Type := {
  bc_channel : nat → Tx;
  bc_send : A → Tx → Tx;
  bc_subscribe : Tx → nat;
  bc_recv : nat → Tx → Recv A * nat;
  bc_capacity : Tx → nat;
  bc_holds : Tx → list A → Prop
}.

(** The documentation: the channel keeps at least the capacity asked for; a
    new receiver sees what is sent from then on; a receiver whose next value is
    gone is told how many it lost and goes on with the oldest one kept. *)
Class BroadcastLaws (A Tx : Type) `{Broadcast A Tx} : Prop := {
  bc_channel_ok n : bc_holds (bc_channel n) ([] : list A) ∧ (n ≤ bc_capacity (bc_channel n))%nat;
  bc_send_ok t h a : bc_holds t h → bc_holds (bc_send a t) (h ++ [a]) ∧ bc_capacity (bc_send a t) = bc_capacity t;
  bc_subscribe_ok t h : bc_holds t h → bc_subscribe t = length h;
  bc_recv_ok t h r : bc_holds t h → (r ≤ length h)%nat →
    if decide (r = length h) then bc_recv r t = (Empty, r)
    else if decide (r + bc_capacity t < length h)%nat
    then bc_recv r t = (Missed (length h - bc_capacity t - r), (length h - bc_capacity t)%nat)
    else ∃ a, h !! r = Some a ∧ bc_recv r t = (Got a, S r)
}.

(** A ring buffer is such a channel. *)
Module Ring.
Section Ring.
Context {A : Type}.

Record ring : Type := mkRing { cap : nat; total : nat; slots : list A }.

Definition channel (n : nat) : ring := mkRing n 0 [].
Definition send (a : A) (t : ring) : ring :=
  mkRing (cap t) (S (total t)) ((if decide (length (slots t) < cap t)%nat then slots t else tail (slots t)) ++ [a]).
Definition recv (r : nat) (t : ring) : Recv A * nat :=
  let oldest := (total t - length (slots t))%nat in
  if decide (r = total t) then (Empty, r)
  else if decide (r < oldest)%nat then (Missed (oldest - r), oldest)
  else match slots t !! (r - oldest)%nat with Some a => (Got a, S r) | None => (Empty, r) end.

Definition holds (t : ring) (h : list A) : Prop :=
  (1 ≤ cap t)%nat ∧ total t = length h ∧ slots t = drop (length h - cap t) h.

#[global] Instance ring_broadcast : Broadcast A ring := {
  bc_channel n := channel (S n);
  bc_send := send;
  bc_subscribe := total;
  bc_recv := recv;
  bc_capacity := cap;
  bc_holds := holds
}.

#[global] Instance ring_laws : BroadcastLaws A ring.
Proof.
  split.
  - intros n. cbn. split; [split_and!; cbn; [lia|done|done]|lia].
  - intros t h a (Hc & Ht & Hs). cbn. split; [|done]. split_and!; cbn; [done|rw Ht length_app /=; lia|].
    rw Hs length_drop length_app /=. case_decide.
    + rw drop_app_le; [|lia]. f_equal. f_equal. lia.
    + rw drop_app_le; [|lia]. replace (length h + 1 - cap t)%nat with (S (length h - cap t)) by lia. by rw tail_drop.
  - intros t h (_ & Ht & _). done.
  - intros t h r (Hc & Ht & Hs) Hr. cbn. unfold recv. rw Ht Hs length_drop.
    case_decide as E1; [done|].
    replace (length h - (length h - (length h - cap t)))%nat with (length h - cap t)%nat by lia.
    case_decide as E2.
    + rw decide_True; [done|lia].
    + rw decide_False; [|lia]. rw lookup_drop. replace (length h - cap t + (r - (length h - cap t)))%nat with r by lia.
      destruct (h !! r) as [a|] eqn:Ea; [by exists a|]. apply lookup_ge_None_1 in Ea. lia.
Qed.
End Ring.
End Ring.

(** ** The tasks *)

(** What a forwarder sends a subscriber that was too slow. *)
Definition RESYNC : FsEvent := mkFsEvent 0 ResyncRequired "" None None.

Definition non_empty (b : list FsEvent) : option (list FsEvent) := if decide (b = []) then None else Some b.

Section Stream.
Context {Tx : Type} `{!Broadcast (list FsEvent) Tx}.

Record Stream : Type := mkStream {
  st_hub : Tx;                          (* the hub's channel *)
  st_fw : nat;                          (* the forwarder's receiver *)
  st_held : option (list FsEvent);      (* what the forwarder is pushing *)
  st_out : list (list FsEvent);         (* the connection's queue *)
  st_wire : list (list FsEvent);        (* written and not yet read *)
  st_events : Tx;                       (* the client's channel, [events_tx] *)
  st_rx : nat;                          (* the pump's receiver *)
  st_got : list Received                (* what the pump was handed *)
}.

(** A subscription: the pump's receiver, the hub's receiver and the catch-up,
    which the forwarder pushes first. *)
Definition subscribed (id : Z) (catchup : list FsEvent) (hub events : Tx) (out wire : list (list FsEvent)) : Stream :=
  mkStream hub (bc_subscribe hub) (non_empty (strip id catchup)) out wire events (bc_subscribe events) [].

Inductive StreamStep : Type := Publish (b : list FsEvent) | FwRecv | FwPush | Write | Read | Pump.

(** One step of a task; [None] when it has to wait. *)
Definition stream_step (id : Z) (st : StreamStep) (s : Stream) : option Stream :=
  let '(mkStream hub fw held out wire events rx got) := s in
  match st, held, out, wire with
  | Publish b, _, _, _ => Some (mkStream (bc_send b hub) fw held out wire events rx got)
  | FwRecv, None, _, _ =>
      match bc_recv fw hub with
      | (Got b, fw) => Some (mkStream hub fw (non_empty (strip id b)) out wire events rx got)
      | (Missed _, fw) => Some (mkStream hub fw (Some [RESYNC]) out wire events rx got)
      | (Empty, _) => None
      end
  | FwPush, Some b, _, _ =>
      if decide (length out < OUT_CAPACITY)%nat then Some (mkStream hub fw None (out ++ [b]) wire events rx got) else None
  | Write, _, b :: out, _ => Some (mkStream hub fw held out (wire ++ [b]) events rx got)
  | Read, _, _, b :: wire => Some (mkStream hub fw held out wire (bc_send b events) rx got)
  | Pump, _, _, _ =>
      match bc_recv rx events with
      | (Got b, rx) => Some (mkStream hub fw held out wire events rx (got ++ [Batch b]))
      | (Missed _, rx) => Some (mkStream hub fw held out wire events rx (got ++ [Lagged]))
      | (Empty, _) => None
      end
  | _, _, _, _ => None
  end.

Fixpoint stream_run (id : Z) (steps : list StreamStep) (s : Stream) : option Stream :=
  match steps with [] => Some s | st :: steps => s ← stream_step id st s; stream_run id steps s end.
End Stream.
Arguments Stream : clear implicits.

(** ** What a receiver has seen accounts for what was sent *)

(** What the forwarder pushed for a stretch of the hub's batches: each without
    the subscriber's own events, unless nothing is left of it; a stretch that
    was lost is one [RESYNC]. *)
Inductive forwards (id : Z) : list (list FsEvent) → list (list FsEvent) → Prop :=
| fw_nil : forwards id [] []
| fw_got l p b : forwards id l p → forwards id (l ++ [b]) (p ++ option_list (non_empty (strip id b)))
| fw_missed l p lost : lost ≠ [] → forwards id l p → forwards id (l ++ lost) (p ++ [[RESYNC]]).

(** The same of the pump. *)
Inductive hears : list (list FsEvent) → list Received → Prop :=
| he_nil : hears [] []
| he_got l g b : hears l g → hears (l ++ [b]) (g ++ [Batch b])
| he_missed l g lost : lost ≠ [] → hears l g → hears (l ++ lost) (g ++ [Lagged]).

Section Stretch.
Context {A : Type}.
Implicit Types h : list A.

Lemma stretch_one p r h a : (p ≤ r)%nat → h !! r = Some a → drop p (take (S r) h) = drop p (take r h) ++ [a].
Proof. intros Hp Ha. rw (take_S_r _ _ _ Ha) drop_app_le //. rw length_take. apply lookup_lt_Some in Ha. lia. Qed.

Lemma stretch_more p r r' h : (p ≤ r)%nat → (r < r')%nat → (r' ≤ length h)%nat →
  ∃ lost, lost ≠ [] ∧ drop p (take r' h) = drop p (take r h) ++ lost.
Proof.
  intros Hp Hr Hl. exists (take (r' - r) (drop r h)). split.
  - intros E. apply (f_equal length) in E. rw length_take length_drop /= in E. lia.
  - replace r' with (r + (r' - r))%nat at 1 by lia. rw -take_take_drop drop_app_le //. rw length_take. lia.
Qed.

Lemma stretch_grows p r h a : (r ≤ length h)%nat → drop p (take r (h ++ [a])) = drop p (take r h).
Proof. intros Hr. by rw take_app_le. Qed.
End Stretch.

Section Facts.
Context {Tx : Type} `{BroadcastLaws (list FsEvent) Tx}.
Implicit Types (s : Stream Tx).

(** The three answers of [recv], as the tasks see them. *)
Lemma recv_cases (t : Tx) h r : bc_holds t h → (r ≤ length h)%nat →
  (r = length h ∧ bc_recv r t = (Empty, r)) ∨
  (∃ a, h !! r = Some a ∧ bc_recv r t = (Got a, S r)) ∨
  (∃ n r', bc_recv r t = (Missed n, r') ∧ (r < r' ≤ length h)%nat).
Proof.
  intros Hh Hr. pose proof (bc_recv_ok t h r Hh Hr) as Hl. case_decide; [by left|right].
  case_decide; [right|by left]. do 2 eexists. split; [exact Hl|]. lia.
Qed.

(** [h] is what the hub was given, [k] what the client's channel was, [pushed]
    what the forwarder took from the hub; [p] and [q] are where the receivers
    began, and [before] what the connection carried already. *)
Record stream_ok (id : Z) (p q : nat) (before : list (list FsEvent)) (h k pushed : list (list FsEvent)) s : Prop := {
  so_hub : bc_holds (st_hub s) h;
  so_fw : (p ≤ st_fw s ≤ length h)%nat;
  so_events : bc_holds (st_events s) k;
  so_rx : (q ≤ st_rx s ≤ length k)%nat;
  so_forwards : forwards id (drop p (take (st_fw s) h)) pushed;
  so_carried : k ++ st_wire s ++ st_out s ++ option_list (st_held s) = before ++ pushed;
  so_hears : hears (drop q (take (st_rx s) k)) (st_got s)
}.

Definition published_by (st : StreamStep) : list (list FsEvent) := match st with Publish b => [b] | _ => [] end.

(** What is still on its way, a batch counting more the further it has to go. *)
Definition load (h k : list (list FsEvent)) s : nat :=
  (5 * (length h - st_fw s) + 4 * length (option_list (st_held s)) + 3 * length (st_out s) + 2 * length (st_wire s)
   + (length k - st_rx s))%nat.

Lemma non_empty_short b : (length (option_list (non_empty b)) ≤ 1)%nat.
Proof. unfold non_empty. case_decide; cbn; lia. Qed.

(** Every step keeps the books, and every step of a task brings something
    nearer to its end. *)
Lemma stream_step_ok id p q before h k pushed st s s' :
  stream_ok id p q before h k pushed s → stream_step id st s = Some s' →
  ∃ k' pushed', stream_ok id p q before (h ++ published_by st) k' pushed' s' ∧
    (load (h ++ published_by st) k' s' + 1 ≤ load h k s + 6 * length (published_by st))%nat.
Proof.
  destruct s as [hub fw held out wire events rx got]. intros [H1 H2 H3 H4 H5 H6 H7] Hs. unfold load. cbn in *.
  destruct st as [b| | | | |]; cbn [published_by]; rw ?app_nil_r.
  - injection Hs as <-. exists k, pushed. destruct (bc_send_ok _ _ b H1) as [Hsent _].
    split; [split; cbn; [done|rw length_app; lia|done|done|rw stretch_grows //; lia|done|done]|]. cbn. rw length_app /=. lia.
  - destruct held; [done|]. cbn in H6. rw app_nil_r in H6.
    destruct (recv_cases hub h fw H1 ltac:(lia)) as [[_ E]|[(a & Ha & E)|(n & r' & E & Hr')]];
      rw E in Hs; [done|..]; injection Hs as <-; exists k;
      [exists (pushed ++ option_list (non_empty (strip id a)))|exists (pushed ++ [[RESYNC]])]; split.
    + split; cbn; [done|apply lookup_lt_Some in Ha; lia|done|done| |by rw (app_assoc before) -H6 -!app_assoc|done].
      rw (stretch_one _ _ _ a) //; [by apply fw_got|lia].
    + cbn. pose proof (non_empty_short (strip id a)). apply lookup_lt_Some in Ha. lia.
    + destruct (stretch_more p fw r' h ltac:(lia) ltac:(lia) ltac:(lia)) as (lost & Hne & El).
      split; cbn; [done|lia|done|done|rw El; by apply fw_missed|by rw (app_assoc before) -H6 -!app_assoc|done].
    + cbn. lia.
  - destruct held as [b|]; [|done]. case_decide; [|done]. injection Hs as <-. exists k, pushed.
    split; [split; cbn; try done; by rw app_nil_r|]. cbn. rw length_app /=. lia.
  - destruct held, out as [|b out]; try done; injection Hs as <-; exists k, pushed;
      (split; [split; cbn in *; try done; by rw -!app_assoc /=|]); cbn; rw length_app /=; lia.
  - destruct held, out, wire as [|b wire]; try done; injection Hs as <-; exists (k ++ [b]), pushed; destruct (bc_send_ok _ _ b H3) as [Hsent _];
      (split; [split; cbn in *; [done|done|done|rw length_app; lia|done|by rw -!app_assoc|rw stretch_grows //; lia]|]); cbn; rw length_app /=; lia.
  - assert (∃ r g, s' = mkStream hub fw held out wire events r g ∧ (q ≤ r ≤ length k ∧ rx < r)%nat ∧ hears (drop q (take r k)) g)
      as (r & g & -> & Hr & Hg).
    { destruct (recv_cases events k rx H3 ltac:(lia)) as [[_ E]|[(a & Ha & E)|(n & r' & E & Hr')]]; rw E in Hs; [by destruct held, out, wire|..].
      - exists (S rx), (got ++ [Batch a]). apply lookup_lt_Some in Ha as Hlt.
        split_and!; [by destruct held, out, wire; injection Hs as <-|lia..|].
        rw (stretch_one _ _ _ a) //; [by apply he_got|lia].
      - destruct (stretch_more q rx r' k ltac:(lia) ltac:(lia) ltac:(lia)) as (lost & Hne & El).
        exists r', (got ++ [Lagged]). split_and!; [by destruct held, out, wire; injection Hs as <-|lia..|]. rw El. by apply he_missed. }
    exists k, pushed. split; [split; cbn; try done; lia|]. cbn. lia.
Qed.

Lemma stream_run_ok id p q before steps h k pushed s s' :
  stream_ok id p q before h k pushed s → stream_run id steps s = Some s' →
  ∃ k' pushed', stream_ok id p q before (h ++ concat (published_by <$> steps)) k' pushed' s' ∧
    (load (h ++ concat (published_by <$> steps)) k' s' + length steps ≤ load h k s + 6 * length (concat (published_by <$> steps)))%nat.
Proof.
  revert h k pushed s. induction steps as [|st steps IH]; intros h k pushed s Hok; cbn [stream_run fmap list_fmap concat].
  - intros [= <-]. exists k, pushed. rw app_nil_r. split; [done|cbn; lia].
  - destruct (stream_step id st s) as [s1|] eqn:E1; [|done]. cbn [mbind option_bind]. intros Hrun.
    destruct (stream_step_ok _ _ _ _ _ _ _ _ _ _ Hok E1) as (k1 & p1 & Hok1 & Hl1).
    destruct (IH _ _ _ _ Hok1 Hrun) as (k' & p' & Hok' & Hl'). exists k', p'. rw app_assoc length_app. split; [done|]. cbn [length]. lia.
Qed.

Lemma subscribed_ok id c hub events out wire h k :
  bc_holds hub h → bc_holds events k →
  stream_ok id (length h) (length k) (k ++ wire ++ out ++ option_list (non_empty (strip id c))) h k [] (subscribed id c hub events out wire).
Proof.
  intros Hh Hk. unfold subscribed. rw (bc_subscribe_ok _ _ Hh) (bc_subscribe_ok _ _ Hk).
  split; cbn; [done|lia|done|lia| |by rw app_nil_r|]; rw firstn_all drop_all; constructor.
Qed.

(** ** At rest *)

Definition TASKS : list StreamStep := [FwRecv; FwPush; Write; Read; Pump].
(** No task has anything to do. *)
Definition at_rest (id : Z) s : Prop := Forall (λ st, stream_step id st s = None) TASKS.

Lemma at_rest_done id p q before h k pushed s : stream_ok id p q before h k pushed s → at_rest id s →
  st_fw s = length h ∧ st_rx s = length k ∧ st_held s = None ∧ st_out s = [] ∧ st_wire s = [].
Proof.
  destruct s as [hub fw held out wire events rx got]. intros [H1 H2 H3 H4 _ _ _] Hr. unfold at_rest, TASKS in Hr. cbn in *.
  apply Forall_cons in Hr as [R1 Hr]. apply Forall_cons in Hr as [R2 Hr]. apply Forall_cons in Hr as [R3 Hr].
  apply Forall_cons in Hr as [R4 Hr]. apply Forall_cons in Hr as [R5 _].
  assert (out = []) as -> by (by destruct held, out).
  assert (wire = []) as -> by (by destruct held, wire).
  assert (held = None) as ->.
  { destruct held as [b|]; [|done]. done. }
  split_and!; [| |done..].
  - destruct (recv_cases hub h fw H1 ltac:(lia)) as [[? _]|[(a & _ & E)|(n & r' & E & _)]]; [done|by rw E in R1..].
  - destruct (recv_cases events k rx H3 ltac:(lia)) as [[? _]|[(a & _ & E)|(n & r' & E & _)]]; [done|by rw E in R5..].
Qed.

Lemma some_task_can id s : at_rest id s ∨ ∃ st s', published_by st = [] ∧ stream_step id st s = Some s'.
Proof.
  unfold at_rest. destruct (decide (Forall (λ st, stream_step id st s = None) TASKS)) as [|Hn]; [by left|right].
  apply not_Forall_Exists, Exists_exists in Hn as (st & Hin & Hst); [|apply _]. exists st.
  destruct (stream_step id st s) as [s'|] eqn:E; [|by destruct Hst]. exists s'. split; [|done]. unfold TASKS in Hin.
  repeat (apply elem_of_cons in Hin as [->|Hin]; [done|]). by apply not_elem_of_nil in Hin.
Qed.

(** ** What the consumer knows *)

(** The pump was handed the event. *)
Definition heard s (e : FsEvent) : Prop := ∃ b, Batch b ∈ st_got s ∧ e ∈ b.
(** The pump was told that something is missing, on either side. *)
Definition told s : Prop := Lagged ∈ st_got s ∨ Batch [RESYNC] ∈ st_got s.
(** Everything the pump was handed, in its order. *)
Definition handed (g : list Received) : list FsEvent := mjoin ((λ m, match m with Batch b => b | Lagged => [] end) <$> g).

Lemma non_empty_concat b : concat (option_list (non_empty b)) = b.
Proof. unfold non_empty. case_decide; [by subst|]. cbn. by rw app_nil_r. Qed.

Lemma strip_app id l l' : strip id (l ++ l') = strip id l ++ strip id l'.
Proof. apply filter_app. Qed.

Lemma forwards_covers id l p e : forwards id l p → e ∈ concat l → ev_origin e ≠ Some id → e ∈ concat p ∨ [RESYNC] ∈ p.
Proof.
  intros Hf He Ho. induction Hf as [|l p b _ IH|l p lost _ _ IH]; [by apply not_elem_of_nil in He| |right; set_solver].
  rw concat_app elem_of_app /= app_nil_r in He. destruct He as [He|He].
  - destruct (IH He); [left; rw concat_app|right]; set_solver.
  - left. rw concat_app non_empty_concat elem_of_app. right. unfold strip. by apply list_elem_of_filter.
Qed.

Lemma forwards_exact id l p : forwards id l p → [RESYNC] ∉ p → concat p = strip id (concat l).
Proof.
  induction 1 as [|l p b _ IH|l p lost _ _ IH]; intros Hn; [done| |set_solver].
  rw !concat_app strip_app non_empty_concat IH; [|set_solver]. by rw /= app_nil_r.
Qed.

Lemma hears_covers l g b : hears l g → b ∈ l → Batch b ∈ g ∨ Lagged ∈ g.
Proof. induction 1 as [|l g a _ IH|l g lost _ _ IH]; intros Hb; [by apply not_elem_of_nil in Hb|set_solver|set_solver]. Qed.

Lemma hears_exact l g : hears l g → Lagged ∉ g → g = Batch <$> l.
Proof. induction 1 as [|l g a _ IH|l g lost _ _ IH]; intros Hn; [done| |set_solver]. rw fmap_app IH //. set_solver. Qed.

Lemma handed_batches l : handed (Batch <$> l) = concat l.
Proof. unfold handed. induction l as [|b l IH]; [done|]. cbn. by rw -IH. Qed.

(** A subscription whose way has come to rest, from its books. *)
Lemma rest_accounts id c hub events out wire h k steps s :
  bc_holds hub h → bc_holds events k →
  stream_run id steps (subscribed id c hub events out wire) = Some s → at_rest id s →
  let sent := concat (published_by <$> steps) in
  ∃ pushed, forwards id sent pushed ∧
    hears (wire ++ out ++ option_list (non_empty (strip id c)) ++ pushed) (st_got s).
Proof.
  intros Hh Hk Hrun Hrest sent. destruct (stream_run_ok _ _ _ _ _ _ _ _ _ _ (subscribed_ok id c hub events out wire h k Hh Hk) Hrun) as (k' & pushed & Hok & _).
  destruct (at_rest_done _ _ _ _ _ _ _ _ Hok Hrest) as (E1 & E2 & E3 & E4 & E5). destruct Hok as [_ _ _ _ F C R].
  rw E1 firstn_all drop_app_length in F. rw E2 firstn_all in R. rw E3 E4 E5 /= app_nil_r in C.
  exists pushed. split; [done|]. rw C -!app_assoc drop_app_length in R. done.
Qed.

Lemma rest_covers id c hub events out wire h k steps s :
  bc_holds hub h → bc_holds events k →
  stream_run id steps (subscribed id c hub events out wire) = Some s → at_rest id s →
  ∀ e, e ∈ c ++ concat (concat (published_by <$> steps)) → ev_origin e ≠ Some id → heard s e ∨ told s.
Proof.
  intros Hh Hk Hrun Hrest e He Ho. destruct (rest_accounts _ _ _ _ _ _ _ _ _ _ Hh Hk Hrun Hrest) as (pushed & Hf & Hg).
  assert (e ∈ concat (option_list (non_empty (strip id c)) ++ pushed) ∨ [RESYNC] ∈ pushed) as Hc.
  { rw concat_app non_empty_concat elem_of_app. apply elem_of_app in He as [He|He].
    - left. left. unfold strip. by apply list_elem_of_filter.
    - destruct (forwards_covers _ _ _ _ Hf He Ho); [left; by right|by right]. }
  assert (∀ b, b ∈ option_list (non_empty (strip id c)) ++ pushed → Batch b ∈ st_got s ∨ told s) as Hcov.
  { intros b Hb. destruct (hears_covers _ _ b Hg) as [|]; [set_solver|by left|right; by left]. }
  destruct Hc as [Hc|Hc].
  - apply list_elem_of_In, in_concat in Hc as (b & Hb%list_elem_of_In & Heb%list_elem_of_In). destruct (Hcov b Hb) as [|]; [left; by exists b|by right].
  - right. destruct (Hcov [RESYNC]) as [|]; [set_solver|by right|done].
Qed.

(** C17.  Without a lag the consumer gets exactly what was published.  Once every
    task of the way has come to rest and the pump was told of no gap, what it
    was handed is -- after what the connection carried before -- the catch-up
    and every event published since, in order and each once, less the
    subscriber's own events. *)
Theorem stream_exact_without_lag id c hub events h k out wire steps s :
  bc_holds hub h → bc_holds events k →
  stream_run id steps (subscribed id c hub events out wire) = Some s → at_rest id s → ¬ told s →
  handed (st_got s) = concat (wire ++ out) ++ strip id (c ++ concat (concat (published_by <$> steps))).
Proof.
  intros Hh Hk Hrun Hrest Ht. destruct (rest_accounts _ _ _ _ _ _ _ _ _ _ Hh Hk Hrun Hrest) as (pushed & Hf & Hg).
  assert (Lagged ∉ st_got s) as Hl by (intros ?; apply Ht; by left). pose proof (hears_exact _ _ Hg Hl) as Eg.
  assert ([RESYNC] ∉ pushed) as Hr.
  { intros Hin. apply Ht. right. rw Eg. apply list_elem_of_fmap_2. set_solver. }
  by rw Eg handed_batches !concat_app non_empty_concat (forwards_exact _ _ _ Hf Hr) strip_app !app_assoc.
Qed.

(** C11.  No change goes unnoticed.  A subscriber takes its receiver when the
    export's hub is in state [n1], the catch-up after [since] is read in a
    later state [n2], and the hub goes on to [n3]; the batches it sends take
    the whole way -- the hub's channel, the forwarder, the connection, the
    client's channel, the pump -- with its tasks interleaved in any order and
    either channel overflowing at any time.  Once all of it is at rest, every
    event after [since] that the subscriber did not cause itself has been
    handed to its pump, or the pump was told that events are missing. *)
Theorem no_change_unnoticed cap n1 n2 n3 since c id hub events k out wire steps s e :
  (1 ≤ cap)%nat → net_reachable cap n1 → rtc net_step n1 n2 → rtc net_step n2 n3 →
  0 ≤ since < U64_MAX → catchup (n_hub n2) (Some since) = Ok c →
  bc_holds hub (EventHub.sent (n_hub n1)) → bc_holds events k →
  stream_run id steps (subscribed id c hub events out wire) = Some s → at_rest id s →
  EventHub.sent (n_hub n3) = EventHub.sent (n_hub n1) ++ concat (published_by <$> steps) → unsent n3 = None →
  e ∈ published n3 → since < ev_seq e → ev_origin e ≠ Some id →
  heard s e ∨ told s.
Proof.
  intros Hcap R1 R12 R23 Hs Hc Hh Hk Hrun Hrest Hsent Hu He Hlt Ho.
  apply (rest_covers _ _ _ _ _ _ _ _ _ _ Hh Hk Hrun Hrest); [|done]. apply elem_of_app.
  destruct (no_gap cap n1 n2 n3 since c e Hcap R1 R12 R23 Hs Hc He Hlt) as [?|[Hin|Hin]]; [by left| |].
  - right. by rw Hsent drop_app_length in Hin.
  - rw Hu in Hin. by apply not_elem_of_nil in Hin.
Qed.

End Facts.

(** ** Witnesses *)

Module Way.
Definition ev (n : Z) (p : string) (o : option Z) : FsEvent := mkFsEvent n Modified p None o.
Definition fresh (n : nat) : Ring.ring := bc_channel (A := list FsEvent) n.
Definition begun (hub events : nat) : Stream Ring.ring := subscribed 7 [ev 1 "a" None] (fresh hub) (fresh events) [] [].

(** A batch of its own and one of somebody else's. *)
Definition run : list StreamStep :=
  [Publish [ev 2 "own" (Some 7)]; FwPush; FwRecv; Publish [ev 3 "b" None; ev 4 "own" (Some 7)]; FwRecv; Write; Read; FwPush; Write; Read; Pump; Pump].
Definition ended : Stream Ring.ring := default (begun 2 2) (stream_run 7 run (begun 2 2)).

(** Two batches more than the hub's channel holds. *)
Definition slow : list StreamStep :=
  [Publish [ev 2 "b" None]; Publish [ev 3 "c" None]; Publish [ev 4 "d" None]; FwPush; FwRecv; FwPush; FwRecv; FwPush; FwRecv; FwPush;
   Write; Write; Write; Write; Read; Read; Read; Read; Pump; Pump; Pump; Pump].
Definition lagged : Stream Ring.ring := default (begun 1 4) (stream_run 7 slow (begun 1 4)).

Lemma fresh_holds n : bc_holds (fresh n) ([] : list (list FsEvent)).
Proof. by apply (bc_channel_ok (A := list FsEvent) (Tx := Ring.ring) n). Qed.
End Way.

Lemma stream_exact_without_lag_witness : handed (st_got Way.ended) = [Way.ev 1 "a" None; Way.ev 3 "b" None].
Proof.
  apply (stream_exact_without_lag 7 [Way.ev 1 "a" None] (Way.fresh 2) (Way.fresh 2) [] [] [] [] Way.run Way.ended).
  - apply Way.fresh_holds.
  - apply Way.fresh_holds.
  - reflexivity.
  - repeat (apply Forall_cons; split; [reflexivity|]). apply Forall_nil_2.
  - intros [Hin|Hin]; vm_compute in Hin; repeat (apply elem_of_cons in Hin as [Hin|Hin]; [discriminate Hin|]); by apply not_elem_of_nil in Hin.
Defined.


Module Hub.
Definition n0 : EventHub.Net := mkNet (with_capacity 2) None.
Definition logged : list FsEvent := (publish_log 5 (with_capacity 2) [("a", Created); ("b", Modified); ("c", Removed)]).1.
Definition n1 : EventHub.Net := mkNet (publish_send (n_hub sample_net) logged) None.
Definition steps : list StreamStep := [Publish logged; FwRecv; FwPush; Write; Read; Pump].
Definition start : Stream Ring.ring := subscribed 7 [] (Way.fresh 2) (Way.fresh 2) [] [].
Definition rest : Stream Ring.ring := default start (stream_run 7 steps start).
End Hub.

Lemma no_change_unnoticed_witness :
  heard Hub.rest (mkFsEvent 3 Removed "c" None None) ∨ told Hub.rest.
Proof.
  apply (no_change_unnoticed 2 Hub.n0 Hub.n0 Hub.n1 0 [] 7 (Way.fresh 2) (Way.fresh 2) [] [] [] Hub.steps Hub.rest (mkFsEvent 3 Removed "c" None None)).
  - lia.
  - apply rtc_refl.
  - apply rtc_refl.
  - eapply rtc_r; [exact sample_net_reachable|]. apply net_send.
  - vm_compute. split; [discriminate|reflexivity].
  - reflexivity.
  - apply Way.fresh_holds.
  - apply Way.fresh_holds.
  - reflexivity.
  - repeat (apply Forall_cons; split; [reflexivity|]). apply Forall_nil_2.
  - reflexivity.
  - reflexivity.
  - right. right. left.
  - reflexivity.
  - discriminate.
Defined.
