(* ===== verification/SyncQueue.v ===== *)
(** * SyncQueue: the operations of a sync and when it is done

    alloyfs-client/src/sync/engine.rs: every change goes through one queue,
    which the executor works off; [pending] counts what was accepted and is not
    finished, [is_quiescent] is what a one-shot run (commands/sync.rs) and the
    tests wait for.  The theorems: the counter is the length of the queue in
    every state that the pump, the watcher, the reconnection and the executor
    can reach, so a quiescent sync has nothing left to do; the executor works
    the queue off in a number of turns read off the queue; what the event
    stream did not deliver ends in a reconciliation; and a one-shot run ends --
    also when its only reconciliation failed. *)

From S2P Require Import Prelude Messages Common Exclude Coalesce EventHub Fs Agent AgentFacts Transport ServerConn Overlay Disk Sync RemoteFs EndToEnd SyncEngine SyncFacts Fanout.

(** ** Definitions *)

Section Queue.
Context {N : Type} `{NET : Net N}.
Context (env : Env) (fuel : nat).
#[local] Abbreviation E := (Engine N).
#[local] Abbreviation EM := (M (Engine N) Halt).

(** The inner loop of [event_pump]. *)
Fixpoint event_pump (got : list Received) : EM unit :=
  match got with [] => sret tt | m :: got => run! pump_message m in event_pump got end.

(** [n] turns of [executor]. *)
Fixpoint executor (n : nat) : EM unit :=
  match n with O => sret tt | S n => run! executor_turn env fuel in executor n end.

(** [while !engine.is_quiescent() { sleep }], then [shutdown], with up to [n]
    turns of the executor in between; [false] if that was not enough. *)
Fixpoint one_shot_wait (n : nat) : EM bool :=
  let! e := sget in
  if is_quiescent e then run! shutdown in sret true
  else match n with O => sret false | S n => run! executor_turn env fuel in one_shot_wait n end.

Definition one_shot (n : nat) (dir : list string) : EM bool := run! start env fuel dir in one_shot_wait n.

(** What the tasks of a running sync do to the engine. *)
Inductive engine_step : E → E → Prop :=
| es_pump m e : engine_step e (pump_message m e).2
| es_watch b e : engine_step e (watcher_batch b e).2
| es_resume e : engine_step e (resume e).2
| es_attach conn e : engine_step e (reattach conn e).2
| es_turn b e e' : executor_turn env fuel e = (Ok b, e') → engine_step e e'
| es_shutdown e : engine_step e (shutdown e).2.

(** ** What an operation does to the queue *)

(** [pending] counts the queue and [extra] operations taken from it, as u64. *)
Definition books (extra : Z) (e : E) : Prop := ss_pending (en_stats e) = (Z.of_nat (length (en_queue e)) + extra) mod 2^64.

(** It ends, without touching queue, counter or flags. *)
Definition quiet {A} (m : EM A) : Prop := ∀ e,
  let '(r, e') := m e in
  en_queue e' = en_queue e ∧ ss_pending (en_stats e') = ss_pending (en_stats e) ∧
  en_stopped e' = en_stopped e ∧ en_excluded e' = en_excluded e ∧ r ≠ Err Waits ∧ r ≠ Err Panicked.

Lemma quiet_ret {A} (a : A) : quiet (sret a).
Proof. by intros e. Qed.

Lemma quiet_fail {A} x : quiet (sfail (A := A) (Failed x)).
Proof. by intros e. Qed.

Lemma quiet_get : quiet sget.
Proof. by intros e. Qed.

Lemma quiet_bind {A B} (m : EM A) (f : A → EM B) : quiet m → (∀ a, quiet (f a)) → quiet (sbind m f).
Proof.
  intros Hm Hf e. unfold sbind. specialize (Hm e). destruct (m e) as [[a|h] e1]; [|naive_solver].
  specialize (Hf a e1). destruct (f a e1) as [r e2]. naive_solver congruence.
Qed.

Lemma quiet_mod f :
  (∀ e, en_queue (f e) = en_queue e ∧ ss_pending (en_stats (f e)) = ss_pending (en_stats e) ∧
        en_stopped (f e) = en_stopped e ∧ en_excluded (f e) = en_excluded e) → quiet (smod f).
Proof. intros Hf e. cbn. naive_solver. Qed.

Lemma quiet_attempt {A} (m : EM A) : quiet m → quiet (attempt m).
Proof. intros Hm e. specialize (Hm e). unfold attempt. destruct (m e) as [[a|[]] e1]; naive_solver. Qed.

Lemma quiet_ask rq : quiet (ask rq).
Proof. intros e. unfold ask. by destruct (net_request _ _ _). Qed.

Lemma quiet_disk_try {A} (m : M Fs IoErrorKind A) : quiet (disk_try m).
Proof. intros e. unfold disk_try. by destruct (m (en_disk e)). Qed.

Lemma quiet_move from to : quiet (move_entries from to).
Proof. intros e. unfold move_entries. by destruct (rename_prefix _ _ _). Qed.
End Queue.

Create HintDb sync_queue.
#[export] Hint Resolve quiet_ret quiet_fail quiet_get quiet_ask quiet_disk_try quiet_move : sync_queue.

Ltac quiet_step :=
  match goal with
  | |- quiet (sbind _ _) => apply quiet_bind; [|intros ?]
  | |- quiet (attempt _) => apply quiet_attempt
  | |- quiet (smod _) => apply quiet_mod; by intros ?
  | |- quiet (match ?x with _ => _ end) => destruct x
  | |- quiet (if ?x then _ else _) => destruct x
  | |- quiet (let '_ := ?x in _) => destruct x
  end.
Ltac quiet_auto := cbv zeta; repeat first [solve [eauto with sync_queue] | quiet_step].

Section Ops.
Context {N : Type} `{NET : Net N}.
Context (env : Env) (fuel : nat).
#[local] Abbreviation E := (Engine N).
#[local] Abbreviation EM := (M (Engine N) Halt).

Lemma quiet_request rq : quiet (N := N) (request rq).
Proof. unfold request. quiet_auto. Qed.
Lemma quiet_demand rq : quiet (N := N) (demand rq).
Proof. pose proof quiet_request. unfold demand, efail. quiet_auto. Qed.
Lemma quiet_disk {A} (m : M Fs IoErrorKind A) : quiet (N := N) (disk m).
Proof. unfold disk, efail. quiet_auto. Qed.
Lemma quiet_full rel : quiet (N := N) (the_full rel).
Proof. unfold the_full. quiet_auto. Qed.
Lemma quiet_stat rel : quiet (N := N) (local_stat (N := N) env rel).
Proof. pose proof quiet_full. unfold local_stat. quiet_auto. Qed.
Lemma quiet_expect rel x : quiet (N := N) (expect rel x).
Proof. unfold expect. quiet_auto. Qed.
Lemma quiet_entries f : quiet (N := N) (upd_entries (N := N) f).
Proof. unfold upd_entries. quiet_auto. Qed.
Lemma quiet_baseline rel : quiet (N := N) (baseline rel).
Proof. unfold baseline. quiet_auto. Qed.
Lemma quiet_stats f : (∀ s, ss_pending (f s) = ss_pending s) → quiet (N := N) (bump_stats (N := N) f).
Proof. intros Hf. apply quiet_mod. intros e. by cbn. Qed.
#[local] Hint Resolve quiet_request quiet_demand quiet_disk quiet_full quiet_stat quiet_expect quiet_entries quiet_baseline quiet_stats : sync_queue.
#[local] Hint Unfold record forget_entry forget_tree efail : sync_queue.

Lemma quiet_read_chunks fh chunks out : quiet (N := N) (read_chunks fh chunks out).
Proof. revert out. induction chunks as [|[o l] chunks IH]; intros out; cbn [read_chunks]; unfold efail; quiet_auto. Qed.
#[local] Hint Resolve quiet_read_chunks : sync_queue.
Lemma quiet_download rel staging : quiet (N := N) (download_to env rel staging).
Proof. unfold download_to, fetch_body_to, efail. quiet_auto. Qed.
Lemma quiet_write_chunks fh chunks : quiet (N := N) (write_chunks fh chunks).
Proof. induction chunks as [|[o d] chunks IH]; cbn [write_chunks]; quiet_auto. Qed.
#[local] Hint Resolve quiet_download quiet_write_chunks : sync_queue.
Lemma quiet_upload rel p : quiet (N := N) (upload env rel p).
Proof. unfold upload, efail. quiet_auto. Qed.
#[local] Hint Resolve quiet_upload : sync_queue.
Lemma quiet_pull rel : quiet (N := N) (pull env rel).
Proof. unfold pull, efail, record. quiet_auto. Qed.
Lemma quiet_push rel : quiet (N := N) (push env rel).
Proof. unfold push, efail, record. quiet_auto. Qed.
#[local] Hint Resolve quiet_pull quiet_push : sync_queue.
Lemma quiet_finally {A} (m : EM A) after : quiet m → quiet after → quiet (N := N) (finally m after).
Proof. intros Hm Ha. unfold finally. quiet_auto. Qed.
Lemma quiet_push_kept kept keep : quiet (N := N) (push_kept env kept keep).
Proof. unfold push_kept. quiet_auto. Qed.
#[local] Hint Resolve quiet_finally quiet_push_kept : sync_queue.
Lemma quiet_resolve rel l r : quiet (N := N) (resolve_conflict env rel l r).
Proof. unfold resolve_conflict, keep_remote, keep_local. quiet_auto. Qed.
#[local] Hint Resolve quiet_resolve : sync_queue.
Lemma quiet_pull_if_needed rel : quiet (N := N) (pull_if_needed env rel).
Proof. unfold pull_if_needed, efail, record. quiet_auto. Qed.
Lemma quiet_children rel cs : quiet (N := N) (expect_children rel cs).
Proof. induction cs as [|c cs IH]; cbn [expect_children]; quiet_auto. Qed.
#[local] Hint Resolve quiet_pull_if_needed quiet_children : sync_queue.
Lemma quiet_delete_local rel : quiet (N := N) (delete_local env fuel rel).
Proof. unfold delete_local, forget_entry, forget_tree. quiet_auto. Qed.
Lemma quiet_rename_here rel to : quiet (N := N) (rename_here env rel to).
Proof. unfold rename_here. quiet_auto. Qed.
Lemma quiet_echo rel : quiet (N := N) (is_own_echo env rel).
Proof. unfold is_own_echo. quiet_auto. Qed.
Lemma quiet_push_dir rel : quiet (N := N) (push_dir rel).
Proof. unfold push_dir, mkdir_remote, efail, record. quiet_auto. Qed.
#[local] Hint Resolve quiet_delete_local quiet_rename_here quiet_echo quiet_push_dir : sync_queue.
Lemma quiet_push_children rel snap : quiet (N := N) (push_children env rel snap).
Proof. induction snap as [|[c s] snap IH]; cbn [push_children]; quiet_auto. Qed.
#[local] Hint Resolve quiet_push_children : sync_queue.
Lemma quiet_push_new_dir rel : quiet (N := N) (push_new_dir_contents env fuel rel).
Proof. unfold push_new_dir_contents. quiet_auto. Qed.
#[local] Hint Resolve quiet_push_new_dir : sync_queue.
Lemma quiet_push_local rel kind : quiet (N := N) (push_local env fuel rel kind).
Proof. unfold push_local, push_changed, push_removed, push_renamed, efail, record, forget_entry, forget_tree. quiet_auto. Qed.
#[local] Hint Resolve quiet_push_local : sync_queue.
Lemma quiet_push_batch batch : quiet (N := N) (push_batch env fuel batch).
Proof. induction batch as [|[p k] batch IH]; cbn [push_batch]; quiet_auto. Qed.
Lemma quiet_actions actions : quiet (N := N) (run_actions env fuel actions).
Proof.
  induction actions as [|a actions IH]; cbn [run_actions]; unfold run_action; [quiet_auto|].
  apply quiet_bind; [|by intros]. apply quiet_bind; [|intros; apply quiet_ret]. apply quiet_attempt.
  unfold do_action, record, forget_entry. quiet_auto.
Qed.
End Ops.
#[export] Hint Resolve quiet_request quiet_demand quiet_disk quiet_full quiet_stat quiet_expect quiet_entries quiet_baseline quiet_stats : sync_queue.
#[export] Hint Resolve quiet_pull_if_needed quiet_delete_local quiet_rename_here quiet_push_batch quiet_actions : sync_queue.

(** ** The queue of a running sync *)

Section Facts.
Context {N : Type} `{NET : Net N}.
Context (env : Env) (fuel : nat).
#[local] Abbreviation E := (Engine N).
#[local] Abbreviation EM := (M (Engine N) Halt).

(** The books stay in order and at most [d] reconciliations are added. *)
Definition adds {A} (d : nat) (m : EM A) : Prop := ∀ x e, books x e →
  let '(r, e') := m e in
  books x e' ∧ en_stopped e' = en_stopped e ∧ en_excluded e' = en_excluded e ∧
  (∃ n, (n ≤ d)%nat ∧ en_queue e' = en_queue e ++ replicate n OReconcile) ∧ r ≠ Err Panicked.

(** The walk over the server's tree ends within [fuel] pages. *)
Definition walks_end : Prop := ∀ e : E, (remote_tree fuel [""] 0 ∅ e).1 ≠ Err Waits.

Lemma quiet_adds {A} (m : EM A) : quiet m → adds 0 m.
Proof.
  intros Hm x e He. specialize (Hm e). destruct (m e) as [r e']. destruct Hm as (Hq & Hp & Hs & Hx & _ & Hr).
  unfold books in *. rw Hp Hq. split_and!; [done..| |done]. exists O. split; [done|]. by rw app_nil_r.
Qed.

Lemma adds_bind {A B} d d' (m : EM A) (f : A → EM B) : adds d m → (∀ a, adds d' (f a)) → adds (d + d') (sbind m f).
Proof.
  intros Hm Hf x e He. unfold sbind. specialize (Hm x e He). destruct (m e) as [[a|h] e1].
  - destruct Hm as (H1 & H2 & H3 & (n & Hn & H4) & _). specialize (Hf a x e1 H1). destruct (f a e1) as [r e2].
    destruct Hf as (F1 & F2 & F3 & (n' & Hn' & F4) & F5). split_and!; [done|congruence|congruence| |done].
    exists (n + n')%nat. split; [lia|]. by rw F4 H4 -app_assoc replicate_add.
  - destruct Hm as (H1 & H2 & H3 & (n & Hn & H4) & H5). split_and!; [done..| |by destruct h]. exists n. split; [lia|done].
Qed.

Lemma adds_mono {A} d d' (m : EM A) : (d ≤ d')%nat → adds d m → adds d' m.
Proof.
  intros Hd Hm x e He. specialize (Hm x e He). destruct (m e) as [r e']. destruct Hm as (? & ? & ? & (n & ? & ?) & ?).
  split_and!; [done..| |done]. exists n. split; [lia|done].
Qed.

Lemma adds_attempt {A} d (m : EM A) : adds d m → adds d (attempt m).
Proof. intros Hm x e He. specialize (Hm x e He). unfold attempt. destruct (m e) as [[a|[]] e1]; naive_solver. Qed.

(** What [enqueue] does to the books, whatever is enqueued. *)
Lemma enqueue_books op x (e : E) : books x e →
  enqueue op e = (Ok tt, (enqueue op e).2) ∧ books x (enqueue op e).2 ∧
  en_queue (enqueue op e).2 = en_queue e ++ (if en_stopped e then [] else [op]) ∧ en_stopped (enqueue op e).2 = en_stopped e.
Proof.
  intros He. unfold enqueue, smod, books in *. destruct (en_stopped e) eqn:Es; cbn; [by rw Es app_nil_r|].
  split_and!; [by rw ?Es| |done|by rw ?Es]. rw He length_app. cbn [length]. unfold u64_add.
  rw Zplus_mod_idemp_l. f_equal. lia.
Qed.

Lemma adds_enqueue : adds 1 (enqueue (N := N) OReconcile).
Proof.
  intros x e He. destruct (enqueue_books OReconcile x e He) as (H1 & H2 & H3 & H4). rw H1. split_and!; [done|done| | |done].
  - unfold enqueue. cbn. by destruct (en_stopped e).
  - rw H3. destruct (en_stopped e); [exists O|exists 1%nat]; split; try lia; done.
Qed.

Lemma remote_tree_steady n dirs c snap (e : E) :
  let '(r, e') := remote_tree n dirs c snap e in
  en_queue e' = en_queue e ∧ ss_pending (en_stats e') = ss_pending (en_stats e) ∧
  en_stopped e' = en_stopped e ∧ en_excluded e' = en_excluded e ∧ r ≠ Err Panicked.
Proof.
  revert dirs c snap e. induction n as [|n IH]; intros [|dir rest] c snap e; cbn [remote_tree]; try done.
  unfold sbind at 1. pose proof (quiet_demand (RqReaddir dir c) e) as Hd.
  destruct (demand (RqReaddir dir c) e) as [[resp|h] e1];
    [|destruct Hd as (?&?&?&?&_&Hp); split_and!; try done; intros [= ->]; by apply Hp].
  destruct Hd as (H1 & H2 & H3 & H4 & _). destruct resp; try naive_solver. unfold sbind, sget.
  destruct (foldl _ _ _) as [snap' rest']. match goal with |- context [match ?o with Some _ => _ | None => _ end] => destruct o as [c'|] end;
    [specialize (IH (dir :: rest') c' snap' e1)|specialize (IH rest' 0 snap' e1)]; destruct (remote_tree _ _ _ _ _) as [r e2]; naive_solver congruence.
Qed.

Lemma reconcile_adds : adds 0 (reconcile env fuel).
Proof.
  apply (adds_bind 0 0).
  - intros x e He. pose proof (remote_tree_steady fuel [""] 0 ∅ e) as Hr. destruct (remote_tree fuel [""] 0 ∅ e) as [r e'].
    destruct Hr as (H1 & H2 & H3 & H4 & H5). unfold books in *. rw H1 H2. split_and!; [done..| |done]. exists O. split; [done|]. by rw app_nil_r.
  - intros remote. apply quiet_adds. quiet_auto.
Qed.

(** The reconciliations a batch of events asks for. *)
Definition resyncs (batch : list FsEvent) : nat := length (base.filter (λ ev, ev_kind ev = ResyncRequired) batch).

Lemma apply_remote_adds ev : adds (resyncs [ev]) (apply_remote env fuel ev).
Proof.
  unfold apply_remote. apply (adds_bind 0 _ sget); [apply quiet_adds, quiet_get|]. intros e.
  assert (∀ d (m : EM unit), quiet m → adds d m) as Hq by (intros d m Hm; apply (adds_mono 0); [lia|by apply quiet_adds]).
  destruct (_ || _); [apply Hq; quiet_auto|]. destruct (ev_kind ev) eqn:Ek; try (apply Hq; solve [quiet_auto]).
  refine (adds_mono 1 _ _ _ adds_enqueue). unfold resyncs. by rw filter_cons_True.
Qed.

Lemma apply_batch_adds batch : adds (resyncs batch) (apply_batch env fuel batch).
Proof.
  induction batch as [|ev batch IH]; cbn [apply_batch]; [apply quiet_adds; quiet_auto|].
  replace (resyncs (ev :: batch)) with (resyncs [ev] + (0 + resyncs batch))%nat
    by (unfold resyncs; rw (filter_app _ [ev] batch) ?length_app; rw -(length_app _ (base.filter _ batch)) -filter_app //).
  apply adds_bind; [apply adds_attempt, apply_remote_adds|]. intros _. apply adds_bind; [apply quiet_adds; quiet_auto|]. by intros _.
Qed.

(** The turns an operation can cost: its own, and those of the reconciliations
    it asks for. *)
Definition cost (op : SyncOp) : nat := match op with ORemote b => S (resyncs b) | _ => 1 end.
Definition work (q : list SyncOp) : nat := sum_list (cost <$> q).

Lemma work_app q q' : work (q ++ q') = (work q + work q')%nat.
Proof. unfold work. (rewrite fmap_app; induction q as [|a q IH]; cbn; [done|]; unfold sum_list in *; cbn in *; lia). Qed.

Lemma work_reconciles n : work (replicate n OReconcile) = n.
Proof. unfold work. induction n as [|n IH]; [done|]. cbn. by f_equal. Qed.

Lemma run_op_adds op : adds (pred (cost op)) (run_op env fuel op).
Proof.
  destruct op as [b|b|]; cbn [run_op cost pred].
  - apply apply_batch_adds.
  - apply quiet_adds. quiet_auto.
  - apply (adds_bind 0 0); [apply adds_attempt, reconcile_adds|]. intros _. apply quiet_adds. quiet_auto.
Qed.

(** The operation ends, with a value or an error that can be logged. *)
Definition ends {A} (m : EM A) : Prop := ∀ e, (m e).1 ≠ Err Waits ∧ (m e).1 ≠ Err Panicked.

Lemma quiet_ends {A} (m : EM A) : quiet m → ends m.
Proof. intros Hm e. specialize (Hm e). destruct (m e). naive_solver. Qed.

Lemma ends_bind {A B} (m : EM A) (f : A → EM B) : ends m → (∀ a, ends (f a)) → ends (sbind m f).
Proof.
  intros Hm Hf e. unfold sbind. specialize (Hm e). destruct (m e) as [[a|h] e1]; [apply Hf|]. cbn in *.
  split; intros [= ->]; naive_solver.
Qed.

Lemma attempt_ok {A} (m : EM A) e : ends m → ∃ r e', attempt m e = (Ok r, e').
Proof. intros Hm. specialize (Hm e). unfold attempt. destruct (m e) as [[a|[]] e1]; cbn in Hm; naive_solver. Qed.

Lemma apply_remote_ends ev : ends (apply_remote env fuel ev).
Proof.
  apply ends_bind; [apply quiet_ends, quiet_get|]. intros e. destruct (_ || _); [apply quiet_ends; quiet_auto|].
  destruct (ev_kind ev); try (apply quiet_ends; solve [quiet_auto]). by intros e'.
Qed.

Lemma apply_batch_ok batch e : ∃ e', apply_batch env fuel batch e = (Ok tt, e').
Proof.
  revert e. induction batch as [|ev batch IH]; intros e; cbn [apply_batch]; [by eexists|].
  destruct (attempt_ok _ e (apply_remote_ends ev)) as (r & e1 & E1). rw (sbind_eq _ _ _ _ _ E1). unfold sbind at 1. cbn. apply IH.
Qed.

Lemma push_batch_ok batch e : ∃ e', push_batch env fuel batch e = (Ok tt, e').
Proof.
  revert e. induction batch as [|[p k] batch IH]; intros e; cbn [push_batch]; [by eexists|].
  destruct (attempt_ok _ e (quiet_ends _ (quiet_push_local env fuel p k))) as (r & e1 & E1). rw (sbind_eq _ _ _ _ _ E1). apply IH.
Qed.

Lemma reconcile_ends : walks_end → ends (reconcile env fuel).
Proof.
  intros Hw. apply ends_bind; [|intros remote; apply quiet_ends; quiet_auto]. intros e. split; [apply Hw|].
  pose proof (remote_tree_steady fuel [""] 0 ∅ e) as Hr. destruct (remote_tree fuel [""] 0 ∅ e). naive_solver.
Qed.

Lemma run_op_ok op e : walks_end → ∃ e', run_op env fuel op e = (Ok tt, e').
Proof.
  intros Hw. destruct op as [b|b|]; cbn [run_op]; [apply apply_batch_ok|apply push_batch_ok|].
  destruct (attempt_ok _ e (reconcile_ends Hw)) as (r & e1 & E1). rw (sbind_eq _ _ _ _ _ E1). by eexists.
Qed.

(** One turn of the executor, from its result. *)
Lemma turn_books e b e' : en_stopped e = false → books 0 e → executor_turn env fuel e = (Ok b, e') →
  books 0 e' ∧ en_stopped e' = false ∧ (b = negb (bool_decide (en_queue e = []))) ∧ (work (en_queue e') ≤ pred (work (en_queue e)))%nat.
Proof.
  intros Hs He. unfold executor_turn, sbind at 1, sget. destruct (en_queue e) as [|op rest] eqn:Eq.
  { intros [= <- <-]. by rw Eq. }
  unfold sbind at 1. cbn [smod]. rw Hs. set (e1 := set_work rest _ _ _ e). intros Hturn.
  assert (books 1 e1) as H1. { unfold books, e1 in *. cbn. rw He Eq. cbn [length]. f_equal. lia. }
  pose proof (run_op_adds op 1 e1 H1) as Hop. unfold sbind at 1 in Hturn.
  destruct (run_op env fuel op e1) as [[[]|h] e2]; [|done]. destruct Hop as (H2 & Hs2 & _ & (n & Hn & Hq) & _).
  injection Hturn as <- <-. unfold flush_baseline, bump_stats, smod. cbn. split_and!.
  - unfold books in *. cbn. rw H2. unfold u64_add. rw Zplus_mod_idemp_l. f_equal; lia.
  - by rw Hs2.
  - done.
  - change (work (en_queue e2) ≤ pred (cost op + work rest))%nat. rw Hq. change (en_queue e1) with rest. rw work_app work_reconciles.
    destruct op; cbn [cost pred] in *; lia.
Qed.

Lemma turn_ok e : walks_end → ∃ b e', executor_turn env fuel e = (Ok b, e').
Proof.
  intros Hw. unfold executor_turn, sbind at 1, sget. destruct (en_queue e) as [|op rest]; [by do 2 eexists|].
  unfold sbind at 1. cbn [smod]. destruct (en_stopped e); [by do 2 eexists|].
  match goal with |- context [run_op _ _ op] => idtac end. unfold sbind at 1.
  destruct (run_op_ok op (set_work rest (en_stats e) false (en_saved e) e) Hw) as [e2 E2]. rw E2. by do 2 eexists.
Qed.

Lemma resume_adds : adds 1 (resume (N := N)).
Proof.
  assert (∀ m : EM unit, quiet m → adds 1 m) as Hq by (intros m Hm; apply (adds_mono 0); [lia|by apply quiet_adds]).
  apply (adds_bind 0 1); [apply quiet_adds, quiet_get|]. intros e. apply (adds_bind 0 1); [apply quiet_adds, quiet_ask|]. intros r.
  repeat case_match; try (apply Hq; solve [quiet_auto]); try apply adds_enqueue;
    (apply (adds_bind 0 1); [apply quiet_adds, quiet_ask|intros _; apply adds_enqueue]).
Qed.

Lemma enqueue_stopped op (e : E) : en_stopped (enqueue op e).2 = en_stopped e.
Proof. unfold enqueue, smod. cbn. by destruct (en_stopped e) eqn:Es. Qed.

Lemma resume_stopped (e : E) : en_stopped (resume e).2 = en_stopped e.
Proof.
  unfold resume, sbind, sget. pose proof (λ rq, quiet_ask rq e) as Hq.
  match goal with |- context [ask ?rq e] => specialize (Hq rq); destruct (ask rq e) as [[r|h] e1] end; [|by apply Hq].
  destruct Hq as (_ & _ & Hs & _). rw -Hs. repeat case_match; simplify_eq; try done; try (by rw enqueue_stopped).
  all: match goal with H : ask ?rq ?e0 = _ |- _ => pose proof (quiet_ask rq e0) as Hq; rw H in Hq; destruct Hq as (_ & _ & Hs1 & _) end;
    by rw ?enqueue_stopped.
Qed.

Lemma step_books e e' : engine_step env fuel e e' → (en_stopped e = false → books 0 e) → en_stopped e' = false → books 0 e'.
Proof.
  assert (∀ (m : EM unit), (∀ e, books 0 e → books 0 (m e).2) → (∀ e, en_stopped (m e).2 = en_stopped e) →
    ∀ e, (en_stopped e = false → books 0 e) → en_stopped (m e).2 = false → books 0 (m e).2) as Hm.
  { intros m Hb Hs e0 He Hst. apply Hb, He. by rw -Hs. }
  assert (∀ op e, books 0 e → books 0 (enqueue op e).2) as Hbook by (intros op e0 He; apply (enqueue_books op 0 e0 He)).
  intros [m e0|b e0|e0|conn e0|b e0 e1 Ht|e0] He Hs.
  - destruct m; by apply (Hm _ (Hbook _) (enqueue_stopped _)).
  - revert Hs. unfold watcher_batch. cbv zeta. case_bool_decide; [intros; by apply He|]. by apply (Hm _ (Hbook _) (enqueue_stopped _)).
  - apply (Hm resume); [|apply resume_stopped|done|done]. intros e1 H1. pose proof (resume_adds 0 e1 H1) as Ha. destruct (resume e1). apply Ha.
  - revert Hs. unfold reattach. destruct (net_request _ _ _) as [[[[]|]|] n]; cbn; intros Hs; by apply He.
  - destruct (en_stopped e0) eqn:Es0; [|by apply (turn_books e0 b e1 Es0 (He eq_refl) Ht)].
    exfalso. revert Ht Hs. unfold executor_turn, sbind, sget, smod. destruct (en_queue e0); [intros [= _ <-]; congruence|].
    rw Es0. intros [= _ <-]. cbn. congruence.
  - done.
Qed.

Lemma reach_books e e' : rtc (engine_step env fuel) e e' → (en_stopped e = false → books 0 e) → en_stopped e' = false → books 0 e'.
Proof. induction 1 as [|e e1 e' Hs _ IH]; [done|]. intros He. apply IH. intros Hs1. by apply (step_books e e1). Qed.

Lemma books_quiescent (e : E) : books 0 e → Z.of_nat (length (en_queue e)) < 2^64 → is_quiescent e = true ↔ en_queue e = [].
Proof.
  intros He Hl. unfold is_quiescent. rw bool_decide_eq_true He Z.add_0_r Z.mod_small; [|lia]. split; [|by intros ->].
  intros H0. apply length_zero_iff_nil. lia.
Qed.

(** A sync as [start] leaves it: the reconciliation is queued. *)
Lemma start_books dir e e' : start env fuel dir e = (Ok tt, e') →
  books 0 e' ∧ en_stopped e' = false ∧ en_queue e' = [OReconcile].
Proof.
  unfold start. intros H. apply sbind_Ok in H as (? & e1 & _ & H). apply sbind_Ok in H as (root & e2 & _ & H).
  apply sbind_Ok in H as (e3 & e4 & _ & H). apply sbind_Ok in H as (r & e5 & _ & H). destruct r; try done.
  apply sbind_Ok in H as ([] & e6 & H6 & H). injection H6 as <-. apply sbind_Ok in H as (r & e7 & H7 & H).
  apply sbind_Ok in H as (last & e8 & H8 & H).
  match type of H7 with disk_try ?m ?e0 = _ => pose proof (quiet_disk_try m e0) as Q7 end. rw H7 in Q7. destruct Q7 as (A1 & A2 & A3 & _).
  assert (quiet (N := N) (subscribe_from (m_last_seq (en_saved e3)))) as Q8 by (unfold subscribe_from, efail; quiet_auto).
  specialize (Q8 e7). rw H8 in Q8. destruct Q8 as (B1 & B2 & B3 & _). cbn in A1, A2, A3.
  assert (books 0 e8) as Hb. { unfold books. by rw B2 A2 B1 A1. }
  destruct (enqueue_books OReconcile 0 e8 Hb) as (_ & H1 & H2 & H3). rw H in H1 H2 H3. cbn in H1, H2, H3.
  split_and!; [done|by rw H3 B3 A3|]. by rw H2 B1 A1 B3 A3.
Qed.


Lemma drains n e : walks_end → en_stopped e = false → books 0 e → (work (en_queue e) ≤ n)%nat →
  ∃ e', executor env fuel n e = (Ok tt, e') ∧ en_queue e' = [] ∧ books 0 e' ∧ en_stopped e' = false.
Proof.
  intros Hw. revert e. induction n as [|n IH]; intros e Hs Hb Hn.
  - exists e. split_and!; try done. destruct (en_queue e) as [|op q]; [done|]. unfold work in Hn. cbn in Hn. destruct op; cbn in Hn; lia.
  - destruct (turn_ok e Hw) as (b & e1 & E1). destruct (turn_books e b e1 Hs Hb E1) as (H1 & H2 & _ & H4).
    destruct (IH e1 H2 H1 ltac:(lia)) as (e' & E' & ?). exists e'. split; [|done]. cbn [executor]. by rw (sbind_eq _ _ _ _ _ E1).
Qed.


Lemma one_shot_turns n e : walks_end → en_stopped e = false → books 0 e → Z.of_nat (work (en_queue e)) < 2^64 → (work (en_queue e) ≤ n)%nat →
  ∃ e', one_shot_wait env fuel n e = (Ok true, e') ∧ en_stopped e' = true ∧ en_queue e' = [].
Proof.
  intros Hw. assert (∀ q, (length q ≤ work q)%nat) as Hwork.
  { induction q as [|op q IH]; [done|]. unfold work in *. destruct op; cbn in *; lia. }
  revert e. induction n as [|n IH]; intros e Hs Hb Hl Hn; cbn [one_shot_wait]; unfold sbind at 1, sget at 1;
    pose proof (Hwork (en_queue e)) as Hle; pose proof (books_quiescent e Hb ltac:(lia)) as Hiff.
  - assert (en_queue e = []) as Hq by (apply length_zero_iff_nil; lia). rw (proj2 Hiff Hq). by eexists.
  - destruct (is_quiescent e) eqn:Eq; [eexists; split_and!; [done..|]; by apply Hiff|].
    destruct (turn_ok e Hw) as (b & e1 & E1). destruct (turn_books e b e1 Hs Hb E1) as (H1 & H2 & _ & H4).
    rw (sbind_eq _ _ _ _ _ E1). apply IH; [done|done|lia|lia].
Qed.

(** A one-shot sync ends.  Once the set-up succeeded, and with a server whose
    tree can be walked, one turn of the executor is enough: the loop that waits
    for it is left, the engine is shut down and nothing is queued.  It is not
    left before that turn. *)
Theorem one_shot_ends dir e e1 : walks_end → start env fuel dir e = (Ok tt, e1) →
  is_quiescent e1 = false ∧ ∃ e', one_shot env fuel 1 dir e = (Ok true, e') ∧ en_stopped e' = true ∧ en_queue e' = [].
Proof.
  intros Hw Hst. destruct (start_books _ _ _ Hst) as (Hb & Hs & Hq).
  assert (work (en_queue e1) = 1%nat) as E1 by (by rw Hq). split.
  - destruct (is_quiescent e1) eqn:E; [|done]. apply books_quiescent in E; [congruence|done|rw Hq; done].
  - unfold one_shot. rw (sbind_eq _ _ _ _ _ Hst). apply one_shot_turns; [done..| |lia]. by rw E1.
Qed.

(** The events of a stream, as the sync queues them. *)
Definition op_of (m : Received) : SyncOp := match m with Batch b => ORemote b | Lagged => OReconcile end.

Lemma event_pump_queues got (e : E) : en_stopped e = false →
  ∃ e', event_pump got e = (Ok tt, e') ∧ en_queue e' = en_queue e ++ (op_of <$> got) ∧ en_stopped e' = false.
Proof.
  revert e. induction got as [|m got IH]; intros e Hs; cbn [event_pump fmap list_fmap]; [exists e; by rw app_nil_r|].
  assert (pump_message m e = (Ok tt, (enqueue (op_of m) e).2)) as E1 by (by destruct m). rw (sbind_eq _ _ _ _ _ E1).
  assert (en_stopped (enqueue (op_of m) e).2 = false ∧ en_queue (enqueue (op_of m) e).2 = en_queue e ++ [op_of m]) as [Hs1 Hq1].
  { split; [by rw enqueue_stopped|]. unfold enqueue, smod. cbn. by rw Hs. }
  destruct (IH _ Hs1) as (e' & -> & Hq & Hs'). exists e'. split_and!; [done| |done]. by rw Hq Hq1 -app_assoc.
Qed.
End Facts.

(** C13.  A sync overlooks no remote change.  When the way of the events of a
    subscription has come to rest and the pump of a running sync has passed on
    what it got, every event published since the subscription (and every one of
    the catch-up) that is not the client's own is in a queued batch, or a
    reconciliation is queued, or a batch that asks for one: running that batch
    queues it, unless the root itself is excluded. *)
Theorem sync_overlooks_nothing {N : Type} `{NET : RemoteFs.Net N} {Tx : Type} `{BroadcastLaws (list FsEvent) Tx} env fuel
    id c (hub events : Tx) h k out wire steps s (e : Engine N) ev :
  bc_holds hub h → bc_holds events k →
  stream_run id steps (subscribed id c hub events out wire) = Some s → at_rest id s → en_stopped e = false →
  ev ∈ c ++ concat (concat (published_by <$> steps)) → ev_origin ev ≠ Some id →
  ∃ e', event_pump (st_got s) e = (Ok tt, e') ∧
    ((∃ b, ORemote b ∈ en_queue e' ∧ ev ∈ b) ∨ OReconcile ∈ en_queue e' ∨
     ORemote [RESYNC] ∈ en_queue e' ∧
     ∀ e2 : Engine N, en_stopped e2 = false → en_excluded e2 "" = false →
       en_queue (run_op env fuel (ORemote [RESYNC]) e2).2 = en_queue e2 ++ [OReconcile]).
Proof.
  intros Hh Hk Hrun Hrest Hs Hev Ho. destruct (event_pump_queues (st_got s) e Hs) as (e' & He' & Hq & _). exists e'. split; [done|]. rw Hq.
  assert (∀ m, m ∈ st_got s → op_of m ∈ en_queue e ++ (op_of <$> st_got s)) as Hin.
  { intros m Hm. apply elem_of_app. right. by apply list_elem_of_fmap_2. }
  destruct (rest_covers _ _ _ _ _ _ _ _ _ _ Hh Hk Hrun Hrest ev Hev Ho) as [(b & Hb & Hin')|[Hl|Hr]].
  - left. exists b. split; [|done]. by apply (Hin (Batch b)).
  - right. left. by apply (Hin Lagged).
  - right. right. split; [by apply (Hin (Batch [RESYNC]))|]. intros e2 Hs2 Hx. cbn [run_op apply_batch]. unfold sbind, attempt, apply_remote.
    cbn. rw Hx. cbn. by rw Hs2.
Qed.

(** ** Runs, in front of servers that do little *)

Module Serving.
(** Attaches and subscribes; a listing is answered with [d], anything else
    fails. *)
Definition net (d : result Response ErrorCode) : RemoteFs.Net unit := {|
  net_now _ := 0;
  net_conn _ := mkConn 1 4;
  net_swap _ s := s;
  net_closed _ _ := false;
  net_request _ rq s :=
    (match rq with
     | RqAttach _ => Ok (Ok (RsAttachOk 1 (mkAttr KDir 0 0 0 493 0)))
     | RqSubscribe _ => Ok (Ok (RsSubscribed 0))
     | RqReaddir _ _ => Ok d
     | _ => Ok (Err Io)
     end, s);
  net_keepalive _ _ s := (None, s)
|}.
Definition empty : RemoteFs.Net unit := net (Ok (RsDir [] None)).
Definition broken : RemoteFs.Net unit := net (Err Io).

Definition engine (q : list SyncOp) : Engine unit :=
  mkEngine Synced.root "data" (λ _, false) (mkManifest 0 ∅) (mkManifest 0 ∅) ∅ Newer true 0 q
    (mkStats 0 0 0 0 0 (Z.of_nat (length q))) false (Synced.disk_of [("mine", 10)] [(10, Synced.file "mine" 600)]) tt.
(** After [start], with each server. *)
Definition started (NET : RemoteFs.Net unit) : Engine unit := (start Synced.env 9 Synced.root (engine [])).2.

Lemma walks : walks_end (NET := empty) 9.
Proof. by intros []. Qed.
Lemma walks_broken : walks_end (NET := broken) 9.
Proof. by intros []. Qed.
End Serving.



Lemma one_shot_ends_witness :
  ∃ e', one_shot (NET := Serving.empty) Synced.env 9 1 Synced.root (Serving.engine []) = (Ok true, e') ∧ en_stopped e' = true ∧ en_queue e' = [].
Proof.
  apply (one_shot_ends (NET := Serving.empty) Synced.env 9 Synced.root (Serving.engine []) (Serving.started Serving.empty)).
  - exact Serving.walks.
  - vm_compute. reflexivity.
Defined.

(** A one-shot sync reports success when it did nothing: the only
    reconciliation fails (here the server's listing does), the failure is
    logged, the operation counts as finished and the command returns Ok. *)
Theorem one_shot_hides_failure :
  (attempt (reconcile (NET := Serving.broken) Synced.env 9) (Serving.started Serving.broken)).1 = Ok (Err (Remote Io)) ∧
  (one_shot (NET := Serving.broken) Synced.env 9 1 Synced.root (Serving.engine [])).1 = Ok true.
Proof. split; vm_compute; reflexivity. Qed.

Lemma sync_overlooks_nothing_witness :
  ∃ e', event_pump (st_got Way.lagged) (Serving.engine []) = (Ok tt, e') ∧
    ((∃ b, ORemote b ∈ en_queue e' ∧ Way.ev 2 "b" None ∈ b) ∨ OReconcile ∈ en_queue e' ∨
     ORemote [RESYNC] ∈ en_queue e' ∧
     ∀ e2 : Engine unit, en_stopped e2 = false → en_excluded e2 "" = false →
       en_queue (run_op (NET := Serving.empty) Synced.env 9 (ORemote [RESYNC]) e2).2 = en_queue e2 ++ [OReconcile]).
Proof.
  apply (sync_overlooks_nothing (NET := Serving.empty) Synced.env 9 7 [Way.ev 1 "a" None] (Way.fresh 1) (Way.fresh 4) [] [] [] [] Way.slow Way.lagged).
  - apply Way.fresh_holds.
  - apply Way.fresh_holds.
  - reflexivity.
  - repeat (apply Forall_cons; split; [reflexivity|]). apply Forall_nil_2.
  - reflexivity.
  - right. left.
  - discriminate.
Defined.
