(* ===== verification/Http.v ===== *)
(** * Http: the agent's HTTP surface

    alloyfs-http/src/lib.rs: the token gate in front of every route, the
    handlers (status, exports, browse, file GET and POST, mkdir, delete, the
    event stream) over the agent's World, and the mapping of errors to status
    codes.  A request is the route it names with its query and headers; what
    axum does with it before a handler runs (routing, percent decoding) is left
    out, except the answers it gives itself: a missing [path] is a 400 and a
    body above [MAX_BODY] a 413.

    The gate lets nothing through without the token; a read-only export keeps
    its files; what a request changes is inside the export, unless a POST ends
    in a link; a file that was posted is what GET returns; the event stream
    gives a resuming client every event it missed or tells it to fetch again. *)

From S2P Require Import Prelude Messages Common Exclude Locks EventHub Fs Agent AgentFacts Confine Disk Sync.

Definition MAX_BODY : Z := 256 * 1024 * 1024.

(** [StatusCode]. *)
Definition BAD_REQUEST : Z := 400.
Definition UNAUTHORIZED : Z := 401.
Definition FORBIDDEN : Z := 403.
Definition NOT_FOUND : Z := 404.
Definition CONFLICT : Z := 409.
Definition PAYLOAD_TOO_LARGE : Z := 413.
Definition INTERNAL_SERVER_ERROR : Z := 500.

Definition code_to_status (e : ErrorCode) : Z :=
  match e with
  | NotFound => NOT_FOUND
  | PermissionDenied | InvalidPath => FORBIDDEN
  | NotADirectory | IsADirectory => BAD_REQUEST
  | AlreadyExists => CONFLICT
  | NotEmpty => CONFLICT
  | ReadOnly => FORBIDDEN
  | _ => INTERNAL_SERVER_ERROR
  end.

(** ** Listening *)

Inductive IpAddr : Type := V4 (a b c d : Z) | V6 (addr : Z).

(** [IpAddr::is_loopback]: 127.0.0.0/8 and ::1. *)
Definition is_loopback (ip : IpAddr) : bool :=
  match ip with V4 a _ _ _ => a =? 127 | V6 addr => addr =? 1 end.

(** The addresses the listen string resolves to, or the failure. *)
Definition is_loopback_listen (addrs : option (list IpAddr)) : bool :=
  match addrs with Some l => forallb is_loopback l | None => false end.

(** The check before the listener is bound. *)
Definition serve_allowed (token : option string) (addrs : option (list IpAddr)) : bool :=
  match token with Some _ => true | None => is_loopback_listen addrs end.

(** ** The gate *)

(** [HeaderValue::to_str]: visible ASCII only. *)
Definition visible (b : Z) : bool := ((32 <=? b) && (b <? 127)) || (b =? 9).
Definition header_str (v : string) : option string := if forallb visible (as_bytes v) then Some v else None.

Definition authorized (token : option string) (authorization : option string) : bool :=
  match token with
  | None => true
  | Some expected =>
      match (v ← authorization; s ← header_str v; strip_prefix "Bearer " s) with
      | Some presented => token_eq presented expected
      | None => false
      end
  end.

(** ** Replies *)

Record ExportInfo : Type := mkExportInfo {
  ei_name : string; ei_root : string; ei_read_only : bool; ei_last_seq : Z
}.

Record BrowseEntry : Type := mkBrowseEntry {
  be_name : string; be_kind : string; be_size : Z; be_mtime_ms : Z; be_version : Z
}.

(** A server-sent event: a change, or the order to fetch again. *)
Inductive Sse : Type := SseFs (id : Z) (ev : FsEvent) | SseResync (why : string).

Inductive Reply : Type :=
| JStatus (version : string) (exports : list ExportInfo)
| JExports (exports : list ExportInfo)
| JEntries (entries : list BrowseEntry)
| Body (content_length : Z) (bytes : list Z)
| JWritten (written version : Z)
| JCreated
| JDeleted
| EventStream (first : list Sse) (rx : nat).

Definition CARGO_PKG_VERSION : string := "0.8.1".

Definition fs_event (ev : FsEvent) : Sse := SseFs (ev_seq ev) ev.

(** What the broadcast receiver yields: a batch, or the news that it lagged. *)
Definition live_stream (received : list (option (list FsEvent))) : list Sse :=
  mjoin ((λ item, match item with
                  | Some batch => fs_event <$> batch
                  | None => [SseResync "stream lagged; refetch state"]
                  end) <$> received).

(** The routes with what the handlers take from the request. *)
Inductive HttpCall : Type :=
| GetStatus
| GetExports
| GetBrowse (name : string) (path : option string)
| GetFile (name : string) (path : option string)
| PostFile (name : string) (path : option string) (body : list Z)
| PostMkdir (name : string) (path : option string)
| PostDelete (name : string) (path : option string)
| GetEvents (name : string) (last_event_id : option string).

Section Http.
Context {Glob GlobSet : Type} `{G : Globs Glob GlobSet}.
#[local] Abbreviation W := (World (GlobSet := GlobSet)).
#[local] Abbreviation X := (Export (GlobSet := GlobSet)).

(** A handler fails with a status. *)
Definition HttpM : Type → Type := M W Z.

(** [.map_err(code_to_status)]. *)
Definition answered {A} (m : AgentM (GlobSet := GlobSet) A) : HttpM A :=
  λ w, let '(r, w) := m w in
       (map_err (λ e, match e with Fail e => code_to_status e | Pending => INTERNAL_SERVER_ERROR end) r, w).

(** [.map_err(f)] on a file-system call. *)
Definition io_err {A} (f : IoErrorKind → ErrorCode) (m : M Fs IoErrorKind A) : AgentM (GlobSet := GlobSet) A :=
  let! r := fs_try m in code (map_err f r).

(** [.map_err(|_| ErrorCode::Io)] on a transfer. *)
Definition any_io {A} (m : AgentM (GlobSet := GlobSet) A) : AgentM A :=
  λ w, match m w with (Err (Fail _), w) => (Err (Fail Io), w) | r => r end.

Definition registry_get (name : string) : HttpM X :=
  λ w, (ok_or (w_exports w !! name) NOT_FOUND, w).

Definition query_path (path : option string) : HttpM string := slift (ok_or path BAD_REQUEST).

Definition file_get (env : Env) (name path : string) : HttpM Reply :=
  let! x := registry_get name in
  let! full := answered (resolve env x path) in
  let! file := answered (io_err (λ _, NotFound) (sys_open env (mkOpenOptions false false false false) full)) in
  let! md := answered (io_err (λ _, Io) (fstat env full file)) in
  if md_is_dir md then sfail BAD_REQUEST
  else
    let! w := sget in
    sret (Body (md_len md) (file_bytes (w_fs w) file)).

Definition file_post (env : Env) (name path : string) (body : list Z) : HttpM Reply :=
  let! x := registry_get name in
  if x_read_only x then sfail FORBIDDEN
  else
    let! full := answered (resolve_new env x path) in
    let! version := answered (
      let! file := io_err (λ _, Io) (sys_open env (mkOpenOptions true true true false) full) in
      run! any_io (write_out env file body 0) in
      bump_version x path) in
    sret (JWritten (blen body) version).

Definition mkdir_error (e : IoErrorKind) : ErrorCode :=
  match e with IoAlreadyExists => AlreadyExists | _ => Io end.

Definition mkdir_post (env : Env) (name path : string) : HttpM Reply :=
  let! x := registry_get name in
  if x_read_only x then sfail FORBIDDEN
  else
    let! full := answered (resolve_new env x path) in
    run! answered (
      run! io_err mkdir_error (create_dir env full) in
      bump_version x path) in
    sret JCreated.

Definition rmdir_error (e : IoErrorKind) : ErrorCode :=
  match e with IoDirectoryNotEmpty => NotEmpty | _ => Io end.

Definition delete_post (env : Env) (name path : string) : HttpM Reply :=
  let! x := registry_get name in
  if x_read_only x then sfail FORBIDDEN
  else
    let! full := answered (resolve env x path) in
    run! answered (
      let! md := io_err (λ _, NotFound) (symlink_metadata env full) in
      run! (if md_is_dir md then io_err rmdir_error (remove_dir env full)
            else io_err (λ _, Io) (remove_file env full)) in
      bump_version x path) in
    sret JDeleted.

Definition export_info (x : X) : ExportInfo :=
  mkExportInfo (x_name x) ("/" +:+ join_with slash (x_root x)) (x_read_only x) (last_seq (x_events x)).

(** [registry.all()], in the order of the names. *)
Definition registry_all (w : W) : list X := (sorted_entries (w_exports w)).*2.

Definition status : HttpM Reply :=
  let! w := sget in sret (JStatus CARGO_PKG_VERSION (export_info <$> registry_all w)).

Definition exports : HttpM Reply :=
  let! w := sget in sret (JExports (export_info <$> registry_all w)).

Definition browse_entry (e : DirEntry) : BrowseEntry :=
  mkBrowseEntry (de_name e)
    (match a_kind (de_attr e) with KDir => "dir" | KSymlink => "symlink" | KFile => "file" end)
    (a_size (de_attr e)) (Z.max 0 (a_mtime (de_attr e)) / 1000000) (a_version (de_attr e)).

Definition browse_get (env : Env) (name path : string) : HttpM Reply :=
  let! x := registry_get name in
  let! entries := answered (browse env x path) in
  sret (JEntries (browse_entry <$> entries)).

Definition events_sse (name : string) (last_event_id : option string) : HttpM Reply :=
  let! x := registry_get name in
  let since := v ← last_event_id; s ← header_str v; parse_u64 (as_bytes s) in
  match EventHub.subscribe (x_events x) since with
  | Ok (catchup, rx) => sret (EventStream (fs_event <$> catchup) rx)
  | Err TooOld =>
      match EventHub.subscribe (x_events x) None with
      | Ok (_, rx) => sret (EventStream [SseResync "event history expired; refetch state"] rx)
      | Err _ => sfail INTERNAL_SERVER_ERROR
      end
  | Err _ => sfail INTERNAL_SERVER_ERROR
  end.

(** The router. *)
Definition route (env : Env) (call : HttpCall) : HttpM Reply :=
  match call with
  | GetStatus => status
  | GetExports => exports
  | GetBrowse name path => browse_get env name (default "" path)
  | GetFile name path => let! p := query_path path in file_get env name p
  | PostFile name path body =>
      let! p := query_path path in
      if MAX_BODY <? blen body then sfail PAYLOAD_TOO_LARGE else file_post env name p body
  | PostMkdir name path => let! p := query_path path in mkdir_post env name p
  | PostDelete name path => let! p := query_path path in delete_post env name p
  | GetEvents name last => events_sse name last
  end.

(** A request through the gate. *)
Definition http (env : Env) (token authorization : option string) (call : HttpCall) : HttpM Reply :=
  if authorized token authorization then route env call else sfail UNAUTHORIZED.
End Http.

(** ** The gate *)

Section Gate.
Context {Glob GlobSet : Type} `{G : Globs Glob GlobSet}.
#[local] Abbreviation W := (World (GlobSet := GlobSet)).
Implicit Types (w : W) (x : Export (GlobSet := GlobSet)) (env : Env) (call : HttpCall).

Lemma authorized_iff t h : authorized (Some t) h = true ↔
  h = Some ("Bearer " +:+ t) ∧ forallb visible (as_bytes ("Bearer " +:+ t)) = true.
Proof.
  unfold authorized, header_str. destruct h as [v|]; [|naive_solver]. cbn [mbind option_bind].
  destruct (forallb visible (as_bytes v)) eqn:Ev; cbn [mbind option_bind].
  - destruct (strip_prefix "Bearer " v) as [r|] eqn:E.
    + apply strip_prefix_Some in E as ->. rw token_eq_iff. split; [by intros ->|]. intros [[= H]%Some_inj _]. exact H.
    + split; [done|]. intros [[= ->] _]. by rw (proj2 (strip_prefix_Some _ _ _) eq_refl) in E.
  - split; [done|]. intros [[= ->] H]. congruence.
Qed.

(** Every route is behind the token.  With a token configured, a request
    whose Authorization header is anything but the bearer token is answered 401
    and leaves the agent as it was, whatever the route; a request that carries
    it is handled as if there were no gate.  (A token with a byte outside the
    visible ASCII range admits nobody.) *)
Theorem http_token_gate env t authorization call w :
  http env (Some t) authorization call w =
  if decide (authorization = Some ("Bearer " +:+ t) ∧ forallb visible (as_bytes ("Bearer " +:+ t)) = true)
  then route env call w else (Err UNAUTHORIZED, w).
Proof.
  unfold http. case_decide as H.
  - by apply authorized_iff in H as ->.
  - destruct (authorized (Some t) authorization) eqn:E; [|done]. by apply authorized_iff in E.
Qed.

(** ** What a request may change *)

Lemma keeps_answered {A B} (obs : W → B) (m : AgentM (GlobSet := GlobSet) A) : keeps obs m → keeps obs (answered m).
Proof. intros H w. unfold answered. rw -(H w). by destruct (m w). Qed.
Lemma keeps_io_err {A B} (obs : W → B) f (m : M Fs IoErrorKind A) : keeps same m → keeps obs (io_err (GlobSet := GlobSet) f m).
Proof. intros. unfold io_err. keeps. Qed.
Lemma keeps_any_io {A B} (obs : W → B) (m : AgentM (GlobSet := GlobSet) A) : keeps obs m → keeps obs (any_io m).
Proof. intros H w. unfold any_io. rw -(H w). by destruct (m w) as [[?|[]] ?]. Qed.
Lemma keeps_registry_get {B} (obs : W → B) name : keeps obs (registry_get (GlobSet := GlobSet) name).
Proof. done. Qed.
Lemma keeps_query_path {B} (obs : W → B) p : keeps obs (query_path (GlobSet := GlobSet) p).
Proof. done. Qed.
#[local] Hint Resolve keeps_answered keeps_io_err keeps_any_io keeps_registry_get keeps_query_path : keeps.

Lemma keeps_browse_get {B} (obs : W → B) env name p : keeps obs (browse_get env name p).
Proof. unfold browse_get. keeps. apply keeps_answered. unfold browse. keeps. Qed.
Lemma keeps_file_get {B} (obs : W → B) env name p : keeps obs (file_get env name p).
Proof. unfold file_get. keeps. Qed.
Lemma keeps_events {B} (obs : W → B) name last : keeps obs (events_sse (GlobSet := GlobSet) name last).
Proof. unfold events_sse. keeps. Qed.
#[local] Hint Resolve keeps_browse_get keeps_file_get keeps_events : keeps.

(** The export a mutation names. *)
Definition mutates call : option string :=
  match call with
  | PostFile name _ _ | PostMkdir name _ | PostDelete name _ => Some name
  | _ => None
  end.

Lemma keeps_route {B} (obs : W → B) env call : mutates call = None → keeps obs (route env call).
Proof. intros Hm. destruct call; try done; cbn [route]; unfold status, exports; keeps. Qed.

Lemma registry_get_eq name x w : w_exports w !! name = Some x → registry_get name w = (Ok x, w).
Proof. intros H. unfold registry_get. by rw H. Qed.

(** A read-only export cannot be changed over HTTP: no request, with or
    without the token, changes the disk when the export it names is
    read-only. *)
Theorem http_read_only_untouched env token authorization call w :
  (∀ name x, mutates call = Some name → w_exports w !! name = Some x → x_read_only x = true) →
  w_fs (http env token authorization call w).2 = w_fs w.
Proof.
  intros Hro. unfold http. destruct (authorized _ _); [|done].
  destruct (mutates call) as [name|] eqn:Hm; [|by apply (keeps_route w_fs)].
  assert (∀ A (m : _ → HttpM A), w_fs (sbind (registry_get name) (λ x, if x_read_only x then sfail FORBIDDEN else m x) w).2 = w_fs w) as Hgate.
  { intros A m. unfold sbind, registry_get. destruct (w_exports w !! name) as [x|] eqn:E; [|done]. simpl. by rw (Hro name x). }
  destruct call as [| | | |n [p|] body|n [p|]|n [p|]|]; try done; injection Hm as ->; cbn [route];
    change (sbind (query_path (Some p)) ?k w) with (k p w); cbv beta; [destruct (_ <? _); [done|]|..]; apply Hgate.
Qed.

Section Inside.
Context (env : Env) (x : Export (GlobSet := GlobSet)) (w : W) (Hroot : root_real x (w_fs w)).
#[local] Abbreviation In := (inside x (w_fs w)).

Lemma within_answered {A} (m : AgentM (GlobSet := GlobSet) A) : within In m w → within In (answered m) w.
Proof. unfold within, answered. by destruct (m w). Qed.

Lemma answered_Ok {A} (m : AgentM (GlobSet := GlobSet) A) w1 a w2 : answered m w1 = (Ok a, w2) → m w1 = (Ok a, w2).
Proof. unfold answered. destruct (m w1) as [[?|?] ?]; by intros [= <- <-]. Qed.

Lemma within_io_err {A} f (m : M Fs IoErrorKind A) : changes_only In (w_fs w) (m (w_fs w)).2 → within In (io_err f m) w.
Proof. unfold within, io_err, fs_try, sbind. destruct (m (w_fs w)) as [[a|e] fs]; done. Qed.

Lemma within_any_io {A} (m : AgentM (GlobSet := GlobSet) A) w1 P : within P m w1 → within P (any_io m) w1.
Proof. unfold within, any_io. by destruct (m w1) as [[?|[]] ?]. Qed.

Lemma write_out_changes i data off w1 (P : Z → Prop) : P i → within P (write_out env i data off) w1.
Proof.
  intros Hi. unfold write_out. apply within_looks; [keeps|]. intros w2 _.
  destruct (write_fully _ _ _ _ _) as [[r bs]|]; [|apply within_keeps; keeps].
  apply within_tail; [|keeps]. case_bool_decide; [apply within_keeps; keeps|]. by apply set_content_changes.
Qed.

Lemma mkdir_post_within name p : w_exports w !! name = Some x → within In (mkdir_post env name p) w.
Proof using Hroot.
  intros Hx. unfold mkdir_post. apply within_looks; [keeps|]. intros y. rw (registry_get_eq _ _ _ Hx). intros [= <-].
  destruct (x_read_only x); [apply within_keeps; keeps|]. apply within_looks; [keeps|].
  intros full (_ & d & leaf & Hd & Hp & Hl & ->)%answered_Ok%resolve_new_Ok; [|done].
  apply within_tail; [|keeps]. apply within_answered, within_tail; [|keeps]. apply within_io_err.
  eapply changes_weaken; [|by apply create_dir_changes]. intros i [->| ->]; [by apply inside_dir|by left].
Qed.

Lemma delete_post_within name p : w_exports w !! name = Some x → p ≠ "" → within In (delete_post env name p) w.
Proof using Hroot.
  intros Hx Hne. unfold delete_post. apply within_looks; [keeps|]. intros y. rw (registry_get_eq _ _ _ Hx). intros [= <-].
  destruct (x_read_only x); [apply within_keeps; keeps|]. apply within_looks; [keeps|].
  intros full (_ & s & Hs & -> & Hp & Hv & Hf)%answered_Ok%resolve_Ok; [|done].
  apply within_tail; [|keeps]. apply within_answered, within_looks; [keeps|]. intros md _.
  apply within_tail; [|keeps]. destruct (md_is_dir md); apply within_io_err; [|by apply remove_file_inside].
  apply (remove_dir_inside _ _ _ Hroot p); auto.
Qed.

(** The place a POST writes to is a link. *)
Definition lands_on_link p : Prop :=
  ∃ full s t, resolve_new env x p w = (Ok full, w) ∧ find (w_fs w) false full = Ok s ∧
    content_at (w_fs w) (ino_of s) = Some (LinkData t).

Lemma io_err_Ok {A} f (m : M Fs IoErrorKind A) w1 a w2 : io_err f m w1 = (Ok a, w2) →
  (m (w_fs w1)).1 = Ok a ∧ w_fs w2 = (m (w_fs w1)).2.
Proof. unfold io_err, fs_try, sbind. destruct (m (w_fs w1)) as [[b|e] fs]; [|done]. by intros [= -> <-]. Qed.

Lemma file_post_within name p body : w_exports w !! name = Some x → ¬ lands_on_link p → within In (file_post env name p body) w.
Proof using Hroot.
  intros Hx Hn. unfold file_post. apply within_looks; [keeps|]. intros y. rw (registry_get_eq _ _ _ Hx). intros [= <-].
  destruct (x_read_only x); [apply within_keeps; keeps|]. apply within_looks; [keeps|].
  intros full Hr%answered_Ok. destruct (resolve_new_Ok _ _ _ _ _ _ Hroot Hr) as (_ & d & leaf & Hd & Hp & Hl & ->).
  pose proof (open_create_changes env (w_fs w) d leaf Hd Hl) as Ho.
  cbv zeta in Ho. specialize (Ho ltac:(intros s t Hs Ht; apply Hn; by exists (path_of d ++ [leaf]), s, t)).
  destruct (sys_open _ _ _ (w_fs w)) as [r fs'] eqn:Eo. destruct Ho as [Hc Hi].
  assert (∀ i, (i = ino_of d ∨ i = next_ino (w_fs w)) ∨ (∃ s, real (w_fs w) s ∧ path_of s = path_of d ++ [leaf] ∧ i = ino_of s) → In i) as Hin.
  { intros i [[->| ->]|(s & Hs & Hsp & ->)]; [by apply inside_dir|by left|]. apply inside_dir; [done|].
    rw Hsp. by apply prefix_app_r. }
  apply within_tail; [|keeps]. apply within_answered. apply within_bind.
  - apply within_io_err. rw Eo. by eapply changes_weaken; [exact Hin|].
  - intros i w1 [H1 _]%io_err_Ok. rw Eo in H1. apply within_tail; [|keeps]. apply within_any_io, write_out_changes. by apply Hin, Hi.
Qed.
End Inside.

(** What keeps a mutation in its export: a POST does not end in a link, a
    delete names something below the root. *)
Definition well_aimed env x w call : Prop :=
  match call with
  | PostFile _ (Some p) _ => ¬ lands_on_link env x w p
  | PostDelete _ (Some p) => p ≠ ""
  | _ => True
  end.

(** C14.  An HTTP request changes files inside the export only: every inode it
    changes is at a real path below the root of the export the request names,
    or new, through whatever links its path goes; provided that a POST does not
    end in a link and a delete does not name the root itself. *)
Theorem http_changes_stay_inside env token authorization call w name x :
  w_exports w !! name = Some x → root_real x (w_fs w) → mutates call = Some name → well_aimed env x w call →
  changes_only (inside x (w_fs w)) (w_fs w) (w_fs (http env token authorization call w).2).
Proof.
  intros Hx Hroot Hm Hw. unfold http. destruct (authorized _ _); [|apply changes_refl].
  destruct call as [| | | |n [p|] body|n [p|]|n [p|]|]; try done; injection Hm as ->; cbn [route]; try apply changes_refl;
    change (sbind (query_path (Some p)) ?k w) with (k p w); cbv beta; [destruct (_ <? _); [apply changes_refl|]|..].
  - by apply file_post_within.
  - by apply mkdir_post_within.
  - by apply delete_post_within.
Qed.
End Gate.

(** ** A posted file is the file that GET returns *)

#[local] Opaque walk place.

Section RoundTrip.
Context {Glob GlobSet : Type} `{G : Globs Glob GlobSet}.
#[local] Abbreviation W := (World (GlobSet := GlobSet)).
Implicit Types (w : W).
Context (env : Env) (calm : ∀ call p, fault env call p = None).
Context (x : Export (GlobSet := GlobSet)) (serves_all : ∀ q, is_excluded (x_exclude x) q = false).

(** The components of a path below the root. *)
Definition below (p : RelPath) : list string := if decide (p = "") then [] else split_on slash p.

Lemma below_join p c : good_component c → split_on slash (RelPath.join p c) = below p ++ [c].
Proof.
  intros (_ & _ & _ & Hs & _). unfold below. case_decide as Hp; [subst p; by rw /RelPath.join /= split_no_sep|].
  rw join_nonroot // split_on_app_sep (split_no_sep _ c) //.
Qed.

(** Resolving a path that leads to [s] without links. *)
Lemma resolve_calm w p s : RelPath.validate p = Ok tt → real (w_fs w) s → path_of s = x_root x ++ below p →
  find (w_fs w) true (x_root x ++ below p) = Ok s → resolve env x p w = (Ok (path_of s), w).
Proof using calm serves_all.
  intros Hv Hs Hp Hf. unfold resolve. rw serves_all.
  assert (resolve_unchecked (GlobSet := GlobSet) env (x_root x) p w = (Ok (path_of s), w)) as Hr.
  { unfold resolve_unchecked. rw Hv. change (sbind (code (Ok tt)) ?k w) with (k tt w). cbv beta.
    unfold RelPath.is_root, str_is_empty. rw /below in Hp Hf. case_bool_decide as E.
    - rw decide_True // app_nil_r in Hp. by rw Hp.
    - rw decide_False // in Hp Hf. unfold canonicalize. rw (guard_calm _ calm). unfold sbind, fs_call, sret, sget, slift. rw Hf.
      simpl. rw upd_fs_same bool_decide_true // Hp. by apply prefix_app_r. }
  rw (sbind_eq _ _ _ _ _ Hr). destruct (negb _); [|done]. destruct (stripped _ _); [|done]. by rw serves_all.
Qed.

Lemma resolve_new_calm w p c s es : RelPath.validate p = Ok tt → good_component c → directory (w_fs w) s es →
  path_of s = x_root x ++ below p → resolve_new env x (RelPath.join p c) w = (Ok (path_of s ++ [c]), w).
Proof using calm serves_all.
  intros Hv Hc [Hr _ _] Hp. unfold resolve_new. rw serves_all validate_join_lemma // split_join_path; try apply Hc.
  change (sbind (code (Ok tt)) ?k w) with (k tt w). cbv beta.
  rw (sbind_eq _ _ _ (p, c) w); [|done].
  assert (resolve env x p w = (Ok (path_of s), w)) as Hs by (apply resolve_calm; try done; rw -Hp; by apply find_real).
  by rw (sbind_eq _ _ _ _ _ Hs).
Qed.

Lemma file_get_calm w name p c s es j data : w_exports w !! name = Some x → RelPath.validate p = Ok tt → good_component c →
  directory (w_fs w) s es → path_of s = x_root x ++ below p → es !! c = Some j → content_at (w_fs w) j = Some (FileData data) →
  file_get env name (RelPath.join p c) w = (Ok (Body (blen data) data), w).
Proof using calm serves_all.
  intros Hx Hv Hc Hdir Hp He Hd. unfold file_get. rw (sbind_eq _ _ _ _ _ (registry_get_eq _ _ _ Hx)).
  assert (place (w_fs w) true (path_of s ++ [c]) = Ok (Found ((c, j) :: s))) as Hpl.
  { rw (place_in (w_fs w) s es) //; [by rw He|]. intros i. rw He. intros [= <-]. eauto. }
  assert (resolve env x (RelPath.join p c) w = (Ok (path_of ((c, j) :: s)), w)) as Hr.
  { assert (below (RelPath.join p c) = below p ++ [c]) as Hb.
    { unfold below at 1. rw decide_False; [by apply below_join|]. unfold RelPath.join, str_is_empty.
      case_bool_decide; [apply Hc|]. by destruct p. }
    apply resolve_calm; [by apply validate_join_lemma| |by rw path_of_cons Hb Hp app_assoc|].
    - destruct Hdir as [Hs Hes _]. by apply (real_cons _ _ _ _ es (FileData data)); try apply Hc.
    - rw Hb app_assoc -Hp. unfold find. by rw Hpl. }
  unfold answered at 1. unfold sbind at 1. rw Hr. cbn [map_err]. rw path_of_cons.
  pose proof (open_there env calm false (w_fs w) s es c j data Hdir Hc He Hd) as Ho.
  unfold answered, io_err, fs_try, sbind, sret, sget. rw Ho. cbn. unfold fstat. rw (guard_calm _ calm).
  unfold sbind, sret, sget, slift, node_at. cbn. pose proof (file_bytes_content _ _ _ Hd) as Hb. unfold content_at in Hd.
  rw !upd_fs_same. destruct (nodes (w_fs w) !! j) as [n|] eqn:En; [|done]. cbn in *. injection Hd as Hn. unfold stat_of. rw Hn. cbn. by rw upd_fs_same Hb.
Qed.

Lemma file_post_calm w p c s es body : w_exports w !! x_name x = Some x → x_read_only x = false → RelPath.validate p = Ok tt →
  good_component c → directory (w_fs w) s es → path_of s = x_root x ++ below p →
  (∀ i, es !! c = Some i → ∃ bs, content_at (w_fs w) i = Some (FileData bs)) →
  nodes (w_fs w) !! next_ino (w_fs w) = None → Forall progresses (answers env) → (length body ≤ gives (answers env))%nat →
  let j := default (next_ino (w_fs w)) (es !! c) in
  let '(v, vs) := bump (x_versions x) (RelPath.join p c) in
  ∃ w', file_post env (x_name x) (RelPath.join p c) body w = (Ok (JWritten (blen body) v), w') ∧
    w_exports w' !! x_name x = Some (upd_versions vs x) ∧ directory (w_fs w') s (<[c := j]> es) ∧
    content_at (w_fs w') j = Some (FileData body).
Proof using calm serves_all.
  intros Hx Hro Hv Hc Hdir Hp Hi Hj Hans Hg j. destruct (bump _ _) as [v vs] eqn:Eb.
  destruct (open_create_there env calm (w_fs w) s es c Hdir Hc Hi Hj) as (fs1 & Ho & Hd1 & Hc1). fold j in Ho, Hd1, Hc1.
  destruct (write_out_exact env j body 0 (upd_fs fs1 w) [] Hc1 Hans Hg) as (fs2 & Hw & Hc2 & Hn2).
  assert (splice [] (Z.to_nat 0) body = body) as Hsp by (change (Z.to_nat 0) with (length (@nil Z)); by rw splice_end). rw Hsp in Hc2.
  assert (directory fs2 s (<[c := j]> es)) as Hd2.
  { eapply directory_keep; [exact Hd1|exact Hc1|exact Hn2]. }
  exists (upd_export (x_name x) (upd_versions vs) (upd_fs fs2 w)). split; [|split; [simpl; by rw lookup_alter_eq Hx|done]].
  unfold file_post. rw (sbind_eq _ _ _ _ _ (registry_get_eq _ _ _ Hx)) Hro.
  pose proof (resolve_new_calm w p c s es Hv Hc Hdir Hp) as Hr.
  assert (answered (resolve_new env x (RelPath.join p c)) w = (Ok (path_of s ++ [c]), w)) as Hr' by (unfold answered; by rw Hr).
  rw (sbind_eq _ _ _ _ _ Hr').
  assert (io_err (GlobSet := GlobSet) (λ _, Io) (sys_open env (mkOpenOptions true true true false) (path_of s ++ [c])) w = (Ok j, upd_fs fs1 w)) as Ho'
    by (unfold io_err, fs_try, sbind; by rw Ho).
  unfold answered, sbind at 2, any_io. unfold sbind at 2. unfold sbind at 1. rw Ho' Hw. unfold bump_version.
  change (w_exports (upd_fs fs2 w)) with (w_exports w). by rw Hx Eb.
Qed.
End RoundTrip.


(** ** The event stream *)

Lemma live_stream_batches batches : live_stream (Some <$> batches) = fs_event <$> concat batches.
Proof. unfold live_stream. induction batches as [|b l IH]; [done|]. cbn. by rw fmap_app -IH. Qed.

(** A client that reconnects with its Last-Event-ID misses nothing without
    being told.  The stream either opens with a resync event, or the catch-up
    and the batches its receiver is sent contain, as events with their sequence
    numbers, everything published after that id up to any later moment, but for
    the batch that is about to be sent. *)
Theorem sse_resumes {Glob GlobSet : Type} `{G : Globs Glob GlobSet} cap n1 n2 name x (w : World (GlobSet := GlobSet)) id since :
  (1 ≤ cap)%nat → net_reachable cap n1 → rtc net_step n1 n2 →
  w_exports w !! name = Some x → x_events x = n_hub n1 →
  header_str id = Some id → parse_u64 (as_bytes id) = Some since → 0 ≤ since < U64_MAX →
  ∃ first rx, events_sse name (Some id) w = (Ok (EventStream first rx), w) ∧
    ((∃ why, first = [SseResync why]) ∨
     ∀ e, e ∈ published n2 → since < ev_seq e →
       SseFs (ev_seq e) e ∈ first ++ live_stream (Some <$> drop rx (sent (n_hub n2))) ∨ e ∈ default [] (unsent n2)).
Proof.
  intros Hcap R1 R12 Hx He Hh Hparse Hs. unfold events_sse. rw (sbind_eq _ _ _ _ _ (registry_get_eq _ _ _ Hx)).
  cbn [mbind option_bind]. rw Hh. cbn [mbind option_bind]. rw Hparse He. unfold EventHub.subscribe.
  destruct (catchup (n_hub n1) (Some since)) as [c|e] eqn:Ec.
  - eexists _, _. split; [reflexivity|]. right. intros e Hin Hlt.
    destruct (no_gap cap n1 n1 n2 since c e Hcap R1 (rtc_refl _ _) R12 Hs Ec Hin Hlt) as [H|[H|H]]; [left|left|by right];
      rw live_stream_batches; apply elem_of_app; [left|right]; by apply (list_elem_of_fmap_2 fs_event _ e).
  - assert (e = TooOld) as ->.
    { unfold catchup in Ec. destruct (hub_log _); [done|]. case_bool_decide; by simplify_eq. }
    eexists _, _. split; [reflexivity|]. left. by eexists.
Qed.

(** ** Witnesses, and where the boundary leaks *)

Module Site.
#[local] Existing Instance Sample.sample_globs.

Definition world : World := Demo.world false [].
Definition after (calls : list HttpCall) (w : World) : list (result Reply Z) * World :=
  foldl (λ '(l, w) call, let '(r, w) := http Demo.env None None call w in (l ++ [r], w)) ([], w) calls.
Definition hub : EventHub := n_hub sample_net.
Definition watched : World :=
  upd_export "data" (upd_events hub) world.
End Site.

Lemma http_read_only_untouched_witness :
  w_fs (http Demo.env None None (PostDelete "data" (Some "note")) (Demo.world true [])).2 = Demo.fs.
Proof.
  apply (http_read_only_untouched Demo.env None None (PostDelete "data" (Some "note")) (Demo.world true [])).
  intros name x [= <-]. vm_compute. by intros [= <-].
Defined.

Lemma http_changes_stay_inside_witness :
  changes_only (inside (Demo.export false []) Demo.fs) Demo.fs
    (w_fs (http Demo.env None None (PostFile "data" (Some "private/new") [1; 2]) Site.world).2) ∧
  (http Demo.env None None (PostFile "data" (Some "private/new") [1; 2]) Site.world).1 = Ok (JWritten 2 1).
Proof.
  split; [|vm_compute; reflexivity].
  apply (http_changes_stay_inside Demo.env None None (PostFile "data" (Some "private/new") [1; 2]) Site.world "data" (Demo.export false [])).
  - vm_compute. reflexivity.
  - apply demo_root_real.
  - reflexivity.
  - intros (full & s & t & H1 & H2 & _). vm_compute in H1. injection H1 as <-. vm_compute in H2. discriminate.
Defined.


(** The client saw event 1; two and three are in the log. *)
Lemma sse_resumes_witness :
  ∃ first rx, events_sse "data" (Some "1") Site.watched = (Ok (EventStream first rx), Site.watched) ∧
    ((∃ why, first = [SseResync why]) ∨
     ∀ e, e ∈ published sample_net → 1 < ev_seq e →
       SseFs (ev_seq e) e ∈ first ++ live_stream (Some <$> drop rx (sent (n_hub sample_net))) ∨
       e ∈ default [] (unsent sample_net)).
Proof.
  apply (sse_resumes 2 sample_net sample_net "data" (upd_events Site.hub (Demo.export false [])) Site.watched "1" 1).
  - lia.
  - apply sample_net_reachable.
  - apply rtc_refl.
  - vm_compute. reflexivity.
  - reflexivity.
  - reflexivity.
  - reflexivity.
  - vm_compute. split; [discriminate|reflexivity].
Defined.

(** A POST writes through a link at the end of its path, out of the export.
    The link x of the export leads to /etc/passwd (a client can make it, the
    lexical check lets it pass): GET of x is refused with 403, but a POST to x
    overwrites /etc/passwd. *)
Theorem http_post_escapes_export :
  let '(_, w) := Confine.after
    [RqMkdir "a" 493; RqMkdir "a/b" 493; RqSymlink "../.." "a/b/up"; RqSymlink "a/b/up/../../etc/passwd" "x"] [] in
  let '(answers, w') := Site.after [GetFile "data" (Some "x"); PostFile "data" (Some "x") [33]] w in
  answers = [Err FORBIDDEN; Ok (JWritten 1 5)] ∧
  content_at (w_fs w) 2 = Some (FileData Demo.passwd) ∧ content_at (w_fs w') 2 = Some (FileData [33]) ∧
  find (w_fs w') true ["etc"; "passwd"] = Ok [("passwd", 2); ("etc", 1)].
Proof. vm_compute. split_and!; reflexivity. Qed.

(** Delete of a link removes the file it points to and keeps the link; delete of
    the empty path removes the export's root. *)
Theorem http_delete_follows_and_climbs :
  let '(_, w) := Confine.after [RqSymlink "note" "l"] [] in
  let '(answers, w') := Site.after [PostDelete "data" (Some "l"); GetFile "data" (Some "note"); GetFile "data" (Some "l")] w in
  let '(answers2, w2) := Site.after [PostDelete "data" (Some "note"); PostDelete "data" (Some "private/key");
                                     PostDelete "data" (Some "private"); PostDelete "data" (Some "")] Site.world in
  answers = [Ok JDeleted; Err NOT_FOUND; Err NOT_FOUND] ∧
  content_at (w_fs w') 8 = Some (LinkData "note") ∧
  answers2 = [Ok JDeleted; Ok JDeleted; Ok JDeleted; Ok JDeleted] ∧ find (w_fs w2) true ["srv"; "data"] = Err IoNotFound.
Proof. vm_compute. split_and!; reflexivity. Qed.

(** Writing over a directory is a client's mistake that [code_to_status] has a
    status for (400), and so is a missing parent (404); a POST reports the first
    as an internal error, since it forgets which error the write gave. *)
Theorem http_post_on_directory_is_500 :
  (Site.after [PostFile "data" (Some "private") [1]; PostFile "data" (Some "none/new") [1]; PostMkdir "data" (Some "private")] Site.world).1
  = [Err INTERNAL_SERVER_ERROR; Err NOT_FOUND; Err CONFLICT].
Proof. vm_compute. reflexivity. Qed.
