(* ===== verification/Cli.v ===== *)
(** * Cli: urls, keys and the directories of this machine

    alloyfs-cli: [parse_url] and the names that urls and exports get on disk
    (urls.rs), the layout of ~/.alloyfs, its migration and the choice of a
    configuration file (config.rs), the options of a mount as flags and file
    give them (commands/mount.rs), the state key of a sync
    (commands/sync.rs) and the clearing of the cache (commands/cache.rs).
    [lower] is [str::to_lowercase].

    A name made from a url or an export is always one plain path component;
    printing a target and parsing it again gives it back; clearing the cache
    changes nothing outside the cache tree.  The names are not distinct for
    distinct exports or directories: the last theorems are such collisions. *)

From S2P Require Import Prelude Messages Common Exclude Fs Agent AgentFacts Overlay Disk RemoteFs.

(** ** Urls *)

Inductive Target : Type :=
| Tcp (addr : string)
| Ssh (host : string) (port : option Z).

Inductive UrlError : Type := NoScheme | NoHost | BadPort.

(** [str::split_once]. *)
Fixpoint split_once (c : ascii) (s : string) : option (string * string) :=
  match s with
  | EmptyString => None
  | String a s' => if decide (a = c) then Some ("", s')
                   else '(h, t) ← split_once c s'; Some (String a h, t)
  end.

Definition split_export (rest : string) : string * option string :=
  match split_once slash rest with
  | Some (head, export) => if negb (str_is_empty export) then (head, Some export) else (head, None)
  | None => (rest, None)
  end.

Definition colon : ascii := ":"%char.

(** [p.parse::<u16>()] on digits. *)
Definition parse_u16 (p : string) : result Z UrlError :=
  match parse_u64 (as_bytes p) with
  | Some n => if n <=? 65535 then Ok n else Err BadPort
  | None => Err BadPort
  end.

Definition all_digits (p : string) : bool := forallb is_ascii_digit (as_bytes p).

Definition parse_url (url : string) : result (Target * option string) UrlError :=
  match strip_prefix "tcp://" url with
  | Some rest =>
      let '(addr, export) := split_export rest in
      if str_is_empty addr then Err NoHost else Ok (Tcp addr, export)
  | None =>
      match strip_prefix "ssh://" url with
      | Some rest =>
          let '(host, export) := split_export rest in
          if str_is_empty host then Err NoHost
          else
            let? '(host, port) :=
              match rsplit_once colon host with
              | Some (h, p) =>
                  if negb (str_is_empty p) && all_digits p then let? n := parse_u16 p in Ok (h, Some n)
                  else Ok (host, None)
              | None => Ok (host, None)
              end in
            Ok (Ssh host port, export)
      | None => Err NoScheme
      end
  end.

Definition require_export (export : option string) : option string := export.

(** ** Names on disk *)

(** [c.is_ascii_alphanumeric() || "._-".contains(c)], on a byte. *)
Definition kept_char (b : Z) : bool :=
  is_ascii_alphabetic b || is_ascii_digit b || (b =? 46) || (b =? 95) || (b =? 45).

(** Every character that is not kept becomes one '-': a character is a byte
    that is not a continuation byte, and those that follow it. *)
Definition continuation (b : Z) : bool := (128 <=? b) && (b <? 192).

Definition byte_of (a : ascii) : Z := Z.of_N (N_of_ascii a).

Fixpoint sanitize_chars (s : string) : string :=
  match s with
  | EmptyString => ""
  | String a s =>
      if kept_char (byte_of a) then String a (sanitize_chars s)
      else if continuation (byte_of a) then sanitize_chars s
      else String "-" (sanitize_chars s)
  end.

(** [s.trim_matches('.')] is empty. *)
Fixpoint only_dots (s : string) : bool :=
  match s with EmptyString => true | String a s => bool_decide (a = "."%char) && only_dots s end.

Definition sanitize (s : string) : string :=
  let out := sanitize_chars s in
  if only_dots out then "_" else out.

(** [url.split("://").nth(1).unwrap_or(url)]. *)
Fixpoint split_scheme (s : string) : option (string * string) :=
  match strip_prefix "://" s with
  | Some rest => Some ("", rest)
  | None => match s with
            | EmptyString => None
            | String a s => '(h, t) ← split_scheme s; Some (String a h, t)
            end
  end.
Definition after_scheme (url : string) : string :=
  match split_scheme url with
  | Some (_, rest) => match split_scheme rest with Some (mid, _) => mid | None => rest end
  | None => url
  end.

(** [s.split(c).next()] and [s.rsplit(c).next()]: there is always one. *)
Definition before (c : ascii) (s : string) : string := match split_once c s with Some (h, _) => h | None => s end.
Definition behind (c : ascii) (s : string) : string := match rsplit_once c s with Some (_, t) => t | None => s end.

Section Cli.
Context (lower : string → string).

Definition host_key (url : string) : string :=
  sanitize (lower (behind "@" (before slash (after_scheme url)))).

Definition export_key (export : string) : string := sanitize (lower export).

(** FNV-1a, 64 bits. *)
Definition fnv1a (bytes : list Z) : Z :=
  foldl (λ hash b, (Z.lxor hash b * 0x00000100000001b3) mod 2^64) 0xcbf29ce484222325 bytes.

Definition hex_digit (n : Z) : ascii := ascii_of_nat (Z.to_nat (if n <? 10 then 48 + n else 87 + n)).

(** [format!("{:08x}", hash as u32)]. *)
Definition hex8 (n : Z) : string :=
  foldr String "" ((λ k, hex_digit (Z.land (Z.shiftr (n mod 2^32) (4 * Z.of_nat (7 - k))) 15)) <$> seq 0 8).

Definition legacy_mount_key (url export : string) : string :=
  let normalized := lower (trim_end_slashes url) +:+ "/" +:+ export in
  let host := before slash (after_scheme url) in
  sanitize_chars host +:+ "-" +:+ sanitize_chars export +:+ "-" +:+ hex8 (fnv1a (as_bytes normalized)).

(** The key of a sync's baseline: the export and the local directory. *)
Definition dir_tag (canon : string) : string := hex8 (fnv1a (as_bytes (lower canon))).
Definition sync_key (export canon : string) : string := export_key export +:+ "-" +:+ dir_tag canon.

(** ** The home tree *)

(** The process environment: [HOME], [XDG_DATA_HOME], the current directory and
    the executable's, where they are known. *)
Record CliEnv : Type := mkCliEnv {
  ce_home : option (list string);
  ce_xdg_data_home : option (list string);
  ce_cwd : option (list string);
  ce_exe_dir : option (list string)
}.

Context (env : Env) (ce : CliEnv).
#[local] Abbreviation DiskM := (M Fs IoErrorKind).

Definition home_dir : list string :=
  match ce_home ce with Some h => h | None => default [] (ce_cwd ce) end.

(** A call whose error is only logged. *)
Definition logged (m : DiskM unit) : DiskM unit := run! stry m in sret tt.

Definition app_dir : DiskM (list string) :=
  let dir := home_dir ++ [".alloyfs"] in
  let! there := path_exists env dir in
  run! (if negb there then logged (create_dir_all env dir) else sret tt) in
  sret dir.

Definition LEGACY_ROOTS : list string := ["alloyfs"; "drive-sync"].

Definition legacy_roots : list (list string) :=
  let parents :=
    match ce_xdg_data_home ce with
    | Some p => [p]
    | None => match ce_home ce with Some h => [h ++ [".local"; "share"]] | None => [] end
    end in
  mjoin ((λ p, (λ n, p ++ [n]) <$> LEGACY_ROOTS) <$> parents).

Definition data_root (host : string) : DiskM (list string) :=
  let! app := app_dir in sret (app ++ ["data"; host]).

Definition cache_root (host : string) : DiskM (list string) :=
  let! app := app_dir in sret (app ++ ["cache"; host]).

(** One of the three moves, out of one legacy root. *)
Definition migrate_one (src dest : list string) : DiskM unit :=
  let! have := path_exists env src in
  let! taken := path_exists env dest in
  if negb have || taken then sret tt
  else
    run! logged (create_dir_all env (removelast dest)) in
    logged (sys_rename env src dest).

Fixpoint migrate_root (root : list string) (moves : list (list string * list string)) : DiskM unit :=
  match moves with
  | [] => sret tt
  | (rel, dest) :: moves => run! migrate_one (root ++ rel) dest in migrate_root root moves
  end.

Fixpoint migrate_roots (roots : list (list string)) (moves : list (list string * list string)) : DiskM unit :=
  match roots with
  | [] => sret tt
  | root :: roots =>
      let! d := is_dir env root in
      run! (if d : bool then migrate_root root moves else sret tt) in
      migrate_roots roots moves
  end.

Definition migrate_legacy_mount (old_key host export : string) : DiskM unit :=
  let! data := data_root host in
  let! cache := cache_root host in
  migrate_roots legacy_roots
    [(["overlay"; old_key], data ++ ["overlay"; export]);
     (["cache"; old_key], cache ++ [export]);
     (["cache"; old_key +:+ ".manifest.json"], cache ++ [export +:+ ".manifest.json"])].

(** ** Which configuration *)

Definition CONFIG_NAMES : list string := ["alloyfs.yml"; "alloyfs.yaml"; "alloyfs.json"].
Definition HOME_CONFIG_NAMES : list string := ["config.yml"; "config.yaml"; "config.json"].

(** [Path::is_file]. *)
Definition is_file (p : list string) : DiskM bool :=
  let! r := stry (metadata env p) in
  sret (match r with Ok md => negb (md_is_dir md) | Err _ => false end).

Fixpoint find_file (candidates : list (list string)) : DiskM (option (list string)) :=
  match candidates with
  | [] => sret None
  | p :: ps => let! f := is_file p in if f : bool then sret (Some p) else find_file ps
  end.

Definition first_existing (dir : list string) (names : list string) : DiskM (option (list string)) :=
  find_file ((λ n, dir ++ [n]) <$> names).

Definition in_dir (dir : option (list string)) (names : list string) : DiskM (option (list string)) :=
  match dir with Some d => first_existing d names | None => sret None end.

Definition legacy_configs : list (list string) :=
  match ce_home ce with
  | Some h => mjoin ((λ dir, (λ n, h ++ dir ++ [n]) <$> ["agent.yml"; "agent.yaml"; "agent.toml"])
                      <$> [[".config"; "alloyfs"]; [".config"; "drive-sync"]])
  | None => []
  end.

Definition default_config_path (CONFIG_TEMPLATE : list Z) : DiskM (option (list string)) :=
  let! here := in_dir (ce_cwd ce) CONFIG_NAMES in
  match here with
  | Some p => sret (Some p)
  | None =>
      let! beside := in_dir (ce_exe_dir ce) CONFIG_NAMES in
      match beside with
      | Some p => sret (Some p)
      | None =>
          let! app := app_dir in
          let home_config := app ++ ["config.yml"] in
          let! app := app_dir in
          let! own := first_existing app HOME_CONFIG_NAMES in
          match own with
          | Some p => sret (Some p)
          | None =>
              let! old := find_file legacy_configs in
              match old with
              | Some p => sret (Some p)
              | None =>
                  let! r := stry (fs_write env home_config CONFIG_TEMPLATE) in
                  sret (match r with Ok _ => Some home_config | Err _ => None end)
              end
          end
      end
  end.

(** ** Clearing the cache *)

Inductive ClearError : Type := ClearIo (e : IoErrorKind) | ClearUrl (e : UrlError) | NoTarget | NoExport.

Definition clear_io {A} (m : DiskM A) : M Fs ClearError A := λ fs, let '(r, fs) := m fs in (map_err ClearIo r, fs).

(** The two removals of one export's cache. *)
Definition clear_export (fuel : nat) (dir : list string) (key : string) : M Fs ClearError unit :=
  let! d := clear_io (is_dir env (dir ++ [key])) in
  run! (if d : bool then clear_io (remove_dir_all env fuel (dir ++ [key])) else sret tt) in
  let! f := clear_io (is_file (dir ++ [key +:+ ".manifest.json"])) in
  if f : bool then clear_io (remove_file env (dir ++ [key +:+ ".manifest.json"])) else sret tt.

Definition clear_cache (fuel : nat) (target : option string) (all : bool) (data_dir : option (list string)) : M Fs ClearError unit :=
  let! root := (match data_dir with
                | Some r => sret (r ++ ["cache"])
                | None => let! app := clear_io app_dir in sret (app ++ ["cache"])
                end) in
  if all then
    let! d := clear_io (is_dir env root) in
    if d : bool then clear_io (remove_dir_all env fuel root) else sret tt
  else
    let! url := slift (ok_or target NoTarget) in
    let! '(_, export) := slift (map_err ClearUrl (parse_url url)) in
    let! export := slift (ok_or (require_export export) NoExport) in
    let host := host_key url in
    let key := export_key export in
    let! dir := (match data_dir with
                 | Some r => sret (r ++ ["cache"; host])
                 | None => clear_io (cache_root host)
                 end) in
    clear_export fuel dir key.

(** ** The options of a mount *)

Record MountConfig : Type := mkMountConfig {
  mc_exclude : list string; mc_pin : list string;
  mc_auto_cache_max : option SizeField; mc_auto_cache_budget : option SizeField;
  mc_data_dir : option (list string); mc_no_server_defaults : bool; mc_detect_conflicts : bool;
  mc_token : option string
}.
Definition default_mount_config : MountConfig := mkMountConfig [] [] None None None false false None.

(** The flags of [alloyfs mount]. *)
Record MountFlags : Type := mkMountFlags {
  mf_excludes : list string; mf_pins : list string;
  mf_auto_cache_max : option string; mf_auto_cache_budget : option string;
  mf_data_dir : option (list string); mf_no_server_defaults : bool; mf_detect_conflicts : bool;
  mf_token : option string
}.

Definition size_choice (flag : option string) (file : option SizeField) : result (option Z) SizeError :=
  match flag, file with
  | Some flag, _ => let? n := parse_size flag in Ok (Some n)
  | None, Some f => let? n := to_bytes f in Ok (Some n)
  | None, None => Ok None
  end.

Definition or_else {A} (a b : option A) : option A := match a with Some _ => a | None => b end.

(** The directories of a mount: the root is the flag's, the file's, or ~/.alloyfs. *)
Definition mount_dirs (data_dir : option (list string)) (host : string) : DiskM (list string * list string) :=
  match data_dir with
  | Some root => sret (root ++ ["data"; host], root ++ ["cache"; host])
  | None => let! d := data_root host in let! c := cache_root host in sret (d, c)
  end.

Inductive MountError : Type := MountSize (e : SizeError) | MountIo (e : IoErrorKind) | MountNoExport.

Definition mount_io {A} (m : DiskM A) : M Fs MountError A := λ fs, let '(r, fs) := m fs in (map_err MountIo r, fs).

(** [run] up to the attachment: what it hands to [RemoteFs::attach_with] once
    the connection stands. *)
Definition mount_options (flags : MountFlags) (file : option MountConfig) (url : string) (export : option string)
    (mountpoint : string) : M Fs MountError (string * ClientOptions) :=
  let file_cfg := default default_mount_config file in
  let excludes := if bool_decide (mf_excludes flags = []) then mc_exclude file_cfg else mf_excludes flags in
  let pins := if bool_decide (mf_pins flags = []) then mc_pin file_cfg else mf_pins flags in
  let! max := slift (map_err MountSize (size_choice (mf_auto_cache_max flags) (mc_auto_cache_max file_cfg))) in
  let! budget := slift (map_err MountSize (size_choice (mf_auto_cache_budget flags) (mc_auto_cache_budget file_cfg))) in
  let! export := slift (ok_or (require_export export) MountNoExport) in
  let host := host_key url in
  let key := export_key export in
  run! mount_io (migrate_legacy_mount (legacy_mount_key url export) host key) in
  let! '(data_dir, cache_dir) := mount_io (mount_dirs (or_else (mf_data_dir flags) (mc_data_dir file_cfg)) host) in
  sret (export, mkOptions excludes data_dir cache_dir key max budget (2 * 1024 * 1024) (512 * 1024 * 1024) pins true
    (mf_no_server_defaults flags || mc_no_server_defaults file_cfg)
    (mf_detect_conflicts flags || mc_detect_conflicts file_cfg) (Some mountpoint)).

(** [PathBuf::from], a relative path from the current directory. *)
Definition path_buf (s : string) : list string :=
  (if starts_with "/" s then [] else default [] (ce_cwd ce)) ++ base.filter (λ c, c ≠ "") (split_on slash s).

End Cli.

(** ** Names *)

Lemma kept_plain a : kept_char (byte_of a) = true → a ≠ slash ∧ a ≠ backslash.
Proof. destruct a as [[] [] [] [] [] [] [] []]; vm_compute; split; congruence. Qed.

Lemma sanitize_chars_plain s : contains_char slash (sanitize_chars s) = false ∧ contains_char backslash (sanitize_chars s) = false.
Proof.
  induction s as [|a s [IH1 IH2]]; [done|]. cbn [sanitize_chars]. destruct (kept_char _) eqn:E.
  - destruct (kept_plain a E) as [H1 H2]. cbn [contains_char]. by rw IH1 IH2 !bool_decide_false.
  - destruct (continuation _); [done|]. cbn [contains_char]. by rw IH1 IH2.
Qed.

Lemma sanitize_chars_idem s : sanitize_chars (sanitize_chars s) = sanitize_chars s.
Proof.
  induction s as [|a s IH]; [done|]. cbn [sanitize_chars]. destruct (kept_char _) eqn:E; cbn [sanitize_chars].
  - by rw E IH.
  - destruct (continuation _); [done|]. cbn [sanitize_chars]. change (kept_char (byte_of "-")) with true. cbn iota. by rw IH.
Qed.

Lemma sanitize_good s : good_component (sanitize s).
Proof.
  unfold sanitize. destruct (only_dots _) eqn:E; [by unfold good_component|]. destruct (sanitize_chars_plain s) as [H1 H2].
  unfold good_component. split_and!; try done; intros H; by rw H in E.
Qed.

(** The directory names made of a url and of an export are single path
    components: never empty, "." or "..", without separators, whatever the url
    or the export (and whatever [to_lowercase] does); and making a name of a
    name changes nothing. *)
Theorem keys_are_components lower url export :
  good_component (host_key lower url) ∧ good_component (export_key lower export) ∧
  ∀ s, sanitize (sanitize s) = sanitize s.
Proof.
  split_and!; [apply sanitize_good..|]. intros s. unfold sanitize at 2 3. destruct (only_dots (sanitize_chars s)) eqn:E; [done|].
  unfold sanitize. by rw sanitize_chars_idem E.
Qed.

(** ** Urls *)

Lemma split_once_app c h t : contains_char c h = false → split_once c (h +:+ String c t) = Some (h, t).
Proof.
  induction h as [|a h IH]; intros Hc.
  - change ("" +:+ String c t) with (String c t). cbn [split_once]. by rw decide_True.
  - change (String a h +:+ String c t) with (String a (h +:+ String c t)). cbn [split_once contains_char] in *.
    apply orb_false_iff in Hc as [Ha Hc]. apply bool_decide_eq_false in Ha. rw decide_False // IH //.
Qed.

Lemma split_export_app h t : contains_char slash h = false → t ≠ "" → split_export (h +:+ "/" +:+ t) = (h, Some t).
Proof.
  intros Hh Ht. unfold split_export. change ("/" +:+ t) with (String slash t). rw split_once_app //.
  unfold str_is_empty. by rw bool_decide_false.
Qed.

Lemma digits_without c p : is_ascii_digit (byte_of c) = false → all_digits p = true → contains_char c p = false.
Proof.
  intros Hc. unfold all_digits. induction p as [|a p IH]; [done|]. cbn [as_bytes forallb contains_char].
  intros [Ha Hp]%andb_true_iff. rw IH // orb_false_r. apply bool_decide_eq_false. intros ->. unfold byte_of in Hc. congruence.
Qed.

(** Urls say what they mean.  A tcp url of an address and an export (which
    may have slashes) parses to them; so does an ssh url of a host, a decimal
    port and an export, if the port fits 16 bits, and it is refused if not. *)
Theorem parse_url_roundtrip addr port export :
  addr ≠ "" → contains_char slash addr = false → export ≠ "" →
  port ≠ "" → all_digits port = true →
  parse_url ("tcp://" +:+ addr +:+ "/" +:+ export) = Ok (Tcp addr, Some export) ∧
  parse_url ("ssh://" +:+ addr +:+ ":" +:+ port +:+ "/" +:+ export) =
    (if digits_value (as_bytes port) <=? 65535 then Ok (Ssh addr (Some (digits_value (as_bytes port))), Some export)
     else Err BadPort).
Proof.
  intros Ha Hs He Hp Hd.
  assert (∀ s, strip_prefix "tcp://" ("tcp://" +:+ s) = Some s) as S1 by done.
  assert (∀ s, strip_prefix "tcp://" ("ssh://" +:+ s) = None) as S2 by done.
  assert (∀ s, strip_prefix "ssh://" ("ssh://" +:+ s) = Some s) as S3 by done.
  unfold parse_url. rw S1 S2 S3. split.
  - rw split_export_app //. unfold str_is_empty. by rw bool_decide_false.
  - assert (contains_char slash (addr +:+ ":" +:+ port) = false) as Hsl.
    { rw !contains_char_app Hs. by rw (digits_without slash port eq_refl Hd). }
    rw (app_assoc_str ":") (app_assoc_str addr) split_export_app //.
    assert (addr +:+ ":" +:+ port ≠ "") as Hne by (by destruct addr).
    unfold str_is_empty at 1. rw bool_decide_false //. change (":" +:+ port) with (String colon port).
    rw rsplit_once_app; [|by apply digits_without]. unfold str_is_empty. rw bool_decide_false // Hd. cbn [negb andb].
    unfold parse_u16. rw parse_u64_digits; [|by destruct port|by apply Forall_forall; intros b Hb%list_elem_of_In; revert b Hb; apply forallb_forall].
    destruct (_ <=? 65535) eqn:E.
    + assert (digits_value (as_bytes port) <=? U64_MAX = true) as -> by (apply Z.leb_le in E; apply Z.leb_le; ints). by rw E.
    + destruct (_ <=? U64_MAX); [|done]. by rw E.
Qed.

(** ** Clearing *)

#[local] Opaque walk place.

Section Clear.
Context (lower : string → string) (env : Env) (ce : CliEnv).

Lemma clear_io_snd {A} (m : M Fs IoErrorKind A) fs : (clear_io m fs).2 = (m fs).2.
Proof. unfold clear_io. by destruct (m fs). Qed.

(** The application's directory, when it is there. *)
Lemma app_dir_there fs s : real fs s → path_of s = home_dir ce ++ [".alloyfs"] → app_dir env ce fs = (Ok (path_of s), fs).
Proof.
  intros Hs Hp. unfold app_dir. rw -Hp.
  assert (∃ b, path_exists env (path_of s) fs = (Ok b, fs)) as [b Hb].
  { unfold path_exists, stry, sbind. pose proof (keeps_metadata env (path_of s) fs) as H.
    change ((metadata env (path_of s) fs).2 = fs) in H. destruct (metadata _ _ fs) as [r fs1]; simpl in H; subst. by eexists. }
  rw (sbind_eq _ _ _ _ _ Hb). destruct b; [done|]. cbn [negb]. unfold logged, stry, sbind.
  pose proof (create_dir_all_real env fs s Hs) as H. destruct (create_dir_all _ _ fs) as [r fs1]; simpl in H; by subst.
Qed.

Lemma is_file_keeps p fs : (is_file env p fs).2 = fs.
Proof.
  unfold is_file, stry, sbind. pose proof (keeps_metadata env p fs) as H.
  change ((metadata env p fs).2 = fs) in H. by destruct (metadata env p fs).
Qed.

(** A path that leads nowhere is neither. *)
Lemma nowhere p fs e : find fs true p = Err e → is_dir env p fs = (Ok false, fs) ∧ is_file env p fs = (Ok false, fs).
Proof.
  intros Hf. assert (∃ e', metadata env p fs = (Err e', fs)) as [e' Hm].
  { unfold metadata, guard. destruct (fault env SysMetadata p); [by eexists|]. unfold sbind, sret, sget, slift. rw Hf. by eexists. }
  unfold is_dir, is_file, stry, sbind. by rw Hm.
Qed.

Context (fs : Fs) (rs : Stack) (Hnamed : named fs) (Hrs : real fs rs).
#[local] Abbreviation cached := (λ i, ∃ j, real fs (("cache", j) :: rs) ∧ below_stack fs (("cache", j) :: rs) i).
#[local] Abbreviation good_end := (λ fs', shrunk fs fs' ∧ prunes cached (ino_of rs) "cache" fs fs').

Lemma good_end_refl : good_end fs.
Proof. split; [apply shrunk_refl|apply prunes_refl]. Qed.

(** No link stands in for the cache directory or for a host's. *)
Definition unlinked (p : list string) : Prop :=
  ∀ s t, find fs false p = Ok s → content_at fs (ino_of s) ≠ Some (LinkData t).

Lemma manifest_name key : good_component key → good_component (key +:+ ".manifest.json").
Proof.
  intros (H1 & H2 & H3 & H4 & H5). unfold good_component. rw !contains_char_app H4 H5.
  destruct key as [|a [|b [|c key]]]; split_and!; try done.
Qed.

Lemma clear_export_there fuel host key hi ci : good_component key → real fs ((host, hi) :: ("cache", ci) :: rs) →
  good_end (clear_export env fuel (path_of ((host, hi) :: ("cache", ci) :: rs)) key fs).2.
Proof using Hnamed.
  intros Hk Hh. set (hs := (host, hi) :: ("cache", ci) :: rs) in *.
  assert (real fs (("cache", ci) :: rs)) as Hc by apply (real_tail _ _ Hh).
  assert (path_of (("cache", ci) :: rs) `prefix_of` path_of hs) as Hpre by (unfold hs; rw (path_of_cons host hi); by apply prefix_app_r).
  assert (∀ i, below_stack fs hs i → cached i) as Hin.
  { intros i (s & Hs & Hp & Hi). exists ci. split; [done|]. exists s. split_and!; try done. by etrans. }
  assert (cached (ino_of hs)) as Hhs by (apply Hin; by exists hs).
  unfold clear_export, sbind. pose proof (clear_io_snd (is_dir env (path_of hs ++ [key])) fs) as H1. rw is_dir_keeps in H1.
  destruct (clear_io (is_dir _ _) fs) as [[d|e] fs1]; simpl in H1; subst fs1; [|apply good_end_refl].
  assert (good_end ((if d then clear_io (remove_dir_all env fuel (path_of hs ++ [key])) else sret tt) fs).2) as Hg.
  { destruct d; [|apply good_end_refl]. rw clear_io_snd. destruct (remove_dir_all_prunes env fs Hnamed fuel key hs Hh Hk) as [Ha Hb].
    split; [exact Ha|]. eapply prunes_weaken; [|exact Hhs|exact Hb]. intros i (j & Hj & Hi). apply Hin. by eapply below_child. }
  destruct ((if d then clear_io (remove_dir_all env fuel (path_of hs ++ [key])) else sret tt) fs) as [[u|e] fs1]; [|done]. simpl in Hg. destruct Hg as [Ha Hb].
  pose proof (clear_io_snd (is_file env (path_of hs ++ [key +:+ ".manifest.json"])) fs1) as H1. rw is_file_keeps in H1.
  destruct (clear_io (is_file _ _) fs1) as [[f|e] fs2]; simpl in H1; subst fs2; [|done].
  destruct f; [|done]. rw clear_io_snd. destruct (manifest_name key Hk) as (K1 & K2 & K3 & _).
  destruct (remove_file_pruning env fs hs _ (ino_of hs) key Hh K1 K2 K3 fs1 Ha) as [Hc1 Hd1].
  split; [by eapply shrunk_trans|]. eapply prunes_trans; [exact Hb|]. eapply prunes_weaken; [exact Hin|exact Hhs|exact Hd1].
Qed.

Lemma clear_export_spares fuel host key : good_component host → good_component key →
  unlinked (path_of rs ++ ["cache"]) → unlinked (path_of rs ++ ["cache"; host]) →
  good_end (clear_export env fuel (path_of rs ++ ["cache"; host]) key fs).2.
Proof using Hnamed Hrs.
  intros Hh Hk Hu1 Hu2. pose proof Hh as (H1 & H2 & H3 & _).
  assert ((∀ name, ∃ e, find fs true ((path_of rs ++ ["cache"; host]) ++ [name]) = Err e) →
    good_end (clear_export env fuel (path_of rs ++ ["cache"; host]) key fs).2) as Hnone.
  { intros Hn. destruct (Hn key) as [e1 E1]. destruct (Hn (key +:+ ".manifest.json")) as [e2 E2].
    destruct (nowhere _ _ _ E1) as [D1 _]. destruct (nowhere _ _ _ E2) as [_ D2].
    unfold clear_export, clear_io, sbind, sret. rw D1. cbn [map_err]. rw D2. apply good_end_refl. }
  destruct (real_or_nothing fs rs "cache" Hrs) as [[ci Hc]|Hno]; try done.
  2: { apply Hnone. intros name. rw -app_assoc. apply Hno. }
  destruct (real_or_nothing fs (("cache", ci) :: rs) host Hc) as [[hi Hhi]|Hno]; try done.
  { rw path_of_cons -app_assoc. exact Hu2. }
  2: { apply Hnone. intros name. destruct (Hno true [name]) as [e He]. rw path_of_cons -app_assoc in He. exists e. by rw -app_assoc. }
  assert (path_of rs ++ ["cache"; host] = path_of ((host, hi) :: ("cache", ci) :: rs)) as -> by (by rw !path_of_cons -app_assoc).
  by apply clear_export_there.
Qed.
End Clear.

(** Clearing the cache cannot reach anything else.  Whatever is asked for,
    one export's cache or all of it, and whichever calls fail: entries are
    removed and nothing else happens; the directories that lose entries are at
    or below the cache directory, but for the one that holds it, which can lose
    the name "cache" only.  (Provided no link stands in for the cache directory
    or the host's.) *)
Theorem clear_spares_data lower env ce fuel target all data_dir fs rs :
  let base := default (home_dir ce ++ [".alloyfs"]) data_dir in
  named fs → real fs rs → path_of rs = base → unlinked fs (base ++ ["cache"]) →
  (∀ url, target = Some url → unlinked fs (base ++ ["cache"; host_key lower url])) →
  let fs' := (clear_cache lower env ce fuel target all data_dir fs).2 in
  shrunk fs fs' ∧
  prunes (λ i, ∃ j, real fs (("cache", j) :: rs) ∧ below_stack fs (("cache", j) :: rs) i) (ino_of rs) "cache" fs fs'.
Proof.
  intros base Hn Hrs Hp Hu Hh. cbv zeta.
  assert (∀ tail, (match data_dir with
      | Some r => sret (r ++ tail)
      | None => let! app := clear_io (app_dir env ce) in sret (app ++ tail) end) fs
      = (Ok (path_of rs ++ tail), fs)) as Hroot.
  { intros tail. destruct data_dir as [r|]; simpl in base; rw Hp; [done|].
    rw (sbind_eq _ _ _ (path_of rs) fs); [by rw Hp|]. unfold clear_io. by rw (app_dir_there env ce fs rs Hrs Hp). }
  unfold clear_cache. rw (sbind_eq _ _ _ _ _ (Hroot ["cache"])). destruct all.
  - unfold sbind. pose proof (clear_io_snd (is_dir env (path_of rs ++ ["cache"])) fs) as H1. rw is_dir_keeps in H1.
    destruct (clear_io (is_dir _ _) fs) as [[d|e] fs1]; simpl in H1; subst fs1; [|by apply good_end_refl].
    destruct d; [|by apply good_end_refl]. rw clear_io_snd. by apply remove_dir_all_prunes.
  - destruct target as [url|]; [|by apply good_end_refl]. rw (sbind_eq _ _ _ url fs); [|done].
    destruct (parse_url url) as [[tg ex]|e]; [|by apply good_end_refl]. rw (sbind_eq _ _ _ (tg, ex) fs); [|done].
    destruct ex as [export|]; [|by apply good_end_refl]. rw (sbind_eq _ _ _ export fs); [|done].
    assert (∀ k : list string → M Fs ClearError unit,
      sbind (match data_dir with Some r => sret (r ++ ["cache"; host_key lower url])
             | None => clear_io (cache_root env ce (host_key lower url)) end) k fs = k (path_of rs ++ ["cache"; host_key lower url]) fs) as Hdir.
    { intros k. apply sbind_eq. destruct data_dir as [r|]; simpl in base; rw Hp; [done|].
      unfold clear_io, cache_root. unfold sbind. by rw (app_dir_there env ce fs rs Hrs Hp) Hp. }
    rw Hdir. apply (clear_export_spares env fs rs Hn Hrs fuel (host_key lower url)); try apply sanitize_good; rw Hp; [done|by apply Hh].
Qed.

(** ** Witnesses, and names that collide *)

Module House.

(** A home with data and cache for one host; ~/.alloyfs is inode 2. *)
Definition node (c : Content) : INode := mkINode c 1 1 420.
Definition dir (es : list (string * Z)) : INode := node (DirData (list_to_map es)).
Definition fs : Fs :=
  mkFs (list_to_map [(0, dir [("home", 1)]); (1, dir [(".alloyfs", 2)]); (2, dir [("data", 3); ("cache", 4)]);
                     (3, dir [("azure", 5)]); (4, dir [("azure", 6)]); (5, dir [("precious", 7)]); (7, node (FileData [1]));
                     (6, dir [("p", 8); ("p.manifest.json", 9)]); (8, dir [("blob", 10)]); (9, node (FileData [2]));
                     (10, node (FileData [3]))]) 11.
Definition ce : CliEnv := mkCliEnv (Some ["home"]) None None None.
Definition app : Stack := [(".alloyfs", 2); ("home", 1)].

Lemma app_real : real fs app.
Proof. repeat (econstructor; try (vm_compute; reflexivity); try discriminate). Qed.

(** A check of every directory of a small disk. *)
Definition check_names (fs : Fs) : bool :=
  forallb (λ n : Z * INode,
    match n_content n.2 with
    | DirData es => forallb (λ e : string * Z, negb (bool_decide (e.1 = "" ∨ e.1 = "." ∨ e.1 = ".."))) (map_to_list es)
    | _ => true
    end) (map_to_list (nodes fs)).

Lemma check_names_named fs : check_names fs = true → named fs.
Proof.
  unfold check_names. rewrite forallb_forall. intros H i es c j Hi Hc. unfold content_at in Hi.
  destruct (nodes fs !! i) as [n|] eqn:E; [|done]. simpl in Hi. injection Hi as Hi.
  specialize (H (i, n) ltac:(by apply list_elem_of_In, elem_of_map_to_list)). simpl in H. rw Hi in H.
  rewrite forallb_forall in H. specialize (H (c, j) ltac:(by apply list_elem_of_In, elem_of_map_to_list)). simpl in H.
  apply negb_true_iff, bool_decide_eq_false in H. tauto.
Qed.
End House.

Lemma parse_url_roundtrip_witness :
  parse_url "tcp://127.0.0.1:7440/pro/jects" = Ok (Tcp "127.0.0.1:7440", Some "pro/jects") ∧
  parse_url "ssh://127.0.0.1:7440:22/pro/jects" = Ok (Ssh "127.0.0.1:7440" (Some 22), Some "pro/jects").
Proof.
  destruct (parse_url_roundtrip "127.0.0.1:7440" "22" "pro/jects") as [H1 H2]; try done.
Defined.

Lemma clear_spares_data_witness :
  let fs' := (clear_cache str_lower Demo.env House.ce 3 (Some "ssh://Azure/P") false None House.fs).2 in
  shrunk House.fs fs' ∧
  prunes (λ i, ∃ j, real House.fs (("cache", j) :: House.app) ∧ below_stack House.fs (("cache", j) :: House.app) i)
    2 "cache" House.fs fs' ∧
  find fs' true ["home"; ".alloyfs"; "cache"; "azure"; "p"] = Err IoNotFound ∧
  content_at fs' 6 = Some (DirData ∅).
Proof.
  intros fs'. destruct (clear_spares_data str_lower Demo.env House.ce 3 (Some "ssh://Azure/P") false None House.fs House.app)
    as [H1 H2].
  - apply House.check_names_named. vm_compute. reflexivity.
  - apply House.app_real.
  - reflexivity.
  - intros s t Hf. vm_compute in Hf. injection Hf as <-. vm_compute. discriminate.
  - intros url [= <-] s t Hf. vm_compute in Hf. injection Hf as <-. vm_compute. discriminate.
  - split; [exact H1|]. split; [exact H2|]. split; vm_compute; reflexivity.
Defined.

(** Exports that differ on the server share one directory here: names that
    differ in case, or in a character that is replaced; and the cache of an
    export called "p.manifest.json" is the manifest of the export "p". *)
Theorem export_keys_collide :
  export_key str_lower "Data" = export_key str_lower "data" ∧
  export_key str_lower "a/b" = export_key str_lower "a-b" ∧
  export_key str_lower "." = export_key str_lower "_" ∧
  export_key str_lower "p.manifest.json" = export_key str_lower "p" +:+ ".manifest.json".
Proof. vm_compute. split_and!; reflexivity. Qed.

(** Two directories can share the state of a sync.  The key of the baseline
    is computed from the lower-cased path, so /home/u/Work and /home/u/work,
    different directories on a case-sensitive disk, synced with the same export
    have the same key, although the same export synced into two directories
    must not share state. *)
Theorem sync_keys_collide :
  sync_key str_lower "projects" "/home/u/Work" = sync_key str_lower "projects" "/home/u/work" ∧
  sync_key str_lower "projects" "/home/u/work" ≠ sync_key str_lower "projects" "/home/u/play".
Proof. vm_compute. split; [reflexivity|discriminate]. Qed.
