(* ===== verification/Listen.v ===== *)
(** * Listen: which doors an agent opens, and how a client comes in

    alloyfs-cli: the listeners of [alloyfs serve] (commands/serve.rs) and the
    way a client connects to one of them (urls.rs: [connect_target],
    [dialer_for]), over the agent of this development and the handshake of the
    transport.  Name resolution is an argument.

    An address that is not loopback is never served without a token; a client
    that connects to a listener with a token is served when it has that token
    and otherwise never, whatever version it speaks; a client reconnecting
    presents its token again.  A token that is the empty string counts as one. *)

From stdpp Require Import pretty.
From S2P Require Import Prelude Messages Common Exclude Locks EventHub Fs Agent AgentFacts Transport ServerConn RemoteFs EndToEnd Http Cli.

(** ** Serving *)

Record AgentSection : Type := mkAgentSection {
  as_tcp_listen : option string; as_tcp_token : option string; as_http_listen : option string; as_http_token : option string
}.

Inductive Listener : Type :=
| OnStdio
| OnTcp (listen : string) (min_proto : Z) (token : option string)
| OnHttp (listen : string) (token : option string).
#[global] Instance Listener_eq_dec : EqDecision Listener.
Proof. solve_decision. Defined.

Inductive ServeError : Type := OpenToAll (listen : string).

Definition DEFAULT_LISTEN : string := "127.0.0.1:7440".
(** The silence after which the reaper frees a session, in ms. *)
Definition LEASE : Z := 30000.

Section Serve.
Context (resolve : string → option (list IpAddr)).

(** The HTTP task: its own check fails it alone, with a line in the log. *)
Definition http_listener (cfg : AgentSection) : list Listener :=
  match as_http_listen cfg with
  | Some http => if serve_allowed (as_http_token cfg) (resolve http) then [OnHttp http (as_http_token cfg)] else []
  | None => []
  end.

Definition serve_listeners (addr : option string) (stdio_mode : bool) (cfg : AgentSection) : result (list Listener) ServeError :=
  if stdio_mode then Ok [OnStdio]
  else
    let listen := default DEFAULT_LISTEN (or_else addr (as_tcp_listen cfg)) in
    let token := as_tcp_token cfg in
    if bool_decide (token = None) && negb (is_loopback_listen (resolve listen)) then Err (OpenToAll listen)
    else
      let min_proto := match token with Some _ => 3 | None => PROTO_VERSION_MIN end in
      Ok (http_listener cfg ++ [OnTcp listen min_proto token]).

(** Reachable from other machines: an address that is not loopback, or one that
    does not resolve yet. *)
Definition exposed (listen : string) : bool := negb (is_loopback_listen (resolve listen)).

(** No door without a key.  Whatever the flags and the configuration, a listener
    the agent opens on an address that is not loopback has a token, and over
    TCP asks for a protocol that knows tokens; over stdio nothing else is
    opened; and the address is the flag's, else the configured one, else
    127.0.0.1:7440. *)
Lemma exposed_listeners_have_tokens addr stdio_mode cfg ls : serve_listeners addr stdio_mode cfg = Ok ls →
  (∀ listen min_proto token, OnTcp listen min_proto token ∈ ls →
     (exposed listen = true → is_Some token) ∧ (is_Some token → 3 ≤ min_proto) ∧
     token = as_tcp_token cfg ∧ listen = default DEFAULT_LISTEN (or_else addr (as_tcp_listen cfg))) ∧
  (∀ listen token, OnHttp listen token ∈ ls → exposed listen = true → is_Some token) ∧
  (stdio_mode = true → ls = [OnStdio]).
Proof.
  unfold serve_listeners. destruct stdio_mode; [intros [= <-]; split_and!; [|set_solver|done]; set_solver|].
  destruct (bool_decide _ && negb _) eqn:Hopen; [done|]. intros [= <-]. unfold exposed. split_and!; [| |done].
  - intros listen min_proto token [Hin|Hin%list_elem_of_singleton]%elem_of_app.
    { unfold http_listener in Hin. destruct (as_http_listen cfg); [|set_solver]. destruct (serve_allowed _ _); set_solver. }
    injection Hin as -> -> ->. split_and!; [|by intros [t ->]|done|done].
    intros He. destruct (as_tcp_token cfg); [by eexists|]. by rw He in Hopen.
  - intros listen token [Hin|Hin]%elem_of_app; [|set_solver]. unfold http_listener in Hin. destruct (as_http_listen cfg); [|set_solver].
    destruct (serve_allowed _ _) eqn:Ha; [|set_solver]. apply list_elem_of_singleton in Hin as [= -> ->].
    unfold serve_allowed in Ha. destruct (as_http_token cfg); [by eexists|]. by rw Ha.
Qed.
End Serve.

(** ** Connecting *)

(** What is dialled: a socket, or a command whose stdio is the connection. *)
Inductive Dial : Type := DialTcp (addr client : string) | DialCommand (program : string) (args : list string) (client : string).

Definition ssh_args (host : string) (port : option Z) (remote_cmd : string) : list string :=
  match port with Some p => ["-p"; pretty (Z.to_N p)] | None => [] end ++ [host; remote_cmd; "serve"; "--stdio"].

Definition dial_of (target : Target) (remote_cmd client : string) : Dial :=
  match target with
  | Tcp addr => DialTcp addr client
  | Ssh host port => DialCommand "ssh" (ssh_args host port remote_cmd) client
  end.

Inductive ConnectError : Type :=
| BadUrl (e : UrlError) | NoConnection (e : TransportError) | TooOldForTokens (proto : Z) | AuthFailed (e : ErrorCode).

Section Connect.
Context {N : Type} `{NET : Net N}.
Context (dial : Dial → N → result Conn TransportError * N).

(** Authentication, right after the handshake. *)
Definition present_token (conn : Conn) (token : option string) : M N ConnectError unit :=
  match token with
  | None => sret tt
  | Some t => λ n,
      if conn_proto conn <? 3 then (Err (TooOldForTokens (conn_proto conn)), n)
      else match net_request conn (RqAuth t) n with
           | (Err e, n) => (Err (NoConnection e), n)
           | (Ok (Err e), n) => (Err (AuthFailed e), n)
           | (Ok (Ok _), n) => (Ok tt, n)
           end
  end.

Definition connect_target (url remote_cmd client : string) (token : option string) : M N ConnectError (Conn * option string) :=
  let! '(target, export) := slift (map_err BadUrl (parse_url url)) in
  let! conn := (λ n, let '(r, n) := dial (dial_of target remote_cmd client) n in (map_err NoConnection r, n)) in
  run! present_token conn token in
  sret (conn, export).

(** The reconnect dialer: the same again. *)
Definition dialer_for (url remote_cmd client : string) (token : option string) : M N ConnectError Conn :=
  let! '(conn, _) := connect_target url remote_cmd client token in sret conn.
End Connect.

(** ** A client at the agent's door *)

Section AtTheDoor.
Context {Glob GlobSet : Type} `{G : Globs Glob GlobSet}.
#[local] Abbreviation W := (World (GlobSet := GlobSet)).
#[local] Abbreviation AN := (AgentNet (GlobSet := GlobSet)).
Context (senv : Env) (server : string) (min_proto : Z) (token : option string).

(** A connection of a client that speaks [cmin] to [cmax]: a new session and
    the handshake at both ends. *)
Definition agent_dial (cmin cmax : Z) (d : Dial) (n : AN) : result Conn TransportError * AN :=
  let client := match d with DialTcp _ c | DialCommand _ _ c => c end in
  match with_token senv token (an_world n) with
  | (Err _, w) => (Err TClosed, set_world w n)
  | (Ok sid, w) =>
      let '(reply, served) := server_hello min_proto server (FHello cmin cmax client) in
      match client_ack reply, served with
      | Ok (proto, _), Ok _ => (Ok (mkConn sid proto), set_world (connected sid w).2 n)
      | Err e, _ => (Err e, set_world w n)
      | Ok _, Err e => (Err e, set_world w n)
      end
  end.

#[local] Instance door_net : Net AN := agent_net senv.
#[local] Abbreviation connect cmin cmax := (connect_target (agent_dial cmin cmax)).

(** The session behind a connection. *)
Definition session_behind (conn : Conn) (n : AN) : option Session := w_sessions (an_world n) !! conn_id conn.

Definition no_common_version (cmin cmax : Z) : Prop :=
  ∀ u, cmin ≤ u ≤ cmax → PROTO_VERSION_MIN ≤ u ≤ PROTO_VERSION_MAX → u < min_proto.

Lemma agent_dial_spec cmin cmax d n : match agent_dial cmin cmax d n with
  | (Ok conn, n1) => min_proto ≤ conn_proto conn ∧ session_behind conn n1 = Some (upd_push true (fresh_session senv token))
  | (Err _, _) => no_common_version cmin cmax
  end.
Proof.
  unfold agent_dial. rw with_token_eq. pose proof (handshake_agrees min_proto cmin cmax (match d with DialTcp _ c | DialCommand _ _ c => c end) server) as Hh.
  destruct (server_hello _ _ _) as [reply served]. destruct Hh as [(v & -> & -> & _ & Hv & _ & -> & _)|(e & e' & -> & -> & Hno)]; [|exact Hno].
  split; [done|]. unfold session_behind, connected. cbn. by rw lookup_alter_eq lookup_insert_eq.
Qed.

Lemma authenticate conn n s t ct : session_behind conn n = Some s → s_required_token s = Some t → s_authed s = false →
  3 ≤ conn_proto conn → present_token conn (Some ct) n =
  if decide (ct = t) then (Ok tt, set_world (upd_session (conn_id conn) (upd_authed true) (touched senv (conn_id conn) (an_world n))) n)
  else (Err (AuthFailed PermissionDenied), set_world (touched senv (conn_id conn) (an_world n)) n).
Proof.
  intros Hs Ht Ha Hp. unfold present_token. rw (proj2 (Z.ltb_ge _ _)); [|lia]. cbn [net_request door_net agent_net].
  rw (closed_gate _ _ _ _ _ _ Hs Ht Ha) /at_gate. by destruct (decide _).
Qed.

(** What becomes of a client that comes with [ct] to a listener whose token is
    [t]: it is let in with the right token; it may also come in without one. *)
Definition admitted (t : string) (ct : option string) (cmin cmax : Z) (out : result (Conn * option string) ConnectError * AN) : Prop :=
  match out with
  | (Ok (conn, _), n1) => ∃ s, session_behind conn n1 = Some s ∧ s_required_token s = Some t ∧
      ((ct = Some t ∧ s_authed s = true) ∨ (ct = None ∧ s_authed s = false))
  | (Err (AuthFailed e), _) => e = PermissionDenied ∧ ct ≠ None ∧ ct ≠ Some t
  | (Err (NoConnection _), _) => no_common_version cmin cmax
  | (Err _, _) => False
  end.

Lemma connect_admits t ct cmin cmax url cmd client target export n : token = Some t → 3 ≤ min_proto → parse_url url = Ok (target, export) →
  admitted t ct cmin cmax (connect cmin cmax url cmd client ct n).
Proof.
  intros Ht Hmin Hu. unfold connect_target. rw Hu. unfold sbind at 1, slift. cbn [map_err].
  unfold sbind at 1. pose proof (agent_dial_spec cmin cmax (dial_of target cmd client) n) as Hd.
  destruct (agent_dial _ _ _ _) as [[conn|e] n1]; [|exact Hd]. destruct Hd as [Hp Hs]. cbn [map_err].
  unfold sbind at 1. destruct ct as [ct|].
  - rw (authenticate conn n1 _ t ct Hs); [|by rw Ht|by rw Ht|lia]. destruct (decide (ct = t)) as [->|Hne]; cbn; [|split_and!; naive_solver].
    eexists. unfold session_behind in Hs |- *. cbn. rw !lookup_alter_eq Hs. cbn. split; [done|]. split; [done|]. by left.
  - eexists. split; [exact Hs|]. cbn. rw Ht. split; [done|]. by right.
Qed.

(** Only holders of the token are served.  A client of any versions that connects
    to a listener with a token either shares no version with it, is refused
    for a wrong token, or is in; if it did not present the right token, then
    whatever it asks for but authentication is refused and changes nothing. *)
Lemma token_decides_service t ct cmin cmax url cmd client target export n : token = Some t → 3 ≤ min_proto →
  parse_url url = Ok (target, export) →
  admitted t ct cmin cmax (connect cmin cmax url cmd client ct n) ∧
  ∀ conn ex n1, connect cmin cmax url cmd client ct n = (Ok (conn, ex), n1) →
    ct = Some t ∨ ∀ env req, (∀ t', req ≠ RqAuth t') →
      handle env (conn_id conn) req (an_world n1) = (Err (Fail AuthRequired), touched env (conn_id conn) (an_world n1)).
Proof.
  intros Ht Hmin Hu. pose proof (connect_admits t ct cmin cmax url cmd client target export n Ht Hmin Hu) as Ha.
  split; [exact Ha|]. intros conn ex n1 Hc. unfold connect_target in Ha, Hc. rw Hc in Ha.
  destruct Ha as (s & Hs & Hr & [[-> _]|[_ Hn]]); [by left|]. right. intros env req Hreq.
  rw (closed_gate env _ req _ s t Hs Hr Hn). destruct req; try done. by destruct (Hreq token0).
Qed.
End AtTheDoor.

(** C9.  From the configuration to the request.  Take any flags and configuration with
    which [alloyfs serve] starts, a TCP listener it opens on an address that is
    not loopback, and a client of any versions: the listener has a token, and
    the client either shares no version with it, is refused for a wrong token,
    or is connected -- and then it presented that token, or whatever it asks
    for but authentication is refused and changes nothing. *)
Theorem network_clients_need_token {Glob GlobSet : Type} `{G : Globs Glob GlobSet} resolve addr stdio_mode cfg ls listen min_proto token
    senv server ct cmin cmax url cmd client target export (n : AgentNet (GlobSet := GlobSet)) :
  serve_listeners resolve addr stdio_mode cfg = Ok ls → OnTcp listen min_proto token ∈ ls → exposed resolve listen = true →
  parse_url url = Ok (target, export) →
  let out := connect_target (NET := agent_net senv) (agent_dial senv server min_proto token cmin cmax) url cmd client ct n in
  ∃ t, token = Some t ∧ admitted min_proto t ct cmin cmax out ∧
  ∀ conn ex n1, out = (Ok (conn, ex), n1) →
    ct = Some t ∨ ∀ env req, (∀ t', req ≠ RqAuth t') →
      handle env (conn_id conn) req (an_world n1) = (Err (Fail AuthRequired), touched env (conn_id conn) (an_world n1)).
Proof.
  intros Hls Hin He Hu out. destruct (exposed_listeners_have_tokens resolve addr stdio_mode cfg ls Hls) as [Htcp _].
  destruct (Htcp _ _ _ Hin) as (Ht & Hmin & _). destruct (Ht He) as [t ->]. exists t. split; [done|].
  eapply (token_decides_service senv server min_proto (Some t)); [done|by apply Hmin|exact Hu].
Qed.

(** ** Runs *)

Module Door.
#[local] Existing Instance Sample.sample_globs.
(** Only 127.0.0.1 is loopback here. *)
Definition resolve (s : string) : option (list IpAddr) :=
  if starts_with "127.0.0.1" s then Some [V4 127 0 0 1] else if starts_with "0.0.0.0" s then Some [V4 0 0 0 0] else None.
Definition guarded (token : string) : AgentSection := mkAgentSection (Some "0.0.0.0:7440") (Some token) None None.
Definition net : AgentNet := mkAgentNet (Demo.world false []) (mkConn 1 4) 0.
Definition knock (token : string) (ct : option string) (cmax : Z) :=
  connect_target (NET := agent_net Demo.env) (agent_dial Demo.env "agent" 3 (Some token) 1 cmax) "tcp://h:7440/data" "alloyfs" "peer" ct net.
End Door.

Lemma network_clients_need_token_witness :
  ∃ t, Some "s3cret" = Some t ∧ admitted 3 t (Some "guess") 1 4 (Door.knock "s3cret" (Some "guess") 4).
Proof.
  destruct (network_clients_need_token Door.resolve None false (Door.guarded "s3cret") [OnTcp "0.0.0.0:7440" 3 (Some "s3cret")]
    "0.0.0.0:7440" 3 (Some "s3cret") Demo.env "agent" (Some "guess") 1 4 "tcp://h:7440/data" "alloyfs" "peer" (Tcp "h:7440") (Some "data") Door.net)
    as (t & H1 & H2 & _).
  - reflexivity.
  - apply list_elem_of_singleton. reflexivity.
  - reflexivity.
  - reflexivity.
  - exists t. split; [exact H1|exact H2].
Defined.

Example door_answers :
  (Door.knock "s3cret" (Some "s3cret") 4).1 = Ok (mkConn 2 4, Some "data") ∧
  (Door.knock "s3cret" (Some "guess") 4).1 = Err (AuthFailed PermissionDenied) ∧
  (Door.knock "s3cret" None 4).1 = Ok (mkConn 2 4, Some "data") ∧
  (Door.knock "s3cret" (Some "s3cret") 2).1 = Err (NoConnection (THandshake "unexpected frame")) ∧
  serve_listeners Door.resolve (Some "0.0.0.0:1") false (mkAgentSection None None None None) = Err (OpenToAll "0.0.0.0:1").
Proof. split_and!; vm_compute; reflexivity. Qed.

(** The empty string is a token: with [tcp_token: ""] the agent serves every
    address, and whoever presents an empty token is in. *)
Theorem empty_token_opens_the_door :
  serve_listeners Door.resolve None false (Door.guarded "") = Ok [OnTcp "0.0.0.0:7440" 3 (Some "")] ∧
  (λ s, s_authed s) <$> session_behind (mkConn 2 4) (Door.knock "" (Some "") 4).2 = Some true.
Proof. split; vm_compute; reflexivity. Qed.
