(* ===== verification/Serve.v ===== *)
(** * Serve: starting an agent, and its lease reaper

    [alloyfs serve]: the configuration file by its extension
    (alloyfs-agent/src/config.rs), the exports given on the command line
    (alloyfs-cli/src/config.rs), the watchers, the reaper and the listeners
    (alloyfs-cli/src/commands/serve.rs), and the reaper's rounds
    ([spawn_lease_reaper] of alloyfs-agent/src/ops.rs).  The readers of YAML and
    TOML (serde) and the operating system's watcher are parameters.

    What is served is what the file and the command line say, and nothing else;
    an export that cannot be watched is served all the same.  A round of the
    reaper frees exactly the sessions that were silent for longer than the
    lease, and nobody is left with a lock for more than the lease and five
    seconds after the last word of its holder. *)

From S2P Require Import Prelude Text Messages Common Exclude Locks EventHub Fs Agent AgentFacts Overlay Disk RemoteFs Http Cli Listen.

(** ** The configuration *)

Record AgentConfig : Type := mkAgentConfig { ag_agent : AgentSection; ag_exports : gmap string ExportConfig }.

(** [#[derive(Default)]]. *)
Definition default_agent_config : AgentConfig := mkAgentConfig (mkAgentSection None None None None) ∅.
(** [ExportConfig::default]. *)
Definition default_export : ExportConfig := mkExportConfig [] false [] true None.

(** [Path::extension]: what follows the last dot of the name, unless the dot
    begins it. *)
Definition extension (p : list string) : option string :=
  match last p with
  | None => None
  | Some name =>
      if bool_decide (name = "..") then None
      else match rsplit_once "."%char name with
      | Some (stem, ext) => if str_is_empty stem then None else Some ext
      | None => None
      end
  end.

Inductive LoadError : Type := LoadIo (e : IoErrorKind) | NotText | LoadParse | BadInlineExport (spec : string).

Section Config.
Context (env : Env) (ce : CliEnv).
Context (from_yaml from_toml : string → option AgentConfig).        (* [serde_yaml::from_str], [toml::from_str] *)

Definition load_io {A} (m : M Fs IoErrorKind A) : M Fs LoadError A := λ fs, let '(r, fs) := m fs in (map_err LoadIo r, fs).

(** How a file is read, by its extension. *)
Definition parse_config (p : list string) (text : string) : option AgentConfig :=
  let ext := str_lower (default "" (e ← extension p; to_str e)) in
  if bool_decide (ext = "yml") || bool_decide (ext = "yaml") || bool_decide (ext = "json") then from_yaml text
  else if bool_decide (ext = "toml") then from_toml text
  else or_else (from_yaml text) (from_toml text).

Definition from_path (p : list string) : M Fs LoadError AgentConfig :=
  let! bytes := load_io (fs_read env p) in
  let! text := slift (ok_or (to_str (text_of bytes)) NotText) in
  slift (ok_or (parse_config p text) LoadParse).

Definition equals : ascii := "="%char.

(** The exports of the command line, over those of the file. *)
Fixpoint inline (exports : gmap string ExportConfig) (specs : list string) : result (gmap string ExportConfig) LoadError :=
  match specs with
  | [] => Ok exports
  | spec :: specs =>
      let? '(name, path) := ok_or (split_once equals spec) (BadInlineExport spec) in
      inline (<[name := mkExportConfig (path_buf ce path) false [] (ec_default_excludes default_export) (ec_client default_export)]> exports) specs
  end.

Definition load_agent_config (template : list Z) (config : option (list string)) (inline_exports : list string) : M Fs LoadError AgentConfig :=
  let! cfg := (match config with
               | Some path => from_path path
               | None =>
                   if bool_decide (inline_exports = []) then
                     let! p := load_io (default_config_path env ce template) in
                     match p with Some path => from_path path | None => sret default_agent_config end
                   else sret default_agent_config
               end) in
  let! exports := slift (inline (ag_exports cfg) inline_exports) in
  sret (mkAgentConfig (ag_agent cfg) exports).
End Config.

(** ** The start *)

Inductive StartError : Type := StartConfig (e : LoadError) | StartBoot (e : BootError) | StartListen (e : ServeError).

Section Start.
Context {Glob GlobSet : Type} `{G : Globs Glob GlobSet}.
Context (env : Env) (ce : CliEnv) (from_yaml from_toml : string → option AgentConfig).
Context (resolve : string → option (list IpAddr)).
Context (watch : list string → bool).                   (* installing the OS watcher on a root *)
#[local] Abbreviation W := (World (GlobSet := GlobSet)).

(** [registry.all()], and for each export [watch::spawn]: one that fails is
    logged, and its export has no events. *)
Definition watched_exports (w : W) : list string :=
  (sorted_entries (base.filter (λ nx : string * Export, watch (x_root nx.2) = true) (w_exports w))).*1.

Record Serving : Type := mkServing { sv_world : W; sv_watched : list string; sv_lease : Z; sv_listeners : list Listener }.

(** [serve::run], up to the loops of its listeners. *)
Definition serve_run (template : list Z) (addr : option string) (stdio_mode : bool) (config : option (list string)) (exports : list string) :
    M Fs StartError Serving :=
  let! cfg := (λ fs, let '(r, fs) := load_agent_config env ce from_yaml from_toml template config exports fs in (map_err StartConfig r, fs)) in
  let! fs := sget in
  let! w := slift (map_err StartBoot (from_config env fs (ag_exports cfg))) in
  let! ls := slift (map_err StartListen (serve_listeners resolve addr stdio_mode (ag_agent cfg))) in
  sret (mkServing w (watched_exports w) LEASE ls).

End Start.

(** ** The reaper *)

Section Reaper.
Context {Glob GlobSet : Type} `{G : Globs Glob GlobSet}.
#[local] Abbreviation W := (World (GlobSet := GlobSet)).

(** The time between two rounds, in ms. *)
Definition REAPER_TICK : Z := 5000.

(** One round over the registered sessions. *)
Fixpoint reap_list (now_env : Env) (lease : Z) (ids : list Z) (w : W) : W :=
  match ids with [] => w | id :: ids => reap_list now_env lease ids (reap now_env lease id w).2 end.
Definition reap_round (now_env : Env) (lease : Z) (w : W) : W := reap_list now_env lease (map_to_list (w_sessions w)).*1 w.

(** Silent for longer than the lease. *)
Definition stale (now_env : Env) (lease : Z) (s : Session) : bool :=
  s_registered s && (lease <? Z.max 0 (now now_env - s_last_seen s)).

Definition cleared (s : Session) : Session := upd_handles ∅ (s_next_fh s) s.

(** Of the sessions [ids], is [sid] stale and attached to [name]? *)
Definition gone (now_env : Env) (lease : Z) (ids : list Z) (w : W) (name : string) (sid : Z) : bool :=
  bool_decide (sid ∈ ids) &&
  match w_sessions w !! sid with Some s => stale now_env lease s && bool_decide (s_attached s = Some name) | None => false end.

(** The registry is keyed by the exports' names. *)
Definition well_named (w : W) : Prop := ∀ name x, w_exports w !! name = Some x → x_name x = name.

Lemma retain_retain {A} (f g : A → bool) l : retain f (retain g l) = retain (λ a, g a && f a) l.
Proof.
  unfold retain. induction l as [|a l IH]; [done|]. destruct (g a) eqn:Eg.
  - rewrite (filter_cons_True (λ x, g x = true)) //. destruct (f a) eqn:Ef.
    + rewrite !filter_cons_True ?IH //. by rewrite Eg.
    + rewrite !filter_cons_False ?IH //; [by rewrite Eg Ef|by rewrite Ef].
  - rewrite (filter_cons_False (λ x, g x = true)) ?Eg // filter_cons_False ?IH //. by rewrite Eg.
Qed.

Lemma retain_ext {A} (f g : A → bool) l : (∀ a, a ∈ l → f a = g a) → retain f l = retain g l.
Proof.
  unfold retain. induction l as [|a l IH]; intros H; [done|]. specialize (IH ltac:(set_solver)). pose proof (H a ltac:(set_solver)) as Ha.
  destruct (g a) eqn:Eg; [rewrite !filter_cons_True ?IH //|rewrite !filter_cons_False ?IH //]; by rewrite ?Ha ?Eg.
Qed.

Section Rounds.
Context (tenv : Env) (lease : Z).

Lemma reap_fresh id s (w : W) : w_sessions w !! id = Some s → stale tenv lease s = false → reap tenv lease id w = (Ok tt, w).
Proof. intros Hs Hst. unfold reap, sbind, the_session. rewrite Hs. unfold stale in Hst. by rewrite Hst. Qed.

Lemma reap_detached id s (w : W) : w_sessions w !! id = Some s → stale tenv lease s = true → s_attached s ≫= (λ n, w_exports w !! n) = None →
  reap tenv lease id w = (Ok tt, upd_session id (λ s, upd_handles ∅ (s_next_fh s) s) w).
Proof.
  intros Hs Hst Hx. unfold reap, sbind, the_session. rewrite Hs. unfold stale in Hst. rewrite Hst.
  unfold force_release, sbind, attached_export, the_session. rewrite Hs. cbn [mbind option_bind] in *. rewrite Hx. cbn. by rewrite Hs.
Qed.

Lemma reap_attached id s x (w : W) : w_sessions w !! id = Some s → stale tenv lease s = true → s_attached s ≫= (λ n, w_exports w !! n) = Some x →
  ∃ chs, reap tenv lease id w = (Ok tt,
    let w1 := upd_export (x_name x) (upd_locks (Locks.release_session (x_locks x) id).1.2) w in
    upd_session id (λ s, upd_handles ∅ (s_next_fh s) s)
      (mkWorld (w_fs w1) (w_exports w1) (w_sessions w1) (w_next_session w1) (w_next_channel w1) (w_resolved w1 ++ chs))).
Proof.
  intros Hs Hst Hx. unfold reap, sbind, the_session. rewrite Hs. unfold stale in Hst. rewrite Hst.
  unfold force_release, sbind, attached_export, the_session. rewrite Hs. cbn [mbind option_bind] in *. rewrite Hx.
  destruct (Locks.release_session (x_locks x) id) as [[n lm] chs]. exists chs. cbn. by rewrite Hs.
Qed.

(** What a turn leaves of the locks of an export. *)
Definition locks_kept (f : Z → bool) (o o' : option (Export (GlobSet := GlobSet))) : Prop :=
  match o, o' with
  | Some x, Some x' => ∀ p, holders (default entry_default (x_locks x' !! p)) =
                            retain (λ h, negb (f (h_session h))) (holders (default entry_default (x_locks x !! p)))
  | None, None => True
  | _, _ => False
  end.

Lemma locks_kept_none f o : (∀ h, f h = false) → locks_kept f o o.
Proof.
  intros Hf. destruct o as [x|]; [|done]. intros p. rewrite (retain_ext _ (λ _, true)); [|intros a _; by rewrite Hf].
  unfold retain. generalize (holders (default entry_default (x_locks x !! p))) as l. induction l as [|a l IH]; [done|].
  rewrite filter_cons_True // -IH //.
Qed.

Lemma locks_kept_trans f g o1 o2 o3 : locks_kept f o1 o2 → locks_kept g o2 o3 → locks_kept (λ h, f h || g h) o1 o3.
Proof.
  destruct o1, o2, o3; cbn; try done. intros H1 H2 p. rewrite H2 H1 retain_retain. apply retain_ext. intros a _. by destruct (f _), (g _).
Qed.

Lemma locks_kept_ext f g o o' : (∀ h, f h = g h) → locks_kept f o o' → locks_kept g o o'.
Proof. intros Hfg. destruct o, o'; cbn; try done. intros H p. rewrite H. apply retain_ext. intros a _. by rewrite Hfg. Qed.

(** One session's turn. *)
Lemma reap_spec id s (w : W) : well_named w → w_sessions w !! id = Some s →
  let w' := (reap tenv lease id w).2 in
  w_fs w' = w_fs w ∧ well_named w' ∧
  w_sessions w' = <[id := if stale tenv lease s then cleared s else s]> (w_sessions w) ∧
  ∀ name, locks_kept (gone tenv lease [id] w name) (w_exports w !! name) (w_exports w' !! name).
Proof.
  intros Hn Hs w'.
  assert (∀ name, stale tenv lease s && bool_decide (s_attached s = Some name) = false → ∀ h, gone tenv lease [id] w name h = false) as Hg.
  { intros name Hf h. unfold gone. destruct (decide (h ∈ [id])) as [Hin|Hin]; [|by rewrite (bool_decide_false (h ∈ [id]))].
    apply list_elem_of_singleton in Hin as ->. by rewrite Hs Hf andb_false_r. }
  assert (alter (λ s, upd_handles ∅ (s_next_fh s) s) id (w_sessions w) = <[id := cleared s]> (w_sessions w)) as Halt.
  { apply map_eq. intros j. destruct (decide (j = id)) as [->|]; [by rewrite lookup_alter_eq Hs lookup_insert_eq|by rewrite lookup_alter_ne // lookup_insert_ne]. }
  destruct (stale tenv lease s) eqn:Est.
  2:{ unfold w'. rewrite (reap_fresh id s w Hs Est). cbn. rewrite insert_id //. split_and!; try done. intros name. by apply locks_kept_none, Hg. }
  destruct (s_attached s ≫= (λ n, w_exports w !! n)) as [x|] eqn:Ex.
  - destruct (reap_attached id s x w Hs Est Ex) as [chs Er]. unfold w'. rewrite Er. cbn. rewrite Halt. split_and!; [done| |done|].
    + intros name y. rewrite lookup_alter_Some. intros [(<- & y0 & Hy & ->)|(_ & Hy)]; [cbn; by apply (Hn _ y0)|by apply Hn].
    + destruct (s_attached s) as [n|] eqn:Ea; [|done]. cbn in Ex. pose proof (Hn _ _ Ex) as Enm. subst n. intros name.
      destruct (decide (name = x_name x)) as [->|Hne]; [|rewrite lookup_alter_ne //; apply locks_kept_none, Hg; rewrite ?Ea bool_decide_false //; congruence].
      rewrite lookup_alter_eq Ex. cbn [fmap option_fmap option_map]. intros p. cbn [x_locks upd_locks]. pose proof (release_session_spec (x_locks x) id) as Hrel.
      unfold Locks.release_session in Hrel. destruct Hrel as (_ & _ & Hrel). rewrite Hrel.
      apply retain_ext. intros a _. f_equal. unfold gone. destruct (decide (h_session a = id)) as [->|Hne].
      * rewrite !bool_decide_true // ?Hs ?Est ?Ea //; [|set_solver]. by rewrite bool_decide_true.
      * rewrite !bool_decide_false //. set_solver.
  - unfold w'. rewrite (reap_detached id s w Hs Est Ex). cbn. rewrite Halt. split_and!; try done. intros name.
    destruct (decide (s_attached s = Some name)) as [Ea|Hne]; [|apply locks_kept_none, Hg; by rewrite bool_decide_false].
    rewrite Ea in Ex. cbn in Ex. by rewrite Ex.
Qed.

Lemma stale_cleared s : stale tenv lease (cleared s) = stale tenv lease s.
Proof. done. Qed.

(** The turns of [ids], one after the other. *)
Lemma reap_list_spec ids (w : W) : well_named w → (∀ id, id ∈ ids → is_Some (w_sessions w !! id)) →
  let w' := reap_list tenv lease ids w in
  w_fs w' = w_fs w ∧ well_named w' ∧
  (∀ id, w_sessions w' !! id = (λ s, if bool_decide (id ∈ ids) && stale tenv lease s then cleared s else s) <$> w_sessions w !! id) ∧
  ∀ name, locks_kept (gone tenv lease ids w name) (w_exports w !! name) (w_exports w' !! name).
Proof.
  revert w. induction ids as [|id ids IH]; intros w Hn Hall; cbn [reap_list].
  { split_and!; try done; [intros id; by destruct (w_sessions w !! id)|]. intros name. by apply locks_kept_none. }
  destruct (Hall id ltac:(set_solver)) as [s Hs]. destruct (reap_spec id s w Hn Hs) as (F1 & N1 & S1 & L1).
  set (w1 := (reap tenv lease id w).2) in *.
  destruct (IH w1 N1) as (F2 & N2 & S2 & L2).
  { intros j Hj. rewrite S1. destruct (decide (j = id)) as [->|]; [rewrite lookup_insert_eq; by eexists|].
    rewrite lookup_insert_ne //. apply Hall. set_solver. }
  split_and!; [congruence|done| |].
  - intros j. rewrite S2 S1. destruct (decide (j = id)) as [->|Hne].
    + rewrite lookup_insert_eq Hs. cbn. rewrite (bool_decide_true (id ∈ id :: ids)); [|set_solver]. cbn [andb]. f_equal.
      destruct (stale tenv lease s) eqn:Est; rewrite ?stale_cleared Est; destruct (bool_decide (id ∈ ids)); done.
    + rewrite lookup_insert_ne //. do 2 f_equal. rewrite (bool_decide_ext (j ∈ ids) (j ∈ id :: ids)) //. set_solver.
  - intros name. eapply locks_kept_ext; [|by eapply locks_kept_trans; [apply L1|apply L2]]. intros h. unfold gone. rewrite S1.
    destruct (decide (h = id)) as [->|Hne].
    + rewrite lookup_insert_eq Hs (bool_decide_true (id ∈ [id])) ?(bool_decide_true (id ∈ id :: ids)); [|set_solver..]. cbn [andb].
      destruct (stale tenv lease s) eqn:Est; rewrite ?stale_cleared Est; cbn; [|by rewrite andb_false_r].
      change (s_attached (cleared s)) with (s_attached s). by destruct (bool_decide (s_attached s = Some name)), (bool_decide (id ∈ ids)).
    + rewrite lookup_insert_ne // (bool_decide_false (h ∈ [id])); [|set_solver]. cbn [andb orb]. by rewrite (bool_decide_ext (h ∈ ids) (h ∈ id :: ids)); [|set_solver].
Qed.

Lemma reap_round_spec (w : W) : well_named w →
  let w' := reap_round tenv lease w in
  w_fs w' = w_fs w ∧ well_named w' ∧
  (∀ id, w_sessions w' !! id = (λ s, if stale tenv lease s then cleared s else s) <$> w_sessions w !! id) ∧
  ∀ name, locks_kept (λ sid, match w_sessions w !! sid with
                             | Some s => stale tenv lease s && bool_decide (s_attached s = Some name)
                             | None => false
                             end) (w_exports w !! name) (w_exports w' !! name).
Proof.
  intros Hn. unfold reap_round.
  assert (∀ id, id ∈ (map_to_list (w_sessions w)).*1 ↔ is_Some (w_sessions w !! id)) as Hid.
  { intros id. rewrite list_elem_of_fmap. split.
    - intros ([j s] & -> & Hin%elem_of_map_to_list). by eexists.
    - intros [s Hs]. exists (id, s). split; [done|]. by apply elem_of_map_to_list. }
  destruct (reap_list_spec (map_to_list (w_sessions w)).*1 w Hn) as (F & N & Ss & L); [by intros id Hin%Hid|].
  split_and!; [done|done| |].
  - intros id. rewrite Ss. destruct (w_sessions w !! id) as [s|] eqn:Hs; [|done]. cbn. rewrite bool_decide_true //. apply Hid. by eexists.
  - intros name. eapply locks_kept_ext; [|apply L]. intros h. unfold gone. destruct (w_sessions w !! h) as [s|] eqn:Hs; [|by rewrite andb_false_r].
    rewrite bool_decide_true //. apply Hid. by eexists.
Qed.
End Rounds.

(** C27.  The reaper frees the silent and nobody else.  A round leaves the files
    alone; a session that was silent for longer than the lease loses all its
    handles and keeps the rest, any other session is untouched; and of the
    locks of an export exactly those of the silent sessions attached to it are
    gone, the others stay in their order. *)
Theorem reaper_frees_the_silent tenv lease (w : W) : well_named w →
  let w' := reap_round tenv lease w in
  w_fs w' = w_fs w ∧
  (∀ id s, w_sessions w !! id = Some s →
     w_sessions w' !! id = Some (if s_registered s && (lease <? Z.max 0 (now tenv - s_last_seen s)) then cleared s else s)) ∧
  ∀ name x, w_exports w !! name = Some x → ∃ x', w_exports w' !! name = Some x' ∧
    ∀ p h, h ∈ holders (default entry_default (x_locks x' !! p)) ↔
      h ∈ holders (default entry_default (x_locks x !! p)) ∧
      ∀ s, w_sessions w !! h_session h = Some s → s_attached s = Some name → stale tenv lease s = false.
Proof.
  intros Hn w'. destruct (reap_round_spec tenv lease w Hn) as (F & _ & Ss & L). fold w' in F, Ss, L. split_and!; [done| |].
  - intros id s Hs. by rewrite Ss Hs.
  - intros name x Hx. specialize (L name). rewrite Hx in L. destruct (w_exports w' !! name) as [x'|]; [|done]. exists x'. split; [done|].
    intros p h. rewrite L elem_of_retain negb_true_iff. split.
    + intros [Hk Hin]. split; [done|]. intros s Hs Ha. rewrite Hs bool_decide_true // andb_true_r in Hk. done.
    + intros [Hin Hk]. split; [|done]. destruct (w_sessions w !! h_session h) as [s|] eqn:Hs; [|done].
      destruct (decide (s_attached s = Some name)) as [Ha|Ha]; [by rewrite (Hk s)|by rewrite bool_decide_false // andb_false_r].
Qed.

(** A dead client blocks nobody for long.  The reaper's rounds are five
    seconds apart; whenever a session spoke last, there is a round no later
    than the lease and five seconds after that, and in whatever state it finds
    the agent, if the session has not spoken since, it holds no handle and no
    lock afterwards. *)
Theorem dead_client_freed_in_time boot lease t id s x (w : W) :
  0 ≤ lease → boot ≤ t → well_named w → w_sessions w !! id = Some s → s_registered s = true → s_last_seen s = t →
  s_attached s = Some (x_name x) → w_exports w !! x_name x = Some x →
  ∃ k, 0 ≤ k ∧ t + lease < boot + REAPER_TICK * k ≤ t + lease + REAPER_TICK ∧
    ∀ tenv, now tenv = boot + REAPER_TICK * k →
      ∃ s' x', w_sessions (reap_round tenv lease w) !! id = Some s' ∧ s_handles s' = ∅ ∧
        w_exports (reap_round tenv lease w) !! x_name x = Some x' ∧
        ∀ p, Forall (λ h, h_session h ≠ id) (holders (default entry_default (x_locks x' !! p))).
Proof.
  intros Hl Hb Hn Hs Hreg Ht Ha Hx. exists ((t + lease - boot) / REAPER_TICK + 1).
  pose proof (Z.div_mod (t + lease - boot) REAPER_TICK) as Hdiv. pose proof (Z.mod_pos_bound (t + lease - boot) REAPER_TICK) as Hmod.
  unfold REAPER_TICK in *. split_and!; [|lia..|]; [apply Z.add_nonneg_nonneg; [apply Z.div_pos|]; lia|].
  intros tenv Hnow. assert (stale tenv lease s = true) as Hst. { unfold stale. rewrite Hreg Hnow Ht. apply Z.ltb_lt. lia. }
  destruct (reap_round_spec tenv lease w Hn) as (_ & _ & Ss & L). specialize (L (x_name x)). rewrite Hx in L.
  destruct (w_exports (reap_round tenv lease w) !! x_name x) as [x'|]; [|done].
  exists (cleared s), x'. rewrite Ss Hs. cbn. rewrite Hst. split_and!; try done. intros p. rewrite L. apply Forall_forall.
  intros h [Hk _]%elem_of_retain E. rewrite E Hs Hst Ha bool_decide_true // in Hk.
Qed.
End Reaper.

(** ** What is served *)

Section Served.
Context {Glob GlobSet : Type} `{G : Globs Glob GlobSet}.
Context (env : Env) (ce : CliEnv) (from_yaml from_toml : string → option AgentConfig).
Context (resolve : string → option (list IpAddr)) (watch : list string → bool).

Lemma build_export_spec fs name ec (x : Export) : build_export env fs name ec = Ok x →
  x_name x = name ∧ x_read_only x = ec_read_only ec ∧ fst (canonicalize env (ec_path ec) fs) = Ok (x_root x) ∧ x_locks x = ∅.
Proof.
  unfold build_export. destruct (fst (canonicalize env (ec_path ec) fs)) as [root|e]; cbn; [|done].
  destruct (negb _); [done|]. destruct (if ec_default_excludes ec then _ else _) as [ex|e]; cbn; [|done].
  destruct (config_defaults name (ec_client ec)) as [d|e]; cbn; [|done]. by intros [= <-].
Qed.

Lemma build_exports_spec fs cfg (xs : gmap string Export) : NoDup cfg.*1 → build_exports env fs cfg = Ok xs →
  (∀ name x, xs !! name = Some x → ∃ ec, (name, ec) ∈ cfg ∧ build_export env fs name ec = Ok x) ∧
  (∀ name ec, (name, ec) ∈ cfg → is_Some (xs !! name)).
Proof.
  revert xs. induction cfg as [|[name ec] cfg IH]; intros xs Hnd; cbn [build_exports].
  { intros [= <-]. split; [done|set_solver]. }
  cbn in Hnd. apply NoDup_cons in Hnd as [Hno Hnd]. destruct (build_export env fs name ec) as [x|e] eqn:Ex; cbn [result_bind]; [|done].
  destruct (build_exports env fs cfg) as [ys|e] eqn:Eys; cbn [result_bind]; [|done]. intros [= <-]. destruct (IH ys Hnd eq_refl) as [H1 H2]. split.
  - intros n y [[<- <-]|[Hne Hy]]%lookup_insert_Some; [exists ec; split; [set_solver|done]|].
    destruct (H1 n y Hy) as (ec' & Hin & Hb). exists ec'. split; [set_solver|done].
  - intros n ec' [[= -> ->]|Hin]%elem_of_cons; [rewrite lookup_insert_eq; by eexists|].
    destruct (decide (n = name)) as [->|]; [rewrite lookup_insert_eq; by eexists|]. rewrite lookup_insert_ne //. by eapply H2.
Qed.

(** The path the last [name=path] of the command line gives. *)
Definition inline_path (name : string) (specs : list string) : option string :=
  last (omap (λ spec, match split_once equals spec with Some (n, p) => if decide (n = name) then Some p else None | None => None end) specs).

Lemma inline_spec exports specs xs : inline ce exports specs = Ok xs → ∀ name,
  xs !! name = match inline_path name specs with
               | Some p => Some (mkExportConfig (path_buf ce p) false [] true None)
               | None => exports !! name
               end.
Proof.
  revert exports. induction specs as [|spec specs IH]; intros exports; cbn [inline]; [by intros [= <-]|].
  destruct (split_once equals spec) as [[n p]|] eqn:Esp; cbn [ok_or result_bind]; [|done]. intros Hin name. rewrite (IH _ Hin name).
  unfold inline_path. cbn [omap list_omap]. rewrite Esp. destruct (decide (n = name)) as [->|Hne].
  - rewrite last_cons. destruct (last _); [done|]. by rewrite lookup_insert_eq.
  - destruct (last _); [done|]. by rewrite lookup_insert_ne.
Qed.

(** An agent serves what it was told to, and nothing else.  If it starts, its
    exports are those of the configuration with those of the command line over
    them: one per name, the last [--export] of a name winning, writable and
    with the built-in excludes; each has the root its path leads to and is
    read-only as configured; no lock and no session exists; the listeners are
    those of the configuration; and whether an export can be watched changes
    nothing but its events. *)
Theorem agent_serves_what_it_says template addr stdio_mode config exports fs sv fs' :
  serve_run env ce from_yaml from_toml resolve watch template addr stdio_mode config exports fs = (Ok sv, fs') →
  ∃ file cfg, load_agent_config env ce from_yaml from_toml template config exports fs = (Ok cfg, fs') ∧
    (∀ name, ag_exports cfg !! name = match inline_path name exports with
                                      | Some p => Some (mkExportConfig (path_buf ce p) false [] true None)
                                      | None => ag_exports file !! name
                                      end) ∧ ag_agent cfg = ag_agent file ∧
    (∀ name, is_Some (w_exports (sv_world sv) !! name) ↔ is_Some (ag_exports cfg !! name)) ∧
    (∀ name x, w_exports (sv_world sv) !! name = Some x → ∃ ec, ag_exports cfg !! name = Some ec ∧
       x_name x = name ∧ x_read_only x = ec_read_only ec ∧ fst (canonicalize env (ec_path ec) fs') = Ok (x_root x) ∧ x_locks x = ∅) ∧
    w_sessions (sv_world sv) = ∅ ∧
    serve_listeners resolve addr stdio_mode (ag_agent cfg) = Ok (sv_listeners sv) ∧
    ∀ name, name ∈ sv_watched sv ↔ ∃ x, w_exports (sv_world sv) !! name = Some x ∧ watch (x_root x) = true.
Proof.
  unfold serve_run. intros H. apply sbind_Ok in H as (cfg & fs1 & Hcfg & H). cbv beta in Hcfg. destruct (load_agent_config _ _ _ _ _ _ _ fs) as [[c|e] fs2] eqn:El; [|done].
  injection Hcfg as -> ->. apply sbind_Ok in H as (fs3 & fs4 & [= <- <-] & H). apply sbind_Ok in H as (w & fs5 & Hw & H).
  unfold slift in Hw. injection Hw as Hw <-. apply sbind_Ok in H as (ls & fs6 & Hls & H). unfold slift in Hls. injection Hls as Hls <-. injection H as <- <-.
  destruct (from_config env fs1 (ag_exports cfg)) as [w'|e] eqn:Ew; [|done]. injection Hw as ->.
  destruct (serve_listeners resolve addr stdio_mode (ag_agent cfg)) as [ls'|e] eqn:Els; [|done]. injection Hls as ->.
  unfold load_agent_config in El. apply sbind_Ok in El as (file & fs7 & _ & El). apply sbind_Ok in El as (xs & fs8 & Hin & El).
  unfold slift in Hin. injection Hin as Hin <-. injection El as <- <-. exists file, (mkAgentConfig (ag_agent file) xs).
  unfold from_config in Ew. cbn [ag_exports] in Ew. destruct (build_exports env fs7 (sorted_entries xs)) as [ys|e] eqn:Ey; cbn [result_bind] in Ew; [|done].
  case_bool_decide; [done|]. injection Ew as <-. destruct (build_exports_spec _ _ _ (sorted_entries_nodup xs) Ey) as [B1 B2]. cbn.
  split_and!; try done.
  - by apply inline_spec.
  - intros name. split; [intros [x Hx]; destruct (B1 _ _ Hx) as (ec & Hec%elem_of_sorted_entries & _); by eexists|].
    intros [ec Hec]. apply (B2 name ec). by apply elem_of_sorted_entries.
  - intros name x Hx. destruct (B1 _ _ Hx) as (ec & Hec%elem_of_sorted_entries & Hb). exists ec. split; [done|]. by apply build_export_spec.
  - intros name. unfold watched_exports. rewrite list_elem_of_fmap. split.
    + intros ([n x] & -> & Hn%elem_of_sorted_entries). apply map_lookup_filter_Some in Hn as [Hn Hwx]. by exists x.
    + intros (x & Hx & Hwx). exists (name, x). split; [done|]. apply elem_of_sorted_entries. by apply map_lookup_filter_Some.
Qed.
End Served.

(** ** Witnesses *)

Module Started.
#[local] Existing Instance Sample.sample_globs.
Definition ce : CliEnv := mkCliEnv None None (Some ["srv"]) None.

(** A reader that takes every text for a configuration of one export. *)
Definition yaml (t : string) : option AgentConfig :=
  Some (mkAgentConfig (mkAgentSection None None None None) {["docs" := mkExportConfig ["srv"; "data"] true [] false None]}).
Definition disk : Fs := Demo.fs.
Definition loopback (s : string) : option (list IpAddr) := Some [].
Definition start : result (Serving (GlobSet := list (string * bool))) StartError * Fs :=
  serve_run Demo.env ce yaml (λ _, None) loopback (λ _, true) [] None true (Some ["etc"; "passwd"]) ["data=data"] disk.
Definition serving : Serving (GlobSet := list (string * bool)) :=
  match start.1 with Ok sv => sv | Err _ => mkServing (mkWorld disk ∅ ∅ 0 0 []) [] 0 [] end.

(** Session 1 holds a lock and a handle, and was last seen at 1000. *)
Definition locked : World (GlobSet := list (string * bool)) := (Demo.serve [RqLock 1 Exclusive false] Demo.opened).2.
Definition at_time (t : Z) : Env := mkEnv (fault Demo.env) t [] (new_mode Demo.env) 0 (space Demo.env).

Lemma locked_named : well_named locked.
Proof.
  intros name x Hx. assert (w_exports locked = {["data" := default (Demo.export false []) (w_exports locked !! "data")]}) as E by (vm_compute; reflexivity).
  rewrite E in Hx. apply lookup_singleton_Some in Hx as [<- <-]. vm_compute. reflexivity.
Qed.
End Started.

Lemma agent_serves_what_it_says_witness :
  ∃ file cfg, ag_exports cfg !! "data" = match inline_path "data" ["data=data"] with
                                         | Some p => Some (mkExportConfig (path_buf Started.ce p) false [] true None)
                                         | None => ag_exports file !! "data"
                                         end ∧ is_Some (w_exports (sv_world Started.serving) !! "docs").
Proof.
  destruct (agent_serves_what_it_says Demo.env Started.ce Started.yaml (λ _, None) Started.loopback (λ _, true) [] None true (Some ["etc"; "passwd"]) ["data=data"]
    Started.disk Started.serving Started.disk) as (file & cfg & _ & Hx & _).
  - vm_compute. reflexivity.
  - exists file, cfg. split; [apply Hx|]. vm_compute. by eexists.
Defined.

Lemma reaper_frees_the_silent_witness :
  w_fs (reap_round (Started.at_time 40000) LEASE Started.locked) = w_fs Started.locked.
Proof. apply (reaper_frees_the_silent (Started.at_time 40000) LEASE Started.locked). exact Started.locked_named. Defined.

Lemma dead_client_freed_in_time_witness :
  ∃ k, 0 ≤ k ∧ 1000 + LEASE < 500 + REAPER_TICK * k ≤ 1000 + LEASE + REAPER_TICK.
Proof.
  assert (∃ s x, w_sessions Started.locked !! 1 = Some s ∧ w_exports Started.locked !! "data" = Some x ∧ x_name x = "data" ∧
    s_registered s = true ∧ s_last_seen s = 1000 ∧ s_attached s = Some "data") as (s & x & Hs & Hx & Hn & Hr & Hl & Ha).
  { eexists _, _. split_and!; vm_compute; reflexivity. }
  destruct (dead_client_freed_in_time 500 LEASE 1000 1 s x Started.locked) as (k & H0 & H1 & _).
  - vm_compute. discriminate.
  - lia.
  - exact Started.locked_named.
  - exact Hs.
  - exact Hr.
  - exact Hl.
  - by rewrite Hn.
  - by rewrite Hn.
  - by exists k.
Defined.
