(* ===== verification/Service.v ===== *)
(** * Service: instances that start on their own

    alloyfs-cli/src/commands/service: what an instance is, its definition on
    disk and its command line (instance.rs), the calls of the service control
    manager (scm.rs) and the commands [setup], [add], [remove], [start],
    [stop], [restart], [list] and [reset] (mod.rs).  The store is one
    directory of files that only these commands touch; its failures are
    answers of the environment.  The service control manager is the class
    [Scm] with its documented behaviour, and serde_yaml the class [Yaml].

    Without elevation nothing changes; ids are plain names; an instance that
    was added is the one that will run, and nothing else changed; a fan-out
    reaches every instance whatever fails.  The last part shows an id that can
    neither be added nor removed, and a store that everyone may write to. *)

From S2P Require Import Prelude Messages Common Exclude Fs Agent Overlay.

(** ** Instances *)

Inductive Instance : Type :=
| Mount (url mountpoint : string) (exclude pin : list string) (auto_cache_max auto_cache_budget : option string)
    (detect_conflicts : bool)
| AgentInstance (config tcp : option string).

Definition summary (i : Instance) : string :=
  match i with
  | Mount url mountpoint _ _ _ _ _ => url +:+ " -> " +:+ mountpoint
  | AgentInstance (Some c) _ => "serve --config " +:+ c
  | AgentInstance None (Some t) => "serve --tcp " +:+ t
  | AgentInstance None None => "serve"
  end.

Definition instance_kind (i : Instance) : string := match i with Mount _ _ _ _ _ _ _ => "mount" | AgentInstance _ _ => "agent" end.

(** A flag and its value, once per value. *)
Definition flags (flag : string) (values : list string) : list string := flat_map (λ v, [flag; v]) values.
Definition flag_opt (flag : string) (value : option string) : list string :=
  match value with Some v => [flag; v] | None => [] end.

Definition argv (i : Instance) : list string :=
  match i with
  | Mount url mountpoint exclude pin cache_max cache_budget detect =>
      ["mount"; url; mountpoint] ++ flags "--exclude" exclude ++ flags "--pin" pin ++
      flag_opt "--auto-cache-max" cache_max ++ flag_opt "--auto-cache-budget" cache_budget ++
      (if detect : bool then ["--detect-conflicts"] else [])
  | AgentInstance config tcp => ["serve"] ++ flag_opt "--config" config ++ flag_opt "--tcp" tcp
  end.

Inductive IdError : Type := EmptyId | LongId | BadCharacter | LeadingDash.

Definition id_byte (b : Z) : bool := is_ascii_alphabetic b || is_ascii_digit b || (b =? 45) || (b =? 95).

Definition validate_id (id : string) : result unit IdError :=
  if str_is_empty id then Err EmptyId
  else if negb (str_len id <=? 64) then Err LongId
  else if negb (forallb id_byte (as_bytes id)) then Err BadCharacter
  else if starts_with "-" id then Err LeadingDash
  else Ok tt.

(** The file name of a definition, in the store. *)
Definition instance_file (id : string) : string := id +:+ ".yml".
Definition service_name (id : string) : string := "alloyfs-" +:+ id.

(** [store_dir]: below ProgramData on Windows. *)
Definition store_dir (program_data : option string) : list string :=
  [default "C:\ProgramData" program_data; "alloyfs"; "services"].

(** [path.extension()? == "yml"] and its stem: the name before a last ".yml",
    when there is one. *)
Definition yml_stem (name : string) : option string :=
  match rsplit_once "."%char name with
  | Some (stem, ext) => if bool_decide (ext = "yml") && negb (str_is_empty stem) then to_str stem else None
  | None => None
  end.

(** ** The store *)

Record Store : Type := mkStore { st_present : bool; st_restricted : bool; st_files : gmap string (list Z) }.
Inductive StoreOp : Type := OpCreateDir | OpReadDir | OpWrite (name : string) | OpRead (name : string) | OpRemove (name : string) | OpRemoveAll | OpRestrict.

Class Yaml := {
  to_yaml : Instance → option (list Z);
  from_yaml : list Z → option Instance;
  yaml_roundtrip i t : to_yaml i = Some t → from_yaml t = Some i
}.

(** ** The service control manager *)

Inductive SvcState : Type := Stopped | StartPending | StopPending | Running | ContinuePending | PausePending | Paused.
#[global] Instance SvcState_eq_dec : EqDecision SvcState.
Proof. solve_decision. Defined.

(** Its services with their launch arguments, and what the calls do to them. *)
Class Scm (S : Type) := {
  scm_services : S → gmap string (list string);
  scm_query : string → S → result SvcState Z;
  scm_create : string → list string → S → result unit Z * S;
  scm_delete : string → S → result unit Z * S;
  scm_start : string → S → result unit Z * S;
  scm_stop : string → S → result unit Z * S;
  scm_wait : S → S;                                       (* 100 ms pass *)
  scm_create_does n args s : match scm_create n args s with
    | (Ok _, s') => scm_services s !! n = None ∧ scm_services s' = <[n := args]> (scm_services s)
    | (Err _, s') => s' = s
    end;
  scm_delete_does n s : match scm_delete n s with
    | (Ok _, s') => is_Some (scm_services s !! n) ∧ scm_services s' = delete n (scm_services s)
    | (Err _, s') => s' = s
    end;
  scm_start_does n s : scm_services (scm_start n s).2 = scm_services s;
  scm_stop_does n s : scm_services (scm_stop n s).2 = scm_services s;
  scm_wait_does s : scm_services (scm_wait s) = scm_services s
}.

Inductive SvcError : Type :=
| NotElevated | BadId (e : IdError) | AlreadyExists_ | NoWinFsp | StoreIo (e : IoErrorKind) | Unwritable
| ScmError (code : Z) | DidNotStop | NothingDefined | UnknownAction | FailedFor (ids : list string) | NotConfirmed | Malformed.

Section Commands.
Context {S : Type} `{SCM : Scm S} `{YAML : Yaml}.
(** Elevation, WinFsp, and what fails in the store. *)
Context (elevated winfsp : bool) (store_fault : StoreOp → option IoErrorKind).

Record SvcWorld : Type := mkSvcWorld { sw_store : Store; sw_scm : S }.
#[local] Abbreviation SvcM := (M SvcWorld SvcError).

Definition ensure (b : bool) (e : SvcError) : SvcM unit := if b then sret tt else sfail e.
Definition require_elevation : SvcM unit := ensure elevated NotElevated.
Definition verify_winfsp : SvcM unit := ensure winfsp NoWinFsp.
Definition valid (id : string) : SvcM unit := slift (map_err BadId (validate_id id)).

(** A call of the store, or its failure. *)
Definition store_do (op : StoreOp) (f : Store → result Store IoErrorKind) : SvcM unit := λ w,
  match store_fault op with
  | Some e => (Err (StoreIo e), w)
  | None => match f (sw_store w) with
            | Ok st => (Ok tt, mkSvcWorld st (sw_scm w))
            | Err e => (Err (StoreIo e), w)
            end
  end.

Definition make_store : SvcM unit :=
  store_do OpCreateDir (λ st, Ok (if st_present st then st else mkStore true false (st_files st))).
Definition restrict_to_administrators : SvcM unit :=
  store_do OpRestrict (λ st, if st_present st then Ok (mkStore true true (st_files st)) else Err IoNotFound).

Definition exists_file (id : string) : SvcM bool := λ w,
  (Ok (bool_decide (is_Some (st_files (sw_store w) !! instance_file id))), w).

Definition load (id : string) : SvcM Instance := λ w,
  match store_fault (OpRead (instance_file id)), st_files (sw_store w) !! instance_file id with
  | Some e, _ => (Err (StoreIo e), w)
  | None, None => (Err (StoreIo IoNotFound), w)
  | None, Some text => (match from_yaml text with Some i => Ok i | None => Err Malformed end, w)
  end.

Definition save (id : string) (i : Instance) : SvcM unit :=
  run! make_store in
  let! text := slift (ok_or (to_yaml i) Unwritable) in
  store_do (OpWrite (instance_file id)) (λ st, Ok (mkStore (st_present st) (st_restricted st) (<[instance_file id := text]> (st_files st)))).

Definition list_ids (w : SvcWorld) : list string :=
  match store_fault OpReadDir with
  | Some _ => []
  | None => merge_sort String.le (omap yml_stem (map_to_list (st_files (sw_store w))).*1)
  end.

(** A call of the service control manager. *)
Definition scm_do (call : S → result unit Z * S) : SvcM unit := λ w,
  let '(r, s) := call (sw_scm w) in (map_err ScmError r, mkSvcWorld (sw_store w) s).
Definition query (id : string) : SvcM SvcState := λ w, (map_err ScmError (scm_query (service_name id) (sw_scm w)), w).

Definition svc_create (id : string) : SvcM unit := scm_do (scm_create (service_name id) ["service"; "run"; id]).
Definition svc_delete (id : string) : SvcM unit := scm_do (scm_delete (service_name id)).

Definition svc_start (id : string) : SvcM unit :=
  let! st := query id in
  if bool_decide (st = Running) then sret tt else scm_do (scm_start (service_name id)).

(** The wait of [stop]: [n] looks, 100 ms apart. *)
Fixpoint await_stopped (n : nat) (id : string) : SvcM unit :=
  match n with
  | O => sfail DidNotStop
  | Datatypes.S n =>
      let! st := query id in
      if bool_decide (st = Stopped) then sret tt
      else run! smod (λ w, mkSvcWorld (sw_store w) (scm_wait (sw_scm w))) in await_stopped n id
  end.

Definition svc_stop (id : string) : SvcM unit :=
  let! st := query id in
  if bool_decide (st = Stopped) then sret tt
  else run! scm_do (scm_stop (service_name id)) in await_stopped 50 id.

(** ** The commands *)

Definition setup : SvcM unit :=
  run! require_elevation in
  run! verify_winfsp in
  run! make_store in
  restrict_to_administrators.

Definition add (id : string) (i : Instance) (start_now : bool) : SvcM unit :=
  run! require_elevation in
  run! valid id in
  let! there := exists_file id in
  run! ensure (negb there) AlreadyExists_ in
  run! verify_winfsp in
  run! save id i in
  run! svc_create id in
  if start_now then svc_start id else sret tt.

Definition remove (id : string) : SvcM unit :=
  run! require_elevation in
  run! valid id in
  run! stry (svc_stop id) in
  run! svc_delete id in
  let! there := exists_file id in
  if there : bool then
    store_do (OpRemove (instance_file id)) (λ st, Ok (mkStore (st_present st) (st_restricted st) (delete (instance_file id) (st_files st))))
  else sret tt.

Definition act (action : string) (id : string) : option (SvcM unit) :=
  if bool_decide (action = "start") then Some (svc_start id)
  else if bool_decide (action = "stop") then Some (svc_stop id)
  else if bool_decide (action = "restart") then Some (run! svc_stop id in svc_start id)
  else None.

(** The fan-out: the ids that failed. *)
Fixpoint act_all (action : string) (ids : list string) : SvcM (list string) :=
  match ids with
  | [] => sret []
  | id :: ids =>
      match act action id with
      | None => sfail UnknownAction
      | Some m =>
          let! outcome := stry m in
          let! failed := act_all action ids in
          sret (match outcome with Ok _ => failed | Err _ => id :: failed end)
      end
  end.

Definition control (action : string) (id : option string) : SvcM unit :=
  run! require_elevation in
  let! ids := (match id with
               | Some one => run! valid one in sret [one]
               | None => let! w := sget in sret (list_ids w)
               end) in
  run! ensure (negb (bool_decide (ids = []))) NothingDefined in
  let! failed := act_all action ids in
  ensure (bool_decide (failed = [])) (FailedFor failed).

Definition state_word (id : string) (w : SvcWorld) : string :=
  match scm_query (service_name id) (sw_scm w) with
  | Ok Stopped => "stopped" | Ok StartPending => "starting" | Ok StopPending => "stopping" | Ok Running => "running"
  | Ok ContinuePending => "resuming" | Ok PausePending => "pausing" | Ok Paused => "paused"
  | Err _ => if bool_decide (is_Some (scm_services (sw_scm w) !! service_name id)) then "?" else "unregistered"
  end.

(** The rows of [list]: id, kind, state and target. *)
Definition list_rows (w : SvcWorld) : list (string * string * string * string) :=
  (λ id, let '(kind, target) := match (load id w).1 with
                                | Ok i => (instance_kind i, summary i)
                                | Err _ => ("?", "unreadable")
                                end in
         (id, kind, state_word id w, target)) <$> list_ids w.

Fixpoint reset_all (ids : list string) : SvcM unit :=
  match ids with
  | [] => sret tt
  | id :: ids => run! stry (svc_stop id) in run! stry (svc_delete id) in reset_all ids
  end.

Definition reset (confirm : bool) : SvcM unit :=
  run! require_elevation in
  let! w := sget in
  let ids := list_ids w in
  run! ensure confirm NotConfirmed in
  run! reset_all ids in
  let! w := sget in
  if st_present (sw_store w) then store_do OpRemoveAll (λ _, Ok (mkStore false false ∅)) else sret tt.

(** The commands together. *)
Inductive SvcCommand : Type :=
| Setup | Add (id : string) (i : Instance) (start_now : bool) | Remove (id : string) | Control (action : string) (id : option string)
| Reset (confirm : bool).

Definition run_command (c : SvcCommand) : SvcM unit :=
  match c with
  | Setup => setup
  | Add id i start_now => add id i start_now
  | Remove id => remove id
  | Control action id => control action id
  | Reset confirm => reset confirm
  end.
End Commands.
Arguments SvcWorld S : clear implicits.

(** ** Ids *)

Lemma bytes_without f c s : f (Z.of_N (N_of_ascii c)) = false → forallb f (as_bytes s) = true → contains_char c s = false.
Proof.
  intros Hc. induction s as [|a s IH]; [done|]. cbn [as_bytes forallb contains_char]. intros [Ha Hs]%andb_prop.
  rw IH // orb_false_r. apply bool_decide_eq_false. intros ->. congruence.
Qed.

Lemma ascii_valid s : forallb id_byte (as_bytes s) = true → utf8_valid s = true.
Proof.
  induction s as [|a s IH]; [done|]. cbn [as_bytes forallb utf8_valid]. intros [Ha Hs]%andb_prop.
  assert (in_range 0 127 a = true) as ->; [|by apply IH]. revert Ha. by destruct a as [[] [] [] [] [] [] [] []].
Qed.

Lemma validate_id_Ok id : validate_id id = Ok tt → id ≠ "" ∧ forallb id_byte (as_bytes id) = true ∧ starts_with "-" id = false.
Proof.
  unfold validate_id, str_is_empty. case_bool_decide; [done|]. destruct (negb (_ <=? _)); [done|].
  destruct (forallb _ _); [|done]. by destruct (starts_with _ _).
Qed.

Lemma stem_of_valid id : validate_id id = Ok tt → yml_stem (instance_file id) = Some id.
Proof.
  intros (Hne & Hb & Hd)%validate_id_Ok. unfold yml_stem, instance_file. change (id +:+ ".yml") with (id +:+ String "." "yml").
  rw rsplit_once_app; [|done]. rw bool_decide_true //. unfold str_is_empty. rw bool_decide_false //. cbn [negb andb]. unfold to_str. by rw ascii_valid.
Qed.

(** An accepted id is safe wherever it goes.  Its file name is one plain
    component of the store, never the store itself or a path out of it; the id
    read back from that file is the id; and it is never taken for a flag. *)
Theorem valid_id_is_plain id : validate_id id = Ok tt →
  good_component (instance_file id) ∧ yml_stem (instance_file id) = Some id ∧ starts_with "-" id = false.
Proof.
  intros Hv. destruct (validate_id_Ok _ Hv) as (Hne & Hb & Hd). split_and!; [|by apply stem_of_valid|done].
  assert (∀ c, id_byte (Z.of_N (N_of_ascii c)) = false → contains_char c ".yml" = false → contains_char c (instance_file id) = false) as H.
  { intros c H1 H2. unfold instance_file. by rw contains_char_app (bytes_without id_byte c id). }
  destruct id as [|a id]; [done|]. assert (a ≠ "."%char) as Ha by (intros ->; cbn in Hb; done).
  split_and!; try (by apply H); unfold instance_file; rw app_cons_str; try done; intros E; injection E; intros; congruence.
Qed.

Lemma valid_id_is_plain_witness : good_component (instance_file "my-mount_2").
Proof. apply (valid_id_is_plain "my-mount_2"). vm_compute. reflexivity. Defined.

(** ** What an instance runs as *)

(** The pairs of a flag and its value, and whether one token is left. *)
Fixpoint unpair (tokens : list string) : list (string * string) * bool :=
  match tokens with
  | f :: v :: rest => let '(l, odd) := unpair rest in ((f, v) :: l, odd)
  | [_] => ([], true)
  | [] => ([], false)
  end.
Definition values (flag : string) (l : list (string * string)) : list string := (base.filter (λ fv, fv.1 = flag) l).*2.

(** The instance a command line stands for. *)
Definition unargv (tokens : list string) : option Instance :=
  match tokens with
  | "serve" :: rest =>
      let '(l, _) := unpair rest in Some (AgentInstance (head (values "--config" l)) (head (values "--tcp" l)))
  | "mount" :: url :: mountpoint :: rest =>
      let '(l, detect) := unpair rest in
      Some (Mount url mountpoint (values "--exclude" l) (values "--pin" l) (head (values "--auto-cache-max" l))
        (head (values "--auto-cache-budget" l)) detect)
  | _ => None
  end.

Lemma unpair_flags flag vs rest : unpair (flags flag vs ++ rest) = (((λ v, (flag, v)) <$> vs) ++ (unpair rest).1, (unpair rest).2).
Proof.
  induction vs as [|v vs IH]; cbn; [by destruct (unpair rest)|]. unfold flags in *. by rw IH.
Qed.
Lemma flag_opt_flags flag o : flag_opt flag o = flags flag (option_list o).
Proof. by destruct o. Qed.

Lemma values_app flag l1 l2 : values flag (l1 ++ l2) = values flag l1 ++ values flag l2.
Proof. unfold values. by rw filter_app fmap_app. Qed.
Lemma values_same flag vs : values flag ((λ v, (flag, v)) <$> vs) = vs.
Proof. unfold values. induction vs as [|v vs IH]; [done|]. rw fmap_cons filter_cons_True //. cbn. by rw IH. Qed.
Lemma values_other flag flag' vs : flag ≠ flag' → values flag ((λ v, (flag', v)) <$> vs) = [].
Proof. intros H. unfold values. induction vs as [|v vs IH]; [done|]. by rw fmap_cons filter_cons_False. Qed.

Lemma unargv_argv i : unargv (argv i) = Some i.
Proof.
  destruct i as [url mp exclude pin cm cb detect|config tcp]; cbn [argv unargv app].
  - rw !flag_opt_flags !unpair_flags. cbn [fst snd].
    assert (unpair (if detect then ["--detect-conflicts"] else []) = ([], detect)) as -> by by destruct detect.
    cbn [fst snd]. rw !app_nil_r !values_app !values_same !(values_other _ _ _) //. cbn [app]. rw !app_nil_r. by destruct cm, cb.
  - rw flag_opt_flags (flag_opt_flags "--tcp") -(app_nil_r (flags "--tcp" _)) !unpair_flags. cbn [fst snd unpair].
    rw app_nil_r !values_app !values_same !(values_other _ _ _) // app_nil_r. by destruct config, tcp.
Qed.

(** Nothing of an instance is lost on its command line: the arguments the
    service launches determine the url, the mount point, every exclude and pin
    in order, the cache limits and the conflict flag. *)
Theorem argv_roundtrip i : unargv (argv i) = Some i.
Proof. apply unargv_argv. Qed.

(** ** The commands *)

Section Facts.
Context {S : Type} `{SCM : Scm S} `{YAML : Yaml} (winfsp : bool) (store_fault : StoreOp → option IoErrorKind).
#[local] Abbreviation World := (SvcWorld S).
#[local] Abbreviation command e := (run_command (S := S) e winfsp store_fault).

(** Without elevation no command changes anything: not the store, not the
    services; each says that it needs an elevated terminal. *)
Theorem unelevated_changes_nothing c (w : World) : command false c w = (Err NotElevated, w).
Proof. by destruct c. Qed.

Lemma ensure_inv (b : bool) e (w w' : World) u : ensure b e w = (Ok u, w') → b = true ∧ w' = w.
Proof. unfold ensure. destruct b; [by intros [= _ <-]|done]. Qed.

Lemma bind_inv {A B} (m : M World SvcError A) (f : A → M World SvcError B) w b w' :
  sbind m f w = (Ok b, w') → ∃ a w1, m w = (Ok a, w1) ∧ f a w1 = (Ok b, w').
Proof. unfold sbind. destruct (m w) as [[a|e] w1] eqn:E; [|done]. eauto. Qed.

Lemma store_do_inv op f (w w' : World) u : store_do store_fault op f w = (Ok u, w') →
  store_fault op = None ∧ ∃ st, f (sw_store w) = Ok st ∧ w' = mkSvcWorld st (sw_scm w).
Proof. unfold store_do. destruct (store_fault op); [done|]. destruct (f _); [|done]. intros [= _ <-]. eauto. Qed.

Lemma save_inv id i (w w' : World) u : save store_fault id i w = (Ok u, w') →
  ∃ text, to_yaml i = Some text ∧ sw_scm w' = sw_scm w ∧ st_files (sw_store w') = <[instance_file id := text]> (st_files (sw_store w)) ∧
    st_present (sw_store w') = true ∧ st_restricted (sw_store w') = st_present (sw_store w) && st_restricted (sw_store w).
Proof.
  unfold save. intros ([] & w1 & H1 & H2)%bind_inv. apply store_do_inv in H1 as (_ & st & [= <-] & ->).
  apply bind_inv in H2 as (text & w2 & H2 & H3). unfold slift in H2. destruct (to_yaml i) as [t|]; [|done]. injection H2 as <- <-.
  apply store_do_inv in H3 as (_ & st & [= <-] & ->). exists t. cbn. by destruct (st_present (sw_store w)) eqn:E; cbn; rw ?E.
Qed.

Lemma save_no_scm id i (w w' : World) e : save store_fault id i w ≠ (Err (ScmError e), w').
Proof.
  unfold save, make_store, store_do, sbind, slift. destruct (store_fault OpCreateDir); [done|].
  destruct (to_yaml i); [|done]. cbn. by destruct (store_fault _).
Qed.

Lemma scm_do_services (call : S → result unit Z * S) (w : World) :
  (∀ s, scm_services (call s).2 = scm_services s) →
  scm_services (sw_scm (scm_do call w).2) = scm_services (sw_scm w) ∧ sw_store (scm_do call w).2 = sw_store w.
Proof. intros H. unfold scm_do. specialize (H (sw_scm w)). by destruct (call (sw_scm w)). Qed.

(** Starting and stopping changes neither the store nor what is registered. *)
Definition keeps_registry {A} (m : M World SvcError A) : Prop :=
  ∀ w, scm_services (sw_scm (m w).2) = scm_services (sw_scm w) ∧ sw_store (m w).2 = sw_store w.

Lemma registry_bind {A B} (m : M World SvcError A) (f : A → M World SvcError B) :
  keeps_registry m → (∀ a, keeps_registry (f a)) → keeps_registry (sbind m f).
Proof.
  intros Hm Hf w. unfold sbind. specialize (Hm w). destruct (m w) as [[a|e] w1]; [|done]. destruct (Hf a w1) as [-> ->]. done.
Qed.
Lemma keeps_query id : keeps_registry (query id).
Proof. done. Qed.
Lemma registry_ret {A} (a : A) : keeps_registry (sret a).
Proof. done. Qed.

Lemma keeps_start id : keeps_registry (svc_start id).
Proof.
  unfold svc_start. apply registry_bind; [apply keeps_query|]. intros st. case_bool_decide; [apply registry_ret|].
  intros w. apply scm_do_services. intros s. apply scm_start_does.
Qed.

Lemma keeps_await n id : keeps_registry (await_stopped n id).
Proof.
  induction n as [|n IH]; cbn [await_stopped]; [done|]. apply registry_bind; [apply keeps_query|]. intros st.
  case_bool_decide; [apply registry_ret|]. apply registry_bind; [|done]. intros w. cbn. split; [apply scm_wait_does|done].
Qed.

Lemma keeps_stop id : keeps_registry (svc_stop id).
Proof.
  unfold svc_stop. apply registry_bind; [apply keeps_query|]. intros st. case_bool_decide; [apply registry_ret|].
  apply registry_bind; [|intros _; apply keeps_await]. intros w. apply scm_do_services. intros s. apply scm_stop_does.
Qed.

Lemma valid_inv id (w w' : World) u : valid id w = (Ok u, w') → validate_id id = Ok tt ∧ w' = w.
Proof. unfold valid, slift. destruct (validate_id id) as [[]|]; [by intros [= _ <-]|done]. Qed.

Lemma create_inv id (w w' : World) : ∀ {u}, svc_create id w = (Ok u, w') →
  scm_services (sw_scm w') = <[service_name id := ["service"; "run"; id]]> (scm_services (sw_scm w)) ∧ sw_store w' = sw_store w.
Proof.
  intros u. unfold svc_create, scm_do. pose proof (scm_create_does (service_name id) ["service"; "run"; id] (sw_scm w)) as H.
  destruct (scm_create _ _ _) as [[|] s]; [|done]. intros [= _ <-]. by destruct H.
Qed.

Lemma add_inv elevated id i start_now (w w' : World) u :
  add elevated winfsp store_fault id i start_now w = (Ok u, w') →
  elevated = true ∧ validate_id id = Ok tt ∧ st_files (sw_store w) !! instance_file id = None ∧
  scm_services (sw_scm w') = <[service_name id := ["service"; "run"; id]]> (scm_services (sw_scm w)) ∧
  st_restricted (sw_store w') = st_present (sw_store w) && st_restricted (sw_store w) ∧
  ∃ text, to_yaml i = Some text ∧ st_files (sw_store w') = <[instance_file id := text]> (st_files (sw_store w)).
Proof.
  unfold add. intros (? & w1 & (-> & ->)%ensure_inv & H)%bind_inv. apply bind_inv in H as (? & w2 & (Hv & ->)%valid_inv & H).
  apply bind_inv in H as (there & w3 & [= <- <-] & H). apply bind_inv in H as (? & w4 & (Hfree & ->)%ensure_inv & H).
  apply bind_inv in H as (? & w5 & (_ & ->)%ensure_inv & H). apply bind_inv in H as (? & w6 & Hsave & H).
  apply bind_inv in H as (? & w7 & [Hreg Hst]%create_inv & H). apply negb_true_iff, bool_decide_eq_false, eq_None_not_Some in Hfree.
  apply save_inv in Hsave as (text & Ht & Hscm & Hfiles & _ & Hres).
  assert (scm_services (sw_scm w') = scm_services (sw_scm w7) ∧ sw_store w' = sw_store w7) as [Hreg' Hst'].
  { destruct start_now; [|by injection H as _ <-]. pose proof (keeps_start id w7) as Hk. by rw H in Hk. }
  rw Hreg' Hst' Hreg Hst Hscm. eauto 10.
Qed.

(** What was added is what will run.  When [add] succeeds its id was free
    and is valid; the definition reads back as the instance that was given; the
    service is registered to run exactly that id; no other file and no other
    service changed; and the id is listed. *)
Theorem add_exact elevated id i start_now (w w' : World) u :
  add elevated winfsp store_fault id i start_now w = (Ok u, w') →
  elevated = true ∧ validate_id id = Ok tt ∧ st_files (sw_store w) !! instance_file id = None ∧
  (store_fault (OpRead (instance_file id)) = None → load store_fault id w' = (Ok i, w')) ∧
  scm_services (sw_scm w') = <[service_name id := ["service"; "run"; id]]> (scm_services (sw_scm w)) ∧
  delete (instance_file id) (st_files (sw_store w')) = st_files (sw_store w) ∧
  (store_fault OpReadDir = None → id ∈ list_ids store_fault w').
Proof.
  intros (He & Hv & Hfree & Hreg & _ & text & Ht & Hfiles)%add_inv. split_and!; try done.
  - intros Hr. unfold load. by rw Hr Hfiles lookup_insert_eq (yaml_roundtrip i text).
  - by rw Hfiles delete_insert_id.
  - intros Hd. unfold list_ids. rw Hd merge_sort_Permutation. apply list_elem_of_omap. exists (instance_file id).
    split; [|by apply stem_of_valid]. apply list_elem_of_fmap. exists (instance_file id, text). split; [done|].
    apply elem_of_map_to_list. by rw Hfiles lookup_insert_eq.
Qed.

Lemma bind_err {A B} (m : M World SvcError A) (f : A → M World SvcError B) w e w' :
  sbind m f w = (Err e, w') → m w = (Err e, w') ∨ ∃ a w1, m w = (Ok a, w1) ∧ f a w1 = (Err e, w').
Proof. unfold sbind. destruct (m w) as [[a|e'] w1] eqn:E; [eauto|]. intros [= -> ->]. by left. Qed.

(** [add] fails in the service control manager only after the definition was
    written. *)
Lemma add_scm_error id i start_now (w w1 : World) e :
  add true winfsp store_fault id i start_now w = (Err (ScmError e), w1) →
  validate_id id = Ok tt ∧ is_Some (st_files (sw_store w1) !! instance_file id).
Proof.
  unfold add. intros [H|(? & w2 & [= _ <-] & H)]%bind_err; [done|].
  apply bind_err in H as [H|(? & w2 & (Hv & ->)%valid_inv & H)]; [unfold valid, slift in H; by destruct (validate_id id)|].
  apply bind_err in H as [H|(there & w2 & [= <- <-] & H)]; [done|].
  apply bind_err in H as [H|(? & w2 & (_ & ->)%ensure_inv & H)]; [unfold ensure in H; by destruct (negb _)|].
  apply bind_err in H as [H|(? & w2 & (_ & ->)%ensure_inv & H)]; [unfold verify_winfsp, ensure in H; by destruct winfsp|].
  apply bind_err in H as [H|(? & w2 & (text & Ht & _ & Hf & _)%save_inv & H)]; [exfalso; by eapply save_no_scm|].
  split; [done|]. enough (sw_store w1 = sw_store w2) as -> by (rw Hf lookup_insert_eq; by eexists).
  apply bind_err in H as [H|(? & w3 & [_ <-]%create_inv & H)].
  - unfold svc_create, scm_do in H. destruct (scm_create _ _ _) as [[] s]; [done|]. by injection H as _ <-.
  - destruct start_now; [|done]. pose proof (keeps_start id w3) as Hk. rw H in Hk. by destruct Hk.
Qed.

Lemma delete_missing id (w : World) : scm_services (sw_scm w) !! service_name id = None →
  ∃ e, svc_delete id w = (Err (ScmError e), w).
Proof.
  intros Hn. unfold svc_delete, scm_do. pose proof (scm_delete_does (service_name id) (sw_scm w)) as H.
  destruct (scm_delete _ _) as [[|e] s]; [destruct H as [[? ?] _]; congruence|]. subst s. exists e. by destruct w.
Qed.

(** When the service control manager refuses to register a new service, the
    id is stuck: its definition is already written, so it cannot be added
    again, and since there is no service, it cannot be removed either. *)
Theorem half_added_id_is_stuck id i start_now j start_now' (w w1 : World) e :
  add true winfsp store_fault id i start_now w = (Err (ScmError e), w1) →
  scm_services (sw_scm w1) !! service_name id = None →
  (add true winfsp store_fault id j start_now' w1).1 = Err AlreadyExists_ ∧
  (∃ e', (remove true store_fault id w1).1 = Err (ScmError e')) ∧
  is_Some (st_files (sw_store (remove true store_fault id w1).2) !! instance_file id).
Proof.
  intros [Hv Hf]%add_scm_error Hn. split.
  - unfold add, sbind, require_elevation, ensure, valid, slift, sret. rw Hv. cbn. by rw bool_decide_true.
  - unfold remove, sbind, require_elevation, ensure, valid, slift, sret, stry. rw Hv. cbn [map_err].
    pose proof (keeps_stop id w1) as [H1 H2]. destruct (svc_stop id w1) as [r w2]. cbn [snd] in *.
    destruct (delete_missing id w2) as [e' ->]; [by rw H1|]. rw -H2 in Hf. eauto.
Qed.

(** [setup] is what locks the store; [add] does not ask for it.  An instance
    added before [setup] ran is written to a store that is not restricted to
    administrators, and a service that runs as SYSTEM will launch what it says. *)
Theorem add_before_setup_is_open elevated id i start_now (w w' : World) u : st_present (sw_store w) = false →
  add elevated winfsp store_fault id i start_now w = (Ok u, w') →
  st_restricted (sw_store w') = false ∧ is_Some (st_files (sw_store w') !! instance_file id) ∧
  is_Some (scm_services (sw_scm w') !! service_name id).
Proof.
  intros Hp (_ & _ & _ & Hreg & Hres & text & _ & Hfiles)%add_inv. rw Hres Hp Hfiles Hreg !lookup_insert_eq.
  by split_and!; [|eexists..].
Qed.

(** *** The fan-out *)

(** What is left after the action was tried on each id, and who failed. *)
Fixpoint tried (m : string → M World SvcError unit) (ids : list string) (w : World) : list string * World :=
  match ids with
  | [] => ([], w)
  | id :: ids =>
      let '(r, w) := m id w in
      let '(failed, w) := tried m ids w in
      (match r with Ok _ => failed | Err _ => id :: failed end, w)
  end.

(** A failure on one instance keeps no other from its turn: [start], [stop] and
    [restart] reach every instance in order, and the error names exactly those
    that failed. *)
Theorem control_reaches_all action m (w : World) : (∀ id, act action id = Some (m id)) → list_ids store_fault w ≠ [] →
  let '(failed, w') := tried m (list_ids store_fault w) w in
  control true store_fault action None w = (if bool_decide (failed = []) then Ok tt else Err (FailedFor failed), w').
Proof.
  intros Hm Hne. assert (∀ ids w, act_all action ids w = (Ok (tried m ids w).1, (tried m ids w).2)) as Hall.
  { induction ids as [|id ids IH]; intros w0; [done|]. cbn [act_all tried]. rw Hm. unfold sbind, stry.
    destruct (m id w0) as [r w1]. rw IH. destruct (tried m ids w1) as [failed w2]. by destruct r. }
  unfold control, sbind, require_elevation, ensure, sget, sret. rw bool_decide_false //. cbn [negb]. rw Hall.
  destruct (tried _ _ _) as [failed w']. cbn [fst snd]. unfold sfail. by case_bool_decide.
Qed.

Lemma reset_keeps_store ids : ∀ w : World, (reset_all ids w).1 = Ok tt ∧ sw_store (reset_all ids w).2 = sw_store w.
Proof.
  induction ids as [|id ids IH]; intros w; [done|]. cbn [reset_all]. unfold sbind, stry.
  pose proof (keeps_stop id w) as [_ H1]. destruct (svc_stop id w) as [r w1]. cbn [snd] in H1. rw -H1.
  assert (sw_store (svc_delete id w1).2 = sw_store w1) as H2 by (unfold svc_delete, scm_do; by destruct (scm_delete _ _)).
  destruct (svc_delete id w1) as [r2 w2]. cbn [snd] in H2. rw -H2. apply IH.
Qed.

(** [reset] asks first, and then leaves no definition. *)
Theorem reset_clears_store (w : World) : store_fault OpRemoveAll = None → st_files (sw_store w) = ∅ ∨ st_present (sw_store w) = true →
  reset true store_fault false w = (Err NotConfirmed, w) ∧
  (reset true store_fault true w).1 = Ok tt ∧ st_files (sw_store (reset true store_fault true w).2) = ∅.
Proof.
  intros Hf Hw. split; [done|]. unfold reset, sbind, require_elevation, ensure, sget, sret.
  destruct (reset_keeps_store (list_ids store_fault w) w) as [H1 H2]. destruct (reset_all _ w) as [r w1]. cbn [fst snd] in *. subst r.
  rw H2. unfold store_do. rw Hf. destruct (st_present (sw_store w)) eqn:Hp; [done|]. rw /= H2. by destruct Hw.
Qed.
End Facts.

(** ** A small machine *)

Module Machine.
(** Services in a table; [bolted] refuses every change. *)
Record Table : Type := mkTable { tb : gmap string (list string * SvcState); bolted : bool }.
Definition set_state (st : SvcState) (n : string) (t : Table) : result unit Z * Table :=
  match tb t !! n with
  | Some (args, _) => (Ok tt, mkTable (<[n := (args, st)]> (tb t)) (bolted t))
  | None => (Err 1060, t)
  end.

Definition look (n : string) (t : Table) : result SvcState Z := match tb t !! n with Some (_, st) => Ok st | None => Err 1060 end.
Definition make (n : string) (args : list string) (t : Table) : result unit Z * Table :=
  if bolted t then (Err 5, t)
  else match tb t !! n with Some _ => (Err 1073, t) | None => (Ok tt, mkTable (<[n := (args, Stopped)]> (tb t)) false) end.
Definition drop (n : string) (t : Table) : result unit Z * Table :=
  if bolted t then (Err 5, t)
  else match tb t !! n with Some _ => (Ok tt, mkTable (delete n (tb t)) false) | None => (Err 1060, t) end.

#[global] Program Instance table_scm : Scm Table := {|
  scm_services t := fst <$> tb t; scm_query := look; scm_create := make; scm_delete := drop;
  scm_start := set_state Running; scm_stop := set_state Stopped; scm_wait t := t
|}.
Next Obligation.
  intros n args [t []]; unfold make; cbn; [done|]. destruct (t !! n) eqn:E; [done|]. by rw lookup_fmap E fmap_insert.
Qed.
Next Obligation.
  intros n [t []]; unfold drop; cbn; [done|]. destruct (t !! n) eqn:E; [|done]. rw lookup_fmap E fmap_delete. eauto.
Qed.
Next Obligation.
  intros n [t b]. unfold set_state. cbn. destruct (t !! n) as [[args st]|] eqn:E; [|done]. cbn. rw fmap_insert.
  apply insert_id. by rw lookup_fmap E.
Qed.
Next Obligation.
  intros n [t b]. unfold set_state. cbn. destruct (t !! n) as [[args st]|] eqn:E; [|done]. cbn. rw fmap_insert.
  apply insert_id. by rw lookup_fmap E.
Qed.
Next Obligation. done. Qed.

(** Agents without options, as empty text. *)
Definition write (i : Instance) : option (list Z) := match i with AgentInstance None None => Some [] | _ => None end.
Definition read (t : list Z) : option Instance := match t with [] => Some (AgentInstance None None) | _ => None end.
#[global] Program Instance plain_yaml : Yaml := {|
  to_yaml := write; from_yaml := read
|}.
Next Obligation. by intros [|[] []] t [= <-]. Qed.

Definition fine (op : StoreOp) : option IoErrorKind := None.
Definition agent : Instance := AgentInstance None None.
Definition empty (bolted : bool) : SvcWorld Table := mkSvcWorld (mkStore false false ∅) (mkTable ∅ bolted).
Definition one : SvcWorld Table := (add true true fine "work" agent true (empty false)).2.
End Machine.

Lemma add_exact_witness :
  ∃ w', add true true Machine.fine "work" Machine.agent true (Machine.empty false) = (Ok tt, w') ∧
    load Machine.fine "work" w' = (Ok Machine.agent, w').
Proof.
  eexists. split; [vm_compute; reflexivity|].
  eapply (add_exact true Machine.fine true "work" Machine.agent true (Machine.empty false) _ tt); vm_compute; reflexivity.
Defined.

Lemma half_added_id_is_stuck_witness :
  let w1 := (add true true Machine.fine "work" Machine.agent true (Machine.empty true)).2 in
  (add true true Machine.fine "work" Machine.agent true w1).1 = Err AlreadyExists_.
Proof.
  intros w1. eapply (half_added_id_is_stuck true Machine.fine "work" Machine.agent true Machine.agent true (Machine.empty true) w1 5); vm_compute; reflexivity.
Defined.

Lemma add_before_setup_is_open_witness : st_restricted (sw_store Machine.one) = false.
Proof.
  eapply (add_before_setup_is_open true Machine.fine true "work" Machine.agent true (Machine.empty false) Machine.one tt); vm_compute; reflexivity.
Defined.

Lemma control_reaches_all_witness :
  control true Machine.fine "stop" None Machine.one = (Ok tt, (svc_stop "work" Machine.one).2).
Proof.
  pose proof (control_reaches_all Machine.fine "stop" svc_stop Machine.one ltac:(reflexivity) ltac:(by vm_compute)) as H.
  destruct (tried _ _ _) as [failed w'] eqn:E. vm_compute in E. injection E as <- <-. exact H.
Defined.

(** A service that cannot be deleted survives [reset], which reports success and
    takes its definition away: it starts at every boot, with nothing to run. *)
Theorem reset_orphans_service :
  let w := mkSvcWorld (sw_store Machine.one) (Machine.mkTable (Machine.tb (sw_scm Machine.one)) true) in
  let '(r, w') := reset true Machine.fine true w in
  r = Ok tt ∧ st_files (sw_store w') = ∅ ∧ scm_services (sw_scm w') !! "alloyfs-work" = Some ["service"; "run"; "work"].
Proof. vm_compute. split_and!; reflexivity. Qed.
