(* ===== verification/Supervisor.v ===== *)
(** * Supervisor: the service that keeps an instance running

    alloyfs-cli/src/commands/service: launching a process into the console
    session (spawn.rs) and the loop under the service control manager
    (runtime.rs).  What Windows answers is an argument; the handles it gives
    out are counted.  The child is a Rust program: [parse_cmdline] is how its
    [std::env::args] reads the line that [spawn] builds.

    A launch keeps no handle but the child's, whatever fails; a command line
    whose arguments have no backslash before a quote or at their end is read
    back exactly, so that the process launched is the instance stored; while
    processes can be killed there is never more than one, and none after a
    stop.  Otherwise arguments merge, and two instances run. *)

From S2P Require Import Prelude Messages Common Exclude Fs Agent Overlay Service.

(** ** The command line *)

Definition QUOTE : Z := 34.
Definition BACKSLASH : Z := 92.
Definition SPACE : Z := 32.
Definition TAB : Z := 9.

(** [arg.replace('"', "\\\"")], as bytes. *)
Definition escape (arg : list Z) : list Z := flat_map (λ c, if c =? QUOTE then [BACKSLASH; QUOTE] else [c]) arg.
Definition quote (arg : list Z) : list Z := [QUOTE] ++ escape arg ++ [QUOTE].

Definition cmdline (exe : list Z) (args : list (list Z)) : list Z :=
  quote exe ++ flat_map (λ arg, SPACE :: quote arg) args.

Definition is_blank (c : Z) : bool := (c =? SPACE) || (c =? TAB).

(** The standard library's reading of the arguments after the first: [cur] is
    the argument so far, [n] the backslashes just seen, [skip] says that blanks
    between arguments are skipped. *)
Fixpoint parse_args (cs cur : list Z) (in_quotes : bool) (n : nat) (skip : bool) : list (list Z) :=
  match cs with
  | [] =>
      let cur := cur ++ replicate n BACKSLASH in
      if bool_decide (cur = []) && negb in_quotes then [] else [cur]
  | c :: cs =>
      if c =? BACKSLASH then parse_args cs cur in_quotes (S n) false
      else if c =? QUOTE then
        let cur := cur ++ replicate (n / 2) BACKSLASH in
        if Nat.odd n then parse_args cs (cur ++ [QUOTE]) in_quotes 0 false
        else if in_quotes then
          match cs with
          | [] => [cur]
          | c' :: cs' => if c' =? QUOTE then parse_args cs' (cur ++ [QUOTE]) true 0 false else parse_args cs cur false 0 false
          end
        else parse_args cs cur true 0 false
      else if is_blank c && negb in_quotes then
        if skip then parse_args cs cur in_quotes n true
        else (cur ++ replicate n BACKSLASH) :: parse_args cs [] false 0 true
      else parse_args cs (cur ++ replicate n BACKSLASH ++ [c]) in_quotes 0 false
  end.

(** The executable's name: quotes toggle, nothing escapes. *)
Fixpoint parse_exe (cs cur : list Z) (in_quotes : bool) : list Z * list Z :=
  match cs with
  | [] => (cur, [])
  | c :: cs =>
      if c =? QUOTE then parse_exe cs cur (negb in_quotes)
      else if is_blank c && negb in_quotes then (cur, cs)
      else parse_exe cs (cur ++ [c]) in_quotes
  end.

Definition parse_cmdline (cs : list Z) : list (list Z) :=
  let '(exe, rest) := parse_exe cs [] false in exe :: parse_args rest [] false 0 true.

(** ** Launching into the console session *)

Inductive SpawnError : Type := NoSession | SpawnFailed (what : string).

(** The answers of Windows. *)
Record SpawnOs : Type := mkSpawnOs {
  os_session : Z;                       (* WTSGetActiveConsoleSessionId *)
  os_user_token : result unit Z;        (* WTSQueryUserToken *)
  os_linked : bool;                     (* GetTokenInformation gives a linked token *)
  os_duplicate : bool;                  (* DuplicateTokenEx *)
  os_environment : bool;                (* CreateEnvironmentBlock *)
  os_create : bool                      (* CreateProcessAsUserW *)
}.

(** Open handles, environment blocks, and what was launched. *)
Record Handles : Type := mkHandles { hd_open : gset Z; hd_next : Z; hd_blocks : nat; hd_launched : list (list Z) }.
#[local] Abbreviation SpawnM := (M Handles SpawnError).

Definition U32_NONE : Z := 2^32 - 1.
Definition ERROR_NO_TOKEN : Z := 1008.

Definition new_handle : SpawnM Z := λ s,
  (Ok (hd_next s), mkHandles ({[hd_next s]} ∪ hd_open s) (hd_next s + 1) (hd_blocks s) (hd_launched s)).
(** [CloseHandle], or [Drop for Handle]. *)
Definition close (h : Z) : SpawnM unit := smod (λ s, mkHandles (hd_open s ∖ {[h]}) (hd_next s) (hd_blocks s) (hd_launched s)).
(** Run [m] and drop a handle whatever comes out. *)
Definition dropping {A} (h : Z) (m : SpawnM A) : SpawnM A := λ s,
  let '(r, s) := m s in (r, (close h s).2).

Definition elevate (os : SpawnOs) (token : Z) : SpawnM Z :=
  if os_linked os then dropping token new_handle else sret token.

Definition console_user_token (os : SpawnOs) : SpawnM Z :=
  if bool_decide (os_session os = U32_NONE) then sfail NoSession
  else match os_user_token os with
  | Err e => if bool_decide (e = ERROR_NO_TOKEN) then sfail NoSession else sfail (SpawnFailed "WTSQueryUserToken")
  | Ok _ => let! raw := new_handle in elevate os raw
  end.

Definition as_primary (os : SpawnOs) : SpawnM Z :=
  if os_duplicate os then new_handle else sfail (SpawnFailed "DuplicateTokenEx").

Definition create_process (os : SpawnOs) (line : list Z) : SpawnM Z :=
  if os_create os then
    let! process := new_handle in
    let! thread := new_handle in
    run! smod (λ s, mkHandles (hd_open s) (hd_next s) (hd_blocks s) (hd_launched s ++ [line])) in
    run! close thread in
    sret process
  else sfail (SpawnFailed "CreateProcessAsUserW").

(** The environment block lives until the process is created, or not. *)
Definition with_environment {A} (os : SpawnOs) (m : SpawnM A) : SpawnM A :=
  if os_environment os then λ s,
    let '(r, s) := m (mkHandles (hd_open s) (hd_next s) (S (hd_blocks s)) (hd_launched s)) in
    (r, mkHandles (hd_open s) (hd_next s) (Nat.pred (hd_blocks s)) (hd_launched s))
  else sfail (SpawnFailed "CreateEnvironmentBlock").

Definition spawn_in_console_session (os : SpawnOs) (exe : list Z) (args : list (list Z)) : SpawnM Z :=
  let! token := console_user_token os in
  dropping token (
    let! primary := as_primary os in
    dropping primary (with_environment os (create_process os (cmdline exe args)))).

(** ** The supervisor *)

Inductive Signal : Type := Stop | SessionChanged.

(** The controls of a service, as far as the handler tells them apart. *)
Inductive ServiceControl : Type := Interrogate | ControlStop | ControlShutdown | SessionChange (reason : Z) | OtherControl.
Definition WTS_CONSOLE_CONNECT : Z := 1.
Definition WTS_CONSOLE_DISCONNECT : Z := 2.
Definition WTS_SESSION_LOGON : Z := 5.
Definition WTS_SESSION_LOGOFF : Z := 6.

(** What the handler sends, and whether it knows the control. *)
Definition control_handler (c : ServiceControl) : option Signal * bool :=
  match c with
  | Interrogate => (None, true)
  | ControlStop | ControlShutdown => (Some Stop, true)
  | SessionChange reason =>
      (if bool_decide (reason = WTS_SESSION_LOGON) || bool_decide (reason = WTS_SESSION_LOGOFF)
          || bool_decide (reason = WTS_CONSOLE_CONNECT) || bool_decide (reason = WTS_CONSOLE_DISCONNECT)
       then Some SessionChanged else None, true)
  | OtherControl => (None, false)
  end.

Definition RETRY : Z := 5000.
Definition TOO_QUICK : Z := 10000.

(** What happens in one turn: the launch's outcome, the processes that end on
    their own while the loop waits, how long it waits, what it receives, and
    whether a process can be killed. *)
Inductive Received : Type := Got (s : Signal) | Disconnected | Timeout.
Record Turn : Type := mkTurn { tn_spawn : result Z SpawnError; tn_exits : gset Z; tn_wait : Z; tn_received : Received; tn_kills : bool }.

Record Supervisor : Type := mkSupervisor {
  su_child : option Z; su_started : Z; su_now : Z; su_live : gset Z; su_stopped : bool
}.
Definition supervisor_new (now : Z) : Supervisor := mkSupervisor None now now ∅ false.

(** [kill]: a process that cannot be opened for termination stays. *)
Definition kill (works : bool) (child : option Z) (live : gset Z) : gset Z :=
  match child with Some pid => if works then live ∖ {[pid]} else live | None => live end.

Definition launch (t : Turn) (s : Supervisor) : Supervisor :=
  match su_child s, tn_spawn t with
  | None, Ok pid => mkSupervisor (Some pid) (su_now s) (su_now s) ({[pid]} ∪ su_live s) (su_stopped s)
  | _, _ => s
  end.

Definition supervise_turn (t : Turn) (s : Supervisor) : Supervisor :=
  if su_stopped s then s
  else
    let s := launch t s in
    let now := su_now s + tn_wait t in
    let live := su_live s ∖ tn_exits t in
    match tn_received t with
    | Got Stop | Disconnected => mkSupervisor None (su_started s) now (kill (tn_kills t) (su_child s) live) true
    | Got SessionChanged => mkSupervisor None (su_started s) now (kill (tn_kills t) (su_child s) live) false
    | Timeout =>
        match su_child s with
        | Some pid =>
            if bool_decide (pid ∈ live) then mkSupervisor (Some pid) (su_started s) now live false
            else mkSupervisor None (su_started s) (if now - su_started s <? TOO_QUICK then now + RETRY else now) live false
        | None => mkSupervisor None (su_started s) now live false
        end
    end.

Definition supervise (turns : list Turn) (s : Supervisor) : Supervisor := foldl (λ s t, supervise_turn t s) s turns.

(** ** What the child reads *)

(** No backslash stands before a quote or at the end; [prev] says that one was
    just seen. *)
Fixpoint unescaped (prev : bool) (arg : list Z) : bool :=
  match arg with
  | [] => negb prev
  | c :: arg => if c =? QUOTE then negb prev && unescaped false arg else unescaped (c =? BACKSLASH) arg
  end.
Definition plain_arg (arg : list Z) : bool := unescaped false arg.

(** Reading an escaped argument inside quotes gives it back. *)
Lemma parse_escaped arg rest : ∀ cur n, unescaped (0 <? Z.of_nat n) arg = true →
  parse_args (escape arg ++ QUOTE :: rest) cur true n false =
  parse_args (QUOTE :: rest) (cur ++ replicate n BACKSLASH ++ arg) true 0 false.
Proof.
  induction arg as [|c arg IH]; intros cur n; cbn [unescaped escape flat_map app].
  - intros Hn. destruct n; [|done]. cbn [replicate app]. by rw app_nil_r.
  - destruct (Z.eqb_spec c QUOTE) as [->|Hq].
    + intros [Hn Ha]%andb_prop. destruct n; [|done]. cbn [app]. fold (escape arg).
      change (parse_args (BACKSLASH :: QUOTE :: escape arg ++ QUOTE :: rest) cur true 0 false)
        with (parse_args (escape arg ++ QUOTE :: rest) ((cur ++ []) ++ [QUOTE]) true 0 false).
      rw IH //. f_equal. by rw app_nil_r -(assoc_L (++)).
    + intros Ha. cbn [app]. fold (escape arg). destruct (Z.eqb_spec c BACKSLASH) as [->|Hb].
      * change (parse_args (BACKSLASH :: escape arg ++ QUOTE :: rest) cur true n false)
          with (parse_args (escape arg ++ QUOTE :: rest) cur true (S n) false).
        rw IH // replicate_S_end -!(assoc_L (++)) //.
      * cbn [parse_args]. rw (proj2 (Z.eqb_neq _ _) Hb) (proj2 (Z.eqb_neq _ _) Hq). rw andb_false_r IH //.
        f_equal. by rw /= -!(assoc_L (++)).
Qed.

Lemma parse_close cur rest : parse_args (QUOTE :: SPACE :: rest) cur true 0 false = cur :: parse_args rest [] false 0 true.
Proof. cbn. by rw !app_nil_r. Qed.
Lemma parse_close_end cur : parse_args [QUOTE] cur true 0 false = [cur].
Proof. cbn. by rw !app_nil_r. Qed.

Lemma parse_one arg rest skip : plain_arg arg = true →
  parse_args (quote arg ++ SPACE :: rest) [] false 0 skip = arg :: parse_args rest [] false 0 true ∧
  parse_args (quote arg) [] false 0 skip = [arg].
Proof.
  intros Ha. unfold quote. split.
  - change (parse_args (([QUOTE] ++ escape arg ++ [QUOTE]) ++ SPACE :: rest) [] false 0 skip)
      with (parse_args ((escape arg ++ [QUOTE]) ++ SPACE :: rest) [] true 0 false).
    rw -(assoc_L (++)). cbn [app]. by rw parse_escaped // parse_close.
  - change (parse_args ([QUOTE] ++ escape arg ++ [QUOTE]) [] false 0 skip) with (parse_args (escape arg ++ [QUOTE]) [] true 0 false).
    by rw parse_escaped // parse_close_end.
Qed.

Lemma parse_rest args : Forall (λ a, plain_arg a = true) args → ∀ arg, plain_arg arg = true →
  parse_args (quote arg ++ flat_map (λ a, SPACE :: quote a) args) [] false 0 true = arg :: args.
Proof.
  induction 1 as [|a args Ha _ IH]; intros arg Harg; cbn [flat_map].
  - rw app_nil_r. by apply parse_one.
  - cbn [app]. rw (proj1 (parse_one arg _ true Harg)). by rw IH.
Qed.

Lemma parse_exe_quoted exe rest : Forall (λ c, c ≠ QUOTE) exe → ∀ cur,
  parse_exe (escape exe ++ QUOTE :: SPACE :: rest) cur true = (cur ++ exe, rest).
Proof.
  induction 1 as [|c exe Hc _ IH]; intros cur; cbn [escape flat_map app].
  - cbn. by rw app_nil_r.
  - rw (proj2 (Z.eqb_neq _ _) Hc). cbn [app]. fold (escape exe). cbn [parse_exe]. rw (proj2 (Z.eqb_neq _ _) Hc) andb_false_r IH.
    by rw -(assoc_L (++)).
Qed.

Lemma cmdline_reads exe args : Forall (λ c, c ≠ QUOTE) exe → args ≠ [] → Forall (λ a, plain_arg a = true) args →
  parse_cmdline (cmdline exe args) = exe :: args.
Proof.
  intros He Hne Ha. destruct args as [|arg args]; [done|]. apply Forall_cons in Ha as [Harg Ha].
  unfold parse_cmdline, cmdline, quote. cbn [flat_map app].
  assert (parse_exe (QUOTE :: (escape exe ++ [QUOTE]) ++ SPACE :: quote arg ++ flat_map (λ a, SPACE :: quote a) args) [] false
    = (exe, quote arg ++ flat_map (λ a, SPACE :: quote a) args)) as E.
  { rw -(assoc_L (++)). cbn [app]. exact (parse_exe_quoted exe _ He []). }
  unfold quote in E at 1. cbn [app] in E. rw E. f_equal. by apply parse_rest.
Qed.

(** The child gets the arguments it was meant to get: spaces, quotes and
    everything else survive the flat command line, as long as no argument ends
    in a backslash or has one before a quote. *)
Theorem cmdline_roundtrip exe args : Forall (λ c, c ≠ QUOTE) exe → args ≠ [] → Forall (λ a, plain_arg a = true) args →
  parse_cmdline (cmdline exe args) = exe :: args.
Proof. apply cmdline_reads. Qed.

Lemma cmdline_roundtrip_witness :
  parse_cmdline (cmdline (as_bytes "C:\alloyfs.exe") [as_bytes "mount"; as_bytes "C:\My Docs"; [QUOTE; 104; QUOTE]])
  = [as_bytes "C:\alloyfs.exe"; as_bytes "mount"; as_bytes "C:\My Docs"; [QUOTE; 104; QUOTE]].
Proof.
  apply (cmdline_roundtrip (as_bytes "C:\alloyfs.exe") [as_bytes "mount"; as_bytes "C:\My Docs"; [QUOTE; 104; QUOTE]]).
  - repeat (apply Forall_cons; split); [discriminate..|apply Forall_nil_2].
  - discriminate.
  - repeat (apply Forall_cons; split); [reflexivity..|apply Forall_nil_2].
Defined.

(** From the store to the process.  The command line launched for an instance
    whose arguments are plain is read back by the child as exactly that
    instance. *)
Theorem service_launches_instance exe i : Forall (λ c, c ≠ QUOTE) exe → Forall (λ a, plain_arg (as_bytes a) = true) (argv i) →
  match parse_cmdline (cmdline exe (as_bytes <$> argv i)) with
  | exe' :: args => exe' = exe ∧ ∃ texts, args = as_bytes <$> texts ∧ unargv texts = Some i
  | [] => False
  end.
Proof.
  intros He Ha. rw cmdline_reads //; [|by destruct i|by apply Forall_fmap].
  split; [done|]. exists (argv i). split; [done|]. apply unargv_argv.
Qed.

Definition stored_mount : Instance := Mount "tcp://h/x" "C:\mnt" ["node_modules"] [] None None false.

Lemma service_launches_instance_witness :
  match parse_cmdline (cmdline (as_bytes "alloyfs.exe") (as_bytes <$> argv stored_mount)) with
  | exe' :: args => exe' = as_bytes "alloyfs.exe" ∧ ∃ texts, args = as_bytes <$> texts ∧ unargv texts = Some stored_mount
  | [] => False
  end.
Proof.
  apply (service_launches_instance (as_bytes "alloyfs.exe") stored_mount);
    repeat (apply Forall_cons; split); first [discriminate | reflexivity | apply Forall_nil_2].
Defined.

(** A mount point that ends in a backslash swallows what follows it: the child
    is asked to mount somewhere else, without its flags. *)
Theorem trailing_backslash_merges_arguments :
  let i := Mount "tcp://h/x" "C:\mnt\" ["node_modules"] [] None None false in
  parse_cmdline (cmdline (as_bytes "alloyfs.exe") (as_bytes <$> argv i)) =
  [as_bytes "alloyfs.exe"; as_bytes "mount"; as_bytes "tcp://h/x"; as_bytes "C:\mnt" ++ [QUOTE] ++ as_bytes " --exclude node_modules"].
Proof. vm_compute. reflexivity. Qed.

(** ** Handles *)

(** The state a launch leaves: the same handles, with the child's among them
    when it was started. *)
Definition launched_from (line : list Z) (s : Handles) (out : result Z SpawnError * Handles) : Prop :=
  hd_blocks out.2 = hd_blocks s ∧
  match out.1 with
  | Ok h => h ∉ hd_open s ∧ hd_open out.2 = {[h]} ∪ hd_open s ∧ hd_launched out.2 = hd_launched s ++ [line]
  | Err _ => hd_open out.2 = hd_open s ∧ hd_launched out.2 = hd_launched s
  end.

#[local] Ltac handle_set :=
  apply set_eq; intros x;
  match goal with H : ∀ h, h ∈ _ → h < _ |- _ => generalize (H x) end;
  rw !(elem_of_difference, elem_of_union, elem_of_singleton); intuition lia.

(** A launch leaks nothing.  Whatever Windows refuses on the way, the tokens,
    the thread handle and the environment block are given back: after a
    failure the handles are those of before and nothing runs, after a launch
    the child's handle is the only new one. *)
Theorem spawn_leaks_nothing os exe args s : (∀ h, h ∈ hd_open s → h < hd_next s) →
  launched_from (cmdline exe args) s (spawn_in_console_session os exe args s).
Proof.
  intros Hlt. destruct os as [session [tok|e] linked dup env create], s as [open n blocks done]; cbn in Hlt.
  - unfold launched_from, spawn_in_console_session, console_user_token; cbn. case_bool_decide; [done|].
    destruct linked, dup, env, create; cbn; (split; [done|]); (split_and?; [..|done]);
      first [handle_set | intros Hin; apply Hlt in Hin; lia].
  - unfold launched_from, spawn_in_console_session, console_user_token; cbn. by repeat case_bool_decide.
Qed.

Definition logged_in : SpawnOs := mkSpawnOs 1 (Ok tt) true true true true.
Definition no_process : SpawnOs := mkSpawnOs 1 (Ok tt) true true true false.

Lemma spawn_leaks_nothing_witness :
  launched_from (cmdline (as_bytes "alloyfs") [as_bytes "serve"]) (mkHandles {[3]} 4 0 [])
    (spawn_in_console_session logged_in (as_bytes "alloyfs") [as_bytes "serve"] (mkHandles {[3]} 4 0 [])).
Proof. apply (spawn_leaks_nothing logged_in (as_bytes "alloyfs") [as_bytes "serve"] (mkHandles {[3]} 4 0 [])). set_solver by lia. Defined.

Example nobody_at_the_console :
  (spawn_in_console_session (mkSpawnOs U32_NONE (Ok tt) true true true true) [] [] (mkHandles ∅ 1 0 [])).1 = Err NoSession ∧
  (spawn_in_console_session (mkSpawnOs 1 (Err ERROR_NO_TOKEN) true true true true) [] [] (mkHandles ∅ 1 0 [])).1 = Err NoSession ∧
  (spawn_in_console_session no_process [] [] (mkHandles ∅ 1 0 [])).1 = Err (SpawnFailed "CreateProcessAsUserW").
Proof. done. Qed.

(** ** One instance *)

(** Nothing runs but the child the supervisor knows, and nothing once it has
    stopped. *)
Definition supervised (s : Supervisor) : Prop :=
  (∀ pid, pid ∈ su_live s → su_child s = Some pid) ∧ (su_stopped s = true → su_child s = None).

Lemma supervised_new now : supervised (supervisor_new now).
Proof. split; [set_solver|done]. Qed.

Lemma launch_supervised t s : su_stopped s = false → supervised s → supervised (launch t s) ∧ su_stopped (launch t s) = false.
Proof.
  intros Hns [Hlive _]. unfold launch. destruct (su_child s) eqn:Hc, (tn_spawn t); try (split; [split; [by rw Hc|by rw Hns]|done]).
  split; [split|done]; cbn; [|by rw Hns]. intros pid [->%elem_of_singleton|Hin]%elem_of_union; [done|]. by apply Hlive in Hin.
Qed.

Lemma kill_works child (live : gset Z) : (∀ pid, pid ∈ live → child = Some pid) → kill true child live = ∅.
Proof.
  intros Hlive. destruct child as [pid|]; cbn; apply set_eq; intros x; [|by split; [intros ?%Hlive|set_solver]].
  split; [|set_solver]. intros [Hx Hne]%elem_of_difference. apply Hlive in Hx as [= ->]. set_solver.
Qed.

Lemma supervise_turn_supervised t s : tn_kills t = true → supervised s → supervised (supervise_turn t s).
Proof.
  intros Hk Hs. unfold supervise_turn. destruct (su_stopped s) eqn:Hns; [done|].
  destruct (launch_supervised t s Hns Hs) as [[Hlive _] _].
  assert (∀ pid, pid ∈ su_live (launch t s) ∖ tn_exits t → su_child (launch t s) = Some pid) as Hleft by set_solver.
  destruct (tn_received t) as [[]| |]; rw ?Hk; [split; cbn; [rw kill_works //; set_solver|done]..|].
  destruct (su_child (launch t s)) as [pid|] eqn:Hc; [|split; cbn; [by intros x ?%Hleft|done]].
  case_bool_decide as Hin; split; cbn; try done. intros x Hx. generalize (Hleft x Hx). by intros [= ->].
Qed.

Lemma supervise_supervised turns : Forall (λ t, tn_kills t = true) turns → ∀ s, supervised s → supervised (supervise turns s).
Proof. induction 1 as [|t turns Ht _ IH]; intros s Hs; [done|]. apply IH. by apply supervise_turn_supervised. Qed.

Lemma supervise_stays_stopped turns s : su_stopped s = true → su_stopped (supervise turns s) = true.
Proof.
  revert s. induction turns as [|t turns IH]; intros s Hs; [done|]. apply IH. unfold supervise_turn. by rw Hs.
Qed.

Definition stops (t : Turn) : bool := match tn_received t with Got Stop | Disconnected => true | _ => false end.

Lemma supervise_stops turns s : existsb stops turns = true → su_stopped (supervise turns s) = true.
Proof.
  revert s. induction turns as [|t turns IH]; intros s Hs; [done|]. cbn [existsb] in Hs.
  destruct (stops t) eqn:Ht; [|by apply IH]. apply (supervise_stays_stopped turns). unfold supervise_turn, stops in *.
  destruct (su_stopped s) eqn:E; [done|]. revert Ht. by destruct (tn_received t) as [[]| |].
Qed.

(** C28.  One instance, and none after a stop.  Over any sequence of launches, exits,
    session changes and stops in which a process can be killed, at most one
    process of the instance runs, the one the supervisor holds; once a stop
    has been received the loop has ended and none does. *)
Theorem one_child_at_most now turns : Forall (λ t, tn_kills t = true) turns →
  let s := supervise turns (supervisor_new now) in
  (∀ pid, pid ∈ su_live s → su_child s = Some pid) ∧
  (existsb stops turns = true → su_stopped s = true ∧ su_live s = ∅).
Proof.
  intros Hk s. destruct (supervise_supervised turns Hk _ (supervised_new now)) as [Hlive Hstop]. fold s in Hlive, Hstop.
  split; [done|]. intros Hex%(supervise_stops turns (supervisor_new now)). fold s in Hex. split; [done|].
  apply set_eq. intros x. split; [|set_solver]. intros Hx%Hlive. by rw Hstop in Hx.
Qed.

(** A launch, a session change, a relaunch, a crash after 4 s (with 5 s of
    backing off), a relaunch, a stop. *)
Definition busy_day : list Turn :=
  [mkTurn (Ok 10) ∅ 5000 Timeout true; mkTurn (Ok 0) ∅ 100 (Got SessionChanged) true; mkTurn (Ok 11) {[11]} 4000 Timeout true;
   mkTurn (Ok 12) ∅ 5000 Timeout true; mkTurn (Ok 0) ∅ 200 (Got Stop) true].

Lemma one_child_at_most_witness :
  let s := supervise busy_day (supervisor_new 0) in
  su_now s = 19300 ∧ (∀ pid, pid ∈ su_live s → su_child s = Some pid) ∧
  (existsb stops busy_day = true → su_stopped s = true ∧ su_live s = ∅).
Proof.
  split; [reflexivity|]. apply (one_child_at_most 0 busy_day). repeat (apply Forall_cons; split; [reflexivity|]). apply Forall_nil_2.
Defined.

(** A child that cannot be opened for termination is forgotten all the same:
    the next turn launches a second one, and a stop reaches only that one. *)
Theorem unkilled_child_is_doubled :
  let turns := [mkTurn (Ok 10) ∅ 100 (Got SessionChanged) false; mkTurn (Ok 11) ∅ 5000 Timeout true] in
  su_live (supervise turns (supervisor_new 0)) = {[10; 11]} ∧
  su_live (supervise (turns ++ [mkTurn (Ok 0) ∅ 100 (Got Stop) true]) (supervisor_new 0)) = {[10]}.
Proof. split; vm_compute; reflexivity. Qed.
