(* ===== verification/Commands.v ===== *)
(** * Commands: the rest of the command line

    alloyfs-cli: what [alloyfs service add] makes of its arguments (main.rs),
    [init] (commands/init.rs), [update] (commands/update.rs), the driver a
    mount runs under and how it ends (commands/mount.rs), the set-up of a sync
    (commands/sync.rs), the measurements and the tail of events
    (commands/diag.rs).  clap's parsing
    is an argument: [AddArgs] is what it hands over, [add_args_accepted] the
    constraints its attributes declare.

    No flag given to [service add] is dropped; [init] writes a configuration
    that names the directory it was run for, and never over an existing file
    unless told to; [bench] reads every byte of a file once.  The last theorems
    are a directory that [init] exports under another name, and a version that
    [update] hands to the shell as a command. *)

From S2P Require Import Prelude Messages Common Exclude Inode ReadAhead AutoCache Fs Agent AgentFacts Transport Overlay Disk Sync RemoteFs Fanout Cli Service.

(** ** service add *)

Record AddArgs : Type := mkAddArgs {
  ad_id : string; ad_url : option string; ad_mount : option string; ad_config : option string; ad_tcp : option string;
  ad_excludes : list string; ad_pins : list string; ad_auto_cache_max : option string; ad_auto_cache_budget : option string;
  ad_detect_conflicts : bool; ad_start : bool
}.

(** [conflicts_with] and [requires], as declared on the arguments. *)
Definition add_args_accepted (a : AddArgs) : bool :=
  let given {A} (o : option A) := bool_decide (is_Some o) in
  let url := given (ad_url a) in
  negb (url && given (ad_config a)) && negb (given (ad_config a) && given (ad_mount a)) && negb (url && given (ad_tcp a)) &&
  (url || negb (given (ad_mount a))) && (url || bool_decide (ad_excludes a = [])) && (url || bool_decide (ad_pins a = [])) &&
  (url || negb (given (ad_auto_cache_max a))) && (url || negb (given (ad_auto_cache_budget a))) && (url || negb (ad_detect_conflicts a)).

Inductive AddError : Type := UrlNeedsMount | NothingToRun.

Definition instance_of (a : AddArgs) : result Instance AddError :=
  match ad_url a, ad_config a, ad_tcp a with
  | Some url, _, _ =>
      let? mountpoint := ok_or (ad_mount a) UrlNeedsMount in
      Ok (Mount url mountpoint (ad_excludes a) (ad_pins a) (ad_auto_cache_max a) (ad_auto_cache_budget a) (ad_detect_conflicts a))
  | None, Some c, tcp => Ok (AgentInstance (Some c) tcp)
  | None, None, Some t => Ok (AgentInstance None (Some t))
  | None, None, None => Err NothingToRun
  end.

Inductive ServiceCmd : Type :=
| CmdSetup | CmdAdd (a : AddArgs) | CmdRemove (id : string) | CmdStart (id : option string) | CmdStop (id : option string)
| CmdRestart (id : option string) | CmdList | CmdReset (confirm : bool) | CmdRun (id : string).

(** What is run: a command of the store and the manager, the table, or the
    supervisor. *)
Inductive ServiceRun : Type := RunCommand (c : SvcCommand) | RunList | RunSupervisor (id : string).

Definition service_dispatch (cmd : ServiceCmd) : result ServiceRun AddError :=
  match cmd with
  | CmdSetup => Ok (RunCommand Setup)
  | CmdAdd a => let? i := instance_of a in Ok (RunCommand (Add (ad_id a) i (ad_start a)))
  | CmdRemove id => Ok (RunCommand (Remove id))
  | CmdStart id => Ok (RunCommand (Control "start" id))
  | CmdStop id => Ok (RunCommand (Control "stop" id))
  | CmdRestart id => Ok (RunCommand (Control "restart" id))
  | CmdList => Ok RunList
  | CmdReset confirm => Ok (RunCommand (Reset confirm))
  | CmdRun id => Ok (RunSupervisor id)
  end.

(** ** The other commands, as clap hands them over *)

Inductive Backend : Type := BackendFuse | BackendKernel.

Inductive Command : Type :=
| CServe (tcp : option string) (stdio : bool) (config : option string) (exports : list string)
| CMount (url mountpoint remote_cmd : string) (config : option string) (excludes pins : list string)
    (auto_cache_max auto_cache_budget : option string) (data_dir : option (list string)) (no_server_defaults detect_conflicts : bool)
    (token : option string) (backend : Backend)
| CSync (url : string) (dir : list string) (remote_cmd : string) (excludes : list string) (debounce_ms : Z) (conflict_policy : string)
    (data_dir : option (list string)) (token : option string) (one_shot : bool)
| CService (cmd : ServiceCmd)
| CCacheClear (target : option string) (all : bool) (data_dir : option (list string))
| CEvents (url : string) (since : option Z) (remote_cmd : string) (token : option string)
| CPing (url : string) (count : Z) (token : option string)
| CStress (url : string) (count : Z) (token : option string)
| CBench (url path : string) (depth : Z) (remote_cmd : string) (token : option string)
| CInit (dir : option (list string)) (name : option string) (global force : bool)
| CUpdate (channel : option string) (dry_run : bool).

(** Who a command connects to, if it does: the url, the remote command of an
    ssh url, the name it gives itself and the token of its flags.  [user] is
    [whoami()]. *)
Definition connects_as (user : string) (c : Command) : option (string * string * string * option string) :=
  match c with
  | CMount url _ remote_cmd _ _ _ _ _ _ _ _ token _ => Some (url, remote_cmd, user, token)
  | CSync url _ remote_cmd _ _ _ _ token _ => Some (url, remote_cmd, user, token)
  | CEvents url _ remote_cmd token => Some (url, remote_cmd, user, token)
  | CPing url _ token => Some (url, "alloyfs", "ping", token)
  | CStress url _ token => Some (url, "alloyfs", "stress", token)
  | CBench url _ _ remote_cmd token => Some (url, remote_cmd, "bench", token)
  | CServe _ _ _ _ | CService _ | CCacheClear _ _ _ | CInit _ _ _ _ | CUpdate _ _ => None
  end.

(** The flags of a mount, as [mount::run] takes them. *)
Definition mount_flags (c : Command) : option MountFlags :=
  match c with
  | CMount _ _ _ _ excludes pins cmax budget data_dir nsd detect token _ =>
      Some (mkMountFlags excludes pins cmax budget data_dir nsd detect token)
  | _ => None
  end.

(** ** What service add says *)

(** The arguments an instance says. *)
Definition args_of (id : string) (start : bool) (i : Instance) : AddArgs :=
  match i with
  | Mount url mountpoint exclude pin cache_max cache_budget detect =>
      mkAddArgs id (Some url) (Some mountpoint) None None exclude pin cache_max cache_budget detect start
  | AgentInstance config tcp => mkAddArgs id None None config tcp [] [] None None false start
  end.

(** [service add] drops nothing.  When the arguments meet the constraints declared
    on them, the instance made of them says every one of them; it is refused
    only when a mount point is missing or when neither a mount nor an agent was
    asked for. *)
Theorem add_args_lose_nothing a : add_args_accepted a = true →
  match instance_of a with
  | Ok i => args_of (ad_id a) (ad_start a) i = a
  | Err UrlNeedsMount => is_Some (ad_url a) ∧ ad_mount a = None
  | Err NothingToRun => ad_url a = None ∧ ad_config a = None ∧ ad_tcp a = None
  end.
Proof.
  destruct a as [id [url|] [mount|] [config|] [tcp|] excludes pins cmax budget detect start]; unfold add_args_accepted, instance_of; cbn;
    rw ?andb_false_r ?orb_true_r //=; try (by intros; split_and?; eauto).
  all: rw !andb_true_iff; repeat case_bool_decide; destruct cmax, budget, detect; naive_solver.
Qed.

Lemma add_args_lose_nothing_witness :
  let a := mkAddArgs "work" (Some "ssh://h/x") (Some "P:") None None ["node_modules"] [] (Some "2M") None true false in
  match instance_of a with Ok i => args_of "work" false i = a | Err _ => False end.
Proof.
  apply (add_args_lose_nothing (mkAddArgs "work" (Some "ssh://h/x") (Some "P:") None None ["node_modules"] [] (Some "2M") None true false)). reflexivity.
Defined.

(** ** init *)

Definition name_byte (b : Z) : bool := is_ascii_alphabetic b || is_ascii_digit b || (b =? 45) || (b =? 95).

(** Every character that is not kept becomes one '-'. *)
Fixpoint clean_name (s : string) : string :=
  match s with
  | EmptyString => ""
  | String a s =>
      if name_byte (byte_of a) then String a (clean_name s)
      else if continuation (byte_of a) then clean_name s
      else String "-" (clean_name s)
  end.

(** [trim_matches('-')]. *)
Fixpoint trim_start_dashes (s : string) : string :=
  match s with String a s' => if decide (a = "-"%char) then trim_start_dashes s' else s | EmptyString => "" end.
Fixpoint trim_end_dashes (s : string) : string :=
  match s with
  | EmptyString => ""
  | String a s => let s := trim_end_dashes s in if bool_decide (a = "-"%char) && str_is_empty s then "" else String a s
  end.

Section Init.
Context (lower : string → string) (env : Env) (ce : CliEnv).
#[local] Abbreviation DiskM := (M Fs IoErrorKind).

Definition export_name_for (dir : list string) : string :=
  let raw := lower (default "export" (last dir ≫= to_str)) in
  let trimmed := trim_end_dashes (trim_start_dashes (clean_name raw)) in
  if str_is_empty trimmed then "export" else trimmed.

(** [path.display()] of an absolute path. *)
Definition path_text (p : list string) : string := "/" +:+ join_with slash p.

Fixpoint forward (s : string) : string :=
  match s with EmptyString => "" | String a s => String (if decide (a = backslash) then slash else a) (forward s) end.

Definition config_path (s : string) : string :=
  let s := match strip_prefix "\\?\" s with
           | Some rest => if starts_with "UNC\" rest then s else rest
           | None => s
           end in
  forward s.

Definition DQUOTE : string := String (ascii_of_nat 34) "".
Definition quoted (s : string) : string := DQUOTE +:+ s +:+ DQUOTE.
Definition NEWLINE : string := String (ascii_of_nat 10) "".

(** The lines of the file that are not comments. *)
Definition render (name path : string) : list string :=
  ["agent:";
   "  tcp_listen: " +:+ quoted "127.0.0.1:7440";
   "exports:";
   "  " +:+ name +:+ ":";
   "    path: " +:+ quoted (config_path path);
   "    read_only: false";
   "    exclude:";
   "      - " +:+ quoted "**/.git";
   "    client:";
   "      exclude:";
   "        - node_modules";
   "        - target";
   "      auto_cache_max: 2M"].
Definition rendered (name path : string) : list Z := as_bytes (String.concat "" ((λ l, l +:+ NEWLINE) <$> render name path)).

Inductive InitError : Type := CannotResolve (e : IoErrorKind) | NotADirectory_ | ConfigExists (target : list string) | InitIo (e : IoErrorKind) | NoCwd.
Definition init_io {A} (f : IoErrorKind → InitError) (m : DiskM A) : M Fs InitError A := λ fs, let '(r, fs) := m fs in (map_err f r, fs).

Definition init (dir : option (list string)) (name : option string) (global force : bool) : M Fs InitError (list string) :=
  let! dir := slift (match dir with Some d => Ok d | None => ok_or (ce_cwd ce) NoCwd end) in
  let! dir := init_io CannotResolve (canonicalize env dir) in
  let! d := init_io InitIo (is_dir env dir) in
  if negb d then sfail NotADirectory_
  else
    let name := match name with Some n => n | None => export_name_for dir end in
    let! target := (if global then let! app := init_io InitIo (app_dir env ce) in sret (app ++ ["config.yml"])
                    else let! cwd := slift (ok_or (ce_cwd ce) NoCwd) in sret (cwd ++ ["alloyfs.yml"])) in
    let! there := init_io InitIo (path_exists env target) in
    if there && negb force then sfail (ConfigExists target)
    else
      run! init_io InitIo (fs_write env target (rendered name (path_text dir))) in
      sret target.
End Init.

(** ** update *)

Definition BASE : string := "https://alloy.okyle.dev".

Definition update_version (channel : option string) : result (option string) string :=
  match channel with
  | None => Ok None
  | Some c =>
      if bool_decide (c = "stable") || bool_decide (c = "latest") then Ok None
      else if starts_with "v" c then Ok (Some c) else Err c
  end.

Definition installer_command_unix (version : option string) : string * list string :=
  let set := match version with Some v => "ALLOYFS_VERSION=" +:+ v +:+ " " | None => "" end in
  ("sh", ["-c"; set +:+ "curl -fsSL " +:+ BASE +:+ "/install.sh | " +:+ set +:+ "sh"]).
Definition installer_command_windows (version : option string) : string * list string :=
  let set := match version with Some v => "$env:ALLOYFS_VERSION='" +:+ v +:+ "'; " | None => "" end in
  ("powershell", ["-NoProfile"; "-ExecutionPolicy"; "Bypass"; "-Command"; set +:+ "irm " +:+ BASE +:+ "/install.ps1 | iex"]).

Inductive UpdateError : Type := UnknownChannel (c : string) | CannotRun | InstallerFailed.

(** [update]: [status] is how the program it runs ends ([None]: it cannot be run). *)
Definition update (command : option string → string * list string) (status : string * list string → option bool)
    (channel : option string) (dry_run : bool) : result unit UpdateError :=
  let? version := map_err UnknownChannel (update_version channel) in
  if dry_run then Ok tt
  else match status (command version) with
       | None => Err CannotRun
       | Some ok => if ok : bool then Ok tt else Err InstallerFailed
       end.

(** ** The driver of a mount *)

Inductive Os : Type := Linux | OtherUnix | Windows.
Inductive MountFault : Type := KernelIsLinuxOnly | NoKernelDevice | PumpFailed | DriverFailed.

(** A run of a mount: whether its device is there, the driver comes up, the
    event pump starts, and how the driver ends (or the wait for Ctrl-C). *)
Record MountRun : Type := mkMountRun { mr_device : bool; mr_ready : bool; mr_pump : bool; mr_driver : bool }.

(** The outcome, and whether [fs.shutdown()] saved the cache's manifest. *)
Definition mount_fuse (r : MountRun) : result unit MountFault * bool :=
  if mr_ready r && negb (mr_pump r) then (Err PumpFailed, false)
  else if mr_driver r then (Ok tt, true) else (Err DriverFailed, false).
Definition mount_kernel (r : MountRun) : result unit MountFault * bool :=
  if negb (mr_device r) then (Err NoKernelDevice, false)
  else if mr_ready r && negb (mr_pump r) then (Err PumpFailed, false)
  else if mr_driver r then (Ok tt, true) else (Err DriverFailed, false).
Definition mount_winfsp (r : MountRun) : result unit MountFault * bool :=
  if negb (mr_ready r) then (Err DriverFailed, false)
  else if negb (mr_pump r) then (Err PumpFailed, false)
  else if mr_driver r then (Ok tt, true) else (Err DriverFailed, false).

Definition mount_platform (os : Os) (backend : Backend) (r : MountRun) : result unit MountFault * bool :=
  match os, backend with
  | Windows, BackendFuse => mount_winfsp r
  | (Linux | OtherUnix), BackendFuse => mount_fuse r
  | Linux, BackendKernel => mount_kernel r
  | (OtherUnix | Windows), BackendKernel => (Err KernelIsLinuxOnly, false)
  end.

(** ** sync *)

Record SyncOptions : Type := mkSyncOptions {
  so_excludes : list string; so_data_dir : list string; so_sync_key : string; so_debounce : Z; so_policy : ConflictPolicy; so_one_shot : bool
}.
Inductive SyncSetupError : Type := BadPolicy (s : string) | SyncNoExport | SyncIo (e : IoErrorKind).

(** [run] up to [SyncEngine::start], once the connection stands; a directory
    that cannot be resolved is taken as it was given. *)
Definition sync_options (lower : string → string) (env : Env) (ce : CliEnv) (url : string) (dir : list string) (excludes : list string)
    (debounce_ms : Z) (policy : string) (data_dir : option (list string)) (one_shot : bool) (export : option string) :
    M Fs SyncSetupError SyncOptions :=
  let! policy := slift (ok_or (policy_of_str policy) (BadPolicy policy)) in
  let! export := slift (ok_or (require_export export) SyncNoExport) in
  let host := host_key lower url in
  let io {A} (m : M Fs IoErrorKind A) : M Fs SyncSetupError A := λ fs, let '(r, fs) := m fs in (map_err SyncIo r, fs) in
  let! data := (match data_dir with
                | Some root => sret (root ++ ["data"; host])
                | None => io (data_root env ce host)
                end) in
  let! canon := io (stry (canonicalize env dir)) in
  let canon := match canon with Ok p => p | Err _ => dir end in
  sret (mkSyncOptions excludes data (sync_key lower export (path_text canon)) debounce_ms policy one_shot).

(** ** Measurements *)

Definition bench_chunks (size : Z) : list (Z * Z) :=
  (λ k, (k * DATA_CHUNK, Z.min (size - k * DATA_CHUNK) DATA_CHUNK)) <$> seqZ 0 ((size + DATA_CHUNK - 1) / DATA_CHUNK).

Inductive BenchError : Type := BenchNet (e : TransportError) | BenchRefused (e : ErrorCode) | Unexpected (r : Response) | NothingToMeasure.

Section Measure.
Context {N : Type} `{NET : Net N}.
Context (conn : Conn).

(** [conn.request(rq).await??]. *)
Definition ask (rq : Request) : M N BenchError Response := λ n,
  match net_request conn rq n with
  | (Err e, n) => (Err (BenchNet e), n)
  | (Ok (Err e), n) => (Err (BenchRefused e), n)
  | (Ok (Ok r), n) => (Ok r, n)
  end.

(** The reads, answered in some order: only their sizes are added up. *)
Fixpoint bench_reads (fh : Z) (chunks : list (Z * Z)) (bytes : Z) : M N BenchError Z :=
  match chunks with
  | [] => sret bytes
  | (offset, len) :: chunks =>
      let! r := ask (RqRead fh offset len) in
      match r with
      | RsData data => bench_reads fh chunks (bytes + blen data)
      | other => sfail (Unexpected other)
      end
  end.

(** The bytes read and the number of chunks. *)
Definition bench (export path : string) : M N BenchError (Z * Z) :=
  let! r := ask (RqAttach export) in
  match r with
  | RsAttachOk _ _ =>
      let! r := ask (RqOpen path (mkOpenFlags true false false false false)) in
      match r with
      | RsOpened fh attr =>
          let size := a_size attr in
          if negb (0 <? size) then sfail NothingToMeasure
          else
            let chunks := bench_chunks size in
            let! bytes := bench_reads fh chunks 0 in
            run! stry (ask (RqRelease fh)) in
            sret (bytes, Z.of_nat (length chunks))
      | other => sfail (Unexpected other)
      end
  | other => sfail (Unexpected other)
  end.

(** [stress]: [count] requests, every one of which must answer. *)
Fixpoint stress (count : nat) (ok : Z) : M N BenchError Z :=
  match count with
  | O => sret ok
  | S count =>
      let! r := ask RqStatfs in
      match r with RsStatfs _ _ _ => stress count (ok + 1) | other => sfail (Unexpected other) end
  end.
End Measure.

(** [ping]: one after the other, numbered from [i]; what is printed, and the
    failure that ends the command. *)
Fixpoint ping_loop (i : Z) (pings : list (result Z TransportError)) : list (Z * Z) * option TransportError :=
  match pings with
  | [] => ([], None)
  | Ok rtt :: pings => let '(lines, e) := ping_loop (i + 1) pings in ((i, rtt) :: lines, e)
  | Err e :: _ => ([], Some e)
  end.
Definition ping (pings : list (result Z TransportError)) : list (Z * Z) * option TransportError := ping_loop 1 pings.

(** [events]: one line of JSON per event; a lag is only logged, an event that
    cannot be written ends the command.  It does not end with the connection,
    which it holds itself. *)
Fixpoint print_events (to_json : FsEvent → option string) (batch : list FsEvent) : list string * bool :=
  match batch with
  | [] => ([], true)
  | ev :: batch =>
      match to_json ev with
      | None => ([], false)
      | Some line => let '(lines, ok) := print_events to_json batch in (line :: lines, ok)
      end
  end.
Fixpoint events (to_json : FsEvent → option string) (got : list Received) : list string * bool :=
  match got with
  | [] => ([], true)
  | Lagged :: got => events to_json got
  | Batch batch :: got =>
      let '(lines, ok) := print_events to_json batch in
      if ok then let '(rest, ok) := events to_json got in (lines ++ rest, ok) else (lines, false)
  end.

(** The tail prints every event its receiver was handed, in order. *)
Theorem events_prints_all (json : FsEvent → string) got : events (λ ev, Some (json ev)) got = (json <$> handed got, true).
Proof.
  assert (∀ b, print_events (λ ev, Some (json ev)) b = (json <$> b, true)) as Hb.
  { induction b as [|ev b IH]; [done|]. cbn [print_events fmap list_fmap]. by rw IH. }
  induction got as [|[b|] got IH]; [done| |done]. cbn [events]. rw Hb IH -fmap_app //.
Qed.

(** ** What init writes *)

Definition name_ok (s : string) : Prop := forallb name_byte (as_bytes s) = true.

Lemma as_bytes_cons a s : as_bytes (String a s) = byte_of a :: as_bytes s.
Proof. done. Qed.

Lemma clean_name_ok s : name_ok (clean_name s).
Proof.
  induction s as [|a s IH]; [done|]. cbn [clean_name]. destruct (name_byte (byte_of a)) eqn:Ha.
  - unfold name_ok. rw as_bytes_cons. cbn [forallb]. by rw Ha.
  - destruct (continuation _); [done|]. unfold name_ok. by rw as_bytes_cons.
Qed.
Lemma trim_start_ok s : name_ok s → name_ok (trim_start_dashes s).
Proof.
  induction s as [|a s IH]; [done|]. cbn [trim_start_dashes]. destruct (decide _); [|done]. intros [_ H]%andb_prop. by apply IH.
Qed.
Lemma trim_end_ok s : name_ok s → name_ok (trim_end_dashes s).
Proof.
  induction s as [|a s IH]; [done|]. cbn [trim_end_dashes]. intros [Ha H]%andb_prop. destruct (_ && _); [done|].
  unfold name_ok. rw as_bytes_cons. cbn [forallb]. apply andb_true_intro. split; [exact Ha|by apply IH].
Qed.

Lemma name_without c s : name_byte (byte_of c) = false → name_ok s → contains_char c s = false.
Proof. apply bytes_without. Qed.

(** The export [init] names is one plain component, whatever the directory is
    called: it can stand in a url and below ~/.alloyfs. *)
Theorem export_name_is_plain lower dir : good_component (export_name_for lower dir) ∧ name_ok (export_name_for lower dir).
Proof.
  assert (name_ok (export_name_for lower dir) ∧ export_name_for lower dir ≠ "") as [Hn Hne].
  { unfold export_name_for. set (t := trim_end_dashes _). assert (name_ok t) as Ht by (by apply trim_end_ok, trim_start_ok, clean_name_ok).
    destruct t as [|a t]; [done|]. done. }
  split; [|done]. split_and!; [done| | |by apply name_without|by apply name_without]; intros E; by rw E in Hn.
Qed.

Lemma forward_id s : contains_char backslash s = false → forward s = s.
Proof.
  induction s as [|a s IH]; [done|]. cbn [contains_char forward]. intros [Ha%bool_decide_eq_false Hs]%orb_false_iff.
  rw IH //. by destruct (decide (a = backslash)).
Qed.

Lemma contains_join c l : c ≠ slash → Forall (λ s, contains_char c s = false) l → contains_char c (join_with slash l) = false.
Proof.
  intros Hc. induction 1 as [|s l Hs _ IH]; [done|]. destruct (decide (l = [])) as [->|Hne]; [done|].
  rw join_cons // contains_char_app Hs. cbn [contains_char orb]. rw bool_decide_false //.
Qed.

Lemma filter_keeps {A} (P : A → Prop) `{!∀ x, Decision (P x)} l : Forall P l → base.filter P l = l.
Proof. induction 1 as [|x l Hx _ IH]; [done|]. by rw filter_cons_True // IH. Qed.

(** [init] exports the directory it was run for: the path it writes into the
    configuration is read back by [serve] as exactly that directory, whatever
    its components are called, as long as none has a backslash. *)
Theorem init_names_the_directory ce dir : Forall good_component dir → path_buf ce (config_path (path_text dir)) = dir.
Proof.
  intros Hg. assert (contains_char backslash (path_text dir) = false) as Hb.
  { unfold path_text. rw contains_char_app. apply contains_join; [done|].
    eapply Forall_impl; [exact Hg|]. by intros c (_ & _ & _ & _ & H). }
  unfold config_path. change (strip_prefix "\\?\" (path_text dir)) with (@None string). rw forward_id //.
  unfold path_buf. change (starts_with "/" (path_text dir)) with true. cbn [app].
  unfold path_text. change ("/" +:+ join_with slash dir) with (String slash (join_with slash dir)). rw split_on_sep.
  rw filter_cons_False; [|by intros H]. destruct (decide (dir = [])) as [->|Hne]; [done|]. rw split_join //.
  - apply filter_keeps. eapply Forall_impl; [exact Hg|]. by intros c (H & _).
  - eapply Forall_impl; [exact Hg|]. by intros c (_ & _ & _ & H & _).
Qed.

Lemma init_names_the_directory_witness :
  let ce := mkCliEnv None None None None in
  path_buf ce (config_path (path_text ["home"; "you"; "My Docs"])) = ["home"; "you"; "My Docs"].
Proof. apply (init_names_the_directory (mkCliEnv None None None None) ["home"; "you"; "My Docs"]). apply (bool_decide_unpack _). vm_compute. exact I. Defined.

(** A directory with a backslash in its name, as Unix allows, is written with a
    slash: what is served is another directory. *)
Theorem init_exports_another_directory ce : path_buf ce (config_path (path_text ["srv"; "a\b"])) = ["srv"; "a"; "b"].
Proof. reflexivity. Qed.

Lemma init_io_keeps {A} f (m : M Fs IoErrorKind A) fs : keeps same m → init_io f m fs = (map_err f (m fs).1, fs).
Proof. intros Hm. unfold init_io. specialize (Hm fs). unfold same in Hm. destruct (m fs) as [r fs']. cbn in *. by subst. Qed.

(** Without [--global], [init] either fails and has written nothing, or has
    written the configuration of the resolved directory to ./alloyfs.yml; and
    when that file exists it fails, unless forced. *)
Theorem init_exact lower env ce dir name force fs cwd : ce_cwd ce = Some cwd →
  let target := cwd ++ ["alloyfs.yml"] in
  let '(r, fs') := init lower env ce dir name false force fs in
  ((path_exists env target fs).1 = Ok true → force = false → (∃ e, r = Err e) ∧ fs' = fs) ∧
  (fs' = fs ∧ (∃ e, r = Err e) ∨
   ∃ real, (canonicalize env (default cwd dir) fs).1 = Ok real ∧ (force = true ∨ (path_exists env target fs).1 = Ok false) ∧
     fs' = (fs_write env target (rendered (default (export_name_for lower real) name) (path_text real)) fs).2 ∧
     (r = Ok target ∨ ∃ e, r = Err e)).
Proof.
  intros Hcwd target. unfold init. rw Hcwd.
  assert (slift (E := InitError) (match dir with Some d => Ok d | None => ok_or (Some cwd) NoCwd end) fs = (Ok (default cwd dir), fs)) as E0
    by (by destruct dir).
  unfold sbind at 1. rw E0. unfold sbind at 1. rw init_io_keeps; [|apply keeps_canonicalize].
  destruct (canonicalize env (default cwd dir) fs) as [[real|e] ?] eqn:Ec; cbn [fst map_err]; [|split; [by eauto|left; by eauto]].
  unfold sbind at 1. rw init_io_keeps; [|intros fs0; apply is_dir_keeps].
  destruct (is_dir env real fs) as [[[]|e] ?]; cbn [fst map_err negb]; [|split; [by eauto|left; by eauto]..].
  unfold sbind at 1, sbind at 1. cbn [slift ok_or sret]. fold target. unfold sbind at 1. rw init_io_keeps; [|apply keeps_path_exists].
  destruct (path_exists env target fs) as [[there|e] ?]; cbn [fst map_err]; [|split; [by eauto|left; by eauto]].
  destruct (there && negb force) eqn:Hb.
  - split; [by eauto|]. left. split; [done|]. by eexists.
  - assert (force = true ∨ Ok there = Ok (E := IoErrorKind) false) as Hgo by (destruct there; [left; by destruct force|by right]).
    replace (match name with Some n => n | None => export_name_for lower real end)
      with (default (export_name_for lower real) name) by (by destruct name).
    unfold sbind, init_io. destruct (fs_write env target _ fs) as [[u|e] fs'] eqn:Ew; cbn [map_err sret].
    all: split; [intros [= ->] ->; done|]; right; exists real; rw Ew; (split_and!; [done|done|done|]); first [by left | right; by eexists].
Qed.

(** ** Measuring *)

Section Bench.
Context {N : Type} `{NET : Net N}.
Context (conn : Conn) (I : N → Prop) (fh : Z) (bs : list Z).
(** The server answers reads with the file's bytes. *)
Hypothesis reads : ∀ offset len n, I n → 0 ≤ offset → 0 ≤ len →
  ∃ n', net_request conn (RqRead fh offset len) n = (Ok (Ok (RsData (take (Z.to_nat len) (drop (Z.to_nat offset) bs)))), n') ∧ I n'.

Lemma bench_reads_from m : ∀ k n bytes, 0 ≤ k → I n → k + Z.of_nat m = (blen bs + DATA_CHUNK - 1) / DATA_CHUNK →
  ∃ n', bench_reads conn fh ((λ k, (k * DATA_CHUNK, Z.min (blen bs - k * DATA_CHUNK) DATA_CHUNK)) <$> seqZ k (Z.of_nat m)) bytes n
    = (Ok (bytes + Z.max 0 (blen bs - k * DATA_CHUNK)), n') ∧ I n'.
Proof using reads.
  assert (0 < DATA_CHUNK) as Hc by (unfold DATA_CHUNK; lia).
  induction m as [|m IH]; intros k n bytes Hk Hn Hend.
  - exists n. rw seqZ_nil; [|lia]. cbn [fmap list_fmap bench_reads]. split; [|done]. unfold sret. do 2 f_equal.
    pose proof (Z.mod_pos_bound (blen bs + DATA_CHUNK - 1) DATA_CHUNK Hc) as Hm.
    pose proof (Z.div_mod (blen bs + DATA_CHUNK - 1) DATA_CHUNK ltac:(lia)) as Hd. rw -Hend in Hd. lia.
  - rw Nat2Z.inj_succ seqZ_cons; [|lia]. rw Z.pred_succ. cbn [fmap list_fmap bench_reads].
    assert (k * DATA_CHUNK < blen bs) as Hlt.
    { pose proof (Z.mul_div_le (blen bs + DATA_CHUNK - 1) DATA_CHUNK Hc). nia. }
    destruct (reads (k * DATA_CHUNK) (Z.min (blen bs - k * DATA_CHUNK) DATA_CHUNK) n Hn) as (n1 & E1 & Hn1); [lia|lia|].
    unfold sbind, ask. rw E1. destruct (IH (Z.succ k) n1 (bytes + blen (take (Z.to_nat (Z.min (blen bs - k * DATA_CHUNK) DATA_CHUNK))
      (drop (Z.to_nat (k * DATA_CHUNK)) bs)))) as (n2 & E2 & Hn2); [lia|done|lia|]. rw E2. exists n2. split; [|done]. do 2 f_equal.
    unfold blen in *. rw length_take length_drop. lia.
Qed.

(** [bench] reads the whole file once: against a server that answers reads with
    the bytes of the file it opened, the bytes it counts are the file's length,
    in one chunk per started [DATA_CHUNK] bytes. *)
Theorem bench_reads_whole_file export path id root attr n n1 n2 : 0 < blen bs → a_size attr = blen bs → I n2 →
  ask conn (RqAttach export) n = (Ok (RsAttachOk id root), n1) →
  ask conn (RqOpen path (mkOpenFlags true false false false false)) n1 = (Ok (RsOpened fh attr), n2) →
  ∃ n3, bench conn export path n = (Ok (blen bs, (blen bs + DATA_CHUNK - 1) / DATA_CHUNK), n3).
Proof using reads.
  intros Hpos Hsize Hn2 Hattach Hopen. unfold bench. rw (sbind_eq _ _ _ _ _ Hattach) (sbind_eq _ _ _ _ _ Hopen) Hsize.
  rw (proj2 (Z.ltb_lt _ _) Hpos). cbn [negb].
  assert (0 ≤ (blen bs + DATA_CHUNK - 1) / DATA_CHUNK) as Hge by (apply Z.div_pos; unfold DATA_CHUNK; lia).
  destruct (bench_reads_from (Z.to_nat ((blen bs + DATA_CHUNK - 1) / DATA_CHUNK)) 0 n2 0) as (n3 & E3 & Hn3); [done|done|lia|].
  rw Z2Nat.id // in E3. fold (bench_chunks (blen bs)) in E3. rw (sbind_eq _ _ _ _ _ E3).
  unfold sbind, stry. destruct (ask conn (RqRelease fh) n3) as [r n4]. exists n4. unfold sret. do 2 f_equal.
  f_equal; [lia|]. unfold bench_chunks. rw length_fmap length_seqZ. lia.
Qed.
End Bench.

(** A server with one file of 300 KiB. *)
Module BigFile.
Definition bytes : list Z := replicate (300 * 1024) 7.
Definition serve (rq : Request) : Reply :=
  match rq with
  | RqAttach _ => Ok (Ok (RsAttachOk 1 (mkAttr KDir 0 0 0 0 0)))
  | RqOpen _ _ => Ok (Ok (RsOpened 1 (mkAttr KFile (blen bytes) 0 0 0 0)))
  | RqRead _ offset len => Ok (Ok (RsData (take (Z.to_nat len) (drop (Z.to_nat offset) bytes))))
  | RqStatfs => Ok (Ok (RsStatfs 1 1 1))
  | _ => Ok (Ok RsOk)
  end.
Definition net : Net unit := {|
  net_now _ := 0; net_conn _ := mkConn 1 4; net_swap _ n := n; net_closed _ _ := false;
  net_request _ rq n := (serve rq, n); net_keepalive _ rq n := (Some (serve rq), n)
|}.
End BigFile.

Lemma bench_reads_whole_file_witness : ∃ n, bench (NET := BigFile.net) (mkConn 1 4) "data" "big" tt = (Ok (307200, 3), n).
Proof.
  apply (bench_reads_whole_file (NET := BigFile.net) (mkConn 1 4) (λ _, True) 1 BigFile.bytes)
    with (id := 1) (root := mkAttr KDir 0 0 0 0 0) (attr := mkAttr KFile (blen BigFile.bytes) 0 0 0 0) (n1 := tt) (n2 := tt).
  - intros offset len n _ _ _. exists n. split; [reflexivity|exact Logic.I].
  - vm_compute. reflexivity.
  - reflexivity.
  - exact I.
  - reflexivity.
  - reflexivity.
Defined.

(** ** The shell *)

(** A version is anything that starts with v, and goes into the shell as it is:
    the first command is then the rest of it. *)
Theorem update_runs_its_argument :
  update_version (Some "v1;reboot;") = Ok (Some "v1;reboot;") ∧
  installer_command_unix (Some "v1;reboot;")
  = ("sh", ["-c"; "ALLOYFS_VERSION=v1;reboot; curl -fsSL https://alloy.okyle.dev/install.sh | ALLOYFS_VERSION=v1;reboot; sh"]).
Proof. split; reflexivity. Qed.

(** The manifest of the cache is saved exactly when the mount ends well; when
    the pump cannot be started the command fails at once, with the driver
    running. *)
Theorem manifest_saved_iff_ok os backend r : (mount_platform os backend r).2 = true ↔ (mount_platform os backend r).1 = Ok tt.
Proof. destruct os, backend, r as [[] [] [] []]; by cbn. Qed.
