(* ===== verification/KernelServer.v ===== *)
(** * KernelServer: serving the kernel module's requests

    [Server] of alloyfs-mount-kernel/src/server.rs -- one kernel request in,
    one response frame out -- over the client of RemoteFs, and the translation
    of server events into kernel notifications (notify.rs).  A handler is a
    function of the server's tables in a state and error monad whose errors
    are errnos; a request runs as one step.  The clock is the network's.  The
    theorems are in KernelFacts. *)

From S2P Require Import Prelude Text Messages Common Exclude Inode ReadAhead AutoCache KernelAbi Fs Agent Transport Overlay Symlink RemoteFs.

Definition HANDLE_CACHE_CAP : nat := 64.

(** [DIR_CACHE_TTL], in nanoseconds. *)
Definition DIR_CACHE_TTL : Z := 5 * 10^9.

Definition DOTS : Z := 2.

Definition nanos_since_epoch (t : SystemTime) : Z := if 0 <=? t then Z.min t U64_MAX else 0.

(** [std::str::from_utf8]. *)
Definition from_utf8 (bs : list Z) : option string :=
  if utf8_valid (text_of bs) then Some (text_of bs) else None.

Definition NUL : ascii := Ascii.zero.

Definition name_of (bs : list Z) : result string Z :=
  if bool_decide (bs = []) then Err EINVAL
  else if MAX_NAME <? blen bs then Err ENAMETOOLONG
  else
    let? name := ok_or (from_utf8 bs) EINVAL in
    if contains_char slash name || contains_char NUL name || bool_decide (name = ".") || bool_decide (name = "..")
    then Err EINVAL else Ok name.

(** ** State *)

Record Handle : Type := mkHandle { h_fh : Z; h_write : bool; h_used : Z; h_locked : bool }.

Record HandleCache : Type := mkHandleCache { hc_map : gmap Z Handle; hc_tick : Z }.

(** A listing: name, nodeid, is it a directory. *)
Abbreviation Listing := (list (string * Z * bool)) (only parsing).
Record DirListing : Type := mkDirListing { dl_at : Z; dl_entries : Listing }.

Record Server (N : Type) : Type := mkServer {
  sv_fs : Client N;
  sv_handles : HandleCache;
  sv_dirs : gmap Z DirListing;
  sv_kinds : gmap Z bool
}.
Arguments mkServer {N}. Arguments sv_fs {N}. Arguments sv_handles {N}. Arguments sv_dirs {N}. Arguments sv_kinds {N}.

(** What stops a handler: an errno, or what stopped the client. *)
Inductive Stopped : Type := Errno (e : Z) | Crashed | Sleeps.
#[global] Instance Stopped_eq_dec : EqDecision Stopped.
Proof. solve_decision. Defined.

(** [map_err(|e| errno_of(&e))]. *)
Definition errno_of (h : Halt) : Stopped :=
  match h with Failed e => Errno (posix_errno e) | Panicked => Crashed | Waits => Sleeps end.

(** *** The handle cache *)

(** [filter(|h| !h.locked).min_by_key(|h| h.used)]: the first of the least. *)
Definition lru_step (best : option (Z * Z)) (ih : Z * Handle) : option (Z * Z) :=
  if h_locked ih.2 then best
  else match best with
       | Some (id, used) => if h_used ih.2 <? used then Some (ih.1, h_used ih.2) else best
       | None => Some (ih.1, h_used ih.2)
       end.
Definition lru_victim (m : gmap Z Handle) : option Z := fst <$> foldl lru_step None (map_to_list m).

(** The eviction loop; every turn removes an entry, so the size is fuel
    enough. *)
Fixpoint evict_handles (fuel : nat) (m : gmap Z Handle) (stale : list Z) : gmap Z Handle * list Z :=
  match fuel with
  | O => (m, stale)
  | S fuel =>
      if bool_decide (size m ≤ HANDLE_CACHE_CAP)%nat then (m, stale)
      else match lru_victim m with
      | None => (m, stale)
      | Some victim =>
          match m !! victim with
          | Some h => evict_handles fuel (delete victim m) (stale ++ [h_fh h])
          | None => evict_handles fuel m stale
          end
      end
  end.

(** [install_handle]: the cache and the handles to release. *)
Definition install_in (hc : HandleCache) (nodeid fh : Z) (write : bool) : HandleCache * list Z :=
  let used := u64_add (hc_tick hc) 1 in
  let old := hc_map hc !! nodeid in
  let locked := match old with Some h => h_locked h | None => false end in
  let m := <[nodeid := mkHandle fh write used locked]> (hc_map hc) in
  let stale := match old with Some h => [h_fh h] | None => [] end in
  let '(m, stale) := evict_handles (size m) m stale in
  (mkHandleCache m used, stale).

Section Server.
Context {N : Type} `{NET : Net N}.
Context (env : Env) (upper : string → string) (renames_ok : list string → list string → bool).

Abbreviation Srv := (Server N).
Abbreviation ServerM := (M (Server N) Stopped).

Definition set_fs (c : Client N) (s : Srv) : Srv := mkServer c (sv_handles s) (sv_dirs s) (sv_kinds s).
Definition set_handles (h : HandleCache) (s : Srv) : Srv := mkServer (sv_fs s) h (sv_dirs s) (sv_kinds s).
Definition set_dirs (d : gmap Z DirListing) (s : Srv) : Srv := mkServer (sv_fs s) (sv_handles s) d (sv_kinds s).
Definition set_kinds (k : gmap Z bool) (s : Srv) : Srv := mkServer (sv_fs s) (sv_handles s) (sv_dirs s) k.

Definition server_new (c : Client N) : Srv := mkServer c (mkHandleCache ∅ 0) ∅ ∅.

(** A call of the client. *)
Definition fs_do {A} (m : M (Client N) Halt A) : ServerM A := λ s,
  let '(r, c) := m (sv_fs s) in (map_err errno_of r, set_fs c s).

Definition refuse {A} (e : Z) : ServerM A := sfail (Errno e).
Definition name (bs : list Z) : ServerM string := slift (map_err Errno (name_of bs)).

(** [parse_*(payload).ok_or(EINVAL)?]: the outer [None] is a panic. *)
Definition parsed {A} (o : option (option A)) : ServerM A :=
  match o with
  | Some (Some a) => sret a
  | Some None => refuse EINVAL
  | None => sfail Crashed
  end.

Definition record_kind (nodeid : Z) (isdir : bool) : ServerM unit :=
  smod (λ s, set_kinds (<[nodeid := isdir]> (sv_kinds s)) s).

Definition is_dir_attr (a : Attr) : bool := bool_decide (a_kind a = KDir).

Definition kernel_attr (nodeid : Z) (a : Attr) : ServerM KernelAttr :=
  let isdir := is_dir_attr a in
  run! record_kind nodeid isdir in
  let bits := Z.land (a_mode a) 4095 in
  let perm := if bool_decide (bits = 0) then (if isdir then 493 else 420) else bits in
  let kind_bits := match a_kind a with KDir => S_IFDIR | KSymlink => S_IFLNK | KFile => S_IFREG end in
  sret (mkKernelAttr nodeid (a_size a) (nanos_since_epoch (a_mtime a)) (Z.lor kind_bits perm) (if isdir then 2 else 1)).

(** [Ok(self.kernel_attr(ino, &attr).to_bytes())]. *)
Definition attr_reply (nodeid : Z) (a : Attr) : ServerM (list Z) :=
  let! ka := kernel_attr nodeid a in
  sret (attr_to_bytes ka).

Definition op_lookup (parent : Z) (payload : list Z) : ServerM (list Z) :=
  let! nm := name payload in
  let! '(ino, a) := fs_do (lookup env parent nm) in
  attr_reply ino a.

Definition op_getattr (nodeid : Z) : ServerM (list Z) :=
  let! a := fs_do (getattr env nodeid) in
  attr_reply nodeid a.

(** ** Listings *)

Definition clock (s : Srv) : Z := net_now (cl_net (sv_fs s)).

Fixpoint record_kinds (listing : list (string * Z * Attr)) : ServerM Listing :=
  match listing with
  | [] => sret []
  | (nm, ino, a) :: listing =>
      run! record_kind ino (is_dir_attr a) in
      let! rest := record_kinds listing in
      sret ((nm, ino, is_dir_attr a) :: rest)
  end.

(** The listing a continuation may reuse. *)
Definition cached_listing (s : Srv) (nodeid offset : Z) : option Listing :=
  if DOTS <? offset then
    match sv_dirs s !! nodeid with
    | Some hit => if Z.max 0 (clock s - dl_at hit) <? DIR_CACHE_TTL then Some (dl_entries hit) else None
    | None => None
    end
  else None.

Definition dir_entries (fuel : nat) (nodeid offset : Z) : ServerM Listing :=
  let! s := sget in
  match cached_listing s nodeid offset with
  | Some entries => sret entries
  | None =>
      let! listing := fs_do (readdir env fuel nodeid) in
      let! entries := record_kinds listing in
      run! smod (λ s, set_dirs (<[nodeid := mkDirListing (clock s) entries]> (sv_dirs s)) s) in
      sret entries
  end.

(** The loop over [entries.iter().enumerate().skip(first)]; [i] is the index
    of the head. *)
Fixpoint push_entries (limit : Z) (out : list Z) (i : nat) (entries : Listing) : result (list Z) Z :=
  match entries with
  | [] => Ok out
  | (nm, ino, isdir) :: entries =>
      let '(ok, out') := push_dirent out limit ino (Z.of_nat i + DOTS + 1) (if isdir : bool then DT_DIR else DT_REG) nm in
      if ok then push_entries limit out' (S i) entries
      else if bool_decide (out' = []) then Err EINVAL
      else Ok out'
  end.

Definition op_readdir (fuel : nat) (nodeid offset size : Z) : ServerM (list Z) :=
  let limit := Z.min size MAX_PAYLOAD in
  let! entries := dir_entries fuel nodeid offset in
  let first := Z.to_nat (saturating_sub offset DOTS) in
  slift (map_err Errno (push_entries limit [] first (drop first entries))).

(** ** Open handles *)

Fixpoint release_all (fhs : list Z) : ServerM unit :=
  match fhs with
  | [] => sret tt
  | fh :: fhs => run! fs_do (release fh) in release_all fhs
  end.

Definition install_handle (nodeid fh : Z) (write : bool) : ServerM (list Z) := λ s,
  let '(hc, stale) := install_in (sv_handles s) nodeid fh write in (Ok stale, set_handles hc s).

(** The first block of [handle_for]: a cached handle good enough. *)
Definition cached_handle (nodeid : Z) (want_write : bool) : ServerM (option Z) := λ s,
  let hc := sv_handles s in
  let tick := u64_add (hc_tick hc) 1 in
  match hc_map hc !! nodeid with
  | Some h =>
      if h_write h || negb want_write
      then (Ok (Some (h_fh h)),
            set_handles (mkHandleCache (<[nodeid := mkHandle (h_fh h) (h_write h) tick (h_locked h)]> (hc_map hc)) tick) s)
      else (Ok None, set_handles (mkHandleCache (hc_map hc) tick) s)
  | None => (Ok None, set_handles (mkHandleCache (hc_map hc) tick) s)
  end.

Definition handle_for (nodeid : Z) (want_write : bool) : ServerM Z :=
  let! hit := cached_handle nodeid want_write in
  match hit with
  | Some fh => sret fh
  | None =>
      let! '(fh, _) := fs_do (open env nodeid (mkOpenFlags true want_write false false false)) in
      let! stale := install_handle nodeid fh want_write in
      run! release_all stale in
      sret fh
  end.

Definition drop_handle (nodeid : Z) : ServerM unit :=
  let! s := sget in
  match hc_map (sv_handles s) !! nodeid with
  | Some h =>
      run! smod (λ s, set_handles (mkHandleCache (delete nodeid (hc_map (sv_handles s))) (hc_tick (sv_handles s))) s) in
      fs_do (release (h_fh h))
  | None => sret tt
  end.

Definition mark_locked (nodeid : Z) (locked : bool) : ServerM unit :=
  smod (λ s, set_handles (mkHandleCache
    (alter (λ h, mkHandle (h_fh h) (h_write h) (h_used h) locked) nodeid (hc_map (sv_handles s)))
    (hc_tick (sv_handles s))) s).

Definition refresh_handle (nodeid : Z) : ServerM unit :=
  let! s := sget in
  match hc_map (sv_handles s) !! nodeid with
  | Some h => fs_do (invalidate_read_cache (h_fh h))
  | None => sret tt
  end.

Definition close_handles : ServerM unit :=
  let! s := sget in
  run! smod (λ s, set_handles (mkHandleCache ∅ (hc_tick (sv_handles s))) s) in
  release_all (h_fh <$> (map_to_list (hc_map (sv_handles s))).*2).

(** ** Data *)

Definition op_read (nodeid offset size : Z) : ServerM (list Z) :=
  let size := Z.min size MAX_PAYLOAD in
  if bool_decide (size = 0) then sret []
  else
    let! fh := handle_for nodeid false in
    fs_do (read env fh offset size).

Definition op_write (fuel : nat) (nodeid offset : Z) (data : list Z) : ServerM (list Z) :=
  if bool_decide (data = []) then sret (KernelAbi.write_out 0)
  else
    let! fh := handle_for nodeid true in
    let! n := fs_do (write env fuel fh offset data) in
    run! fs_do (invalidate_attr nodeid) in
    sret (KernelAbi.write_out n).

(** ** Links *)

Definition forget_dir (nodeid : Z) : ServerM unit := smod (λ s, set_dirs (delete nodeid (sv_dirs s)) s).

Definition op_symlink (parent : Z) (payload : list Z) : ServerM (list Z) :=
  let! '(name_bytes, target_bytes) := parsed (parse_symlink_in payload) in
  let! nm := name name_bytes in
  let! target := slift (ok_or (from_utf8 target_bytes) (Errno EINVAL)) in
  if str_is_empty target || contains_char NUL target then refuse EINVAL
  else
    run! forget_dir parent in
    let! '(ino, a) := fs_do (symlink env upper parent nm target) in
    attr_reply ino a.

Definition op_readlink (nodeid : Z) : ServerM (list Z) :=
  let! target := fs_do (readlink env nodeid) in
  sret (as_bytes target).

Definition op_link (parent : Z) (payload : list Z) : ServerM (list Z) :=
  let! '(target, name_bytes) := parsed (parse_link_in payload) in
  let! nm := name name_bytes in
  run! forget_dir parent in
  let! '(ino, a) := fs_do (link env target parent nm) in
  attr_reply ino a.

Definition op_statfs : ServerM (list Z) :=
  let! '(block_size, blocks, blocks_free) := fs_do statfs in
  sret (statfs_out blocks blocks_free block_size).

(** ** Locks *)

Definition op_lock (nodeid : Z) (payload : list Z) : ServerM (list Z) :=
  let! req := parsed (parse_lock_in payload) in
  let! r := stry (handle_for nodeid true) in
  let! fh := (match r with
              | Ok fh => sret fh
              | Err (Errno _) => handle_for nodeid false
              | Err e => sfail e
              end) in
  run! fs_do (lock fh (li_kind req) (li_wait req)) in
  run! mark_locked nodeid true in
  sret [].

Definition op_unlock (nodeid : Z) : ServerM (list Z) :=
  let! s := sget in
  match hc_map (sv_handles s) !! nodeid with
  | None => sret []
  | Some h =>
      run! fs_do (unlock (h_fh h)) in
      run! mark_locked nodeid false in
      sret []
  end.

(** ** Mutations *)

Definition op_create (parent : Z) (payload : list Z) (dir : bool) : ServerM (list Z) :=
  let! '(mode, name_bytes) := parsed (parse_create_in payload) in
  let! nm := name name_bytes in
  let perm := Z.land mode 4095 in
  run! forget_dir parent in
  if dir then
    let! '(ino, a) := fs_do (mkdir env parent nm perm) in
    attr_reply ino a
  else
    let! '(ino, fh, a) := fs_do (create env parent nm perm (mkOpenFlags true true false false false)) in
    let! stale := install_handle ino fh true in
    run! release_all stale in
    attr_reply ino a.

Definition op_remove (parent : Z) (payload : list Z) (dir : bool) : ServerM (list Z) :=
  let! nm := name payload in
  let! s := sget in
  let t := cl_ino (sv_fs s) in
  let victim := p ← Inode.path_of t parent; Inode.ino_of t (RelPath.join p nm) in
  run! fs_do (if dir then rmdir env parent nm else unlink env parent nm) in
  run! forget_dir parent in
  run! (match victim with Some ino => drop_handle ino | None => sret tt end) in
  sret [].

Definition op_rename (parent : Z) (payload : list Z) : ServerM (list Z) :=
  let! '(newparent, from, to) := parsed (parse_rename_in payload) in
  let! from := name from in
  let! to := name to in
  run! fs_do (rename env renames_ok parent from newparent to true) in
  run! forget_dir parent in
  run! forget_dir newparent in
  sret [].

(** [UNIX_EPOCH.checked_add] of a [u64] of nanoseconds does not overflow. *)
Definition op_setattr (nodeid : Z) (payload : list Z) : ServerM (list Z) :=
  let! si := parsed (parse_setattr_in payload) in
  let has flag := negb (bool_decide (Z.land (sa_valid si) flag = 0)) in
  let size := if has SETATTR_SIZE then Some (sa_size si) else None in
  let mode := if has SETATTR_MODE then Some (Z.land (sa_mode si) 4095) else None in
  let mtime := if has SETATTR_MTIME then Some (sa_mtime_ns si) else None in
  let! a := fs_do (setattr env nodeid size mtime mode) in
  attr_reply nodeid a.

(** ** Requests *)

Definition dispatch (fuel : nat) (h : InHeader) (payload : list Z) : ServerM (list Z) :=
  let op := ih_opcode h in
  let id := ih_nodeid h in
  if bool_decide (op = OP_LOOKUP) then op_lookup id payload
  else if bool_decide (op = OP_GETATTR) then op_getattr id
  else if bool_decide (op = OP_READDIR) then op_readdir fuel id (ih_offset h) (ih_size h)
  else if bool_decide (op = OP_READ) then op_read id (ih_offset h) (ih_size h)
  else if bool_decide (op = OP_CREATE) then op_create id payload false
  else if bool_decide (op = OP_MKDIR) then op_create id payload true
  else if bool_decide (op = OP_UNLINK) then op_remove id payload false
  else if bool_decide (op = OP_RMDIR) then op_remove id payload true
  else if bool_decide (op = OP_RENAME) then op_rename id payload
  else if bool_decide (op = OP_WRITE) then op_write fuel id (ih_offset h) payload
  else if bool_decide (op = OP_SETATTR) then op_setattr id payload
  else if bool_decide (op = OP_LOCK) then op_lock id payload
  else if bool_decide (op = OP_UNLOCK) then op_unlock id
  else if bool_decide (op = OP_SYMLINK) then op_symlink id payload
  else if bool_decide (op = OP_READLINK) then op_readlink id
  else if bool_decide (op = OP_LINK) then op_link id payload
  else if bool_decide (op = OP_STATFS) then op_statfs
  else refuse ENOSYS.

(** [handle]: the frame to write, if any; the errors left are a panic and a
    wait that has not ended. *)
Definition handle (fuel : nat) (buf : list Z) : ServerM (option (list Z)) :=
  match parse_in_header buf with
  | None => sfail Crashed
  | Some None => sret None
  | Some (Some h) =>
      match bytes_at buf IN_HEADER_LEN (Z.to_nat (ih_len h) - IN_HEADER_LEN) with
      | None => sfail Crashed
      | Some payload => λ s,
          match dispatch fuel h payload s with
          | (Ok out, s) => (Ok (Some (response (ih_unique h) 0 out)), s)
          | (Err (Errno e), s) => (Ok (Some (response (ih_unique h) (- e) [])), s)
          | (Err stop, s) => (Err stop, s)
          end
      end
  end.

(** ** Notifications *)

Definition nodeid_of (s : Srv) (path : RelPath) : option Z :=
  if RelPath.is_root path then Some ROOT_INO else Inode.ino_of (cl_ino (sv_fs s)) path.

Definition is_dir (s : Srv) (nodeid : Z) : bool := default false (sv_kinds s !! nodeid).

(** The nodeid of a path, if it has one, and whether it is a directory. *)
Definition known_node (path : RelPath) : ServerM (option (Z * bool)) :=
  let! s := sget in
  sret ((λ id, (id, is_dir s id)) <$> nodeid_of s path).

Definition isdir_of (k : option (Z * bool)) : bool := match k with Some (_, d) => d | None => false end.

Definition notification_for (ev : FsEvent) : ServerM (option Notification) :=
  let! s := sget in
  match RelPath.split (ev_path ev) with
  | None => sret None
  | Some (parent_path, nm) =>
      match nodeid_of s parent_path with
      | None => sret None
      | Some parent =>
          match ev_kind ev with
          | Created | Modified =>
              let! r := stry (fs_do (lookup env parent nm)) in
              match r with
              | Err (Errno _) => sret None
              | Err e => sfail e
              | Ok (ino, a) =>
                  let code := if bool_decide (ev_kind ev = Created) then NOTIFY_CREATE else NOTIFY_MODIFY in
                  run! record_kind ino (is_dir_attr a) in
                  run! forget_dir parent in
                  run! refresh_handle ino in
                  sret (Some (mkNotification code parent 0 (a_size a) (is_dir_attr a) nm ""))
              end
          | AttrChanged =>
              let! k := known_node (ev_path ev) in
              run! (match k with Some (id, _) => refresh_handle id | None => sret tt end) in
              sret (Some (mkNotification NOTIFY_ATTRIB parent 0 0 (isdir_of k) nm ""))
          | Removed =>
              let! k := known_node (ev_path ev) in
              run! (match k with Some (id, _) => drop_handle id | None => sret tt end) in
              run! forget_dir parent in
              sret (Some (mkNotification NOTIFY_DELETE parent 0 0 (isdir_of k) nm ""))
          | RenamedFrom to =>
              match RelPath.split to with
              | None => sret None
              | Some (to_parent_path, to_name) =>
                  match nodeid_of s to_parent_path with
                  | None => sret None
                  | Some parent2 =>
                      let! k := known_node to in
                      run! (match k with Some (id, _) => refresh_handle id | None => sret tt end) in
                      run! forget_dir parent in
                      run! forget_dir parent2 in
                      sret (Some (mkNotification NOTIFY_RENAME parent parent2 0 (isdir_of k) nm to_name))
                  end
              end
          | ResyncRequired => sret None
          end
      end
  end.

(** One batch in the notify thread (notify.rs, [run]): the frames handed to
    the device, in order.  [gone] says of each frame whether the device is
    gone, which ends the thread. *)
Fixpoint notify_batch (gone : list Z → bool) (batch : list FsEvent) : ServerM (bool * list (list Z)) :=
  match batch with
  | [] => sret (true, [])
  | ev :: batch =>
      let! note := notification_for ev in
      match note ≫= encode_notification with
      | None => notify_batch gone batch
      | Some frame =>
          if gone frame then sret (false, [frame])
          else
            let! '(alive, frames) := notify_batch gone batch in
            sret (alive, frame :: frames)
      end
  end.

End Server.
