(* ===== verification/KernelFacts.v ===== *)
(** * KernelFacts: what the kernel's server guarantees

    Theorems about KernelServer: the handle cache loses no handle and no lock;
    a directory paged out across READDIR calls is listed completely; every
    well-formed request is answered under its own number, without a panic. *)

From S2P Require Import Prelude Messages Common Exclude Inode ReadAhead AutoCache KernelAbi Fs Agent AgentFacts Transport Overlay Symlink RemoteFs RemoteFacts KernelServer.

(** ** The handle cache *)

(** What [lru_step] has found among the entries it saw. *)
Definition lru_of (l : list (Z * Handle)) (best : option (Z * Z)) : Prop :=
  match best with
  | None => Forall (λ ih, h_locked ih.2 = true) l
  | Some (id, used) =>
      (∃ h, (id, h) ∈ l ∧ h_locked h = false ∧ h_used h = used) ∧
      Forall (λ ih, h_locked ih.2 = false → used ≤ h_used ih.2) l
  end.

Lemma lru_step_of l best ih : lru_of l best → lru_of (l ++ [ih]) (lru_step best ih).
Proof.
  destruct ih as [i h]. unfold lru_step. simpl. destruct (h_locked h) eqn:Hl.
  - destruct best as [[id used]|]; simpl.
    + intros [(h0 & Hin & Hu) Hall]. split; [exists h0; rw elem_of_app; auto|].
      apply Forall_app. split; [done|]. constructor; [|constructor]. simpl. congruence.
    + intros Hall. apply Forall_app. by repeat constructor.
  - destruct best as [[id used]|]; simpl.
    + intros [(h0 & Hin & Hu & <-) Hall]. destruct (Z.ltb_spec (h_used h) (h_used h0)); simpl; (split; [|apply Forall_app; split]).
      * exists h. rw elem_of_app list_elem_of_singleton. auto.
      * eapply Forall_impl; [exact Hall|]. simpl. intros x Hx Hl'. specialize (Hx Hl'). lia.
      * by repeat constructor.
      * exists h0. rw elem_of_app. auto.
      * done.
      * by repeat constructor.
    + intros Hall. split; [exists h; rw elem_of_app list_elem_of_singleton; auto|].
      apply Forall_app. split; [|by repeat constructor]. eapply Forall_impl; [exact Hall|]. simpl. intros; congruence.
Qed.

Lemma lru_fold_of l : ∀ seen best, lru_of seen best → lru_of (seen ++ l) (foldl lru_step best l).
Proof.
  induction l as [|ih l IH]; intros seen best Hb; [by rw app_nil_r|]. simpl.
  replace (seen ++ ih :: l) with ((seen ++ [ih]) ++ l) by (by rw -app_assoc). by apply IH, lru_step_of.
Qed.

Lemma lru_victim_Some m id : lru_victim m = Some id →
  ∃ h, m !! id = Some h ∧ h_locked h = false ∧
    ∀ id' h', m !! id' = Some h' → h_locked h' = false → h_used h ≤ h_used h'.
Proof.
  unfold lru_victim. pose proof (lru_fold_of (map_to_list m) [] None ltac:(constructor)) as H. simpl in H.
  destruct (foldl lru_step None (map_to_list m)) as [[id0 used]|]; [|done]. simpl. intros [= <-].
  destruct H as [(h & Hin%elem_of_map_to_list & Hl & <-) Hall]. exists h. split; [done|]. split; [done|].
  intros id' h' Hh'%elem_of_map_to_list Hl'. rw Forall_forall in Hall. by apply (Hall _ Hh').
Qed.

Lemma lru_victim_None m : lru_victim m = None → ∀ id h, m !! id = Some h → h_locked h = true.
Proof.
  unfold lru_victim. pose proof (lru_fold_of (map_to_list m) [] None ltac:(constructor)) as H. simpl in H.
  destruct (foldl lru_step None (map_to_list m)) as [[id0 used]|]; [done|]. intros _ id h Hh%elem_of_map_to_list.
  simpl in H. rw Forall_forall in H. by apply (H _ Hh).
Qed.

(** The eviction loop: what it evicted, and when it stops. *)
Record evicted (m m' : gmap Z Handle) (victims : list (Z * Handle)) : Prop := {
  ev_all : map_to_list m ≡ₚ map_to_list m' ++ victims;
  ev_unlocked : Forall (λ v, h_locked v.2 = false) victims;
  ev_oldest : ∀ v id h, v ∈ victims → m' !! id = Some h → h_locked h = false → h_used v.2 ≤ h_used h;
  ev_bound : (size m' ≤ HANDLE_CACHE_CAP)%nat ∨ ∀ id h, m' !! id = Some h → h_locked h = true
}.

Lemma evict_handles_spec fuel : ∀ m stale, (size m ≤ fuel)%nat →
  ∃ m' victims, evict_handles fuel m stale = (m', stale ++ (h_fh <$> victims.*2)) ∧ evicted m m' victims.
Proof.
  induction fuel as [|fuel IH]; intros m stale Hf; cbn [evict_handles].
  { exists m, []. rw app_nil_r. split; [done|]. split; [by rw app_nil_r|constructor|set_solver|]. left. unfold HANDLE_CACHE_CAP. lia. }
  assert (∀ b, (size m ≤ HANDLE_CACHE_CAP)%nat ∨ (∀ id h, m !! id = Some h → h_locked h = true) →
    b = (m, stale) → ∃ m' victims, b = (m', stale ++ (h_fh <$> victims.*2)) ∧ evicted m m' victims) as Hstop.
  { intros b Hb ->. exists m, []. rw app_nil_r. split; [done|]. split; [by rw app_nil_r|constructor|set_solver|done]. }
  case_bool_decide as Hcap; [by apply Hstop; [left|]|].
  destruct (lru_victim m) as [victim|] eqn:Hv; [|apply Hstop; [right; by apply lru_victim_None|done]].
  destruct (lru_victim_Some _ _ Hv) as (h & Hh & Hl & Hmin). rw Hh.
  destruct (IH (delete victim m) (stale ++ [h_fh h])) as (m' & victims & He & [H1 H2 H3 H4]).
  { rw map_size_delete Hh /=. lia. }
  exists m', ((victim, h) :: victims). split; [by rw He -app_assoc|]. split; [| | |done].
  - rw -(map_to_list_delete m victim h Hh) H1. by rw Permutation_middle.
  - by constructor.
  - intros v id h' [->|Hin]%elem_of_cons Hm' Hl'; [|by eapply H3].
    apply (Hmin id h'); [|done]. apply elem_of_map_to_list in Hm'.
    assert ((id, h') ∈ map_to_list (delete victim m)) as Hd by (rw H1; apply elem_of_app; by left).
    by apply elem_of_map_to_list, lookup_delete_Some in Hd as [_ ?].
Qed.

(** Installing a handle in the kernel server's cache loses nothing: every
    handle the cache knew, and the new one, is afterwards either cached or
    handed back for release, exactly once; a handle that owns an advisory lock
    is never evicted (only replaced by the new handle of the same file, which
    inherits the mark); what is evicted was used no later than any unlocked
    handle kept; and the cache holds at most 64 handles unless all of them are
    locked. *)
Theorem install_handle_accounts hc nodeid fh write :
  let '(hc', stale) := install_in hc nodeid fh write in
  let old := hc_map hc !! nodeid in
  let new := mkHandle fh write (hc_tick hc') (match old with Some h => h_locked h | None => false end) in
  ∃ victims, evicted (<[nodeid := new]> (hc_map hc)) (hc_map hc') victims ∧
    stale = (match old with Some h => [h_fh h] | None => [] end) ++ (h_fh <$> victims.*2) ∧
    (∀ id h, hc_map hc !! id = Some h → h_locked h = true → id ≠ nodeid → hc_map hc' !! id = Some h).
Proof.
  unfold install_in. set (m := <[nodeid := _]> (hc_map hc)).
  destruct (evict_handles_spec (size m) m (match hc_map hc !! nodeid with Some h => [h_fh h] | None => [] end)) as (m' & victims & He & Hev); [done|].
  rw He. exists victims. split; [exact Hev|]. split; [done|]. intros id h Hh Hl Hne.
  assert ((id, h) ∈ map_to_list m) as Hin by (apply elem_of_map_to_list; unfold m; by rw lookup_insert_ne).
  rw (ev_all _ _ _ Hev) elem_of_app in Hin. destruct Hin as [Hin|Hin]; [by apply elem_of_map_to_list in Hin|].
  pose proof (ev_unlocked _ _ _ Hev) as Hu. rw Forall_forall in Hu. specialize (Hu _ Hin). simpl in Hu. congruence.
Qed.

(** Every handle number in the new cache, and every one handed back, was there
    before or is the new one. *)
Lemma install_in_subset hc nodeid fh write :
  let '(hc', stale) := install_in hc nodeid fh write in
  let known x := x = fh ∨ ∃ id h, hc_map hc !! id = Some h ∧ x = h_fh h in
  (∀ id h, hc_map hc' !! id = Some h → known (h_fh h)) ∧ (∀ x, x ∈ stale → known x).
Proof.
  unfold install_in. set (m := <[nodeid := _]> (hc_map hc)).
  destruct (evict_handles_spec (size m) m (match hc_map hc !! nodeid with Some h => [h_fh h] | None => [] end)) as (m' & victims & -> & Hev); [done|].
  assert (∀ id h, (id, h) ∈ map_to_list m → h_fh h = fh ∨ ∃ id' h', hc_map hc !! id' = Some h' ∧ h_fh h = h_fh h') as Hm.
  { intros id h Hin%elem_of_map_to_list. unfold m in Hin. apply lookup_insert_Some in Hin as [[_ <-]|[_ Hin]]; [by left|eauto]. }
  split.
  - intros id h Hh%elem_of_map_to_list. apply (Hm id). rw (ev_all _ _ _ Hev). apply elem_of_app. by left.
  - intros x [Hx|Hx]%elem_of_app.
    + destruct (hc_map hc !! nodeid) as [h|] eqn:E; [|by apply not_elem_of_nil in Hx].
      apply list_elem_of_singleton in Hx as ->. eauto.
    + apply list_elem_of_fmap in Hx as (h & -> & Hx). apply list_elem_of_fmap in Hx as ([id h'] & -> & Hx). simpl.
      apply (Hm id). rw (ev_all _ _ _ Hev). apply elem_of_app. by right.
Qed.

(** When 64 files are locked, a new handle is its own victim. *)
Lemma install_all_locked hc nodeid fh write :
  (HANDLE_CACHE_CAP ≤ size (hc_map hc))%nat → (∀ id h, hc_map hc !! id = Some h → h_locked h = true) →
  hc_map hc !! nodeid = None →
  install_in hc nodeid fh write = (mkHandleCache (hc_map hc) (u64_add (hc_tick hc) 1), [fh]).
Proof.
  intros Hsz Hall Hnone. unfold install_in. rw Hnone. set (m := <[nodeid := _]> (hc_map hc)).
  assert (size m = S (size (hc_map hc))) as Hm by (unfold m; by rw map_size_insert Hnone).
  assert (lru_victim m = Some nodeid) as Hv.
  { destruct (lru_victim m) as [id|] eqn:E.
    - destruct (lru_victim_Some _ _ E) as (h & Hh & Hl & _). unfold m in Hh.
      apply lookup_insert_Some in Hh as [[-> _]|[_ Hh]]; [done|]. apply Hall in Hh. congruence.
    - pose proof (lru_victim_None _ E nodeid _ (lookup_insert_eq _ _ _)) as H. done. }
  assert (delete nodeid m = hc_map hc) as Hd by (unfold m; by apply delete_insert_id).
  assert (lru_victim (hc_map hc) = None) as Hv2.
  { destruct (lru_victim (hc_map hc)) as [id|] eqn:E; [|done].
    destruct (lru_victim_Some _ _ E) as (h & Hh & Hl & _). apply Hall in Hh. congruence. }
  rw Hm. cbn [evict_handles]. rw bool_decide_false; [|lia]. rw Hv. unfold m at 1. rw lookup_insert_eq Hd. cbn [app].
  destruct (size (hc_map hc)) as [|k] eqn:E; [unfold HANDLE_CACHE_CAP in Hsz; lia|].
  cbn [evict_handles]. rw E Hv2. by case_bool_decide.
Qed.

Section LockedCache.
Context {N : Type} `{NET : Net N} (env : Env).

Lemma release_forgets fh (c : Client N) : overlay_fh fh = false →
  ∃ c', release fh c = (Ok tt, c') ∧ cl_open c' = delete fh (cl_open c).
Proof.
  intros Hb. unfold release. rw Hb (sbind_eq sget _ c c c eq_refl).
  assert (∀ c0, ∃ c1, stry (F := Halt) (call (RqRelease (server_fh c fh))) c0 = (Ok (call (RqRelease (server_fh c fh)) c0).1, c1) ∧ cl_open c1 = cl_open c0) as Hcall.
  { intros c0. unfold stry, call. destruct (net_request _ _ _) as [[[]|[]] n1]; simpl; eexists; (split; [done|done]). }
  destruct (cl_open c !! fh) as [s|] eqn:Hs.
  - change (sbind (sbind (smod ?f) ?k) ?g c) with (sbind (k tt) g (f c)). cbv beta.
    destruct (os_wrote s); unfold enqueue_refetch.
    + change (sbind (smod ?f) ?g ?c0) with (g tt (f c0)). cbv beta.
      match goal with |- context [sbind (stry _) _ ?c0] => destruct (Hcall c0) as (c1 & H1 & H2) end.
      rw (sbind_eq _ _ _ _ _ H1). exists c1. split; [done|]. by rw H2.
    + rw (sbind_eq (sret tt) _ _ _ _ eq_refl).
      match goal with |- context [sbind (stry _) _ ?c0] => destruct (Hcall c0) as (c1 & H1 & H2) end.
      rw (sbind_eq _ _ _ _ _ H1). exists c1. split; [done|]. by rw H2.
  - rw (sbind_eq (sret tt) _ _ _ _ eq_refl). destruct (Hcall c) as (c1 & H1 & H2).
    rw (sbind_eq _ _ _ _ _ H1). exists c1. split; [done|]. rw H2. symmetry. by apply delete_id.
Qed.

(** When at least 64 files are locked, opening one more gives out a handle
    that is closed already: the new handle is the only one the cache may
    evict, so it is released at once, and [handle_for] returns its number all
    the same. *)
Theorem locked_cache_gives_closed_handle nodeid want_write (s : Server N) fh a c1 :
  (HANDLE_CACHE_CAP ≤ size (hc_map (sv_handles s)))%nat →
  (∀ id h, hc_map (sv_handles s) !! id = Some h → h_locked h = true) → hc_map (sv_handles s) !! nodeid = None →
  open env nodeid (mkOpenFlags true want_write false false false) (sv_fs s) = (Ok (fh, a), c1) → overlay_fh fh = false →
  ∃ s', handle_for env nodeid want_write s = (Ok fh, s') ∧
    cl_open (sv_fs s') !! fh = None ∧ hc_map (sv_handles s') = hc_map (sv_handles s).
Proof.
  intros Hsz Hall Hnone Hopen Hb. unfold handle_for, cached_handle. unfold sbind at 1. rw Hnone.
  set (s1 := set_handles _ s).
  assert (fs_do (open env nodeid (mkOpenFlags true want_write false false false)) s1 = (Ok (fh, a), set_fs c1 s1)) as H1.
  { unfold fs_do. change (sv_fs s1) with (sv_fs s). by rw Hopen. }
  rw (sbind_eq _ _ _ _ _ H1).
  assert (install_handle nodeid fh want_write (set_fs c1 s1)
    = (Ok [fh], set_handles (mkHandleCache (hc_map (sv_handles s)) (u64_add (u64_add (hc_tick (sv_handles s)) 1) 1)) (set_fs c1 s1))) as H2.
  { unfold install_handle. rw install_all_locked //. }
  rw (sbind_eq _ _ _ _ _ H2). cbn [release_all].
  destruct (release_forgets fh c1 Hb) as (c2 & H3 & H4).
  match goal with |- context [sbind (sbind (fs_do (release fh)) _) _ ?s2] =>
    assert (fs_do (release fh) s2 = (Ok tt, set_fs c2 s2)) as H5 by (unfold fs_do; simpl; by rw H3) end.
  rw (sbind_eq _ _ _ _ _ (sbind_eq _ _ _ _ _ H5)). eexists. split; [done|]. simpl. rw H4. split; [apply lookup_delete_eq|done].
Qed.
End LockedCache.

(** ** Listings *)

(** The entries of a listing as they are sent, the first one at index [i]. *)
Fixpoint numbered (i : nat) (L : Listing) : list (Z * Z * Z * string) :=
  match L with
  | [] => []
  | (nm, ino, d) :: L => (ino, Z.of_nat i + DOTS + 1, if d : bool then DT_DIR else DT_REG, nm) :: numbered (S i) L
  end.

(** A listing the ABI can carry. *)
Definition listing_ok (L : Listing) : Prop :=
  Forall (λ e, is_u64 e.1.2 ∧ e.1.1 ≠ "" ∧ str_len e.1.1 ≤ MAX_NAME) L ∧ Z.of_nat (length L) + DOTS + 1 ≤ U64_MAX.

(** The room the longest name needs. *)
Definition MIN_REPLY : Z := dirent_size MAX_NAME.

Lemma numbered_ok L : ∀ i, Forall (λ e, is_u64 e.1.2 ∧ e.1.1 ≠ "" ∧ str_len e.1.1 ≤ MAX_NAME) L →
  Z.of_nat (i + length L) + DOTS + 1 ≤ U64_MAX → Forall dirent_ok (numbered i L).
Proof.
  induction L as [|[[nm ino] d] L IH]; intros i HL Hi; [constructor|]. apply Forall_cons in HL as [(H1 & H2 & H3) HL].
  cbn [numbered length] in *. constructor; [|apply IH; [done|lia]].
  unfold DOTS in *. split; [done|]. split; [ints|]. split; [destruct d; vm_compute; split; discriminate|]. done.
Qed.

Lemma numbered_app L1 L2 : ∀ i, numbered i (L1 ++ L2) = numbered i L1 ++ numbered (i + length L1) L2.
Proof.
  induction L1 as [|[[nm ino] d] L1 IH]; intros i; [by rw Nat.add_0_r|]. simpl. rw IH.
  by replace (S i + length L1)%nat with (i + S (length L1))%nat by lia.
Qed.

Lemma numbered_length L : ∀ i, length (numbered i L) = length L.
Proof. induction L as [|[[nm ino] d] L IH]; intros i; [done|]. simpl. by rw IH. Qed.

Lemma dirents_nonempty es : es ≠ [] → dirents_bytes es ≠ [].
Proof.
  intros Hne H. pose proof (proj2 (dirents_bytes_aligned es)) as Hl. rw H in Hl. destruct es; [done|]. unfold blen in Hl. simpl in Hl. lia.
Qed.

Lemma dirent_size_mono a b : 0 ≤ a → a ≤ b → dirent_size a ≤ dirent_size b.
Proof.
  intros Ha Hab. unfold dirent_size. rw !dirent_align_eq. apply Z.mul_le_mono_nonneg_l; [lia|].
  apply Z.div_le_mono; unfold DIRENT_LEN; lia.
Qed.

(** The reply loop sends a prefix, and never an empty one while entries are
    left. *)
Lemma push_entries_prefix limit L : MIN_REPLY ≤ limit → ∀ i es0,
  Forall (λ e, is_u64 e.1.2 ∧ e.1.1 ≠ "" ∧ str_len e.1.1 ≤ MAX_NAME) L →
  ∃ k, (k ≤ length L)%nat ∧ (L ≠ [] → es0 ≠ [] ∨ (1 ≤ k)%nat) ∧
    push_entries limit (dirents_bytes es0) i L = Ok (dirents_bytes (es0 ++ numbered i (take k L))).
Proof.
  intros Hlim. induction L as [|[[nm ino] d] L IH]; intros i es0 HL.
  { exists 0%nat. simpl. rw app_nil_r. done. }
  apply Forall_cons in HL as [(H1 & H2 & H3) HL]. cbn [push_entries]. rw push_dirent_cases.
  unfold str_is_empty. rw bool_decide_false //. rw (proj2 (Z.ltb_ge MAX_NAME _) H3). cbn [orb].
  destruct (Z.ltb_spec limit (blen (dirents_bytes es0) + dirent_size (str_len nm))) as [Hfull|Hfits].
  - assert (es0 ≠ []) as Hne.
    { intros ->. pose proof (dirent_size_mono (str_len nm) MAX_NAME ltac:(unfold str_len; lia) H3).
      unfold MIN_REPLY in Hlim. change (blen (dirents_bytes [])) with 0 in Hfull. lia. }
    rw bool_decide_false; [|by apply dirents_nonempty]. exists 0%nat. simpl. rw app_nil_r. split; [lia|]. auto.
  - rw -dirents_bytes_snoc. destruct (IH (S i) (es0 ++ [(ino, Z.of_nat i + DOTS + 1, if d then DT_DIR else DT_REG, nm)]) HL) as (k & Hk & _ & Hp).
    exists (S k). split; [simpl; lia|]. split; [right; lia|]. rw Hp. simpl. by rw -app_assoc.
Qed.

Lemma emit_reply_numbered i L : Forall (λ e, is_u64 e.1.2 ∧ e.1.1 ≠ "" ∧ str_len e.1.1 ≤ MAX_NAME) L →
  Z.of_nat (i + length L) + DOTS + 1 ≤ U64_MAX →
  emit_reply (dirents_bytes (numbered i L)) = Some ((λ '(n, o, t, s), (n, o, t, as_bytes s)) <$> numbered i L).
Proof.
  intros HL Hi. apply emit_dirents_all; [by apply numbered_ok|].
  pose proof (proj2 (dirents_bytes_aligned (numbered i L))). unfold blen in *. lia.
Qed.

Lemma numbered_last i L off : last (numbered i L) = Some off → L ≠ [] → off.1.1.2 = Z.of_nat (i + length L) + DOTS.
Proof.
  revert i. induction L as [|[[nm ino] d] L IH]; intros i; [done|]. cbn [numbered]. intros Hl _.
  destruct (decide (L = [])) as [->|Hne].
  - simpl in Hl. injection Hl as <-. simpl. lia.
  - rw (IH (S i)) //; [simpl; lia|]. destruct L as [|[[nm' ino'] d'] L]; [done|]. cbn [numbered] in *. by rw last_cons_cons in Hl.
Qed.

Section Paging.
Context {N : Type} `{NET : Net N} (env : Env) (dfuel : nat) (nodeid size : Z).

(** The kernel reading a directory: it asks at the cursor it is at, emits what
    the reply holds, and goes on from the last entry's cursor until a reply is
    empty.  [st k] is the server when the [k]-th request arrives. *)
Fixpoint kernel_list (st : nat → Server N) (fuel k : nat) (offset : Z) : option (list (Z * Z * Z * list Z)) :=
  match fuel with
  | O => None
  | S fuel =>
      match (op_readdir env dfuel nodeid offset size (st k)).1 with
      | Err _ => None
      | Ok out =>
          es ← emit_reply out;
          match last es with
          | None => Some es
          | Some (_, off, _, _) => rest ← kernel_list st fuel (S k) off; Some (es ++ rest)
          end
      end
  end.

Lemma op_readdir_reply (s : Server N) offset L :
  (dir_entries env dfuel nodeid offset s).1 = Ok L →
  (op_readdir env dfuel nodeid offset size s).1 =
  map_err Errno (push_entries (Z.min size MAX_PAYLOAD) [] (Z.to_nat (saturating_sub offset DOTS)) (drop (Z.to_nat (saturating_sub offset DOTS)) L)).
Proof.
  intros HL. unfold op_readdir, sbind. destruct (dir_entries env dfuel nodeid offset s) as [r s']. simpl in HL. by subst r.
Qed.

Lemma cached_entries (s : Server N) offset L :
  cached_listing s nodeid offset = Some L → (dir_entries env dfuel nodeid offset s).1 = Ok L.
Proof. intros HL. unfold dir_entries, sbind, sget. by rw HL. Qed.

Lemma kernel_list_from L (st : nat → Server N) :
  listing_ok L → MIN_REPLY ≤ size →
  ∀ fuel k i, (length L - i < fuel)%nat → (i ≤ length L)%nat →
  (dir_entries env dfuel nodeid (Z.of_nat i + DOTS) (st k)).1 = Ok L →
  (∀ j off, (k < j)%nat → DOTS < off → cached_listing (st j) nodeid off = Some L) →
  kernel_list st fuel k (Z.of_nat i + DOTS) = Some ((λ '(n, o, t, s), (n, o, t, as_bytes s)) <$> numbered i (drop i L)).
Proof.
  intros [HL Hlen] Hsize fuel. induction fuel as [|fuel IH]; intros k i Hf Hi Hk Hst; [lia|]. cbn [kernel_list].
  rw (op_readdir_reply (st k) (Z.of_nat i + DOTS) L); last done.
  assert (Z.to_nat (saturating_sub (Z.of_nat i + DOTS) DOTS) = i) as -> by (unfold saturating_sub, DOTS; lia).
  assert (MIN_REPLY ≤ Z.min size MAX_PAYLOAD) as Hlim by (apply Z.min_glb; [done|vm_compute; discriminate]).
  assert (Forall (λ e, is_u64 e.1.2 ∧ e.1.1 ≠ "" ∧ str_len e.1.1 ≤ MAX_NAME) (drop i L)) as HLi by by apply Forall_drop.
  destruct (push_entries_prefix _ (drop i L) Hlim i [] HLi) as (n & Hn & Hne & Hp).
  change (dirents_bytes []) with ([] : list Z) in Hp. rw Hp app_nil_l. cbn [map_err].
  rw length_drop in Hn.
  rw emit_reply_numbered; [|by apply Forall_take|rw length_take length_drop; unfold DOTS in *; lia].
  cbn [mbind option_bind]. rw fmap_last.
  destruct (decide (drop i L = [])) as [Hnil|Hsome]; [by rw Hnil take_nil|].
  destruct (Hne Hsome) as [?|Hpos]; [done|].
  assert (length (take n (drop i L)) = n) as Hlt by (rw length_take length_drop; lia).
  assert (take n (drop i L) ≠ []) as Htne by (intros E; rw E in Hlt; simpl in Hlt; lia).
  destruct (last (numbered i (take n (drop i L)))) as [[[[id off] ty] nm]|] eqn:Hlast; last first.
  { apply last_None in Hlast. apply (f_equal length) in Hlast. rw numbered_length Hlt in Hlast. simpl in Hlast. lia. }
  pose proof (numbered_last _ _ _ Hlast Htne) as Hoff. simpl in Hoff. rw Hlt in Hoff. cbn [fmap option_fmap option_map]. rw Hoff.
  rw IH; [|lia|lia|apply cached_entries, Hst; lia|].
  - cbn [mbind option_bind]. rw -fmap_app. do 2 f_equal.
    rw -{2}(take_drop n (drop i L)) numbered_app Hlt drop_drop //.
  - intros j off' Hj. apply Hst. lia.
Qed.


(** A name the ABI cannot carry, somewhere in a listing, ends it: the request
    whose cursor is at the name fails with EINVAL whatever its size, so the
    entries after it are never listed. *)
Theorem long_name_hides_the_rest (s : Server N) L i nm ino d :
  (dir_entries env dfuel nodeid (Z.of_nat i + DOTS) s).1 = Ok L →
  L !! i = Some (nm, ino, d) → MAX_NAME < str_len nm →
  (op_readdir env dfuel nodeid (Z.of_nat i + DOTS) size s).1 = Err (Errno EINVAL).
Proof.
  intros HL Hi Hlong. rw (op_readdir_reply _ _ L HL).
  assert (Z.to_nat (saturating_sub (Z.of_nat i + DOTS) DOTS) = i) as -> by (unfold saturating_sub, DOTS; lia).
  rw (drop_S _ _ _ Hi). cbn [push_entries]. rw push_dirent_cases (proj2 (Z.ltb_lt _ _) Hlong) orb_true_r. done.
Qed.
End Paging.

(** ** Every request is answered *)

Section Answers.
Context {N : Type} {NET : Net N} {ov : option (RelPath → bool)} {NI : N → Prop} {NS : NetSafe NET ov NI}.
Context (env : Env) (upper : string → string) (renames_ok : list string → list string → bool).
#[local] Abbreviation Srv := (Server N).
#[local] Abbreviation ok := (ok (ov := ov) (NI := NI) upper).

(** The client is well-typed, and every cached handle is one it may be given. *)
Record swf (s : Srv) : Prop := {
  sw_fs : wf (ov := ov) (NI := NI) upper (sv_fs s);
  sw_handles : ∀ id h, hc_map (sv_handles s) !! id = Some h → fh_ok (ov := ov) (h_fh h)
}.

Definition sok {A} (m : M Srv Stopped A) (Q : A → Prop) : Prop :=
  ∀ s, swf s → swf (m s).2 ∧ match (m s).1 with Ok a => Q a | Err e => e ≠ Crashed end.

Lemma sok_bind {A B} (m : M Srv Stopped A) (f : A → M Srv Stopped B) R Q :
  sok m R → (∀ a, R a → sok (f a) Q) → sok (sbind m f) Q.
Proof.
  intros Hm Hf s Hs. unfold sbind. specialize (Hm s Hs). destruct (m s) as [[a|e] s']; simpl in *; [|done].
  destruct Hm as [Hw HR]. by apply (Hf a).
Qed.
Lemma sok_weaken {A} (m : M Srv Stopped A) (R Q : A → Prop) : sok m R → (∀ a, R a → Q a) → sok m Q.
Proof. intros Hm HQ s Hs. destruct (Hm s Hs) as [Hw H]. split; [done|]. destruct (m s).1; auto. Qed.
Lemma sok_ret {A} (a : A) (Q : A → Prop) : Q a → sok (sret a) Q.
Proof. by intros ? s ?. Qed.
Lemma sok_ret_any {A} (a : A) : sok (sret a) any.
Proof. by apply sok_ret. Qed.
Lemma sok_refuse {A} e (Q : A → Prop) : sok (refuse (N := N) e) Q.
Proof. by intros s ?. Qed.
Lemma sok_get : sok sget swf.
Proof. by intros s ?. Qed.
Lemma sok_mod f : (∀ s, swf s → swf (f s)) → sok (smod f) any.
Proof. intros Hf s Hs. split; [by apply Hf|done]. Qed.
Lemma sok_try {A} (m : M Srv Stopped A) R :
  sok m R → sok (stry (F := Stopped) m) (λ r, match r with Ok a => R a | Err e => e ≠ Crashed end).
Proof. intros Hm s Hs. specialize (Hm s Hs). unfold stry. by destruct (m s) as [r s']. Qed.

Lemma sok_fs_do {A} (m : M (Client N) Halt A) Q : ok m Q → sok (fs_do m) Q.
Proof.
  intros Hm s [H1 H2]. destruct (Hm _ H1) as [Hw HQ]. unfold fs_do. destruct (m (sv_fs s)) as [r c]. simpl in *.
  split; [by split|]. destruct r as [a|[]]; simpl; try done.
Qed.

(** Slicing never leaves the buffer. *)
Lemma sok_parsed {A} (o : option (option A)) : no_panic o → sok (parsed (N := N) o) any.
Proof. intros [[a|] ->] s Hs; done. Qed.

Lemma sok_name bs : sok (name (N := N) bs) any.
Proof. intros s Hs. split; [done|]. unfold name, slift. simpl. by destruct (name_of bs). Qed.

Lemma sok_record nodeid d : sok (record_kind (N := N) nodeid d) any.
Proof. apply sok_mod. by intros s []. Qed.
Lemma sok_forget nodeid : sok (forget_dir (N := N) nodeid) any.
Proof. apply sok_mod. by intros s []. Qed.
Lemma sok_attr_reply nodeid a : sok (attr_reply (N := N) nodeid a) any.
Proof.
  unfold attr_reply, kernel_attr. eapply (sok_bind _ _ any); [|intros ? _; apply sok_ret_any].
  eapply sok_bind; [apply sok_record|intros ? _; apply sok_ret_any].
Qed.

Lemma sok_mark nodeid b : sok (mark_locked (N := N) nodeid b) any.
Proof.
  apply sok_mod. intros s [H1 H2]. split; [done|]. intros id h Hh. simpl in Hh.
  apply lookup_alter_Some in Hh as [(? & h0 & Hh & ->)|(? & Hh)]; [by eapply (H2 id h0)|by eapply H2].
Qed.

Lemma sok_release_all fhs : Forall (fh_ok (ov := ov)) fhs → sok (release_all (N := N) fhs) any.
Proof.
  induction 1 as [|fh fhs Hfh _ IH]; [apply sok_ret_any|]. cbn [release_all].
  eapply sok_bind; [by apply sok_fs_do, ok_release|intros _ _; exact IH].
Qed.

Lemma sok_install nodeid fh w : fh_ok (ov := ov) fh → sok (install_handle (N := N) nodeid fh w) (Forall (fh_ok (ov := ov))).
Proof.
  intros Hfh s [H1 H2]. unfold install_handle. pose proof (install_in_subset (sv_handles s) nodeid fh w) as H.
  destruct (install_in (sv_handles s) nodeid fh w) as [hc stale]. destruct H as [H3 H4]. split.
  - split; [done|]. intros id h Hh. simpl in Hh. destruct (H3 id h Hh) as [->|(id' & h' & Hh' & ->)]; [done|by eapply H2].
  - simpl. apply Forall_forall. intros x Hx. destruct (H4 x Hx) as [->|(id' & h' & Hh' & ->)]; [done|by eapply H2].
Qed.
Create HintDb sok_db discriminated.
#[local] Hint Constants Opaque : sok_db.
#[local] Hint Resolve sok_ret_any sok_refuse sok_name sok_record sok_forget sok_attr_reply sok_mark : sok_db.
Ltac sok_step :=
  lazymatch goal with
  | |- sok (sbind sget _) _ => eapply sok_bind; [apply sok_get|intros ? ?]
  | |- sok (sbind _ _) _ => eapply sok_bind; [solve [eauto 3 with sok_db nocore]|intros ? _]
  | |- sok (sret _) any => apply sok_ret_any
  | |- sok _ any => solve [eauto 3 with sok_db nocore]
  end.

Lemma sok_lookup parent nm : sok (fs_do (lookup env parent nm)) any.
Proof. apply sok_fs_do, ok_lookup. Qed.
#[local] Hint Resolve sok_lookup : sok_db.

Lemma sok_op_lookup parent payload : sok (op_lookup env parent payload) any.
Proof. unfold op_lookup. do 2 sok_step. destruct a0. sok_step. Qed.

Lemma sok_op_getattr nodeid : sok (op_getattr env nodeid) any.
Proof. unfold op_getattr. eapply sok_bind; [apply sok_fs_do, ok_getattr|intros ? _; sok_step]. Qed.

Lemma sok_record_kinds l : sok (record_kinds (N := N) l) any.
Proof.
  induction l as [|[[nm ino] a] l IH]; cbn [record_kinds]; [sok_step|]. sok_step.
  eapply sok_bind; [exact IH|intros ? _; sok_step].
Qed.

Lemma sok_dir_entries fuel nodeid offset : sok (dir_entries env fuel nodeid offset) any.
Proof.
  unfold dir_entries. sok_step. destruct (cached_listing _ _ _); [sok_step|].
  eapply sok_bind; [apply sok_fs_do, ok_readdir|intros ? _]. eapply sok_bind; [apply sok_record_kinds|intros ? _].
  eapply sok_bind; [|intros ? _; sok_step]. apply sok_mod. by intros s [].
Qed.

Lemma push_entries_errno limit out i l e : push_entries limit out i l = Err e → e = EINVAL.
Proof.
  revert out i. induction l as [|[[nm ino] d] l IH]; intros out i; cbn [push_entries]; [done|].
  destruct (push_dirent _ _ _ _ _ _) as [[] out']; [apply IH|]. case_bool_decide; [by intros [= <-]|done].
Qed.

Lemma sok_op_readdir fuel nodeid offset size : sok (op_readdir env fuel nodeid offset size) any.
Proof.
  unfold op_readdir. eapply sok_bind; [apply sok_dir_entries|intros L _]. intros s Hs. split; [done|]. simpl.
  by destruct (push_entries _ _ _ _).
Qed.

Lemma sok_cached_handle nodeid w : sok (cached_handle (N := N) nodeid w) (λ r, ∀ fh, r = Some fh → fh_ok (ov := ov) fh).
Proof.
  intros s [H1 H2]. unfold cached_handle. destruct (hc_map (sv_handles s) !! nodeid) as [h|] eqn:E; [|by split].
  destruct (h_write h || negb w); simpl; [|by split]. split; [|intros fh [= <-]; by eapply H2].
  split; [done|]. simpl. intros id h' [[_ <-]|[_ Hh']]%lookup_insert_Some; [exact (H2 _ _ E)|by eapply H2].
Qed.

Lemma sok_handle_for nodeid w : sok (handle_for env nodeid w) (fh_ok (ov := ov)).
Proof.
  unfold handle_for. eapply sok_bind; [apply sok_cached_handle|intros [fh|] Hfh; [by apply sok_ret, Hfh|]].
  eapply sok_bind; [apply sok_fs_do, ok_open|intros [fh a] Ho]. eapply sok_bind; [by apply sok_install|intros stale Hst].
  eapply sok_bind; [by apply sok_release_all|intros _ _]. by apply sok_ret.
Qed.

Lemma sok_drop_handle nodeid : sok (drop_handle (N := N) nodeid) any.
Proof.
  unfold drop_handle. sok_step. destruct (hc_map (sv_handles a) !! nodeid) as [h|] eqn:E; [|sok_step].
  eapply sok_bind; [|intros _ _; apply sok_fs_do, ok_release; by eapply (sw_handles a)].
  apply sok_mod. intros s [H1 H2]. split; [done|]. simpl. intros id h' [_ Hh']%lookup_delete_Some. by eapply H2.
Qed.

Lemma sok_refresh nodeid : sok (refresh_handle (N := N) nodeid) any.
Proof. unfold refresh_handle. sok_step. case_match; [apply sok_fs_do, ok_invalidate_read|sok_step]. Qed.
#[local] Hint Resolve sok_drop_handle sok_refresh : sok_db.

Lemma sok_op_read nodeid offset size : sok (op_read env nodeid offset size) any.
Proof.
  unfold op_read. case_bool_decide; [sok_step|]. eapply sok_bind; [apply sok_handle_for|intros fh Hfh].
  by apply sok_fs_do, ok_read.
Qed.

Lemma sok_op_write fuel nodeid offset data : sok (op_write env fuel nodeid offset data) any.
Proof.
  unfold op_write. case_bool_decide; [sok_step|]. eapply sok_bind; [apply sok_handle_for|intros fh Hfh].
  eapply sok_bind; [by apply sok_fs_do, ok_write|intros ? _].
  eapply sok_bind; [apply sok_fs_do, ok_invalidate_attr|intros ? _; sok_step].
Qed.

Lemma sok_op_symlink parent payload : is_bytes payload → sok (op_symlink env upper parent payload) any.
Proof.
  intros Hb. unfold op_symlink. eapply sok_bind; [by apply sok_parsed, parsers_never_panic|intros [n t] _]. sok_step.
  eapply (sok_bind _ _ any); [intros s Hs; split; [done|]; simpl; by destruct (from_utf8 t)|intros ? _].
  destruct (_ || _); [apply sok_refuse|]. sok_step. eapply sok_bind; [apply sok_fs_do, ok_symlink|intros [i at0] _; sok_step].
Qed.

Lemma sok_op_link parent payload : is_bytes payload → sok (op_link env parent payload) any.
Proof.
  intros Hb. unfold op_link. eapply sok_bind; [by apply sok_parsed, parsers_never_panic|intros [n t] _]. do 2 sok_step.
  eapply sok_bind; [apply sok_fs_do, ok_link|intros [i at0] _; sok_step].
Qed.

Lemma sok_op_lock nodeid payload : is_bytes payload → sok (op_lock env nodeid payload) any.
Proof.
  intros Hb. unfold op_lock. eapply sok_bind; [by apply sok_parsed, parsers_never_panic|intros rq _].
  eapply sok_bind; [apply sok_try, sok_handle_for|intros r Hr]. eapply (sok_bind _ _ (fh_ok (ov := ov))).
  { destruct r as [fh|[]]; [by apply sok_ret|apply sok_handle_for|done|by intros s Hs]. }
  intros fh Hfh. eapply sok_bind; [apply sok_fs_do, ok_lock|intros _ _]. do 2 sok_step.
Qed.

Lemma sok_op_unlock nodeid : sok (op_unlock (N := N) nodeid) any.
Proof.
  unfold op_unlock. sok_step. case_match; [|sok_step]. eapply sok_bind; [apply sok_fs_do, ok_unlock|intros _ _]. do 2 sok_step.
Qed.

Lemma sok_op_create parent payload dir : is_bytes payload → sok (op_create env parent payload dir) any.
Proof.
  intros Hb. unfold op_create. eapply sok_bind; [by apply sok_parsed, parsers_never_panic|intros [m n] _]. do 2 sok_step.
  destruct dir; [eapply sok_bind; [apply sok_fs_do, ok_mkdir|intros [i at0] _; sok_step]|].
  eapply sok_bind; [apply sok_fs_do, ok_create|intros [[i fh] at0] Hfh]. eapply sok_bind; [by apply sok_install|intros stale Hst].
  eapply sok_bind; [by apply sok_release_all|intros _ _]. sok_step.
Qed.

Lemma sok_op_remove parent payload dir : sok (op_remove env parent payload dir) any.
Proof.
  unfold op_remove. do 2 sok_step. eapply (sok_bind _ _ any); [destruct dir; apply sok_fs_do, ok_remove|intros _ _]. sok_step.
  eapply (sok_bind _ _ any); [case_match; sok_step|intros _ _; sok_step].
Qed.

Lemma sok_op_rename parent payload : is_bytes payload → sok (op_rename env renames_ok parent payload) any.
Proof.
  intros Hb. unfold op_rename. eapply sok_bind; [by apply sok_parsed, parsers_never_panic|intros [[np f] t] _]. do 2 sok_step.
  eapply sok_bind; [apply sok_fs_do, ok_rename|intros _ _]. do 3 sok_step.
Qed.

Lemma sok_op_setattr nodeid payload : is_bytes payload → sok (op_setattr env nodeid payload) any.
Proof.
  intros Hb. unfold op_setattr. eapply sok_bind; [by apply sok_parsed, parsers_never_panic|intros si _].
  eapply sok_bind; [apply sok_fs_do, ok_setattr|intros ? _; sok_step].
Qed.

Lemma sok_dispatch fuel h payload : is_bytes payload → sok (dispatch env upper renames_ok fuel h payload) any.
Proof.
  intros Hb. unfold dispatch. repeat (case_bool_decide; [first
    [apply sok_op_lookup | apply sok_op_getattr | apply sok_op_readdir | apply sok_op_read | by apply sok_op_create
    | apply sok_op_remove | by apply sok_op_rename | apply sok_op_write | by apply sok_op_setattr | by apply sok_op_lock
    | apply sok_op_unlock | by apply sok_op_symlink
    | (eapply sok_bind; [apply sok_fs_do, ok_readlink|intros ? _; sok_step])
    | by apply sok_op_link
    | (eapply sok_bind; [apply sok_fs_do, ok_statfs|intros [[? ?] ?] _; sok_step])]|]).
  apply sok_refuse.
Qed.

(** *** The frame *)

Lemma response_unique u e p : is_u64 u → u64_at (response u e p) 8 = Some u.
Proof.
  intros Hu. unfold response, u64_at. do 2 (rw bytes_at_skip; [|rw !le_bytes_length; lia]).
  rw !le_bytes_length bytes_at_hit; [|by rw le_bytes_length]. cbn [fmap option_fmap option_map]. by rw le_value_8.
Qed.

Lemma parsed_header buf h : is_bytes buf → parse_in_header buf = Some (Some h) →
  u64_at buf 8 = Some (ih_unique h) ∧ is_u64 (ih_unique h) ∧ Z.of_nat IN_HEADER_LEN ≤ ih_len h ≤ blen buf.
Proof.
  intros Hb. unfold parse_in_header. case_bool_decide as Hlen; [done|]. unfold IN_HEADER_LEN in *.
  destruct (u32_at_Some buf 0 ltac:(lia)) as [len ->]. destruct (u32_at_Some buf 4 ltac:(lia)) as [op ->].
  destruct (u64_at_Some buf 8 ltac:(lia)) as [u Hu]. rw Hu.
  destruct (u64_at_Some buf 16 ltac:(lia)) as [? ->]. destruct (u64_at_Some buf 24 ltac:(lia)) as [? ->].
  destruct (u32_at_Some buf 32 ltac:(lia)) as [? ->]. cbn [mbind option_bind].
  destruct (_ || _) eqn:E; [done|]. intros [= <-]. simpl. split; [done|]. split.
  - unfold u64_at in Hu. rw bytes_at_Some in Hu; [|lia]. simpl in Hu. injection Hu as <-.
    pose proof (le_value_bound (take 8 (drop 8 buf))) as Hv. unfold blen in Hv.
    rw length_take length_drop Nat.min_l in Hv; [|lia]. specialize (Hv ltac:(by apply Forall_take, Forall_drop)). ints.
  - apply orb_false_iff in E as [[E1 E2]%orb_false_iff _]. apply Z.ltb_ge in E1, E2. lia.
Qed.

Lemma handle_answers fuel buf (s : Srv) : swf s → is_bytes buf →
  let '(r, s') := handle env upper renames_ok fuel buf s in
  swf s' ∧
  match r with
  | Ok None => parse_in_header buf = Some None
  | Ok (Some frame) => is_Some (u64_at buf 8) ∧ u64_at frame 8 = u64_at buf 8
  | Err e => e = Sleeps
  end.
Proof.
  intros Hs Hb. unfold handle. pose proof (parsers_never_panic buf Hb) as [[o Ho] _]. rw Ho. destruct o as [h|]; [|done].
  destruct (parsed_header buf h Hb Ho) as (Hu & Hu64 & Hlen).
  rw bytes_at_Some; [|unfold blen in Hlen; unfold IN_HEADER_LEN in *; lia].
  destruct (sok_dispatch fuel h (take (Z.to_nat (ih_len h) - IN_HEADER_LEN) (drop IN_HEADER_LEN buf)) ltac:(by apply Forall_take, Forall_drop) s Hs) as [Hw Hr].
  destruct (dispatch _ _ _ _ _ _ s) as [[out|[e| |]] s']; simpl in *; try done.
  - split; [done|]. rw response_unique; [rw Hu; by eauto|done].
  - split; [done|]. rw response_unique; [rw Hu; by eauto|done].
Qed.


(** Nor do the notifications. *)
Lemma sok_notification ev : sok (notification_for env ev) any.
Proof.
  unfold notification_for. sok_step. destruct (RelPath.split (ev_path ev)) as [[pp nm]|]; [|sok_step].
  destruct (nodeid_of a pp) as [parent|]; [|sok_step].
  assert (∀ q, sok (known_node (N := N) q) any) as Hk by (intros q; unfold known_node; sok_step; sok_step).
  destruct (ev_kind ev) as [| | | |to|]; try apply sok_ret_any.
  1, 2: (eapply sok_bind; [apply sok_try, sok_lookup|intros [[i at0]|[]] Hr];
    [do 4 sok_step|sok_step|done|by intros s Hs]).
  - eapply sok_bind; [apply Hk|intros k _]. eapply (sok_bind _ _ any); [destruct k as [[]|]; sok_step|intros _ _; sok_step].
  - eapply sok_bind; [apply Hk|intros k _]. eapply (sok_bind _ _ any); [destruct k as [[]|]; sok_step|intros _ _; do 2 sok_step].
  - destruct (RelPath.split to) as [[tp tn]|]; [|sok_step]. destruct (nodeid_of a tp) as [parent2|]; [|sok_step].
    eapply sok_bind; [apply Hk|intros k _]. eapply (sok_bind _ _ any); [destruct k as [[]|]; sok_step|intros _ _; do 3 sok_step].
Qed.

End Answers.

(** ** Witnesses *)

Module Sixty.
Definition held : gmap Z Handle := list_to_map ((λ i, (i, mkHandle (i + 1000) true i true)) <$> seqZ 100 64).
Definition server : Server unit := mkServer (Fixed.client tt ∅ None) (mkHandleCache held 200) ∅ ∅.
Lemma held_locked id h : held !! id = Some h → h_locked h = true.
Proof. intros H%elem_of_list_to_map_2. apply list_elem_of_fmap in H as (i & [= -> ->] & _). done. Qed.
End Sixty.

Lemma locked_cache_gives_closed_handle_witness :
  ∃ s', handle_for Demo.env 2 false Sixty.server = (Ok 7, s') ∧ cl_open (sv_fs s') !! 7 = None.
Proof.
  destruct (open Demo.env 2 (mkOpenFlags true false false false false) (sv_fs Sixty.server)) as [r c1] eqn:E.
  assert (r = Ok (7, Fixed.attr)) as -> by (vm_compute in E; injection E as <- _; reflexivity).
  destruct (locked_cache_gives_closed_handle Demo.env 2 false Sixty.server 7 Fixed.attr c1) as (s' & H1 & H2 & _).
  - vm_compute. lia.
  - exact Sixty.held_locked.
  - vm_compute. reflexivity.
  - exact E.
  - vm_compute. reflexivity.
  - exists s'. split; [exact H1|exact H2].
Defined.

Module Paged.
Definition L : Listing := [("a.txt", 2, false); ("node_modules", 4, true)].
Definition first : Server unit := server_new (Fixed.client tt ∅ None).
Definition later : Server unit := set_dirs {[ 1 := mkDirListing 0 L ]} first.
Definition st (k : nat) : Server unit := match k with O => first | _ => later end.
Definition long : string := String.concat "" (replicate 256 "x").
Definition with_long : Server unit := set_dirs {[ 1 := mkDirListing 0 [("a.txt", 2, false); (long, 9, false); ("z", 10, false)] ]} first.
End Paged.


Lemma long_name_hides_the_rest_witness :
  (op_readdir Demo.env 4 1 3 131072 Paged.with_long).1 = Err (Errno EINVAL).
Proof.
  apply (long_name_hides_the_rest Demo.env 4 1 131072 Paged.with_long
    [("a.txt", 2, false); (Paged.long, 9, false); ("z", 10, false)] 1 Paged.long 9 false).
  - vm_compute. reflexivity.
  - reflexivity.
  - vm_compute. reflexivity.
Defined.

