(* ===== verification/KernelDev.v ===== *)
(** * KernelDev: the daemon behind /dev/alloyfs

    The loop that serves the kernel (alloyfs-mount-kernel/src/dev.rs) and the
    thread that notifies it (notify.rs), as a transition system: the kernel
    queues a request, the loop polls and reads, a task of the blocking pool
    handles what was read and writes its answer, the notify thread writes a
    batch, the mount is taken down.  Polls and reads are answered by the
    operating system, in any way it likes.

    Whatever the order, no request is lost or answered twice, every answer
    carries the number of its request, and only malformed requests go
    unanswered; as long as the loop runs and no handler sleeps, whatever was
    queued can be answered.  The last part shows a handle that outlives the
    mount. *)

From S2P Require Import Prelude Messages Common Exclude Inode ReadAhead AutoCache KernelAbi Fs Agent AgentFacts Transport Overlay Symlink RemoteFs RemoteFacts KernelServer KernelFacts.

Definition EINTR : Z := 4.

(** Where the serving thread is: at the loop's head, reading what is queued, or
    gone. *)
Inductive LoopAt : Type := Head | Draining | Ended.

(** What happens next. *)
Inductive DevStep : Type :=
| Arrive (buf : list Z)                       (* the kernel queues a request *)
| Push (batch : list FsEvent)                 (* the event pump queues a batch *)
| Poll (r : result Z Z)                       (* poll(2) returns *)
| ReadRequest                                 (* [read_request] gives a request *)
| ReadFails (errno : Z)                       (* or fails *)
| Serve (i : nat)                             (* a task of the pool runs *)
| Notify (gone : list Z → bool)               (* the notify thread takes a batch *)
| Shutdown                                    (* [MountHandle::shutdown] *)
| NotifyEnds                                  (* the notify thread sees [stop], or no sink is left *)
| Close.                                      (* the end of [mount] *)

(** [mount] up to the point where the mount is live. *)
Inductive MountRefusal : Type :=
| NoDevice | NotADir | NoRuntime | InteriorNul | OpenFailed (errno : Z) (root_only : bool) | MountFailed (errno : Z) (hint : string).

Definition mount_hint (errno : Z) : string :=
  if bool_decide (errno = EPERM) then " (mounting needs CAP_SYS_ADMIN — run as root)"
  else if bool_decide (errno = ENODEV) then " (no alloyfs filesystem registered — is the module loaded?)"
  else "".

(** [do_mount]'s options. *)
Definition mount_data (fd_text : string) : string := "fd=" +:+ fd_text.

Definition mount_device (device_available is_dir in_runtime : bool) (mountpoint : string)
    (opened mounted : result unit Z) : result unit MountRefusal :=
  if negb device_available then Err NoDevice
  else if negb is_dir then Err NotADir
  else if negb in_runtime then Err NoRuntime
  else if contains_char NUL mountpoint then Err InteriorNul
  else match opened with
  | Err e => Err (OpenFailed e (bool_decide (e = EACCES) || bool_decide (e = EPERM)))
  | Ok _ => match mounted with Err e => Err (MountFailed e (mount_hint e)) | Ok _ => Ok tt end
  end.

Section Daemon.
Context {N : Type} `{NET : Net N}.
Context (env : Env) (upper : string → string) (renames_ok : list string → list string → bool) (fuel : nat).
#[local] Abbreviation Srv := (Server N).

Record Daemon : Type := mkDaemon {
  dm_arrived : list (list Z);      (* every request the kernel queued *)
  dm_pending : list (list Z);      (* those not read yet *)
  dm_tasks : list (list Z);        (* those read and not finished *)
  dm_dropped : list (list Z);      (* those that got no answer *)
  dm_served : list (list Z);       (* those that got one *)
  dm_answers : list (list Z);      (* the answers written, in that order *)
  dm_batches : list (list FsEvent);
  dm_notes : list (list Z);        (* the notifications written *)
  dm_loop : LoopAt;
  dm_notifying : bool;
  dm_stop : bool;
  dm_closed : bool;
  dm_server : Srv
}.

Definition daemon_new (s : Srv) : Daemon := mkDaemon [] [] [] [] [] [] [] [] Head true false false s.

Definition at_loop (l : LoopAt) (d : Daemon) : Daemon :=
  mkDaemon (dm_arrived d) (dm_pending d) (dm_tasks d) (dm_dropped d) (dm_served d) (dm_answers d) (dm_batches d) (dm_notes d)
    l (dm_notifying d) (dm_stop d) (dm_closed d) (dm_server d).

(** The errno of a failed read: drained or interrupted goes back to polling,
    anything else (ENODEV is the end of the mount) ends the thread. *)
Definition after_read_error (errno : Z) : LoopAt :=
  if bool_decide (errno = EAGAIN) || bool_decide (errno = EINTR) then Head else Ended.

(** [Dev::wait_readable]: an interrupted poll is a timeout. *)
Definition wait_readable (r : result Z Z) : result bool Z :=
  match r with
  | Err e => if bool_decide (e = EINTR) then Ok false else Err e
  | Ok rc => Ok (0 <? rc)
  end.

Definition serve_loop_poll (r : result bool Z) (d : Daemon) : Daemon :=
  if dm_stop d then at_loop Ended d
  else match r with Ok false => d | Ok true => at_loop Draining d | Err _ => at_loop Ended d end.

(** A request was read; a short one is ignored, others go to the pool. *)
Definition serve_loop_read (d : Daemon) : option Daemon :=
  match dm_pending d with
  | [] => None
  | buf :: pending =>
      let short := bool_decide (length buf < IN_HEADER_LEN)%nat in
      Some (mkDaemon (dm_arrived d) pending (if short then dm_tasks d else dm_tasks d ++ [buf])
        (if short then dm_dropped d ++ [buf] else dm_dropped d) (dm_served d) (dm_answers d) (dm_batches d) (dm_notes d)
        (dm_loop d) (dm_notifying d) (dm_stop d) (dm_closed d) (dm_server d))
  end.

(** A task of the pool: [write_frame]'s failure is only logged.  [None] while
    the handler sleeps. *)
Definition run_task (i : nat) (d : Daemon) : option Daemon :=
  buf ← dm_tasks d !! i;
  let finish dropped served answers s :=
    Some (mkDaemon (dm_arrived d) (dm_pending d) (delete i (dm_tasks d)) dropped served answers (dm_batches d) (dm_notes d)
      (dm_loop d) (dm_notifying d) (dm_stop d) (dm_closed d) s) in
  match handle env upper renames_ok fuel buf (dm_server d) with
  | (Ok (Some resp), s) => finish (dm_dropped d) (dm_served d ++ [buf]) (dm_answers d ++ [resp]) s
  | (Ok None, s) => finish (dm_dropped d ++ [buf]) (dm_served d) (dm_answers d) s
  | (Err Sleeps, s) => None
  | (Err _, s) => finish (dm_dropped d ++ [buf]) (dm_served d) (dm_answers d) s      (* a panic ends the task *)
  end.

Definition notify_turn (gone : list Z → bool) (d : Daemon) : option Daemon :=
  if dm_stop d then None
  else match dm_batches d with
  | [] => None
  | batch :: batches =>
      match notify_batch env gone batch (dm_server d) with
      | (Ok (alive, frames), s) =>
          Some (mkDaemon (dm_arrived d) (dm_pending d) (dm_tasks d) (dm_dropped d) (dm_served d) (dm_answers d) batches
            (dm_notes d ++ frames) (dm_loop d) alive (dm_stop d) (dm_closed d) s)
      | (Err _, _) => None
      end
  end.

Definition dev_step (st : DevStep) (d : Daemon) : option Daemon :=
  match st with
  | Arrive buf =>
      Some (mkDaemon (dm_arrived d ++ [buf]) (dm_pending d ++ [buf]) (dm_tasks d) (dm_dropped d) (dm_served d) (dm_answers d)
        (dm_batches d) (dm_notes d) (dm_loop d) (dm_notifying d) (dm_stop d) (dm_closed d) (dm_server d))
  | Push batch =>
      Some (mkDaemon (dm_arrived d) (dm_pending d) (dm_tasks d) (dm_dropped d) (dm_served d) (dm_answers d)
        (if dm_notifying d then dm_batches d ++ [batch] else dm_batches d) (dm_notes d) (dm_loop d) (dm_notifying d)
        (dm_stop d) (dm_closed d) (dm_server d))
  | Poll r => match dm_loop d with Head => Some (serve_loop_poll (wait_readable r) d) | _ => None end
  | ReadRequest => match dm_loop d with Draining => serve_loop_read d | _ => None end
  | ReadFails e => match dm_loop d with Draining => Some (at_loop (after_read_error e) d) | _ => None end
  | Serve i => run_task i d
  | Notify gone => if dm_notifying d then notify_turn gone d else None
  | Shutdown =>
      Some (mkDaemon (dm_arrived d) (dm_pending d) (dm_tasks d) (dm_dropped d) (dm_served d) (dm_answers d) (dm_batches d)
        (dm_notes d) (dm_loop d) (dm_notifying d) true (dm_closed d) (dm_server d))
  | NotifyEnds =>
      Some (mkDaemon (dm_arrived d) (dm_pending d) (dm_tasks d) (dm_dropped d) (dm_served d) (dm_answers d) (dm_batches d)
        (dm_notes d) (dm_loop d) false (dm_stop d) (dm_closed d) (dm_server d))
  | Close =>
      match dm_loop d, dm_notifying d, close_handles (dm_server d) with
      | Ended, false, (Ok _, s) =>
          Some (mkDaemon (dm_arrived d) (dm_pending d) (dm_tasks d) (dm_dropped d) (dm_served d) (dm_answers d) (dm_batches d)
            (dm_notes d) (dm_loop d) (dm_notifying d) true true s)
      | _, _, _ => None
      end
  end.

Fixpoint run_dev (steps : list DevStep) (d : Daemon) : option Daemon :=
  match steps with
  | [] => Some d
  | st :: steps => d ← dev_step st d; run_dev steps d
  end.
End Daemon.
Arguments Daemon N : clear implicits.

(** ** Every request is accounted for *)

Section Accounting.
Context {N : Type} {NET : Net N} {ov : option (RelPath → bool)} {NI : N → Prop} {NS : NetSafe NET ov NI}.
Context (env : Env) (upper : string → string) (renames_ok : list string → list string → bool) (fuel : nat).
#[local] Abbreviation Daemon := (Daemon N).
#[local] Abbreviation swf := (swf (ov := ov) (NI := NI) upper).
#[local] Abbreviation sok := (sok (ov := ov) (NI := NI) upper).

(** A request the server cannot read. *)
Definition malformed (buf : list Z) : Prop := parse_in_header buf = Some None.

(** An answer under the number of its request. *)
Definition answers_to (buf frame : list Z) : Prop := is_Some (u64_at buf 8) ∧ u64_at frame 8 = u64_at buf 8.

Record accounted (d : Daemon) : Prop := {
  ac_all : dm_arrived d ≡ₚ dm_pending d ++ dm_tasks d ++ dm_served d ++ dm_dropped d;
  ac_answers : Forall2 answers_to (dm_served d) (dm_answers d);
  ac_dropped : Forall malformed (dm_dropped d);
  ac_pending : Forall is_bytes (dm_pending d);
  ac_tasks : Forall is_bytes (dm_tasks d);
  ac_server : swf (dm_server d)
}.

Lemma sok_notify_batch gone batch : sok (notify_batch env gone batch) any.
Proof.
  induction batch as [|ev batch IH]; cbn [notify_batch]; [by apply sok_ret|].
  eapply sok_bind; [apply sok_notification|]. intros note _. destruct (note ≫= encode_notification); [|exact IH].
  destruct (gone _); [by apply sok_ret|]. eapply sok_bind; [exact IH|]. intros [alive frames] _. by apply sok_ret.
Qed.

Lemma sok_close_handles : sok close_handles any.
Proof.
  unfold close_handles. eapply sok_bind; [apply sok_get|]. intros s Hs.
  eapply (sok_bind _ _ _ _ any); [apply sok_mod|].
  - intros s' [H1 H2]. split; [exact H1|]. intros id h Hh. exfalso. cbn in Hh. by rw lookup_empty in Hh.
  - intros _ _. apply sok_release_all. apply Forall_fmap, Forall_forall. intros h Hh.
    apply list_elem_of_fmap in Hh as ((id & h') & -> & Hin%elem_of_map_to_list). by eapply (sw_handles _ _ Hs).
Qed.

Lemma short_malformed buf : (length buf < IN_HEADER_LEN)%nat → malformed buf.
Proof. intros H. unfold malformed, parse_in_header. by rw bool_decide_true. Qed.

Lemma read_accounted d d' : accounted d → serve_loop_read d = Some d' → accounted d'.
Proof.
  intros [H1 H2 H3 H4 H5 H6]. unfold serve_loop_read. destruct (dm_pending d) as [|buf pending] eqn:Hp; [done|].
  intros [= <-]. apply Forall_cons in H4 as [Hb H4]. case_bool_decide as Hs; split; cbn; try done.
  - rw H1. cbn. rewrite !(assoc_L (++)). solve_Permutation.
  - apply Forall_app_2; [done|]. repeat constructor. by apply short_malformed.
  - rw H1. cbn. solve_Permutation.
  - apply Forall_app_2; [done|]. by repeat constructor.
Qed.
Lemma task_accounted i d d' : accounted d → run_task env upper renames_ok fuel i d = Some d' → accounted d'.
Proof.
  intros [H1 H2 H3 H4 H5 H6]. unfold run_task. destruct (dm_tasks d !! i) as [buf|] eqn:Hi; cbn [mbind option_bind]; [|done].
  pose proof (proj1 (Forall_lookup _ _) H5 i buf Hi) as Hb. apply delete_Permutation in Hi as Hperm.
  pose proof (handle_answers env upper renames_ok fuel buf (dm_server d) H6 Hb) as Ha.
  destruct (handle _ _ _ _ _ _) as [[[resp|]|e] s]; destruct Ha as [Hs Ha]; [| |by subst e].
  - intros [= <-]. split; cbn; try done.
    + rw H1. revert Hperm. generalize (delete i (dm_tasks d)). intros rest ->. solve_Permutation.
    + apply Forall2_app; [done|]. apply Forall2_cons. split; [done|by apply Forall2_nil].
    + by apply Forall_delete.
  - intros [= <-]. split; cbn; try done.
    + rw H1. revert Hperm. generalize (delete i (dm_tasks d)). intros rest ->. solve_Permutation.
    + apply Forall_app_2; [done|]. by repeat constructor.
    + by apply Forall_delete.
Qed.

Definition step_bytes (st : DevStep) : Prop := match st with Arrive buf => is_bytes buf | _ => True end.

Lemma step_accounted st d d' : accounted d → step_bytes st → dev_step env upper renames_ok fuel st d = Some d' → accounted d'.
Proof.
  intros Hd Hst. destruct st as [buf|batch|r| |e|i|gone| | |]; cbn [dev_step].
  - intros [= <-]. destruct Hd as [H1 H2 H3 H4 H5 H6]. split; cbn; try done.
    + rw H1. solve_Permutation.
    + apply Forall_app_2; [done|]. by repeat constructor.
  - intros [= <-]. by destruct Hd.
  - destruct (dm_loop d); try done. intros [= <-]. unfold serve_loop_poll, at_loop. by destruct (dm_stop d), (wait_readable r) as [[]|], Hd.
  - destruct (dm_loop d); try done. by apply read_accounted.
  - destruct (dm_loop d); try done. intros [= <-]. by destruct Hd.
  - by apply task_accounted.
  - destruct (dm_notifying d); [|done]. unfold notify_turn. destruct (dm_stop d); [done|]. destruct (dm_batches d) as [|batch rest]; [done|].
    destruct Hd as [H1 H2 H3 H4 H5 H6]. pose proof (sok_notify_batch gone batch _ H6) as [Hs _].
    destruct (notify_batch _ _ _ _) as [[[alive frames]|] s]; [|done]. intros [= <-]. by split.
  - intros [= <-]. by destruct Hd.
  - intros [= <-]. by destruct Hd.
  - destruct Hd as [H1 H2 H3 H4 H5 H6]. pose proof (sok_close_handles _ H6) as [Hs _].
    destruct (dm_loop d), (dm_notifying d); try done. destruct (close_handles _) as [[|] s]; [|done]. intros [= <-]. by split.
Qed.

Lemma run_accounted steps d d' : accounted d → Forall step_bytes steps → run_dev env upper renames_ok fuel steps d = Some d' →
  accounted d'.
Proof.
  intros Hd Hs. revert d Hd. induction Hs as [|st steps Hst _ IH]; intros d Hd; cbn [run_dev]; [by intros [= <-]|].
  destruct (dev_step _ _ _ _ st d) as [d1|] eqn:E; cbn [mbind option_bind]; [|done]. apply IH. by eapply step_accounted.
Qed.

End Accounting.

(** ** What was queued can be answered *)

Section Draining.
Context {N : Type} `{NET : Net N}.
Context (env : Env) (upper : string → string) (renames_ok : list string → list string → bool) (fuel : nat).
#[local] Abbreviation Daemon := (Daemon N).
#[local] Abbreviation run := (run_dev (N := N) env upper renames_ok fuel).

(** States in which the handlers of these requests do not sleep. *)
Context (A : Server N → Prop) (R : list Z → Prop).
Hypothesis awake : ∀ buf s, A s → R buf → ∃ out s', handle env upper renames_ok fuel buf s = (Ok out, s') ∧ A s'.

Lemma run_app steps1 steps2 d d1 : run steps1 d = Some d1 → run (steps1 ++ steps2) d = run steps2 d1.
Proof.
  revert d. induction steps1 as [|st steps1 IH]; intros d; cbn [run_dev app]; [by intros [= <-]|].
  destruct (dev_step _ _ _ _ st d) as [d0|]; cbn [mbind option_bind]; [apply IH|done].
Qed.

(** Reading until nothing is queued. *)
Lemma drain_queue (d : Daemon) : dm_loop d = Draining → ∃ d', run (replicate (length (dm_pending d)) ReadRequest) d = Some d' ∧
  dm_pending d' = [] ∧ dm_loop d' = Draining ∧ dm_server d' = dm_server d ∧
  (∀ P : list Z → Prop, Forall P (dm_pending d) → Forall P (dm_tasks d) → Forall P (dm_tasks d')).
Proof.
  remember (dm_pending d) as pending eqn:Hp. revert d Hp. induction pending as [|buf pending IH]; intros d Hp Hl; cbn [replicate length run_dev].
  - by exists d.
  - cbn [dev_step]. rw Hl. unfold serve_loop_read. rw -Hp. cbn [mbind option_bind]. case_bool_decide.
    + edestruct (IH) as (d' & -> & H1 & H2 & H3 & H4); [..|exists d']; [done|done|]. split_and!; try done.
      intros P [_ HP]%Forall_cons Ht. by apply H4.
    + edestruct (IH) as (d' & -> & H1 & H2 & H3 & H4); [..|exists d']; [done|done|]. split_and!; try done.
      intros P [Hb HP]%Forall_cons Ht. apply H4; [done|]. cbn. apply Forall_app_2; [done|]. by repeat constructor.
Qed.

(** Running every task. *)
Lemma run_tasks (d : Daemon) : A (dm_server d) → Forall R (dm_tasks d) →
  ∃ d', run (replicate (length (dm_tasks d)) (Serve 0)) d = Some d' ∧ dm_tasks d' = [] ∧ dm_pending d' = dm_pending d.
Proof using awake.
  remember (dm_tasks d) as tasks eqn:Ht. revert d Ht. induction tasks as [|buf tasks IH]; intros d Ht Ha Hr; cbn [replicate length run_dev].
  - by exists d.
  - apply Forall_cons in Hr as [Hb Hr]. destruct (awake buf (dm_server d) Ha Hb) as (out & s' & E & Ha').
    cbn [dev_step]. unfold run_task. rw -Ht. change ((buf :: tasks) !! 0%nat) with (Some buf). cbn [mbind option_bind]. rw E.
    destruct out; cbn [mbind option_bind]; (edestruct IH as (d' & -> & H1 & H2); [..|exists d'; by split_and!]); done.
Qed.

(** No request waits for ever: while the serving thread runs and no handler
    sleeps, whatever the kernel has queued can be read and answered, by polling
    once and running the tasks. *)
Theorem queued_requests_drain (d : Daemon) : dm_loop d = Head → dm_stop d = false → A (dm_server d) →
  Forall R (dm_pending d) → Forall R (dm_tasks d) →
  ∃ steps d', run steps d = Some d' ∧ dm_pending d' = [] ∧ dm_tasks d' = [].
Proof using awake.
  intros Hl Hs Ha Hp Ht. set (d1 := at_loop Draining d). destruct (drain_queue d1 eq_refl) as (d2 & E2 & P2 & L2 & S2 & T2).
  destruct (run_tasks d2) as (d3 & E3 & T3 & P3); [by rw S2|by apply T2|].
  exists ([Poll (Ok 1)] ++ replicate (length (dm_pending d1)) ReadRequest ++ replicate (length (dm_tasks d2)) (Serve 0)), d3.
  split; [|by rw P3]. cbn [app run_dev dev_step]. rw Hl. unfold serve_loop_poll, wait_readable. rw Hs. cbn [mbind option_bind]. fold d1.
  by rw (run_app _ _ _ _ E2).
Qed.
End Draining.

(** ** A concrete mount *)

Module Device.
Definition request (opcode unique nodeid size : Z) (payload : list Z) : list Z :=
  in_header_bytes (mkInHeader (40 + blen payload) opcode unique nodeid 0 size) ++ payload.
Definition look : list Z := request OP_LOOKUP 77 1 0 (as_bytes "a.txt").
Definition get : list Z := request OP_READ 78 2 5 [].
Definition logged : Server (Logged unit) := server_new (Fixed.client (mkLogged tt []) {[ 7 := Fixed.open_state "b.txt" ]} None).
Definition plain : Server unit := server_new (Fixed.client tt ∅ None).
Definition run {N} `{Net N} := run_dev (N := N) Demo.env (λ s, s) (λ _ _, true) 4.
(** Two requests and a stray byte, answered out of order. *)
Definition busy : list DevStep :=
  [Arrive look; Arrive [1]; Poll (Err EINTR); Poll (Ok 1); ReadRequest; Arrive get; ReadRequest; ReadRequest; Serve 1; ReadFails EAGAIN].
End Device.

Example device_busy :
  (λ d, ((λ frame, u64_at frame 8) <$> dm_answers d, length (dm_tasks d), dm_dropped d, dm_loop d)) <$> Device.run Device.busy (daemon_new Device.plain)
  = Some ([Some 78], 1%nat, [[1]], Head).
Proof. vm_compute. reflexivity. Qed.


Lemma queued_requests_drain_witness :
  ∃ d steps d', Device.run [Arrive Device.look; Arrive Device.look] (daemon_new Device.plain) = Some d ∧
    Device.run steps d = Some d' ∧ dm_pending d' = [] ∧ dm_tasks d' = [].
Proof.
  eexists. destruct (queued_requests_drain Demo.env (λ s, s) (λ _ _, true) 4
    (λ s, s = Device.plain ∨ s = (handle Demo.env (λ s, s) (λ _ _, true) 4 Device.look Device.plain).2) (λ buf, buf = Device.look))
    with (d := default (daemon_new Device.plain) (Device.run [Arrive Device.look; Arrive Device.look] (daemon_new Device.plain)))
    as (steps & d' & H).
  - intros buf s [->| ->] ->; eexists _, _; (split; [vm_compute; reflexivity|right; vm_compute; reflexivity]).
  - reflexivity.
  - reflexivity.
  - by left.
  - repeat (apply Forall_cons; split); by try apply Forall_nil_2.
  - apply Forall_nil_2.
  - exists steps, d'. split; [vm_compute; reflexivity|exact H].
Defined.

(** The mount ends with a read still in the pool: the handles are given back,
    and then the read opens another one, which nobody gives back. *)
Theorem late_task_leaks_handle :
  let ends := [ReadFails ENODEV; NotifyEnds; Close; Serve 0] in
  (λ d, (dm_closed d, length (dm_answers d), map_to_list (h_fh <$> hc_map (sv_handles (dm_server d))))) <$>
    Device.run ([Arrive Device.get; Poll (Ok 1); ReadRequest] ++ ends) (daemon_new Device.plain)
  = Some (true, 1%nat, [(2, 7)]).
Proof. vm_compute. reflexivity. Qed.
